(* ===== verification/_CoqProject ===== *)
-Q . S2P
Prelude.v
Varint.v
Params.v
Frame.v
Heap.v
WriteLock.v
Config.v
State.v
Transport.v
Core.v
Stream.v
Conn.v
Endpoint.v
System.v
Facts.v
Ids.v
Table.v
Flow.v
Life.v
Control.v
Wake.v
Wire.v
Scenario.v
WireTheorems.v
Grammar.v
ConnTheorems.v
LifeTheorems.v
History.v
Grow.v
FrameTheorems.v
EndpointTheorems.v
Refine.v
Closing.v
Sender.v
Release.v
Receiver.v
Delivery.v
Calls.v
Api.v
Contracts.v
Peers.v
Ahead.v
Compat.v
Interop.v
Credit.v
Stop.v
Settle.v
Goroutines.v
Serial.v
Order.v
Sizes.v
Concurrent.v
Transfer.v
Schedule.v
Meeting.v
Witnesses.v
Findings.v
