(* ===== verification/Prelude.v ===== *)
(** * Verification of qmux-go

    qmux-go (package [qmux], with [qmux/internal/wire]) runs QUIC's streams and
    datagrams over a reliable, ordered transport. This development models the
    package and proves it correct.

    ** The program

    - [qmux/internal/wire] encodes and decodes frames and transport parameters
      on top of quic-go's variable-length integers.
    - [qmux/transport.go] carries records, each a sequence of frames, on a byte
      stream or on a message transport; [qmux/adapter.go] turns a message
      transport into a byte stream.
    - [qmux/conn.go] is the connection: flow control, the stream tables, the
      handlers of the peer's frames, the control queue, pings, datagrams, and
      the goroutines [readLoop], [writeLoop], [idleLoop] and [keepAliveLoop].
    - [qmux/stream.go] is the stream: its two directions, and the blocking calls
      [Read], [Peek] and [Write].
    - [qmux/write_lock.go] is the mutex that orders the writers of records.
    - [qmux/qmux.go] holds the configuration and starts a connection.

    The state of a connection and of its streams is guarded by one mutex,
    [Conn.mu]. A critical section is a function on the state ([State.Conn]); the
    goroutines interleave critical sections in any order, and a blocking call is
    a loop of critical sections with waits between them. Records are written
    with the write lock held, which the source takes before the mutex.

    ** The files

    Prelude: machine integers, bytes, sums over lists, record updates.
    Varint: quic-go's [quicvarint] as a class [QuicVarint] with its documented
    laws, and RFC 9000's encoding as an instance.
    Params, Frame: [wire/params.go] and [wire/frame.go], with the facts about
    encoding and parsing.
    Heap, WriteLock: Go's [container/heap] and [write_lock.go]; theorems on the
    lock.
    Config: [Config], [normalized] and [localParameters].
    State: the structs of [conn.go] and [stream.go]. A [*stream] is an index
    into [c_heap], so that the map, the accept queue and the application share
    one object; a channel is a number, and [c_closed] holds the closed ones.
    Transport: [recordTransport] as a class with laws, its two implementations,
    and the adapter.
    Core, Stream, Conn: the critical sections, one definition for each function
    of the source, with the source's names.
    Endpoint: a connection on a transport: writing records, closing, and the
    bodies of the goroutines' loops.
    System: the transition system. [op] is any critical section with its
    arguments, [valid] what Go's types and the API guarantee of them, [reach]
    the states that any interleaving can produce.
    Facts, Ids, Table, Flow, Life, Control, Wake, Wire: the invariants and the
    lemmas of each part, proved for every operation of [System].
    Calls: the blocking calls as transition systems of their own. Contracts: what
    [Read] and [Write] wait for and return.
    Api: the exported stream types with their methods, the connection's reports,
    and the addresses and deadlines that transports forward.
    WireTheorems, ConnTheorems, LifeTheorems, History, FrameTheorems,
    EndpointTheorems, Refine: the theorems about one endpoint.
    Grow, Sender, Receiver, Delivery: the two ends of a stream. Grow lifts a
    relation on streams to every operation; Sender and Receiver follow the two
    sides of a stream; Delivery puts them together for an endpoint whose calls
    run one at a time, as Endpoint has them.
    Peers, Ahead, Compat, Interop: two connections that talk to each other. Peers
    has the pair and its steps; Ahead and Compat the invariant that links their
    states and the frames between them, for what an endpoint does by itself;
    Interop handles the frames, and has the theorems.
    Credit, Stop, Settle: the same pair, over time. Credit shows that no raised
    limit is lost on its way to the peer, Stop that no STOP_SENDING frame is, and
    Settle that the two come to rest and agree.
    Goroutines, Serial, Order, Sizes, Concurrent, Transfer: the goroutines step by
    step. Goroutines cuts every call that takes the write lock at the points where another
    goroutine can run; Serial shows that one at a time is in the lock, Order that
    the records hold the frames in the order in which they were given out, Sizes
    bounds the records, and Concurrent that the pair of Peers simulates two endpoints that run this way.
    Transfer follows the data of a stream through them.
    Schedule executes schedules of them, and Meeting has concrete ones.
    Closing, Release: the end of a connection, seen from the peer and from the
    transport, and [start].
    Grammar: the wire format written as a grammar, and [Parse] against it.
    Scenario, Witnesses: concrete runs, and an instance of every theorem that
    has hypotheses.
    Findings: what the code does where it departs from what it documents.

    ** What is proved

    - Wire format: encoding a frame, a set of parameters or a record and parsing
      it gives it back; truncated and malformed input is an error with the right
      code; records survive the two transports and the adapter.
    - Wire grammar: [Parse] returns a frame exactly when the input starts with an
      encoding of it by the grammar of the draft and of RFC 9000, whatever the
      lengths of its integers, and the same for the transport parameters.
    - Write lock: mutual exclusion with no lost hand-off; waiters are served in
      the order of their rank, incremental writers of one urgency in turn; the
      binary heap refines a multiset of waiters.
    - Streams: the stream table holds exactly the live streams; the peer never
      has more streams open than configured; a stream is done exactly when it is
      accepted and both directions have ended.
    - Flow control: what is buffered is within the windows, for each stream and
      for the connection; this endpoint never sends past the peer's limits; the
      peer gets its credit back.
    - Delivery: between two endpoints, what one application reads from a stream
      is a prefix of what the other wrote to it, and all of it at the end of the
      stream, whatever else the two do and however their goroutines interleave
      ([streams_deliver]).
    - Interoperation: two connections of this package never reject each other's
      frames; what one may send is always within what the other has granted; and
      when nothing is on its way, both agree on the offset and the end of every
      stream. The steps of the pair are those of the endpoint's writers
      ([writers_act]).
    - Interleaving: in every interleaving of the goroutines of an endpoint, as
      long as its transport refuses no record, the records hold exactly the frames
      that critical sections have given out, in that order; the transport
      parameters are the first frame and CONNECTION_CLOSE is the last. Whatever the
      transport does, no goroutine panics and the lock is always released. Two
      endpoints that run this way, both open and without a refused record, are
      simulated by the pair, and none rejects a record of the other, in size or
      in content ([goroutines_refine_pair], [records_never_rejected]).
    - Rest: two endpoints whose applications are idle exchange a bounded number of
      frames ([work]), then they agree on all limits; a writer still waiting then
      waits for the other application to read, so flow control never deadlocks.
    - The end: closing a connection, and a violation of the protocol, end it at
      both ends with the same code and reason; the transport is closed when, and
      only when, the connection has ended, at once or by a timer; [start] returns
      a connection that is ready, or an error and no open transport.
    - Data: in every run, what is read from a stream is a prefix of what was
      received, in order; what is sent is contiguous; a final size is final.
    - Frames: each branch of the handlers, with the error or the effect; a record
      is handled frame by frame to its end.
    - Exported types: whatever the application calls on a stream that it got from
      the connection is allowed in the state the stream is then in; the reported
      round-trip times stay within the samples.
    - Blocking: no wake-up is lost, closing the connection unblocks every call,
      and [Read] and [Write] keep their contracts under interference.
    - Endpoint: what each operation puts on the transport; every step of an
      endpoint is a run of [System]'s operations, so the invariants hold for it.

    ** Bounds and fuel

    Integers have the width of the source: [u64] and [i64] wrap, and the proofs
    show where they do not. The theorems about reachable states assume
    [in_range]: QUIC's 62-bit offsets and 60-bit stream counts have not run out,
    which takes 4 EiB of data or 2^60 streams on one connection. [Findings] shows
    what happens at the edge.
    Error codes of the application are below 2^62 in the transition systems
    ([System.valid], [Goroutines.can_begin]), although [CloseWithError],
    [CancelRead] and [CancelWrite] take any [uint64]: with a larger one the
    process panics, [CloseWithError] at once ([close_code_panics],
    [close_reaches_peer]) and the other two when the control queue is flushed
    ([cancel_code_panics]). So the theorems that nothing panics are about codes
    that QUIC can express.
    Fuel: [parse_loop] and [record_loop] get one more than the length of their
    input, and every iteration consumes a byte, so that it never runs out
    ([parseParameters_total], [handleRecord_exact]); [open_loop] gets the number
    of streams to open; [fill] gets one more than the number of pending messages;
    the heap's loops get the length of the heap.

    ** Parameters

    [QuicVarint] (quic-go), [GoAppend] (how Go grows a slice), [MessageConn] (the
    application's transport) and [RecordTransport] are classes with the behaviour
    they document as laws; each is instantiated ([RFC9000.varint], [Scenario],
    [Queue.queue], [streamTransport], [messageTransport]). What closing a
    transport does is [ClosableTransport], with the same instances.

    ** Not modelled

    [Context] and the accessors that return a field. Aliasing of the buffers that
    [readRecord] returns: the handlers copy what they keep, which is all that
    happens before the next call. Timers and the scheduler: a timer's expiry is a
    step that may happen at any time its condition holds, and a call of the
    transport, or a critical section, is one step. Build scripts. *)

From Stdlib Require Export ZArith Lia Strings.Byte.
From stdpp Require Export base list numbers gmap option.
From Stdlib Require Import Strings.String.
From Stdlib Require HexadecimalString DecimalString.
#[local] Abbreviation length := Datatypes.length.

#[global] Open Scope Z_scope.

(** * Machine integers

    A Go [uint64] is a [Z] in the range of [is_u64]; every arithmetic
    operation of the source that can leave it is followed by [u64]. A
    [time.Duration] is an [int64], wrapped by [i64]. *)

Definition u64 (x : Z) : Z := x mod 2 ^ 64.
Definition is_u64 (x : Z) : Prop := 0 <= x < 2 ^ 64.
Definition i64 (x : Z) : Z := (x + 2 ^ 63) mod 2 ^ 64 - 2 ^ 63.
Definition is_i64 (x : Z) : Prop := - 2 ^ 63 <= x < 2 ^ 63.
(** [quicvarint.Max], the largest QUIC variable-length integer. *)
Abbreviation varint_max := (2 ^ 62 - 1).
Definition is_varint (x : Z) : Prop := 0 <= x <= varint_max.

Lemma u64_id x : is_u64 x -> u64 x = x.
Proof. unfold is_u64, u64. intros. apply Z.mod_small. lia. Qed.

Lemma u64_range x : is_u64 (u64 x).
Proof. unfold is_u64, u64. apply Z.mod_pos_bound. lia. Qed.

Lemma i64_id x : is_i64 x -> i64 x = x.
Proof. unfold is_i64, i64. intros. rewrite Z.mod_small; lia. Qed.

Lemma i64_range x : is_i64 (i64 x).
Proof.
  unfold is_i64, i64. pose proof (Z.mod_pos_bound (x + 2 ^ 63) (2 ^ 64)). lia.
Qed.

Lemma is_varint_0 : is_varint 0.
Proof. unfold is_varint. lia. Qed.

Lemma is_varint_u64 x : is_varint x -> is_u64 x.
Proof. unfold is_varint, is_u64. lia. Qed.

(** * Bytes, slices and strings

    A Go string is its bytes, so [bytes] models both [[]byte] and [string]. *)

Abbreviation byte := Byte.byte.
Abbreviation bytes := (list Byte.byte).

Definition b2z (b : byte) : Z := Z.of_N (Byte.to_N b).
Definition z2b (z : Z) : byte :=
  match Byte.of_N (Z.to_N (z mod 256)) with Some b => b | None => "000"%byte end.

#[global] Arguments b2z : simpl never.
#[global] Arguments z2b : simpl never.

#[global] Instance byte_eq_decision : EqDecision byte := Byte.byte_eq_dec.

Lemma b2z_range b : 0 <= b2z b < 256.
Proof. unfold b2z. pose proof (Byte.to_N_bounded b). lia. Qed.

Lemma b2z_z2b z : 0 <= z < 256 -> b2z (z2b z) = z.
Proof.
  intros H. unfold b2z, z2b. rewrite Z.mod_small by lia.
  destruct (Byte.of_N (Z.to_N z)) eqn:E.
  - apply Byte.to_of_N in E. rewrite E. lia.
  - apply Byte.of_N_None_iff in E. lia.
Qed.

Lemma z2b_b2z b : z2b (b2z b) = b.
Proof.
  unfold b2z, z2b. pose proof (Byte.to_N_bounded b).
  rewrite Z.mod_small by lia. rewrite N2Z.id, Byte.of_to_N. done.
Qed.

Lemma z2b_inj x y : 0 <= x < 256 -> 0 <= y < 256 -> z2b x = z2b y -> x = y.
Proof. intros Hx Hy E. rewrite <- (b2z_z2b x), <- (b2z_z2b y), E; done. Qed.

(** Go's [len] as an integer of the model. *)
Abbreviation zlen l := (Z.of_nat (length l)).
(** [l[:n]] and [l[n:]], for [n] in range. *)
Abbreviation ztake n l := (take (Z.to_nat n) l).
Abbreviation zdrop n l := (drop (Z.to_nat n) l).

(** String literals, and the verbs [%x] and [%d] of [fmt.Sprintf] on a
    non-negative integer. *)
Export String.StringSyntax.
Definition str (s : String.string) : bytes := String.list_byte_of_string s.
#[global] Arguments str s%_string : simpl never.
Definition fmt_x (z : Z) : bytes :=
  str (HexadecimalString.NilZero.string_of_uint (N.to_hex_uint (Z.to_N z))).
Definition fmt_d (z : Z) : bytes :=
  str (DecimalString.NilZero.string_of_uint (N.to_uint (Z.to_N z))).

#[global] Arguments fmt_x : simpl never.
#[global] Arguments fmt_d : simpl never.

(** * Sums over lists *)

Section sums.
Context {A : Type}.
Implicit Types (f g : A -> Z) (l : list A).

Definition sumZ f l : Z := foldr (fun x acc => f x + acc) 0 l.
#[local] Arguments sumZ : simpl never.

Lemma sumZ_app f l k : sumZ f (l ++ k) = sumZ f l + sumZ f k.
Proof. induction l as [|x l IH]; [done|]. unfold sumZ in *. simpl. lia. Qed.

Lemma sumZ_nil f : sumZ f [] = 0.
Proof. done. Qed.

Lemma sumZ_cons f x l : sumZ f (x :: l) = f x + sumZ f l.
Proof. done. Qed.

Lemma sumZ_insert f l i x y :
  l !! i = Some x -> sumZ f (<[i := y]> l) = sumZ f l - f x + f y.
Proof.
  revert i. induction l as [|z l IH]; intros [|i] H; simplify_eq/=.
  - rewrite !sumZ_cons. lia.
  - rewrite !sumZ_cons, (IH _ H). lia.
Qed.

Lemma sumZ_nonneg f l : (forall x, x ∈ l -> 0 <= f x) -> 0 <= sumZ f l.
Proof.
  induction l as [|x l IH]; intros H; [done|]. rewrite sumZ_cons.
  assert (0 <= f x) by (apply H; left).
  assert (0 <= sumZ f l) by (apply IH; intros; apply H; right; done). lia.
Qed.

Lemma sumZ_le f g l : (forall x, x ∈ l -> f x <= g x) -> sumZ f l <= sumZ g l.
Proof.
  induction l as [|x l IH]; intros H; [done|]. rewrite !sumZ_cons.
  assert (f x <= g x) by (apply H; left).
  assert (sumZ f l <= sumZ g l) by (apply IH; intros; apply H; right; done). lia.
Qed.

(** One term of a sum of non-negative terms is at most the sum. *)
Lemma sumZ_elem f l i x :
  (forall y, y ∈ l -> 0 <= f y) -> l !! i = Some x -> f x <= sumZ f l.
Proof.
  revert i. induction l as [|z l IH]; intros [|i] H E; simplify_eq/=; rewrite sumZ_cons.
  - pose proof (sumZ_nonneg f l (fun y Hy => H y (list_elem_of_further y _ _ Hy))). lia.
  - assert (0 <= f z) by (apply H; left).
    pose proof (IH i (fun y Hy => H y (list_elem_of_further y _ _ Hy)) E). lia.
Qed.
End sums.
#[global] Arguments sumZ : simpl never.

(** * Record update

    [settable] rebuilds a record from its projections; [setter p] is the
    function that replaces the field [p], written with the projections so
    that [simpl] reduces a projection of an update and leaves a bare update
    folded. *)

Class Settable (R : Type) := settable : R -> R.

Ltac setter proj :=
  lazymatch type of proj with
  | ?R -> ?T =>
      refine (fun (v : T) (r : R) => (_ : R));
      match goal with
      | v : T, r : R |- _ =>
          let e := constr:(@settable R _ r) in
          let e := eval unfold settable in e in
          let e := eval hnf in e in
          let e := eval pattern (proj r) in e in
          lazymatch e with
          | ?f _ => let b := eval cbv beta in (f v) in exact b
          end
      end
  end.

(** * Automation *)

Create HintDb qmux.
Create Rewrite HintDb qmux.
#[export] Hint Rewrite @length_app @length_take @length_drop @length_cons @length_nil
  @sumZ_app @sumZ_cons @sumZ_nil : qmux.

(** Turns the boolean comparisons of the source into arithmetic facts. *)
Ltac breflect :=
  repeat match goal with
  | H : context [Z.ltb ?a ?b] |- _ => destruct (Z.ltb_spec a b); simplify_eq/=
  | H : context [Z.leb ?a ?b] |- _ => destruct (Z.leb_spec a b); simplify_eq/=
  | H : context [Z.eqb ?a ?b] |- _ => destruct (Z.eqb_spec a b); simplify_eq/=
  | |- context [Z.ltb ?a ?b] => destruct (Z.ltb_spec a b); simplify_eq/=
  | |- context [Z.leb ?a ?b] => destruct (Z.leb_spec a b); simplify_eq/=
  | |- context [Z.eqb ?a ?b] => destruct (Z.eqb_spec a b); simplify_eq/=
  end.

(** Case analysis on the scrutinee of a [match] or [if] of a hypothesis. *)
Ltac step_match H :=
  match type of H with
  | context [match ?x with _ => _ end] => destruct x eqn:?; simplify_eq/=
  end.

(** Removes wrap-arounds whose argument is provably in range. *)
Ltac unwrap_u64 :=
  repeat match goal with
  | |- context [u64 ?x] => rewrite (u64_id x) by (unfold is_u64; lia)
  | H : context [u64 ?x] |- _ => rewrite (u64_id x) in H by (unfold is_u64; lia)
  end.

(** Makes a local definition opaque, also to the kernel: the rest of the proof
    becomes a function of [x]. *)
Ltac forget x := clearbody x; generalize dependent x; intros x; intros.
