(* ===== verification/Varint.v ===== *)
(** The interface of [quicvarint] (github.com/quic-go/quic-go/quicvarint).

    The encoder and decoder of QUIC's variable-length integers is a
    third-party package, so it is a parameter of the development: the class
    [QuicVarint] has its functions, and [QuicVarintLaws] what its
    documentation and RFC 9000, Section 16 say of them. Every theorem about
    frames is proved against the laws. Module [RFC9000] is an executable
    instance, which shows that the laws can hold and lets the witnesses
    compute. *)

From S2P Require Import Prelude.

Class QuicVarint := {
  (** [Append(b, v)]; [None] is the panic on a value above [Max]. *)
  varint_append : bytes -> Z -> option bytes;
  (** [Len(v)]; [None] is the panic on a value above [Max]. *)
  varint_len : Z -> option Z;
  (** [Parse(b)]: the value and the number of bytes; [None] is the error on
      input that is too short. *)
  varint_parse : bytes -> option (Z * Z);
  (** [Read(r)] of a reader with the bytes [b] left: the value and how many
      bytes it took; [None] is the reader's error on input that is too short. *)
  varint_read : bytes -> option (Z * Z);
}.

(** The size of the encoding that starts with the byte [b]: its two most
    significant bits are the base-2 logarithm (RFC 9000, Section 16). *)
Definition prefix_size (b : byte) : Z := 2 ^ Z.shiftr (b2z b) 6.

(** The size of the shortest encoding of [v]. *)
Definition varint_size (v : Z) : Z :=
  if v <=? 63 then 1 else if v <=? 16383 then 2 else if v <=? 1073741823 then 4 else 8.

Class QuicVarintLaws (V : QuicVarint) := {
  append_panics b v : varint_max < v -> varint_append b v = None;
  append_appends b v e : varint_append [] v = Some e -> varint_append b v = Some (b ++ e);
  append_total b v : is_varint v -> is_Some (varint_append b v);
  append_size v e : is_varint v -> varint_append [] v = Some e -> zlen e = varint_size v;
  append_one_byte b v : 0 <= v <= 63 -> varint_append b v = Some (b ++ [z2b v]);
  len_size v : is_varint v -> varint_len v = Some (varint_size v);
  parse_append v e rest :
    is_varint v -> varint_append [] v = Some e ->
    varint_parse (e ++ rest) = Some (v, varint_size v);
  parse_empty : varint_parse [] = None;
  parse_short b t : zlen (b :: t) < prefix_size b -> varint_parse (b :: t) = None;
  parse_long b t :
    prefix_size b <= zlen (b :: t) ->
    exists v, varint_parse (b :: t) = Some (v, prefix_size b) /\ is_varint v;
  parse_extend b v n rest :
    varint_parse b = Some (v, n) -> varint_parse (b ++ rest) = Some (v, n);
  read_parse b : varint_read b = varint_parse b;
}.

Lemma varint_size_range v : 1 <= varint_size v <= 8.
Proof. unfold varint_size. repeat case_match; lia. Qed.

Lemma varint_size_mono v w : v <= w -> varint_size v <= varint_size w.
Proof. intros H. unfold varint_size. breflect; lia. Qed.

Lemma prefix_size_range b : 1 <= prefix_size b <= 8.
Proof.
  unfold prefix_size. rewrite Z.shiftr_div_pow2 by lia. pose proof (b2z_range b).
  assert (Hr : 0 <= b2z b / 2 ^ 6 <= 3)
    by (split; [apply Z.div_pos; lia | apply Z.lt_succ_r, Z.div_lt_upper_bound; lia]).
  revert Hr. generalize (b2z b / 2 ^ 6). intros k Hk.
  assert (k = 0 \/ k = 1 \/ k = 2 \/ k = 3) as [-> | [-> | [-> | ->]]] by lia; simpl; lia.
Qed.

(** * Consequences of the laws *)

Section laws.
Context {V : QuicVarint} {VL : QuicVarintLaws V}.

(** The encoding of a number in range. *)
Definition enc (v : Z) : bytes := default [] (varint_append [] v).

Lemma append_enc b v : is_varint v -> varint_append b v = Some (b ++ enc v).
Proof.
  intros H. destruct (append_total [] v H) as [e E]. unfold enc. rewrite E. simpl.
  by apply append_appends.
Qed.

Lemma enc_size v : is_varint v -> zlen (enc v) = varint_size v.
Proof.
  intros H. unfold enc. destruct (append_total [] v H) as [e E]. rewrite E. simpl.
  by apply append_size.
Qed.

Lemma enc_byte v : 0 <= v <= 63 -> enc v = [z2b v].
Proof. intros H. unfold enc. rewrite append_one_byte by done. done. Qed.

Lemma parse_enc v rest :
  is_varint v -> varint_parse (enc v ++ rest) = Some (v, varint_size v).
Proof.
  intros H. unfold enc. destruct (append_total [] v H) as [e E]. rewrite E. simpl.
  by apply parse_append.
Qed.

Lemma enc_nonempty v : is_varint v -> enc v <> [].
Proof. intros H E. pose proof (enc_size v H). pose proof (varint_size_range v). rewrite E in *. simpl in *. lia. Qed.

(** Only zero has an encoding that starts with a zero byte, the byte of a
    PADDING frame. *)
Lemma enc_head_zero v t : is_varint v -> enc v = z2b 0 :: t -> v = 0.
Proof.
  intros Hv E. pose proof (parse_enc v [] Hv) as Hp. rewrite app_nil_r, E in Hp.
  assert (prefix_size (z2b 0) = 1) as Hs by done.
  destruct (parse_long (z2b 0) t) as (w & Hw & _).
  { rewrite Hs. rewrite length_cons. lia. }
  rewrite Hs, Hp in Hw. injection Hw as <- Hw.
  assert (0 <= v <= 63) as Hle.
  { unfold is_varint in Hv. unfold varint_size in Hw. breflect; lia. }
  rewrite enc_byte in E by done. injection E as E _.
  by apply z2b_inj in E; [|lia..].
Qed.

Lemma parse_Some b v n :
  varint_parse b = Some (v, n) -> is_varint v /\ 1 <= n <= 8 /\ n <= zlen b.
Proof.
  intros E. destruct b as [|x t]; [by rewrite parse_empty in E|].
  destruct (decide (prefix_size x <= zlen (x :: t))) as [Hl|Hl].
  - destruct (parse_long x t Hl) as (w & Hw & Hr). rewrite Hw in E. simplify_eq.
    pose proof (prefix_size_range x). auto.
  - rewrite parse_short in E by lia. done.
Qed.
End laws.

(** * An instance *)

Module RFC9000.
(** The [n] bytes of [v] in network order. *)
Fixpoint be (n : nat) (v : Z) : bytes :=
  match n with
  | O => []
  | S n => be n (v / 256) ++ [z2b v]
  end.

Definition of_be (l : bytes) : Z := fold_left (fun acc b => acc * 256 + b2z b) l 0.

Definition append (b : bytes) (v : Z) : option bytes :=
  if v <=? 63 then Some (b ++ [z2b v])
  else if v <=? 16383 then Some (b ++ be 2 (v + 1 * 2 ^ 14))
  else if v <=? 1073741823 then Some (b ++ be 4 (v + 2 * 2 ^ 30))
  else if v <=? varint_max then Some (b ++ be 8 (v + 3 * 2 ^ 62))
  else None.

Definition len (v : Z) : option Z :=
  if v <=? varint_max then Some (varint_size v) else None.

Definition parse (b : bytes) : option (Z * Z) :=
  match b with
  | [] => None
  | x :: _ =>
      let n := prefix_size x in
      if zlen b <? n then None
      else Some (of_be (ztake n b) mod 2 ^ (8 * n - 2), n)
  end.

Definition varint : QuicVarint :=
  {| varint_append := append; varint_len := len; varint_parse := parse; varint_read := parse |}.

Lemma length_be n v : length (be n v) = n.
Proof. revert v. induction n as [|n IH]; intros v; simpl; [done|]. rewrite length_app, IH. simpl. lia. Qed.

Lemma of_be_app l b : of_be (l ++ [b]) = of_be l * 256 + b2z b.
Proof. unfold of_be. by rewrite fold_left_app. Qed.

Lemma z2b_mod v : b2z (z2b v) = v mod 256.
Proof.
  pose proof (Z.mod_pos_bound v 256). unfold z2b at 1.
  assert (z2b v = z2b (v mod 256)) as E by (unfold z2b; rewrite Z.mod_mod by lia; done).
  fold (z2b v). rewrite E. apply b2z_z2b. lia.
Qed.

Lemma of_be_be n v : 0 <= v < 256 ^ Z.of_nat n -> of_be (be n v) = v.
Proof.
  revert v. induction n as [|n IH]; intros v Hv.
  - simpl in *. unfold of_be. simpl. lia.
  - rewrite Nat2Z.inj_succ, Z.pow_succ_r in Hv by lia. simpl.
    rewrite of_be_app, IH, z2b_mod.
    + pose proof (Z.div_mod v 256). lia.
    + split; [apply Z.div_pos; lia|]. apply Z.div_lt_upper_bound; lia.
Qed.

(** The first byte of a big-endian number holds its top bits. *)
Lemma be_head n v : exists t, be (S n) v = z2b (v / 256 ^ Z.of_nat n) :: t.
Proof.
  revert v. induction n as [|n IH]; intros v.
  - exists []. simpl. by rewrite Z.div_1_r.
  - destruct (IH (v / 256)) as [t Ht]. exists (t ++ [z2b v]).
    change (be (S (S n)) v) with (be (S n) (v / 256) ++ [z2b v]). rewrite Ht.
    rewrite Z.div_div by lia. rewrite (Nat2Z.inj_succ n), Z.pow_succ_r by lia. done.
Qed.

(** A multi-byte encoding: [2^k] bytes, tagged with [k] on top of [v]. *)
Lemma parse_be k n v rest :
  0 <= k <= 3 -> Z.of_nat (S n) = 2 ^ k -> 0 <= v < 2 ^ (8 * 2 ^ k - 2) ->
  parse (be (S n) (v + k * 2 ^ (8 * 2 ^ k - 2)) ++ rest) = Some (v, 2 ^ k).
Proof.
  intros Hk Hn Hv. set (w := v + k * 2 ^ (8 * 2 ^ k - 2)).
  assert (Hp : 256 ^ Z.of_nat (S n) = 4 * 2 ^ (8 * 2 ^ k - 2)).
  { rewrite Hn. change 4 with (2 ^ 2). change 256 with (2 ^ 8).
    rewrite <- Z.pow_mul_r, <- Z.pow_add_r; [f_equal; lia|lia| |lia|apply Z.pow_nonneg; lia].
    assert (2 ^ 0 <= 2 ^ k) by (apply Z.pow_le_mono_r; lia). lia. }
  assert (Hq : 256 ^ Z.of_nat (S n) = 256 * 256 ^ Z.of_nat n)
    by (rewrite Nat2Z.inj_succ, Z.pow_succ_r; lia).
  assert (Hw : 0 <= w < 256 ^ Z.of_nat (S n)) by (subst w; nia).
  destruct (be_head n w) as [t Ht].
  assert (Hb : prefix_size (z2b (w / 256 ^ Z.of_nat n)) = 2 ^ k).
  { unfold prefix_size. rewrite b2z_z2b.
    - f_equal. rewrite Z.shiftr_div_pow2 by lia.
      rewrite Z.div_div by lia. symmetry. apply (Z.div_unique _ _ _ v); [left; lia|].
      subst w. lia.
    - split; [apply Z.div_pos; lia|]. apply Z.div_lt_upper_bound; lia. }
  unfold parse. rewrite Ht. simpl. rewrite Hb. fold (be (S n) w).
  assert (Hl : length t = n) by (pose proof (length_be (S n) w) as L; rewrite Ht in L; simpl in L; lia).
  destruct (Z.ltb_spec (Z.of_nat (S (length (t ++ rest)))) (2 ^ k)) as [Hc|_].
  { rewrite length_app in Hc. lia. }
  rewrite <- Hn, Nat2Z.id. simpl. rewrite take_app_length' by done.
  rewrite <- Ht, of_be_be by done. f_equal. f_equal.
  subst w. rewrite Hn, Z.mod_add by (apply Z.pow_nonzero; [lia|]; assert (2 ^ 0 <= 2 ^ k) by (apply Z.pow_le_mono_r; lia); lia).
  by rewrite Z.mod_small.
Qed.

#[global] Instance laws : QuicVarintLaws varint.
Proof.
  split; unfold varint, varint_append, varint_parse, varint_len, is_varint.
  - intros b v Hv. unfold append. breflect; try lia. done.
  - intros b v e. unfold append. repeat case_match; simpl; intros; by simplify_eq.
  - intros b v Hv. unfold append. breflect; try lia; eauto.
  - intros v e Hv. unfold append, varint_size.
    breflect; intros; try lia; simplify_eq; by rewrite ?length_be.
  - intros b v Hv. unfold append. breflect; try lia. done.
  - intros v Hv. unfold len. breflect; [done|lia].
  - intros v e rest Hv. unfold append, varint_size. breflect; intros; try lia; simplify_eq.
    + pose proof (parse_be 0 0 v rest) as Hp. rewrite Z.mul_0_l, Z.add_0_r in Hp.
      apply Hp; lia.
    + apply (parse_be 1 1 v rest); lia.
    + apply (parse_be 2 3 v rest); lia.
    + apply (parse_be 3 7 v rest); lia.
  - done.
  - intros b t Hl. unfold parse. breflect; [done|lia].
  - intros b t Hl. unfold parse. breflect; [lia|].
    eexists. split; [done|]. pose proof (prefix_size_range b).
    pose proof (Z.mod_pos_bound (of_be (ztake (prefix_size b) (b :: t))) (2 ^ (8 * prefix_size b - 2))).
    assert (2 ^ (8 * prefix_size b - 2) <= 2 ^ 62) by (apply Z.pow_le_mono_r; lia). lia.
  - intros [|x t] v n rest; [done|]. unfold parse. simpl. breflect; intros; simplify_eq.
    + rewrite length_app in *. lia.
    + do 3 f_equal. pose proof (prefix_size_range x).
      change (x :: t ++ rest) with ((x :: t) ++ rest). rewrite take_app_le; [done|simpl; lia].
  - done.
Qed.
End RFC9000.
