(* ===== verification/Params.v ===== *)
(** The record reader of [qmux/internal/wire/frame.go] and the transport
    parameters of [qmux/internal/wire/params.go]: their encoder
    ([Parameters_append]), their parser ([parseParameters]), the bounds a
    parsed value satisfies, and the round trip between the two. *)

From S2P Require Import Prelude Varint.

(** * Errors *)

Definition InternalError : Z := 0x01.
Definition FlowControlError : Z := 0x03.
Definition StreamLimitError : Z := 0x04.
Definition StreamStateError : Z := 0x05.
Definition FinalSizeError : Z := 0x06.
Definition FrameEncodingError : Z := 0x07.
Definition TransportParameterError : Z := 0x08.
Definition ProtocolViolation : Z := 0x0a.

(** [wire.Error]: what an endpoint puts in its CONNECTION_CLOSE frame. *)
Record Error := mkError { err_Code : Z; err_Reason : bytes }.

(** [Error.Error] *)
Definition Error_Error (e : Error) : bytes :=
  str "qmux: transport error 0x" ++ fmt_x (err_Code e) ++ str ": " ++ err_Reason e.

Definition parameterError (reason : bytes) : Error := mkError TransportParameterError reason.

(** * The reader *)

(** [reader] consumes a record; running out of bytes sets [r_failed]. *)
Record reader := mkReader { r_b : bytes; r_failed : bool }.

Section reader.
Context {V : QuicVarint}.

Definition varint (r : reader) : Z * reader :=
  if r_failed r then (0, r)
  else match varint_parse (r_b r) with
       | None => (0, mkReader (r_b r) true)
       | Some (v, n) => (v, mkReader (zdrop n (r_b r)) false)
       end.

Definition read_bytes (n : Z) (r : reader) : bytes * reader :=
  if r_failed r || (zlen (r_b r) <? n) then ([], mkReader (r_b r) true)
  else (ztake n (r_b r), mkReader (zdrop n (r_b r)) (r_failed r)).

Definition rest (r : reader) : bytes * reader :=
  if r_failed r then ([], r) else (r_b r, mkReader [] (r_failed r)).
End reader.

(** * Transport parameters *)

Definition DefaultMaxRecordSize : Z := 16382.
(** [maxStreams] of frame.go *)
Definition maxStreams : Z := Z.shiftl 1 60.

Definition paramMaxIdleTimeout : Z := 0x01.
Definition paramInitialMaxData : Z := 0x04.
Definition paramInitialMaxStreamDataBidiLoc : Z := 0x05.
Definition paramInitialMaxStreamDataBidiRem : Z := 0x06.
Definition paramInitialMaxStreamDataUni : Z := 0x07.
Definition paramInitialMaxStreamsBidi : Z := 0x08.
Definition paramInitialMaxStreamsUni : Z := 0x09.
Definition paramMaxDatagramFrameSize : Z := 0x20.
Definition paramMaxRecordSize : Z := 0x0571c59429cd0845.

(** The name of a forbidden parameter, or the empty string. *)
Definition prohibitedParam (id : Z) : bytes :=
  if id =? 0x00 then str "original_destination_connection_id"
  else if id =? 0x02 then str "stateless_reset_token"
  else if id =? 0x03 then str "max_udp_payload_size"
  else if id =? 0x0a then str "ack_delay_exponent"
  else if id =? 0x0b then str "max_ack_delay"
  else if id =? 0x0c then str "disable_active_migration"
  else if id =? 0x0d then str "preferred_address"
  else if id =? 0x0e then str "active_connection_id_limit"
  else if id =? 0x0f then str "initial_source_connection_id"
  else if id =? 0x10 then str "retry_source_connection_id"
  else [].

Record Parameters := mkParameters {
  MaxIdleTimeout : Z;
  InitialMaxData : Z;
  InitialMaxStreamDataBidiLocal : Z;
  InitialMaxStreamDataBidiRemote : Z;
  InitialMaxStreamDataUni : Z;
  InitialMaxStreamsBidi : Z;
  InitialMaxStreamsUni : Z;
  MaxDatagramFrameSize : Z;
  MaxRecordSize : Z;
}.

#[global] Instance Parameters_settable : Settable Parameters := fun p =>
  mkParameters (MaxIdleTimeout p) (InitialMaxData p) (InitialMaxStreamDataBidiLocal p)
    (InitialMaxStreamDataBidiRemote p) (InitialMaxStreamDataUni p) (InitialMaxStreamsBidi p)
    (InitialMaxStreamsUni p) (MaxDatagramFrameSize p) (MaxRecordSize p).

Definition set_MaxIdleTimeout := ltac:(setter MaxIdleTimeout).
Definition set_InitialMaxData := ltac:(setter InitialMaxData).
Definition set_InitialMaxStreamDataBidiLocal := ltac:(setter InitialMaxStreamDataBidiLocal).
Definition set_InitialMaxStreamDataBidiRemote := ltac:(setter InitialMaxStreamDataBidiRemote).
Definition set_InitialMaxStreamDataUni := ltac:(setter InitialMaxStreamDataUni).
Definition set_InitialMaxStreamsBidi := ltac:(setter InitialMaxStreamsBidi).
Definition set_InitialMaxStreamsUni := ltac:(setter InitialMaxStreamsUni).
Definition set_MaxDatagramFrameSize := ltac:(setter MaxDatagramFrameSize).
Definition set_MaxRecordSize := ltac:(setter MaxRecordSize).

(** [Parameters{}], the zero value. *)
Definition zeroParameters : Parameters := mkParameters 0 0 0 0 0 0 0 0 0.

(** The pointer that [Parameters.field] returns: how to load and store
    the field it points to. *)
Record fieldptr := mkField { load : Parameters -> Z; store : Z -> Parameters -> Parameters }.

Definition field (id : Z) : option fieldptr :=
  if id =? paramMaxIdleTimeout then Some (mkField MaxIdleTimeout set_MaxIdleTimeout)
  else if id =? paramInitialMaxData then Some (mkField InitialMaxData set_InitialMaxData)
  else if id =? paramInitialMaxStreamDataBidiLoc then
    Some (mkField InitialMaxStreamDataBidiLocal set_InitialMaxStreamDataBidiLocal)
  else if id =? paramInitialMaxStreamDataBidiRem then
    Some (mkField InitialMaxStreamDataBidiRemote set_InitialMaxStreamDataBidiRemote)
  else if id =? paramInitialMaxStreamDataUni then
    Some (mkField InitialMaxStreamDataUni set_InitialMaxStreamDataUni)
  else if id =? paramInitialMaxStreamsBidi then
    Some (mkField InitialMaxStreamsBidi set_InitialMaxStreamsBidi)
  else if id =? paramInitialMaxStreamsUni then
    Some (mkField InitialMaxStreamsUni set_InitialMaxStreamsUni)
  else if id =? paramMaxDatagramFrameSize then
    Some (mkField MaxDatagramFrameSize set_MaxDatagramFrameSize)
  else if id =? paramMaxRecordSize then Some (mkField MaxRecordSize set_MaxRecordSize)
  else None.

(** The identifiers in the order [Parameters.append] writes them. *)
Definition paramOrder : list Z :=
  [paramMaxIdleTimeout; paramInitialMaxData; paramInitialMaxStreamDataBidiLoc;
   paramInitialMaxStreamDataBidiRem; paramInitialMaxStreamDataUni;
   paramInitialMaxStreamsBidi; paramInitialMaxStreamsUni; paramMaxDatagramFrameSize;
   paramMaxRecordSize].

Section params.
Context {V : QuicVarint}.

(** The body of the loop of [Parameters.append]; [None] is a panic. *)
Definition append_param (p : Parameters) (b : bytes) (id : Z) : option bytes :=
  dst ← field id;
  let value := load dst p in
  if value =? 0 then Some b
  else
    b ← varint_append b id;
    n ← varint_len value;
    b ← varint_append b n;
    varint_append b value.

(** [Parameters.append] *)
Fixpoint append_params (p : Parameters) (ids : list Z) (b : bytes) : option bytes :=
  match ids with
  | [] => Some b
  | id :: ids => b ← append_param p b id; append_params p ids b
  end.

Definition Parameters_append (p : Parameters) (b : bytes) : option bytes :=
  append_params p paramOrder b.

(** The loop of [parseParameters]: [None] is fuel exhausted, [inl] an
    error, [inr] the parameters when no byte is left. *)
Fixpoint parse_loop (fuel : nat) (p : Parameters) (seen : gset Z) (r : reader)
    : option (Error + Parameters) :=
  match fuel with
  | O => None
  | S fuel =>
      if 0 <? zlen (r_b r) then
        let '(id, r) := varint r in
        let '(n, r) := varint r in
        let '(value, r) := read_bytes n r in
        if r_failed r then
          Some (inl (parameterError (str "transport parameters are truncated")))
        else if negb (bool_decide (prohibitedParam id = [])) then
          Some (inl (parameterError (prohibitedParam id ++ str " is not allowed")))
        else if bool_decide (id ∈ seen) then
          Some (inl (parameterError
            (str "transport parameter 0x" ++ fmt_x id ++ str " is repeated")))
        else
          let seen := {[id]} ∪ seen in
          match field id with
          | None => parse_loop fuel p seen r
          | Some dst =>
              match varint_parse value with
              | Some (v, n) =>
                  if negb (n =? zlen value) then
                    Some (inl (parameterError
                      (str "transport parameter 0x" ++ fmt_x id ++ str " is not an integer")))
                  else parse_loop fuel (store dst v p) seen r
              | None =>
                  Some (inl (parameterError
                    (str "transport parameter 0x" ++ fmt_x id ++ str " is not an integer")))
              end
          end
      else Some (inr p)
  end.

(** The checks after the loop. *)
Definition check_params (p : Parameters) : Error + Parameters :=
  if (maxStreams <? InitialMaxStreamsBidi p) || (maxStreams <? InitialMaxStreamsUni p) then
    inl (parameterError (str "initial_max_streams above 2^60"))
  else if MaxRecordSize p <? DefaultMaxRecordSize then
    inl (parameterError (str "max_record_size below 16382"))
  else inr p.

Definition initialParameters : Parameters := set_MaxRecordSize DefaultMaxRecordSize zeroParameters.

(** [parseParameters]. Every iteration consumes a byte, so the fuel, one
    more than the length of the input, is never used up. *)
Definition parseParameters (b : bytes) : Error + Parameters :=
  match parse_loop (S (length b)) initialParameters ∅ (mkReader b false) with
  | Some (inr p) => check_params p
  | Some (inl e) => inl e
  | None => inl (parameterError [])
  end.
End params.

(** * Facts about the reader *)

Section reader_facts.
Context {V : QuicVarint} {VL : QuicVarintLaws V}.

Lemma varint_enc v t : is_varint v -> varint (mkReader (enc v ++ t) false) = (v, mkReader t false).
Proof.
  intros H. unfold varint. simpl. rewrite parse_enc by done.
  rewrite <- enc_size, Nat2Z.id, drop_app_length by done. done.
Qed.

Lemma read_bytes_app d t :
  read_bytes (zlen d) (mkReader (d ++ t) false) = (d, mkReader t false).
Proof.
  unfold read_bytes. simpl. rewrite length_app.
  destruct (Z.ltb_spec (Z.of_nat (length d + length t)) (zlen d)); [lia|].
  by rewrite Nat2Z.id, take_app_length, drop_app_length.
Qed.

(** [r'] is [r] after reading some of its bytes without failing. *)
Definition reads (r r' : reader) (k : nat) : Prop :=
  r_failed r = false /\ r_failed r' = false /\
  exists d, r_b r = d ++ r_b r' /\ (k <= length d)%nat.

Lemma varint_ok r v r' :
  varint r = (v, r') -> r_failed r' = false -> is_varint v /\ reads r r' 1.
Proof.
  unfold varint, reads. destruct (r_failed r) eqn:Hf; [intros; simplify_eq; congruence|].
  destruct (varint_parse (r_b r)) as [[w n]|] eqn:E; intros; simplify_eq/=.
  destruct (parse_Some _ _ _ E) as (Hw & Hn & Hl). repeat split; try apply Hw.
  exists (ztake n (r_b r)). rewrite take_drop, length_take. split; [done|lia].
Qed.

Lemma varint_in_range r v r' : varint r = (v, r') -> is_varint v.
Proof.
  unfold varint. destruct (r_failed r) eqn:Hf; [intros; simplify_eq; apply is_varint_0|].
  destruct (varint_parse (r_b r)) as [[w n]|] eqn:E; intros; simplify_eq/=; [|apply is_varint_0].
  apply parse_Some in E. tauto.
Qed.

Lemma read_bytes_ok n r d r' :
  read_bytes n r = (d, r') -> r_failed r' = false -> reads r r' 0 /\ d = ztake n (r_b r) /\ n <= zlen (r_b r).
Proof.
  unfold read_bytes, reads. destruct (r_failed r) eqn:Hf; simpl; [intros; simplify_eq/=|].
  destruct (Z.ltb_spec (zlen (r_b r)) n); intros; simplify_eq/=.
  repeat split; try lia. exists (ztake n (r_b r)). rewrite take_drop. split; [done|lia].
Qed.

Lemma rest_ok r d r' :
  rest r = (d, r') -> r_failed r' = false -> reads r r' 0.
Proof.
  unfold rest, reads. destruct (r_failed r) eqn:Hf; intros; simplify_eq/=; [congruence|].
  repeat split; try done. exists (r_b r). rewrite app_nil_r. split; [done|lia].
Qed.

Lemma reads_trans r1 r2 r3 j k : reads r1 r2 j -> reads r2 r3 k -> reads r1 r3 (j + k).
Proof.
  intros (H1 & H2 & d & Hd & Hj) (_ & H3 & e & He & Hk). repeat split; try done.
  exists (d ++ e). rewrite Hd, He, length_app, app_assoc. split; [done|lia].
Qed.

Lemma reads_length r r' k : reads r r' k -> (length (r_b r') + k <= length (r_b r))%nat.
Proof. intros (_ & _ & d & -> & H). rewrite length_app. lia. Qed.
End reader_facts.

(** * Facts about the parameters *)

Lemma maxStreams_eq : maxStreams = 2 ^ 60.
Proof. done. Qed.

(** Every field fits in a variable-length integer. *)
Definition params_varint (p : Parameters) : Prop :=
  forall id f, field id = Some f -> is_varint (load f p).

(** What a parsed set of parameters satisfies. *)
Definition params_valid (p : Parameters) : Prop :=
  params_varint p /\ InitialMaxStreamsBidi p <= maxStreams /\
  InitialMaxStreamsUni p <= maxStreams /\ DefaultMaxRecordSize <= MaxRecordSize p.

(** The parameters that the peer of [p]'s sender sees: the record size takes
    its default when it is not sent. *)
Definition params_received (p : Parameters) : Parameters :=
  if MaxRecordSize p =? 0 then set_MaxRecordSize DefaultMaxRecordSize p else p.

(** Case analysis on [field id = Some f], one case per known parameter. *)
Ltac field_cases H :=
  unfold field in H; repeat
    match type of H with
    | (if ?b then _ else _) = _ => destruct b eqn:?
    end;
  simplify_eq.

Lemma store_varint id f v p :
  field id = Some f -> is_varint v -> params_varint p -> params_varint (store f v p).
Proof.
  intros Hf Hv Hp id' f' Hf'. specialize (Hp id' f' Hf').
  field_cases Hf; field_cases Hf'; simpl in *; done.
Qed.

Lemma params_varint_fields p :
  params_varint p ->
  is_varint (MaxIdleTimeout p) /\ is_varint (InitialMaxData p) /\
  is_varint (InitialMaxStreamDataBidiLocal p) /\ is_varint (InitialMaxStreamDataBidiRemote p) /\
  is_varint (InitialMaxStreamDataUni p) /\ is_varint (InitialMaxStreamsBidi p) /\
  is_varint (InitialMaxStreamsUni p) /\ is_varint (MaxDatagramFrameSize p) /\
  is_varint (MaxRecordSize p).
Proof.
  intros H. split_and!; match goal with |- is_varint (?f p) =>
    first [ exact (H paramMaxIdleTimeout _ eq_refl) | exact (H paramInitialMaxData _ eq_refl)
          | exact (H paramInitialMaxStreamDataBidiLoc _ eq_refl)
          | exact (H paramInitialMaxStreamDataBidiRem _ eq_refl)
          | exact (H paramInitialMaxStreamDataUni _ eq_refl)
          | exact (H paramInitialMaxStreamsBidi _ eq_refl)
          | exact (H paramInitialMaxStreamsUni _ eq_refl)
          | exact (H paramMaxDatagramFrameSize _ eq_refl)
          | exact (H paramMaxRecordSize _ eq_refl) ]
  end.
Qed.

Lemma initial_varint : params_varint initialParameters.
Proof. intros id f Hf. field_cases Hf; split; vm_compute; discriminate. Qed.

Lemma store_zero id f v p :
  field id = Some f -> load f p = 0 -> (if v =? 0 then p else store f v p) = store f v p.
Proof.
  intros Hf Hl. destruct (Z.eqb_spec v 0) as [->|]; [|done].
  destruct p. field_cases Hf; simpl in *; subst; done.
Qed.

Section params_facts.
Context {V : QuicVarint} {VL : QuicVarintLaws V}.

(** One parameter on the wire; a zero value is not sent. *)
Definition enc_param (p : Parameters) (id : Z) : bytes :=
  match field id with
  | Some f => let v := load f p in
      if v =? 0 then [] else enc id ++ enc (varint_size v) ++ enc v
  | None => []
  end.

Lemma varint_size_varint v : is_varint (varint_size v).
Proof. pose proof (varint_size_range v). unfold is_varint. lia. Qed.

Lemma append_params_enc p ids b :
  params_varint p -> Forall (fun id => is_varint id /\ is_Some (field id)) ids ->
  append_params p ids b = Some (b ++ mjoin (enc_param p <$> ids)).
Proof.
  intros Hp Hids. revert b. induction Hids as [|id ids [Hid [f Hf]] _ IH]; intros b; simpl.
  - by rewrite app_nil_r.
  - unfold append_param. rewrite Hf. simpl. unfold enc_param at 1. rewrite Hf.
    destruct (load f p =? 0) eqn:E; simpl; [apply IH|].
    rewrite append_enc by done. simpl. rewrite len_size by eauto. simpl.
    rewrite append_enc by apply varint_size_varint. simpl.
    rewrite append_enc by eauto. simpl. rewrite IH. by rewrite <- !app_assoc.
Qed.

(** One iteration of the parser on a parameter that the encoder wrote. *)
Lemma parse_loop_enc fuel p seen id f v t :
  is_varint id -> prohibitedParam id = [] -> id ∉ seen -> field id = Some f -> is_varint v ->
  parse_loop (S fuel) p seen (mkReader (enc id ++ enc (varint_size v) ++ enc v ++ t) false)
  = parse_loop fuel (store f v p) ({[id]} ∪ seen) (mkReader t false).
Proof.
  intros Hid Hpr Hs Hf Hv. cbn [parse_loop r_b].
  assert (0 < zlen (enc id ++ enc (varint_size v) ++ enc v ++ t)) as Hpos.
  { rewrite length_app. pose proof (enc_nonempty id Hid). destruct (enc id); [done|simpl; lia]. }
  destruct (Z.ltb_spec 0 (zlen (enc id ++ enc (varint_size v) ++ enc v ++ t))); [|lia].
  rewrite varint_enc by done. rewrite varint_enc by apply varint_size_varint.
  rewrite <- (enc_size v) by done. rewrite read_bytes_app. simpl.
  rewrite Hpr, (bool_decide_eq_true_2 ([] = [])) by done. simpl.
  rewrite bool_decide_eq_false_2 by done. rewrite Hf.
  pose proof (parse_enc v [] Hv) as Hpe. rewrite app_nil_r in Hpe. rewrite Hpe.
  by rewrite <- enc_size, Z.eqb_refl by done.
Qed.

(** What the parser stores for the parameter [id] of [p]. *)
Definition stored (p acc : Parameters) (id : Z) : Parameters :=
  match field id with
  | Some f => if load f p =? 0 then acc else store f (load f p) acc
  | None => acc
  end.

Lemma parse_loop_append p ids fuel acc seen :
  params_varint p ->
  Forall (fun id => is_varint id /\ is_Some (field id) /\ prohibitedParam id = []) ids ->
  NoDup ids -> (forall id, id ∈ ids -> id ∉ seen) ->
  (length (mjoin (enc_param p <$> ids)) < fuel)%nat ->
  parse_loop fuel acc seen (mkReader (mjoin (enc_param p <$> ids)) false)
  = Some (inr (foldl (stored p) acc ids)).
Proof.
  intros Hp Hids. revert fuel acc seen.
  induction Hids as [|id ids (Hid & [f Hf] & Hpr) _ IH]; intros fuel acc seen Hnd Hs Hfuel.
  { destruct fuel; [simpl in Hfuel; lia|]. done. }
  apply list.NoDup_cons in Hnd as [Hni Hnd].
  assert (Hs' : forall id', id' ∈ ids -> id' ∉ seen) by (intros; apply Hs; by right).
  assert (Hep : enc_param p id = if load f p =? 0 then []
                  else enc id ++ enc (varint_size (load f p)) ++ enc (load f p))
    by (unfold enc_param; by rewrite Hf).
  csimpl in *. unfold stored at 2. rewrite Hf, Hep in *.
  destruct (load f p =? 0) eqn:E; csimpl in *; [by apply IH|].
  destruct fuel as [|fuel]; [lia|].
  rewrite <- !app_assoc in *. rewrite (parse_loop_enc _ _ _ _ f) by (eauto; apply Hs; left).
  apply IH; [done| |].
  - intros id' Hin. rewrite not_elem_of_union, not_elem_of_singleton.
    split; [intros ->; done|by apply Hs'].
  - rewrite !length_app in Hfuel. pose proof (enc_nonempty id Hid).
    destruct (enc id); [done|]. rewrite length_cons in Hfuel. lia.
Qed.

Lemma paramOrder_ok :
  Forall (fun id => is_varint id /\ is_Some (field id) /\ prohibitedParam id = []) paramOrder.
Proof.
  repeat constructor; unfold is_varint; try (vm_compute; congruence); eexists; done.
Qed.

Lemma paramOrder_NoDup : NoDup paramOrder.
Proof. by apply (bool_decide_unpack _); vm_compute. Qed.

Lemma stored_all p : foldl (stored p) initialParameters paramOrder = params_received p.
Proof.
  assert (Hs : forall acc id f, field id = Some f -> load f acc = 0 ->
            stored p acc id = store f (load f p) acc).
  { intros acc id f Hf Hl. unfold stored. rewrite Hf. by apply (store_zero id). }
  unfold paramOrder. simpl.
  erewrite (Hs _ paramMaxIdleTimeout) by reflexivity.
  erewrite (Hs _ paramInitialMaxData) by reflexivity.
  erewrite (Hs _ paramInitialMaxStreamDataBidiLoc) by reflexivity.
  erewrite (Hs _ paramInitialMaxStreamDataBidiRem) by reflexivity.
  erewrite (Hs _ paramInitialMaxStreamDataUni) by reflexivity.
  erewrite (Hs _ paramInitialMaxStreamsBidi) by reflexivity.
  erewrite (Hs _ paramInitialMaxStreamsUni) by reflexivity.
  erewrite (Hs _ paramMaxDatagramFrameSize) by reflexivity.
  unfold stored, params_received. simpl. destruct p as [? ? ? ? ? ? ? ? m]. simpl.
  by destruct (m =? 0).
Qed.

Lemma Parameters_append_enc p b :
  params_varint p ->
  Parameters_append p b = Some (b ++ mjoin (enc_param p <$> paramOrder)).
Proof.
  intros Hp. apply append_params_enc; [done|].
  eapply list.Forall_impl; [apply paramOrder_ok|]. simpl. tauto.
Qed.

(** The fuel of [parseParameters] is enough. *)
Lemma parse_loop_total fuel p seen r :
  r_failed r = false -> (length (r_b r) < fuel)%nat -> is_Some (parse_loop fuel p seen r).
Proof.
  revert p seen r. induction fuel as [|fuel IH]; intros p seen r Hr Hf; [lia|].
  cbn [parse_loop]. destruct (0 <? zlen (r_b r)) eqn:E; [|eauto].
  destruct (varint r) as [id r1] eqn:E1, (varint r1) as [n r2] eqn:E2,
    (read_bytes n r2) as [value r3] eqn:E3.
  destruct (r_failed r3) eqn:Hr3; [eauto|].
  apply read_bytes_ok in E3 as (H3 & _); [|done].
  apply varint_ok in E2 as (_ & H2); [|apply H3].
  apply varint_ok in E1 as (_ & H1); [|apply H2].
  pose proof (reads_length _ _ _ (reads_trans _ _ _ _ _ H1 (reads_trans _ _ _ _ _ H2 H3))).
  repeat case_match; eauto; apply IH; (done || lia).
Qed.

(** Every parameter the loop stores is a variable-length integer. *)
Lemma parse_loop_varint fuel p seen r q :
  params_varint p -> parse_loop fuel p seen r = Some (inr q) -> params_varint q.
Proof.
  revert p seen r. induction fuel as [|fuel IH]; intros p seen r Hp H; [done|].
  cbn [parse_loop] in H. destruct (0 <? zlen (r_b r)); [|by simplify_eq].
  destruct (varint r) as [id r1], (varint r1) as [n r2], (read_bytes n r2) as [value r3].
  destruct (r_failed r3); [done|]. repeat case_match; simplify_eq/=; try (by eapply IH).
  eapply IH; [|done]. eapply store_varint; [done| |done].
  match goal with E : varint_parse _ = Some _ |- _ => apply parse_Some in E; tauto end.
Qed.

Lemma parse_loop_error fuel p seen r e :
  parse_loop fuel p seen r = Some (inl e) -> err_Code e = TransportParameterError.
Proof.
  revert p seen r. induction fuel as [|fuel IH]; intros p seen r H; [done|].
  cbn [parse_loop] in H. destruct (0 <? zlen (r_b r)); [|by simplify_eq].
  destruct (varint r) as [id r1], (varint r1) as [n r2], (read_bytes n r2) as [value r3].
  destruct (r_failed r3); [by simplify_eq|].
  repeat case_match; simplify_eq/=; try done; by eapply IH.
Qed.

Lemma parseParameters_valid b p : parseParameters b = inr p -> params_valid p.
Proof.
  unfold parseParameters. destruct (parse_loop _ _ _ _) as [[?|q]|] eqn:E; try done.
  apply parse_loop_varint in E; [|apply initial_varint].
  unfold check_params, params_valid. intros H.
  destruct (Z.ltb_spec maxStreams (InitialMaxStreamsBidi q)); [done|].
  destruct (Z.ltb_spec maxStreams (InitialMaxStreamsUni q)); [done|]. simpl in H.
  destruct (Z.ltb_spec (MaxRecordSize q) DefaultMaxRecordSize); [done|]. by simplify_eq.
Qed.

Lemma parseParameters_error b e :
  parseParameters b = inl e -> err_Code e = TransportParameterError.
Proof.
  unfold parseParameters, check_params. intros H.
  destruct (parse_loop _ _ _ _) as [[?|q]|] eqn:E; simplify_eq.
  - by eapply parse_loop_error.
  - repeat case_match; by simplify_eq.
  - done.
Qed.

Lemma check_params_ok p :
  InitialMaxStreamsBidi p <= maxStreams -> InitialMaxStreamsUni p <= maxStreams ->
  DefaultMaxRecordSize <= MaxRecordSize p -> check_params p = inr p.
Proof. intros. unfold check_params. breflect; simpl; lia || done. Qed.

(** What a sender may declare: fields in range, stream counts within the
    protocol's limit, and a record size that is absent or large enough. *)
Definition params_sendable (p : Parameters) : Prop :=
  params_varint p /\ InitialMaxStreamsBidi p <= maxStreams /\
  InitialMaxStreamsUni p <= maxStreams /\
  (MaxRecordSize p = 0 \/ DefaultMaxRecordSize <= MaxRecordSize p).

Lemma parse_append_params p b :
  params_sendable p -> Parameters_append p [] = Some b ->
  parseParameters b = inr (params_received p).
Proof.
  intros (Hp & Hb & Hu & Hm) E. rewrite Parameters_append_enc, app_nil_l in E by done.
  apply Some_inj in E. rewrite <- E.
  unfold parseParameters. rewrite parse_loop_append; [|done|apply paramOrder_ok|
    apply paramOrder_NoDup|set_solver|lia].
  rewrite stored_all. unfold params_received.
  destruct (Z.eqb_spec (MaxRecordSize p) 0); apply check_params_ok; simpl; lia || done.
Qed.
End params_facts.
