(* ===== verification/Frame.v ===== *)
(** The frames of [qmux/internal/wire/frame.go]: the constants, the frame
    types, one [Append] per frame type, and the parser [Parse]. The theorems
    show that [Parse] inverts [Append], that it always consumes input, which
    errors it reports, and that a truncated frame is never mistaken for
    another one. *)

From S2P Require Import Prelude Varint Params.

(** * Constants *)

Definition typeResetStream : Z := 0x04.
Definition typeStopSending : Z := 0x05.
Definition typeStream : Z := 0x08.
Definition typeStreamMax : Z := 0x0f.
Definition typeMaxData : Z := 0x10.
Definition typeMaxStreamData : Z := 0x11.
Definition typeMaxStreamsBidi : Z := 0x12.
Definition typeMaxStreamsUni : Z := 0x13.
Definition typeDataBlocked : Z := 0x14.
Definition typeStreamDataBlocked : Z := 0x15.
Definition typeStreamsBlocked : Z := 0x16.
Definition typeStreamsBlockedUni : Z := 0x17.
Definition typeConnectionClose : Z := 0x1c.
Definition typeApplicationClose : Z := 0x1d.
Definition typeDatagram : Z := 0x30.
Definition typeDatagramLen : Z := 0x31.
Definition typeTransportParameters : Z := 0x3f5153300d0a0d0a.
Definition typePingRequest : Z := 0x348c67529ef8c7bd.
Definition typePingResponse : Z := 0x348c67529ef8c7be.
Definition streamBitFin : Z := 0x01.
Definition streamBitLen : Z := 0x02.
Definition streamBitOff : Z := 0x04.

Definition StreamOverhead : Z := 1 + 8 + 8 + 8.

Definition frameEncodingError (reason : bytes) : Error := mkError FrameEncodingError reason.

(** * Frames *)

Inductive frame :=
| ResetStream (StreamID Code FinalSize : Z)
| StopSending (StreamID Code : Z)
| Stream (StreamID Offset : Z) (Data : bytes) (Fin : bool)
| MaxData (Max : Z)
| MaxStreamData (StreamID Max : Z)
| MaxStreams (Uni : bool) (Max : Z)
| Blocked
| ConnectionClose (Application : bool) (Code FrameType : Z) (Reason : bytes)
| Datagram (Data : bytes)
| Ping (Response : bool) (Sequence : Z)
| TransportParameters (params : Parameters).

Section frames.
Context {V : QuicVarint}.

Definition ResetStream_Append (StreamID Code FinalSize : Z) (b : bytes) : option bytes :=
  let b := b ++ [z2b typeResetStream] in
  b ← varint_append b StreamID;
  b ← varint_append b Code;
  varint_append b FinalSize.

Definition StopSending_Append (StreamID Code : Z) (b : bytes) : option bytes :=
  let b := b ++ [z2b typeStopSending] in
  b ← varint_append b StreamID;
  varint_append b Code.

(** The type byte of a STREAM frame. *)
Definition stream_type (Offset : Z) (Fin : bool) : Z :=
  let t := Z.lor typeStream streamBitLen in
  let t := if 0 <? Offset then Z.lor t streamBitOff else t in
  if Fin then Z.lor t streamBitFin else t.

Definition Stream_Append (StreamID Offset : Z) (Data : bytes) (Fin : bool) (b : bytes)
    : option bytes :=
  let b := b ++ [z2b (stream_type Offset Fin)] in
  b ← varint_append b StreamID;
  b ← (if 0 <? Offset then varint_append b Offset else Some b);
  b ← varint_append b (zlen Data);
  Some (b ++ Data).

Definition MaxData_Append (Max : Z) (b : bytes) : option bytes :=
  varint_append (b ++ [z2b typeMaxData]) Max.

Definition MaxStreamData_Append (StreamID Max : Z) (b : bytes) : option bytes :=
  let b := b ++ [z2b typeMaxStreamData] in
  b ← varint_append b StreamID;
  varint_append b Max.

Definition MaxStreams_Append (Uni : bool) (Max : Z) (b : bytes) : option bytes :=
  let t := if Uni then typeMaxStreamsUni else typeMaxStreamsBidi in
  varint_append (b ++ [z2b t]) Max.

Definition ConnectionClose_Append (Application : bool) (Code FrameType : Z) (Reason : bytes)
    (b : bytes) : option bytes :=
  b ← (if Application then
         varint_append (b ++ [z2b typeApplicationClose]) Code
       else
         b ← varint_append (b ++ [z2b typeConnectionClose]) Code;
         varint_append b FrameType);
  b ← varint_append b (zlen Reason);
  Some (b ++ Reason).

Definition Datagram_Append (Data : bytes) (b : bytes) : option bytes :=
  let b := b ++ [z2b typeDatagramLen] in
  b ← varint_append b (zlen Data);
  Some (b ++ Data).

(** [Datagram.Len]; [None] is the panic of [quicvarint.Len]. *)
Definition Datagram_Len (Data : bytes) : option Z :=
  n ← varint_len (zlen Data);
  Some (1 + n + zlen Data).

Definition Ping_Append (Response : bool) (Sequence : Z) (b : bytes) : option bytes :=
  let t := if Response then typePingResponse else typePingRequest in
  b ← varint_append b t;
  varint_append b Sequence.

Definition TransportParameters_Append (p : Parameters) (b : bytes) : option bytes :=
  params ← Parameters_append p [];
  b ← varint_append b typeTransportParameters;
  b ← varint_append b (zlen params);
  Some (b ++ params).

(** The [Append] of the [Frame] interface. [None] is a panic; [Blocked] is
    not a [Frame], so it has no encoding. *)
Definition Append (f : frame) (b : bytes) : option bytes :=
  match f with
  | ResetStream sid code fs => ResetStream_Append sid code fs b
  | StopSending sid code => StopSending_Append sid code b
  | Stream sid off data fin => Stream_Append sid off data fin b
  | MaxData m => MaxData_Append m b
  | MaxStreamData sid m => MaxStreamData_Append sid m b
  | MaxStreams uni m => MaxStreams_Append uni m b
  | Blocked => None
  | ConnectionClose app code ft reason => ConnectionClose_Append app code ft reason b
  | Datagram data => Datagram_Append data b
  | Ping resp seq => Ping_Append resp seq b
  | TransportParameters p => TransportParameters_Append p b
  end.

(** * The parser *)

(** What [Parse] returns: only padding, a frame with what follows it, or
    an error. *)
Inductive parsed :=
| ParsedNone
| ParsedFrame (f : frame) (rest : bytes)
| ParsedError (e : Error).

(** The loop that skips PADDING. *)
Fixpoint skip_padding (b : bytes) : bytes :=
  match b with
  | x :: t => if b2z x =? 0 then skip_padding t else b
  | [] => []
  end.

Definition truncated (t : Z) : Error :=
  frameEncodingError (str "frame of type 0x" ++ fmt_x t ++ str " is truncated").

(** The end of [Parse]: the frame, unless the reader ran out of bytes. *)
Definition finish_frame (t : Z) (f : frame) (r : reader) : parsed :=
  if r_failed r then ParsedError (truncated t) else ParsedFrame f (r_b r).

(** The [switch] of [Parse] on the frame type. *)
Definition parse_body (t : Z) (r : reader) : parsed :=
  if t =? typeResetStream then
    let '(sid, r) := varint r in
    let '(code, r) := varint r in
    let '(fs, r) := varint r in
    finish_frame t (ResetStream sid code fs) r
  else if t =? typeStopSending then
    let '(sid, r) := varint r in
    let '(code, r) := varint r in
    finish_frame t (StopSending sid code) r
  else if (typeStream <=? t) && (t <=? typeStreamMax) then
    let '(sid, r) := varint r in
    let fin := negb (Z.land t streamBitFin =? 0) in
    let '(off, r) := if negb (Z.land t streamBitOff =? 0) then varint r else (0, r) in
    let '(data, r) :=
      if negb (Z.land t streamBitLen =? 0) then
        let '(n, r) := varint r in read_bytes n r
      else rest r in
    finish_frame t (Stream sid off data fin) r
  else if t =? typeMaxData then
    let '(m, r) := varint r in
    finish_frame t (MaxData m) r
  else if t =? typeMaxStreamData then
    let '(sid, r) := varint r in
    let '(m, r) := varint r in
    finish_frame t (MaxStreamData sid m) r
  else if (t =? typeMaxStreamsBidi) || (t =? typeMaxStreamsUni) then
    let '(m, r) := varint r in
    if maxStreams <? m then
      ParsedError (frameEncodingError (str "MAX_STREAMS above 2^60"))
    else finish_frame t (MaxStreams (t =? typeMaxStreamsUni) m) r
  else if t =? typeDataBlocked then
    let '(_, r) := varint r in
    finish_frame t Blocked r
  else if t =? typeStreamDataBlocked then
    let '(_, r) := varint r in
    let '(_, r) := varint r in
    finish_frame t Blocked r
  else if (t =? typeStreamsBlocked) || (t =? typeStreamsBlockedUni) then
    let '(m, r) := varint r in
    if maxStreams <? m then
      ParsedError (frameEncodingError (str "STREAMS_BLOCKED above 2^60"))
    else finish_frame t Blocked r
  else if (t =? typeConnectionClose) || (t =? typeApplicationClose) then
    let app := t =? typeApplicationClose in
    let '(code, r) := varint r in
    let '(ft, r) := if negb app then varint r else (0, r) in
    let '(n, r) := varint r in
    let '(reason, r) := read_bytes n r in
    finish_frame t (ConnectionClose app code ft reason) r
  else if t =? typeDatagram then
    let '(data, r) := rest r in
    finish_frame t (Datagram data) r
  else if t =? typeDatagramLen then
    let '(n, r) := varint r in
    let '(data, r) := read_bytes n r in
    finish_frame t (Datagram data) r
  else if t =? typeTransportParameters then
    let '(n, r) := varint r in
    let '(b, r) := read_bytes n r in
    match parseParameters b with
    | inl err =>
        if negb (r_failed r) then ParsedError err
        else finish_frame t (TransportParameters zeroParameters) r
    | inr params => finish_frame t (TransportParameters params) r
    end
  else if (t =? typePingRequest) || (t =? typePingResponse) then
    let '(seq, r) := varint r in
    finish_frame t (Ping (t =? typePingResponse) seq) r
  else
    ParsedError (frameEncodingError
      (str "frame type 0x" ++ fmt_x t ++ str " is not allowed")).

Definition Parse (b : bytes) : parsed :=
  let b := skip_padding b in
  if zlen b =? 0 then ParsedNone
  else
    let '(t, r) := varint (mkReader b false) in
    parse_body t r.
End frames.

(** * Round trip *)

(** The frames whose fields an encoder accepts: numbers of at most 62 bits,
    stream counts within the limit of the protocol. *)
Definition frame_ok (f : frame) : Prop :=
  match f with
  | ResetStream sid code fs => is_varint sid /\ is_varint code /\ is_varint fs
  | StopSending sid code => is_varint sid /\ is_varint code
  | Stream sid off data _ => is_varint sid /\ is_varint off /\ is_varint (zlen data)
  | MaxData m => is_varint m
  | MaxStreamData sid m => is_varint sid /\ is_varint m
  | MaxStreams _ m => 0 <= m <= maxStreams
  | Blocked => False
  | ConnectionClose _ code ft reason => is_varint code /\ is_varint ft /\ is_varint (zlen reason)
  | Datagram data => is_varint (zlen data)
  | Ping _ seq => is_varint seq
  | TransportParameters p => params_sendable p
  end.

(** The frame the peer of the sender sees: an application close carries no
    frame type, and an absent record size takes its default. *)
Definition frame_received (f : frame) : frame :=
  match f with
  | ConnectionClose true code _ reason => ConnectionClose true code 0 reason
  | TransportParameters p => TransportParameters (params_received p)
  | f => f
  end.

Section roundtrip.
Context {V : QuicVarint} {VL : QuicVarintLaws V}.

Lemma skip_padding_enc v t : is_varint v -> v <> 0 -> skip_padding (enc v ++ t) = enc v ++ t.
Proof.
  intros Hv Hn. destruct (enc v) as [|x e] eqn:E; [by apply enc_nonempty in E|]. simpl.
  destruct (Z.eqb_spec (b2z x) 0) as [Hx|]; [|done].
  rewrite <- (z2b_b2z x), Hx in E. by apply enc_head_zero in E.
Qed.

Lemma Parse_enc t r : is_varint t -> t <> 0 -> Parse (enc t ++ r) = parse_body t (mkReader r false).
Proof.
  intros Ht Hn. unfold Parse. rewrite skip_padding_enc by done.
  destruct (Z.eqb_spec (zlen (enc t ++ r)) 0) as [E|_].
  { rewrite length_app in E. pose proof (enc_nonempty t Ht). destruct (enc t); [done|].
    rewrite length_cons in E. lia. }
  by rewrite varint_enc.
Qed.

(** The same for the frame types that the source appends as one byte. *)
Lemma Parse_byte t r : 0 < t <= 63 -> Parse (z2b t :: r) = parse_body t (mkReader r false).
Proof.
  intros Ht. rewrite <- Parse_enc by (unfold is_varint; lia). by rewrite enc_byte by lia.
Qed.

Lemma maxStreams_varint m : 0 <= m <= maxStreams -> is_varint m.
Proof. rewrite maxStreams_eq. unfold is_varint. lia. Qed.

Lemma enc_param_length p id : params_varint p -> is_varint id -> (length (enc_param p id) <= 24)%nat.
Proof.
  intros Hp Hid. unfold enc_param. destruct (field id) as [f|] eqn:Hf; [|simpl; lia].
  destruct (load f p =? 0); [simpl; lia|]. rewrite !length_app.
  pose proof (enc_size id Hid). pose proof (enc_size (load f p) (Hp _ _ Hf)).
  pose proof (enc_size _ (varint_size_varint (load f p))).
  pose proof (varint_size_range id). pose proof (varint_size_range (load f p)).
  pose proof (varint_size_range (varint_size (load f p))). lia.
Qed.

(** The Transport Parameters field takes at most 9 * 24 bytes. *)
Lemma params_field_length p :
  params_varint p -> (length (mjoin (enc_param p <$> paramOrder)) <= 216)%nat.
Proof.
  intros Hp. assert (H : forall ids, Forall is_varint ids ->
    (length (mjoin (enc_param p <$> ids)) <= 24 * length ids)%nat).
  { induction 1 as [|id ids Hid _ IH]; [done|]. csimpl. rewrite length_app.
    pose proof (enc_param_length p id Hp Hid). lia. }
  apply (H paramOrder). eapply list.Forall_impl; [apply paramOrder_ok|]. simpl. tauto.
Qed.

#[local] Ltac encode :=
  repeat (first [rewrite append_enc by done | rewrite append_enc by (by apply maxStreams_varint)]; simpl);
  try match goal with |- context [enc ?t ++ _] =>
        rewrite (enc_byte t) by done end;
  rewrite <- ?app_assoc; simpl; reflexivity.
#[local] Ltac decode :=
  intros r; simpl; unfold parse_body; simpl; rewrite <- ?app_assoc;
  repeat first [rewrite varint_enc by done | rewrite varint_enc by (by apply maxStreams_varint)
               | rewrite read_bytes_app]; try reflexivity.
#[local] Ltac frame_type t :=
  exists t; eexists; split_and!; [done|done|done|done| |].

(** Every frame in range has an encoding that starts with a type [t] whose
    frames delimit themselves, and the parser inverts it. *)
Lemma Append_body f :
  frame_ok f -> exists t body,
    is_varint t /\ t <> 0 /\ t <> typeDatagram /\
    ((typeStream <=? t) && (t <=? typeStreamMax) = true -> Z.land t streamBitLen <> 0) /\
    (forall b, Append f b = Some (b ++ enc t ++ body)) /\
    forall r, parse_body t (mkReader (body ++ r) false) = ParsedFrame (frame_received f) r.
Proof.
  destruct f as [sid code fs|sid code|sid off data fin|m|sid m|uni m| |app code ft reason|data|resp seq|p];
    simpl; intros Hok; try done; destruct_and?.
  - frame_type typeResetStream; [intros b; unfold ResetStream_Append; encode|decode].
  - frame_type typeStopSending; [intros b; unfold StopSending_Append; encode|decode].
  - unfold Stream_Append, stream_type. destruct (Z.ltb_spec 0 off), fin;
      [frame_type 0x0f|frame_type 0x0e|frame_type 0x0b|frame_type 0x0a];
      try (intros b; encode); decode; by replace off with 0 by (unfold is_varint in *; lia).
  - frame_type typeMaxData; [intros b; unfold MaxData_Append; encode|decode].
  - frame_type typeMaxStreamData; [intros b; unfold MaxStreamData_Append; encode|decode].
  - destruct uni; [frame_type typeMaxStreamsUni|frame_type typeMaxStreamsBidi];
      try (intros b; unfold MaxStreams_Append; encode); decode;
      (destruct (Z.ltb_spec maxStreams m); [lia|done]).
  - destruct app; [frame_type typeApplicationClose|frame_type typeConnectionClose];
      try (intros b; unfold ConnectionClose_Append; simpl; encode); decode.
  - frame_type typeDatagramLen; [intros b; unfold Datagram_Append; encode|decode].
  - destruct resp; [frame_type typePingResponse|frame_type typePingRequest];
      try (intros b; unfold Ping_Append; encode); decode.
  - pose proof (Parameters_append_enc p [] (proj1 Hok)) as HA. rewrite app_nil_l in HA.
    pose proof (params_field_length p (proj1 Hok)) as HL. revert HA HL.
    generalize (mjoin (enc_param p <$> paramOrder)). intros field HA HL.
    assert (is_varint (zlen field)) by (unfold is_varint; lia).
    frame_type typeTransportParameters;
      [intros b; unfold TransportParameters_Append; rewrite HA; simpl; encode|decode].
    by rewrite (parse_append_params p field).
Qed.

Lemma Append_Parse f :
  frame_ok f -> exists e, (forall b, Append f b = Some (b ++ e)) /\
    forall r, Parse (e ++ r) = ParsedFrame (frame_received f) r.
Proof.
  intros Hok. destruct (Append_body f Hok) as (t & body & Ht & Hn & _ & _ & HA & HP).
  exists (enc t ++ body). split; [done|]. intros r. by rewrite <- app_assoc, Parse_enc.
Qed.

Lemma Append_Parse_eq f b e :
  frame_ok f -> Append f b = Some e ->
  exists e', e = b ++ e' /\ forall r, Parse (e' ++ r) = ParsedFrame (frame_received f) r.
Proof.
  intros Hok HA. destruct (Append_Parse f Hok) as (e' & He & HP).
  rewrite He in HA. simplify_eq. eauto.
Qed.
End roundtrip.

(** * What the parser returns *)

(** The numbers of a parsed frame are in range. *)
Definition frame_parsed (f : frame) : Prop :=
  match f with
  | ResetStream sid code fs => is_varint sid /\ is_varint code /\ is_varint fs
  | StopSending sid code => is_varint sid /\ is_varint code
  | Stream sid off _ _ => is_varint sid /\ is_varint off
  | MaxData m => is_varint m
  | MaxStreamData sid m => is_varint sid /\ is_varint m
  | MaxStreams _ m => 0 <= m <= maxStreams
  | Blocked => True
  | ConnectionClose _ code ft _ => is_varint code /\ is_varint ft
  | Datagram _ => True
  | Ping _ seq => is_varint seq
  | TransportParameters p => params_valid p
  end.

(** The data a frame carries. *)
Definition frame_data (f : frame) : bytes :=
  match f with
  | Stream _ _ data _ => data
  | Datagram data => data
  | ConnectionClose _ _ _ reason => reason
  | _ => []
  end.

(** Splits the branches of [parse_body] down to its returns. *)
Ltac body_cases H :=
  repeat (match type of H with
    | (if ?b then _ else _) = _ => destruct b eqn:?
    | (let '(_, _) := (if ?b then _ else _) in _) = _ => destruct b eqn:?
    | (let '(_, _) := (let '(_, _) := ?x in _) in _) = _ => destruct x as [? ?] eqn:?
    | (let '(_, _) := ?x in _) = _ => destruct x as [? ?] eqn:?
    | (match ?x with inl _ => _ | inr _ => _ end) = _ => destruct x eqn:?
    end; try discriminate H).

Section parser.
Context {V : QuicVarint} {VL : QuicVarintLaws V}.

(** The reader [r] holds what is left of [r0] and of [n] bytes at most. *)
Definition within (r0 r : reader) (data : bytes) : Prop :=
  r_failed r0 = false /\ exists d, r_b r0 = d ++ r_b r /\ zlen data <= zlen (r_b r0).

Lemma finish_frame_inv t f r g tl :
  finish_frame t f r = ParsedFrame g tl -> r_failed r = false /\ f = g /\ r_b r = tl.
Proof. unfold finish_frame. destruct (r_failed r); intros; by simplify_eq. Qed.

Lemma within_refl r : r_failed r = false -> within r r [].
Proof. intros. split; [done|]. exists []. simpl. split; [done|lia]. Qed.

Lemma reads_within r0 r r' k d : reads r0 r k -> within r r' d -> within r0 r' d.
Proof.
  intros (Hf & _ & d1 & Hd1 & _) (_ & d2 & Hd2 & Hl). split; [done|].
  exists (d1 ++ d2). rewrite Hd1, Hd2, <- app_assoc. split; [done|].
  rewrite Hd2 in Hl. rewrite !length_app in *. lia.
Qed.

Lemma varint_within r0 v r r' d :
  varint r0 = (v, r) -> within r r' d -> within r0 r' d /\ is_varint v.
Proof.
  intros E H. destruct (varint_ok _ _ _ E (proj1 H)). split; [by eapply reads_within|done].
Qed.

Lemma read_bytes_within n r0 data r :
  read_bytes n r0 = (data, r) -> r_failed r = false -> within r0 r data.
Proof.
  intros E Hf. destruct (read_bytes_ok _ _ _ _ E Hf) as ((H & _ & d & Hd & _) & -> & Hn).
  split; [done|]. exists d. split; [done|]. rewrite length_take. lia.
Qed.

Lemma rest_within r0 data r :
  rest r0 = (data, r) -> r_failed r = false -> within r0 r data.
Proof.
  intros E Hf. destruct (rest_ok _ _ _ E Hf) as (H & _ & d & Hd & _).
  split; [done|]. exists d. split; [done|].
  unfold rest in E. rewrite H in E. simplify_eq. lia.
Qed.

(** Turns a chain of successful reads into [within] and range facts,
    starting from the last reader. *)
Ltac read_chain :=
  repeat match goal with
  | E : varint ?r0 = (?v, ?r), H : within ?r _ _ |- _ =>
      let Hr := fresh "Hr" in
      destruct (varint_within _ _ _ _ _ E H) as [Hr ?]; clear E
  | E : read_bytes ?n ?r0 = (?d, ?r), H : r_failed ?r = false |- _ =>
      pose proof (read_bytes_within _ _ _ _ E H); clear E
  | E : rest ?r0 = (?d, ?r), H : r_failed ?r = false |- _ =>
      pose proof (rest_within _ _ _ E H); clear E
  end.

Lemma within_nil r r' d : within r r' d -> within r r' [].
Proof. intros (Hf & x & Hx & _). split; [done|]. exists x. simpl. split; [done|lia]. Qed.

Lemma parse_body_inv t r f tl :
  parse_body t r = ParsedFrame f tl ->
  frame_parsed f /\ exists r', r_b r' = tl /\ within r r' (frame_data f).
Proof.
  unfold parse_body. intros H. body_cases H; try discriminate H;
    apply finish_frame_inv in H as (Hf & <- & <-); simpl; simplify_eq; read_chain;
    try (pose proof (within_refl _ Hf); read_chain);
    try (split; [split_and?; by eauto using is_varint_0|by eauto using within_nil]).
  - split; [|by eauto]. unfold is_varint in *.
    match goal with E : (maxStreams <? _) = false |- _ => apply Z.ltb_ge in E; lia end.
  - by rewrite Hf in *.
  - split; [by eapply parseParameters_valid|by eauto using within_nil].
Qed.

Lemma skip_padding_suffix b : exists d, b = d ++ skip_padding b.
Proof.
  induction b as [|x b [d IH]]; simpl; [by exists []|].
  destruct (b2z x =? 0); [|by exists []]. exists (x :: d). simpl. by f_equal.
Qed.

(** A parsed frame has its numbers in range; it starts the input, and at
    least one byte of input is gone. *)
Lemma Parse_inv b f tl :
  Parse b = ParsedFrame f tl ->
  frame_parsed f /\ exists d, b = d ++ tl /\ (0 < length d)%nat /\ zlen (frame_data f) <= zlen b.
Proof.
  unfold Parse. destruct (skip_padding_suffix b) as [d Hd].
  destruct (zlen (skip_padding b) =? 0); [done|].
  destruct (varint _) as [t r] eqn:Et. intros H.
  apply parse_body_inv in H as (Hf & r' & <- & Hw). split; [done|].
  destruct (varint_ok _ _ _ Et (proj1 Hw)) as (_ & _ & _ & e & He & Hl).
  destruct Hw as (_ & x & Hx & Hlen). simpl in He.
  exists (d ++ e ++ x). rewrite Hd at 1. rewrite He, Hx. rewrite <- !app_assoc. split; [done|].
  rewrite Hd, He. rewrite !length_app. lia.
Qed.

Lemma parse_body_error t r e :
  parse_body t r = ParsedError e ->
  err_Code e = FrameEncodingError \/
  (t = typeTransportParameters /\ err_Code e = TransportParameterError).
Proof.
  assert (Hfin : forall f r', finish_frame t f r' = ParsedError e -> err_Code e = FrameEncodingError).
  { intros f r'. unfold finish_frame. destruct (r_failed r'); intros; by simplify_eq. }
  unfold parse_body. intros H.
  body_cases H; try (left; by eapply Hfin); simplify_eq; try (by left).
  right. split; [by apply Z.eqb_eq|]. by eapply parseParameters_error.
Qed.

Lemma Parse_error b e :
  Parse b = ParsedError e ->
  err_Code e = FrameEncodingError \/ err_Code e = TransportParameterError.
Proof.
  unfold Parse. destruct (zlen _ =? 0); [done|]. destruct (varint _) as [t r].
  intros H. apply parse_body_error in H as [?|[_ ?]]; auto.
Qed.

(** * Truncation *)

(** [r] with more input behind it. *)
Definition extend (q : bytes) (r : reader) : reader := mkReader (r_b r ++ q) (r_failed r).

Lemma varint_extend q r v r' :
  varint r = (v, r') -> r_failed r' = false -> varint (extend q r) = (v, extend q r').
Proof.
  unfold varint, extend. simpl. destruct (r_failed r) eqn:Hf; [intros; simplify_eq; congruence|].
  destruct (varint_parse (r_b r)) as [[w n]|] eqn:E; intros; simplify_eq/=.
  rewrite (parse_extend _ _ _ q E). apply parse_Some in E as (_ & Hn & Hl).
  rewrite drop_app_le by lia. done.
Qed.

Lemma read_bytes_extend q n r d r' :
  read_bytes n r = (d, r') -> r_failed r' = false ->
  read_bytes n (extend q r) = (d, extend q r').
Proof.
  unfold read_bytes, extend. simpl. destruct (r_failed r) eqn:Hf; [intros; simplify_eq/=|].
  simpl. rewrite length_app.
  destruct (Z.ltb_spec (zlen (r_b r)) n), (Z.ltb_spec (Z.of_nat (length (r_b r) + length q)) n);
    intros; simplify_eq/=; try lia.
  rewrite take_app_le, drop_app_le by lia. done.
Qed.

(** A read that did not fail started from a reader that had not failed. *)
Ltac unfailed :=
  repeat match goal with
  | E : varint ?r = (_, ?r'), H : r_failed ?r' = false |- _ =>
      lazymatch goal with
      | _ : r_failed r = false |- _ => fail
      | _ => pose proof (proj1 (proj2 (varint_ok _ _ _ E H)))
      end
  | E : read_bytes _ ?r = (_, ?r'), H : r_failed ?r' = false |- _ =>
      lazymatch goal with
      | _ : r_failed r = false |- _ => fail
      | _ => pose proof (proj1 (proj1 (read_bytes_ok _ _ _ _ E H)))
      end
  end.
Ltac extend_chain :=
  repeat match goal with
  | E : varint ?r = (_, _) |- context [varint (extend ?q ?r)] =>
      rewrite (varint_extend q _ _ _ E) by done
  | E : read_bytes _ ?r = (_, _) |- context [read_bytes _ (extend ?q ?r)] =>
      rewrite (read_bytes_extend q _ _ _ _ E) by done
  end.

(** More input does not change what was parsed, for the frame types that
    delimit themselves. *)
Lemma parse_body_extend q t r f tl :
  t <> typeDatagram ->
  ((typeStream <=? t) && (t <=? typeStreamMax) = true -> Z.land t streamBitLen <> 0) ->
  parse_body t r = ParsedFrame f tl -> parse_body t (extend q r) = ParsedFrame f (tl ++ q).
Proof.
  assert (Hfin : forall g r', r_failed r' = false ->
            finish_frame t g (extend q r') = ParsedFrame g (r_b r' ++ q))
    by (intros g r' Hr; unfold finish_frame, extend; simpl; by rewrite Hr).
  intros Hd Hs H. unfold parse_body in *. body_cases H;
    apply finish_frame_inv in H as (Hf & <- & <-); simplify_eq; unfailed; extend_chain;
    simpl; try (by apply Hfin); try (exfalso; by apply Hs, Z.eqb_eq, negb_false_iff).
  - match goal with E : (maxStreams <? _) = _ |- _ => rewrite E end. by apply Hfin.
  - match goal with E : (maxStreams <? _) = _ |- _ => rewrite E end. by apply Hfin.
  - match goal with E : (t =? typeDatagram) = true |- _ => by apply Z.eqb_eq in E end.
  - by rewrite Hf in *.
  - match goal with E : parseParameters _ = _ |- _ => rewrite E end. by apply Hfin.
Qed.

(** The same for an error in the transport parameters: the field was
    complete when it was found. *)
Lemma parse_body_extend_error q t r e :
  err_Code e = TransportParameterError ->
  parse_body t r = ParsedError e -> parse_body t (extend q r) = ParsedError e.
Proof.
  intros He H. destruct (parse_body_error _ _ _ H) as [Hc|[-> _]]; [by rewrite Hc in He|].
  revert H. unfold parse_body. simpl. destruct (varint r) as [n r1] eqn:E1.
  destruct (read_bytes n r1) as [b r2] eqn:E2.
  assert (Hfin : forall g, finish_frame typeTransportParameters g r2 = ParsedError e -> False).
  { intros g. unfold finish_frame. destruct (r_failed r2); intros; by simplify_eq. }
  destruct (parseParameters b) as [err|] eqn:Eb; [|by intros ?%Hfin].
  destruct (r_failed r2) eqn:Hf; simpl; [by intros ?%Hfin|]. intros.
  unfailed. extend_chain. rewrite Eb. simpl. by rewrite Hf.
Qed.

Lemma skip_padding_app_nonzero x p q :
  b2z x <> 0 -> skip_padding ((x :: p) ++ q) = (x :: p) ++ q.
Proof. intros H. simpl. by destruct (Z.eqb_spec (b2z x) 0). Qed.

(** A strict, non-empty prefix of an encoded frame is a frame encoding
    error. *)
Lemma Parse_truncated f p q :
  frame_ok f -> Append f [] = Some (p ++ q) -> p <> [] -> q <> [] ->
  exists e, Parse p = ParsedError e /\ err_Code e = FrameEncodingError.
Proof.
  intros Hok HA Hp Hq.
  destruct (Append_body f Hok) as (t & body & Ht & Hn & Hd & Hs & HA' & HP).
  rewrite HA' in HA. simpl in HA. apply Some_inj in HA.
  destruct p as [|x p]; [done|].
  assert (Hx : b2z x <> 0).
  { intros Hx. destruct (enc t) as [|y e] eqn:E; [by apply enc_nonempty in E|].
    simpl in HA. injection HA as -> _. rewrite <- (z2b_b2z x), Hx in E.
    by apply enc_head_zero in E. }
  pose proof (skip_padding_app_nonzero x p [] Hx) as Hskip. rewrite app_nil_r in Hskip.
  unfold Parse. rewrite Hskip.
  destruct (Z.eqb_spec (zlen (x :: p)) 0) as [Hl|_]; [simpl in Hl; lia|].
  destruct (varint (mkReader (x :: p) false)) as [t' r] eqn:Et.
  destruct (r_failed r) eqn:Hr.
  { exists (frameEncodingError (str "frame type 0x" ++ fmt_x 0 ++ str " is not allowed")).
    split; [|done]. assert (t' = 0) as ->; [|done].
    unfold varint in Et. simpl in Et. repeat case_match; by simplify_eq/=. }
  assert (Ext : (t', extend q r) = (t, mkReader body false)).
  { rewrite <- (varint_extend q _ _ _ Et Hr). unfold extend. simpl r_b. simpl r_failed.
    rewrite <- HA. by apply varint_enc. }
  injection Ext as -> Eb Ef. pose proof (HP []) as Hbody. rewrite app_nil_r in Hbody.
  assert (Er : extend q r = mkReader body false) by (unfold extend; by rewrite Eb, Ef).
  destruct (parse_body t r) as [|g tl|e] eqn:Epb.
  - exfalso. unfold parse_body in Epb. body_cases Epb; unfold finish_frame in Epb; by case_match.
  - apply (parse_body_extend q) in Epb; [|done|done]. rewrite Er, Hbody in Epb.
    injection Epb as _ Etl. symmetry in Etl. by apply app_nil in Etl as [_ ?].
  - exists e. split; [done|]. destruct (parse_body_error _ _ _ Epb) as [?|[_ He]]; [done|].
    apply (parse_body_extend_error q) in Epb; [|done]. by rewrite Er, Hbody in Epb.
Qed.
End parser.
