(* ===== verification/Heap.v ===== *)
(** The binary heap of Go's [container/heap], which [qmux/write_lock.go]
    uses for its waiters: [up], [down], [Push] and [Pop] on a slice, with
    the indices and the loop conditions of the library. The theorems show,
    for any [Less] that is a strict weak order, that [Push] and [Pop] keep
    the heap order and the multiset of elements, and that [Pop] returns an
    element that no other is [Less] than. *)

From S2P Require Import Prelude.
From stdpp Require Import sorting.
#[local] Open Scope nat_scope.

(** * Slices *)

Section swap.
Context {A : Type} `{!Inhabited A}.
Implicit Types l : list A.

(** [h[i], h[j] = h[j], h[i]] *)
Definition swap l (i j : nat) : list A := <[i := l !!! j]> (<[j := l !!! i]> l).

Lemma length_swap l i j : length (swap l i j) = length l.
Proof. unfold swap. by rewrite !length_insert. Qed.

Lemma lookup_swap l i j k :
  i < length l -> j < length l ->
  swap l i j !!! k = if decide (k = i) then l !!! j else if decide (k = j) then l !!! i else l !!! k.
Proof.
  intros Hi Hj. unfold swap. destruct (decide (k = i)) as [->|Hki].
  - apply list_lookup_total_insert_eq. by rewrite length_insert.
  - rewrite list_lookup_total_insert_ne by done. destruct (decide (k = j)) as [->|Hkj].
    + by apply list_lookup_total_insert_eq.
    + by rewrite list_lookup_total_insert_ne.
Qed.

Lemma swap_same l i : i < length l -> swap l i i = l.
Proof.
  intros Hi. unfold swap.
  assert (<[i := l !!! i]> l = l) as Hid by (by apply list_insert_id, list_lookup_lookup_total_lt).
  by rewrite !Hid.
Qed.

Lemma swap_middle l1 l2 l3 (a b : A) :
  swap (l1 ++ a :: l2 ++ b :: l3) (length l1) (length l1 + S (length l2))
  = l1 ++ b :: l2 ++ a :: l3.
Proof.
  unfold swap. rewrite (list_lookup_total_middle l1 _ a (length l1)) by done.
  rewrite insert_app_r. rewrite lookup_total_app_r by lia.
  replace (length l1 + S (length l2) - length l1) with (S (length l2)) by lia. simpl.
  rewrite (list_lookup_total_middle l2 _ b (length l2)) by done.
  rewrite <- (Nat.add_0_r (length l2)) at 1. rewrite insert_app_r. simpl.
  rewrite <- (Nat.add_0_r (length l1)) at 1. by rewrite insert_app_r.
Qed.

Lemma swap_Permutation l i j : i < j -> j < length l -> swap l i j ≡ₚ l.
Proof.
  intros Hij Hj.
  assert (Hi : i < length l) by lia.
  rewrite <- (take_drop_middle l i (l !!! i)) at 2 by (by apply list_lookup_lookup_total_lt).
  set (t := drop (S i) l).
  assert (Ht : t !! (j - S i) = Some (l !!! j)).
  { subst t. rewrite lookup_drop. replace (S i + (j - S i)) with j by lia.
    by apply list_lookup_lookup_total_lt. }
  assert (Hl : l = take i l ++ l !!! i :: take (j - S i) t ++ l !!! j :: drop (S (j - S i)) t).
  { rewrite (take_drop_middle t _ _ Ht). subst t.
    by rewrite (take_drop_middle l i) by (by apply list_lookup_lookup_total_lt). }
  assert (Hlt : j - S i < length t) by (by eapply lookup_lt_Some).
  assert (Hs : swap l i j = take i l ++ l !!! j :: take (j - S i) t ++ l !!! i :: drop (S (j - S i)) t).
  { pose proof (swap_middle (take i l) (take (j - S i) t) (drop (S (j - S i)) t) (l !!! i) (l !!! j)) as E.
    rewrite <- Hl in E. rewrite !length_take in E.
    replace (i `min` length l) with i in E by lia.
    by replace (i + S ((j - S i) `min` length t)) with j in E by lia. }
  rewrite Hs. rewrite <- (take_drop_middle t _ _ Ht) at 3.
  apply Permutation_app_head. solve_Permutation.
Qed.
End swap.

(** * The algorithms *)

Section heap.
Context {A : Type} `{!Inhabited A} (less : A -> A -> bool).
Implicit Types l : list A.

(** [(j - 1) / 2] in Go, whose division truncates: the parent of 0 is 0. *)
Definition parent (j : nat) : nat := (j - 1) / 2.

(** [up(h, j)]; the index decreases in every iteration. *)
Fixpoint up (fuel : nat) l (j : nat) : list A :=
  match fuel with
  | O => l
  | S fuel =>
      let i := parent j in
      if (i =? j)%nat || negb (less (l !!! j) (l !!! i)) then l
      else up fuel (swap l i j) i
  end.

(** [down(h, i, n)]; the index grows in every iteration. *)
Fixpoint down (fuel : nat) l (i n : nat) : list A :=
  match fuel with
  | O => l
  | S fuel =>
      let j1 := 2 * i + 1 in
      if (n <=? j1)%nat then l
      else
        let j2 := j1 + 1 in
        let j := if (j2 <? n)%nat && less (l !!! j2) (l !!! j1) then j2 else j1 in
        if negb (less (l !!! j) (l !!! i)) then l
        else down fuel (swap l i j) j n
  end.

(** [heap.Push(h, x)] *)
Definition Push l (x : A) : list A :=
  let l := l ++ [x] in up (length l) l (length l - 1).

(** [heap.Pop(h)]; [None] is the panic on an empty slice. *)
Definition Pop l : option (A * list A) :=
  match l with
  | [] => None
  | _ =>
      let n := length l - 1 in
      let l := down (length l) (swap l 0 n) 0 n in
      Some (l !!! n, take n l)
  end.

(** * Their correctness *)

Definition hle (a b : A) : Prop := less b a = false.

(** [Less] is a strict weak order. *)
Class WeakOrder : Prop := {
  less_asym a b : less a b = true -> less b a = false;
  hle_trans a b c : hle a b -> hle b c -> hle a c;
}.
Context {WO : WeakOrder}.

Lemma hle_refl a : hle a a.
Proof. unfold hle. destruct (less a a) eqn:E; [|done]. rewrite <- E. by apply less_asym. Qed.

Lemma less_hle a b : less a b = true -> hle a b.
Proof. apply less_asym. Qed.

Lemma hle_total a b : hle a b \/ hle b a.
Proof. unfold hle. destruct (less b a) eqn:E; [right; by apply less_asym|by left]. Qed.

(** Every element up to [n], except the one at [hole], follows its parent. *)
Definition ordered l (n : nat) (hole : nat -> Prop) : Prop :=
  forall k, 0 < k -> k < n -> ~ hole k -> hle (l !!! parent k) (l !!! k).

Abbreviation heap_ok l := (ordered l (length l) (fun _ => False)).

Lemma parent_lt k : 0 < k -> parent k < k.
Proof. intros H. unfold parent. apply Nat.Div0.div_lt_upper_bound. lia. Qed.

Lemma parent_child i k : 0 < k -> parent k = i <-> k = 2 * i + 1 \/ k = 2 * i + 2.
Proof.
  intros Hk. unfold parent. pose proof (Nat.div_mod (k - 1) 2).
  pose proof (Nat.mod_upper_bound (k - 1) 2). lia.
Qed.

(** The root comes first. *)
Lemma ordered_root l n k :
  ordered l n (fun _ => False) -> k < n -> hle (l !!! 0) (l !!! k).
Proof.
  intros Ho. induction k as [k IH] using lt_wf_ind. intros Hk.
  destruct (decide (k = 0)) as [->|]; [apply hle_refl|].
  eapply hle_trans; [apply (IH (parent k)); [apply parent_lt; lia|]|].
  - pose proof (parent_lt k). lia.
  - apply Ho; [lia|lia|tauto].
Qed.

Lemma up_Permutation fuel l j : j < length l -> up fuel l j ≡ₚ l.
Proof.
  revert l j. induction fuel as [|fuel IH]; intros l j Hj; simpl; [done|].
  destruct (Nat.eqb_spec (parent j) j) as [|Hne]; simpl; [done|].
  destruct (less _ _); simpl; [|done].
  assert (parent j < j).
  { destruct j; [done|]. apply parent_lt. lia. }
  rewrite IH by (rewrite length_swap; lia). by apply swap_Permutation.
Qed.

(** [up] repairs a heap whose only misplaced element is at [j], provided
    the children of [j] already follow the parent of [j]. *)
Lemma up_ordered fuel l j :
  j < fuel -> j < length l -> ordered l (length l) (fun k => k = j) ->
  (forall k, 0 < k -> k < length l -> parent k = j -> 0 < j -> hle (l !!! parent j) (l !!! k)) ->
  ordered (up fuel l j) (length l) (fun _ => False).
Proof.
  revert l j. induction fuel as [|fuel IH]; intros l j Hf Hj Ho Hc; [lia|]. simpl.
  destruct (Nat.eqb_spec (parent j) j) as [Hp|Hp]; simpl.
  { intros k Hk Hn _. apply Ho; [done|done|]. intros ->. pose proof (parent_lt j). lia. }
  assert (Hj0 : 0 < j) by (destruct j; [done|lia]). pose proof (parent_lt j Hj0) as Hlt.
  destruct (less (l !!! j) (l !!! parent j)) eqn:E; simpl.
  2: { intros k Hk Hn _. destruct (decide (k = j)) as [->|]; [done|]. apply Ho; [done|done|tauto]. }
  rewrite <- (length_swap l (parent j) j).
  apply IH; rewrite ?length_swap; [lia|lia| |].
  - intros k Hk Hn Hne. rewrite !lookup_swap by lia.
    destruct (decide (k = parent j)) as [|_]; [done|].
    destruct (decide (k = j)) as [->|Hkj].
    { rewrite decide_True by done. by apply less_hle. }
    destruct (decide (parent k = parent j)) as [Hpk|Hpk].
    { eapply hle_trans; [by apply less_hle|]. rewrite <- Hpk. apply Ho; done. }
    destruct (decide (parent k = j)) as [Hpj|Hpj]; [by apply Hc|]. by apply Ho.
  - intros k Hk Hn Hpk Hi. pose proof (parent_lt (parent j) Hi).
    pose proof (parent_lt k Hk). rewrite !lookup_swap by lia.
    rewrite (decide_False (P := parent (parent j) = parent j)) by lia.
    rewrite (decide_False (P := parent (parent j) = j)) by lia.
    rewrite (decide_False (P := k = parent j)) by lia.
    assert (hle (l !!! parent (parent j)) (l !!! parent j)) as Hgp by (apply Ho; lia).
    destruct (decide (k = j)) as [->|Hkj]; [done|].
    eapply hle_trans; [exact Hgp|]. rewrite <- Hpk. by apply Ho.
Qed.

Lemma down_length fuel l i n : length (down fuel l i n) = length l.
Proof.
  revert l i. induction fuel as [|fuel IH]; intros l i; simpl; [done|].
  repeat case_match; try done; by rewrite IH, length_swap.
Qed.

(** The child of [i] that [down] considers. *)
Definition child l i n : nat :=
  if (2 * i + 1 + 1 <? n) && less (l !!! (2 * i + 1 + 1)) (l !!! (2 * i + 1)) then 2 * i + 1 + 1
  else 2 * i + 1.

Lemma child_spec l i n :
  2 * i + 1 < n ->
  let j := child l i n in
  i < j /\ j < n /\ parent j = i /\
  forall k, 0 < k -> k < n -> parent k = i -> hle (l !!! j) (l !!! k).
Proof.
  intros Hn. cbv zeta. unfold child.
  destruct (Nat.ltb_spec (2 * i + 1 + 1) n) as [H2|H2]; cbn [andb].
  - destruct (less (l !!! (2 * i + 1 + 1)) (l !!! (2 * i + 1))) eqn:E;
      (split_and!; [lia|lia|apply parent_child; lia|]); intros k Hk Hkn Hp;
      apply parent_child in Hp as [->| ->]; try done.
    + by apply less_hle.
    + replace (2 * i + 1 + 1) with (2 * i + 2) by lia. apply hle_refl.
    + apply hle_refl.
    + by replace (2 * i + 2) with (2 * i + 1 + 1) by lia.
  - split_and!; [lia|lia|apply parent_child; lia|]. intros k Hk Hkn Hp.
    apply parent_child in Hp as [->| ->]; [apply hle_refl|lia|done].
Qed.

Lemma down_Permutation fuel l i n : n <= length l -> down fuel l i n ≡ₚ l.
Proof.
  revert l i. induction fuel as [|fuel IH]; intros l i Hn; [done|]. cbn [down].
  destruct (Nat.leb_spec n (2 * i + 1)); [done|]. fold (child l i n).
  destruct (child_spec l i n) as (Hj & Hjn & _); [lia|].
  destruct (less _ _); simpl; [|done].
  rewrite IH by (rewrite length_swap; lia). apply swap_Permutation; lia.
Qed.

(** [down] repairs the first [n] elements of a heap whose only misplaced
    element is at [i], and leaves the others alone. *)
Lemma down_ordered fuel l i n :
  n <= fuel + i -> n <= length l -> ordered l n (fun k => parent k = i) ->
  (forall k, 0 < k -> k < n -> parent k = i -> 0 < i -> hle (l !!! parent i) (l !!! k)) ->
  ordered (down fuel l i n) n (fun _ => False) /\
  forall k, n <= k -> down fuel l i n !!! k = l !!! k.
Proof.
  revert l i. induction fuel as [|fuel IH]; intros l i Hf Hn Ho Hc; cbn [down].
  { split; [|done]. intros k Hk Hkn _. apply Ho; [done|done|].
    intros Hp. pose proof (parent_lt k Hk). lia. }
  destruct (Nat.leb_spec n (2 * i + 1)) as [Hle|Hlt].
  { split; [|done]. intros k Hk Hkn _. apply Ho; [done|done|].
    intros [->| ->]%parent_child; lia. }
  fold (child l i n). destruct (child_spec l i n) as (Hij & Hjn & Hpj & Hmin); [lia|].
  set (j := child l i n) in *.
  destruct (less (l !!! j) (l !!! i)) eqn:E; simpl.
  2: { split; [|done]. intros k Hk Hkn _. destruct (decide (parent k = i)) as [<-|Hne].
       - eapply hle_trans; [exact E|]. by apply Hmin.
       - by apply Ho. }
  destruct (IH (swap l i j) j) as [H1 H2]; rewrite ?length_swap; [lia|lia| | |].
  - intros k Hk Hkn Hpk. rewrite !lookup_swap by lia. pose proof (parent_lt k Hk).
    destruct (decide (k = j)) as [->|Hkj].
    { rewrite (decide_True (P := parent j = i)), (decide_False (P := j = i)) by lia.
      by apply less_hle. }
    destruct (decide (k = i)) as [->|Hki].
    { rewrite !decide_False by lia. apply Hc; [lia|lia|done|lia]. }
    destruct (decide (parent k = i)) as [Hpi|Hpi]; [by apply Hmin|].
    rewrite decide_False by lia. apply Ho; [done|done|lia].
  - intros k Hk Hkn Hpk _. pose proof (parent_lt k Hk). rewrite !lookup_swap by lia.
    rewrite Hpj, decide_True by done. rewrite !decide_False by lia.
    rewrite <- Hpk. apply Ho; lia.
  - split; [done|]. intros k Hk. rewrite H2 by done. rewrite lookup_swap by lia.
    rewrite !decide_False by lia. done.
Qed.

(** * The interface of the heap *)

Lemma Push_Permutation l x : Push l x ≡ₚ x :: l.
Proof.
  unfold Push. rewrite up_Permutation by (rewrite length_app; simpl; lia).
  symmetry. apply Permutation_cons_append.
Qed.

Lemma Push_ordered l x : heap_ok l -> heap_ok (Push l x).
Proof.
  intros Ho. unfold Push.
  assert (Hl : length (up (length (l ++ [x])) (l ++ [x]) (length (l ++ [x]) - 1)) = length (l ++ [x])).
  { apply Permutation_length, up_Permutation. rewrite length_app. simpl. lia. }
  rewrite Hl. rewrite length_app. simpl. replace (length l + 1 - 1) with (length l) by lia.
  pose proof (up_ordered (length l + 1) (l ++ [x]) (length l)) as Hup.
  rewrite length_app in Hup. simpl in Hup. apply Hup; [lia|lia| |].
  - intros k Hk Hn Hne. pose proof (parent_lt k Hk).
    rewrite !lookup_total_app_l by lia. apply Ho; [done|lia|tauto].
  - intros k Hk Hn Hp Hj. pose proof (parent_lt k Hk). lia.
Qed.

(** [Pop] fails on an empty heap only; it removes one element, which comes
    before all that are left. *)
Lemma Pop_spec l :
  l <> [] -> heap_ok l ->
  exists x l', Pop l = Some (x, l') /\ l ≡ₚ x :: l' /\ heap_ok l' /\ forall y, y ∈ l' -> hle x y.
Proof.
  intros Hl Ho. unfold Pop. destruct l as [|r t] eqn:El; [done|]. rewrite <- El in *.
  set (n := length l - 1). assert (Hn : length l = S n) by (subst n l; simpl; lia).
  destruct (down_ordered (length l) (swap l 0 n) 0 n) as [H1 H2].
  { lia. }
  { rewrite length_swap. lia. }
  { intros k Hk Hkn Hp. pose proof (parent_lt k Hk). rewrite !lookup_swap by lia.
    rewrite !decide_False by lia. apply Ho; [done|lia|tauto]. }
  { lia. }
  set (d := down (length l) (swap l 0 n) 0 n) in *.
  assert (Hd : length d = S n) by (subst d; rewrite down_length, length_swap; lia).
  assert (Hroot : d !!! n = l !!! 0).
  { rewrite H2 by done. rewrite lookup_swap by lia. case_decide; [|by rewrite decide_True].
    subst n. f_equal. lia. }
  assert (Hperm : l ≡ₚ d !!! n :: take n d).
  { transitivity d.
    - subst d. rewrite down_Permutation by (rewrite length_swap; lia).
      destruct (decide (n = 0)) as [->|]; [|symmetry; apply swap_Permutation; lia].
      by rewrite swap_same by lia.
    - rewrite <- (take_drop_middle d n (d !!! n)) at 1 by (apply list_lookup_lookup_total_lt; lia).
      rewrite drop_ge by lia. symmetry. apply Permutation_cons_append. }
  eexists _, _. split; [done|]. split; [done|]. split.
  - intros k Hk Hkn _. rewrite length_take in Hkn. pose proof (parent_lt k Hk).
    rewrite !lookup_total_take, !decide_True by lia. apply H1; [done|lia|tauto].
  - intros y Hy. rewrite Hroot. assert (y ∈ l) as Hin by (rewrite Hperm; by right).
    apply list_elem_of_lookup_total_1 in Hin as (k & Hk & <-). by apply (ordered_root l (length l)).
Qed.
End heap.
