(* ===== verification/WriteLock.v ===== *)
(** The priority mutex of [qmux/write_lock.go].

    [writeLock] is the lock's state, [acquire] and [Unlock] its two critical
    sections (both run under the inner mutex [mu], so each is one atomic
    step), [Lock] and [LockPriority] what callers see. A waiter's [ready]
    channel is the number it was allocated with; [Unlock] returns the channel
    it closes.

    [step] interleaves the goroutines that use the lock. The theorems show
    mutual exclusion, that no waiter is lost, that the lock goes to the
    waiter that ranks first, that incremental writers of one urgency take
    turns in the order of arrival, and that the heap refines an unordered
    collection of waiters. *)

From S2P Require Import Prelude Heap.
From stdpp Require Import sorting.
#[local] Open Scope Z_scope.

(** * The code *)

Definition urgencyControl : Z := -1.
Definition defaultUrgency : Z := 3.
Definition maxUrgency : Z := 7.

Record priority := mkPriority { p_urgency : Z; p_incremental : bool; p_streamID : Z }.

Record lockWaiter := mkWaiter { w_priority : priority; w_order : Z; w_ready : nat }.

#[global] Instance lockWaiter_inhabited : Inhabited lockWaiter :=
  populate (mkWaiter (mkPriority 0 false 0) 0 0).

(** [waiterHeap.Less] on the waiters at the two indices. *)
Definition Less (a b : lockWaiter) : bool :=
  if negb (p_urgency (w_priority a) =? p_urgency (w_priority b)) then
    p_urgency (w_priority a) <? p_urgency (w_priority b)
  else if negb (Bool.eqb (p_incremental (w_priority a)) (p_incremental (w_priority b))) then
    negb (p_incremental (w_priority a))
  else w_order a <? w_order b.

(** [chans] counts the channels made, so that each one is fresh. *)
Record writeLock := mkLock {
  held : bool;
  arrivals : Z;
  waiters : list lockWaiter;
  chans : nat;
}.

Definition zeroLock : writeLock := mkLock false 0 [] 0.

(** [acquire]: [None] is the nil channel, the lock is the caller's. *)
Definition acquire (p : priority) (l : writeLock) : option nat * writeLock :=
  if negb (held l) then (None, mkLock true (arrivals l) (waiters l) (chans l))
  else
    let ready := chans l in
    let arr := if p_incremental p then u64 (arrivals l + 1) else arrivals l in
    let order := if p_incremental p then arr else p_streamID p in
    let w := mkWaiter p order ready in
    (Some ready, mkLock (held l) arr (Push Less (waiters l) w) (S ready)).

(** [LockPriority] blocks on the channel that [acquire] returns. *)
Definition LockPriority := acquire.

Definition Lock (l : writeLock) : option nat * writeLock :=
  LockPriority (mkPriority urgencyControl true 0) l.

(** [Unlock]: the channel it closes, if any. *)
Definition Unlock (l : writeLock) : option nat * writeLock :=
  match Pop Less (waiters l) with
  | None => (None, mkLock false (arrivals l) (waiters l) (chans l))
  | Some (w, ws) => (Some (w_ready w), mkLock (held l) (arrivals l) ws (chans l))
  end.

(** * The order of the waiters *)

(** [rank a b]: [b] is not served before [a]. *)
Definition rank : lockWaiter -> lockWaiter -> Prop := hle Less.

Lemma rank_iff a b :
  rank a b <->
  p_urgency (w_priority a) < p_urgency (w_priority b) \/
  (p_urgency (w_priority a) = p_urgency (w_priority b) /\
   ((p_incremental (w_priority a) = false /\ p_incremental (w_priority b) = true) \/
    (p_incremental (w_priority a) = p_incremental (w_priority b) /\ w_order a <= w_order b))).
Proof.
  unfold rank, hle, Less.
  destruct (Z.eqb_spec (p_urgency (w_priority b)) (p_urgency (w_priority a))) as [E|E]; simpl.
  - destruct (p_incremental (w_priority a)), (p_incremental (w_priority b)); simpl;
      rewrite ?Z.ltb_ge; intuition (lia || congruence).
  - rewrite Z.ltb_ge. intuition lia.
Qed.

#[global] Instance Less_order : WeakOrder Less.
Proof.
  split.
  - intros a b H. change (rank a b). apply rank_iff. unfold Less in H.
    destruct (Z.eqb_spec (p_urgency (w_priority a)) (p_urgency (w_priority b))); simpl in H.
    + destruct (p_incremental (w_priority a)), (p_incremental (w_priority b)); simpl in H;
        try discriminate; try apply Z.ltb_lt in H; intuition lia.
    + apply Z.ltb_lt in H. lia.
  - intros a b c. fold (rank a b) (rank b c) (rank a c). rewrite !rank_iff.
    intuition (lia || congruence || auto with lia).
    all: try (right; intuition (lia || congruence)).
Qed.

(** * The invariant of the lock *)

Abbreviation incremental w := (p_incremental (w_priority w)).
Abbreviation urgency w := (p_urgency (w_priority w)).

(** Arrivals are counted modulo 2^64, so the order of arrival is meaningful
    while fewer than 2^64 writers have waited. *)
Definition few_arrivals (l : writeLock) : Prop := Z.of_nat (chans l) < 2 ^ 64.

(** Waiters are numbered as they arrive. *)
Definition fifo_inv (l : writeLock) : Prop :=
  0 <= arrivals l <= Z.of_nat (chans l) /\
  (forall w, w ∈ waiters l -> incremental w = true -> w_order w <= arrivals l) /\
  (forall a b, a ∈ waiters l -> b ∈ waiters l -> incremental a = true -> incremental b = true ->
     (w_ready a < w_ready b)%nat -> w_order a < w_order b).

Record lock_inv (l : writeLock) : Prop := {
  inv_heap : ordered Less (waiters l) (length (waiters l)) (fun _ => False);
  inv_free : held l = false -> waiters l = [];
  inv_fresh : forall w, w ∈ waiters l -> (w_ready w < chans l)%nat;
  inv_nodup : NoDup (w_ready <$> waiters l);
  inv_fifo : few_arrivals l -> fifo_inv l;
}.

Lemma zeroLock_inv : lock_inv zeroLock.
Proof.
  split.
  - intros k _ Hk. simpl in Hk. lia.
  - done.
  - by intros w ?%not_elem_of_nil.
  - constructor.
  - intros _. split_and!; simpl; try lia.
    + by intros w ?%not_elem_of_nil.
    + by intros a b ?%not_elem_of_nil.
Qed.

(** The two outcomes of [acquire]. *)
Lemma acquire_free p l :
  held l = false -> acquire p l = (None, mkLock true (arrivals l) (waiters l) (chans l)).
Proof. intros H. unfold acquire. by rewrite H. Qed.

Lemma acquire_busy p l :
  held l = true -> exists w l',
    acquire p l = (Some (chans l), l') /\ w_priority w = p /\ w_ready w = chans l /\
    waiters l' = Push Less (waiters l) w /\ held l' = true /\ chans l' = S (chans l) /\
    (w_order w = if p_incremental p then arrivals l' else p_streamID p) /\
    (arrivals l' = if p_incremental p then u64 (arrivals l + 1) else arrivals l).
Proof.
  intros H. unfold acquire. rewrite H. simpl. set (arr := if p_incremental p then _ else _).
  exists (mkWaiter p (if p_incremental p then arr else p_streamID p) (chans l)).
  eexists. split_and!; done.
Qed.

Lemma acquire_inv p l r l' : acquire p l = (r, l') -> lock_inv l -> lock_inv l'.
Proof.
  intros E H. destruct (held l) eqn:Hh.
  2: { rewrite acquire_free in E by done. simplify_eq/=. destruct H as [? Hf ? ? Hfi].
       split; simpl; try done. }
  destruct (acquire_busy p l Hh) as (w & m & E' & Hp & Hr & Hw & Hheld & Hch & Hord & Harr).
  rewrite E in E'. simplify_eq.
  assert (Hin : forall x, x ∈ waiters m -> x = w \/ x ∈ waiters l)
    by (intros x; rewrite Hw, Push_Permutation, elem_of_cons; tauto).
  split.
  - rewrite Hw. apply Push_ordered; [apply _|apply H].
  - congruence.
  - intros x [->|Hx]%Hin; [lia|]. apply (inv_fresh _ H) in Hx. lia.
  - rewrite Hw. rewrite (fmap_Permutation _ _ _ (Push_Permutation Less _ _)). simpl.
    apply NoDup_cons_2; [|apply H]. rewrite list_elem_of_fmap. intros (x & Hx & Hxl).
    apply (inv_fresh _ H) in Hxl. lia.
  - intros Hfew. unfold few_arrivals in Hfew. rewrite Hch in Hfew.
    destruct (inv_fifo _ H) as (Ha & Hle & Hlt); [unfold few_arrivals; lia|].
    assert (Harr' : arrivals m = if p_incremental (w_priority w) then arrivals l + 1 else arrivals l).
    { rewrite Harr. destruct (p_incremental _); [|done]. apply u64_id. unfold is_u64. lia. }
    split_and!.
    + rewrite Harr'. destruct (p_incremental _); lia.
    + rewrite Harr', Hch. destruct (p_incremental _); lia.
    + intros x [->|Hx]%Hin Hi; [rewrite Hord, Hi; lia|].
      specialize (Hle x Hx Hi). rewrite Harr'. destruct (p_incremental _); lia.
    + intros a b [->|Ha']%Hin [->|Hb']%Hin Hai Hbi Hab; [lia| | |by apply Hlt].
      * apply (inv_fresh _ H) in Hb'. lia.
      * rewrite Hord, Hbi, Harr', Hbi. specialize (Hle a Ha' Hai). lia.
Qed.

(** [Unlock] with waiters: the lock goes to one that ranks before all. *)
Lemma Unlock_hand l :
  lock_inv l -> waiters l <> [] -> exists w ws,
    Unlock l = (Some (w_ready w), mkLock (held l) (arrivals l) ws (chans l)) /\
    waiters l ≡ₚ w :: ws /\ ordered Less ws (length ws) (fun _ => False) /\
    forall w', w' ∈ ws -> rank w w'.
Proof.
  intros H Hne. destruct (Pop_spec Less (waiters l) Hne (inv_heap _ H)) as (w & ws & E & Hp & Ho & Hle).
  exists w, ws. unfold Unlock. by rewrite E.
Qed.

Lemma Unlock_free l :
  waiters l = [] -> Unlock l = (None, mkLock false (arrivals l) [] (chans l)).
Proof. intros H. unfold Unlock. by rewrite H. Qed.

Lemma Unlock_inv l r l' : Unlock l = (r, l') -> lock_inv l -> lock_inv l'.
Proof.
  intros E H. destruct (decide (waiters l = [])) as [Hw|Hw].
  { rewrite Unlock_free in E by done. simplify_eq. destruct H as [Hh Hf Hfr Hnd Hfi].
    rewrite Hw in Hh, Hfr, Hnd. split; simpl; try done.
    intros Hfew. specialize (Hfi Hfew). unfold fifo_inv in *. by rewrite Hw in Hfi. }
  destruct (Unlock_hand l H Hw) as (w & ws & E' & Hp & Ho & _). rewrite E in E'. simplify_eq.
  assert (Hin : forall x, x ∈ ws -> x ∈ waiters l) by (intros; rewrite Hp; by right).
  split; simpl; [done| | | |].
  - intros Hh. apply (inv_free _ H) in Hh. done.
  - intros x Hx. by apply (inv_fresh _ H), Hin.
  - pose proof (inv_nodup _ H) as Hnd. rewrite (fmap_Permutation _ _ _ Hp) in Hnd.
    by apply NoDup_cons_1_2 in Hnd.
  - intros Hfew. destruct (inv_fifo _ H Hfew) as (Ha & Hle & Hlt). split_and!; simpl; try lia; eauto.
Qed.

(** * The goroutines *)

(** [owners] counts the goroutines between their [LockPriority] and their
    [Unlock]; [blocked] holds the channels that the others wait on. *)
Record sys := mkSys { lock : writeLock; owners : nat; blocked : list nat }.

Definition init : sys := mkSys zeroLock 0 [].

Inductive step : sys -> sys -> Prop :=
| step_lock p l l' o b :
    acquire p l = (None, l') -> step (mkSys l o b) (mkSys l' (S o) b)
| step_block p l l' r o b :
    acquire p l = (Some r, l') -> step (mkSys l o b) (mkSys l' o (r :: b))
| step_unlock l l' o b :
    Unlock l = (None, l') -> step (mkSys l (S o) b) (mkSys l' o b)
| step_handoff l l' r o b :
    (* the goroutine that waits on [r] owns the lock from here on *)
    Unlock l = (Some r, l') -> r ∈ b ->
    step (mkSys l (S o) b) (mkSys l' (S o) (filter (.≠ r) b)).

Record sys_inv (s : sys) : Prop := {
  sys_lock : lock_inv (lock s);
  sys_owner : owners s = if held (lock s) then 1%nat else 0%nat;
  sys_blocked : blocked s ≡ₚ w_ready <$> waiters (lock s);
}.

Lemma filter_ne_id (r : nat) (k : list nat) : r ∉ k -> filter (.≠ r) k = k.
Proof.
  induction k as [|x k IH]; intros H; [done|]. apply not_elem_of_cons in H as [Hx Hk].
  rewrite filter_cons_True by done. by rewrite IH.
Qed.

Lemma filter_ne_Permutation (r : nat) (l k : list nat) :
  l ≡ₚ r :: k -> NoDup (r :: k) -> filter (.≠ r) l ≡ₚ k.
Proof.
  intros Hp Hnd. rewrite Hp. rewrite filter_cons_False by tauto.
  apply NoDup_cons_1_1 in Hnd. by rewrite filter_ne_id.
Qed.

Lemma step_inv s s' : step s s' -> sys_inv s -> sys_inv s'.
Proof.
  intros Hstep [Hl Ho Hb].
  destruct Hstep as [p l l' o b E|p l l' r o b E|l l' o b E|l l' r o b E Hr]; simpl in *.
  - split; simpl; [by eapply acquire_inv| |]; destruct (held l) eqn:Hh.
    + destruct (acquire_busy p l Hh) as (w & m & E' & _). congruence.
    + rewrite acquire_free in E by done. by simplify_eq/=.
    + destruct (acquire_busy p l Hh) as (w & m & E' & _). congruence.
    + rewrite acquire_free in E by done. by simplify_eq/=.
  - split; simpl; [by eapply acquire_inv| |]; destruct (held l) eqn:Hh;
      try (rewrite acquire_free in E by done; done);
      destruct (acquire_busy p l Hh) as (w & m & E' & Hp & Hrd & Hw & Hheld & _);
      rewrite E in E'; simplify_eq.
    + by rewrite Hheld.
    + rewrite Hw, (fmap_Permutation _ _ _ (Push_Permutation Less _ _)). simpl. by rewrite Hb, Hrd.
  - destruct (decide (waiters l = [])) as [Hw|Hw].
    + split; simpl; [by eapply Unlock_inv| |]; rewrite Unlock_free in E by done; simplify_eq/=.
      * destruct (held l); lia.
      * by rewrite Hw in Hb.
    + destruct (Unlock_hand l Hl Hw) as (w & ws & E' & _). congruence.
  - destruct (decide (waiters l = [])) as [Hw|Hw]; [rewrite Unlock_free in E by done; done|].
    split; simpl; [by eapply Unlock_inv| |];
      destruct (Unlock_hand l Hl Hw) as (w & ws & E' & Hp & _); rewrite E in E'; simplify_eq/=; [done|].
    pose proof (inv_nodup _ Hl) as Hnd. rewrite (fmap_Permutation _ _ _ Hp) in Hnd, Hb.
    by apply filter_ne_Permutation.
Qed.

Lemma init_inv : sys_inv init.
Proof. split; simpl; [apply zeroLock_inv|done|done]. Qed.

Lemma reachable_inv s : rtc step init s -> sys_inv s.
Proof.
  intros H. assert (Hg : forall s0 s1, rtc step s0 s1 -> sys_inv s0 -> sys_inv s1).
  { induction 1; eauto using step_inv. }
  eapply Hg; [done|apply init_inv].
Qed.

(** * Draining the lock *)

(** Successive [Unlock]s, up to the one that hands the lock to nobody: the
    channels that they close, and the lock after them. *)
Fixpoint drain (fuel : nat) (l : writeLock) : list nat * writeLock :=
  match fuel with
  | O => ([], l)
  | S fuel =>
      match Unlock l with
      | (None, l') => ([], l')
      | (Some r, l') => let '(rs, l'') := drain fuel l' in (r :: rs, l'')
      end
  end.


(** * Properties *)

(** In every interleaving of goroutines that lock and unlock, at most one
    owns the lock; and while any goroutine is blocked some goroutine does own
    it, so a hand-off is always still to come. *)
Theorem writeLock_mutual_exclusion s :
  rtc step init s ->
  (owners s <= 1)%nat /\ (blocked s <> [] -> owners s = 1%nat) /\
  (forall r, r ∈ blocked s <-> r ∈ w_ready <$> waiters (lock s)).
Proof.
  intros H. destruct (reachable_inv s H) as [Hl Ho Hb]. split_and!.
  - rewrite Ho. destruct (held _); lia.
  - intros Hne. rewrite Ho. destruct (held (lock s)) eqn:Hh; [done|].
    apply (inv_free _ Hl) in Hh. rewrite Hh in Hb. simpl in Hb.
    by apply Permutation_nil_r in Hb.
  - intros r. by rewrite Hb.
Qed.

(** Two goroutines: one locks, the other blocks. *)
Definition two_writers : sys :=
  let l1 := snd (Lock zeroLock) in
  mkSys (snd (LockPriority (mkPriority 3 true 4) l1)) 1 [0%nat].

Lemma two_writers_reachable : rtc step init two_writers.
Proof.
  eapply rtc_l; [by apply (step_lock (mkPriority urgencyControl true 0))|].
  eapply rtc_l; [by apply (step_block (mkPriority 3 true 4))|]. apply rtc_refl.
Defined.

Lemma writeLock_mutual_exclusion_witness :
  rtc step init two_writers /\ (owners two_writers <= 1)%nat.
Proof.
  split; [exact two_writers_reachable|].
  exact (proj1 (writeLock_mutual_exclusion _ two_writers_reachable)).
Defined.

(** [Unlock] with goroutines waiting hands the lock to exactly one of
    them, the waiter that ranks first: of the lowest urgency, non-incremental
    writers before incremental ones, then by stream identifier or by
    arrival. The others keep waiting. *)
Theorem Unlock_serves_first s r l' :
  rtc step init s -> Unlock (lock s) = (Some r, l') ->
  r ∈ blocked s /\
  exists w, w ∈ waiters (lock s) /\ w_ready w = r /\
    waiters (lock s) ≡ₚ w :: waiters l' /\
    forall w', w' ∈ waiters (lock s) ->
      urgency w < urgency w' \/
      (urgency w = urgency w' /\
       ((incremental w = false /\ incremental w' = true) \/
        (incremental w = incremental w' /\ w_order w <= w_order w'))).
Proof.
  intros Hs E. destruct (reachable_inv s Hs) as [Hl Ho Hb].
  destruct (decide (waiters (lock s) = [])) as [Hw|Hw]; [by rewrite Unlock_free in E|].
  destruct (Unlock_hand _ Hl Hw) as (w & ws & E' & Hp & _ & Hr). rewrite E in E'. simplify_eq/=.
  split; [rewrite Hb, (fmap_Permutation _ _ _ Hp); left|].
  exists w. split_and!; [rewrite Hp; left|done|done|].
  intros w' Hw'. apply rank_iff. rewrite Hp in Hw'. apply elem_of_cons in Hw' as [->|Hin]; [|by apply Hr].
  apply hle_refl. apply _.
Qed.

Lemma Unlock_serves_first_witness :
  rtc step init two_writers /\ Unlock (lock two_writers) = (Some 0%nat, snd (Unlock (lock two_writers))) /\
  0%nat ∈ blocked two_writers.
Proof.
  split; [exact two_writers_reachable|]. split; [reflexivity|].
  exact (proj1 (Unlock_serves_first two_writers 0%nat (snd (Unlock (lock two_writers)))
    two_writers_reachable eq_refl)).
Defined.

(** Incremental writers of one urgency take turns: the one served is the
    one that has waited longest among them (while fewer than 2^64 writers
    have waited, the width of the arrival counter). *)
Theorem incremental_writers_fifo s r l' :
  rtc step init s -> few_arrivals (lock s) -> Unlock (lock s) = (Some r, l') ->
  forall w w', w ∈ waiters (lock s) -> w_ready w = r -> incremental w = true ->
    w' ∈ waiters l' -> incremental w' = true -> urgency w' = urgency w ->
    (w_ready w < w_ready w')%nat.
Proof.
  intros Hs Hfew E w w' Hw Hr Hi Hw' Hi' Hu. destruct (reachable_inv s Hs) as [Hl Ho Hb].
  destruct (decide (waiters (lock s) = [])) as [Hn|Hn]; [by rewrite Unlock_free in E|].
  destruct (Unlock_hand _ Hl Hn) as (v & ws & E' & Hp & _ & Hrank). rewrite E in E'.
  injection E' as Hrv Hl'. rewrite Hl' in Hw'. simpl in Hw'.
  pose proof (inv_nodup _ Hl) as Hnd. rewrite (fmap_Permutation _ _ _ Hp) in Hnd. simpl in Hnd.
  apply NoDup_cons_1_1 in Hnd.
  assert (w = v) as ->.
  { rewrite Hp in Hw. apply elem_of_cons in Hw as [|Hin]; [done|].
    exfalso. apply Hnd. rewrite <- Hrv, <- Hr. by apply list_elem_of_fmap_2. }
  destruct (inv_fifo _ Hl Hfew) as (_ & _ & Hlt).
  apply Hrank in Hw' as Hle. apply rank_iff in Hle.
  assert (w_ready v <> w_ready w') by (intros Heq; apply Hnd; rewrite Heq; by apply list_elem_of_fmap_2).
  destruct (decide (w_ready v < w_ready w')%nat); [done|]. exfalso.
  assert (w_order w' < w_order v) by (apply Hlt; [rewrite Hp; by right|rewrite Hp; by left|done|done|lia]).
  destruct Hle as [|[_ [[]|[]]]]; [lia|congruence|lia].
Qed.

(** Three incremental writers of one urgency behind an owner. *)
Definition three_writers : sys :=
  let a l := snd (LockPriority (mkPriority 3 true 4) l) in
  mkSys (a (a (snd (Lock zeroLock)))) 1 [1%nat; 0%nat].

Lemma three_writers_reachable : rtc step init three_writers.
Proof.
  eapply rtc_l; [by apply (step_lock (mkPriority urgencyControl true 0))|].
  eapply rtc_l; [by apply (step_block (mkPriority 3 true 4))|].
  eapply rtc_l; [by apply (step_block (mkPriority 3 true 4))|]. apply rtc_refl.
Defined.

Lemma incremental_writers_fifo_witness :
  rtc step init three_writers /\ few_arrivals (lock three_writers) /\ (0 < 1)%nat.
Proof.
  split; [exact three_writers_reachable|]. assert (few_arrivals (lock three_writers)) as Hf by (vm_compute; reflexivity).
  split; [exact Hf|].
  refine (incremental_writers_fifo three_writers 0%nat (snd (Unlock (lock three_writers)))
    three_writers_reachable Hf eq_refl
    (mkWaiter (mkPriority 3 true 4) 1 0) (mkWaiter (mkPriority 3 true 4) 2 1) _ eq_refl eq_refl _ eq_refl eq_refl).
  - vm_compute. left.
  - vm_compute. left.
Defined.



(** The cases of the repository's own test of the lock: waiters queue up in
    the order given behind a held lock, and are served as listed. *)
Definition served (ps : list priority) : list nat :=
  (drain (S (length ps)) (foldl (fun l p => snd (LockPriority p l)) (snd (Lock zeroLock)) ps)).1.

Example served_lower_urgency_first :
  served [mkPriority 5 true 0; mkPriority 1 true 0; mkPriority 3 true 0] = [1; 2; 0]%nat.
Proof. reflexivity. Qed.

Example served_control_before_data :
  served [mkPriority 0 true 0; mkPriority urgencyControl true 0] = [1; 0]%nat.
Proof. reflexivity. Qed.

Example served_non_incremental_by_id :
  served [mkPriority 3 true 0; mkPriority 3 false 12; mkPriority 3 false 4] = [2; 1; 0]%nat.
Proof. reflexivity. Qed.
