(* ===== verification/Config.v ===== *)
(** The configuration of [qmux/qmux.go] and the transport parameters that
    [qmux/conn.go] derives from it: [normalized] fills in the defaults and
    clips every limit to what the protocol allows, [localParameters] is what
    the endpoint declares. The theorems show that a normalized configuration
    is within the protocol's limits whatever the application passed, and that
    its parameters can be encoded and are accepted by a peer. *)

From S2P Require Import Prelude Varint Params Frame.

(** A [time.Duration] is in nanoseconds. *)
Definition Millisecond : Z := 1000000.
Definition Second : Z := 1000 * Millisecond.

Definition defaultMaxIncomingStreams : Z := 100.
Definition defaultMaxIncomingUniStreams : Z := 100.
Definition defaultStreamReceiveWindow : Z := 512 * 1024.
Definition defaultConnectionReceiveWindow : Z := 1024 * 1024.
Definition defaultMaxIdleTimeout : Z := 30 * Second.
Definition defaultHandshakeIdleTimeout : Z := 5 * Second.
Definition defaultMaxDatagramFrameSize : Z := 1200.

Record Config := mkConfig {
  MaxIncomingStreams : Z;             (* int64 *)
  MaxIncomingUniStreams : Z;          (* int64 *)
  InitialStreamReceiveWindow : Z;     (* uint64 *)
  InitialConnectionReceiveWindow : Z; (* uint64 *)
  cfg_MaxRecordSize : Z;              (* uint64 *)
  KeepAlivePeriod : Z;                (* time.Duration *)
  HandshakeIdleTimeout : Z;           (* time.Duration *)
  cfg_MaxIdleTimeout : Z;             (* time.Duration *)
  EnableDatagrams : bool;
  cfg_MaxDatagramFrameSize : Z;       (* uint64 *)
}.

#[global] Instance Config_settable : Settable Config := fun c =>
  mkConfig (MaxIncomingStreams c) (MaxIncomingUniStreams c) (InitialStreamReceiveWindow c)
    (InitialConnectionReceiveWindow c) (cfg_MaxRecordSize c) (KeepAlivePeriod c)
    (HandshakeIdleTimeout c) (cfg_MaxIdleTimeout c) (EnableDatagrams c)
    (cfg_MaxDatagramFrameSize c).

Definition set_MaxIncomingStreams := ltac:(setter MaxIncomingStreams).
Definition set_MaxIncomingUniStreams := ltac:(setter MaxIncomingUniStreams).
Definition set_InitialStreamReceiveWindow := ltac:(setter InitialStreamReceiveWindow).
Definition set_InitialConnectionReceiveWindow := ltac:(setter InitialConnectionReceiveWindow).
Definition set_cfg_MaxRecordSize := ltac:(setter cfg_MaxRecordSize).
Definition set_KeepAlivePeriod := ltac:(setter KeepAlivePeriod).
Definition set_HandshakeIdleTimeout := ltac:(setter HandshakeIdleTimeout).
Definition set_cfg_MaxIdleTimeout := ltac:(setter cfg_MaxIdleTimeout).
Definition set_cfg_MaxDatagramFrameSize := ltac:(setter cfg_MaxDatagramFrameSize).

(** [Config{}] *)
Definition zeroConfig : Config := mkConfig 0 0 0 0 0 0 0 0 false 0.

Definition streamLimit (v def : Z) : Z :=
  if v =? 0 then def else if v <? 0 then 0 else Z.min v (Z.shiftl 1 60).

(** [Config.normalized]; [None] is the nil configuration. A conditional
    assignment [if cond { n.f = v }] assigns [f] in both cases here. *)
Definition normalized (c : option Config) : Config :=
  let n := default zeroConfig c in
  let n := set_MaxIncomingStreams
    (streamLimit (MaxIncomingStreams n) defaultMaxIncomingStreams) n in
  let n := set_MaxIncomingUniStreams
    (streamLimit (MaxIncomingUniStreams n) defaultMaxIncomingUniStreams) n in
  let n := set_InitialStreamReceiveWindow
    (if InitialStreamReceiveWindow n =? 0 then defaultStreamReceiveWindow
     else InitialStreamReceiveWindow n) n in
  let n := set_InitialConnectionReceiveWindow
    (if InitialConnectionReceiveWindow n =? 0 then defaultConnectionReceiveWindow
     else InitialConnectionReceiveWindow n) n in
  let n := set_InitialStreamReceiveWindow (Z.min (InitialStreamReceiveWindow n) varint_max) n in
  let n := set_InitialConnectionReceiveWindow
    (Z.min (InitialConnectionReceiveWindow n) varint_max) n in
  let n := set_cfg_MaxRecordSize
    (Z.min (Z.max (cfg_MaxRecordSize n) DefaultMaxRecordSize) varint_max) n in
  let n := set_cfg_MaxIdleTimeout
    (if cfg_MaxIdleTimeout n =? 0 then defaultMaxIdleTimeout else cfg_MaxIdleTimeout n) n in
  let n := set_cfg_MaxIdleTimeout (Z.max (cfg_MaxIdleTimeout n) 0) n in
  let n := set_HandshakeIdleTimeout
    (if HandshakeIdleTimeout n <=? 0 then defaultHandshakeIdleTimeout
     else HandshakeIdleTimeout n) n in
  let n := set_KeepAlivePeriod
    (if (0 <? KeepAlivePeriod n) && (0 <? cfg_MaxIdleTimeout n)
     then Z.min (KeepAlivePeriod n) (Z.quot (cfg_MaxIdleTimeout n) 2)
     else KeepAlivePeriod n) n in
  let n := set_cfg_MaxDatagramFrameSize
    (if negb (EnableDatagrams n) then 0
     else if cfg_MaxDatagramFrameSize n =? 0 then defaultMaxDatagramFrameSize
     else cfg_MaxDatagramFrameSize n) n in
  set_cfg_MaxDatagramFrameSize (Z.min (cfg_MaxDatagramFrameSize n) (cfg_MaxRecordSize n)) n.

Definition DefaultConfig : Config := normalized None.

(** [Config.Clone] *)
Definition Clone (c : option Config) : option Config := c.

(** [Conn.localParameters], of the connection's configuration. *)
Definition localParameters (cfg : Config) : Parameters :=
  let p := {|
    MaxIdleTimeout := u64 (Z.quot (cfg_MaxIdleTimeout cfg) Millisecond);
    InitialMaxData := InitialConnectionReceiveWindow cfg;
    InitialMaxStreamDataBidiLocal := InitialStreamReceiveWindow cfg;
    InitialMaxStreamDataBidiRemote := InitialStreamReceiveWindow cfg;
    InitialMaxStreamDataUni := InitialStreamReceiveWindow cfg;
    InitialMaxStreamsBidi := u64 (MaxIncomingStreams cfg);
    InitialMaxStreamsUni := u64 (MaxIncomingUniStreams cfg);
    MaxDatagramFrameSize := cfg_MaxDatagramFrameSize cfg;
    MaxRecordSize := 0 |} in
  if negb (cfg_MaxRecordSize cfg =? DefaultMaxRecordSize)
  then set_MaxRecordSize (cfg_MaxRecordSize cfg) p else p.

(** * Facts *)

(** The Go types of the fields. *)
Definition config_typed (c : Config) : Prop :=
  is_i64 (MaxIncomingStreams c) /\ is_i64 (MaxIncomingUniStreams c) /\
  is_u64 (InitialStreamReceiveWindow c) /\ is_u64 (InitialConnectionReceiveWindow c) /\
  is_u64 (cfg_MaxRecordSize c) /\ is_i64 (KeepAlivePeriod c) /\
  is_i64 (HandshakeIdleTimeout c) /\ is_i64 (cfg_MaxIdleTimeout c) /\
  is_u64 (cfg_MaxDatagramFrameSize c).

(** What the connection relies on. *)
Record config_ok (c : Config) : Prop := {
  ok_streams : 0 <= MaxIncomingStreams c <= 2 ^ 60;
  ok_uni : 0 <= MaxIncomingUniStreams c <= 2 ^ 60;
  ok_stream_window : 1 <= InitialStreamReceiveWindow c <= varint_max;
  ok_conn_window : 1 <= InitialConnectionReceiveWindow c <= varint_max;
  ok_record : DefaultMaxRecordSize <= cfg_MaxRecordSize c <= varint_max;
  ok_idle : 0 <= cfg_MaxIdleTimeout c < 2 ^ 63;
  ok_handshake : 0 < HandshakeIdleTimeout c;
  ok_keepalive : 0 < KeepAlivePeriod c -> 0 < cfg_MaxIdleTimeout c ->
    2 * KeepAlivePeriod c <= cfg_MaxIdleTimeout c;
  ok_datagram : 0 <= cfg_MaxDatagramFrameSize c <= cfg_MaxRecordSize c;
  ok_datagram_off : EnableDatagrams c = false -> cfg_MaxDatagramFrameSize c = 0;
  ok_datagram_on : EnableDatagrams c = true -> 0 < cfg_MaxDatagramFrameSize c;
}.

Lemma streamLimit_range v def : is_i64 v -> 0 <= def <= 2 ^ 60 -> 0 <= streamLimit v def <= 2 ^ 60.
Proof.
  intros Hv Hd. unfold streamLimit. change (Z.shiftl 1 60) with (2 ^ 60). breflect; lia.
Qed.

Lemma zeroConfig_typed : config_typed zeroConfig.
Proof. repeat split; simpl; try lia. Qed.

Lemma default_typed c :
  match c with Some c => config_typed c | None => True end -> config_typed (default zeroConfig c).
Proof. destruct c; simpl; [done|]. intros _. apply zeroConfig_typed. Qed.

(** The fields of a normalized configuration. *)
Lemma normalized_fields c :
  let n := default zeroConfig c in
  let idle := Z.max (if cfg_MaxIdleTimeout n =? 0 then defaultMaxIdleTimeout else cfg_MaxIdleTimeout n) 0 in
  let record := Z.min (Z.max (cfg_MaxRecordSize n) DefaultMaxRecordSize) varint_max in
  normalized c = {|
    MaxIncomingStreams := streamLimit (MaxIncomingStreams n) defaultMaxIncomingStreams;
    MaxIncomingUniStreams := streamLimit (MaxIncomingUniStreams n) defaultMaxIncomingUniStreams;
    InitialStreamReceiveWindow :=
      Z.min (if InitialStreamReceiveWindow n =? 0 then defaultStreamReceiveWindow
             else InitialStreamReceiveWindow n) varint_max;
    InitialConnectionReceiveWindow :=
      Z.min (if InitialConnectionReceiveWindow n =? 0 then defaultConnectionReceiveWindow
             else InitialConnectionReceiveWindow n) varint_max;
    cfg_MaxRecordSize := record;
    KeepAlivePeriod :=
      if (0 <? KeepAlivePeriod n) && (0 <? idle) then Z.min (KeepAlivePeriod n) (Z.quot idle 2)
      else KeepAlivePeriod n;
    HandshakeIdleTimeout :=
      if HandshakeIdleTimeout n <=? 0 then defaultHandshakeIdleTimeout else HandshakeIdleTimeout n;
    cfg_MaxIdleTimeout := idle;
    EnableDatagrams := EnableDatagrams n;
    cfg_MaxDatagramFrameSize :=
      Z.min (if negb (EnableDatagrams n) then 0
             else if cfg_MaxDatagramFrameSize n =? 0 then defaultMaxDatagramFrameSize
             else cfg_MaxDatagramFrameSize n) record |}.
Proof. reflexivity. Qed.

Lemma normalized_ok c :
  match c with Some c => config_typed c | None => True end -> config_ok (normalized c).
Proof.
  intros Hc. apply default_typed in Hc. rewrite normalized_fields. revert Hc.
  generalize (default zeroConfig c). clear c. cbv zeta.
  intros c (Hmb & Hmu & Hsw & Hcw & Hrs & Hka & Hhs & Hit & Hdf).
  unfold is_i64, is_u64, defaultStreamReceiveWindow, defaultConnectionReceiveWindow,
    DefaultMaxRecordSize, defaultMaxIdleTimeout, defaultHandshakeIdleTimeout,
    defaultMaxDatagramFrameSize, Second, Millisecond in *.
  split; cbn [MaxIncomingStreams MaxIncomingUniStreams InitialStreamReceiveWindow
    InitialConnectionReceiveWindow cfg_MaxRecordSize KeepAlivePeriod HandshakeIdleTimeout
    cfg_MaxIdleTimeout EnableDatagrams cfg_MaxDatagramFrameSize].
  - by apply streamLimit_range.
  - by apply streamLimit_range.
  - breflect; lia.
  - breflect; lia.
  - unfold DefaultMaxRecordSize. lia.
  - breflect; lia.
  - breflect; lia.
  - generalize (Z.max (if cfg_MaxIdleTimeout c =? 0 then 30 * (1000 * 1000000) else cfg_MaxIdleTimeout c) 0).
    intros idle Hk Hi. revert Hk. pose proof (Z.quot_rem idle 2). pose proof (Z.rem_bound_pos idle 2).
    destruct (Z.ltb_spec 0 (KeepAlivePeriod c)), (Z.ltb_spec 0 idle); cbn [andb]; lia.
  - destruct (EnableDatagrams c); simpl; breflect; lia.
  - intros ->. simpl. lia.
  - intros ->. simpl. breflect; lia.
Qed.

Lemma localParameters_sendable cfg : config_ok cfg -> params_sendable (localParameters cfg).
Proof.
  intros [Hs Hu Hsw Hcw Hr Hi _ _ Hd _ _].
  assert (Hms : 0 <= Z.quot (cfg_MaxIdleTimeout cfg) Millisecond <= varint_max).
  { unfold Millisecond. split; [apply Z.quot_pos; lia|].
    pose proof (Z.quot_le_upper_bound (cfg_MaxIdleTimeout cfg) 1000000 varint_max). lia. }
  assert (Hv : params_varint (localParameters cfg)).
  { intros id f Hf. unfold localParameters, is_varint, DefaultMaxRecordSize in *.
    field_cases Hf; cbn [load]; destruct (negb _); simpl; unwrap_u64; lia. }
  split; [done|]. rewrite maxStreams_eq. unfold localParameters.
  destruct (Z.eqb_spec (cfg_MaxRecordSize cfg) DefaultMaxRecordSize); simpl; unwrap_u64; lia.
Qed.
