(* ===== verification/State.v ===== *)
(** The state of a connection: the structs [signal], [outgoing], [incoming],
    [rttStats] and [Conn] of [qmux/conn.go] and [stream] of
    [qmux/stream.go], with the error values the package returns.

    A stream is a heap object that the connection's map, its accept queues
    and the application share: [c_heap] is the store and a [*stream] is an
    index into it. A channel is the number it was made with; [c_closed] is
    the set of closed channels. Everything here is guarded by the mutex
    [Conn.mu], so a critical section of the source is a function on [Conn]. *)

From S2P Require Import Prelude Varint Params Frame WriteLock Config.

(** * Errors *)

(** The error values of the package: quic-go's types, the sentinel errors of
    the standard library, and the wrapped errors of [fmt.Errorf]. *)
Inductive error :=
| ErrWire (e : Error)
| ErrApplication (Remote : bool) (ErrorCode : Z) (ErrorMessage : bytes)
| ErrTransport (Remote : bool) (ErrorCode FrameType : Z) (ErrorMessage : bytes)
| ErrStream (StreamID ErrorCode : Z) (Remote : bool)
| ErrIdleTimeout
| ErrHandshakeTimeout
| ErrStreamLimitReached
| ErrDatagramsNotSupported
| ErrDatagramTooLarge (MaxDatagramPayloadSize : Z)
| ErrEOF
| ErrUnexpectedEOF
| ErrDeadlineExceeded
| ErrCanceled
| ErrWriteClosed (StreamID : Z)
| ErrPeekTooLarge (n window : Z)
| ErrWriteTransport (e : error)
| ErrTransportClosed (e : error)
| ErrOther (n : Z).

(** * Data *)

(** [dirBidi] and [dirUni] index the arrays [out] and [in]. *)
Inductive dir := dirBidi | dirUni.

#[global] Instance dir_eq_dec : EqDecision dir.
Proof. solve_decision. Defined.

(** [signal]: the channel its waiters hold, if any. *)
Abbreviation signal := (option nat).

Record outgoing := mkOutgoing { o_next : Z; o_max : Z; o_signal : signal }.

Record incoming := mkIncoming {
  i_next : Z;
  i_max : Z;
  i_pending : bool;
  i_queue : list nat;
  i_signal : signal;
}.

Record rttStats := mkRtt { rtt_min : Z; rtt_latest : Z; rtt_smoothed : Z; rtt_deviation : Z }.

(** [s_cause] is the cause that the stream's own [cancel] was given. The zero
    [time.Time] is 0. [s_cap] is the capacity of [rbuf]. *)
Record stream := mkStream {
  s_id : Z;
  s_cause : option error;
  s_accepted : bool;
  s_done : bool;
  s_canRecv : bool;
  s_rbuf : bytes;
  s_cap : nat;
  s_roff : nat;
  s_recvOffset : Z;
  s_recvMax : Z;
  s_readOffset : Z;
  s_finRecv : bool;
  s_recvReset : bool;
  s_readCancelled : bool;
  s_recvErr : option error;
  s_readDeadline : Z;
  s_readSignal : signal;
  s_canSend : bool;
  s_urgency : Z;
  s_incremental : bool;
  s_sendOffset : Z;
  s_sendMax : Z;
  s_finSent : bool;
  s_sendErr : option error;
  s_writeDeadline : Z;
  s_writeSignal : signal;
}.

#[global] Instance stream_settable : Settable stream := fun s =>
  mkStream (s_id s) (s_cause s) (s_accepted s) (s_done s) (s_canRecv s) (s_rbuf s) (s_cap s)
    (s_roff s) (s_recvOffset s) (s_recvMax s) (s_readOffset s) (s_finRecv s) (s_recvReset s)
    (s_readCancelled s) (s_recvErr s) (s_readDeadline s) (s_readSignal s) (s_canSend s)
    (s_urgency s) (s_incremental s) (s_sendOffset s) (s_sendMax s) (s_finSent s) (s_sendErr s)
    (s_writeDeadline s) (s_writeSignal s).

(** [stream{}] *)
Definition zeroStream : stream :=
  mkStream 0 None false false false [] 0 0 0 0 0 false false false None 0 None
    false 0 false 0 0 false None 0 None.

#[global] Instance stream_inhabited : Inhabited stream := populate zeroStream.

Record Conn := mkConn {
  c_config : Config;
  c_isServer : bool;
  c_cause : option error;          (* of ctx, once cancelled *)
  c_handshake : bool;              (* the channel is closed *)
  c_closeErr : option error;
  c_peer : Parameters;
  c_ready : bool;
  c_streams : gmap Z nat;
  c_outBidi : outgoing;
  c_outUni : outgoing;
  c_inBidi : incoming;
  c_inUni : incoming;
  c_sendMax : Z;
  c_sent : Z;
  c_sendSignal : signal;
  c_recvMax : Z;
  c_received : Z;
  c_consumed : Z;
  c_control : list frame;
  c_maxDataPending : bool;
  c_pongPending : bool;
  c_pongSequence : Z;
  c_pingPending : bool;
  c_controlWake : bool;            (* a value is in the channel's buffer *)
  c_idleTimeout : Z;
  c_nextPing : Z;
  c_pingSentAt : Z;
  c_pingUnanswered : bool;
  c_pingUnansweredAt : Z;
  c_peerPinged : bool;
  c_peerPingLast : Z;
  c_rtt : rttStats;
  c_datagrams : list bytes;        (* the channel's buffer *)
  c_lastActivity : Z;
  c_bytesSent : Z;
  c_bytesReceived : Z;
  c_recordsSent : Z;
  c_recordsReceived : Z;
  c_heap : list stream;            (* every stream object made so far *)
  c_chans : nat;                   (* channels made so far *)
  c_closed : gset nat;             (* of those, the closed ones *)
  c_panicked : bool;               (* a Go panic has happened *)
}.

#[global] Instance Conn_settable : Settable Conn := fun c =>
  mkConn (c_config c) (c_isServer c) (c_cause c) (c_handshake c) (c_closeErr c) (c_peer c)
    (c_ready c) (c_streams c) (c_outBidi c) (c_outUni c) (c_inBidi c) (c_inUni c)
    (c_sendMax c) (c_sent c) (c_sendSignal c) (c_recvMax c) (c_received c) (c_consumed c)
    (c_control c) (c_maxDataPending c) (c_pongPending c) (c_pongSequence c) (c_pingPending c)
    (c_controlWake c) (c_idleTimeout c) (c_nextPing c) (c_pingSentAt c) (c_pingUnanswered c)
    (c_pingUnansweredAt c) (c_peerPinged c) (c_peerPingLast c) (c_rtt c) (c_datagrams c)
    (c_lastActivity c) (c_bytesSent c) (c_bytesReceived c) (c_recordsSent c)
    (c_recordsReceived c) (c_heap c) (c_chans c) (c_closed c) (c_panicked c).

(** * Field updates *)

Definition set_s_id := ltac:(setter s_id).
Definition set_s_cause := ltac:(setter s_cause).
Definition set_s_accepted := ltac:(setter s_accepted).
Definition set_s_done := ltac:(setter s_done).
Definition set_s_canRecv := ltac:(setter s_canRecv).
Definition set_s_rbuf := ltac:(setter s_rbuf).
Definition set_s_cap := ltac:(setter s_cap).
Definition set_s_roff := ltac:(setter s_roff).
Definition set_s_recvOffset := ltac:(setter s_recvOffset).
Definition set_s_recvMax := ltac:(setter s_recvMax).
Definition set_s_readOffset := ltac:(setter s_readOffset).
Definition set_s_finRecv := ltac:(setter s_finRecv).
Definition set_s_recvReset := ltac:(setter s_recvReset).
Definition set_s_readCancelled := ltac:(setter s_readCancelled).
Definition set_s_recvErr := ltac:(setter s_recvErr).
Definition set_s_readDeadline := ltac:(setter s_readDeadline).
Definition set_s_readSignal := ltac:(setter s_readSignal).
Definition set_s_canSend := ltac:(setter s_canSend).
Definition set_s_urgency := ltac:(setter s_urgency).
Definition set_s_incremental := ltac:(setter s_incremental).
Definition set_s_sendOffset := ltac:(setter s_sendOffset).
Definition set_s_sendMax := ltac:(setter s_sendMax).
Definition set_s_finSent := ltac:(setter s_finSent).
Definition set_s_sendErr := ltac:(setter s_sendErr).
Definition set_s_writeDeadline := ltac:(setter s_writeDeadline).
Definition set_s_writeSignal := ltac:(setter s_writeSignal).

Definition set_c_cause := ltac:(setter c_cause).
Definition set_c_handshake := ltac:(setter c_handshake).
Definition set_c_closeErr := ltac:(setter c_closeErr).
Definition set_c_peer := ltac:(setter c_peer).
Definition set_c_ready := ltac:(setter c_ready).
Definition set_c_streams := ltac:(setter c_streams).
Definition set_c_outBidi := ltac:(setter c_outBidi).
Definition set_c_outUni := ltac:(setter c_outUni).
Definition set_c_inBidi := ltac:(setter c_inBidi).
Definition set_c_inUni := ltac:(setter c_inUni).
Definition set_c_sendMax := ltac:(setter c_sendMax).
Definition set_c_sent := ltac:(setter c_sent).
Definition set_c_sendSignal := ltac:(setter c_sendSignal).
Definition set_c_recvMax := ltac:(setter c_recvMax).
Definition set_c_received := ltac:(setter c_received).
Definition set_c_consumed := ltac:(setter c_consumed).
Definition set_c_control := ltac:(setter c_control).
Definition set_c_maxDataPending := ltac:(setter c_maxDataPending).
Definition set_c_pongPending := ltac:(setter c_pongPending).
Definition set_c_pongSequence := ltac:(setter c_pongSequence).
Definition set_c_pingPending := ltac:(setter c_pingPending).
Definition set_c_controlWake := ltac:(setter c_controlWake).
Definition set_c_idleTimeout := ltac:(setter c_idleTimeout).
Definition set_c_nextPing := ltac:(setter c_nextPing).
Definition set_c_pingSentAt := ltac:(setter c_pingSentAt).
Definition set_c_pingUnanswered := ltac:(setter c_pingUnanswered).
Definition set_c_pingUnansweredAt := ltac:(setter c_pingUnansweredAt).
Definition set_c_peerPinged := ltac:(setter c_peerPinged).
Definition set_c_peerPingLast := ltac:(setter c_peerPingLast).
Definition set_c_rtt := ltac:(setter c_rtt).
Definition set_c_datagrams := ltac:(setter c_datagrams).
Definition set_c_lastActivity := ltac:(setter c_lastActivity).
Definition set_c_bytesSent := ltac:(setter c_bytesSent).
Definition set_c_bytesReceived := ltac:(setter c_bytesReceived).
Definition set_c_recordsSent := ltac:(setter c_recordsSent).
Definition set_c_recordsReceived := ltac:(setter c_recordsReceived).
Definition set_c_heap := ltac:(setter c_heap).
Definition set_c_chans := ltac:(setter c_chans).
Definition set_c_closed := ltac:(setter c_closed).
Definition set_c_panicked := ltac:(setter c_panicked).

(** [out[d]] and [in[d]] *)
Definition c_out (d : dir) (c : Conn) : outgoing :=
  match d with dirBidi => c_outBidi c | dirUni => c_outUni c end.
Definition set_c_out (d : dir) (o : outgoing) (c : Conn) : Conn :=
  match d with dirBidi => set_c_outBidi o c | dirUni => set_c_outUni o c end.
Definition c_in (d : dir) (c : Conn) : incoming :=
  match d with dirBidi => c_inBidi c | dirUni => c_inUni c end.
Definition set_c_in (d : dir) (i : incoming) (c : Conn) : Conn :=
  match d with dirBidi => set_c_inBidi i c | dirUni => set_c_inUni i c end.

(** The stream that the pointer [p] refers to, and its update. *)
Definition deref (c : Conn) (p : nat) : stream := c_heap c !!! p.
Definition upd (p : nat) (f : stream -> stream) (c : Conn) : Conn :=
  set_c_heap (<[p := f (deref c p)]> (c_heap c)) c.

(** * Channels and signals *)

(** [signal.wait]: the channel, made if there is none yet. *)
Definition signal_wait (sg : signal) (c : Conn) : nat * Conn :=
  (default (c_chans c) sg,
   set_c_chans (match sg with Some _ => c_chans c | None => S (c_chans c) end) c).

(** [signal.broadcast] closes the channel, if any; the caller stores [None]. *)
Definition signal_close (sg : signal) (c : Conn) : Conn :=
  set_c_closed (match sg with Some ch => {[ch]} ∪ c_closed c | None => c_closed c end) c.

Definition broadcast_read (p : nat) (c : Conn) : Conn :=
  upd p (set_s_readSignal None) (signal_close (s_readSignal (deref c p)) c).
Definition broadcast_write (p : nat) (c : Conn) : Conn :=
  upd p (set_s_writeSignal None) (signal_close (s_writeSignal (deref c p)) c).
Definition broadcast_send (c : Conn) : Conn :=
  set_c_sendSignal None (signal_close (c_sendSignal c) c).
Definition broadcast_out (d : dir) (c : Conn) : Conn :=
  let o := c_out d c in
  set_c_out d (mkOutgoing (o_next o) (o_max o) None) (signal_close (o_signal o) c).
Definition broadcast_in (d : dir) (c : Conn) : Conn :=
  let i := c_in d c in
  set_c_in d (mkIncoming (i_next i) (i_max i) (i_pending i) (i_queue i) None)
    (signal_close (i_signal i) c).

(** [wakeWriter]: a send on the channel [controlWake], which buffers one
    value, with a [default] case. *)
Definition wakeWriter (c : Conn) : Conn := set_c_controlWake true c.

(** [queueLocked] *)
Definition queueLocked (f : frame) (c : Conn) : Conn :=
  wakeWriter (set_c_control (c_control c ++ [f]) c).

(** [close(c.handshake)] panics on a closed channel. *)
Definition close_handshake (c : Conn) : Conn :=
  if c_handshake c then set_c_panicked true c else set_c_handshake true c.

(** * Time *)

(** [t.Sub(u)] saturates at the bounds of a [time.Duration]. *)
Definition time_sub (t u : Z) : Z := Z.max (- 2 ^ 63) (Z.min (2 ^ 63 - 1) (t - u)).

(** * Stream identifiers *)

Definition initiatedLocally (c : Conn) (id : Z) : bool :=
  Bool.eqb (Z.land id 0x1 =? 0x1) (c_isServer c).

Definition streamDir (id : Z) : dir := if negb (Z.land id 0x2 =? 0) then dirUni else dirBidi.

Definition streamID (c : Conn) (index : Z) (d : dir) (local : bool) : Z :=
  let id := u64 (Z.shiftl index 2) in
  let id := if decide (d = dirUni) then Z.lor id 0x2 else id in
  if Bool.eqb local (c_isServer c) then Z.lor id 0x1 else id.
