(* ===== verification/Transport.v ===== *)
(** The transports of QMux records, from [qmux/transport.go] and
    [qmux/adapter.go].

    [RecordTransport] is the interface [recordTransport]; [RecordTransportLaws]
    is what the connection relies on, in terms of the records a transport has
    carried and the ones it will deliver. A byte stream ([streamTransport]) and
    a message transport ([messageTransport]) implement it. A [net.Conn] is a
    reliable, ordered byte stream. A [MessageConn] is supplied by the
    application, so it is a parameter with the documented behaviour of an
    ordered message transport. *)

From S2P Require Import Prelude Varint Params Frame WriteLock Config State.

Definition recordHeadroom : Z := 8.
Definition closeTimeout : Z := 1000 * Millisecond.

Definition recordTooLarge (size limit : Z) : error :=
  ErrWire (mkError FrameEncodingError
    (str "record of " ++ fmt_d size ++ str " bytes exceeds max_record_size " ++ fmt_d limit)).

(** * The interface *)

Class RecordTransport (T : Type) := {
  readRecord : T -> (bytes + error) * T;
  (** The bytes put on the transport; [None] is a Go panic. *)
  writeRecord : bytes -> T -> option ((Z + error) * T);
  closeWrite : T -> bool * T;
  expire : Z -> T -> T;
  close : T -> T;
}.

(** What a record buffer holds after its headroom: the Frames field. *)
Definition frames_of (buf : bytes) : bytes := zdrop recordHeadroom buf.

Class RecordTransportLaws (T : Type) (RT : RecordTransport T) := {
  (** The records written so far, and those that are still to be read. *)
  carries : T -> list bytes -> Prop;
  carries_unique t rs rs' : carries t rs -> carries t rs' -> rs = rs';
  delivers : T -> list bytes -> Prop;
  (** The largest record that is accepted. *)
  max_record : T -> Z;
  write_total buf t :
    recordHeadroom <= zlen buf < 2 ^ 62 -> is_Some (writeRecord buf t);
  write_carries buf t n t' rs :
    recordHeadroom <= zlen buf < 2 ^ 62 -> carries t rs -> writeRecord buf t = Some (inl n, t') ->
    carries t' (rs ++ [frames_of buf]);
  write_keeps buf t r t' rs :
    writeRecord buf t = Some (r, t') -> delivers t rs -> delivers t' rs /\ max_record t' = max_record t;
  shut_carries t rs d :
    carries t rs -> carries (expire d t) rs /\ carries (closeWrite t).2 rs /\ carries (close t) rs;
  read_carries t r t' rs : readRecord t = (r, t') -> carries t rs -> carries t' rs;
  read_delivers t r rs :
    delivers t (r :: rs) -> zlen r < 2 ^ 62 ->
    exists t', delivers t' rs /\ max_record t' = max_record t /\
      readRecord t = (if max_record t <? zlen r then inr (recordTooLarge (zlen r) (max_record t)) else inl r, t');
}.

(** * Records on a byte stream *)

(** A [net.Conn]: what the peer has sent and the error after it, what this
    endpoint has written, and how a write fails, if it does: after some bytes,
    with an error. [conn_half] tells whether it has a [CloseWrite] method. *)
Record netConn := mkNetConn {
  conn_in : bytes;
  conn_end : error;
  conn_out : bytes;
  conn_fail : option (nat * error);
  conn_half : bool;
  conn_halfErr : option error;
  conn_writeDeadline : Z;
  conn_wclosed : bool;
  conn_closed : bool;
}.

#[global] Instance netConn_settable : Settable netConn := fun c =>
  mkNetConn (conn_in c) (conn_end c) (conn_out c) (conn_fail c) (conn_half c) (conn_halfErr c)
    (conn_writeDeadline c) (conn_wclosed c) (conn_closed c).

Definition set_conn_in := ltac:(setter conn_in).
Definition set_conn_out := ltac:(setter conn_out).
Definition set_conn_writeDeadline := ltac:(setter conn_writeDeadline).
Definition set_conn_wclosed := ltac:(setter conn_wclosed).
Definition set_conn_closed := ltac:(setter conn_closed).

(** [conn.Write] *)
Definition conn_Write (b : bytes) (c : netConn) : (Z + error) * netConn :=
  match conn_fail c with
  | Some (k, e) => (inr e, set_conn_out (conn_out c ++ take k b) c)
  | None => (inl (zlen b), set_conn_out (conn_out c ++ b) c)
  end.

(** [streamTransport]; its [bufio.Reader] delivers the bytes of the
    connection, so [conn_in] is what it has left. [st_cap] is the capacity of
    [buf]. *)
Record streamTransport := mkStreamTransport {
  st_conn : netConn;
  st_cap : Z;
  st_max : Z;
}.

Definition newStreamTransport (conn : netConn) (maxRecordSize : Z) : streamTransport :=
  mkStreamTransport conn 0 maxRecordSize.

(** [err == io.EOF] *)
Definition is_EOF (e : error) : bool := match e with ErrEOF => true | _ => false end.

(** Writing [d] into the slice [buf] from the offset [i] on. *)
Definition overwrite (i : Z) (d buf : bytes) : bytes :=
  ztake i buf ++ d ++ zdrop (i + zlen d) buf.

Section stream.
Context {V : QuicVarint}.

(** Consumes [n] bytes of the stream: [io.ReadFull] and [io.CopyN]. [None]
    when it ends first. *)
Definition st_take (n : Z) (t : streamTransport) : option bytes * streamTransport :=
  let c := st_conn t in
  let t' rest := mkStreamTransport (set_conn_in rest c) (st_cap t) (st_max t) in
  if zlen (conn_in c) <? n then (None, t' []) else (Some (ztake n (conn_in c)), t' (zdrop n (conn_in c))).

Definition st_readRecord (t : streamTransport) : (bytes + error) * streamTransport :=
  match varint_read (conn_in (st_conn t)) with
  | None => (inr (conn_end (st_conn t)),
             mkStreamTransport (set_conn_in [] (st_conn t)) (st_cap t) (st_max t))
  | Some (size, n) =>
      let t := mkStreamTransport (set_conn_in (zdrop n (conn_in (st_conn t))) (st_conn t)) (st_cap t) (st_max t) in
      if st_max t <? size then
        match st_take size t with
        | (None, t) => (inr (conn_end (st_conn t)), t)
        | (Some _, t) => (inr (recordTooLarge size (st_max t)), t)
        end
      else
        let t := if st_cap t <? size then mkStreamTransport (st_conn t) size (st_max t) else t in
        match st_take size t with
        | (None, t) =>
            (inr (if is_EOF (conn_end (st_conn t)) then ErrUnexpectedEOF
                  else conn_end (st_conn t)), t)
        | (Some rec, t) => (inl rec, t)
        end
  end.

(** [writeRecord]: the Size field goes right before the Frames field. *)
Definition st_writeRecord (buf : bytes) (t : streamTransport) : option ((Z + error) * streamTransport) :=
  let size := zlen buf - recordHeadroom in
  len ← varint_len size;
  let start := recordHeadroom - len in
  d ← varint_append [] size;
  let '(r, conn) := conn_Write (zdrop start (overwrite start d buf)) (st_conn t) in
  Some (r, mkStreamTransport conn (st_cap t) (st_max t)).

Definition st_closeWrite (t : streamTransport) : bool * streamTransport :=
  if conn_half (st_conn t) then
    (bool_decide (conn_halfErr (st_conn t) = None),
     mkStreamTransport (set_conn_wclosed true (st_conn t)) (st_cap t) (st_max t))
  else (false, t).

Definition st_expire (deadline : Z) (t : streamTransport) : streamTransport :=
  mkStreamTransport (set_conn_writeDeadline deadline (st_conn t)) (st_cap t) (st_max t).

Definition st_close (t : streamTransport) : streamTransport :=
  mkStreamTransport (set_conn_closed true (st_conn t)) (st_cap t) (st_max t).

#[global] Instance streamTransport_record : RecordTransport streamTransport := {|
  readRecord := st_readRecord; writeRecord := st_writeRecord;
  closeWrite := st_closeWrite; expire := st_expire; close := st_close |}.

(** A record on the wire: its Size field and its Frames field. *)
Definition on_wire (rec : bytes) : bytes := enc (zlen rec) ++ rec.
End stream.

Section stream_laws.
Context {V : QuicVarint} {VL : QuicVarintLaws V}.

Lemma overwrite_headroom len d (buf : bytes) :
  zlen d = len -> 0 <= len <= recordHeadroom -> recordHeadroom <= zlen buf ->
  zdrop (recordHeadroom - len) (overwrite (recordHeadroom - len) d buf) = d ++ frames_of buf.
Proof.
  intros Hd Hl Hb. unfold overwrite, frames_of.
  assert (Ht : length (ztake (recordHeadroom - len) buf) = Z.to_nat (recordHeadroom - len))
    by (rewrite length_take; lia).
  rewrite drop_app_length' by done.
  f_equal. f_equal. f_equal. lia.
Qed.

(** What [writeRecord] puts on the connection: the Size field, then the
    Frames field. *)
Lemma st_writeRecord_eq buf t :
  recordHeadroom <= zlen buf < 2 ^ 62 ->
  st_writeRecord buf t =
  let '(r, conn) := conn_Write (on_wire (frames_of buf)) (st_conn t) in
  Some (r, mkStreamTransport conn (st_cap t) (st_max t)).
Proof.
  intros H. unfold st_writeRecord, recordHeadroom in *.
  assert (Hv : is_varint (zlen buf - 8)) by (unfold is_varint; lia).
  rewrite len_size by done. simpl. rewrite append_enc by done. simpl.
  pose proof (varint_size_range (zlen buf - 8)).
  rewrite (overwrite_headroom (varint_size (zlen buf - 8))); [|by apply enc_size|unfold recordHeadroom; lia..].
  assert (E : zlen (frames_of buf) = zlen buf - 8)
    by (unfold frames_of, recordHeadroom; rewrite length_drop; lia).
  unfold on_wire. by rewrite E.
Qed.

Lemma zdrop_app (a b : bytes) n : n = zlen a -> zdrop n (a ++ b) = b.
Proof. intros ->. rewrite Nat2Z.id. by rewrite drop_app_length. Qed.

Lemma ztake_app (a b : bytes) n : n = zlen a -> ztake n (a ++ b) = a.
Proof. intros ->. rewrite Nat2Z.id. by rewrite take_app_length. Qed.

Lemma st_take_app n a b t :
  conn_in (st_conn t) = a ++ b -> n = zlen a ->
  st_take n t = (Some a, mkStreamTransport (set_conn_in b (st_conn t)) (st_cap t) (st_max t)).
Proof.
  intros E Hn. unfold st_take. rewrite E, ztake_app, zdrop_app by done.
  destruct (Z.ltb_spec (zlen (a ++ b)) n) as [Hl|]; [|done]. rewrite length_app in Hl. lia.
Qed.

Definition st_carries (t : streamTransport) (rs : list bytes) : Prop :=
  conn_out (st_conn t) = mjoin (on_wire <$> rs) /\ Forall (fun r => zlen r < 2 ^ 62) rs.

(** Records do not run into each other. *)
Lemma on_wire_inj rs rs' :
  Forall (fun r => zlen r < 2 ^ 62) rs -> Forall (fun r => zlen r < 2 ^ 62) rs' ->
  mjoin (on_wire <$> rs) = mjoin (on_wire <$> rs') -> rs = rs'.
Proof.
  assert (Hne : forall r b, on_wire r ++ b <> []).
  { intros r b E%(f_equal length). unfold on_wire in E. rewrite !length_app in E. simpl in E.
    pose proof (varint_size_range (zlen r)). assert (Hv : is_varint (zlen r) \/ ~ is_varint (zlen r)) by (unfold is_varint; lia).
    destruct Hv as [Hv|Hv]; [pose proof (enc_size _ Hv); lia|]. unfold is_varint in Hv. lia. }
  intros H. revert rs'. induction H as [|r rs Hr _ IH]; intros rs' [|r' rs1 Hr' Hrs'] E; csimpl in E; [done|by symmetry in E; apply Hne in E|by apply Hne in E|].
  pose proof E as Ev. unfold on_wire in Ev at 1 3. rewrite <- !app_assoc in Ev. apply (f_equal varint_parse) in Ev.
  rewrite !parse_enc in Ev by (unfold is_varint; lia). injection Ev as Ev _.
  unfold on_wire in E at 1 3. rewrite Ev, <- !app_assoc in E. apply app_inv_head in E. apply app_inj_1 in E as [-> E]; [|lia].
  f_equal. by apply IH.
Qed.

Definition st_delivers (t : streamTransport) (rs : list bytes) : Prop :=
  exists tail, conn_in (st_conn t) = mjoin (on_wire <$> rs) ++ tail.

(** Reading a record that is there, also one that is too large: the stream
    stays aligned on the next one. *)
Lemma st_readRecord_next t r rest :
  conn_in (st_conn t) = on_wire r ++ rest -> zlen r < 2 ^ 62 ->
  exists cap, st_readRecord t =
    (if st_max t <? zlen r then inr (recordTooLarge (zlen r) (st_max t)) else inl r,
     mkStreamTransport (set_conn_in rest (st_conn t)) cap (st_max t)).
Proof.
  intros E Hr. unfold st_readRecord. rewrite read_parse, E. unfold on_wire. rewrite <- app_assoc.
  assert (Hv : is_varint (zlen r)) by (unfold is_varint; lia).
  rewrite parse_enc, zdrop_app by (rewrite ?enc_size; done). cbn [st_max st_cap st_conn].
  destruct (Z.ltb_spec (st_max t) (zlen r)).
  - rewrite (st_take_app (zlen r) r rest) by done. by exists (st_cap t).
  - destruct (st_cap t <? zlen r); rewrite (st_take_app (zlen r) r rest) by done; by eexists.
Qed.

Lemma st_take_out n t : conn_out (st_conn (st_take n t).2) = conn_out (st_conn t).
Proof. unfold st_take. by destruct (_ <? _). Qed.

(** Reading does not write. *)
Lemma st_readRecord_out t r t' :
  st_readRecord t = (r, t') -> conn_out (st_conn t') = conn_out (st_conn t).
Proof.
  unfold st_readRecord. destruct (varint_read _) as [[size n]|]; [|by intros [= <- <-]].
  set (t1 := mkStreamTransport (set_conn_in _ _) _ _). intros E.
  enough (exists t2, conn_out (st_conn t2) = conn_out (st_conn t) /\ t' = (st_take size t2).2)
    as (t2 & E2 & ->) by (by rewrite st_take_out).
  destruct (st_max t1 <? size).
  - exists t1. split; [done|]. by destruct (st_take size t1) as [[|] ?]; injection E as _ <-.
  - destruct (st_cap t1 <? size).
    + exists (mkStreamTransport (st_conn t1) size (st_max t1)). split; [done|].
      by destruct (st_take size _) as [[|] ?]; injection E as _ <-.
    + exists t1. split; [done|]. by destruct (st_take size t1) as [[|] ?]; injection E as _ <-.
Qed.

#[global] Instance streamTransport_laws : RecordTransportLaws streamTransport streamTransport_record.
Proof.
  refine {| carries := st_carries; delivers := st_delivers; max_record := st_max |}.
  - intros t rs rs' [E H] [E' H']. apply on_wire_inj; congruence.
  - intros buf t Hb. simpl. rewrite st_writeRecord_eq by done.
    by destruct (conn_Write _ _).
  - intros buf t n t' rs Hb Hc Hw. simpl in Hw. rewrite st_writeRecord_eq in Hw by done.
    unfold conn_Write in Hw. destruct (conn_fail (st_conn t)) as [[k e]|]; simplify_eq.
    destruct Hc as [Hc Hall]. split; [simpl; rewrite Hc, fmap_app, join_app; csimpl; by rewrite app_nil_r|].
    apply Forall_app_2; [done|]. apply Forall_singleton. unfold frames_of. rewrite length_drop. lia.
  - intros buf t r t' rs Hw (tail & Hd). simpl in Hw. unfold st_writeRecord in Hw.
    destruct (varint_len _); [|done]. simpl in Hw. destruct (varint_append _ _); [|done].
    simpl in Hw. unfold conn_Write in Hw. split; [exists tail|];
      destruct (conn_fail (st_conn t)) as [[k e']|]; simplify_eq; done.
  - intros t rs d Hc. split; [done|]. split; [|done]. simpl. unfold st_closeWrite. by destruct (conn_half _).
  - intros t r t' rs Hr Hc. unfold st_carries in *. by rewrite (st_readRecord_out t r t' Hr).
  - intros t r rs (tail & Hd) Hr. csimpl in Hd.
    change (mjoin (on_wire r :: (on_wire <$> rs))) with (on_wire r ++ mjoin (on_wire <$> rs)) in Hd.
    rewrite <- app_assoc in Hd. destruct (st_readRecord_next t r _ Hd Hr) as [cap E].
    eexists. split; [|split; [|exact E]]; [by exists tail|done].
Defined.
End stream_laws.

(** * Records on a message transport *)

(** [MessageConn], with the [SetWriteDeadline] it may have besides. *)
Class MessageConn (M : Type) := {
  ReadMessage : M -> (bytes + error) * M;
  WriteMessage : bytes -> M -> option error * M;
  mc_Close : M -> M;
  mc_SetWriteDeadline : option (Z -> M -> M);
}.

(** A reliable, ordered, message-oriented transport: the messages still to be
    read and the error after them, and the messages written. *)
Class MessageConnLaws (M : Type) (MC : MessageConn M) := {
  mc_pending : M -> list bytes;
  mc_end : M -> error;
  mc_written : M -> list bytes;
  read_next m p ps :
    mc_pending m = p :: ps ->
    exists m', ReadMessage m = (inl p, m') /\ mc_pending m' = ps /\ mc_end m' = mc_end m;
  read_last m : mc_pending m = [] -> exists m', ReadMessage m = (inr (mc_end m), m') /\ mc_pending m' = [];
  write_next m p m' :
    WriteMessage p m = (None, m') -> mc_written m' = mc_written m ++ [p];
  write_reads m p e m' : WriteMessage p m = (e, m') -> mc_pending m' = mc_pending m;
  read_writes m r m' : ReadMessage m = (r, m') -> mc_written m' = mc_written m;
  close_writes m : mc_written (mc_Close m) = mc_written m;
  deadline_writes m f d : mc_SetWriteDeadline = Some f -> mc_written (f d m) = mc_written m;
}.

Record messageTransport (M : Type) := mkMessageTransport { mt_mc : M; mt_max : Z }.
Arguments mkMessageTransport {M}.
Arguments mt_mc {M}.
Arguments mt_max {M}.

Section message.
Context {M : Type} {MC : MessageConn M}.

Definition mt_readRecord (t : messageTransport M) : (bytes + error) * messageTransport M :=
  let '(r, mc) := ReadMessage (mt_mc t) in
  let t := mkMessageTransport mc (mt_max t) in
  match r with
  | inr e => (inr e, t)
  | inl p => if mt_max t <? zlen p then (inr (recordTooLarge (zlen p) (mt_max t)), t) else (inl p, t)
  end.

Definition mt_writeRecord (buf : bytes) (t : messageTransport M)
    : option ((Z + error) * messageTransport M) :=
  let '(e, mc) := WriteMessage (zdrop recordHeadroom buf) (mt_mc t) in
  let t := mkMessageTransport mc (mt_max t) in
  match e with
  | Some e => Some (inr e, t)
  | None => Some (inl (zlen buf - recordHeadroom), t)
  end.

Definition mt_closeWrite (t : messageTransport M) : bool * messageTransport M := (false, t).

Definition mt_expire (deadline : Z) (t : messageTransport M) : messageTransport M :=
  match mc_SetWriteDeadline with
  | Some f => mkMessageTransport (f deadline (mt_mc t)) (mt_max t)
  | None => t
  end.

Definition mt_close (t : messageTransport M) : messageTransport M :=
  mkMessageTransport (mc_Close (mt_mc t)) (mt_max t).

#[global] Instance messageTransport_record : RecordTransport (messageTransport M) := {|
  readRecord := mt_readRecord; writeRecord := mt_writeRecord;
  closeWrite := mt_closeWrite; expire := mt_expire; close := mt_close |}.

Context {ML : MessageConnLaws M MC}.

#[global] Instance messageTransport_laws : RecordTransportLaws (messageTransport M) messageTransport_record.
Proof.
  refine {| carries t rs := mc_written (mt_mc t) = rs;
    delivers t rs := exists tail, mc_pending (mt_mc t) = rs ++ tail; max_record := mt_max |}.
  - congruence.
  - intros buf t _. simpl. unfold mt_writeRecord. destruct (WriteMessage _ _) as [[e|] mc]; eauto.
  - intros buf t n t' rs _ Hc Hw. simpl in Hw. unfold mt_writeRecord in Hw.
    destruct (WriteMessage _ _) as [[e|] mc] eqn:E; simplify_eq. simpl. by rewrite (write_next _ _ _ E).
  - intros buf t r t' rs Hw (tail & Hd). simpl in Hw. unfold mt_writeRecord in Hw.
    destruct (WriteMessage _ _) as [e mc] eqn:E. apply write_reads in E.
    destruct e; simplify_eq; (split; [exists tail; simpl; congruence|done]).
  - intros t rs d Hc. split; [|split; [done|simpl; by rewrite close_writes]].
    simpl. unfold mt_expire. destruct mc_SetWriteDeadline as [f|] eqn:E; [|done]. simpl. by rewrite (deadline_writes _ f d E).
  - intros t r t' rs Hr Hc. simpl in Hr. unfold mt_readRecord in Hr. destruct (ReadMessage _) as [[p|e] mc] eqn:E;
      apply read_writes in E; [destruct (_ <? _)|]; injection Hr as _ <-; simpl; congruence.
  - intros t r rs (tail & Hd) _. destruct (read_next _ _ _ Hd) as (m' & E & Hp & _).
    exists (mkMessageTransport m' (mt_max t)). split; [by exists tail|]. split; [done|].
    simpl. unfold mt_readRecord. rewrite E. simpl. by destruct (_ <? _).
Defined.
End message.

(** * Messages as a byte stream *)

(** [messageConnAdapter] *)
Record messageConnAdapter (M : Type) := mkAdapter { ad_mc : M; ad_buf : bytes }.
Arguments mkAdapter {M}.
Arguments ad_mc {M}.
Arguments ad_buf {M}.

Section adapter.
Context {M : Type} {MC : MessageConn M}.

(** [NetConn] *)
Definition NetConn (mc : M) : messageConnAdapter M := mkAdapter mc [].

(** The loop of [Read]: messages until one is not empty. The transport
    decides how many empty ones there are, so the fuel bounds them; [None]
    when it runs out. *)
Fixpoint fill (fuel : nat) (a : messageConnAdapter M) : option (option error * messageConnAdapter M) :=
  match ad_buf a with
  | _ :: _ => Some (None, a)
  | [] =>
      match fuel with
      | O => None
      | S fuel =>
          match ReadMessage (ad_mc a) with
          | (inr e, mc) => Some (Some e, mkAdapter mc (ad_buf a))
          | (inl p, mc) => fill fuel (mkAdapter mc p)
          end
      end
  end.

(** [Read] into a buffer of [n] bytes. *)
Definition ad_Read (fuel n : nat) (a : messageConnAdapter M)
    : option ((bytes + error) * messageConnAdapter M) :=
  r ← fill fuel a;
  let '(e, a) := r in
  match e with
  | Some e => Some (inr e, a)
  | None => Some (inl (take n (ad_buf a)), mkAdapter (ad_mc a) (drop n (ad_buf a)))
  end.

Definition ad_Write (b : bytes) (a : messageConnAdapter M) : (Z + error) * messageConnAdapter M :=
  let '(e, mc) := WriteMessage b (ad_mc a) in
  (match e with Some e => inr e | None => inl (zlen b) end, mkAdapter mc (ad_buf a)).

Definition ad_Close (a : messageConnAdapter M) : messageConnAdapter M :=
  mkAdapter (mc_Close (ad_mc a)) (ad_buf a).

Context {ML : MessageConnLaws M MC}.

(** The byte stream that the adapter has left to give. *)
Definition ad_stream (a : messageConnAdapter M) : bytes := ad_buf a ++ mjoin (mc_pending (ad_mc a)).

Lemma fill_spec fuel a :
  (length (mc_pending (ad_mc a)) < fuel)%nat ->
  exists a', ad_stream a' = ad_stream a /\ (length (mc_pending (ad_mc a')) <= length (mc_pending (ad_mc a)))%nat /\
    ((fill fuel a = Some (None, a') /\ ad_buf a' <> []) \/
     (fill fuel a = Some (Some (mc_end (ad_mc a)), a') /\ ad_stream a = [])).
Proof.
  revert a. induction fuel as [|fuel IH]; intros a Hf; [lia|].
  destruct (ad_buf a) as [|x l] eqn:Eb.
  - simpl. rewrite Eb. destruct (mc_pending (ad_mc a)) as [|p ps] eqn:Ep.
    + destruct (read_last _ Ep) as (m' & -> & Hp). exists (mkAdapter m' []).
      unfold ad_stream. rewrite Eb, Ep. simpl. rewrite Hp. split_and!; [done..|]. by right.
    + destruct (read_next _ _ _ Ep) as (m' & -> & Hp & He). simpl in Hf.
      destruct (IH (mkAdapter m' p)) as (a' & S1 & L1 & H1); [simpl; rewrite Hp; lia|].
      exists a'. unfold ad_stream in *. simpl in *. rewrite Hp in S1, L1. rewrite Eb, Ep.
      split_and!; [done|simpl; lia|]. rewrite <- He. simpl. rewrite <- Hp. done.
  - exists a. split_and!; [done|done|]. left. simpl. by rewrite Eb.
Qed.
End adapter.

(** * An instance *)

(** A message transport in memory: what the peer sent, what was written, and
    whether it was closed. *)
Module Queue.
Record conn := mkConn { q_in : list bytes; q_out : list bytes; q_closed : bool }.

#[global] Instance queue : MessageConn conn := {|
  ReadMessage c := match q_in c with
    | [] => (inr ErrEOF, c)
    | p :: ps => (inl p, mkConn ps (q_out c) (q_closed c))
    end;
  WriteMessage p c := (None, mkConn (q_in c) (q_out c ++ [p]) (q_closed c));
  mc_Close c := mkConn (q_in c) (q_out c) true;
  mc_SetWriteDeadline := None |}.

#[global] Instance queue_laws : MessageConnLaws conn queue.
Proof.
  refine {| mc_pending := q_in; mc_end _ := ErrEOF; mc_written := q_out |}; simpl.
  - intros m p ps ->. by eexists.
  - intros m E. rewrite E. by eexists.
  - intros; by simplify_eq.
  - intros; by simplify_eq.
  - intros m r m' E. destruct (q_in m); by simplify_eq.
  - done.
  - done.
Defined.
End Queue.
