(* ===== verification/Core.v ===== *)
(** The operations that the connection and its streams share: flow control
    accounting, stream creation and completion, the receive buffer, and the
    end of the connection ([qmux/conn.go], [qmux/stream.go]). Each is the
    body of one function of the source, run with [Conn.mu] held. *)

From S2P Require Import Prelude Varint Params Frame WriteLock Config State.

(** How much capacity Go's [append] gives a slice that has to grow, from the
    old capacity and the length it needs: the language leaves it open beyond
    being enough. *)
Class GoAppend := {
  growslice : nat -> nat -> nat;
  growslice_enough old need : (need <= growslice old need)%nat;
}.

(** * Streams *)

(** The struct that [newStreamLocked] makes. *)
Definition new_stream (id : Z) (c : Conn) : stream :=
  let local := initiatedLocally c id in
  let uni := bool_decide (streamDir id = dirUni) in
  let canRecv := negb uni || negb local in
  let canSend := negb uni || local in
  let s := set_s_canSend canSend (set_s_canRecv canRecv (set_s_id id zeroStream)) in
  let s := if canRecv then set_s_recvMax (InitialStreamReceiveWindow (c_config c)) s else s in
  if canSend then
    let s := set_s_urgency defaultUrgency (set_s_incremental true s) in
    set_s_sendMax
      (if uni then InitialMaxStreamDataUni (c_peer c)
       else if local then InitialMaxStreamDataBidiRemote (c_peer c)
       else InitialMaxStreamDataBidiLocal (c_peer c)) s
  else s.

(** [newStreamLocked]: the pointer to the new stream. *)
Definition newStreamLocked (id : Z) (c : Conn) : nat * Conn :=
  let p := length (c_heap c) in
  (p, set_c_streams (<[id := p]> (c_streams c))
        (set_c_heap (c_heap c ++ [new_stream id c]) c)).

(** [context.Cause(s.ctx)]: the stream's own cause, or the connection's. *)
Definition stream_cause (c : Conn) (s : stream) : option error :=
  match s_cause s with Some e => Some e | None => c_cause c end.

(** [s.cancel(cause)]: the first cancellation of the context counts; a nil
    function panics. *)
Definition stream_cancel (p : nat) (cause : option error) (c : Conn) : Conn :=
  let s := deref c p in
  if negb (s_canSend s) then set_c_panicked true c
  else match stream_cause c s with
       | Some _ => c
       | None => upd p (set_s_cause (Some (default ErrCanceled cause))) c
       end.

Definition recvDone (s : stream) : bool :=
  if negb (s_canRecv s) || s_recvReset s then true
  else s_finRecv s && (s_readCancelled s || (s_roff s =? length (s_rbuf s))%nat).

Definition sendDone (s : stream) : bool :=
  negb (s_canSend s) || s_finSent s || bool_decide (s_sendErr s <> None).

Section append.
Context {GA : GoAppend}.

(** [append(s.rbuf, p...)] *)
Definition append_rbuf (p : bytes) (s : stream) : stream :=
  let need := (length (s_rbuf s) + length p)%nat in
  let s' := set_s_rbuf (s_rbuf s ++ p) s in
  if (need <=? s_cap s)%nat then s' else set_s_cap (growslice (s_cap s) need) s'.

(** [bufferLocked] *)
Definition bufferLocked (p : bytes) (s : stream) : stream :=
  let s := if (0 <? s_roff s)%nat && (s_cap s <? length (s_rbuf s) + length p)%nat
    then set_s_roff 0 (set_s_rbuf (drop (s_roff s) (s_rbuf s)) s) else s in
  append_rbuf p s.
End append.

(** The data the application has not read: [s.rbuf[s.roff:]]. *)
Definition unread (s : stream) : bytes := drop (s_roff s) (s_rbuf s).

(** [s.rbuf, s.roff = nil, 0] *)
Definition clear_rbuf (s : stream) : stream := set_s_roff 0 (set_s_cap 0 (set_s_rbuf [] s)).

(** * Flow control *)

(** [receivedLocked] *)
Definition receivedLocked (n : Z) (c : Conn) : Conn + Error :=
  if c_recvMax c <? u64 (c_received c + n) then
    inr (mkError FlowControlError (str "connection flow control limit exceeded"))
  else inl (set_c_received (u64 (c_received c + n)) c).

(** [consumeLocked]; [low] is the condition of its [if], and the assignments
    under it keep the old value otherwise. *)
Definition consumeLocked (n : Z) (c : Conn) : Conn :=
  let consumed := u64 (c_consumed c + n) in
  let window := InitialConnectionReceiveWindow (c_config c) in
  let low := u64 (c_recvMax c - consumed) <? window / 2 in
  let c := set_c_consumed consumed c in
  let c := set_c_recvMax (if low then u64 (consumed + window) else c_recvMax c) c in
  let c := set_c_maxDataPending (if low then true else c_maxDataPending c) c in
  set_c_controlWake (if low then true else c_controlWake c) c.

(** * The end of a stream and of the connection *)

(** [completeLocked] *)
Definition completeLocked (p : nat) (c : Conn) : Conn :=
  let s := deref c p in
  if s_done s || negb (s_accepted s) || negb (recvDone s) || negb (sendDone s) then c
  else
    let c := upd p (fun s => set_s_cap 0 (set_s_rbuf [] (set_s_done true s))) c in
    let c := set_c_streams (delete (s_id s) (c_streams c)) c in
    if negb (initiatedLocally c (s_id s)) then
      let d := streamDir (s_id s) in
      let i := c_in d c in
      wakeWriter (set_c_in d
        (mkIncoming (i_next i) (u64 (i_max i + 1)) true (i_queue i) (i_signal i)) c)
    else c.

(** [c.cancel(err)] *)
Definition conn_cancel (e : error) (c : Conn) : Conn :=
  match c_cause c with Some _ => c | None => set_c_cause (Some e) c end.

(** The loop of [terminate] over the streams; each iteration touches one
    stream, so the order of the map does not matter. *)
Definition wake_streams (ps : list nat) (c : Conn) : Conn :=
  foldl (fun c p => broadcast_write p (broadcast_read p c)) c ps.

(** [terminate]: whether this call ended the connection. *)
Definition terminate (e : error) (c : Conn) : bool * Conn :=
  match c_closeErr c with
  | Some _ => (false, c)
  | None =>
      let c := conn_cancel e (set_c_closeErr (Some e) c) in
      let c := if negb (c_ready c) then close_handshake c else c in
      let c := broadcast_send c in
      let c := broadcast_in dirUni (broadcast_out dirUni (broadcast_in dirBidi (broadcast_out dirBidi c))) in
      let c := wake_streams (snd <$> map_to_list (c_streams c)) c in
      (true, set_c_streams ∅ c)
  end.
