(* ===== verification/Stream.v ===== *)
(** The operations of a stream, from [qmux/stream.go]: reading, peeking,
    sending, ending and resetting, each as the critical section the source
    runs with [Conn.mu] held. Blocking calls are loops around a try
    operation, which either finishes or returns the channels to wait on. *)

From S2P Require Import Prelude Varint Params Frame WriteLock Config State Core.

(** [maxStreamData] *)
Definition maxStreamData : Z := DefaultMaxRecordSize - StreamOverhead.

(** What a try operation of the receiving side returns: data, with or
    without an error, or a channel to wait on until a deadline. *)
Inductive try_result :=
| TryDone (data : bytes) (err : option error)
| TryWait (wake : nat) (deadline : Z).

(** [wait], up to the point where it blocks: whether it fails at once. *)
Definition wait_expired (now deadline : Z) : bool :=
  negb (deadline =? 0) && (time_sub deadline now <=? 0).

(** * Receiving *)

(** [readLocked] *)
Definition readLocked (p : nat) (n : Z) (c : Conn) : Conn :=
  let readOffset := u64 (s_readOffset (deref c p) + n) in
  let c := consumeLocked n (upd p (set_s_readOffset readOffset) c) in
  let s := deref c p in
  let window := InitialStreamReceiveWindow (c_config c) in
  if negb (s_finRecv s) && (u64 (s_recvMax s - readOffset) <? window / 2) then
    let m := u64 (readOffset + window) in
    queueLocked (MaxStreamData (s_id s) m) (upd p (set_s_recvMax m) c)
  else c.

(** [s.roff += n], and the buffer starts over when all of it is read; its
    capacity stays. *)
Definition took (n : nat) (s : stream) : stream :=
  let roff := (s_roff s + n)%nat in
  if (roff =? length (s_rbuf s))%nat then set_s_roff 0 (set_s_rbuf [] s) else set_s_roff roff s.

(** [tryRead] into a buffer of [n] bytes. *)
Definition tryRead (p n : nat) (c : Conn) : try_result * Conn :=
  match c_closeErr c with
  | Some e => (TryDone [] (Some e), c)
  | None =>
  let s := deref c p in
  match s_recvErr s with
  | Some e => (TryDone [] (Some e), c)
  | None =>
  if (s_roff s <? length (s_rbuf s))%nat then
    let data := take n (unread s) in
    let c := readLocked p (zlen data) (upd p (took (length data)) c) in
    (TryDone data None, completeLocked p c)
  else if s_finRecv s then (TryDone [] (Some ErrEOF), c)
  else
    let '(ch, c) := signal_wait (s_readSignal s) c in
    (TryWait ch (s_readDeadline s), upd p (set_s_readSignal (Some ch)) c)
  end end.

(** The check of [peek]: the window bounds what can be peeked. *)
Definition peek_check (n : nat) (c : Conn) : option error :=
  let window := InitialStreamReceiveWindow (c_config c) in
  if window <? Z.of_nat n then Some (ErrPeekTooLarge (Z.of_nat n) window) else None.

(** [tryPeek] into a buffer of [n] bytes. *)
Definition tryPeek (p n : nat) (c : Conn) : try_result * Conn :=
  match c_closeErr c with
  | Some e => (TryDone [] (Some e), c)
  | None =>
  let s := deref c p in
  match s_recvErr s with
  | Some e => (TryDone [] (Some e), c)
  | None =>
  if (n <=? length (unread s))%nat then (TryDone (take n (unread s)) None, c)
  else if s_finRecv s then (TryDone (take n (unread s)) (Some ErrEOF), c)
  else
    let '(ch, c) := signal_wait (s_readSignal s) c in
    (TryWait ch (s_readDeadline s), upd p (set_s_readSignal (Some ch)) c)
  end end.

(** [cancelRead] *)
Definition cancelRead (p : nat) (code : Z) (c : Conn) : Conn :=
  let s := deref c p in
  if bool_decide (c_closeErr c <> None) || bool_decide (s_recvErr s <> None) || recvDone s then c
  else
    let c := upd p (fun s => set_s_readCancelled true
                       (set_s_recvErr (Some (ErrStream (s_id s) code false)) s)) c in
    let c := consumeLocked (zlen (unread s)) c in
    let c := upd p clear_rbuf c in
    let c := if negb (s_finRecv s) then queueLocked (StopSending (s_id s) code) c else c in
    completeLocked p (broadcast_read p c).

Definition setReadDeadline (p : nat) (t : Z) (c : Conn) : Conn :=
  broadcast_read p (upd p (set_s_readDeadline t) c).

(** * Sending *)

(** [sendErrLocked] *)
Definition sendErrLocked (p : nat) (c : Conn) : option error :=
  let s := deref c p in
  match c_closeErr c, s_sendErr s with
  | Some e, _ => Some e
  | None, Some e => Some e
  | None, None => if s_finSent s then Some (ErrWriteClosed (s_id s)) else None
  end.

(** [sendCreditLocked] *)
Definition sendCreditLocked (p : nat) (c : Conn) : Z :=
  let s := deref c p in
  if (s_sendMax s <=? s_sendOffset s) || (c_sendMax c <=? c_sent c) then 0
  else Z.min (u64 (s_sendMax s - s_sendOffset s)) (u64 (c_sendMax c - c_sent c)).

(** What [trySend] returns: credit, an error, or two channels to wait on. *)
Inductive send_result :=
| SendOk
| SendErr (err : error)
| SendWait (wake connWake : nat) (deadline : Z).

(** [trySend], at the time [now]. *)
Definition trySend (now : Z) (p : nat) (c : Conn) : send_result * Conn :=
  match sendErrLocked p c with
  | Some e => (SendErr e, c)
  | None =>
  let s := deref c p in
  if negb (s_writeDeadline s =? 0) && (s_writeDeadline s <=? now) then (SendErr ErrDeadlineExceeded, c)
  else if 0 <? sendCreditLocked p c then (SendOk, c)
  else
    let '(wake, c) := signal_wait (s_writeSignal s) c in
    let c := upd p (set_s_writeSignal (Some wake)) c in
    let '(connWake, c) := signal_wait (c_sendSignal c) c in
    (SendWait wake connWake (s_writeDeadline s), set_c_sendSignal (Some connWake) c)
  end.

(** [reserve]: the offset and the number of bytes, or why it cannot send. *)
Definition reserve (p : nat) (n : Z) (c : Conn) : (Z * Z + error) * Conn :=
  match sendErrLocked p c with
  | Some e => (inr e, c)
  | None =>
  let s := deref c p in
  let reserved := Z.min (Z.min n maxStreamData) (sendCreditLocked p c) in
  (inl (s_sendOffset s, reserved),
   set_c_sent (u64 (c_sent c + reserved))
     (upd p (set_s_sendOffset (u64 (s_sendOffset s + reserved))) c))
  end.

(** [setPriority] and [priority] *)
Definition setPriority (p : nat) (urgency : Z) (incremental : bool) (c : Conn) : Conn :=
  upd p (fun s => set_s_incremental incremental
           (set_s_urgency (Z.min (Z.max urgency 0) maxUrgency) s)) c.

Definition stream_priority (p : nat) (c : Conn) : priority :=
  let s := deref c p in mkPriority (s_urgency s) (s_incremental s) (s_id s).

(** [finish]: the final size if there is a FIN to send, or the error. *)
Definition finish (p : nat) (c : Conn) : (option Z + error) * Conn :=
  match c_closeErr c with
  | Some e => (inr e, c)
  | None =>
  let s := deref c p in
  if s_finSent s || bool_decide (s_sendErr s <> None) then (inl None, c)
  else
    let c := stream_cancel p None (upd p (set_s_finSent true) c) in
    let c := completeLocked p (broadcast_write p c) in
    (inl (Some (s_sendOffset (deref c p))), c)
  end.

(** [resetSendLocked], with the code and origin of its [*quic.StreamError]. *)
Definition resetSendLocked (p : nat) (code : Z) (remote : bool) (c : Conn) : Conn :=
  let s := deref c p in
  if sendDone s then c
  else
    let reason := ErrStream (s_id s) code remote in
    let c := stream_cancel p (Some reason) (upd p (set_s_sendErr (Some reason)) c) in
    let c := queueLocked (ResetStream (s_id s) code (s_sendOffset s)) c in
    completeLocked p (broadcast_write p c).

Definition cancelWrite (p : nat) (code : Z) (c : Conn) : Conn :=
  if bool_decide (c_closeErr c <> None) then c else resetSendLocked p code false c.

Definition stopSendingLocked (p : nat) (code : Z) (c : Conn) : Conn :=
  resetSendLocked p code true c.

Definition setWriteDeadline (p : nat) (t : Z) (c : Conn) : Conn :=
  broadcast_write p (upd p (set_s_writeDeadline t) c).
