(* ===== verification/Conn.v ===== *)
(** The operations of a connection, from [qmux/conn.go]: what it does with
    each frame of the peer, opening and accepting streams, datagrams, pings,
    the control queue, and closing. The clock is an argument ([now]) where
    the source reads it. *)

From S2P Require Import Prelude Varint Params Frame WriteLock Config State Core Stream.

Definition maxControlFrameSize : Z := 32.
Definition datagramQueueSize : Z := 100.
Definition maxReasonLength : Z := DefaultMaxRecordSize - maxControlFrameSize.
Definition maxIdleTimeout : Z := 2 ^ 63 - 1.

(** * Creation *)

(** The state that [newConn] starts the connection's goroutines with. *)
Definition newConn (cfg : Config) (isServer : bool) (now : Z) : Conn := {|
  c_config := cfg; c_isServer := isServer; c_cause := None; c_handshake := false;
  c_closeErr := None; c_peer := zeroParameters; c_ready := false; c_streams := ∅;
  c_outBidi := mkOutgoing 0 0 None; c_outUni := mkOutgoing 0 0 None;
  c_inBidi := mkIncoming 0 (u64 (MaxIncomingStreams cfg)) false [] None;
  c_inUni := mkIncoming 0 (u64 (MaxIncomingUniStreams cfg)) false [] None;
  c_sendMax := 0; c_sent := 0; c_sendSignal := None;
  c_recvMax := InitialConnectionReceiveWindow cfg; c_received := 0; c_consumed := 0;
  c_control := []; c_maxDataPending := false; c_pongPending := false; c_pongSequence := 0;
  c_pingPending := false; c_controlWake := false; c_idleTimeout := cfg_MaxIdleTimeout cfg;
  c_nextPing := 0; c_pingSentAt := 0; c_pingUnanswered := false; c_pingUnansweredAt := 0;
  c_peerPinged := false; c_peerPingLast := 0; c_rtt := mkRtt 0 0 0 0; c_datagrams := [];
  c_lastActivity := now; c_bytesSent := 0; c_bytesReceived := 0; c_recordsSent := 0;
  c_recordsReceived := 0; c_heap := []; c_chans := 0; c_closed := ∅; c_panicked := false |}.

Definition touch (now : Z) (c : Conn) : Conn := set_c_lastActivity now c.

(** What [writeRecordLocked] counts after a record of [n] bytes was written. *)
Definition record_sent (now n : Z) (c : Conn) : Conn :=
  let c := set_c_bytesSent (u64 (c_bytesSent c + n)) c in
  let c := set_c_recordsSent (u64 (c_recordsSent c + 1)) c in
  touch now c.

(** What [readLoop] counts after a record of [n] bytes was read. *)
Definition record_received (now n : Z) (c : Conn) : Conn :=
  let c := set_c_bytesReceived (u64 (c_bytesReceived c + n)) c in
  let c := set_c_recordsReceived (u64 (c_recordsReceived c + 1)) c in
  touch now c.

(** The receive from [controlWake] in [writeLoop]. *)
Definition take_wake (c : Conn) : Conn := set_c_controlWake false c.

(** * Frames of the peer *)

Definition protocolViolation (reason : bytes) : Error := mkError ProtocolViolation reason.

(** An error of the peer, as [handleFrameLocked] returns it. *)
Abbreviation wire_error code reason := (Some (ErrWire (mkError code reason))).

Definition handleParametersLocked (p : Parameters) (c : Conn) : Conn :=
  let c := set_c_ready true (set_c_peer p c) in
  let c := set_c_sendMax (InitialMaxData p) c in
  let ob := c_outBidi c in
  let c := set_c_outBidi (mkOutgoing (o_next ob) (InitialMaxStreamsBidi p) (o_signal ob)) c in
  let ou := c_outUni c in
  let c := set_c_outUni (mkOutgoing (o_next ou) (InitialMaxStreamsUni p) (o_signal ou)) c in
  let c :=
    if (0 <? MaxIdleTimeout p) && (MaxIdleTimeout p <=? Z.quot maxIdleTimeout Millisecond) then
      let peerIdle := i64 (MaxIdleTimeout p * Millisecond) in
      if (c_idleTimeout c =? 0) || (peerIdle <? c_idleTimeout c)
      then set_c_idleTimeout peerIdle c else c
    else c in
  let c := close_handshake c in
  broadcast_out dirUni (broadcast_out dirBidi (broadcast_send c)).

(** One iteration of the loop of [streamLocked] that opens the streams up to
    the one a frame refers to. *)
Definition open_incoming (d : dir) (c : Conn) : Conn :=
  let '(p, c) := newStreamLocked (streamID c (i_next (c_in d c)) d false) c in
  let i := c_in d c in
  broadcast_in d (set_c_in d
    (mkIncoming (u64 (i_next i + 1)) (i_max i) (i_pending i) (i_queue i ++ [p]) (i_signal i)) c).

Fixpoint open_loop (fuel : nat) (d : dir) (index : Z) (c : Conn) : Conn :=
  match fuel with
  | O => c
  | S fuel =>
      if i_next (c_in d c) <=? index then open_loop fuel d index (open_incoming d c) else c
  end.

(** [streamLocked]: the stream a frame refers to, [None] when it has already
    closed, or an error of the peer. *)
Definition streamLocked (rawID : Z) (recv : bool) (c : Conn) : (option nat + Error) * Conn :=
  let local := initiatedLocally c rawID in
  let d := streamDir rawID in
  let index := Z.shiftr rawID 2 in
  if bool_decide (d = dirUni) && Bool.eqb local recv then
    (inr (mkError StreamStateError
      (str "frame not allowed on unidirectional stream " ++ fmt_d rawID)), c)
  else if local then
    if o_next (c_out d c) <=? index then
      (inr (mkError StreamStateError
        (str "frame for stream " ++ fmt_d rawID ++ str ", which was not opened")), c)
    else (inl (c_streams c !! rawID), c)
  else if i_max (c_in d c) <=? index then
    (inr (mkError StreamLimitError
      (str "stream " ++ fmt_d rawID ++ str " exceeds the stream limit")), c)
  else
    let c := open_loop (Z.to_nat (index + 1 - i_next (c_in d c))) d index c in
    (inl (c_streams c !! rawID), c).

(** The start of the handlers of stream frames: [s, err := c.streamLocked(..)],
    and [return err] when there is no stream. *)
Definition with_stream (rawID : Z) (recv : bool) (k : nat -> Conn -> option error * Conn) (c : Conn)
    : option error * Conn :=
  match streamLocked rawID recv c with
  | (inr e, c) => (Some (ErrWire e), c)
  | (inl None, c) => (None, c)
  | (inl (Some p), c) => k p c
  end.

Section append.
Context {GA : GoAppend}.

(** [handleStreamLocked], once the stream is found. *)
Definition stream_frame (StreamID Offset : Z) (Data : bytes) (Fin : bool) (p : nat) (c : Conn)
    : option error * Conn :=
  let s := deref c p in
  let n := zlen Data in
  if negb (Offset =? s_recvOffset s) then
    (Some (ErrWire (protocolViolation
       (str "stream " ++ fmt_d StreamID ++ str ": data out of order"))), c)
  else if s_finRecv s || s_recvReset s then
    if (0 <? n) || (Fin && negb (s_finRecv s)) then
      (wire_error FinalSizeError
         (str "stream " ++ fmt_d StreamID ++ str ": data past its final size"), c)
    else (None, c)
  else if s_recvMax s <? u64 (s_recvOffset s + n) then
    (wire_error FlowControlError
       (str "stream " ++ fmt_d StreamID ++ str ": flow control limit exceeded"), c)
  else
    match receivedLocked n c with
    | inr e => (Some (ErrWire e), c)
    | inl c =>
        let c := upd p (fun s => set_s_finRecv Fin
                          (set_s_recvOffset (u64 (s_recvOffset s + n)) s)) c in
        let c := if s_readCancelled s then consumeLocked n c
                 else upd p (bufferLocked Data) c in
        (None, completeLocked p (broadcast_read p c))
    end.

Definition handleStreamLocked (StreamID Offset : Z) (Data : bytes) (Fin : bool)
    : Conn -> option error * Conn :=
  with_stream StreamID true (stream_frame StreamID Offset Data Fin).

(** What [handleResetStreamLocked] assigns to the stream. *)
Definition after_reset (Code FinalSize : Z) (s : stream) : stream :=
  let s := clear_rbuf (set_s_recvReset true (set_s_recvOffset FinalSize s)) in
  match s_recvErr s with
  | None => set_s_recvErr (Some (ErrStream (s_id s) Code true)) s
  | Some _ => s
  end.

(** [handleResetStreamLocked], once the stream is found. *)
Definition reset_frame (StreamID Code FinalSize : Z) (p : nat) (c : Conn)
    : option error * Conn :=
  let s := deref c p in
  if (FinalSize <? s_recvOffset s) ||
     ((s_finRecv s || s_recvReset s) && negb (FinalSize =? s_recvOffset s)) then
    (wire_error FinalSizeError
       (str "stream " ++ fmt_d StreamID ++ str ": final size changed"), c)
  else if s_recvReset s then (None, c)
  else if s_recvMax s <? FinalSize then
    (wire_error FlowControlError
       (str "stream " ++ fmt_d StreamID ++ str ": final size exceeds the flow control limit"), c)
  else
    let skipped := u64 (FinalSize - s_recvOffset s) in
    match receivedLocked skipped c with
    | inr e => (Some (ErrWire e), c)
    | inl c =>
        let c := consumeLocked (u64 (skipped + zlen (unread s))) c in
        let c := upd p (after_reset Code FinalSize) c in
        (None, completeLocked p (broadcast_read p c))
    end.

Definition handleResetStreamLocked (StreamID Code FinalSize : Z)
    : Conn -> option error * Conn :=
  with_stream StreamID true (reset_frame StreamID Code FinalSize).

(** [rttStats.update]; durations are 64-bit, and [Abs] saturates. *)
Definition duration_abs (d : Z) : Z :=
  if 0 <=? d then d else if d =? - 2 ^ 63 then 2 ^ 63 - 1 else - d.

Definition rtt_update (rtt : Z) (r : rttStats) : rttStats :=
  let m := if (rtt_min r =? 0) || (rtt <? rtt_min r) then rtt else rtt_min r in
  if rtt_smoothed r =? 0 then mkRtt m rtt rtt (Z.quot rtt 2)
  else mkRtt m rtt
    (Z.quot (i64 (i64 (7 * rtt_smoothed r) + rtt)) 8)
    (Z.quot (i64 (i64 (3 * rtt_deviation r) + duration_abs (i64 (rtt_smoothed r - rtt)))) 4).

(** [handlePingLocked] *)
Definition handlePingLocked (now : Z) (Response : bool) (Sequence : Z) (c : Conn)
    : option error * Conn :=
  if Response then
    if c_nextPing c <=? Sequence then
      (Some (ErrWire (protocolViolation (str "QX_PING response to a request that was not sent"))), c)
    else if Sequence =? u64 (c_nextPing c - 1) then
      (None, set_c_pingUnanswered false
               (set_c_rtt (rtt_update (time_sub now (c_pingSentAt c)) (c_rtt c)) c))
    else (None, c)
  else if c_peerPinged c && (Sequence <=? c_peerPingLast c) then
    (Some (ErrWire (protocolViolation (str "QX_PING sequence number did not increase"))), c)
  else
    let c := set_c_peerPingLast Sequence (set_c_peerPinged true c) in
    (None, wakeWriter (set_c_pongSequence Sequence (set_c_pongPending true c))).

(** [handleDatagramLocked]: the copy goes into the channel's buffer, or is
    dropped when that is full. *)
Definition handleDatagramLocked (Data : bytes) (c : Conn) : option error * Conn :=
  if cfg_MaxDatagramFrameSize (c_config c) <? 1 + zlen Data then
    (Some (ErrWire (protocolViolation (str "DATAGRAM frame larger than max_datagram_frame_size"))), c)
  else if zlen (c_datagrams c) <? datagramQueueSize then
    (None, set_c_datagrams (c_datagrams c ++ [Data]) c)
  else (None, c).

(** The MAX_STREAM_DATA case of [handleFrameLocked]. *)
Definition handleMaxStreamData (StreamID Max : Z) : Conn -> option error * Conn :=
  with_stream StreamID false (fun p c =>
    if s_sendMax (deref c p) <? Max
    then (None, broadcast_write p (upd p (set_s_sendMax Max) c))
    else (None, c)).

(** The STOP_SENDING case. *)
Definition handleStopSending (StreamID Code : Z) : Conn -> option error * Conn :=
  with_stream StreamID false (fun p c => (None, stopSendingLocked p Code c)).

(** The MAX_DATA case. *)
Definition handleMaxData (Max : Z) (c : Conn) : Conn :=
  if c_sendMax c <? Max then broadcast_send (set_c_sendMax Max c) else c.

(** The MAX_STREAMS case. *)
Definition handleMaxStreams (Uni : bool) (Max : Z) (c : Conn) : Conn :=
  let d := if Uni then dirUni else dirBidi in
  let o := c_out d c in
  if o_max o <? Max
  then broadcast_out d (set_c_out d (mkOutgoing (o_next o) Max (o_signal o)) c)
  else c.

(** [handleFrameLocked] *)
Definition handleFrameLocked (now : Z) (f : frame) (c : Conn) : option error * Conn :=
  match f with
  | TransportParameters params =>
      if c_ready c then
        (Some (ErrWire (protocolViolation
           (str "QX_TRANSPORT_PARAMETERS must be the first frame, and only the first"))), c)
      else (None, handleParametersLocked params c)
  | _ =>
      if negb (c_ready c) then
        (Some (ErrWire (protocolViolation
           (str "QX_TRANSPORT_PARAMETERS must be the first frame, and only the first"))), c)
      else
        match f with
        | Stream sid off data fin => handleStreamLocked sid off data fin c
        | ResetStream sid code fs => handleResetStreamLocked sid code fs c
        | StopSending sid code => handleStopSending sid code c
        | MaxStreamData sid m => handleMaxStreamData sid m c
        | MaxData m => (None, handleMaxData m c)
        | MaxStreams uni m => (None, handleMaxStreams uni m c)
        | Ping resp seq => handlePingLocked now resp seq c
        | Datagram data => handleDatagramLocked data c
        | ConnectionClose true code _ reason => (Some (ErrApplication true code reason), c)
        | ConnectionClose false code ft reason => (Some (ErrTransport true code ft reason), c)
        | Blocked => (None, c)
        | TransportParameters _ => (None, c)
        end
  end.

Context {V : QuicVarint}.

(** The loop of [handleRecord]. Every frame consumes a byte, so a fuel of
    the record's length is enough. *)
Fixpoint record_loop (fuel : nat) (now : Z) (rec : bytes) (c : Conn) : option error * Conn :=
  match fuel with
  | O => (None, c)
  | S fuel =>
      if (0 <? zlen rec) && bool_decide (c_closeErr c = None) then
        match Parse rec with
        | ParsedError e => (Some (ErrWire e), c)
        | ParsedNone => (None, c)
        | ParsedFrame f rest =>
            match handleFrameLocked now f c with
            | (Some e, c) => (Some e, c)
            | (None, c) => record_loop fuel now rest c
            end
        end
      else (None, c)
  end.

Definition handleRecord (now : Z) (rec : bytes) (c : Conn) : option error * Conn :=
  record_loop (S (length rec)) now rec c.
End append.

(** * The application *)

(** What [tryOpen] and [tryAccept] return: a stream, an error, or a channel
    to wait on. *)
Inductive open_result :=
| Opened (p : nat)
| OpenErr (e : error)
| OpenWait (wake : nat).

Definition tryOpen (d : dir) (c : Conn) : open_result * Conn :=
  match c_closeErr c with
  | Some e => (OpenErr e, c)
  | None =>
  let o := c_out d c in
  if o_max o <=? o_next o then
    let '(ch, c) := signal_wait (o_signal o) c in
    (OpenWait ch, set_c_out d (mkOutgoing (o_next o) (o_max o) (Some ch)) c)
  else
    let '(p, c) := newStreamLocked (streamID c (o_next o) d true) c in
    let c := upd p (set_s_accepted true) c in
    let o := c_out d c in
    (Opened p, set_c_out d (mkOutgoing (u64 (o_next o + 1)) (o_max o) (o_signal o)) c)
  end.

(** [openNow] *)
Definition openNow (d : dir) (c : Conn) : (nat + error) * Conn :=
  match tryOpen d c with
  | (Opened p, c) => (inl p, c)
  | (OpenErr e, c) => (inr e, c)
  | (OpenWait _, c) => (inr ErrStreamLimitReached, c)
  end.

Definition tryAccept (d : dir) (c : Conn) : open_result * Conn :=
  match c_closeErr c with
  | Some e => (OpenErr e, c)
  | None =>
  let i := c_in d c in
  match i_queue i with
  | [] =>
      let '(ch, c) := signal_wait (i_signal i) c in
      (OpenWait ch, set_c_in d (mkIncoming (i_next i) (i_max i) (i_pending i) [] (Some ch)) c)
  | p :: queue =>
      let c := set_c_in d (mkIncoming (i_next i) (i_max i) (i_pending i) queue (i_signal i)) c in
      (Opened p, completeLocked p (upd p (set_s_accepted true) c))
  end end.

(** [datagramLimit] *)
Definition datagramLimit (c : Conn) : Z :=
  Z.min (MaxDatagramFrameSize (c_peer c)) (MaxRecordSize (c_peer c)).

(** The receive from the channel of [ReceiveDatagram]. *)
Definition tryReceiveDatagram (c : Conn) : option bytes * Conn :=
  match c_datagrams c with
  | [] => (None, c)
  | d :: ds => (Some d, set_c_datagrams ds c)
  end.

(** [requestPing] *)
Definition requestPing (now : Z) (c : Conn) : bool * Conn :=
  if c_pingUnanswered c && (0 <? c_idleTimeout c) &&
     (c_idleTimeout c <=? time_sub now (c_pingUnansweredAt c)) then (false, c)
  else (true, wakeWriter (set_c_pingPending true c)).

(** * The write loop *)

(** [takeControl] in the order of the source: the queued frames, MAX_DATA,
    MAX_STREAMS of each kind, the ping response, the ping request. *)
Definition take_max_data (c : Conn) : list frame * Conn :=
  if c_maxDataPending c then ([MaxData (c_recvMax c)], set_c_maxDataPending false c) else ([], c).

Definition take_max_streams (d : dir) (c : Conn) : list frame * Conn :=
  let i := c_in d c in
  if i_pending i then
    ([MaxStreams (bool_decide (d = dirUni)) (i_max i)],
     set_c_in d (mkIncoming (i_next i) (i_max i) false (i_queue i) (i_signal i)) c)
  else ([], c).

Definition take_pong (c : Conn) : list frame * Conn :=
  if c_pongPending c then ([Ping true (c_pongSequence c)], set_c_pongPending false c) else ([], c).

Definition take_ping (now : Z) (c : Conn) : list frame * Conn :=
  if c_pingPending c then
    let seq := c_nextPing c in
    let c := set_c_pingSentAt now (set_c_nextPing (u64 (seq + 1)) (set_c_pingPending false c)) in
    let c := if negb (c_pingUnanswered c)
      then set_c_pingUnansweredAt now (set_c_pingUnanswered true c) else c in
    ([Ping false seq], c)
  else ([], c).

Definition takeControl (now : Z) (c : Conn) : list frame * Conn :=
  match c_closeErr c with
  | Some _ => ([], c)
  | None =>
      let frames := c_control c in
      let c := set_c_control [] c in
      let '(f1, c) := take_max_data c in
      let '(f2, c) := take_max_streams dirBidi c in
      let '(f3, c) := take_max_streams dirUni c in
      let '(f4, c) := take_pong c in
      let '(f5, c) := take_ping now c in
      (frames ++ f1 ++ f2 ++ f3 ++ f4 ++ f5, c)
  end.
