(* ===== verification/Endpoint.v ===== *)
(** A connection on its transport: what [qmux/conn.go], [qmux/stream.go] and
    [qmux/qmux.go] do with [recordTransport].

    The functions here run with [writeMu] held, or take no lock; each of their
    critical sections on [Conn.mu] is an operation of [System]. A Go panic is
    [None]. The connection is generic in the transport, and uses it through the
    class [RecordTransport] only. *)

From S2P Require Import Prelude Varint Params Frame WriteLock Config State Core Stream Conn Transport.

(** [e_wbuf] is the headroom [c.wbuf[:recordHeadroom]] that records are built
    on; a transport may overwrite its bytes, and sends none of them as part of a
    frame. [e_forced] is when the timer of [closeGracefully] closes the
    transport. *)
Record endpoint (T : Type) := mkEndpoint {
  e_conn : Conn;
  e_tr : T;
  e_wbuf : bytes;
  e_forced : option Z;
}.
Arguments mkEndpoint {T}.
Arguments e_conn {T}.
Arguments e_tr {T}.
Arguments e_wbuf {T}.
Arguments e_forced {T}.

Section endpoint.
Context {V : QuicVarint} {GA : GoAppend} {T : Type} {RT : RecordTransport T}.
Implicit Types (e : endpoint T).

Definition set_conn (c : Conn) (e : endpoint T) : endpoint T :=
  mkEndpoint c (e_tr e) (e_wbuf e) (e_forced e).
Definition set_tr (t : T) (e : endpoint T) : endpoint T :=
  mkEndpoint (e_conn e) t (e_wbuf e) (e_forced e).
Definition set_wbuf (b : bytes) (e : endpoint T) : endpoint T :=
  mkEndpoint (e_conn e) (e_tr e) b (e_forced e).
Definition set_forced (t : option Z) (e : endpoint T) : endpoint T :=
  mkEndpoint (e_conn e) (e_tr e) (e_wbuf e) t.

(** [newConn], up to its goroutines. *)
Definition new_endpoint (tr : T) (config : Config) (isServer : bool) (now : Z) : endpoint T :=
  mkEndpoint (newConn config isServer now) tr (replicate (Z.to_nat recordHeadroom) (z2b 0)) None.

(** * Writing *)

(** [writeRecordLocked] *)
Definition writeRecordLocked (now : Z) (buf : bytes) (e : endpoint T)
    : option (option error * endpoint T) :=
  let e := set_wbuf (ztake recordHeadroom buf) e in
  r ← writeRecord buf (e_tr e);
  match r with
  | (inr err, t) => Some (Some err, set_tr t e)
  | (inl n, t) => Some (None, set_conn (record_sent now n (e_conn e)) (set_tr t e))
  end.

(** The loop of [writeFramesLocked]. *)
Fixpoint append_frames (frames : list frame) (buf : bytes) : option bytes :=
  match frames with
  | [] => Some buf
  | f :: frames => buf ← Append f buf; append_frames frames buf
  end.

(** [writeFramesLocked], and [writeFrames] once it holds [writeMu]. *)
Definition writeFramesLocked (now : Z) (frames : list frame) (e : endpoint T)
    : option (option error * endpoint T) :=
  buf ← append_frames frames (e_wbuf e);
  writeRecordLocked now buf e.

(** [sendParameters] *)
Definition sendParameters (now : Z) (e : endpoint T) : option (option error * endpoint T) :=
  writeFramesLocked now [TransportParameters (localParameters (c_config (e_conn e)))] e.

Definition full : Z := recordHeadroom + DefaultMaxRecordSize - maxControlFrameSize.

(** The loop of [flushControl] and what follows it. *)
Fixpoint flush_loop (now : Z) (frames : list frame) (buf : bytes) (e : endpoint T)
    : option (option error * endpoint T) :=
  match frames with
  | [] =>
      if zlen buf =? recordHeadroom then Some (None, e) else writeRecordLocked now buf e
  | f :: frames =>
      buf ← Append f buf;
      if full <? zlen buf then
        r ← writeRecordLocked now buf e;
        match r with
        | (Some err, e) => Some (Some err, e)
        | (None, e) => flush_loop now frames (e_wbuf e) e
        end
      else flush_loop now frames buf e
  end.

(** [flushControl] *)
Definition flushControl (now : Z) (e : endpoint T) : option (option error * endpoint T) :=
  let '(frames, c) := takeControl now (e_conn e) in
  flush_loop now frames (e_wbuf e) (set_conn c e).

(** * Closing *)

(** [abort] *)
Definition abort (err : error) (e : endpoint T) : endpoint T :=
  let '(ended, c) := terminate err (e_conn e) in
  let e := set_conn c e in
  if ended then set_tr (close (e_tr e)) e else e.

(** [closeGracefully] at the time [now]. *)
Definition closeGracefully (now : Z) (err : error) (fr : option frame) (e : endpoint T)
    : option (endpoint T) :=
  let '(ended, c) := terminate err (e_conn e) in
  let e := set_conn c e in
  if negb ended then Some e
  else
    let e := set_tr (expire (now + closeTimeout) (e_tr e)) e in
    let e := set_forced (Some (now + closeTimeout)) e in
    r ← (match fr with
         | Some f => writeFramesLocked now [f] e
         | None => Some (None, e)
         end);
    let '(werr, e) := r in
    match werr with
    | Some _ => Some (set_tr (close (e_tr e)) (set_forced None e))
    | None =>
        let '(half, t) := closeWrite (e_tr e) in
        let e := set_tr t e in
        if negb half then Some (set_tr (close (e_tr e)) (set_forced None e)) else Some e
    end.

(** The timer of [closeGracefully], when it fires. *)
Definition force_close (now : Z) (e : endpoint T) : option (endpoint T) :=
  match e_forced e with
  | Some t => if t <=? now then Some (set_tr (close (e_tr e)) (set_forced None e)) else None
  | None => None
  end.

(** [closeWithTransportError] *)
Definition closeWithTransportError (now : Z) (we : Error) (e : endpoint T) : option (endpoint T) :=
  let reason := ztake (Z.min (zlen (err_Reason we)) maxReasonLength) (err_Reason we) in
  closeGracefully now (ErrTransport false (err_Code we) 0 reason)
    (Some (ConnectionClose false (err_Code we) 0 reason)) e.

(** [CloseWithError], and [Close] with code 0 and no reason. *)
Definition CloseWithError (now code : Z) (msg : bytes) (e : endpoint T) : option (endpoint T) :=
  let msg := ztake (Z.min (zlen msg) maxReasonLength) msg in
  closeGracefully now (ErrApplication false code msg)
    (Some (ConnectionClose true code 0 msg)) e.

Definition Close (now : Z) (e : endpoint T) : option (endpoint T) := CloseWithError now 0 [] e.

(** * Streams and datagrams *)

(** [context.Cause(c.ctx)] *)
Definition cause (e : endpoint T) : option error := c_cause (e_conn e).

(** [writeChunk], once it holds [writeMu]: how much it sent, and an error. *)
Definition writeChunk (now : Z) (p : nat) (data : bytes) (e : endpoint T)
    : option (Z * option error * endpoint T) :=
  let sid := s_id (deref (e_conn e) p) in
  let '(r, c) := reserve p (zlen data) (e_conn e) in
  let e := set_conn c e in
  match r with
  | inr err => Some (0, Some err, e)
  | inl (offset, n) =>
      if n =? 0 then Some (0, None, e)
      else
        r ← writeFramesLocked now [Stream sid offset (ztake n data) false] e;
        match r with
        | (Some err, e) =>
            let e := abort (ErrWriteTransport err) e in Some (0, cause e, e)
        | (None, e) => Some (n, None, e)
        end
  end.

(** [closeSend], once it holds [writeMu]. *)
Definition closeSend (now : Z) (p : nat) (e : endpoint T) : option (option error * endpoint T) :=
  let sid := s_id (deref (e_conn e) p) in
  let '(r, c) := finish p (e_conn e) in
  let e := set_conn c e in
  match r with
  | inr err => Some (Some err, e)
  | inl None => Some (None, e)
  | inl (Some finalSize) =>
      r ← writeFramesLocked now [Stream sid finalSize [] true] e;
      match r with
      | (Some err, e) => let e := abort (ErrWriteTransport err) e in Some (cause e, e)
      | (None, e) => Some (None, e)
      end
  end.

(** [SendDatagram] *)
Definition SendDatagram (now : Z) (data : bytes) (e : endpoint T)
    : option (option error * endpoint T) :=
  let limit := datagramLimit (e_conn e) in
  if limit =? 0 then Some (Some ErrDatagramsNotSupported, e)
  else
    len ← Datagram_Len data;
    if limit <? len then
      n ← varint_len limit;
      let payload := u64 (limit - 1 - n) in
      Some (Some (ErrDatagramTooLarge (i64 payload)), e)
    else
      match cause e with
      | Some err => Some (Some err, e)
      | None =>
          r ← writeFramesLocked now [Datagram data] e;
          match r with
          | (Some err, e) => let e := abort (ErrWriteTransport err) e in Some (cause e, e)
          | (None, e) => Some (None, e)
          end
      end.

(** * The goroutines *)

(** One iteration of [readLoop]: whether it goes on. *)
Definition read_step (now : Z) (e : endpoint T) : option (bool * endpoint T) :=
  let '(r, t) := readRecord (e_tr e) in
  let e := set_tr t e in
  let stop e := Some (false, set_tr (close (e_tr e)) e) in
  match r with
  | inr (ErrWire we) => e ← closeWithTransportError now we e; Some (true, e)
  | inr err => stop (abort (ErrTransportClosed err) e)
  | inl rec =>
      let '(err, c) := handleRecord now rec (record_received now (zlen rec) (e_conn e)) in
      let e := set_conn c e in
      match err with
      | None => Some (true, e)
      | Some (ErrWire we) => e ← closeWithTransportError now we e; Some (true, e)
      | Some err => stop (abort err e)
      end
  end.

(** The start of [writeLoop]: whether it goes on. *)
Definition write_start (now : Z) (e : endpoint T) : option (bool * endpoint T) :=
  r ← sendParameters now e;
  match r with
  | (None, e) => Some (true, e)
  | (Some err, e) => Some (false, abort (ErrWriteTransport err) e)
  end.

(** One iteration of [writeLoop] after a wake-up: whether it goes on. *)
Definition write_step (now : Z) (e : endpoint T) : option (bool * endpoint T) :=
  let e := set_conn (take_wake (e_conn e)) e in
  r ← flushControl now e;
  match r with
  | (None, e) => Some (true, e)
  | (Some err, e) => Some (false, abort (ErrWriteTransport err) e)
  end.

(** One iteration of the loop of [idleLoop]: how long to sleep ([None] is
    forever), or the end of the connection. *)
Definition idle_step (now : Z) (e : endpoint T) : option (option Z + endpoint T) :=
  let timeout := c_idleTimeout (e_conn e) in
  if 0 <? timeout then
    let remaining := i64 (timeout - time_sub now (c_lastActivity (e_conn e))) in
    if remaining <=? 0 then e ← closeGracefully now ErrIdleTimeout None e; Some (inr e)
    else Some (inl (Some remaining))
  else Some (inl None).

(** What [idleLoop] does when the handshake takes too long. *)
Definition handshake_expired (now : Z) (e : endpoint T) : option (endpoint T) :=
  closeGracefully now ErrHandshakeTimeout None e.

(** A tick of [keepAliveLoop]: whether it goes on. *)
Definition keepalive_step (now : Z) (e : endpoint T) : option (bool * endpoint T) :=
  let '(ok, c) := requestPing now (e_conn e) in
  let e := set_conn c e in
  if negb ok then e ← closeGracefully now ErrIdleTimeout None e; Some (false, e)
  else Some (true, e).

(** [start], when the handshake channel is closed and when the caller's
    context ends first. *)
Definition start_ready (e : endpoint T) : endpoint T + error :=
  match cause e with Some err => inr err | None => inl e end.

Definition start_cancelled (err : error) (e : endpoint T) : error * endpoint T := (err, abort err e).

(** The [select] of [start] on the connection that [newConn] returned, while its
    goroutines run: any case that is ready can be taken. [ctx] is the cause of
    the caller's context, once it is done. *)
Inductive start (ctx : option error) (e : endpoint T) : endpoint T + error -> endpoint T -> Prop :=
| start_handshake r : c_handshake (e_conn e) = true -> r = start_ready e -> start ctx e r e
| start_done err r e' : ctx = Some err -> start_cancelled err e = (r, e') -> start ctx e (inr r) e'.
End endpoint.

(** [Dial] and [Server], and their message counterparts, up to [start]. *)
Definition Dial (conn : netConn) (config : option Config) (isServer : bool) (now : Z) : endpoint streamTransport :=
  let cfg := normalized config in
  new_endpoint (newStreamTransport conn (cfg_MaxRecordSize cfg)) cfg isServer now.

Definition DialMessages {M} (mc : M) (config : option Config) (isServer : bool) (now : Z)
    : endpoint (messageTransport M) :=
  let cfg := normalized config in
  new_endpoint (mkMessageTransport mc (cfg_MaxRecordSize cfg)) cfg isServer now.
