(* ===== verification/System.v ===== *)
(** The connection as a transition system.

    Every critical section of the source that runs under [Conn.mu] is one
    operation: the frames that the read loop handles, the calls of the
    application on the connection and on the streams it holds, the write
    loop's [takeControl], the keep-alive's [requestPing], and [terminate]; and so
    are the updates of the atomic counters and the receive from the channel
    [controlWake]. Any
    interleaving of goroutines is a sequence of such operations, so a
    property of every reachable state holds for every schedule. *)

From S2P Require Import Prelude Varint Params Frame WriteLock Config State Core Stream Conn.

Inductive op :=
| OpFrame (now : Z) (f : frame)
| OpOpen (d : dir)
| OpAccept (d : dir)
| OpRead (p n : nat)
| OpPeek (p n : nat)
| OpCancelRead (p : nat) (code : Z)
| OpReadDeadline (p : nat) (t : Z)
| OpTrySend (now : Z) (p : nat)
| OpReserve (p : nat) (n : Z)
| OpFinish (p : nat)
| OpCancelWrite (p : nat) (code : Z)
| OpWriteDeadline (p : nat) (t : Z)
| OpPriority (p : nat) (urgency : Z) (incremental : bool)
| OpReceiveDatagram
| OpRequestPing (now : Z)
| OpTakeControl (now : Z)
| OpTerminate (e : error)
| OpSent (now n : Z)
| OpReceived (now n : Z)
| OpWoken.

(** The application holds the stream: it opened or accepted it. *)
Definition holds (c : Conn) (p : nat) : Prop :=
  (p < length (c_heap c))%nat /\ s_accepted (deref c p) = true.

(** The exported types offer the receiving operations on streams that can
    receive, and the sending ones on streams that can send. *)
Definition holds_recv (c : Conn) (p : nat) : Prop := holds c p /\ s_canRecv (deref c p) = true.
Definition holds_send (c : Conn) (p : nat) : Prop := holds c p /\ s_canSend (deref c p) = true.

(** When an operation can run: [handleRecord] handles the frames that
    [Parse] returns while the connection is open, and the application passes
    error codes that fit QUIC's 62 bits. [CancelRead] and [CancelWrite] take any
    [uint64], but a larger code makes the write loop panic later on
    ([Findings.cancel_code_panics]), which ends the process: runs that get there
    are not part of the system. *)
Definition valid (o : op) (c : Conn) : Prop :=
  match o with
  | OpFrame _ f => c_closeErr c = None /\ frame_parsed f /\ is_varint (zlen (frame_data f))
  | OpRead p _ | OpPeek p _ | OpReadDeadline p _ => holds_recv c p
  | OpCancelRead p code => holds_recv c p /\ is_varint code
  | OpTrySend _ p | OpFinish p | OpWriteDeadline p _ | OpPriority p _ _ => holds_send c p
  | OpReserve p n => holds_send c p /\ 0 <= n < 2 ^ 63
  | OpCancelWrite p code => holds_send c p /\ is_varint code
  | _ => True
  end.

Section system.
Context {GA : GoAppend}.

Definition exec (o : op) (c : Conn) : Conn :=
  match o with
  | OpFrame now f => snd (handleFrameLocked now f c)
  | OpOpen d => snd (tryOpen d c)
  | OpAccept d => snd (tryAccept d c)
  | OpRead p n => snd (tryRead p n c)
  | OpPeek p n => snd (tryPeek p n c)
  | OpCancelRead p code => cancelRead p code c
  | OpReadDeadline p t => setReadDeadline p t c
  | OpTrySend now p => snd (trySend now p c)
  | OpReserve p n => snd (reserve p n c)
  | OpFinish p => snd (finish p c)
  | OpCancelWrite p code => cancelWrite p code c
  | OpWriteDeadline p t => setWriteDeadline p t c
  | OpPriority p u i => setPriority p u i c
  | OpReceiveDatagram => snd (tryReceiveDatagram c)
  | OpRequestPing now => snd (requestPing now c)
  | OpTakeControl now => snd (takeControl now c)
  | OpTerminate e => snd (terminate e c)
  | OpSent now n => record_sent now n c
  | OpReceived now n => record_received now n c
  | OpWoken => take_wake c
  end.

(** The connection is within what QUIC's 62-bit offsets and 60-bit stream
    counts can express: with the default windows, it has received less than
    4 EiB, the peer has completed fewer than 2^60 streams of a kind, and fewer
    than 2^62 pings were sent. *)
Definition in_range (c : Conn) : Prop :=
  c_received c + InitialConnectionReceiveWindow (c_config c) +
    InitialStreamReceiveWindow (c_config c) <= varint_max /\
  i_max (c_inBidi c) <= 2 ^ 60 /\ i_max (c_inUni c) <= 2 ^ 60 /\
  c_nextPing c <= varint_max.

(** The states of a connection with the configuration [cfg]. *)
Inductive reach (cfg : Config) (isServer : bool) : Conn -> Prop :=
| reach_init now : reach cfg isServer (newConn cfg isServer now)
| reach_step o c :
    reach cfg isServer c -> in_range c -> valid o c -> reach cfg isServer (exec o c).
End system.
