(* ===== verification/Facts.v ===== *)
(** Facts that the invariants of the connection share: lookups in the heap of
    streams after an update, normal forms of the conditional operations as
    chains of field updates, and the notion of an operation that touches one
    stream only. *)

From S2P Require Import Prelude Varint Params Frame WriteLock Config State Core Stream Conn System.

(** * The heap *)

Section heap.
Implicit Types (c : Conn) (s : stream) (p q : nat).

Lemma heap_lookup c p : (p < length (c_heap c))%nat -> c_heap c !! p = Some (deref c p).
Proof. intros H. by apply list_lookup_lookup_total_lt. Qed.

Lemma deref_lookup c p s : c_heap c !! p = Some s -> deref c p = s.
Proof. intros H. by apply list_lookup_total_correct. Qed.

Lemma heap_elem c p : (p < length (c_heap c))%nat -> deref c p ∈ c_heap c.
Proof. intros H. by apply list_elem_of_lookup_2 with p, heap_lookup. Qed.

(** Writing back the same view of a stream does not change the view of the
    heap. *)
Lemma fmap_insert_same {T} (g : stream -> T) (l : list stream) p s :
  g s = g (l !!! p) -> g <$> <[p := s]> l = g <$> l.
Proof.
  intros H. rewrite list_fmap_insert. destruct (decide (p < length l)%nat) as [Hp|Hp].
  - apply list_insert_id. rewrite list_lookup_fmap, (list_lookup_lookup_total_lt l p) by done.
    simpl. by f_equal.
  - apply list_insert_ge. rewrite length_fmap. lia.
Qed.

Lemma insert_lookup_total_eq (l : list stream) p s :
  (p < length l)%nat -> <[p := s]> l !!! p = s.
Proof. intros. by apply list_lookup_total_insert_eq. Qed.

Lemma insert_lookup_total_ne (l : list stream) p q s :
  p <> q -> <[p := s]> l !!! q = l !!! q.
Proof. intros. by apply list_lookup_total_insert_ne. Qed.

Lemma insert_same (l : list stream) p : <[p := l !!! p]> l = l.
Proof.
  destruct (decide (p < length l)%nat).
  - by apply list_insert_id, list_lookup_lookup_total_lt.
  - apply list_insert_ge. lia.
Qed.

Lemma deref_upd c p f : (p < length (c_heap c))%nat -> deref (upd p f c) p = f (deref c p).
Proof. intros. unfold deref, upd. simpl. by apply insert_lookup_total_eq. Qed.
End heap.

(** [c'] differs from [c] in the stream [p] at most, as far as the heap is
    concerned. *)
Definition only (p : nat) (c c' : Conn) : Prop :=
  c_heap c' = <[p := deref c' p]> (c_heap c).

Lemma only_refl p c : only p c c.
Proof. unfold only, deref. by rewrite insert_same. Qed.

Lemma only_length p c c' : only p c c' -> length (c_heap c') = length (c_heap c).
Proof. intros H. rewrite H. apply length_insert. Qed.

Lemma only_trans p c1 c2 c3 : only p c1 c2 -> only p c2 c3 -> only p c1 c3.
Proof.
  unfold only. intros H1 H2. rewrite H2, H1 at 1. by rewrite list_insert_insert_eq.
Qed.

Lemma only_insert p c c' s : c_heap c' = <[p := s]> (c_heap c) -> only p c c'.
Proof.
  intros H. unfold only, deref. rewrite H.
  destruct (decide (p < length (c_heap c))%nat) as [Hp|Hp].
  - by rewrite insert_lookup_total_eq.
  - rewrite !list_insert_ge by (rewrite ?list_insert_ge by lia; lia). done.
Qed.

Lemma only_heap_eq p c c' : c_heap c' = c_heap c -> only p c c'.
Proof. intros H. apply (only_insert _ _ _ (deref c p)). unfold deref. by rewrite insert_same. Qed.

Lemma only_upd p f c : only p c (upd p f c).
Proof. by apply only_insert with (f (deref c p)). Qed.

(** * Normal forms *)

(** The condition under which [completeLocked] forgets a stream, and the
    stream it leaves behind. *)
Definition completing (s : stream) : bool :=
  negb (s_done s || negb (s_accepted s) || negb (recvDone s) || negb (sendDone s)).
Definition completed (s : stream) : stream :=
  set_s_cap 0 (set_s_rbuf [] (set_s_done true s)).

Lemma completing_true s :
  completing s = true <->
  s_done s = false /\ s_accepted s = true /\ recvDone s = true /\ sendDone s = true.
Proof.
  unfold completing. destruct (s_done s), (s_accepted s), (recvDone s), (sendDone s); simpl; intuition congruence.
Qed.

(** The incoming streams of direction [d] after the stream [s] completes. *)
Definition complete_in (d : dir) (s : stream) (c : Conn) : incoming :=
  let i := c_in d c in
  if completing s && negb (initiatedLocally c (s_id s)) && bool_decide (streamDir (s_id s) = d)
  then mkIncoming (i_next i) (u64 (i_max i + 1)) true (i_queue i) (i_signal i) else i.

Lemma completeLocked_eq p c :
  completeLocked p c =
  let s := deref c p in
  let k := completing s in
  set_c_heap (if k then <[p := completed s]> (c_heap c) else c_heap c)
  (set_c_streams (if k then delete (s_id s) (c_streams c) else c_streams c)
  (set_c_inBidi (complete_in dirBidi s c)
  (set_c_inUni (complete_in dirUni s c)
  (set_c_controlWake (if k && negb (initiatedLocally c (s_id s)) then true else c_controlWake c) c)))).
Proof.
  unfold completeLocked, complete_in, completing, completed, upd, initiatedLocally.
  destruct (s_done (deref c p)); [by destruct c|].
  destruct (negb (s_accepted (deref c p))); [by destruct c|].
  destruct (negb (recvDone (deref c p))); [by destruct c|].
  destruct (negb (sendDone (deref c p))); [by destruct c|]. simpl.
  destruct (negb _); simpl; [|by destruct c]. by destruct (streamDir _); destruct c.
Qed.

Lemma stream_cancel_eq p cause c :
  stream_cancel p cause c =
  let s := deref c p in
  let k := s_canSend s && bool_decide (stream_cause c s = None) in
  set_c_heap (<[p := set_s_cause (if k then Some (default ErrCanceled cause) else s_cause s) s]> (c_heap c))
  (set_c_panicked (negb (s_canSend s) || c_panicked c) c).
Proof.
  assert (Hid : forall s, set_s_cause (s_cause s) s = s) by (by intros []).
  unfold stream_cancel, upd. simpl. destruct (s_canSend (deref c p)); simpl.
  - destruct (stream_cause c (deref c p)); simpl; [|by destruct c].
    rewrite Hid. unfold deref. rewrite insert_same. by destruct c.
  - rewrite Hid. unfold deref. rewrite insert_same. by destruct c.
Qed.

Lemma close_handshake_eq c :
  close_handshake c = set_c_handshake true (set_c_panicked (c_handshake c || c_panicked c) c).
Proof. unfold close_handshake. destruct c. simpl. by destruct c_handshake. Qed.

Lemma conn_cancel_eq e c :
  conn_cancel e c = set_c_cause (Some (default e (c_cause c))) c.
Proof. unfold conn_cancel. destruct c. simpl. by destruct c_cause. Qed.

Lemma only_complete p c : only p c (completeLocked p c).
Proof.
  rewrite completeLocked_eq. simpl. destruct (completing (deref c p)).
  - by apply only_insert with (completed (deref c p)).
  - by apply only_heap_eq.
Qed.

Lemma only_cancel p cause c : only p c (stream_cancel p cause c).
Proof. rewrite stream_cancel_eq. simpl. eapply only_insert. simpl. done. Qed.

Lemma deref_complete p c :
  (p < length (c_heap c))%nat ->
  deref (completeLocked p c) p = if completing (deref c p) then completed (deref c p) else deref c p.
Proof.
  intros Hp. rewrite completeLocked_eq. unfold deref at 1. simpl.
  destruct (completing (deref c p)); [by apply insert_lookup_total_eq|done].
Qed.

(** The idle timeout after the peer's parameters [p]. *)
Definition negotiated_idle (p : Parameters) (c : Conn) : Z :=
  if (0 <? MaxIdleTimeout p) && (MaxIdleTimeout p <=? Z.quot maxIdleTimeout Millisecond) &&
     ((c_idleTimeout c =? 0) || (i64 (MaxIdleTimeout p * Millisecond) <? c_idleTimeout c))
  then i64 (MaxIdleTimeout p * Millisecond) else c_idleTimeout c.

Lemma handleParametersLocked_eq p c :
  handleParametersLocked p c =
  let c0 := set_c_ready true (set_c_peer p (set_c_sendMax (InitialMaxData p)
    (set_c_outBidi (mkOutgoing (o_next (c_outBidi c)) (InitialMaxStreamsBidi p) (o_signal (c_outBidi c)))
    (set_c_outUni (mkOutgoing (o_next (c_outUni c)) (InitialMaxStreamsUni p) (o_signal (c_outUni c)))
    (set_c_idleTimeout (negotiated_idle p c)
    (set_c_handshake true (set_c_panicked (c_handshake c || c_panicked c) c))))))) in
  broadcast_out dirUni (broadcast_out dirBidi (broadcast_send c0)).
Proof.
  unfold handleParametersLocked. rewrite close_handshake_eq. simpl. unfold negotiated_idle.
  destruct (_ && _); simpl; [|by destruct c]. destruct (_ || _); by destruct c.
Qed.

(** [takeControl] takes everything that is pending, and leaves nothing. *)
Definition taken (i : incoming) : incoming :=
  mkIncoming (i_next i) (i_max i) false (i_queue i) (i_signal i).

Definition when {A} (b : bool) (x : A) : list A := if b then [x] else [].

Lemma takeControl_eq now c :
  c_closeErr c = None ->
  takeControl now c =
  (c_control c ++ when (c_maxDataPending c) (MaxData (c_recvMax c)) ++
   when (i_pending (c_inBidi c)) (MaxStreams false (i_max (c_inBidi c))) ++
   when (i_pending (c_inUni c)) (MaxStreams true (i_max (c_inUni c))) ++
   when (c_pongPending c) (Ping true (c_pongSequence c)) ++
   when (c_pingPending c) (Ping false (c_nextPing c)),
   set_c_control [] (set_c_maxDataPending false
   (set_c_inBidi (taken (c_inBidi c)) (set_c_inUni (taken (c_inUni c))
   (set_c_pongPending false (set_c_pingPending false
   (set_c_nextPing (if c_pingPending c then u64 (c_nextPing c + 1) else c_nextPing c)
   (set_c_pingSentAt (if c_pingPending c then now else c_pingSentAt c)
   (set_c_pingUnanswered (c_pingPending c || c_pingUnanswered c)
   (set_c_pingUnansweredAt (if c_pingPending c && negb (c_pingUnanswered c) then now
      else c_pingUnansweredAt c) c)))))))))).
Proof.
  intros E. unfold takeControl. rewrite E. destruct c. simpl in *. subst.
  destruct c_inBidi as [? ? [] ? ?], c_inUni as [? ? [] ? ?], c_maxDataPending, c_pongPending,
    c_pingPending, c_pingUnanswered; reflexivity.
Qed.
