(* ===== verification/Ids.v ===== *)
(** Stream identifiers and the life of stream objects.

    [ids_inv] is the invariant of the connection's table of streams: every
    stream object has its own identifier, whose two low bits say who opened
    it and whether it is unidirectional; while the connection is open the
    table holds exactly the streams that are not done; the accept queues hold
    exactly the streams that the application has not accepted; and the stream
    limits count what was opened and completed. *)

From S2P Require Import Prelude Varint Params Frame WriteLock Config State Core Stream Conn System Facts.

(** * The arithmetic of identifiers *)

Lemma land_low x k : Z.land x (Z.land 3 k) = Z.land (x mod 4) k.
Proof. rewrite Z.land_assoc. by change 3 with (Z.ones 2); rewrite Z.land_ones by lia. Qed.

Lemma land_1 x : Z.land x 1 = Z.land (x mod 4) 1.
Proof. exact (land_low x 1). Qed.

Lemma land_2 x : Z.land x 2 = Z.land (x mod 4) 2.
Proof. exact (land_low x 2). Qed.

Lemma lor_add x k : Z.land x k = 0 -> Z.lor x k = x + k.
Proof. intros H. by rewrite Z.add_nocarry_lxor, Z.lxor_lor. Qed.

Lemma low_cases x : x mod 4 = 0 \/ x mod 4 = 1 \/ x mod 4 = 2 \/ x mod 4 = 3.
Proof. pose proof (Z.mod_pos_bound x 4). lia. Qed.

(** The identifier of the stream [index] as a sum. *)
Lemma streamID_sum c index d local :
  0 <= index < 2 ^ 60 ->
  streamID c index d local =
  4 * index + (if decide (d = dirUni) then 2 else 0) +
    (if Bool.eqb local (c_isServer c) then 1 else 0).
Proof.
  intros H. unfold streamID. rewrite Z.shiftl_mul_pow2 by lia.
  rewrite u64_id by (unfold is_u64; lia). change (2 ^ 2) with 4. rewrite (Z.mul_comm index 4).
  assert (H2 : Z.land (4 * index) 2 = 0).
  { rewrite land_2. by rewrite Z.mul_comm, Z.mod_mul. }
  assert (H1 : Z.land (4 * index + (if decide (d = dirUni) then 2 else 0)) 1 = 0).
  { rewrite land_1. rewrite Z.add_comm, Z.mul_comm, Z.mod_add by lia.
    by destruct (decide _). }
  destruct (decide (d = dirUni)).
  - rewrite (lor_add (4 * index) 2) by done. destruct (Bool.eqb _ _); [rewrite lor_add by done; lia|lia].
  - rewrite Z.add_0_r in *. destruct (Bool.eqb _ _); [rewrite lor_add by done; lia|lia].
Qed.

Lemma streamDir_mod id : streamDir id = if 2 <=? id mod 4 then dirUni else dirBidi.
Proof.
  unfold streamDir. rewrite land_2. by destruct (low_cases id) as [-> | [-> | [-> | ->]]].
Qed.

Lemma initiatedLocally_mod c id :
  initiatedLocally c id = Bool.eqb (id mod 4 mod 2 =? 1) (c_isServer c).
Proof.
  unfold initiatedLocally. rewrite land_1.
  by destruct (low_cases id) as [-> | [-> | [-> | ->]]].
Qed.

(** The parts of an identifier that [streamID] put together. *)
Lemma streamID_parts c index d local :
  0 <= index < 2 ^ 60 ->
  let id := streamID c index d local in
  0 <= id < 2 ^ 62 /\ initiatedLocally c id = local /\ streamDir id = d /\ Z.shiftr id 2 = index.
Proof.
  intros H id. subst id. rewrite streamID_sum by done.
  set (u := if decide (d = dirUni) then 2 else 0).
  set (l := if Bool.eqb local (c_isServer c) then 1 else 0).
  assert (Hu : u = 0 \/ u = 2) by (subst u; destruct (decide _); lia).
  assert (Hl : l = 0 \/ l = 1) by (subst l; destruct (Bool.eqb _ _); lia).
  assert (Hm : (4 * index + u + l) mod 4 = u + l).
  { rewrite <- Z.add_assoc, Z.add_comm, Z.mul_comm, Z.mod_add by lia. apply Z.mod_small. lia. }
  split; [lia|]. rewrite initiatedLocally_mod, streamDir_mod, Hm. split_and!.
  - subst u l. destruct (decide _), local, (c_isServer c); done.
  - subst u l. destruct d, (Bool.eqb _ _); done.
  - rewrite Z.shiftr_div_pow2 by lia. change (2 ^ 2) with 4.
    symmetry. apply (Z.div_unique _ _ _ (u + l)); lia.
Qed.

(** Every identifier is the one of its index, direction and initiator. *)
Lemma streamID_of_id c id :
  0 <= id < 2 ^ 62 -> id = streamID c (Z.shiftr id 2) (streamDir id) (initiatedLocally c id).
Proof.
  intros H. rewrite Z.shiftr_div_pow2 by lia. change (2 ^ 2) with 4.
  assert (0 <= id / 4 < 2 ^ 60)
    by (split; [apply Z.div_pos; lia|apply Z.div_lt_upper_bound; lia]).
  rewrite streamID_sum by done. rewrite initiatedLocally_mod, streamDir_mod.
  pose proof (Z.div_mod id 4).
  destruct (low_cases id) as [E | [E | [E | E]]]; rewrite E in *; destruct (c_isServer c); simpl; lia.
Qed.

Lemma index_range id : 0 <= id < 2 ^ 62 -> 0 <= Z.shiftr id 2 < 2 ^ 60.
Proof.
  intros H. rewrite Z.shiftr_div_pow2 by lia. change (2 ^ 2) with 4.
  split; [apply Z.div_pos; lia|apply Z.div_lt_upper_bound; lia].
Qed.

(** * The invariant *)

(** What a stream may do follows from its identifier. *)
Definition can_recv (c : Conn) (id : Z) : bool :=
  negb (bool_decide (streamDir id = dirUni)) || negb (initiatedLocally c id).
Definition can_send (c : Conn) (id : Z) : bool :=
  negb (bool_decide (streamDir id = dirUni)) || initiatedLocally c id.

(** [s] is a stream of direction [d] that the peer opened. *)
Definition remote (c : Conn) (d : dir) (s : stream) : bool :=
  negb (initiatedLocally c (s_id s)) && bool_decide (streamDir (s_id s) = d).

Definition b2n (b : bool) : Z := if b then 1 else 0.

Lemma b2n_nonneg b : 0 <= b2n b.
Proof. by destruct b. Qed.

(** How many streams of direction [d] the peer has opened, and how many of
    them are done. *)
Definition opened (c : Conn) (d : dir) : Z := sumZ (fun s => b2n (remote c d s)) (c_heap c).
Definition finished (c : Conn) (d : dir) : Z :=
  sumZ (fun s => b2n (remote c d s && s_done s)) (c_heap c).

(** The number of streams of a kind the configuration lets the peer have open. *)
Definition cfg_streams (cfg : Config) (d : dir) : Z :=
  match d with dirBidi => MaxIncomingStreams cfg | dirUni => MaxIncomingUniStreams cfg end.

(** The count that bounds the index of a stream. *)
Definition next_index (c : Conn) (id : Z) : Z :=
  if initiatedLocally c id then o_next (c_out (streamDir id) c) else i_next (c_in (streamDir id) c).

Record stream_id_ok (c : Conn) (s : stream) : Prop := {
  sid_range : 0 <= s_id s < 2 ^ 62;
  sid_recv : s_canRecv s = can_recv c (s_id s);
  sid_send : s_canSend s = can_send c (s_id s);
  sid_index : Z.shiftr (s_id s) 2 < next_index c (s_id s);
  sid_local : initiatedLocally c (s_id s) = true -> s_accepted s = true;
  sid_done : s_done s = true -> s_accepted s = true;
}.

Abbreviation ptr c p := ((p < length (c_heap c))%nat).

Record ids_inv (c : Conn) : Prop := {
  id_cfg : config_ok (c_config c);
  id_stream p : ptr c p -> stream_id_ok c (deref c p);
  id_nodup : NoDup (s_id <$> c_heap c);
  id_out d : 0 <= o_next (c_out d c) <= o_max (c_out d c) /\ o_max (c_out d c) <= 2 ^ 60;
  id_in d : 0 <= i_next (c_in d c) <= 2 ^ 60 /\ i_next (c_in d c) <= i_max (c_in d c);
  id_streams : c_closeErr c = None -> forall id p,
    c_streams c !! id = Some p <->
    ptr c p /\ s_id (deref c p) = id /\ s_done (deref c p) = false;
  id_closed : c_closeErr c <> None -> c_streams c = ∅;
  id_queue d p : p ∈ i_queue (c_in d c) <->
    ptr c p /\ remote c d (deref c p) = true /\ s_accepted (deref c p) = false;
  id_queue_nodup d : NoDup (i_queue (c_in d c));
  id_opened d : i_next (c_in d c) = opened c d;
  id_max d : i_max (c_in d c) = cfg_streams (c_config c) d + finished c d;
  id_ready : c_ready c = false -> c_heap c = [] /\ forall d, o_max (c_out d c) = 0;
}.

(** * Operations that leave the table alone *)

(** The part of the state that [ids_inv] speaks of. *)
Definition iview (s : stream) := (s_id s, s_accepted s, s_done s, s_canRecv s, s_canSend s).
Definition oview (o : outgoing) := (o_next o, o_max o).
Definition nview (i : incoming) := (i_next i, i_max i, i_queue i).
Definition iv (c : Conn) :=
  (c_config c, c_isServer c, c_closeErr c, c_ready c, c_streams c,
   (oview (c_outBidi c), oview (c_outUni c)), (nview (c_inBidi c), nview (c_inUni c)),
   iview <$> c_heap c).

Lemma iview_heap c c' :
  iview <$> c_heap c' = iview <$> c_heap c ->
  length (c_heap c') = length (c_heap c) /\ forall p, iview (deref c' p) = iview (deref c p).
Proof.
  intros H. assert (Hl : length (c_heap c') = length (c_heap c))
    by (rewrite <- (length_fmap iview), H, length_fmap; done).
  split; [done|]. intros p. destruct (decide (ptr c p)) as [Hp|Hp].
  - assert (Hp' : (iview <$> c_heap c') !! p = (iview <$> c_heap c) !! p) by (by rewrite H).
    rewrite !list_lookup_fmap, !heap_lookup in Hp' by lia. simpl in Hp'. congruence.
  - unfold deref. rewrite !list_lookup_total_alt, !lookup_ge_None_2 by lia. done.
Qed.

(** Sums of a function of the view agree on heaps with the same view. *)
Lemma sumZ_view {T} (g : stream -> T) (f f' : stream -> Z) (l l' : list stream) :
  g <$> l' = g <$> l -> (forall s s', g s' = g s -> f' s' = f s) -> sumZ f' l' = sumZ f l.
Proof.
  intros E Hf. revert l' E. induction l as [|s l IH]; intros [|s' l'] E; try done.
  csimpl in E. injection E as Es El. rewrite !sumZ_cons. by rewrite (Hf _ _ Es), (IH _ El).
Qed.

(** The table survives a transition that keeps the streams and what the peer
    may open; the limits on what this endpoint may open can move, and the
    connection can end. *)
Lemma ids_transfer c c' :
  c_config c' = c_config c -> c_isServer c' = c_isServer c ->
  iview <$> c_heap c' = iview <$> c_heap c ->
  (forall d, nview (c_in d c') = nview (c_in d c)) ->
  (forall d, o_next (c_out d c') = o_next (c_out d c)) ->
  (forall d, o_next (c_out d c) <= o_max (c_out d c') <= 2 ^ 60) ->
  (c_ready c' = false -> c_ready c = false /\ forall d, o_max (c_out d c') = o_max (c_out d c)) ->
  (c_closeErr c' = c_closeErr c /\ c_streams c' = c_streams c \/
   c_closeErr c' <> None /\ c_streams c' = ∅) ->
  ids_inv c -> ids_inv c'.
Proof.
  intros Ecfg Esrv Eh Ein Hout Hmax Erd Est H.
  destruct (iview_heap _ _ Eh) as [Hl Hv].
  assert (Hin : forall d, i_next (c_in d c') = i_next (c_in d c) /\ i_max (c_in d c') = i_max (c_in d c) /\
                          i_queue (c_in d c') = i_queue (c_in d c)).
  { intros d. specialize (Ein d). unfold nview in Ein. by injection Ein. }
  assert (Hloc : forall id, initiatedLocally c' id = initiatedLocally c id)
    by (intros; unfold initiatedLocally; by rewrite Esrv).
  assert (Hrem : forall d s s', s_id s = s_id s' -> remote c' d s = remote c d s')
    by (intros d s s' Hs; unfold remote; by rewrite Hloc, Hs).
  assert (Hn : forall id, next_index c' id = next_index c id).
  { intros id. unfold next_index. rewrite Hloc. destruct (initiatedLocally c id); [apply Hout|apply Hin]. }
  destruct H as [I1 I2 I3 I4 I5 I6 I7 I8 I9 I10 I11 I12]. split.
  - by rewrite Ecfg.
  - intros p Hp. rewrite Hl in Hp. destruct (I2 p Hp) as [A1 A2 A3 A4 A5 A6].
    specialize (Hv p). unfold iview in Hv. injection Hv as V1 V2 V3 V4 V5.
    split; rewrite ?V1, ?V2, ?V3, ?V4, ?V5, ?Hn, ?Hloc; try done.
    + unfold can_recv. by rewrite Hloc.
    + unfold can_send. by rewrite Hloc.
  - assert (Hid : s_id <$> c_heap c' = s_id <$> c_heap c); [|by rewrite Hid].
    apply (f_equal (fmap (fun v => v.1.1.1.1))) in Eh. by rewrite <- !list_fmap_compose in Eh.
  - intros d. rewrite Hout. specialize (Hmax d). specialize (I4 d). lia.
  - intros d. destruct (Hin d) as (-> & -> & _). apply I5.
  - destruct Est as [[Ecl Est] | [Ecl _]]; [|done]. rewrite Ecl, Est, Hl. intros Hc id p.
    rewrite (I6 Hc id p).
    specialize (Hv p). unfold iview in Hv. injection Hv as V1 V2 V3 V4 V5. by rewrite V1, V3.
  - destruct Est as [[-> ->] | [_ ->]]; [done|done].
  - intros d p. destruct (Hin d) as (_ & _ & ->). rewrite (I8 d p), Hl.
    specialize (Hv p). unfold iview in Hv. injection Hv as V1 V2 V3 V4 V5.
    by rewrite (Hrem d _ _ V1), V2.
  - intros d. destruct (Hin d) as (_ & _ & ->). apply I9.
  - intros d. destruct (Hin d) as (-> & _ & _). rewrite I10. unfold opened.
    symmetry. apply (sumZ_view iview); [done|]. intros s s' Hs. f_equal. apply Hrem.
    unfold iview in Hs. congruence.
  - intros d. destruct (Hin d) as (_ & -> & _). rewrite I11, Ecfg. f_equal. unfold finished.
    symmetry. apply (sumZ_view iview); [done|]. intros s s' Hs. unfold iview in Hs.
    injection Hs as V1 V2 V3 V4 V5. by rewrite (Hrem d _ _ V1), V3.
  - intros Hr. destruct (Erd Hr) as [Hr0 Hm]. destruct (I12 Hr0) as [Hnil Ho]. split.
    + apply length_zero_iff_nil. by rewrite Hl, Hnil.
    + intros d. rewrite Hm. apply Ho.
Qed.

Lemma ids_same c c' : iv c' = iv c -> ids_inv c -> ids_inv c'.
Proof.
  unfold iv, oview, nview. intros E H. simplify_eq.
  eapply ids_transfer; try done; try congruence.
  - intros []; unfold nview; simpl; congruence.
  - intros []; simpl; congruence.
  - intros d. pose proof (id_out _ H d). by destruct d; simpl in *; lia.
  - intros Hr. split; [congruence|]. intros []; simpl; congruence.
  - left. done.
Qed.

(** * A new stream *)

Section grow.
Context (c c' : Conn) (s : stream) (local : bool) (d : dir).
Hypothesis (Hinv : ids_inv c) (Hopen : c_closeErr c = None).
Abbreviation index := (if local then o_next (c_out d c) else i_next (c_in d c)).
Hypothesis (Hid : s_id s = streamID c index d local).
Hypothesis (Hlimit : if local then o_next (c_out d c) < o_max (c_out d c)
  else i_next (c_in d c) < i_max (c_in d c) /\ i_next (c_in d c) < 2 ^ 60).
Hypothesis (Hdone : s_done s = false) (Hacc : s_accepted s = local)
  (Hrecv : s_canRecv s = can_recv c (s_id s)) (Hsend : s_canSend s = can_send c (s_id s)).
Hypothesis (Ecfg : c_config c' = c_config c) (Esrv : c_isServer c' = c_isServer c)
  (Ecl : c_closeErr c' = None) (Erd : c_ready c' = true)
  (Eheap : c_heap c' = c_heap c ++ [s])
  (Est : c_streams c' = <[s_id s := length (c_heap c)]> (c_streams c)).
Hypothesis (Eout : forall d', o_next (c_out d' c') =
    o_next (c_out d' c) + b2n (local && bool_decide (d' = d)) /\
  o_max (c_out d' c') = o_max (c_out d' c)).
Hypothesis (Ein : forall d', i_next (c_in d' c') =
    i_next (c_in d' c) + b2n (negb local && bool_decide (d' = d)) /\
  i_max (c_in d' c') = i_max (c_in d' c) /\
  i_queue (c_in d' c') =
    i_queue (c_in d' c) ++ (if negb local && bool_decide (d' = d) then [length (c_heap c)] else [])).

Lemma grow_index : 0 <= index < 2 ^ 60.
Proof using All.
  pose proof (id_out _ Hinv d). pose proof (id_in _ Hinv d). destruct local; lia.
Qed.

Lemma grow_local id : initiatedLocally c' id = initiatedLocally c id.
Proof using All. unfold initiatedLocally. by rewrite Esrv. Qed.

Lemma grow_old p : ptr c p -> deref c' p = deref c p.
Proof using All. intros Hp. unfold deref. by rewrite Eheap, lookup_total_app_l. Qed.

Lemma grow_new : deref c' (length (c_heap c)) = s.
Proof using All. unfold deref. rewrite Eheap. by apply list_lookup_total_middle. Qed.

Lemma grow_ptr p : ptr c' p <-> ptr c p \/ p = length (c_heap c).
Proof using All. rewrite Eheap, length_app. simpl. lia. Qed.

Lemma grow_next id : next_index c id <= next_index c' id.
Proof using All.
  unfold next_index. rewrite grow_local. destruct (initiatedLocally c id).
  - destruct (Eout (streamDir id)) as [-> _]. unfold b2n. destruct (_ && _); lia.
  - destruct (Ein (streamDir id)) as [-> _]. unfold b2n. destruct (_ && _); lia.
Qed.

Lemma grow_parts :
  0 <= s_id s < 2 ^ 62 /\ initiatedLocally c (s_id s) = local /\ streamDir (s_id s) = d /\
  Z.shiftr (s_id s) 2 = index.
Proof using All. rewrite Hid. apply streamID_parts, grow_index. Qed.

(** The new identifier is not in use: its index is one past the others. *)
Lemma grow_fresh p : ptr c p -> s_id (deref c p) <> s_id s.
Proof using All.
  intros Hp E. destruct (id_stream _ Hinv p Hp) as [_ _ _ Hidx _ _].
  destruct grow_parts as (_ & Hl & Hd & Hi). rewrite E in Hidx. unfold next_index in Hidx.
  rewrite Hl, Hd, Hi in Hidx. destruct local; lia.
Qed.

Lemma grow_remote d' x : remote c' d' x = remote c d' x.
Proof using All. unfold remote. by rewrite grow_local. Qed.

Lemma grow_remote_new d' : remote c d' s = negb local && bool_decide (d' = d).
Proof using All.
  destruct grow_parts as (_ & Hl & Hd & _). unfold remote. rewrite Hl, Hd. f_equal.
  by apply bool_decide_ext.
Qed.

Lemma grow_stream p : ptr c' p -> stream_id_ok c' (deref c' p).
Proof using All.
  pose proof grow_parts as (Hr & Hl & Hd & Hi). intros [Hp | ->]%grow_ptr.
  - rewrite grow_old by done. destruct (id_stream _ Hinv p Hp) as [A1 A2 A3 A4 A5 A6].
    split; rewrite ?grow_local; try done.
    + unfold can_recv. by rewrite grow_local.
    + unfold can_send. by rewrite grow_local.
    + eapply Z.lt_le_trans; [exact A4|apply grow_next].
  - rewrite grow_new. split; try done.
    + rewrite Hrecv. unfold can_recv. by rewrite grow_local.
    + rewrite Hsend. unfold can_send. by rewrite grow_local.
    + rewrite Hi. unfold next_index. rewrite grow_local, Hl, Hd. destruct local eqn:El.
      * destruct (Eout d) as [-> _]. rewrite bool_decide_eq_true_2 by done. simpl. lia.
      * destruct (Ein d) as [-> _]. rewrite bool_decide_eq_true_2 by done. simpl. lia.
    + rewrite grow_local, Hl. congruence.
    + congruence.
Qed.

Lemma grow_streams id p :
  c_streams c' !! id = Some p <-> ptr c' p /\ s_id (deref c' p) = id /\ s_done (deref c' p) = false.
Proof using All.
  rewrite Est. pose proof (id_streams _ Hinv Hopen id p) as I6. rewrite grow_ptr.
  destruct (decide (id = s_id s)) as [->|Hne].
  - rewrite lookup_insert_eq. split.
    + intros E. injection E as <-. rewrite grow_new. split; [by right|done].
    + intros ([Hp | ->] & Hs & _); [|done]. rewrite grow_old in Hs by done.
      by apply grow_fresh in Hs.
  - rewrite lookup_insert_ne by done. rewrite I6. split.
    + intros (Hp & Hs & Hdn). rewrite grow_old by done. auto.
    + intros ([Hp | ->] & Hs & Hdn).
      * by rewrite grow_old in * by done.
      * rewrite grow_new in Hs. congruence.
Qed.

Lemma grow_queue d' p :
  p ∈ i_queue (c_in d' c') <-> ptr c' p /\ remote c' d' (deref c' p) = true /\ s_accepted (deref c' p) = false.
Proof using All.
  destruct (Ein d') as (_ & _ & ->). rewrite elem_of_app, (id_queue _ Hinv d' p), grow_ptr. split.
  - intros [(Hp & Hrm & Ha)|Hin].
    + rewrite grow_old, grow_remote by done. auto.
    + destruct (negb local && _) eqn:Eb; [|by apply not_elem_of_nil in Hin].
      apply list_elem_of_singleton in Hin as ->. rewrite grow_new, grow_remote, grow_remote_new.
      split_and!; [by right|done|]. destruct local; [done|congruence].
  - intros ([Hp | ->] & Hrm & Ha).
    + left. rewrite grow_old, grow_remote in * by done. auto.
    + right. rewrite grow_new, grow_remote, grow_remote_new in Hrm. rewrite Hrm. by left.
Qed.

Lemma ids_grow : ids_inv c'.
Proof using All.
  destruct Hinv as [I1 I2 I3 I4 I5 I6 I7 I8 I9 I10 I11 I12]. split.
  - by rewrite Ecfg.
  - apply grow_stream.
  - rewrite Eheap, fmap_app. apply list.NoDup_app. split_and!; [done| |apply NoDup_singleton].
    intros x (y & -> & Hy)%list_elem_of_fmap Hx'. simpl in Hx'. apply list_elem_of_singleton in Hx'.
    apply list_elem_of_lookup_total_1 in Hy as (q & Hq & <-). by apply (grow_fresh q Hq).
  - intros d'. destruct (Eout d') as [-> ->]. specialize (I4 d'). unfold b2n.
    destruct local; simpl; [|lia]. case_bool_decide; subst; lia.
  - intros d'. destruct (Ein d') as (-> & -> & _). specialize (I5 d'). unfold b2n.
    destruct local; simpl; [lia|]. case_bool_decide; subst; lia.
  - intros _. apply grow_streams.
  - congruence.
  - apply grow_queue.
  - intros d'. destruct (Ein d') as (_ & _ & ->). destruct (negb local && _); [|by rewrite app_nil_r].
    apply list.NoDup_app. split_and!; [done| |apply NoDup_singleton].
    intros q Hq Hq'. apply list_elem_of_singleton in Hq' as ->. apply I8 in Hq as [Hlt _]. lia.
  - intros d'. destruct (Ein d') as (-> & _ & _). rewrite I10. unfold opened.
    rewrite Eheap, sumZ_app, sumZ_cons, sumZ_nil. rewrite grow_remote, grow_remote_new, Z.add_0_r.
    f_equal. apply (sumZ_view id); [done|]. intros x y E. simpl in E. by rewrite grow_remote, E.
  - intros d'. destruct (Ein d') as (_ & -> & _). rewrite I11, Ecfg. f_equal. unfold finished.
    rewrite Eheap, sumZ_app, sumZ_cons, sumZ_nil. rewrite Hdone, andb_false_r. simpl.
    rewrite Z.add_0_r.
    apply (sumZ_view id); [done|]. intros x y E. simpl in E. by rewrite grow_remote, E.
  - congruence.
Qed.
End grow.

(** * Accepting and completing a stream *)

Section touch.
Context (c c' : Conn) (p : nat) (s' : stream).
Abbreviation s := (deref c p).
Hypothesis (Hinv : ids_inv c) (Hp : ptr c p).
Hypothesis (Hid : s_id s' = s_id s) (Hrecv : s_canRecv s' = s_canRecv s)
  (Hsend : s_canSend s' = s_canSend s) (Hacc : s_accepted s = true -> s_accepted s' = true)
  (Hdone : s_done s = true -> s_done s' = true) (Hda : s_done s' = true -> s_accepted s' = true).
(** The stream completes in this transition. *)
Abbreviation ends := (s_done s' && negb (s_done s)).
Hypothesis (Ecfg : c_config c' = c_config c) (Esrv : c_isServer c' = c_isServer c)
  (Ecl : c_closeErr c' = c_closeErr c) (Erd : c_ready c' = c_ready c)
  (Eheap : c_heap c' = <[p := s']> (c_heap c))
  (Est : c_streams c' = if ends then delete (s_id s) (c_streams c) else c_streams c).
Hypothesis (Eout : forall d, c_out d c' = c_out d c).
Hypothesis (Ein : forall d, i_next (c_in d c') = i_next (c_in d c) /\
  i_max (c_in d c') = i_max (c_in d c) + b2n (remote c d s && ends) /\
  NoDup (i_queue (c_in d c')) /\
  forall q, q ∈ i_queue (c_in d c') <-> q ∈ i_queue (c_in d c) /\ ~ (q = p /\ s_accepted s' = true)).

Lemma touch_local id : initiatedLocally c' id = initiatedLocally c id.
Proof using All. unfold initiatedLocally. by rewrite Esrv. Qed.

Lemma touch_new : deref c' p = s'.
Proof using All. unfold deref. rewrite Eheap. by apply insert_lookup_total_eq. Qed.

Lemma touch_old q : q <> p -> deref c' q = deref c q.
Proof using All. intros Hq. unfold deref. rewrite Eheap. by apply insert_lookup_total_ne. Qed.

Lemma touch_len : length (c_heap c') = length (c_heap c).
Proof using All. by rewrite Eheap, length_insert. Qed.

Lemma touch_remote d x y : s_id x = s_id y -> remote c' d x = remote c d y.
Proof using All. intros E. unfold remote. by rewrite touch_local, E. Qed.

Lemma touch_next id : next_index c' id = next_index c id.
Proof using All.
  unfold next_index. rewrite touch_local, Eout. by destruct (Ein (streamDir id)) as [-> _].
Qed.

Lemma touch_stream q : ptr c' q -> stream_id_ok c' (deref c' q).
Proof using All.
  rewrite touch_len. intros Hq. destruct (id_stream _ Hinv q Hq) as [A1 A2 A3 A4 A5 A6].
  assert (Hok : forall x, s_id x = s_id (deref c q) -> s_canRecv x = s_canRecv (deref c q) ->
    s_canSend x = s_canSend (deref c q) ->
    (s_accepted (deref c q) = true -> s_accepted x = true) ->
    (s_done x = true -> s_accepted x = true) -> stream_id_ok c' x).
  { intros x E1 E2 E3 E4 E5. split; rewrite ?E1, ?touch_next, ?touch_local; try done.
    - rewrite E2, A2. unfold can_recv. by rewrite touch_local.
    - rewrite E3, A3. unfold can_send. by rewrite touch_local.
    - auto. }
  destruct (decide (q = p)) as [Eq|Hne].
  - rewrite Eq in *. rewrite touch_new. by apply Hok.
  - rewrite touch_old by done. by apply Hok.
Qed.

Lemma touch_streams : c_closeErr c' = None -> forall id q,
  c_streams c' !! id = Some q <->
  ptr c' q /\ s_id (deref c' q) = id /\ s_done (deref c' q) = false.
Proof using All.
  rewrite Ecl, Est, touch_len. intros Hc id q. pose proof (id_streams _ Hinv Hc id q) as H.
  destruct (decide (q = p)) as [->|Hne].
  - rewrite touch_new, Hid. destruct (s_done s') eqn:Ed'; destruct (s_done s) eqn:Ed; simpl; try done.
    + rewrite lookup_delete_Some, H. intuition congruence.
    + by specialize (Hdone eq_refl).
  - rewrite touch_old by done. destruct ends eqn:Ee; [|done].
    rewrite lookup_delete_Some, H. split; [tauto|]. intros (Hq & Hi & Hd). split_and!; try done.
    intros E. apply Hne. rewrite <- E in Hi.
    apply andb_true_iff in Ee as [_ Ee%negb_true_iff].
    assert (c_streams c !! s_id s = Some p) by (by apply (id_streams _ Hinv Hc)).
    assert (c_streams c !! s_id s = Some q) by (by apply (id_streams _ Hinv Hc)).
    congruence.
Qed.

Lemma touch_queue d q : q ∈ i_queue (c_in d c') <->
  ptr c' q /\ remote c' d (deref c' q) = true /\ s_accepted (deref c' q) = false.
Proof using All.
  destruct (Ein d) as (_ & _ & _ & ->). rewrite (id_queue _ Hinv d q), touch_len.
  destruct (decide (q = p)) as [->|Hne].
  - rewrite touch_new, (touch_remote d s' s) by done.
    destruct (s_accepted s') eqn:Ea; [intuition congruence|].
    assert (s_accepted s = false).
    { destruct (s_accepted s) eqn:Es; [|done]. by specialize (Hacc eq_refl). }
    intuition congruence.
  - rewrite touch_old, (touch_remote d _ (deref c q)) by done. tauto.
Qed.

Lemma ids_touch : ids_inv c'.
Proof using All.
  split.
  - rewrite Ecfg. apply Hinv.
  - apply touch_stream.
  - rewrite Eheap, fmap_insert_same by done. apply Hinv.
  - intros d. rewrite Eout. apply Hinv.
  - intros d. destruct (Ein d) as (-> & -> & _). pose proof (id_in _ Hinv d).
    pose proof (b2n_nonneg (remote c d s && ends)). lia.
  - apply touch_streams.
  - rewrite Ecl, Est. intros Hc. rewrite (id_closed _ Hinv Hc). destruct ends; [apply delete_empty|done].
  - apply touch_queue.
  - intros d. apply Ein.
  - intros d. destruct (Ein d) as (-> & _). rewrite (id_opened _ Hinv d). unfold opened.
    rewrite Eheap, (sumZ_insert _ _ _ s) by (by apply heap_lookup).
    rewrite (touch_remote d s' s), (touch_remote d s s) by done.
    rewrite Z.sub_add. apply (sumZ_view id); [done|]. intros x y E. simpl in E.
    by rewrite (touch_remote d x y) by (by rewrite E).
  - intros d. destruct (Ein d) as (_ & -> & _). rewrite (id_max _ Hinv d), Ecfg. unfold finished.
    rewrite Eheap, (sumZ_insert _ _ _ s) by (by apply heap_lookup).
    rewrite (touch_remote d s' s), (touch_remote d s s) by done.
    rewrite (sumZ_view id (fun x => b2n (remote c d x && s_done x))
      (fun x => b2n (remote c' d x && s_done x)) (c_heap c) (c_heap c)); [|done|].
    + unfold b2n. destruct (remote c d s); simpl; [|lia].
      destruct (s_done s) eqn:Ed; [rewrite Hdone by done; simpl; lia|].
      destruct (s_done s'); simpl; lia.
    + intros x y E. simpl in E. by rewrite E, (touch_remote d x x).
  - rewrite Erd. intros Hr. destruct (id_ready _ Hinv Hr) as [Hnil _].
    rewrite Hnil in Hp. simpl in Hp. lia.
Qed.
End touch.

(** * Counting streams *)

Lemma filter_agree (f g : nat -> bool) (l : list nat) :
  (forall x, x ∈ l -> f x = g x) -> filter (fun x => f x = true) l = filter (fun x => g x = true) l.
Proof.
  induction l as [|x l IH]; intros H; [done|]. rewrite !filter_cons, IH by (intros; apply H; by right).
  by rewrite (H x) by left.
Qed.

(** The streams that satisfy a test, counted by their pointers. *)
Lemma count_pointers (f : stream -> bool) (l : list stream) :
  Z.of_nat (length (filter (fun p => f (l !!! p) = true) (seq 0 (length l)))) = sumZ (fun s => b2n (f s)) l.
Proof.
  induction l as [|s l IH] using rev_ind; [done|].
  rewrite length_app, Nat.add_1_r, seq_S, list.filter_app, length_app, sumZ_app, sumZ_cons, sumZ_nil. simpl.
  assert (E : filter (fun p => f ((l ++ [s]) !!! p) = true) (seq 0 (length l)) =
              filter (fun p => f (l !!! p) = true) (seq 0 (length l))).
  { apply (filter_agree (fun p => f ((l ++ [s]) !!! p)) (fun p => f (l !!! p))).
    intros p Hp%elem_of_seq. by rewrite lookup_total_app_l by lia. }
  rewrite E, Nat2Z.inj_add, IH. f_equal. rewrite filter_cons, filter_nil.
  rewrite list_lookup_total_middle by done. destruct (f s); simpl; lia.
Qed.

Lemma queue_length c d : ids_inv c ->
  Z.of_nat (length (i_queue (c_in d c))) =
  sumZ (fun s => b2n (remote c d s && negb (s_accepted s))) (c_heap c).
Proof.
  intros H. rewrite <- (count_pointers (fun s => remote c d s && negb (s_accepted s))).
  f_equal. apply Permutation_length, NoDup_Permutation.
  - apply H.
  - apply list.NoDup_filter, NoDup_seq.
  - intros p. rewrite list_elem_of_filter, elem_of_seq, (id_queue _ H d p). unfold deref.
    rewrite andb_true_iff, negb_true_iff. intuition lia.
Qed.

(** The peer's streams of a kind have the indices below their count, each of
    them once. *)
Lemma remote_ids_complete c d j :
  ids_inv c -> 0 <= j < i_next (c_in d c) -> exists p, ptr c p /\ s_id (deref c p) = streamID c j d false.
Proof.
  intros H Hj. set (ps := filter (fun p => remote c d (deref c p) = true) (seq 0 (length (c_heap c)))).
  assert (Hps : forall p, p ∈ ps <-> remote c d (deref c p) = true /\ ptr c p).
  { intros p. unfold ps. rewrite list_elem_of_filter, elem_of_seq. intuition lia. }
  assert (Hrem : forall p, p ∈ ps -> s_id (deref c p) = streamID c (Z.shiftr (s_id (deref c p)) 2) d false /\
    0 <= Z.shiftr (s_id (deref c p)) 2 < i_next (c_in d c)).
  { intros p [Hr Hp]%Hps. unfold remote in Hr. apply andb_true_iff in Hr as [Hl%negb_true_iff Hd%bool_decide_eq_true].
    destruct (id_stream _ H p Hp) as [A1 _ _ A4 _ _]. pose proof (streamID_of_id c _ A1) as E. rewrite Hl, Hd in E.
    pose proof (index_range _ A1). unfold next_index in A4. rewrite Hl, Hd in A4. split; [done|lia]. }
  set (idx := (fun p => Z.shiftr (s_id (deref c p)) 2) <$> ps).
  assert (Hperm : idx ≡ₚ seqZ 0 (i_next (c_in d c))).
  { apply submseteq_length_Permutation.
    - apply NoDup_submseteq.
      + apply NoDup_fmap_2_strong; [|apply list.NoDup_filter, NoDup_seq].
        intros p q Hp Hq E. destruct (Hrem p Hp) as [E1 _], (Hrem q Hq) as [E2 _]. rewrite E, <- E2 in E1.
        apply Hps in Hp as [_ Hp], Hq as [_ Hq].
        apply (NoDup_lookup _ p q (s_id (deref c p)) (id_nodup _ H));
          [by rewrite list_lookup_fmap, heap_lookup|by rewrite list_lookup_fmap, heap_lookup, E1].
      + intros x (p & -> & Hp)%list_elem_of_fmap. apply elem_of_seqZ. apply Hrem in Hp. lia.
    - unfold idx. rewrite length_fmap, length_seqZ, (id_opened _ H d). unfold opened.
      rewrite <- (count_pointers (fun s => remote c d s)). rewrite Nat2Z.id. done. }
  assert (Hin : j ∈ idx) by (rewrite Hperm; apply elem_of_seqZ; lia).
  apply list_elem_of_fmap in Hin as (p & -> & Hp). exists p. split; [by apply Hps|by apply Hrem].
Qed.
