(* ===== verification/Table.v ===== *)
(** The stream table invariant [ids_inv] holds in every reachable state: the
    operations of [Stream] and [Conn], one by one, and then [exec]. *)

From S2P Require Import Prelude Varint Params Frame WriteLock Config State Core Stream Conn System Facts Ids.

(** * Operations that do not change the table *)

Section quiet.
Implicit Types (c : Conn) (p : nat).

Lemma iv_upd p f c : iview (f (deref c p)) = iview (deref c p) -> iv (upd p f c) = iv c.
Proof. intros H. unfold iv, upd. simpl. f_equal. by apply fmap_insert_same. Qed.

Lemma iv_signal_close sg c : iv (signal_close sg c) = iv c.
Proof. done. Qed.

Lemma iv_broadcast_read p c : iv (broadcast_read p c) = iv c.
Proof. unfold broadcast_read. by rewrite iv_upd. Qed.

Lemma iv_broadcast_write p c : iv (broadcast_write p c) = iv c.
Proof. unfold broadcast_write. by rewrite iv_upd. Qed.

Lemma iv_broadcast_send c : iv (broadcast_send c) = iv c.
Proof. done. Qed.

Lemma iv_broadcast_out d c : iv (broadcast_out d c) = iv c.
Proof. by destruct d. Qed.

Lemma iv_broadcast_in d c : iv (broadcast_in d c) = iv c.
Proof. by destruct d. Qed.

Lemma iv_queue f c : iv (queueLocked f c) = iv c.
Proof. done. Qed.

Lemma iv_consume n c : iv (consumeLocked n c) = iv c.
Proof. done. Qed.

Lemma iv_wake_streams ps c : iv (wake_streams ps c) = iv c.
Proof.
  revert c. induction ps as [|p ps IH]; intros c; [done|].
  simpl. by rewrite IH, iv_broadcast_write, iv_broadcast_read.
Qed.

Lemma iv_cancel p cause c : iv (stream_cancel p cause c) = iv c.
Proof.
  unfold stream_cancel. destruct (negb _); [done|]. destruct (stream_cause _ _); [done|].
  by rewrite iv_upd.
Qed.

Lemma iv_buffer {GA : GoAppend} p data c : iv (upd p (bufferLocked data) c) = iv c.
Proof.
  apply iv_upd. unfold bufferLocked, append_rbuf.
  destruct (_ && _); simpl; by destruct (_ <=? _)%nat.
Qed.
End quiet.

Create Rewrite HintDb iv.
#[export] Hint Rewrite iv_signal_close iv_broadcast_read iv_broadcast_write iv_broadcast_send
  iv_broadcast_out iv_broadcast_in iv_queue iv_consume iv_wake_streams iv_cancel @iv_buffer : iv.

(** Proves that a chain of updates leaves the table alone. *)
Ltac quiet :=
  repeat first
    [ reflexivity
    | progress autorewrite with iv
    | rewrite iv_upd by (simpl; done) ].

Lemma iv_read p n c : iv (readLocked p n c) = iv c.
Proof. unfold readLocked. destruct (_ && _); quiet. Qed.
#[export] Hint Rewrite iv_read : iv.

(** An operation on the stream [p] that changes the table at most by
    completing it. *)
Definition ends (p : nat) (c c' : Conn) : Prop :=
  exists c1, iv c1 = iv c /\ (c' = c1 \/ c' = completeLocked p c1).

Lemma ends_quiet p c c' : iv c' = iv c -> ends p c c'.
Proof. exists c'. auto. Qed.

Lemma ends_complete p c c1 : iv c1 = iv c -> ends p c (completeLocked p c1).
Proof. exists c1. auto. Qed.

Lemma ends_read p n c : ends p c (tryRead p n c).2.
Proof.
  unfold tryRead. destruct (c_closeErr c); [by apply ends_quiet|].
  destruct (s_recvErr _); [by apply ends_quiet|].
  destruct (_ <? _)%nat.
  - apply ends_complete. rewrite iv_read, iv_upd; [done|].
    unfold took. by destruct (_ =? _)%nat.
  - destruct (s_finRecv _); apply ends_quiet; [done|]. simpl. quiet.
Qed.

Lemma ends_peek p n c : ends p c (tryPeek p n c).2.
Proof.
  apply ends_quiet. unfold tryPeek. destruct (c_closeErr c); [done|].
  destruct (s_recvErr _); [done|]. destruct (_ <=? _)%nat; [done|].
  destruct (s_finRecv _); [done|]. simpl. quiet.
Qed.

Lemma ends_cancelRead p code c : ends p c (cancelRead p code c).
Proof.
  unfold cancelRead. destruct (_ || _); [by apply ends_quiet|]. apply ends_complete.
  destruct (negb _); quiet.
Qed.

Lemma ends_trySend now p c : ends p c (trySend now p c).2.
Proof.
  apply ends_quiet. unfold trySend. destruct (sendErrLocked _ _); [done|].
  destruct (_ && _); [done|]. destruct (_ <? _); [done|]. simpl.
  etransitivity; [|apply (iv_upd p (set_s_writeSignal (Some (default (c_chans c) (s_writeSignal (deref c p))))) c)]; done.
Qed.

Lemma ends_reserve p n c : ends p c (reserve p n c).2.
Proof.
  apply ends_quiet. unfold reserve. destruct (sendErrLocked _ _); [done|]. simpl.
  etransitivity; [|by apply (iv_upd p (set_s_sendOffset (u64 (s_sendOffset (deref c p) +
    Z.min (Z.min n maxStreamData) (sendCreditLocked p c)))) c)]. done.
Qed.

Lemma ends_finish p c : ends p c (finish p c).2.
Proof.
  unfold finish. destruct (c_closeErr c); [by apply ends_quiet|].
  destruct (_ || _); [by apply ends_quiet|]. apply ends_complete. quiet.
Qed.

Lemma ends_resetSend p code r c : ends p c (resetSendLocked p code r c).
Proof.
  unfold resetSendLocked. destruct (sendDone _); [by apply ends_quiet|].
  apply ends_complete. quiet.
Qed.

Lemma ends_cancelWrite p code c : ends p c (cancelWrite p code c).
Proof.
  unfold cancelWrite. destruct (bool_decide _); [by apply ends_quiet|apply ends_resetSend].
Qed.

#[export] Hint Resolve ends_read ends_peek ends_cancelRead ends_trySend ends_reserve ends_finish
  ends_resetSend ends_cancelWrite : qmux.

(** * Completing, accepting and opening *)

(** The limits the peer was given fit the 60 bits of a stream count. *)
Definition small_limits (c : Conn) : Prop := forall d, i_max (c_in d c) <= 2 ^ 60.

Lemma iv_in c c' d : iv c' = iv c -> nview (c_in d c') = nview (c_in d c).
Proof. unfold iv. intros E. destruct d; simpl; congruence. Qed.

Lemma iv_length c c' : iv c' = iv c -> length (c_heap c') = length (c_heap c).
Proof.
  unfold iv. intros E. assert (Eh : iview <$> c_heap c' = iview <$> c_heap c) by congruence.
  by apply iview_heap.
Qed.

Lemma small_limits_same c c' : iv c' = iv c -> small_limits c -> small_limits c'.
Proof.
  intros E H d. specialize (H d). pose proof (iv_in _ _ d E) as En. unfold nview in En.
  injection En as _ Em _. lia.
Qed.

Lemma completeLocked_no p c : completing (deref c p) = false -> completeLocked p c = c.
Proof.
  unfold completing, completeLocked. intros E%negb_false_iff. by rewrite E.
Qed.

Lemma complete_in_fields d s c :
  i_max (c_in d c) <= 2 ^ 60 -> 0 <= i_max (c_in d c) ->
  let i := complete_in d s c in
  i_next i = i_next (c_in d c) /\
  i_max i = i_max (c_in d c) + b2n (remote c d s && completing s) /\
  i_queue i = i_queue (c_in d c).
Proof.
  intros H H0 i. subst i. unfold complete_in, remote.
  destruct (completing s); simpl; [|rewrite andb_false_r; simpl; split_and!; [done|lia|done]].
  rewrite andb_true_r. destruct (negb _ && _); simpl; split_and!; try done; [|lia].
  apply u64_id. unfold is_u64. lia.
Qed.

Lemma ids_complete p c :
  ids_inv c -> ptr c p -> small_limits c -> ids_inv (completeLocked p c).
Proof.
  intros H Hp Hs. destruct (completing (deref c p)) eqn:E; [|by rewrite completeLocked_no].
  pose proof (proj1 (completing_true _) E) as (Hd & Ha & _ & _).
  rewrite completeLocked_eq. cbv zeta. rewrite E. simpl.
  eapply (ids_touch c _ p (completed (deref c p))); try done; simpl.
  - by rewrite Hd.
  - intros d. set (c' := set_c_heap _ _). 
    assert (Hin : c_in d c' = complete_in d (deref c p) c) by (by destruct d). rewrite Hin.
    pose proof (id_in _ H d).
    destruct (complete_in_fields d (deref c p) c (Hs d)) as (-> & -> & ->); [lia|].
    rewrite E, Hd. split_and!; [done..|apply H|]. intros q. split; [|tauto]. intros Hq. split; [done|].
    intros [-> _]. apply (id_queue _ H) in Hq as (_ & _ & Hq). congruence.
Qed.

Lemma ids_ends p c c' :
  ends p c c' -> ids_inv c -> ptr c p -> small_limits c -> ids_inv c'.
Proof.
  intros (c1 & E & Hc) H Hp Hs.
  assert (H1 : ids_inv c1) by (by eapply ids_same).
  destruct Hc as [-> | ->]; [done|]. apply ids_complete; [done| |by eapply small_limits_same].
  by rewrite (iv_length _ _ E).
Qed.

Lemma ids_accept d c : ids_inv c -> small_limits c -> ids_inv (tryAccept d c).2.
Proof.
  intros H Hs. unfold tryAccept. destruct (c_closeErr c) eqn:Ec; [done|].
  destruct (i_queue (c_in d c)) as [|p queue] eqn:Eq.
  - eapply ids_same; [|done]. simpl. destruct d; unfold iv; simpl in *; unfold nview; simpl; by rewrite Eq.
  - assert (Hq : p ∈ i_queue (c_in d c)) by (rewrite Eq; left).
    apply (id_queue _ H) in Hq as (Hp & Hr & Ha). simpl.
    pose proof (id_queue_nodup _ H d) as Hnd. rewrite Eq in Hnd.
    set (c1 := upd p _ _).
    assert (Hin : forall d', i_next (c_in d' c1) = i_next (c_in d' c) /\ i_max (c_in d' c1) = i_max (c_in d' c) /\
      i_queue (c_in d' c1) = if bool_decide (d' = d) then queue else i_queue (c_in d' c)) by (by destruct d, d').
    assert (H1 : ids_inv c1).
    { eapply (ids_touch c _ p (set_s_accepted true (deref c p))); try done; simpl.
      - by destruct d.
      - by destruct d.
      - by destruct d.
      - by destruct d.
      - by destruct d.
      - rewrite andb_negb_r. by destruct d.
      - by destruct d.
      - intros d'. destruct (Hin d') as (-> & -> & ->). rewrite andb_negb_r, andb_false_r. simpl.
        split_and!; [done|lia| |]; case_bool_decide as Ed; subst.
        + by apply NoDup_cons_1_2 in Hnd.
        + apply H.
        + intros q. rewrite Eq, elem_of_cons. apply NoDup_cons_1_1 in Hnd.
          split; [|tauto]. intros Hq. split; [tauto|]. by intros [-> _].
        + intros q. split; [|tauto]. intros Hq. split; [done|]. intros [-> _].
          apply (id_queue _ H) in Hq as (_ & Hr' & _). unfold remote in Hr, Hr'.
          apply andb_true_iff in Hr as [_ Hr%bool_decide_eq_true], Hr' as [_ Hr'%bool_decide_eq_true].
          congruence. }
    apply ids_complete; [done| |].
    + subst c1. unfold upd. simpl. rewrite length_insert. by destruct d.
    + intros d'. destruct (Hin d') as (_ & -> & _). apply Hs.
Qed.

Lemma new_stream_view id c :
  iview (new_stream id c) = (id, false, false, can_recv c id, can_send c id).
Proof. unfold new_stream, can_recv, can_send. by destruct (initiatedLocally c id), (streamDir id). Qed.

(** What a frame can create: the streams of the peer, in order. *)
Lemma open_incoming_fields d c :
  let c' := open_incoming d c in
  let id := streamID c (i_next (c_in d c)) d false in
  c_config c' = c_config c /\ c_isServer c' = c_isServer c /\ c_closeErr c' = c_closeErr c /\
  c_ready c' = c_ready c /\ c_heap c' = c_heap c ++ [new_stream id c] /\
  c_streams c' = <[id := length (c_heap c)]> (c_streams c) /\
  (forall d', c_out d' c' = c_out d' c) /\
  (forall d', c_in d' c' = if bool_decide (d' = d)
    then mkIncoming (u64 (i_next (c_in d c) + 1)) (i_max (c_in d c)) (i_pending (c_in d c))
           (i_queue (c_in d c) ++ [length (c_heap c)]) None
    else c_in d' c).
Proof. destruct d; cbv zeta; split_and!; try done; by intros []. Qed.

Lemma ids_open_incoming d c :
  ids_inv c -> c_closeErr c = None -> c_ready c = true ->
  i_next (c_in d c) < i_max (c_in d c) -> small_limits c -> ids_inv (open_incoming d c).
Proof.
  intros H Hc Hr Hlt Hs. pose proof (id_in _ H d) as Hn. specialize (Hs d).
  destruct (open_incoming_fields d c) as (E1 & E2 & E3 & E4 & E5 & E6 & E7 & E8).
  set (id := streamID c _ d false) in *. pose proof (new_stream_view id c) as Hv.
  unfold iview in Hv. injection Hv as V1 V2 V3 V4 V5.
  eapply (ids_grow c _ (new_stream id c) false d); try congruence.
  - by rewrite V1.
  - lia.
  - intros d'. rewrite E7. simpl. split; [lia|done].
  - intros d'. rewrite E8. simpl. case_bool_decide; subst; simpl.
    + split_and!; try done. apply u64_id. unfold is_u64. lia.
    + by rewrite app_nil_r, Z.add_0_r.
Qed.

Lemma open_loop_ind (P : Conn -> Prop) d index :
  (forall c, P c -> i_next (c_in d c) <= index -> P (open_incoming d c)) ->
  forall fuel c, P c -> P (open_loop fuel d index c).
Proof.
  intros Hstep. induction fuel as [|fuel IH]; intros c H; [done|]. simpl.
  destruct (Z.leb_spec (i_next (c_in d c)) index); auto.
Qed.

(** What the loop that opens streams leaves alone. *)
Definition keeps (c c' : Conn) : Prop :=
  c_config c' = c_config c /\ c_isServer c' = c_isServer c /\ c_closeErr c' = c_closeErr c /\
  c_ready c' = c_ready c /\ (forall d', i_max (c_in d' c') = i_max (c_in d' c)) /\
  (forall d', c_out d' c' = c_out d' c).

Lemma open_loop_keep fuel d index c : keeps c (open_loop fuel d index c).
Proof.
  apply (open_loop_ind (keeps c)); [|done].
  intros c' (K1 & K2 & K3 & K4 & K5 & K6) _.
  destruct (open_incoming_fields d c') as (E1 & E2 & E3 & E4 & _ & _ & E7 & E8).
  split_and!; try congruence.
  - intros d'. rewrite E8, <- K5. case_bool_decide; by subst.
Qed.

Lemma ids_open_loop fuel d index c :
  ids_inv c -> c_closeErr c = None -> c_ready c = true -> small_limits c ->
  index < i_max (c_in d c) -> ids_inv (open_loop fuel d index c).
Proof.
  intros H Hc Hr Hs Hi.
  enough (ids_inv (open_loop fuel d index c) /\ c_closeErr (open_loop fuel d index c) = None /\
    c_ready (open_loop fuel d index c) = true /\
    forall d', i_max (c_in d' (open_loop fuel d index c)) = i_max (c_in d' c)) by tauto.
  apply (open_loop_ind (fun c' => ids_inv c' /\ c_closeErr c' = None /\ c_ready c' = true /\
    forall d', i_max (c_in d' c') = i_max (c_in d' c))); [|done].
  intros c' (H' & Hc' & Hr' & Hm) Hn.
  destruct (open_incoming_fields d c') as (_ & _ & E3 & E4 & _ & _ & _ & E8).
  split_and!; try congruence.
  - apply ids_open_incoming; try done; [rewrite Hm; lia|]. intros d'. rewrite Hm. apply Hs.
  - intros d'. rewrite E8, <- Hm. case_bool_decide; by subst.
Qed.

(** Enough fuel opens every stream up to the one the frame refers to. *)
Lemma open_loop_next fuel d index c :
  ids_inv c -> c_closeErr c = None -> c_ready c = true -> small_limits c ->
  index < i_max (c_in d c) -> index + 1 - i_next (c_in d c) <= Z.of_nat fuel ->
  index < i_next (c_in d (open_loop fuel d index c)).
Proof.
  revert c. induction fuel as [|fuel IH]; intros c H Hc Hr Hs Hi Hf; simpl; [lia|].
  destruct (Z.leb_spec (i_next (c_in d c)) index) as [Hle|]; [|lia].
  destruct (open_incoming_fields d c) as (_ & _ & E3 & E4 & _ & _ & _ & E8).
  pose proof (E8 d) as E8d. rewrite bool_decide_eq_true_2 in E8d by done.
  assert (Hn : i_next (c_in d (open_incoming d c)) = i_next (c_in d c) + 1).
  { rewrite E8d. simpl. apply u64_id. pose proof (id_in _ H d). specialize (Hs d).
    unfold is_u64. lia. }
  apply IH; try congruence; try lia.
  - apply ids_open_incoming; try done; lia.
  - intros d'. rewrite E8. case_bool_decide; [simpl|]; apply Hs.
  - by rewrite E8d.
Qed.

Lemma keeps_refl c : keeps c c.
Proof. done. Qed.

Lemma keeps_limits c c' : keeps c c' -> small_limits c -> small_limits c'.
Proof. intros (_ & _ & _ & _ & H & _) Hs d. rewrite H. apply Hs. Qed.

(** A stream that [streamLocked] returns is the live stream of that number,
    and has the side the frame is about. *)
Record found (id : Z) (recv : bool) (c : Conn) (p : nat) : Prop := {
  found_ptr : ptr c p;
  found_id : s_id (deref c p) = id;
  found_live : s_done (deref c p) = false;
  found_side : (if recv then s_canRecv (deref c p) else s_canSend (deref c p)) = true;
}.

Lemma lookup_found id recv c p :
  ids_inv c -> c_closeErr c = None -> c_streams c !! id = Some p ->
  bool_decide (streamDir id = dirUni) && Bool.eqb (initiatedLocally c id) recv = false ->
  found id recv c p.
Proof.
  intros H Hc (Hp & Hi & Hd)%(id_streams _ H Hc) Hside. split; try done.
  destruct (id_stream _ H p Hp) as [_ A2 A3 _ _ _]. rewrite A2, A3, Hi.
  unfold can_recv, can_send. destruct (bool_decide _), (initiatedLocally c id), recv; done.
Qed.

Lemma streamLocked_ok id recv c r c' :
  streamLocked id recv c = (r, c') ->
  ids_inv c -> c_closeErr c = None -> c_ready c = true -> small_limits c ->
  ids_inv c' /\ keeps c c' /\ (forall p, r = inl (Some p) -> found id recv c' p).
Proof.
  intros E H Hc Hr Hs. unfold streamLocked in E.
  destruct (_ && _) eqn:Eside; [by simplify_eq|].
  destruct (initiatedLocally c id) eqn:El.
  - destruct (_ <=? _); simplify_eq; [done|]. split_and!; [done..|].
    intros p [= Hp]. apply lookup_found; try done. by rewrite El.
  - destruct (Z.leb_spec (i_max (c_in (streamDir id) c)) (Z.shiftr id 2)) as [|Hlt]; [by simplify_eq|].
    set (c1 := open_loop _ _ _ _) in E. injection E as <- <-.
    pose proof (open_loop_keep (Z.to_nat (Z.shiftr id 2 + 1 - i_next (c_in (streamDir id) c)))
      (streamDir id) (Z.shiftr id 2) c) as K. fold c1 in K.
    assert (H1 : ids_inv c1) by (by apply ids_open_loop).
    split_and!; [done..|]. intros p [= Hp]. destruct K as (_ & K2 & K3 & _).
    apply lookup_found; try done; [congruence|]. unfold initiatedLocally in *. by rewrite K2, El.
Qed.

Lemma ids_open d c : ids_inv c -> ids_inv (tryOpen d c).2.
Proof.
  intros H. unfold tryOpen. destruct (c_closeErr c) eqn:Ec; [done|].
  pose proof (id_out _ H d) as Ho.
  destruct (Z.leb_spec (o_max (c_out d c)) (o_next (c_out d c))) as [|Hlt]; simpl.
  - eapply ids_same; [|done]. by destruct d.
  - assert (Hr' : c_ready c = true).
    { destruct (c_ready c) eqn:Er; [done|]. destruct (id_ready _ H Er) as [_ Hm].
      rewrite Hm in *. lia. }
    set (id := streamID c _ d true). pose proof (new_stream_view id c) as Hv.
    unfold iview in Hv. injection Hv as V1 V2 V3 V4 V5.
    set (c1 := set_c_out d _ _).
    assert (Eh : c_heap c1 = c_heap c ++ [set_s_accepted true (new_stream id c)]).
    { subst c1. unfold upd, deref. destruct d; simpl;
        rewrite list_lookup_total_middle by done; rewrite <- (Nat.add_0_r (length (c_heap c))) at 1;
        by rewrite insert_app_r. }
    eapply (ids_grow c c1 (set_s_accepted true (new_stream id c)) true d); try done.
    all: try by destruct d.
    + simpl. by rewrite V1.
    + simpl. by rewrite V1.
    + subst c1. destruct d; simpl; by rewrite V1.
    + intros d'. subst c1. destruct d, d'; simpl; split; try done; try lia;
        apply u64_id; unfold is_u64; simpl in *; lia.
    + intros d'. subst c1. destruct d, d'; simpl; rewrite app_nil_r; split_and!; try done; lia.
Qed.

(** * The peer's limits, and the end *)

Lemma ids_parameters params c :
  params_valid params -> c_ready c = false -> ids_inv c -> ids_inv (handleParametersLocked params c).
Proof.
  intros (Hv & Hb & Hu & _) Hr H. rewrite handleParametersLocked_eq. cbv zeta.
  assert (Ho : forall d, o_next (c_out d c) = 0).
  { intros d. destruct (id_ready _ H Hr) as [_ Hm]. pose proof (id_out _ H d). rewrite Hm in *. lia. }
  rewrite maxStreams_eq in *.
  eapply ids_transfer; [..|exact H]; try done.
  - by intros [].
  - apply params_varint_fields in Hv as (_ & _ & _ & _ & _ & ? & ? & _). intros d. rewrite Ho. destruct d; simpl; unfold is_varint in *; lia.
  - by left.
Qed.

Lemma ids_maxStreams uni m c :
  0 <= m <= maxStreams -> c_ready c = true -> ids_inv c -> ids_inv (handleMaxStreams uni m c).
Proof.
  intros Hm Hr H. rewrite maxStreams_eq in Hm. unfold handleMaxStreams.
  set (d := if uni then dirUni else dirBidi).
  destruct (Z.ltb_spec (o_max (c_out d c)) m); [|done].
  pose proof (fun d => id_out _ H d) as Ho. pose proof (Ho dirBidi). pose proof (Ho dirUni).
  eapply ids_transfer; [..|exact H]; try by destruct d.
  all: try by (destruct d; intros []).
  - destruct d; intros []; simpl in *; lia.
  - destruct d; simpl; congruence.
  - left. by destruct d.
Qed.

Lemma terminate_view e c :
  c_closeErr c = None ->
  iv (terminate e c).2 =
  iv (set_c_streams ∅ (set_c_closeErr (Some e) c)).
Proof.
  intros Hc. unfold terminate. rewrite Hc. cbn [snd]. rewrite conn_cancel_eq.
  match goal with |- iv (set_c_streams ∅ ?x) = _ => set (c1 := x) end.
  assert (E : iv c1 = iv (set_c_closeErr (Some e) c)).
  { subst c1. autorewrite with iv. destruct (negb _); [rewrite close_handshake_eq|]; done. }
  unfold iv in *. simpl in *. congruence.
Qed.

Lemma ids_terminate e c : ids_inv c -> ids_inv (terminate e c).2.
Proof.
  intros H. destruct (c_closeErr c) eqn:Ec; [by unfold terminate; rewrite Ec|].
  eapply ids_same; [by apply terminate_view|].
  eapply ids_transfer; [..|exact H]; try done.
  - intros d. pose proof (id_out _ H d). destruct d; simpl in *; lia.
  - by right.
Qed.

(** * Frames *)

Section frames.
Context {GA : GoAppend}.

(** A handler that looks up a stream and works on it. *)
Lemma ids_with_stream id recv k c :
  (forall p c1, found id recv c1 p -> ends p c1 (k p c1).2) ->
  ids_inv c -> c_closeErr c = None -> c_ready c = true -> small_limits c ->
  ids_inv (with_stream id recv k c).2.
Proof.
  intros Hk H Hc Hr Hs. unfold with_stream. destruct (streamLocked id recv c) as [r c1] eqn:E.
  destruct (streamLocked_ok _ _ _ _ _ E H Hc Hr Hs) as (H1 & K & Hf).
  destruct r as [[p|]|e]; try done. specialize (Hf p eq_refl).
  eapply ids_ends; [by apply Hk|done|by apply Hf|by eapply keeps_limits].
Qed.

Lemma iv_received n c c' : receivedLocked n c = inl c' -> iv c' = iv c.
Proof. unfold receivedLocked. destruct (_ <? _); intros; by simplify_eq. Qed.

Lemma ends_stream_frame id off data fin p c : ends p c (stream_frame id off data fin p c).2.
Proof.
  unfold stream_frame. destruct (negb _); [by apply ends_quiet|].
  destruct (_ || _); [destruct (_ || _); by apply ends_quiet|].
  destruct (_ <? _); [by apply ends_quiet|].
  destruct (receivedLocked _ _) as [c1|] eqn:E; [|by apply ends_quiet].
  apply ends_complete. rewrite <- (iv_received _ _ _ E). destruct (s_readCancelled _); quiet.
Qed.

Lemma ends_reset_frame id code fs p c : ends p c (reset_frame id code fs p c).2.
Proof.
  unfold reset_frame. destruct (_ || _); [by apply ends_quiet|].
  destruct (s_recvReset _); [by apply ends_quiet|]. destruct (_ <? _); [by apply ends_quiet|].
  destruct (receivedLocked _ _) as [c1|] eqn:E; [|by apply ends_quiet].
  apply ends_complete. rewrite <- (iv_received _ _ _ E), iv_broadcast_read, iv_upd; [done|].
  unfold after_reset. simpl. by destruct (s_recvErr _).
Qed.

Lemma iv_ping now resp seq c : iv (handlePingLocked now resp seq c).2 = iv c.
Proof.
  unfold handlePingLocked. destruct resp; [repeat destruct (_ <=? _); try destruct (_ =? _)|destruct (_ && _)]; done.
Qed.

Lemma iv_datagram data c : iv (handleDatagramLocked data c).2 = iv c.
Proof. unfold handleDatagramLocked. repeat destruct (_ <? _); done. Qed.

Lemma ids_frame now f c :
  c_closeErr c = None -> frame_parsed f -> small_limits c -> ids_inv c ->
  ids_inv (handleFrameLocked now f c).2.
Proof.
  intros Hc Hf Hs H. destruct (c_ready c) eqn:Hr;
    [|by unfold handleFrameLocked; rewrite Hr; destruct f; try done; apply ids_parameters].
  unfold handleFrameLocked. rewrite Hr. destruct f; simpl; try done.
  - apply ids_with_stream; try done. intros. apply ends_reset_frame.
  - apply ids_with_stream; try done. intros. apply ends_resetSend.
  - apply ids_with_stream; try done. intros. apply ends_stream_frame.
  - unfold handleMaxData. destruct (_ <? _); [|done]. eapply ids_same; [|exact H]. done.
  - apply ids_with_stream; try done. intros. apply ends_quiet. destruct (_ <? _); [|done]. simpl. quiet.
  - by apply ids_maxStreams.
  - by destruct Application.
  - eapply ids_same; [apply iv_datagram|done].
  - eapply ids_same; [apply iv_ping|done].
Qed.

(** * Every operation *)

Lemma iv_takeControl now c : iv (takeControl now c).2 = iv c.
Proof.
  destruct (c_closeErr c) eqn:E; [by unfold takeControl; rewrite E|]. by rewrite takeControl_eq.
Qed.

Lemma in_range_limits c : in_range c -> small_limits c.
Proof. intros (_ & ? & ? & _) []; done. Qed.

Lemma ids_exec o c : ids_inv c -> in_range c -> valid o c -> ids_inv (exec o c).
Proof.
  intros H Hs%in_range_limits Hv.
  destruct o; simpl in *; unfold holds_recv, holds_send, holds in Hv;
    try (eapply ids_ends; [solve [eauto with qmux]|done|tauto|done]).
  - apply ids_frame; tauto.
  - by apply ids_open.
  - by apply ids_accept.
  - eapply ids_same; [|done]. unfold setReadDeadline. quiet.
  - eapply ids_same; [|done]. unfold setWriteDeadline. quiet.
  - eapply ids_same; [|done]. unfold setPriority. quiet.
  - eapply ids_same; [|done]. unfold tryReceiveDatagram. by destruct (c_datagrams c).
  - eapply ids_same; [|done]. unfold requestPing. by destruct (_ && _).
  - eapply ids_same; [|done]. apply iv_takeControl.
  - by apply ids_terminate.
  - by eapply ids_same; [|done].
  - by eapply ids_same; [|done].
  - by eapply ids_same; [|done].
Qed.

Lemma ids_init cfg isServer now : config_ok cfg -> ids_inv (newConn cfg isServer now).
Proof.
  intros H. pose proof (ok_streams _ H). pose proof (ok_uni _ H). split; simpl; try done.
  - intros p Hp. lia.
  - apply NoDup_nil_2.
  - by intros [].
  - intros []; simpl; unwrap_u64; lia.
  - intros _ id p. rewrite lookup_empty. split; [done|lia].
  - intros d p. destruct d; simpl; rewrite elem_of_nil; split; [done|lia|done|lia].
  - intros []; apply NoDup_nil_2.
  - by intros [].
  - intros []; simpl; unwrap_u64; unfold finished; simpl; rewrite sumZ_nil; lia.
  - intros _. split; [done|]. by intros [].
Qed.

Lemma reach_ids cfg isServer c : config_ok cfg -> reach cfg isServer c -> ids_inv c.
Proof. intros H. induction 1; [by apply ids_init|by apply ids_exec]. Qed.
End frames.
