(* ===== verification/Flow.v ===== *)
(** Flow control.

    [flow_inv] is the accounting invariant: on every stream what was read and
    what is buffered add up to what was received, which is within the limit
    given to the peer, and that limit is never more than a window past what
    was read; on the connection the counters are the sums over the streams,
    and the limit stays between half a window and a window past what was
    consumed. On the sending side the offsets never pass the peer's limits. *)

From S2P Require Import Prelude Varint Params Frame WriteLock Config State Core Stream Conn System Facts Ids Table.

(** Reading a stream fails with a reset or a cancellation only. *)
Definition stream_error (e : option error) : Prop :=
  match e with None | Some (ErrStream _ _ _) => True | Some _ => False end.

(** The part of what was received on [s] that counts as consumed. *)
Definition used (s : stream) : Z := s_recvOffset s - zlen (unread s).

Record stream_ok (window : Z) (s : stream) : Prop := {
  so_roff : s_roff s = 0%nat \/ (s_roff s < length (s_rbuf s))%nat;
  so_read : 0 <= s_readOffset s;
  so_have : s_readOffset s + zlen (unread s) <= s_recvOffset s;
  so_exact : s_recvErr s = None -> s_readOffset s + zlen (unread s) = s_recvOffset s;
  so_limit : s_recvOffset s <= s_recvMax s;
  so_window : s_recvMax s <= s_readOffset s + window;
  so_half : s_canRecv s = true -> s_finRecv s = false -> s_readOffset s + window / 2 <= s_recvMax s;
  so_norecv : s_canRecv s = false -> s_recvMax s = 0;
  so_err : s_recvErr s <> None <-> s_readCancelled s = true \/ s_recvReset s = true;
  so_gone : s_recvErr s <> None -> s_rbuf s = [];
  so_send : 0 <= s_sendOffset s <= s_sendMax s;
  so_sendMax : s_sendMax s <= varint_max;
  so_kind : stream_error (s_recvErr s);
}.

Abbreviation stream_window c := (InitialStreamReceiveWindow (c_config c)).
Abbreviation conn_window c := (InitialConnectionReceiveWindow (c_config c)).

Record flow_inv (c : Conn) : Prop := {
  fl_stream p : ptr c p -> stream_ok (stream_window c) (deref c p);
  fl_received : c_received c = sumZ s_recvOffset (c_heap c);
  fl_consumed : c_consumed c = sumZ used (c_heap c);
  fl_limit : c_received c <= c_recvMax c;
  fl_window : c_recvMax c <= c_consumed c + conn_window c;
  fl_half : c_consumed c + conn_window c / 2 <= c_recvMax c;
  fl_sent : c_sent c = sumZ s_sendOffset (c_heap c);
  fl_sendLimit : c_sent c <= c_sendMax c;
  fl_sendMax : c_sendMax c <= varint_max;
  fl_peer : params_varint (c_peer c);
}.

(** * Consequences *)

Section consequences.
Context (c : Conn) (H : flow_inv c).

Lemma heap_stream_ok s : s ∈ c_heap c -> stream_ok (stream_window c) s.
Proof using H.
  intros (p & Hp & <-)%list_elem_of_lookup_total_1. by apply (fl_stream _ H p).
Qed.

Lemma used_range w s : stream_ok w s -> 0 <= used s <= s_recvOffset s.
Proof using Type.
  intros Hs. pose proof (so_read _ _ Hs). pose proof (so_have _ _ Hs).
  unfold used. lia.
Qed.

Lemma consumed_range : 0 <= c_consumed c <= c_received c.
Proof using H.
  rewrite (fl_consumed _ H), (fl_received _ H). split.
  - apply sumZ_nonneg. intros s Hs%heap_stream_ok. apply used_range in Hs; lia.
  - apply sumZ_le. intros s Hs%heap_stream_ok. apply used_range in Hs; lia.
Qed.

Lemma stream_received p : ptr c p -> 0 <= s_recvOffset (deref c p) <= c_received c.
Proof using H.
  intros Hp. pose proof (used_range _ _ (fl_stream _ H p Hp)). split; [lia|].
  rewrite (fl_received _ H). apply (sumZ_elem s_recvOffset _ p).
  - intros s Hs%heap_stream_ok. apply used_range in Hs. lia.
  - by apply heap_lookup.
Qed.

Lemma stream_sent p : ptr c p -> 0 <= s_sendOffset (deref c p) <= c_sent c.
Proof using H.
  intros Hp. pose proof (so_send _ _ (fl_stream _ H p Hp)). split; [lia|].
  rewrite (fl_sent _ H). apply (sumZ_elem s_sendOffset _ p).
  - intros s Hs%heap_stream_ok. apply so_send in Hs. lia.
  - by apply heap_lookup.
Qed.

(** What is buffered is received and not consumed yet. *)
Lemma buffered_sum : c_received c - c_consumed c = sumZ (fun s => zlen (unread s)) (c_heap c).
Proof using H.
  rewrite (fl_consumed _ H), (fl_received _ H). clear H. induction (c_heap c) as [|s l IH]; [done|].
  rewrite !sumZ_cons. unfold used in *. lia.
Qed.

Lemma buffered_room p : ptr c p -> c_consumed c + zlen (unread (deref c p)) <= c_received c.
Proof using H.
  intros Hp. pose proof buffered_sum as E.
  pose proof (sumZ_elem (fun s => zlen (unread s)) (c_heap c) p (deref c p)) as X. simpl in X.
  specialize (X ltac:(intros; lia) (heap_lookup _ _ Hp)). lia.
Qed.

Lemma sent_nonneg : 0 <= c_sent c.
Proof using H.
  rewrite (fl_sent _ H). apply sumZ_nonneg. intros s Hs%heap_stream_ok. apply so_send in Hs. lia.
Qed.
End consequences.

(** * Operations that leave the accounts alone *)

Definition fview (s : stream) :=
  (s_canRecv s, (s_rbuf s, s_roff s), (s_recvOffset s, s_recvMax s, s_readOffset s),
   (s_finRecv s, s_recvReset s, s_readCancelled s, s_recvErr s), (s_sendOffset s, s_sendMax s)).

Definition fv (c : Conn) :=
  (c_config c, c_peer c, (c_sendMax c, c_sent c), (c_recvMax c, c_received c, c_consumed c),
   fview <$> c_heap c).

Lemma stream_ok_view w s s' : fview s' = fview s -> stream_ok w s -> stream_ok w s'.
Proof.
  unfold fview. intros E H. injection E as E1 E2 E3 E4 E5 E6 E7 E8 E9 E10 E11 E12.
  destruct H as [A1 A2 A3 A4 A5 A6 A7 A8 A9 A10 A11 A12 A13].
  split; unfold unread in *; rewrite ?E1, ?E2, ?E3, ?E4, ?E5, ?E6, ?E7, ?E8, ?E9, ?E10, ?E11, ?E12; done.
Qed.

Lemma view_heap {T} (g : stream -> T) c c' p :
  g <$> c_heap c' = g <$> c_heap c ->
  length (c_heap c') = length (c_heap c) /\ (ptr c p -> g (deref c' p) = g (deref c p)).
Proof.
  intros H. assert (Hl : length (c_heap c') = length (c_heap c))
    by (rewrite <- (length_fmap g), H, length_fmap; done).
  split; [done|]. intros Hp.
  assert (Hp' : (g <$> c_heap c') !! p = (g <$> c_heap c) !! p) by (by rewrite H).
  rewrite !list_lookup_fmap, !heap_lookup in Hp' by lia. simpl in Hp'. congruence.
Qed.

Lemma flow_same c c' : fv c' = fv c -> flow_inv c -> flow_inv c'.
Proof.
  unfold fv. intros E H. injection E as E1 E2 E3 E4 E5 E6 E7 E8.
  destruct H as [A1 A2 A3 A4 A5 A6 A7 A8 A9 A10]. split; rewrite ?E1, ?E2, ?E3, ?E4, ?E5, ?E6, ?E7; try done.
  - intros p Hp. destruct (view_heap fview c c' p E8) as [Hl Hv].
    rewrite Hl in Hp. eapply stream_ok_view; [by apply Hv|by apply A1].
  - rewrite A2. symmetry. apply (sumZ_view fview); [done|]. unfold fview. congruence.
  - rewrite A3. symmetry. apply (sumZ_view fview); [done|].
    unfold fview, used, unread. intros s s' Ev. injection Ev as _ V2 V3 V4 _ _ _ _ _ _ _ _.
    by rewrite V2, V3, V4.
  - rewrite A7. symmetry. apply (sumZ_view fview); [done|]. unfold fview. congruence.
Qed.

Section quiet.
Implicit Types (c : Conn) (p : nat).

Lemma fv_upd p f c : fview (f (deref c p)) = fview (deref c p) -> fv (upd p f c) = fv c.
Proof. intros H. unfold fv, upd. simpl. f_equal. by apply fmap_insert_same. Qed.

Lemma fv_signal_close sg c : fv (signal_close sg c) = fv c.
Proof. done. Qed.

Lemma fv_broadcast_read p c : fv (broadcast_read p c) = fv c.
Proof. unfold broadcast_read. by rewrite fv_upd. Qed.

Lemma fv_broadcast_write p c : fv (broadcast_write p c) = fv c.
Proof. unfold broadcast_write. by rewrite fv_upd. Qed.

Lemma fv_broadcast_send c : fv (broadcast_send c) = fv c.
Proof. done. Qed.

Lemma fv_broadcast_out d c : fv (broadcast_out d c) = fv c.
Proof. by destruct d. Qed.

Lemma fv_broadcast_in d c : fv (broadcast_in d c) = fv c.
Proof. by destruct d. Qed.

Lemma fv_queue f c : fv (queueLocked f c) = fv c.
Proof. done. Qed.

Lemma fv_wake_streams ps c : fv (wake_streams ps c) = fv c.
Proof.
  revert c. induction ps as [|p ps IH]; intros c; [done|].
  simpl. by rewrite IH, fv_broadcast_write, fv_broadcast_read.
Qed.

Lemma fv_cancel p cause c : fv (stream_cancel p cause c) = fv c.
Proof.
  unfold stream_cancel. destruct (negb _); [done|]. destruct (stream_cause _ _); [done|].
  by rewrite fv_upd.
Qed.

Lemma fv_terminate e c : fv (terminate e c).2 = fv c.
Proof.
  unfold terminate. destruct (c_closeErr c); [done|]. cbn [snd]. rewrite conn_cancel_eq.
  match goal with |- fv (set_c_streams ∅ ?x) = _ => set (c1 := x) end.
  assert (E : fv c1 = fv c); [|by rewrite <- E].
  subst c1. repeat first [ rewrite fv_wake_streams | rewrite fv_broadcast_in
    | rewrite fv_broadcast_out | rewrite fv_broadcast_send ]. destruct (negb _); [rewrite close_handshake_eq|]; done.
Qed.

Lemma fv_ping now resp seq c : fv (handlePingLocked now resp seq c).2 = fv c.
Proof.
  unfold handlePingLocked. destruct resp; [repeat destruct (_ <=? _); try destruct (_ =? _)|destruct (_ && _)]; done.
Qed.

Lemma fv_datagram data c : fv (handleDatagramLocked data c).2 = fv c.
Proof. unfold handleDatagramLocked. repeat destruct (_ <? _); done. Qed.

Lemma fv_takeControl now c : fv (takeControl now c).2 = fv c.
Proof.
  destruct (c_closeErr c) eqn:E; [by unfold takeControl; rewrite E|]. by rewrite takeControl_eq.
Qed.
End quiet.

Create Rewrite HintDb fv.
#[export] Hint Rewrite fv_signal_close fv_broadcast_read fv_broadcast_write fv_broadcast_send
  fv_broadcast_out fv_broadcast_in fv_queue fv_wake_streams fv_cancel fv_terminate fv_ping fv_datagram
  fv_takeControl : fv.

(** * Operations on one stream *)

Section one_stream.
Context (c : Conn) (p : nat) (H : flow_inv c) (Hp : ptr c p).
Abbreviation s := (deref c p).

(** The accounts of the connection after the stream [p] became [s']. *)
Lemma flow_step c' s' :
  c_heap c' = <[p := s']> (c_heap c) -> c_config c' = c_config c -> c_peer c' = c_peer c ->
  stream_ok (stream_window c) s' ->
  c_received c' = c_received c + (s_recvOffset s' - s_recvOffset s) ->
  c_consumed c' = c_consumed c + (used s' - used s) ->
  c_sent c' = c_sent c + (s_sendOffset s' - s_sendOffset s) ->
  c_received c' <= c_recvMax c' -> c_recvMax c' <= c_consumed c' + conn_window c ->
  c_consumed c' + conn_window c / 2 <= c_recvMax c' ->
  c_sent c' <= c_sendMax c' -> c_sendMax c' <= varint_max -> flow_inv c'.
Proof using H Hp.
  intros Eh Ec Ep Hs Er Eu Es H1 H2 H3 H4 H5.
  assert (Hl : c_heap c !! p = Some s) by (by apply heap_lookup).
  split; rewrite ?Ec, ?Ep; try done.
  - intros q Hq. rewrite Eh, length_insert in Hq. unfold deref. rewrite Eh.
    destruct (decide (q = p)) as [->|Hne].
    + by rewrite insert_lookup_total_eq.
    + rewrite insert_lookup_total_ne by done. by apply (fl_stream _ H).
  - rewrite Eh, (sumZ_insert _ _ _ _ _ Hl), <- (fl_received _ H). lia.
  - rewrite Eh, (sumZ_insert _ _ _ _ _ Hl), <- (fl_consumed _ H). lia.
  - rewrite Eh, (sumZ_insert _ _ _ _ _ Hl), <- (fl_sent _ H). lia.
  - apply H.
Qed.

(** A transition that keeps the connection's own accounts. *)
Lemma flow_local f :
  stream_ok (stream_window c) (f s) -> s_recvOffset (f s) = s_recvOffset s ->
  used (f s) = used s -> s_sendOffset (f s) = s_sendOffset s -> flow_inv (upd p f c).
Proof using H Hp.
  intros Hs E1 E2 E3. destruct H as [A1 A2 A3 A4 A5 A6 A7 A8 A9 A10].
  apply (flow_step (upd p f c) (f s)); simpl; try done; lia.
Qed.
End one_stream.

Lemma unread_empty s : s_roff s = length (s_rbuf s) -> unread s = [].
Proof. intros E. unfold unread. apply drop_ge. lia. Qed.

(** A stream that cannot receive never does. *)
Lemma no_recv_empty w s : stream_ok w s -> s_canRecv s = false -> s_rbuf s = [] /\ s_roff s = 0%nat.
Proof.
  intros H H0%(so_norecv _ _ H). pose proof (so_have _ _ H). pose proof (so_read _ _ H).
  pose proof (so_limit _ _ H).
  assert (Hu : length (unread s) = 0%nat) by lia. unfold unread in Hu. rewrite length_drop in Hu.
  destruct (so_roff _ _ H) as [Hr|]; [|lia]. split; [|done]. apply length_zero_iff_nil. lia.
Qed.

(** A stream whose receiving side is done has nothing left to read. *)
Lemma recvDone_empty w s : stream_ok w s -> recvDone s = true -> s_rbuf s = [] /\ s_roff s = 0%nat.
Proof.
  intros H Hd. assert (Hgone : s_recvErr s <> None -> s_rbuf s = [] /\ s_roff s = 0%nat).
  { intros He. pose proof (so_gone _ _ H He) as Hb. split; [done|].
    destruct (so_roff _ _ H) as [|Hlt]; [done|]. rewrite Hb in Hlt. simpl in Hlt. lia. }
  unfold recvDone in Hd. destruct (s_canRecv s) eqn:Hr; [|by eapply no_recv_empty].
  simpl in Hd. destruct (s_recvReset s) eqn:Er.
  - apply Hgone, (so_err _ _ H). by right.
  - apply andb_true_iff in Hd as [_ [Hc | Hd%Nat.eqb_eq]%orb_true_iff].
    + apply Hgone, (so_err _ _ H). by left.
    + destruct (so_roff _ _ H) as [H0|]; [|lia]. rewrite H0 in Hd.
      split; [|done]. by apply length_zero_iff_nil.
Qed.

(** Completion only drops a buffer that is empty already. *)
Lemma fv_complete p c : flow_inv c -> ptr c p -> fv (completeLocked p c) = fv c.
Proof.
  intros H Hp. destruct (completing (deref c p)) eqn:E; [|by rewrite completeLocked_no].
  rewrite completeLocked_eq. cbv zeta. rewrite E. unfold fv. simpl. f_equal.
  apply fmap_insert_same. apply completing_true in E as (_ & _ & Hd & _).
  destruct (recvDone_empty _ _ (fl_stream _ H p Hp) Hd) as [Hb _].
  unfold deref in *. unfold completed, fview. simpl. by rewrite Hb.
Qed.

Lemma flow_complete p c : flow_inv c -> ptr c p -> flow_inv (completeLocked p c).
Proof. intros H Hp. eapply flow_same; [by apply fv_complete|done]. Qed.

(** The limit that [consumeLocked] leaves, from the limit [m], what is consumed
    after it, and the window. *)
Definition new_limit (m consumed window : Z) : Z :=
  if u64 (m - consumed) <? window / 2 then u64 (consumed + window) else m.

Lemma consume_window received m consumed n window :
  0 <= n -> 0 <= consumed -> consumed + n <= received -> received <= m <= consumed + window ->
  consumed + n + window < 2 ^ 64 -> 0 <= window ->
  let u := u64 (consumed + n) in
  u = consumed + n /\ received <= new_limit m u window <= u + window /\
  u + window / 2 <= new_limit m u window.
Proof.
  intros Hn Hc Hr Hw Hb Hcw. cbv zeta. pose proof (Z.div_pos window 2 Hcw ltac:(lia)).
  assert (window / 2 <= window) by (apply Z.div_le_upper_bound; lia).
  rewrite (u64_id (consumed + n)) by (unfold is_u64; lia). unfold new_limit.
  rewrite !u64_id by (unfold is_u64; lia). breflect; lia.
Qed.

(** The connection's own accounts, and what [consumeLocked] and
    [receivedLocked] do to them. *)
Definition acc (c : Conn) :=
  (c_config c, c_peer c, (c_sendMax c, c_sent c), (c_recvMax c, c_received c, c_consumed c)).

Definition acc_consume (n : Z) (a : Config * Parameters * (Z * Z) * (Z * Z * Z)) :=
  let '(cfg, peer, snd, (m, r, u)) := a in
  (cfg, peer, snd, (new_limit m (u64 (u + n)) (InitialConnectionReceiveWindow cfg), r, u64 (u + n))).

Definition acc_receive (n : Z) (a : Config * Parameters * (Z * Z) * (Z * Z * Z)) :=
  let '(cfg, peer, snd, (m, r, u)) := a in (cfg, peer, snd, (m, r + n, u)).

Lemma acc_upd p f c : acc (upd p f c) = acc c.
Proof. done. Qed.
Lemma acc_consumeLocked n c : acc (consumeLocked n c) = acc_consume n (acc c).
Proof. done. Qed.
Lemma acc_received n c : acc (set_c_received (c_received c + n) c) = acc_receive n (acc c).
Proof. done. Qed.
Lemma acc_receive_fields c c' n :
  acc c' = acc_receive n (acc c) ->
  c_config c' = c_config c /\ c_peer c' = c_peer c /\ c_sendMax c' = c_sendMax c /\
  c_sent c' = c_sent c /\ c_recvMax c' = c_recvMax c /\ c_received c' = c_received c + n /\
  c_consumed c' = c_consumed c.
Proof. unfold acc, acc_receive. intros E. by injection E. Qed.
Lemma acc_receive_0 c : acc_receive 0 (acc c) = acc c.
Proof. unfold acc, acc_receive. by rewrite Z.add_0_r. Qed.
Lemma heap_upd p f c : c_heap (upd p f c) = <[p := f (deref c p)]> (c_heap c).
Proof. done. Qed.
Lemma heap_consume n c : c_heap (consumeLocked n c) = c_heap c.
Proof. done. Qed.
Lemma heap_received n c : c_heap (set_c_received n c) = c_heap c.
Proof. done. Qed.
Lemma deref_heap c c' p : c_heap c' = c_heap c -> deref c' p = deref c p.
Proof. unfold deref. by intros ->. Qed.

(** A transition of the stream [p] that receives [k] bytes and consumes [n]. *)
Lemma flow_consume c p c' s' k n :
  flow_inv c -> ptr c p -> 1 <= conn_window c ->
  c_heap c' = <[p := s']> (c_heap c) -> acc c' = acc_consume n (acc_receive k (acc c)) ->
  stream_ok (stream_window c) s' -> s_sendOffset s' = s_sendOffset (deref c p) ->
  s_recvOffset s' = s_recvOffset (deref c p) + k -> used s' = used (deref c p) + n -> 0 <= n ->
  c_consumed c + n <= c_received c + k -> c_received c + k <= c_recvMax c ->
  c_consumed c + n + conn_window c < 2 ^ 64 -> flow_inv c'.
Proof.
  intros H Hp Hw E1 E Hs Hso Hr Hu Hn Hroom Hlim Hb.
  pose proof (consumed_range c H). pose proof (fl_window _ H).
  destruct (consume_window (c_received c + k) (c_recvMax c) (c_consumed c) n (conn_window c))
    as (C1 & C2 & C3); try lia.
  unfold acc, acc_consume, acc_receive in E. injection E as E2 E3 E4 E5 E6 E7 E8.
  rewrite <- E6 in *. rewrite <- E8 in *.
  pose proof (fl_sendLimit _ H). pose proof (fl_sendMax _ H).
  eapply (flow_step c p H Hp _ _ E1); try congruence; lia.
Qed.

Lemma receivedLocked_ok n c c' :
  receivedLocked n c = inl c' -> 0 <= c_received c -> 0 <= n -> c_received c + n < 2 ^ 64 ->
  c' = set_c_received (c_received c + n) c /\ c_received c + n <= c_recvMax c.
Proof.
  unfold receivedLocked. intros E H0 Hn Hb. rewrite u64_id in E by (unfold is_u64; lia).
  destruct (Z.ltb_spec (c_recvMax c) (c_received c + n)); [done|]. by simplify_eq.
Qed.

(** The ranges that keep the counters from wrapping around. *)
Record ranges (c : Conn) : Prop := {
  rg_windows : c_received c + conn_window c + stream_window c <= varint_max;
  rg_conn : 1 <= conn_window c;
  rg_stream : 1 <= stream_window c;
}.

Lemma in_range_ranges c : ids_inv c -> in_range c -> ranges c.
Proof.
  intros H (Hr & _). pose proof (ok_conn_window _ (id_cfg _ H)).
  pose proof (ok_stream_window _ (id_cfg _ H)). split; lia.
Qed.

(** * Reading *)

Lemma readLocked_eq p n c :
  ptr c p ->
  readLocked p n c =
  let s := deref c p in
  let ro := u64 (s_readOffset s + n) in
  let low := negb (s_finRecv s) && (u64 (s_recvMax s - ro) <? stream_window c / 2) in
  let m := if low then u64 (ro + stream_window c) else s_recvMax s in
  let c1 := consumeLocked n c in
  set_c_heap (<[p := set_s_recvMax m (set_s_readOffset ro s)]> (c_heap c))
  (set_c_control (c_control c ++ when low (MaxStreamData (s_id s) m))
  (set_c_controlWake (low || c_controlWake c1) c1)).
Proof.
  intros Hp. unfold readLocked, upd, deref. cbv zeta.
  set (s := c_heap c !!! p). set (ro := u64 (s_readOffset s + n)).
  assert (E : c_heap (consumeLocked n (set_c_heap (<[p := set_s_readOffset ro s]> (c_heap c)) c)) !!! p
              = set_s_readOffset ro s) by (simpl; by apply insert_lookup_total_eq).
  rewrite E. change (c_config _) with (c_config c). simpl (s_finRecv _). simpl (s_recvMax (set_s_readOffset _ _)).
  destruct (negb (s_finRecv s) && _).
  - simpl. unfold queueLocked, wakeWriter. simpl. rewrite list_insert_insert_eq.
    by destruct c.
  - simpl. rewrite app_nil_r. assert (Es : set_s_recvMax (s_recvMax s) (set_s_readOffset ro s) = set_s_readOffset ro s)
      by (by destruct s). rewrite Es. by destruct c.
Qed.

(** The stream after [readLocked]. *)
Definition after_read (window n : Z) (s : stream) : stream :=
  let ro := u64 (s_readOffset s + n) in
  let low := negb (s_finRecv s) && (u64 (s_recvMax s - ro) <? window / 2) in
  set_s_recvMax (if low then u64 (ro + window) else s_recvMax s) (set_s_readOffset ro s).

Lemma readLocked_fields p n c :
  ptr c p ->
  c_heap (readLocked p n c) = <[p := after_read (stream_window c) n (deref c p)]> (c_heap c) /\
  acc (readLocked p n c) = acc_consume n (acc c).
Proof. intros Hp. rewrite readLocked_eq by done. split; reflexivity. Qed.

Lemma took_unread n s :
  (n <= length (unread s))%nat -> unread (took n s) = drop n (unread s).
Proof.
  intros Hn. unfold took, unread in *. rewrite length_drop in Hn. rewrite drop_drop.
  destruct (Nat.eqb_spec (s_roff s + n) (length (s_rbuf s))) as [E|]; simpl; [|done].
  by rewrite E, drop_all.
Qed.

Lemma took_fields n s :
  let s' := took n s in
  s_recvOffset s' = s_recvOffset s /\ s_recvMax s' = s_recvMax s /\ s_readOffset s' = s_readOffset s /\
  s_finRecv s' = s_finRecv s /\ s_recvErr s' = s_recvErr s /\ s_id s' = s_id s /\
  s_canRecv s' = s_canRecv s /\ s_readCancelled s' = s_readCancelled s /\ s_recvReset s' = s_recvReset s /\
  s_sendOffset s' = s_sendOffset s /\ s_sendMax s' = s_sendMax s /\
  (s_rbuf s = [] -> s_rbuf s' = []).
Proof. unfold took. by destruct (_ =? _)%nat. Qed.

Lemma took_roff n s :
  (s_roff s + n <= length (s_rbuf s))%nat ->
  s_roff (took n s) = 0%nat \/ (s_roff (took n s) < length (s_rbuf (took n s)))%nat.
Proof.
  intros H. unfold took. destruct (Nat.eqb_spec (s_roff s + n) (length (s_rbuf s))); simpl; [by left|right; lia].
Qed.

(** What reading [n] bytes does to the stream, given that [n] bytes are there. *)
Lemma after_read_ok w n s :
  stream_ok w s -> 1 <= w -> s_recvErr s = None -> s_canRecv s = true ->
  (n <= length (unread s))%nat -> s_recvOffset s + w < 2 ^ 64 ->
  let s' := after_read w (Z.of_nat n) (took n s) in
  stream_ok w s' /\ s_recvOffset s' = s_recvOffset s /\ used s' = used s + Z.of_nat n /\
  s_sendOffset s' = s_sendOffset s.
Proof.
  intros Hs Hw He Hcr Hn Hb. cbv zeta.
  destruct (took_fields n s) as (F1 & F2 & F3 & F4 & F5 & F6 & F7 & F8 & F9 & F10 & F11 & F12).
  pose proof (took_unread n s Hn) as Hu.
  destruct Hs as [A1 A2 A3 A4 A5 A6 A7 An A8 A9 A10 A11]. pose proof (A4 He) as A4'.
  assert (Hul : length (unread (took n s)) = (length (unread s) - n)%nat) by (by rewrite Hu, length_drop).
  unfold after_read. rewrite F2, F3, F4. set (ro := u64 (s_readOffset s + Z.of_nat n)).
  assert (Ero : ro = s_readOffset s + Z.of_nat n) by (apply u64_id; unfold is_u64; lia).
  set (low := negb (s_finRecv s) && _). set (m := if low then _ else _).
  assert (Hm : s_recvOffset s <= m /\ m <= ro + w /\ (s_finRecv s = false -> ro + w / 2 <= m)).
  { pose proof (Z.div_pos w 2 ltac:(lia) ltac:(lia)).
    assert (w / 2 <= w) by (apply Z.div_le_upper_bound; lia).
    subst m low. rewrite !u64_id by (unfold is_u64; lia).
    destruct (s_finRecv s); simpl; [split_and!; [lia..|done]|]. breflect; lia. }
  clearbody m ro. split_and!; unfold used, unread in *; simpl; rewrite ?F1, ?F10; try lia.
  split; unfold unread; simpl; rewrite ?F1, ?F4, ?F5, ?F7, ?F8, ?F9, ?F10, ?F11; try assumption.
  - apply took_roff. rewrite length_drop in Hn. destruct A1; lia.
  - lia.
  - lia.
  - lia.
  - lia.
  - lia.
  - intros _. apply Hm.
  - congruence.
  - congruence.
Qed.

Lemma flow_read n p c :
  flow_inv c -> ranges c -> ptr c p -> s_recvErr (deref c p) = None -> s_canRecv (deref c p) = true ->
  (n <= length (unread (deref c p)))%nat ->
  flow_inv (readLocked p (Z.of_nat n) (upd p (took n) c)).
Proof.
  intros H Hr Hp He Hcr Hn.
  assert (Hp1 : ptr (upd p (took n) c) p) by (simpl; by rewrite length_insert).
  destruct (readLocked_fields p (Z.of_nat n) _ Hp1) as [E1 E2].
  rewrite deref_upd, heap_upd, list_insert_insert_eq in E1 by done. rewrite acc_upd in E2.
  change (c_config (upd p (took n) c)) with (c_config c) in E1.
  pose proof (consumed_range c H). pose proof (stream_received c H p Hp).
  pose proof (buffered_room c H p Hp). destruct Hr as [R1 R2 R3].
  pose proof (fl_limit _ H). pose proof (fl_window _ H). pose proof (fl_half _ H).
  destruct (after_read_ok (stream_window c) n (deref c p)) as (S1 & S2 & S3 & S4); try done; try lia.
  { by apply (fl_stream _ H). }
  apply (flow_consume c p _ _ 0 (Z.of_nat n) H Hp R2 E1); try done; try lia.
  by rewrite E2, acc_receive_0.
Qed.

Lemma flow_tryRead p n c :
  flow_inv c -> ranges c -> ptr c p -> s_canRecv (deref c p) = true -> flow_inv (tryRead p n c).2.
Proof.
  intros H Hr Hp Hcr. unfold tryRead. destruct (c_closeErr c); [done|].
  destruct (s_recvErr (deref c p)) eqn:He; [done|].
  destruct (Nat.ltb_spec (s_roff (deref c p)) (length (s_rbuf (deref c p)))) as [Hlt|].
  - set (data := take n (unread (deref c p))). cbn [snd].
    assert (Hn : (length data <= length (unread (deref c p)))%nat)
      by (subst data; rewrite length_take; lia).
    apply flow_complete; [by apply (flow_read (length data) p c)|].
    rewrite readLocked_eq by (simpl; by rewrite length_insert). simpl. by rewrite !length_insert.
  - destruct (s_finRecv _); [done|]. eapply flow_same; [|done]. simpl. by rewrite fv_upd.
Qed.

Lemma flow_peek p n c : flow_inv c -> flow_inv (tryPeek p n c).2.
Proof.
  intros H. unfold tryPeek. destruct (c_closeErr c); [done|]. destruct (s_recvErr _); [done|].
  destruct (_ <=? _)%nat; [done|]. destruct (s_finRecv _); [done|].
  eapply flow_same; [|done]. simpl. by rewrite fv_upd.
Qed.

(** A stream whose buffer is given up with an error. *)
Lemma clear_ok w s s' :
  stream_ok w s -> s_recvErr s' <> None -> stream_error (s_recvErr s') ->
  s_rbuf s' = [] -> s_roff s' = 0%nat -> s_readOffset s' = s_readOffset s ->
  s_recvMax s' = s_recvMax s -> s_canRecv s' = s_canRecv s -> s_finRecv s' = s_finRecv s ->
  s_sendOffset s' = s_sendOffset s -> s_sendMax s' = s_sendMax s ->
  s_recvOffset s <= s_recvOffset s' <= s_recvMax s ->
  (s_readCancelled s' = true \/ s_recvReset s' = true) ->
  stream_ok w s' /\ used s' = used s + (s_recvOffset s' - s_recvOffset s + zlen (unread s)).
Proof.
  intros [A1 A2 A3 A4 A5 A6 A7 An A8 A9 A10 A11 _] He Hk Eb Er E1 E2 E3 E4 E5 E6 Ho Hc.
  assert (Eu : unread s' = []) by (unfold unread; by rewrite Eb, Er).
  split; [|unfold used; rewrite Eu; simpl; lia].
  split; rewrite ?Eu, ?E1, ?E2, ?E3, ?E4, ?E5, ?E6; simpl; try done; try tauto; lia.
Qed.

Lemma flow_cancelRead p code c :
  flow_inv c -> ranges c -> ptr c p -> flow_inv (cancelRead p code c).
Proof.
  intros H Hr Hp. unfold cancelRead. destruct (_ || _) eqn:Ec; [done|].
  assert (Hn : s_recvErr (deref c p) = None).
  { destruct (s_recvErr (deref c p)); [|done]. rewrite orb_true_r in Ec. done. }
  set (f := fun s : stream => set_s_readCancelled true _).
  set (n := zlen (unread (deref c p))).
  set (c1 := upd p clear_rbuf _).
  assert (H1 : flow_inv c1 /\ ptr c1 p).
  { pose proof (consumed_range c H). pose proof (stream_received c H p Hp).
    pose proof (buffered_room c H p Hp). pose proof (fl_limit _ H). destruct Hr as [R1 R2 R3].
    pose proof (so_limit _ _ (fl_stream _ H p Hp)).
    assert (E1 : c_heap c1 = <[p := clear_rbuf (f (deref c p))]> (c_heap c)).
    { subst c1. rewrite heap_upd, heap_consume, (deref_heap (upd p f c)) by apply heap_consume.
      by rewrite heap_upd, deref_upd, list_insert_insert_eq by done. }
    destruct (clear_ok (stream_window c) (deref c p) (clear_rbuf (f (deref c p)))) as [S1 S2].
    1: by apply (fl_stream _ H).
    1-10: done.
    1: simpl; lia.
    1: by left.
    split; [|by rewrite E1, length_insert].
    simpl (s_recvOffset _) in S2.
    apply (flow_consume c p c1 _ 0 n H Hp R2 E1); try done; try lia.
    2: simpl; lia.
    subst c1. by rewrite acc_upd, acc_consumeLocked, acc_upd, acc_receive_0. }
  destruct H1 as [H1 Hp1]. forget c1. destruct (negb _); (apply flow_complete;
    [eapply flow_same; [|exact H1]; by autorewrite with fv
    |unfold broadcast_read; simpl; by rewrite ?length_insert]).
Qed.

(** * Data from the peer *)

Section receive.
Context {GA : GoAppend}.

Lemma buffer_unread data s :
  (s_roff s <= length (s_rbuf s))%nat -> unread (bufferLocked data s) = unread s ++ data.
Proof.
  intros H. unfold unread, bufferLocked, append_rbuf. destruct (_ && _); simpl;
    destruct (_ <=? _)%nat; simpl; rewrite ?drop_0; try done; by apply drop_app_le.
Qed.

Lemma buffer_fields data s :
  let s' := bufferLocked data s in
  s_recvOffset s' = s_recvOffset s /\ s_recvMax s' = s_recvMax s /\ s_readOffset s' = s_readOffset s /\
  s_finRecv s' = s_finRecv s /\ s_recvErr s' = s_recvErr s /\ s_id s' = s_id s /\
  s_canRecv s' = s_canRecv s /\ s_readCancelled s' = s_readCancelled s /\ s_recvReset s' = s_recvReset s /\
  s_sendOffset s' = s_sendOffset s /\ s_sendMax s' = s_sendMax s.
Proof.
  unfold bufferLocked, append_rbuf. destruct (_ && _); simpl; by destruct (_ <=? _)%nat.
Qed.

Lemma buffer_roff data s :
  s_roff s = 0%nat \/ (s_roff s < length (s_rbuf s))%nat ->
  s_roff (bufferLocked data s) = 0%nat \/
  (s_roff (bufferLocked data s) < length (s_rbuf (bufferLocked data s)))%nat.
Proof.
  intros H. unfold bufferLocked, append_rbuf.
  destruct (_ && _); simpl; destruct (_ <=? _)%nat; simpl; autorewrite with qmux; lia.
Qed.

Lemma roff_le w s : stream_ok w s -> (s_roff s <= length (s_rbuf s))%nat.
Proof. intros H. destruct (so_roff _ _ H); lia. Qed.

(** The stream after the data of a STREAM frame, kept or discarded. *)
Lemma stream_data_ok w s data fin :
  stream_ok w s -> s_finRecv s = false -> s_recvReset s = false ->
  s_recvOffset s + zlen data <= s_recvMax s ->
  let s1 := set_s_finRecv fin (set_s_recvOffset (s_recvOffset s + zlen data) s) in
  if s_readCancelled s
  then stream_ok w s1 /\ used s1 = used s + zlen data
  else stream_ok w (bufferLocked data s1) /\ used (bufferLocked data s1) = used s.
Proof.
  intros Hs Hf Hr Hm. cbv zeta. pose proof (roff_le _ _ Hs) as Hroff.
  destruct Hs as [A1 A2 A3 A4 A5 A6 A7 An A8 A9 A10 A11]. destruct (s_readCancelled s) eqn:Ec.
  - assert (He : s_recvErr s <> None) by (apply A8; by left).
    split; [|unfold used, unread; simpl; lia].
    split; unfold unread in *; simpl; try done; try lia; try tauto; rewrite ?Ec, ?Hr; tauto.
  - assert (He : s_recvErr s = None).
    { destruct (s_recvErr s) eqn:E; [|done]. destruct (proj1 A8); [done|congruence|congruence]. }
    specialize (A4 He). set (s1 := set_s_finRecv _ _).
    destruct (buffer_fields data s1) as (F1 & F2 & F3 & F4 & F5 & F6 & F7 & F8 & F9 & F10 & F11).
    pose proof (buffer_unread data s1 Hroff) as Hu. pose proof (buffer_roff data s1 A1) as Hro.
    change (unread s1) with (unread s) in Hu.
    assert (Hl : zlen (unread (bufferLocked data s1)) = zlen (unread s) + zlen data)
      by (rewrite Hu, length_app; lia).
    split; [|unfold used; rewrite F1; simpl; lia].
    split; rewrite ?F1, ?F2, ?F3, ?F4, ?F5, ?F7, ?F8, ?F9, ?F10, ?F11; simpl; try done; try lia; try tauto.
    by rewrite Ec.
Qed.

(** The stream after the data of an accepted frame. *)
Definition fed (data : bytes) (fin : bool) (s : stream) : stream :=
  let s1 := set_s_finRecv fin (set_s_recvOffset (s_recvOffset s + zlen data) s) in
  if s_readCancelled s then s1 else bufferLocked data s1.

Lemma fed_flow data fin p c :
  flow_inv c -> ranges c -> ptr c p -> is_varint (zlen data) ->
  s_finRecv (deref c p) = false -> s_recvReset (deref c p) = false ->
  s_recvOffset (deref c p) + zlen data <= s_recvMax (deref c p) ->
  c_received c + zlen data <= c_recvMax c ->
  let c0 := set_c_received (c_received c + zlen data) c in
  let c1 := upd p (fun s => set_s_finRecv fin (set_s_recvOffset (u64 (s_recvOffset s + zlen data)) s)) c0 in
  let c2 := if s_readCancelled (deref c p) then consumeLocked (zlen data) c1 else upd p (bufferLocked data) c1 in
  flow_inv c2 /\ c_heap c2 = <[p := fed data fin (deref c p)]> (c_heap c) /\
  c_received c2 = c_received c + zlen data /\
  c_consumed c2 = c_consumed c + (if s_readCancelled (deref c p) then zlen data else 0).
Proof.
  intros H Hr Hp Hd Ef Er Hm Hlim. cbv zeta.
  pose proof (fl_stream _ H p Hp) as Hs. pose proof (stream_received c H p Hp) as Hsr.
  pose proof (consumed_range c H). pose proof (fl_window _ H). pose proof (fl_limit _ H).
  destruct Hr as [R1 R2 R3]. unfold is_varint in Hd.
  assert (Hok : c_heap (set_c_received (c_received c + zlen data) c) = c_heap c) by done.
  pose proof (stream_data_ok _ _ data fin Hs Ef Er Hm) as Hok'. cbv zeta in Hok'.
  set (f := fun s : stream => set_s_finRecv fin _).
  assert (Hf : f (deref c p) = set_s_finRecv fin (set_s_recvOffset (s_recvOffset (deref c p) + zlen data) (deref c p))).
  { subst f. simpl. rewrite u64_id by (unfold is_u64; lia). done. }
  unfold fed. rewrite <- Hf in *.
  set (c0 := set_c_received _ c) in *.
  assert (Hp0 : ptr c0 p) by (by rewrite Hok).
  assert (E0 : acc c0 = acc_receive (zlen data) (acc c)) by apply acc_received.
  assert (Ed : deref c0 p = deref c p) by (by apply deref_heap).
  assert (Er0 : c_received c0 = c_received c + zlen data) by done.
  assert (Ec0 : c_consumed c0 = c_consumed c) by done.
  clearbody c0. destruct (s_readCancelled (deref c p)); destruct Hok' as [Hok1 Hok2].
  - assert (E1 : c_heap (consumeLocked (zlen data) (upd p f c0)) = <[p := f (deref c p)]> (c_heap c)).
    { by rewrite heap_consume, heap_upd, Hok, Ed. }
    assert (E2 : c_consumed (consumeLocked (zlen data) (upd p f c0)) = u64 (c_consumed c0 + zlen data)) by done.
    rewrite Ec0, u64_id in E2 by (unfold is_u64; lia). split; [|by split_and!].
    apply (flow_consume c p _ _ (zlen data) (zlen data) H Hp R2 E1); try done; try lia.
    1: by rewrite acc_consumeLocked, acc_upd, E0.
    all: by rewrite Hf.
  - assert (E1 : c_heap (upd p (bufferLocked data) (upd p f c0)) = <[p := bufferLocked data (f (deref c p))]> (c_heap c)).
    { by rewrite heap_upd, deref_upd, heap_upd, list_insert_insert_eq, Hok, Ed. }
    assert (Ec : c_consumed (upd p (bufferLocked data) (upd p f c0)) = c_consumed c + 0) by (rewrite Z.add_0_r; exact Ec0).
    split; [|by split_and!].
    destruct (buffer_fields data (f (deref c p))) as (F1 & _ & _ & _ & _ & _ & _ & _ & _ & F10 & _).
    assert (E2 : acc (upd p (bufferLocked data) (upd p f c0)) = acc_receive (zlen data) (acc c))
      by (by rewrite !acc_upd, E0).
    apply acc_receive_fields in E2 as (G1 & G2 & G3 & G4 & G5 & G6 & G7).
    pose proof (fl_half _ H). pose proof (fl_sendLimit _ H). pose proof (fl_sendMax _ H).
    assert (Fo : s_recvOffset (f (deref c p)) = s_recvOffset (deref c p) + zlen data) by (by rewrite Hf).
    assert (Fs : s_sendOffset (f (deref c p)) = s_sendOffset (deref c p)) by (by rewrite Hf).
    apply (flow_step c p H Hp _ _ E1 G1 G2 Hok1); lia.
Qed.

(** What a STREAM frame can do to the stream it refers to. *)
Lemma stream_frame_inv id off data fin p c :
  flow_inv c -> ranges c -> ptr c p -> is_varint (zlen data) ->
  let s := deref c p in
  (exists e, stream_frame id off data fin p c = (Some (ErrWire e), c) /\
    (err_Code e = ProtocolViolation /\ off <> s_recvOffset s \/
     err_Code e = FinalSizeError /\ off = s_recvOffset s /\ (s_finRecv s || s_recvReset s) = true /\
       (0 < zlen data \/ fin = true /\ s_finRecv s = false) \/
     err_Code e = FlowControlError /\ off = s_recvOffset s /\ (s_finRecv s || s_recvReset s) = false /\
       (s_recvMax s < off + zlen data \/ c_recvMax c < c_received c + zlen data))) \/
  (stream_frame id off data fin p c = (None, c) /\ off = s_recvOffset s /\ data = [] /\
    (s_finRecv s || s_recvReset s) = true /\ (fin = true -> s_finRecv s = true)) \/
  (exists c1, stream_frame id off data fin p c = (None, completeLocked p (broadcast_read p c1)) /\
    off = s_recvOffset s /\ s_finRecv s = false /\ s_recvReset s = false /\
    s_recvOffset s + zlen data <= s_recvMax s /\ c_received c + zlen data <= c_recvMax c /\
    flow_inv c1 /\ c_heap c1 = <[p := fed data fin s]> (c_heap c) /\
    c_received c1 = c_received c + zlen data /\
    c_consumed c1 = c_consumed c + (if s_readCancelled s then zlen data else 0)).
Proof.
  intros H Hr Hp Hd s. unfold s. clear s. unfold stream_frame.
  destruct (Z.eqb_spec off (s_recvOffset (deref c p))) as [Ho|]; simpl; [|left; by eauto].
  destruct (s_finRecv (deref c p) || s_recvReset (deref c p)) eqn:Ef.
  { case_match eqn:Eb.
    - left. eexists. split; [done|]. right; left. split_and!; try done.
      apply orb_true_iff in Eb as [Eb%Z.ltb_lt|Eb]; [by left|right]. by apply andb_true_iff in Eb as [? ?%negb_true_iff].
    - right; left. apply orb_false_iff in Eb as [Eb Eb2].
      apply Z.ltb_ge in Eb. split_and!; try done; [destruct data; [done|]; rewrite length_cons in Eb; lia|].
      intros ->. by apply negb_false_iff in Eb2. }
  pose proof Ef as [Ef1 Er]%orb_false_iff.
  pose proof (stream_received c H p Hp) as Hsr.
  pose proof (consumed_range c H). pose proof (rg_windows _ Hr). pose proof (rg_conn _ Hr). pose proof (rg_stream _ Hr).
  unfold is_varint in Hd. rewrite (u64_id (s_recvOffset _ + _)) by (unfold is_u64; lia).
  destruct (Z.ltb_spec (s_recvMax (deref c p)) (s_recvOffset (deref c p) + zlen data)) as [|Hm].
  { left. eexists. split; [done|]. right; right. split_and!; try done. left. lia. }
  destruct (receivedLocked _ _) as [c0|] eqn:E0.
  - apply receivedLocked_ok in E0 as [-> Hlim]; try lia.
    right; right. eexists. split; [reflexivity|]. split_and!; try done; by apply fed_flow.
  - left. eexists. split; [done|]. right; right. unfold receivedLocked in E0.
    rewrite u64_id in E0 by (unfold is_u64; lia). destruct (Z.ltb_spec (c_recvMax c) (c_received c + zlen data)); [|done].
    injection E0 as <-. split_and!; try done. by right.
Qed.

Lemma flow_stream_frame id off data fin p c :
  flow_inv c -> ranges c -> ptr c p -> is_varint (zlen data) ->
  flow_inv (stream_frame id off data fin p c).2.
Proof.
  intros H Hr Hp Hd.
  destruct (stream_frame_inv id off data fin p c H Hr Hp Hd) as [(e & -> & _)|[[-> _]|(c1 & -> & _ & _ & _ & _ & _ & H1 & E1 & _)]];
    [done..|]. cbn [snd].
  apply flow_complete; [eapply flow_same; [|exact H1]; by autorewrite with fv|].
  unfold broadcast_read. simpl. by rewrite E1, !length_insert.
Qed.
End receive.

Lemma after_reset_ok w code fs s :
  stream_ok w s -> s_recvOffset s <= fs <= s_recvMax s ->
  let s' := after_reset code fs s in
  stream_ok w s' /\ used s' = used s + (fs - s_recvOffset s + zlen (unread s)) /\
  s_recvOffset s' = fs /\ s_sendOffset s' = s_sendOffset s.
Proof.
  intros Hs Hf. cbv zeta.
  assert (F0 : stream_error (s_recvErr (after_reset code fs s))).
  { pose proof (so_kind _ _ Hs). unfold after_reset. simpl. destruct (s_recvErr s) eqn:E; simpl; by rewrite ?E. }
  assert (F : s_recvErr (after_reset code fs s) <> None /\ s_rbuf (after_reset code fs s) = [] /\
    s_roff (after_reset code fs s) = 0%nat /\ s_readOffset (after_reset code fs s) = s_readOffset s /\
    s_recvMax (after_reset code fs s) = s_recvMax s /\ s_canRecv (after_reset code fs s) = s_canRecv s /\
    s_finRecv (after_reset code fs s) = s_finRecv s /\
    s_sendOffset (after_reset code fs s) = s_sendOffset s /\
    s_sendMax (after_reset code fs s) = s_sendMax s /\
    s_recvOffset (after_reset code fs s) = fs /\ s_recvReset (after_reset code fs s) = true).
  { unfold after_reset. simpl. destruct (s_recvErr s) eqn:E; simpl; rewrite ?E; split_and!; done. }
  destruct F as (F1 & F2 & F3 & F4 & F5 & F6 & F7 & F8 & F9 & F10 & F11).
  destruct (clear_ok w s (after_reset code fs s)) as [S1 S2]; try done; try lia; [by right|].
  split_and!; try done. lia.
Qed.

Lemma reset_flow code fs p c :
  flow_inv c -> ranges c -> ptr c p -> s_recvOffset (deref c p) <= fs <= s_recvMax (deref c p) ->
  let n := fs - s_recvOffset (deref c p) in
  c_received c + n <= c_recvMax c ->
  let k := u64 (n + zlen (unread (deref c p))) in
  let c1 := upd p (after_reset code fs) (consumeLocked k (set_c_received (c_received c + n) c)) in
  flow_inv c1 /\ c_heap c1 = <[p := after_reset code fs (deref c p)]> (c_heap c) /\
  c_received c1 = c_received c + n /\ c_consumed c1 = c_consumed c + n + zlen (unread (deref c p)).
Proof.
  intros H Hr Hp Hfs n Hlim k. pose proof (fl_stream _ H p Hp) as Hs. pose proof (stream_received c H p Hp) as Hsr.
  pose proof (consumed_range c H). pose proof (fl_window _ H). pose proof (fl_limit _ H).
  pose proof (buffered_room c H p Hp). destruct Hr as [R1 R2 R3].
  assert (Hk : k = n + zlen (unread (deref c p))) by (unfold k; apply u64_id; unfold is_u64; lia).
  clearbody k. subst k. set (k := n + _).
  destruct (after_reset_ok _ code fs (deref c p) Hs Hfs) as (S1 & S2 & S3 & S4).
  set (c1 := upd p (after_reset code fs) _). cbv zeta.
  assert (E1 : c_heap c1 = <[p := after_reset code fs (deref c p)]> (c_heap c)) by done.
  assert (E2 : c_consumed c1 = u64 (c_consumed c + k)) by done.
  rewrite u64_id in E2 by (unfold is_u64; lia).
  split; [|split; [done|split; [done|lia]]]. apply (flow_consume c p c1 _ n k H Hp R2 E1); try done; try lia.
Qed.

(** What a RESET_STREAM frame can do to the stream it refers to. *)
Lemma reset_frame_inv id code fs p c :
  flow_inv c -> ranges c -> ptr c p -> is_varint fs ->
  let s := deref c p in
  (exists e, reset_frame id code fs p c = (Some (ErrWire e), c) /\
    (err_Code e = FinalSizeError /\
       (fs < s_recvOffset s \/ (s_finRecv s || s_recvReset s) = true /\ fs <> s_recvOffset s) \/
     err_Code e = FlowControlError /\ s_recvReset s = false /\ s_recvOffset s <= fs /\ (s_finRecv s = true -> fs = s_recvOffset s) /\
       (s_recvMax s < fs \/ c_recvMax c < c_received c + (fs - s_recvOffset s)))) \/
  (reset_frame id code fs p c = (None, c) /\ s_recvReset s = true /\ fs = s_recvOffset s) \/
  (exists c1, reset_frame id code fs p c = (None, completeLocked p (broadcast_read p c1)) /\
    s_recvReset s = false /\ s_recvOffset s <= fs <= s_recvMax s /\
    c_received c + (fs - s_recvOffset s) <= c_recvMax c /\ (s_finRecv s = true -> fs = s_recvOffset s) /\
    flow_inv c1 /\ c_heap c1 = <[p := after_reset code fs s]> (c_heap c) /\
    c_received c1 = c_received c + (fs - s_recvOffset s) /\
    c_consumed c1 = c_consumed c + (fs - s_recvOffset s) + zlen (unread s)).
Proof.
  intros H Hr Hp Hfs s. unfold s. clear s. unfold reset_frame.
  destruct (_ || _) eqn:Ef.
  { left. eexists. split; [done|]. left. split; [done|]. apply orb_true_iff in Ef as [Ef%Z.ltb_lt|Ef]; [by left|right].
    apply andb_true_iff in Ef as [? ?%negb_true_iff%Z.eqb_neq]. done. }
  apply orb_false_iff in Ef as [Ef%Z.ltb_ge Ef2].
  assert (Hfin : (s_finRecv (deref c p) || s_recvReset (deref c p)) = true -> fs = s_recvOffset (deref c p)).
  { intros E. rewrite E in Ef2. simpl in Ef2. by apply negb_false_iff, Z.eqb_eq in Ef2. }
  destruct (s_recvReset (deref c p)) eqn:Er; [right; left; split_and!; try done; apply Hfin, orb_true_r|].
  rewrite orb_false_r in Hfin.
  destruct (Z.ltb_spec (s_recvMax (deref c p)) fs) as [|Hm].
  { left. eexists. split; [done|]. right. split_and!; try done. by left. }
  pose proof (stream_received c H p Hp) as Hsr. pose proof (consumed_range c H).
  pose proof (rg_windows _ Hr). pose proof (rg_conn _ Hr). pose proof (rg_stream _ Hr). unfold is_varint in Hfs.
  rewrite (u64_id (fs - _)) by (unfold is_u64; lia).
  destruct (receivedLocked _ _) as [c0|] eqn:E0.
  - apply receivedLocked_ok in E0 as [-> Hlim]; try lia. right; right. eexists. split; [reflexivity|].
    split_and!; try done; apply reset_flow; done.
  - left. eexists. split; [done|]. right. unfold receivedLocked in E0.
    rewrite u64_id in E0 by (unfold is_u64; lia).
    destruct (Z.ltb_spec (c_recvMax c) (c_received c + (fs - s_recvOffset (deref c p)))); [|done].
    injection E0 as <-. split_and!; try done. by right.
Qed.

Lemma flow_reset_frame id code fs p c :
  flow_inv c -> ranges c -> ptr c p -> is_varint fs ->
  flow_inv (reset_frame id code fs p c).2.
Proof.
  intros H Hr Hp Hfs.
  destruct (reset_frame_inv id code fs p c H Hr Hp Hfs)
    as [(e & -> & _)|[[-> _]|(c1 & -> & _ & _ & _ & _ & H1 & E1 & _)]]; [done..|]. cbn [snd].
  apply flow_complete; [eapply flow_same; [|exact H1]; by autorewrite with fv|].
  unfold broadcast_read. simpl. by rewrite E1, !length_insert.
Qed.

(** * Sending *)

Lemma sendCredit_range p c :
  flow_inv c -> ptr c p ->
  0 <= sendCreditLocked p c /\ s_sendOffset (deref c p) + sendCreditLocked p c <= s_sendMax (deref c p) /\
  c_sent c + sendCreditLocked p c <= c_sendMax c.
Proof.
  intros H Hp. pose proof (so_send _ _ (fl_stream _ H p Hp)). pose proof (so_sendMax _ _ (fl_stream _ H p Hp)).
  pose proof (sent_nonneg c H). pose proof (fl_sendLimit _ H). pose proof (fl_sendMax _ H).
  unfold sendCreditLocked. rewrite !u64_id by (unfold is_u64; lia).
  destruct (Z.leb_spec (s_sendMax (deref c p)) (s_sendOffset (deref c p))); simpl; [lia|].
  destruct (Z.leb_spec (c_sendMax c) (c_sent c)); lia.
Qed.

Lemma flow_reserve p n c : flow_inv c -> ptr c p -> 0 <= n -> flow_inv (reserve p n c).2.
Proof.
  intros H Hp Hn. unfold reserve. destruct (sendErrLocked p c); [done|].
  pose proof (sendCredit_range p c H Hp) as (C1 & C2 & C3). set (k := Z.min (Z.min n maxStreamData) _).
  assert (Hk : 0 <= k <= sendCreditLocked p c).
  { subst k. assert (0 <= maxStreamData) by done. lia. }
  pose proof (stream_sent c H p Hp). pose proof (fl_sendLimit _ H). pose proof (fl_sendMax _ H).
  pose proof (fl_limit _ H). pose proof (fl_window _ H). pose proof (fl_half _ H).
  clearbody k. cbn [snd]. rewrite !u64_id by (unfold is_u64; lia).
  eapply (flow_step c p H Hp _ (set_s_sendOffset (s_sendOffset (deref c p) + k) (deref c p)));
    [done|done|done| |simpl; unfold used, unread; simpl; lia..].
  destruct (fl_stream _ H p Hp) as [A1 A2 A3 A4 A5 A6 A7 An A8 A9 A10 A11].
  split; unfold unread in *; simpl; try assumption; lia.
Qed.

(** What [reserve] takes. *)
Lemma reserve_spec p n off k c c' :
  flow_inv c -> ptr c p -> 0 <= n -> reserve p n c = (inl (off, k), c') ->
  off = s_sendOffset (deref c p) /\ 0 <= k <= Z.min n maxStreamData /\
  s_sendOffset (deref c' p) = off + k /\ off + k <= s_sendMax (deref c p) /\
  c_sent c' = c_sent c + k /\ c_sent c + k <= c_sendMax c /\
  (k = 0 -> n = 0 \/ s_sendOffset (deref c p) = s_sendMax (deref c p) \/ c_sent c = c_sendMax c).
Proof.
  intros H Hp Hn E.
  pose proof (sendCredit_range p c H Hp) as (C1 & C2 & C3).
  pose proof (stream_sent c H p Hp). pose proof (fl_sendLimit _ H). pose proof (fl_sendMax _ H).
  pose proof (so_send _ _ (fl_stream _ H p Hp)). pose proof (so_sendMax _ _ (fl_stream _ H p Hp)).
  assert (0 < maxStreamData) by done.
  unfold reserve in E. destruct (sendErrLocked p c); [done|]. injection E as E1 E2 E3. subst off c'.
  assert (Hd : s_sendOffset (deref (set_c_sent (u64 (c_sent c + k))
    (upd p (set_s_sendOffset (u64 (s_sendOffset (deref c p) + k))) c)) p) = u64 (s_sendOffset (deref c p) + k)).
  { change (deref (set_c_sent _ ?x) p) with (deref x p). by rewrite deref_upd. }
  rewrite E2. rewrite Hd. simpl. rewrite !u64_id by (unfold is_u64; lia). split_and!; try lia.
  intros ->. unfold sendCreditLocked in E2. rewrite !u64_id in E2 by (unfold is_u64; lia).
  destruct (Z.leb_spec (s_sendMax (deref c p)) (s_sendOffset (deref c p))); simpl in E2; [lia|].
  destruct (Z.leb_spec (c_sendMax c) (c_sent c)); lia.
Qed.

Lemma flow_trySend now p c : flow_inv c -> flow_inv (trySend now p c).2.
Proof.
  intros H. unfold trySend. destruct (sendErrLocked p c); [done|]. destruct (_ && _); [done|].
  destruct (_ <? _); [done|]. simpl. eapply flow_same; [|exact H].
  rewrite <- (fv_upd p (set_s_writeSignal (Some (default (c_chans c) (s_writeSignal (deref c p))))) c) by done.
  done.
Qed.

Lemma fv_length c c' : fv c' = fv c -> length (c_heap c') = length (c_heap c).
Proof.
  unfold fv. intros E. assert (Eh : fview <$> c_heap c' = fview <$> c_heap c) by congruence.
  by apply (view_heap fview c c' 0).
Qed.

(** An operation that completes the stream after touching nothing accounted. *)
Lemma flow_quiet_complete p c c1 :
  fv c1 = fv c -> flow_inv c -> ptr c p -> flow_inv (completeLocked p c1).
Proof.
  intros E H Hp. apply flow_complete; [by eapply flow_same|]. by rewrite (fv_length _ _ E).
Qed.

Lemma flow_finish p c : flow_inv c -> ptr c p -> flow_inv (finish p c).2.
Proof.
  intros H Hp. unfold finish. destruct (c_closeErr c); [done|]. destruct (_ || _); [done|].
  eapply flow_quiet_complete; [|done..]. autorewrite with fv. by rewrite fv_upd.
Qed.

Lemma flow_resetSend p code r c : flow_inv c -> ptr c p -> flow_inv (resetSendLocked p code r c).
Proof.
  intros H Hp. unfold resetSendLocked. destruct (sendDone _); [done|].
  eapply flow_quiet_complete; [|done..]. autorewrite with fv. by rewrite fv_upd.
Qed.

(** * New streams *)

Lemma new_stream_ok id c :
  params_varint (c_peer c) -> 1 <= stream_window c -> stream_ok (stream_window c) (new_stream id c).
Proof.
  intros (_ & _ & V1 & V2 & V3 & _)%params_varint_fields Hw. unfold is_varint in *.
  assert (0 <= stream_window c / 2 <= stream_window c)
    by (split; [apply Z.div_pos; lia|apply Z.div_le_upper_bound; lia]).
  unfold new_stream. destruct (bool_decide _), (initiatedLocally c id); simpl;
    split; unfold unread; simpl; rewrite ?drop_nil; simpl; try done; try lia; try (by left); try by intuition.
Qed.

Lemma new_stream_accounts id c :
  s_recvOffset (new_stream id c) = 0 /\ used (new_stream id c) = 0 /\ s_sendOffset (new_stream id c) = 0.
Proof. unfold new_stream. by destruct (bool_decide _), (initiatedLocally c id). Qed.

Lemma flow_grow c c' s :
  flow_inv c -> acc c' = acc c -> c_heap c' = c_heap c ++ [s] -> stream_ok (stream_window c) s ->
  s_recvOffset s = 0 -> used s = 0 -> s_sendOffset s = 0 -> flow_inv c'.
Proof.
  intros H E Eh Hs E1 E2 E3. rewrite <- (acc_receive_0 c) in E.
  apply acc_receive_fields in E as (G1 & G2 & G3 & G4 & G5 & G6 & G7).
  destruct H as [A1 A2 A3 A4 A5 A6 A7 A8 A9 A10].
  split; rewrite ?G1, ?G2, ?G3, ?G4, ?G5, ?G6, ?G7; try done; try lia.
  - intros p Hp. rewrite Eh, length_app in Hp. simpl in Hp. unfold deref. rewrite Eh.
    destruct (decide (p = length (c_heap c))) as [->|].
    + by rewrite list_lookup_total_middle.
    + rewrite lookup_total_app_l by lia. apply A1. lia.
  - rewrite Eh, sumZ_app, sumZ_cons, sumZ_nil. lia.
  - rewrite Eh, sumZ_app, sumZ_cons, sumZ_nil. lia.
  - rewrite Eh, sumZ_app, sumZ_cons, sumZ_nil. lia.
Qed.

Lemma flow_open_incoming d c :
  flow_inv c -> ranges c -> flow_inv (open_incoming d c) /\ ranges (open_incoming d c).
Proof.
  intros H Hr. set (id := streamID c (i_next (c_in d c)) d false).
  assert (E : acc (open_incoming d c) = acc c) by (by destruct d).
  destruct (new_stream_accounts id c) as (N1 & N2 & N3). split.
  - apply (flow_grow c _ (new_stream id c)); try done; [by destruct d|].
    apply new_stream_ok; [apply H|apply Hr].
  - assert (Ec : c_config (open_incoming d c) = c_config c) by (by destruct d).
    assert (Er : c_received (open_incoming d c) = c_received c) by (by destruct d).
    destruct Hr. split; by rewrite ?Ec, ?Er.
Qed.

Lemma flow_open_loop fuel d index c :
  flow_inv c -> ranges c -> flow_inv (open_loop fuel d index c) /\ ranges (open_loop fuel d index c).
Proof.
  intros H Hr. apply (open_loop_ind (fun c => flow_inv c /\ ranges c)); [|done].
  intros c' [H' Hr'] _. by apply flow_open_incoming.
Qed.

Lemma flow_streamLocked id recv c :
  flow_inv c -> ranges c ->
  flow_inv (streamLocked id recv c).2 /\ ranges (streamLocked id recv c).2.
Proof.
  intros H Hr. unfold streamLocked. destruct (_ && _); [done|].
  destruct (initiatedLocally c id); destruct (_ <=? _); try done. by apply flow_open_loop.
Qed.

Lemma flow_with_stream id recv k c :
  (forall p c1, found id recv c1 p -> flow_inv c1 -> ranges c1 -> flow_inv (k p c1).2) ->
  ids_inv c -> c_closeErr c = None -> c_ready c = true -> small_limits c ->
  flow_inv c -> ranges c -> flow_inv (with_stream id recv k c).2.
Proof.
  intros Hk Hi Hc Hr Hs H Hg. unfold with_stream. destruct (streamLocked id recv c) as [r c1] eqn:E.
  destruct (streamLocked_ok _ _ _ _ _ E Hi Hc Hr Hs) as (H1 & K & Hf).
  pose proof (flow_streamLocked id recv c H Hg) as [H2 Hg2]. rewrite E in H2, Hg2. simpl in *.
  destruct r as [[p|]|e]; try done. apply Hk; [by apply Hf|done..].
Qed.

Lemma flow_open d c : flow_inv c -> 1 <= stream_window c -> flow_inv (tryOpen d c).2.
Proof.
  intros H Hw. unfold tryOpen. destruct (c_closeErr c); [done|]. destruct (_ <=? _).
  - eapply flow_same; [|exact H]. by destruct d.
  - cbn [fst snd newStreamLocked]. set (id := streamID c _ d true).
    destruct (new_stream_accounts id c) as (N1 & N2 & N3).
    set (c1 := set_c_streams _ _).
    assert (H1 : flow_inv c1).
    { apply (flow_grow c c1 (new_stream id c)); try done. apply new_stream_ok; [apply H|done]. }
    forget c1. eapply flow_same; [|exact H1].
    rewrite <- (fv_upd (length (c_heap c)) (set_s_accepted true) c1) by done. by destruct d.
Qed.

(** * Every operation *)

Lemma flow_parameters params c :
  params_valid params -> c_ready c = false -> ids_inv c -> flow_inv c ->
  flow_inv (handleParametersLocked params c).
Proof.
  intros [Hv _] Hr Hi H. pose proof (params_varint_fields _ Hv) as (_ & [? ?] & _).
  rewrite handleParametersLocked_eq. cbv zeta.
  destruct (id_ready _ Hi Hr) as [Hn _].
  set (c0 := set_c_ready true _). enough (HQ : flow_inv c0).
  { forget c0. eapply flow_same; [|exact HQ]. by rewrite !fv_broadcast_out, fv_broadcast_send. }
  destruct H as [A1 A2 A3 A4 A5 A6 A7 A8 A9 A10]. split; simpl; try done.
  rewrite A7, Hn, sumZ_nil. lia.
Qed.

Lemma flow_maxStreamData m p c :
  flow_inv c -> ptr c p -> is_varint m -> s_sendMax (deref c p) < m ->
  flow_inv (broadcast_write p (upd p (set_s_sendMax m) c)).
Proof.
  intros H Hp [? ?] Hlt. eapply flow_same; [apply fv_broadcast_write|].
  apply flow_local; try done. destruct (fl_stream _ H p Hp) as [A1 A2 A3 A4 A5 A6 A7 An A8 A9 A10 A11].
  split; unfold unread in *; simpl; try assumption; lia.
Qed.

Lemma flow_accept d c : ids_inv c -> flow_inv c -> flow_inv (tryAccept d c).2.
Proof.
  intros Hi H. unfold tryAccept. destruct (c_closeErr c); [done|].
  destruct (i_queue (c_in d c)) as [|p queue] eqn:Eq.
  - eapply flow_same; [|exact H]. by destruct d.
  - assert (Hp : ptr c p) by (apply (id_queue _ Hi d p); rewrite Eq; left).
    eapply flow_quiet_complete; [|exact H|done].
    rewrite fv_upd by done. by destruct d.
Qed.

Section exec.
Context {GA : GoAppend}.

Lemma flow_frame now f c :
  c_closeErr c = None -> frame_parsed f -> is_varint (zlen (frame_data f)) -> small_limits c ->
  ids_inv c -> flow_inv c -> ranges c -> flow_inv (handleFrameLocked now f c).2.
Proof.
  intros Hc Hf Hd Hs Hi H Hg. destruct (c_ready c) eqn:Hr;
    [|by unfold handleFrameLocked; rewrite Hr; destruct f; try done; apply flow_parameters].
  unfold handleFrameLocked. rewrite Hr. destruct f; simpl; try done; simpl in Hf.
  - apply flow_with_stream; try done. intros p c1 F H1 G1. apply flow_reset_frame; try done; [apply F|tauto].
  - apply flow_with_stream; try done. intros p c1 F H1 G1. apply flow_resetSend; [done|apply F].
  - apply flow_with_stream; try done. intros p c1 F H1 G1. apply flow_stream_frame; try done. apply F.
  - unfold handleMaxData. destruct (Z.ltb_spec (c_sendMax c) Max) as [Hlt|]; [|done].
    eapply flow_same; [apply fv_broadcast_send|]. destruct Hf.
    destruct H as [A1 A2 A3 A4 A5 A6 A7 A8 A9 A10]. split; simpl; try done. lia.
  - apply flow_with_stream; try done. intros p c1 F H1 G1. simpl.
    destruct (Z.ltb_spec (s_sendMax (deref c1 p)) Max) as [Hlt|]; [|done].
    apply flow_maxStreamData; try done; [apply F|tauto].
  - unfold handleMaxStreams. destruct (_ <? _); [|done].
    eapply flow_same; [apply fv_broadcast_out|]. eapply flow_same; [|exact H]. by destruct Uni.
  - by destruct Application.
  - eapply flow_same; [apply fv_datagram|done].
  - eapply flow_same; [apply fv_ping|done].
Qed.

Lemma flow_exec o c :
  ids_inv c -> flow_inv c -> in_range c -> valid o c -> flow_inv (exec o c).
Proof.
  intros Hi H Hr Hv. pose proof (in_range_limits _ Hr) as Hs. apply in_range_ranges in Hr as Hg; [|done].
  destruct o; simpl in *; unfold holds_recv, holds_send, holds in Hv.
  - apply flow_frame; tauto.
  - apply flow_open; [done|apply Hg].
  - by apply flow_accept.
  - apply flow_tryRead; tauto.
  - by apply flow_peek.
  - apply flow_cancelRead; tauto.
  - eapply flow_same; [|done]. unfold setReadDeadline. rewrite fv_broadcast_read. by rewrite fv_upd.
  - by apply flow_trySend.
  - apply flow_reserve; [done|tauto|lia].
  - apply flow_finish; tauto.
  - unfold cancelWrite. destruct (bool_decide _); [done|]. apply flow_resetSend; tauto.
  - eapply flow_same; [|done]. unfold setWriteDeadline. rewrite fv_broadcast_write. by rewrite fv_upd.
  - eapply flow_same; [|done]. unfold setPriority. by rewrite fv_upd.
  - eapply flow_same; [|done]. unfold tryReceiveDatagram. by destruct (c_datagrams c).
  - eapply flow_same; [|done]. unfold requestPing. by destruct (_ && _).
  - eapply flow_same; [|done]. apply fv_takeControl.
  - eapply flow_same; [|done]. apply fv_terminate.
  - by eapply flow_same; [|done].
  - by eapply flow_same; [|done].
  - by eapply flow_same; [|done].
Qed.

Lemma flow_init cfg isServer now : config_ok cfg -> flow_inv (newConn cfg isServer now).
Proof.
  intros H. pose proof (ok_conn_window _ H). split; simpl; rewrite ?sumZ_nil; try done; try lia.
  - apply Z.div_le_upper_bound; lia.
  - intros id f Hf. field_cases Hf; split; vm_compute; discriminate.
Qed.

Lemma reach_flow cfg isServer c : config_ok cfg -> reach cfg isServer c -> flow_inv c.
Proof.
  intros H Hr. induction Hr; [by apply flow_init|]. apply flow_exec; try done. by eapply reach_ids.
Qed.
End exec.
