(* ===== verification/Life.v ===== *)
(** The life of streams and of the connection.

    [life_inv]: no operation panics (the handshake channel is closed once, and
    only streams that can send cancel their context); the context of the
    connection ends with the error that closed it; a stream is done exactly
    when the application has accepted it and both its directions have ended,
    so that no slot leaks; a stream sends a FIN or a reset, never both, and its
    context ends with either. *)

From S2P Require Import Prelude Varint Params Frame WriteLock Config State Core Stream Conn System Facts Ids Table Flow.

Record stream_life (s : stream) : Prop := {
  sl_done : s_done s = s_accepted s && recvDone s && sendDone s;
  sl_excl : s_finSent s = true -> s_sendErr s = None;
  sl_cause : s_cause s <> None <-> s_finSent s = true \/ s_sendErr s <> None;
  sl_nosend : s_canSend s = false -> s_finSent s = false /\ s_sendErr s = None;
}.

Record life_inv (c : Conn) : Prop := {
  lf_panic : c_panicked c = false;
  lf_cause : c_cause c = c_closeErr c;
  lf_handshake : c_handshake c = c_ready c || bool_decide (c_closeErr c <> None);
  lf_stream p : ptr c p -> stream_life (deref c p);
}.

(** * Operations that leave it alone *)

Definition lview (s : stream) :=
  (s_accepted s, s_done s, s_canRecv s, s_canSend s, (s_rbuf s, s_roff s),
   (s_finRecv s, s_recvReset s, s_readCancelled s), (s_finSent s, s_sendErr s, s_cause s)).

(** The fields of the connection itself. *)
Definition lc (c : Conn) := (c_panicked c, c_cause c, c_handshake c, c_ready c, c_closeErr c).

Definition lv (c : Conn) := (lc c, lview <$> c_heap c).

Lemma lview_recvDone s s' : lview s' = lview s -> recvDone s' = recvDone s /\ sendDone s' = sendDone s.
Proof.
  unfold lview. intros E. injection E as E1 E2 E3 E4 E5 E6 E7 E8 E9 E10 E11 E12.
  unfold recvDone, sendDone. by rewrite E3, E4, E5, E6, E7, E8, E9, E10, E11.
Qed.

Lemma stream_life_view s s' : lview s' = lview s -> stream_life s -> stream_life s'.
Proof.
  intros E [A1 A2 A3 A4]. destruct (lview_recvDone _ _ E) as [R1 R2].
  unfold lview in E. injection E as E1 E2 E3 E4 E5 E6 E7 E8 E9 E10 E11 E12.
  split; rewrite ?R1, ?R2, ?E1, ?E2, ?E4, ?E10, ?E11, ?E12; done.
Qed.

Lemma life_streams c c' :
  lc c' = lc c -> life_inv c -> (forall p, ptr c' p -> stream_life (deref c' p)) -> life_inv c'.
Proof.
  unfold lc. intros E [A1 A2 A3 A4] H. injection E as E1 E2 E3 E4 E5.
  split; rewrite ?E1, ?E2, ?E3, ?E4, ?E5; done.
Qed.

Lemma life_same c c' : lv c' = lv c -> life_inv c -> life_inv c'.
Proof.
  unfold lv. intros E H. assert (Ec : lc c' = lc c) by congruence.
  assert (Eh : lview <$> c_heap c' = lview <$> c_heap c) by congruence.
  eapply life_streams; try done. intros p Hp. destruct (view_heap lview c c' p Eh) as [Hl Hv].
  rewrite Hl in Hp. eapply stream_life_view; [by apply Hv|by apply H].
Qed.

Section quiet.
Implicit Types (c : Conn) (p : nat).

Lemma lv_upd p f c : lview (f (deref c p)) = lview (deref c p) -> lv (upd p f c) = lv c.
Proof. intros H. unfold lv, upd. simpl. f_equal. by apply fmap_insert_same. Qed.

Lemma lv_signal_close sg c : lv (signal_close sg c) = lv c.
Proof. done. Qed.

Lemma lv_broadcast_read p c : lv (broadcast_read p c) = lv c.
Proof. unfold broadcast_read. by rewrite lv_upd. Qed.

Lemma lv_broadcast_write p c : lv (broadcast_write p c) = lv c.
Proof. unfold broadcast_write. by rewrite lv_upd. Qed.

Lemma lv_broadcast_send c : lv (broadcast_send c) = lv c.
Proof. done. Qed.

Lemma lv_broadcast_out d c : lv (broadcast_out d c) = lv c.
Proof. by destruct d. Qed.

Lemma lv_broadcast_in d c : lv (broadcast_in d c) = lv c.
Proof. by destruct d. Qed.

Lemma lv_queue f c : lv (queueLocked f c) = lv c.
Proof. done. Qed.

Lemma lv_consume n c : lv (consumeLocked n c) = lv c.
Proof. done. Qed.

Lemma lv_wake_streams ps c : lv (wake_streams ps c) = lv c.
Proof.
  revert c. induction ps as [|p ps IH]; intros c; [done|].
  simpl. by rewrite IH, lv_broadcast_write, lv_broadcast_read.
Qed.

Lemma lv_ping now resp seq c : lv (handlePingLocked now resp seq c).2 = lv c.
Proof.
  unfold handlePingLocked. destruct resp; [repeat destruct (_ <=? _); try destruct (_ =? _)|destruct (_ && _)]; done.
Qed.

Lemma lv_datagram data c : lv (handleDatagramLocked data c).2 = lv c.
Proof. unfold handleDatagramLocked. repeat destruct (_ <? _); done. Qed.

Lemma lv_takeControl now c : lv (takeControl now c).2 = lv c.
Proof.
  destruct (c_closeErr c) eqn:E; [by unfold takeControl; rewrite E|]. by rewrite takeControl_eq.
Qed.
End quiet.

Create Rewrite HintDb lv.
#[export] Hint Rewrite lv_signal_close lv_broadcast_read lv_broadcast_write lv_broadcast_send
  lv_broadcast_out lv_broadcast_in lv_queue lv_consume lv_wake_streams lv_ping lv_datagram
  lv_takeControl : lv.

(** * Operations on one stream *)

(** A stream whose directions may have just ended. *)
Record stream_pre (s : stream) : Prop := {
  sp_done : s_done s = false;
  sp_roff : s_roff s = 0%nat \/ (s_roff s < length (s_rbuf s))%nat;
  sp_excl : s_finSent s = true -> s_sendErr s = None;
  sp_cause : s_cause s <> None <-> s_finSent s = true \/ s_sendErr s <> None;
  sp_nosend : s_canSend s = false -> s_finSent s = false /\ s_sendErr s = None;
}.

Lemma stream_pre_view s s' : lview s' = lview s -> stream_pre s -> stream_pre s'.
Proof.
  intros E [A1 A2 A3 A4 A5]. unfold lview in E. injection E as E1 E2 E3 E4 E5 E6 E7 E8 E9 E10 E11 E12.
  split; rewrite ?E1, ?E2, ?E3, ?E4, ?E5, ?E6, ?E7, ?E8, ?E9, ?E10, ?E11, ?E12; done.
Qed.

Lemma completed_done s :
  s_roff s = 0%nat \/ (s_roff s < length (s_rbuf s))%nat ->
  recvDone s = true -> recvDone (completed s) = true.
Proof.
  unfold recvDone. simpl. intros Hr Hd. destruct (negb (s_canRecv s) || s_recvReset s); [done|].
  apply andb_true_iff in Hd as [-> Hd]. simpl. destruct (s_readCancelled s); [done|]. simpl in *.
  apply Nat.eqb_eq in Hd. apply Nat.eqb_eq. lia.
Qed.

Lemma stream_pre_complete s :
  stream_pre s -> stream_life (if completing s then completed s else s).
Proof.
  intros [A1 A2 A3 A4 A5]. destruct (completing s) eqn:E.
  - apply completing_true in E as (_ & Ha & Hr & Hs). split; try done.
    rewrite (completed_done s A2 Hr). simpl. rewrite Ha. unfold sendDone in *. simpl. by rewrite Hs.
  - split; try done. rewrite A1. unfold completing in E. rewrite A1 in E. simpl in E.
    destruct (s_accepted s), (recvDone s), (sendDone s); done.
Qed.

(** The state after the stream [p] changed, up to what [life_inv] sees. *)
Definition life_except (p : nat) (c : Conn) : Prop :=
  c_panicked c = false /\ c_cause c = c_closeErr c /\
  c_handshake c = c_ready c || bool_decide (c_closeErr c <> None) /\
  (forall q, ptr c q -> q <> p -> stream_life (deref c q)) /\ stream_pre (deref c p).

Lemma life_complete p c : life_except p c -> ptr c p -> life_inv (completeLocked p c).
Proof.
  intros (E1 & E2 & E3 & H & Hs) Hp.
  assert (Ec : lc (completeLocked p c) = lc c) by (by rewrite completeLocked_eq).
  unfold lc in Ec. injection Ec as F1 F2 F3 F4 F5.
  split; rewrite ?F1, ?F2, ?F3, ?F4, ?F5; try done. intros q Hq.
  rewrite (only_length _ _ _ (only_complete p c)) in Hq.
  destruct (decide (q = p)) as [->|Hne].
  - rewrite deref_complete by done. by apply stream_pre_complete.
  - unfold deref. rewrite (only_complete p c), insert_lookup_total_ne by done. by apply H.
Qed.

Lemma except_same p c c' : lv c' = lv c -> ptr c p -> life_except p c -> life_except p c'.
Proof.
  unfold lv, life_except. intros E Hp (E1 & E2 & E3 & H & Hs).
  assert (Ec : lc c' = lc c) by congruence. assert (Eh : lview <$> c_heap c' = lview <$> c_heap c) by congruence.
  unfold lc in Ec. injection Ec as F1 F2 F3 F4 F5. rewrite F1, F2, F3, F4, F5. split_and!; try done.
  - intros q Hq Hne. destruct (view_heap lview c c' q Eh) as [Hl Hv]. rewrite Hl in Hq.
    eapply stream_life_view; [by apply Hv|by apply H].
  - destruct (view_heap lview c c' p Eh) as [Hl Hv]. eapply stream_pre_view; [by apply Hv|done].
Qed.

(** A transition that changes the stream [p] into [s'] and completes it. *)
Lemma life_step p c c1 c2 s' :
  life_inv c -> ptr c p -> c_heap c1 = <[p := s']> (c_heap c) -> lc c1 = lc c -> stream_pre s' ->
  lv c2 = lv c1 -> life_inv (completeLocked p c2).
Proof.
  intros [A1 A2 A3 A4] Hp Eh Ec Hs E2. unfold lc in Ec. injection Ec as F1 F2 F3 F4 F5.
  assert (Hp1 : ptr c1 p) by (by rewrite Eh, length_insert).
  assert (Hl : length (c_heap c2) = length (c_heap c1)).
  { unfold lv in E2. assert (X : lview <$> c_heap c2 = lview <$> c_heap c1) by congruence.
    by apply (view_heap lview c1 c2 0). }
  apply life_complete; [|by rewrite Hl]. eapply except_same; [done|done|].
  unfold life_except. rewrite F1, F2, F3, F4, F5. split_and!; try done.
  - intros q Hq Hne. rewrite Eh, length_insert in Hq. unfold deref.
    rewrite Eh, insert_lookup_total_ne by done. by apply A4.
  - unfold deref. by rewrite Eh, insert_lookup_total_eq.
Qed.

Lemma live_recv s : stream_life s -> recvDone s = false -> s_done s = false.
Proof. intros H E. rewrite (sl_done _ H), E. by rewrite andb_false_r. Qed.

Lemma live_send s : stream_life s -> sendDone s = false -> s_done s = false.
Proof. intros H E. rewrite (sl_done _ H), E. by rewrite andb_false_r. Qed.

Lemma live_accept s : stream_life s -> s_accepted s = false -> s_done s = false.
Proof. intros H E. by rewrite (sl_done _ H), E. Qed.

(** A change of the receiving side of a live stream. *)
Lemma pre_recv s s' :
  stream_life s -> s_done s' = false ->
  s_roff s' = 0%nat \/ (s_roff s' < length (s_rbuf s'))%nat ->
  s_finSent s' = s_finSent s -> s_sendErr s' = s_sendErr s -> s_cause s' = s_cause s ->
  s_canSend s' = s_canSend s -> stream_pre s'.
Proof.
  intros [A1 A2 A3 A4] Hd Hr E1 E2 E3 E4. split; rewrite ?E1, ?E2, ?E3, ?E4; done.
Qed.

Lemma life_tryRead p n c :
  flow_inv c -> life_inv c -> ptr c p -> life_inv (tryRead p n c).2.
Proof.
  intros Hf H Hp. unfold tryRead. destruct (c_closeErr c); [done|].
  destruct (s_recvErr (deref c p)) eqn:He; [done|].
  destruct (Nat.ltb_spec (s_roff (deref c p)) (length (s_rbuf (deref c p)))) as [Hlt|].
  - set (data := take n (unread (deref c p))). cbn [snd].
    assert (Hn : (length data <= length (unread (deref c p)))%nat)
      by (subst data; rewrite length_take; lia).
    assert (Hd : s_done (deref c p) = false).
    { apply live_recv; [by apply H|]. destruct (recvDone (deref c p)) eqn:Ed; [|done].
      apply (recvDone_empty (stream_window c)) in Ed as [Eb _]; [|by apply (fl_stream _ Hf)].
      rewrite Eb in Hlt. simpl in Hlt. lia. }
    assert (Hp1 : ptr (upd p (took (length data)) c) p) by (simpl; by rewrite length_insert).
    destruct (readLocked_fields p (zlen data) _ Hp1) as [E1 _].
    rewrite deref_upd, heap_upd, list_insert_insert_eq in E1 by done.
    eapply life_step; [exact H|exact Hp|exact E1| | |reflexivity].
    + rewrite readLocked_eq by done. done.
    + set (s1 := after_read _ _ _).
      assert (R : s_roff s1 = s_roff (took (length data) (deref c p)) /\
        s_rbuf s1 = s_rbuf (took (length data) (deref c p))) by done.
      eapply pre_recv; [by apply (lf_stream _ H p)|..].
      * subst s1. simpl. unfold took. by destruct (_ =? _)%nat.
      * destruct R as [-> ->]. apply took_roff. unfold unread in Hn. rewrite length_drop in Hn. lia.
      * subst s1. simpl. unfold took. by destruct (_ =? _)%nat.
      * subst s1. simpl. unfold took. by destruct (_ =? _)%nat.
      * subst s1. simpl. unfold took. by destruct (_ =? _)%nat.
      * subst s1. simpl. unfold took. by destruct (_ =? _)%nat.
  - destruct (s_finRecv _); [done|]. eapply life_same; [|done]. simpl. by rewrite lv_upd.
Qed.

Lemma lc_upd p f c : lc (upd p f c) = lc c.
Proof. done. Qed.
Lemma lc_consume n c : lc (consumeLocked n c) = lc c.
Proof. done. Qed.

Lemma life_cancelRead p code c : life_inv c -> ptr c p -> life_inv (cancelRead p code c).
Proof.
  intros H Hp. unfold cancelRead. destruct (_ || _) eqn:Ec; [done|].
  apply orb_false_iff in Ec as [_ Hd].
  set (f := fun s : stream => set_s_readCancelled true _). set (c1 := upd p clear_rbuf _).
  assert (E1 : c_heap c1 = <[p := clear_rbuf (f (deref c p))]> (c_heap c)).
  { subst c1. rewrite heap_upd, heap_consume, (deref_heap (upd p f c)) by apply heap_consume.
    by rewrite heap_upd, deref_upd, list_insert_insert_eq by done. }
  assert (E2 : lc c1 = lc c) by (subst c1; by rewrite lc_upd, lc_consume, lc_upd).
  forget c1. eapply (life_step p c c1); [done|done|exact E1|done| |].
  - pose proof (lf_stream _ H p Hp) as Hs. eapply pre_recv; [exact Hs|..]; try done; [|by left].
    simpl. by apply live_recv.
  - destruct (negb _); by autorewrite with lv.
Qed.

Section receive.
Context {GA : GoAppend}.

Lemma buffer_life data s :
  let s' := bufferLocked data s in
  s_done s' = s_done s /\ s_finSent s' = s_finSent s /\ s_sendErr s' = s_sendErr s /\
  s_cause s' = s_cause s /\ s_canSend s' = s_canSend s.
Proof. unfold bufferLocked, append_rbuf. destruct (_ && _); simpl; by destruct (_ <=? _)%nat. Qed.

Lemma life_stream_frame id off data fin p c :
  flow_inv c -> life_inv c -> found id true c p -> life_inv (stream_frame id off data fin p c).2.
Proof.
  intros Hf H [Hp _ Hd _]. unfold stream_frame. destruct (negb _); [done|].
  destruct (s_finRecv _ || _); [case_match; exact H|]. destruct (_ <? _); [done|].
  destruct (receivedLocked _ _) as [c0|] eqn:E0; [|done].
  assert (Ec : lc c0 = lc c /\ c_heap c0 = c_heap c)
    by (unfold receivedLocked in E0; destruct (_ <? _); simplify_eq; done).
  destruct Ec as [Ec Eh]. pose proof (deref_heap c c0 p Eh) as Ed.
  pose proof (lf_stream _ H p Hp) as Hs. pose proof (so_roff _ _ (fl_stream _ Hf p Hp)) as Hr.
  set (f := fun s : stream => set_s_finRecv fin _). cbn [snd].
  destruct (s_readCancelled (deref c p)).
  - eapply (life_step p c (upd p f c0)); [done|done|rewrite heap_upd, Ed, Eh; done|done| |].
    + eapply pre_recv; done.
    + by autorewrite with lv.
  - assert (E1 : c_heap (upd p (bufferLocked data) (upd p f c0)) = <[p := bufferLocked data (f (deref c p))]> (c_heap c)).
    { rewrite heap_upd, deref_upd, heap_upd, list_insert_insert_eq, Ed, Eh by (by rewrite Eh). done. }
    eapply (life_step p c _ _ _ H Hp E1); [by rewrite !lc_upd| |by autorewrite with lv].
    destruct (buffer_life data (f (deref c p))) as (B1 & B2 & B3 & B4 & B5).
    eapply pre_recv; [exact Hs|..]; rewrite ?B1, ?B2, ?B3, ?B4, ?B5; try done.
    by apply buffer_roff.
Qed.
End receive.

Lemma life_reset_frame id code fs p c :
  life_inv c -> found id true c p -> life_inv (reset_frame id code fs p c).2.
Proof.
  intros H [Hp _ Hd _]. unfold reset_frame. destruct (_ || _); [done|].
  destruct (s_recvReset _); [done|]. destruct (_ <? _); [done|].
  destruct (receivedLocked _ _) as [c0|] eqn:E0; [|done].
  assert (Ec : lc c0 = lc c /\ c_heap c0 = c_heap c)
    by (unfold receivedLocked in E0; destruct (_ <? _); simplify_eq; done).
  destruct Ec as [Ec Eh]. pose proof (deref_heap c c0 p Eh) as Ed.
  pose proof (lf_stream _ H p Hp) as Hs. cbn [snd]. set (n := u64 _). set (c1 := consumeLocked _ c0).
  assert (Ec1 : lc c1 = lc c /\ c_heap c1 = c_heap c) by done. destruct Ec1 as [Ec1 Eh1].
  pose proof (deref_heap c c1 p Eh1) as Ed1. forget c1.
  eapply (life_step p c (upd p (after_reset code fs) c1));
    [done|done|rewrite heap_upd, Ed1, Eh1; reflexivity|by rewrite lc_upd| |by autorewrite with lv].
  unfold after_reset. eapply pre_recv; [exact Hs|..]; simpl; destruct (s_recvErr (deref c p)); try done; by left.
Qed.

Lemma life_accept d c : ids_inv c -> flow_inv c -> life_inv c -> life_inv (tryAccept d c).2.
Proof.
  intros Hi Hf H. unfold tryAccept. destruct (c_closeErr c); [done|].
  destruct (i_queue (c_in d c)) as [|p queue] eqn:Eq.
  - eapply life_same; [|exact H]. by destruct d.
  - assert (Hq : p ∈ i_queue (c_in d c)) by (rewrite Eq; left).
    apply (id_queue _ Hi) in Hq as (Hp & _ & Ha). cbn [snd].
    pose proof (lf_stream _ H p Hp) as Hs.
    eapply (life_step p c _ _ (set_s_accepted true (deref c p))); [done|done|..|reflexivity].
    + by destruct d.
    + by destruct d.
    + eapply pre_recv; [exact Hs|..]; try done; simpl; [by apply live_accept|].
      apply (so_roff _ _ (fl_stream _ Hf p Hp)).
Qed.

(** * The end of the sending side *)

(** Ending the sending side of a stream that is open for sending: [f] sets
    [finSent] or [sendErr], and the stream's context is cancelled. *)
Lemma life_end_send p f cause c c2 :
  life_inv c -> flow_inv c -> ptr c p -> c_closeErr c = None ->
  sendDone (deref c p) = false ->
  (forall s, s_done (f s) = s_done s /\ s_roff (f s) = s_roff s /\ s_rbuf (f s) = s_rbuf s /\
    s_canSend (f s) = s_canSend s /\ s_cause (f s) = s_cause s) ->
  (s_finSent (f (deref c p)) = true \/ s_sendErr (f (deref c p)) <> None) ->
  (s_finSent (f (deref c p)) = true -> s_sendErr (f (deref c p)) = None) ->
  lv c2 = lv (stream_cancel p cause (upd p f c)) -> life_inv (completeLocked p c2).
Proof.
  intros H Hf Hp Hc Hs Hpf Hend Hex E2. pose proof (lf_stream _ H p Hp) as Hl.
  unfold sendDone in Hs. apply orb_false_iff in Hs as [[Hcs%negb_false_iff Hfin]%orb_false_iff Hse].
  apply bool_decide_eq_false in Hse.
  destruct (Hpf (deref c p)) as (P1 & P2 & P3 & P4 & P5).
  assert (Hcause : s_cause (deref c p) = None).
  { destruct (s_cause (deref c p)) eqn:E; [|done].
    destruct (proj1 (sl_cause _ Hl)) as [X|X]; [congruence|congruence|done]. }
  rewrite stream_cancel_eq in E2. cbv zeta in E2. rewrite deref_upd, P4, Hcs in E2 by done.
  assert (Hsc : stream_cause (upd p f c) (f (deref c p)) = None).
  { unfold stream_cause. rewrite P5, Hcause. change (c_cause c = None). by rewrite (lf_cause _ H). }
  rewrite Hsc in E2. simpl in E2.
  eapply (life_step p c); [done|done|..|exact E2].
  - simpl. by rewrite list_insert_insert_eq.
  - done.
  - split; simpl; rewrite ?P1, ?P2, ?P3, ?P4; try done.
    + apply live_send; [done|]. unfold sendDone. rewrite Hcs, Hfin. simpl. by apply bool_decide_eq_false.
    + apply (so_roff _ _ (fl_stream _ Hf p Hp)).
    + by rewrite Hcs.
Qed.

Lemma life_finish p c :
  life_inv c -> flow_inv c -> ptr c p -> s_canSend (deref c p) = true -> life_inv (finish p c).2.
Proof.
  intros H Hf Hp Hcs. unfold finish. destruct (c_closeErr c) eqn:Hc; [done|].
  destruct (_ || _) eqn:E; [done|]. cbn [snd]. apply orb_false_iff in E as [E1 E2].
  pose proof E2 as E2'. apply bool_decide_eq_false in E2'.
  eapply (life_end_send p (set_s_finSent true) None); try done.
  - unfold sendDone. by rewrite Hcs, E1, E2.
  - by left.
  - intros _. simpl. destruct (s_sendErr (deref c p)); [by destruct E2'|done].
  - by autorewrite with lv.
Qed.

Lemma life_resetSend p code r c :
  life_inv c -> flow_inv c -> ptr c p -> c_closeErr c = None -> life_inv (resetSendLocked p code r c).
Proof.
  intros H Hf Hp Hc. unfold resetSendLocked. destruct (sendDone (deref c p)) eqn:Hs; [done|].
  eapply (life_end_send p (set_s_sendErr (Some (ErrStream (s_id (deref c p)) code r)))
    (Some (ErrStream (s_id (deref c p)) code r))); try done.
  - by right.
  - simpl. unfold sendDone in Hs. apply orb_false_iff in Hs as [[_ ->]%orb_false_iff _]. done.
  - by autorewrite with lv.
Qed.

(** * New streams *)

Lemma new_stream_life id c b :
  b = false \/ initiatedLocally c id = true -> stream_life (set_s_accepted b (new_stream id c)).
Proof.
  intros Hb. unfold new_stream. destruct (bool_decide _), (initiatedLocally c id) eqn:El; simpl;
    (split; simpl; [destruct b; try done; by destruct Hb|done| |done]).
  all: split; [done|]; by intros [].
Qed.

Lemma new_stream_unaccepted id c : set_s_accepted false (new_stream id c) = new_stream id c.
Proof.
  assert (Hs : forall s, s_accepted s = false -> set_s_accepted false s = s)
    by (intros []; simpl; by intros ->).
  apply Hs. pose proof (new_stream_view id c) as Hv. unfold iview in Hv. congruence.
Qed.

Lemma life_grow c c' s :
  life_inv c -> lc c' = lc c -> c_heap c' = c_heap c ++ [s] -> stream_life s -> life_inv c'.
Proof.
  intros H Ec Eh Hs. eapply life_streams; try done. intros p Hp.
  rewrite Eh, length_app in Hp. simpl in Hp. unfold deref. rewrite Eh.
  destruct (decide (p = length (c_heap c))) as [->|].
  - by rewrite list_lookup_total_middle.
  - rewrite lookup_total_app_l by lia. apply H. lia.
Qed.

Lemma life_open_incoming d c : life_inv c -> life_inv (open_incoming d c).
Proof.
  intros H. set (id := streamID c (i_next (c_in d c)) d false).
  apply (life_grow c _ (new_stream id c)); try by destruct d.
  rewrite <- new_stream_unaccepted. apply new_stream_life. by left.
Qed.

Lemma life_streamLocked id recv c : life_inv c -> life_inv (streamLocked id recv c).2.
Proof.
  intros H. unfold streamLocked. destruct (_ && _); [done|].
  destruct (initiatedLocally c id); destruct (_ <=? _); try done. cbn [snd].
  apply open_loop_ind; [|done]. intros c' H' _. by apply life_open_incoming.
Qed.

Lemma life_open d c : ids_inv c -> life_inv c -> life_inv (tryOpen d c).2.
Proof.
  intros Hi H. unfold tryOpen. destruct (c_closeErr c); [done|]. destruct (_ <=? _) eqn:Ele.
  - eapply life_same; [|exact H]. by destruct d.
  - cbn [fst snd newStreamLocked]. set (id := streamID c _ d true).
    assert (El : initiatedLocally c id = true).
    { pose proof (id_out _ Hi d). apply Z.leb_gt in Ele. apply streamID_parts. lia. }
    set (c1 := set_c_out d _ _).
    apply (life_grow c c1 (set_s_accepted true (new_stream id c))); [done|by destruct d| |].
    + subst c1. unfold upd, deref. destruct d; simpl;
        rewrite list_lookup_total_middle by done; rewrite <- (Nat.add_0_r (length (c_heap c))) at 1;
        by rewrite insert_app_r.
    + apply new_stream_life. by right.
Qed.

(** * Every operation *)

Lemma life_with_stream id recv k c :
  (forall p c1, found id recv c1 p -> c_closeErr c1 = None -> flow_inv c1 -> life_inv c1 -> life_inv (k p c1).2) ->
  ids_inv c -> c_closeErr c = None -> c_ready c = true -> small_limits c ->
  flow_inv c -> ranges c -> life_inv c -> life_inv (with_stream id recv k c).2.
Proof.
  intros Hk Hi Hc Hr Hs Hf Hg H. unfold with_stream. destruct (streamLocked id recv c) as [r c1] eqn:E.
  destruct (streamLocked_ok _ _ _ _ _ E Hi Hc Hr Hs) as (H1 & K & Hfd).
  pose proof (flow_streamLocked id recv c Hf Hg) as [H2 Hg2]. pose proof (life_streamLocked id recv c H) as H3.
  rewrite E in H2, H3. simpl in *. destruct K as (_ & _ & K3 & _).
  destruct r as [[p|]|e]; try done. apply Hk; [by apply Hfd|congruence|done..].
Qed.

Lemma life_parameters params c :
  c_ready c = false -> c_closeErr c = None -> life_inv c -> life_inv (handleParametersLocked params c).
Proof.
  intros Hr Hc [A1 A2 A3 A4]. rewrite handleParametersLocked_eq. cbv zeta.
  set (c0 := set_c_ready true _).
  assert (H0 : life_inv c0).
  { rewrite Hr, Hc in A3. simpl in A3. split; simpl; [by rewrite A3, A1|done|done|done]. }
  forget c0. eapply life_same; [|exact H0]. by rewrite !lv_broadcast_out, lv_broadcast_send.
Qed.

Lemma life_terminate e c : life_inv c -> life_inv (terminate e c).2.
Proof.
  intros H. unfold terminate. destruct (c_closeErr c) eqn:Hc; [done|]. cbn [snd].
  set (c0 := if negb _ then _ else _). set (c1 := wake_streams _ _).
  assert (E1 : lv c1 = lv c0).
  { subst c1. rewrite lv_wake_streams. repeat first [rewrite lv_broadcast_in | rewrite lv_broadcast_out]. done. }
  eapply life_same; [exact E1|]. clear c1 E1. subst c0. rewrite conn_cancel_eq.
  destruct H as [A1 A2 A3 A4]. rewrite Hc in A2, A3. simpl. rewrite A2.
  destruct (c_ready c) eqn:Hr; simpl; [split; simpl; rewrite ?A3, ?Hr; done|]. rewrite close_handshake_eq. simpl.
  split; simpl; rewrite ?A1, ?A3, ?Hr; done.
Qed.

Section exec.
Context {GA : GoAppend}.

Lemma life_frame now f c :
  c_closeErr c = None -> small_limits c ->
  ids_inv c -> flow_inv c -> ranges c -> life_inv c -> life_inv (handleFrameLocked now f c).2.
Proof.
  intros Hc Hs Hi Hf Hg H. destruct (c_ready c) eqn:Hr;
    [|by unfold handleFrameLocked; rewrite Hr; destruct f; try done; apply life_parameters].
  unfold handleFrameLocked. rewrite Hr. destruct f; simpl; try done.
  - apply life_with_stream; try done. intros p c1 F Hc1 H1 L1. by apply life_reset_frame.
  - apply life_with_stream; try done. intros p c1 F Hc1 H1 L1. apply life_resetSend; try done. apply F.
  - apply life_with_stream; try done. intros p c1 F Hc1 H1 L1. by apply life_stream_frame.
  - unfold handleMaxData. destruct (_ <? _); [|done]. eapply life_same; [|exact H]. done.
  - apply life_with_stream; try done. intros p c1 F Hc1 H1 L1. simpl. destruct (_ <? _); [|done].
    eapply life_same; [apply lv_broadcast_write|]. eapply life_same; [|exact L1]. by rewrite lv_upd.
  - unfold handleMaxStreams. destruct (_ <? _); [|done].
    eapply life_same; [apply lv_broadcast_out|]. eapply life_same; [|exact H]. by destruct Uni.
  - by destruct Application.
  - eapply life_same; [apply lv_datagram|done].
  - eapply life_same; [apply lv_ping|done].
Qed.

Lemma life_exec o c :
  ids_inv c -> flow_inv c -> life_inv c -> in_range c -> valid o c -> life_inv (exec o c).
Proof.
  intros Hi Hf H Hr Hv. pose proof (in_range_limits _ Hr) as Hs. apply in_range_ranges in Hr as Hg; [|done].
  destruct o; simpl in *; unfold holds_recv, holds_send, holds in Hv.
  - apply life_frame; tauto.
  - by apply life_open.
  - by apply life_accept.
  - apply life_tryRead; tauto.
  - unfold tryPeek. destruct (c_closeErr c); [done|]. destruct (s_recvErr _); [done|].
    destruct (_ <=? _)%nat; [done|]. destruct (s_finRecv _); [done|].
    eapply life_same; [|exact H]. simpl. by rewrite lv_upd.
  - apply life_cancelRead; tauto.
  - eapply life_same; [|done]. unfold setReadDeadline. rewrite lv_broadcast_read. by rewrite lv_upd.
  - unfold trySend. destruct (sendErrLocked _ _); [done|]. destruct (_ && _); [done|].
    destruct (_ <? _); [done|]. simpl. eapply life_same; [|exact H].
    rewrite <- (lv_upd p (set_s_writeSignal (Some (default (c_chans c) (s_writeSignal (deref c p))))) c) by done.
    done.
  - unfold reserve. destruct (sendErrLocked _ _); [done|]. simpl. set (n' := u64 (s_sendOffset _ + _)).
    eapply life_same; [|exact H]. rewrite <- (lv_upd p (set_s_sendOffset n') c) by done. done.
  - apply life_finish; tauto.
  - unfold cancelWrite. destruct (bool_decide _) eqn:Ec; [done|]. apply life_resetSend; try tauto.
    apply bool_decide_eq_false in Ec. by destruct (c_closeErr c); [destruct Ec|].
  - eapply life_same; [|done]. unfold setWriteDeadline. rewrite lv_broadcast_write. by rewrite lv_upd.
  - eapply life_same; [|done]. unfold setPriority. by rewrite lv_upd.
  - eapply life_same; [|done]. unfold tryReceiveDatagram. by destruct (c_datagrams c).
  - eapply life_same; [|done]. unfold requestPing. by destruct (_ && _).
  - eapply life_same; [|done]. apply lv_takeControl.
  - by apply life_terminate.
  - by eapply life_same; [|done].
  - by eapply life_same; [|done].
  - by eapply life_same; [|done].
Qed.

Lemma life_init cfg isServer now : life_inv (newConn cfg isServer now).
Proof. split; simpl; try done. intros p Hp. lia. Qed.

Lemma reach_life cfg isServer c : config_ok cfg -> reach cfg isServer c -> life_inv c.
Proof.
  intros H Hr. induction Hr; [by apply life_init|].
  apply life_exec; try done; [by eapply reach_ids|by eapply reach_flow].
Qed.
End exec.
