(* ===== verification/Control.v ===== *)
(** The control queue: the frames that wait for the write loop can all be
    encoded, and none is larger than [maxControlFrameSize]. *)

From S2P Require Import Prelude Varint Params Frame WriteLock Config State Core Stream Conn System Facts Ids Table Flow Life.

(** * The size of a frame *)

(** An upper bound of the encoding of a frame. *)
Definition frame_bound (f : frame) : Z :=
  match f with
  | Stream _ _ data _ => StreamOverhead + zlen data
  | ConnectionClose _ _ _ reason => 25 + zlen reason
  | Datagram data => 1 + varint_size (zlen data) + zlen data
  | TransportParameters _ => 232
  | _ => 25
  end.

Section size.
Context {V : QuicVarint} {VL : QuicVarintLaws V}.

Lemma enc_length v : is_varint v -> 1 <= zlen (enc v) <= 8.
Proof. intros H. rewrite enc_size by done. apply varint_size_range. Qed.

#[local] Ltac encode :=
  repeat (first [rewrite append_enc by done | rewrite append_enc by (by apply maxStreams_varint)]; simpl);
  rewrite <- ?app_assoc; simpl.
#[local] Ltac measure :=
  eexists; split; [reflexivity|];
  repeat match goal with
  | H : is_varint ?v |- _ => lazymatch goal with
      | _ : 1 <= zlen (enc v) <= 8 |- _ => fail
      | _ => pose proof (enc_length v H) end
  end;
  rewrite ?length_app, ?length_cons, ?length_app, ?length_cons, ?length_app, ?length_nil; unfold StreamOverhead; lia.

Lemma Append_length f b :
  frame_ok f -> exists e, Append f b = Some (b ++ e) /\ 1 <= zlen e <= frame_bound f.
Proof.
  destruct f as [sid code fs|sid code|sid off data fin|m|sid m|uni m| |app code ft reason|data|resp seq|p];
    simpl; intros Hok; try done; destruct_and?.
  - unfold ResetStream_Append. encode. measure.
  - unfold StopSending_Append. encode. measure.
  - unfold Stream_Append. destruct (0 <? off); encode; measure.
  - unfold MaxData_Append. encode. measure.
  - unfold MaxStreamData_Append. encode. measure.
  - assert (is_varint m) by (apply maxStreams_varint; lia). unfold MaxStreams_Append. encode. measure.
  - unfold ConnectionClose_Append. destruct app; encode; measure.
  - unfold Datagram_Append. encode. eexists; split; [reflexivity|].
    rewrite length_cons, length_app. pose proof (enc_size (zlen data) ltac:(done)). pose proof (varint_size_range (zlen data)). lia.
  - unfold Ping_Append. assert (is_varint (if resp then typePingResponse else typePingRequest)) by (by destruct resp).
    encode. measure.
  - unfold TransportParameters_Append. match goal with H : params_sendable _ |- _ => destruct H as [Hv _] end.
    rewrite Parameters_append_enc, app_nil_l by done.
    pose proof (params_field_length p Hv) as HL.
    generalize dependent (mjoin (enc_param p <$> paramOrder)). intros ps HL. simpl.
    assert (is_varint (zlen ps)) by (unfold is_varint; lia).
    assert (is_varint typeTransportParameters) by done.
    encode. measure.
Qed.
End size.

(** * The queue *)

(** The frames that [queueLocked] is called with. *)
Definition queued (f : frame) : Prop :=
  match f with
  | MaxStreamData sid m => is_varint sid /\ is_varint m
  | StopSending sid code => is_varint sid /\ is_varint code
  | ResetStream sid code fs => is_varint sid /\ is_varint code /\ is_varint fs
  | _ => False
  end.

Record ctrl_inv (c : Conn) : Prop := {
  ct_queue : Forall queued (c_control c);
  ct_pong : is_varint (c_pongSequence c);
  ct_ping : 0 <= c_nextPing c;
}.

Definition kv (c : Conn) := (c_control c, c_pongSequence c, c_nextPing c).

Lemma ctrl_same c c' : kv c' = kv c -> ctrl_inv c -> ctrl_inv c'.
Proof. unfold kv. intros E [A1 A2 A3]. injection E as E1 E2 E3. split; by rewrite ?E1, ?E2, ?E3. Qed.

Lemma ctrl_queue f c c' :
  c_control c' = c_control c ++ [f] -> c_pongSequence c' = c_pongSequence c ->
  c_nextPing c' = c_nextPing c -> queued f -> ctrl_inv c -> ctrl_inv c'.
Proof.
  intros E1 E2 E3 Hf [A1 A2 A3]. split; rewrite ?E1, ?E2, ?E3; try done.
  apply Forall_app. split; [done|]. by apply Forall_singleton.
Qed.

Lemma kv_complete p c : kv (completeLocked p c) = kv c.
Proof. by rewrite completeLocked_eq. Qed.
Lemma kv_broadcast_read p c : kv (broadcast_read p c) = kv c.
Proof. done. Qed.
Lemma kv_broadcast_write p c : kv (broadcast_write p c) = kv c.
Proof. done. Qed.
Lemma kv_broadcast_send c : kv (broadcast_send c) = kv c.
Proof. done. Qed.
Lemma kv_broadcast_out d c : kv (broadcast_out d c) = kv c.
Proof. by destruct d. Qed.
Lemma kv_broadcast_in d c : kv (broadcast_in d c) = kv c.
Proof. by destruct d. Qed.
Lemma kv_upd p f c : kv (upd p f c) = kv c.
Proof. done. Qed.
Lemma kv_consume n c : kv (consumeLocked n c) = kv c.
Proof. done. Qed.
Lemma kv_cancel p cause c : kv (stream_cancel p cause c) = kv c.
Proof. by rewrite stream_cancel_eq. Qed.
Lemma kv_wake_streams ps c : kv (wake_streams ps c) = kv c.
Proof.
  revert c. induction ps as [|p ps IH]; intros c; [done|].
  simpl. by rewrite IH, kv_broadcast_write, kv_broadcast_read.
Qed.

Create Rewrite HintDb kv.
#[export] Hint Rewrite kv_complete kv_broadcast_read kv_broadcast_write kv_broadcast_send
  kv_broadcast_out kv_broadcast_in kv_upd kv_consume kv_cancel kv_wake_streams : kv.

(** The limit that a read gives the peer fits 62 bits. *)
Lemma ctrl_read p n c :
  ptr c p -> is_varint (s_id (deref c p)) -> 0 <= s_readOffset (deref c p) + n -> 0 <= stream_window c ->
  s_readOffset (deref c p) + n + stream_window c <= varint_max ->
  ctrl_inv c -> ctrl_inv (readLocked p n c).
Proof.
  intros Hp Hid Hn Hw Hle H. rewrite readLocked_eq by done. cbv zeta.
  rewrite (u64_id (s_readOffset (deref c p) + n)) by (unfold is_u64; lia).
  destruct (negb _ && _); simpl.
  - rewrite (u64_id (s_readOffset (deref c p) + n + _)) by (unfold is_u64; lia).
    eapply ctrl_queue; [reflexivity|done|done| |exact H]. simpl. unfold is_varint in *. lia.
  - eapply ctrl_same; [|exact H]. unfold kv. simpl. by rewrite app_nil_r.
Qed.

Lemma id_varint c p : ids_inv c -> ptr c p -> is_varint (s_id (deref c p)).
Proof. intros H Hp. pose proof (sid_range _ _ (id_stream _ H p Hp)). unfold is_varint. lia. Qed.

Lemma ctrl_tryRead p n c :
  ids_inv c -> flow_inv c -> ranges c -> ptr c p -> ctrl_inv c -> ctrl_inv (tryRead p n c).2.
Proof.
  intros Hi Hf [R1 R2 R3] Hp H. unfold tryRead. destruct (c_closeErr c); [done|].
  destruct (s_recvErr (deref c p)) eqn:He; [done|]. destruct (_ <? _)%nat.
  - set (data := take n (unread (deref c p))). cbn [snd].
    eapply ctrl_same; [apply kv_complete|].
    assert (Hp1 : ptr (upd p (took (length data)) c) p) by (simpl; by rewrite length_insert).
    destruct (took_fields (length data) (deref c p)) as (_ & _ & F3 & _ & _ & F6 & _).
    pose proof (stream_received c Hf p Hp). pose proof (fl_stream _ Hf p Hp) as Hs.
    pose proof (so_read _ _ Hs). pose proof (so_have _ _ Hs).
    assert (zlen data <= zlen (unread (deref c p))) by (subst data; rewrite length_take; lia).
    apply ctrl_read; rewrite ?deref_upd, ?F3, ?F6 by done; [done|by apply id_varint|lia| | |].
    + change (c_config (upd p (took (length data)) c)) with (c_config c). lia.
    + change (c_config (upd p (took (length data)) c)) with (c_config c). lia.
    + eapply ctrl_same; [apply kv_upd|done].
  - destruct (s_finRecv _); [done|]. by eapply ctrl_same; [|exact H].
Qed.

Lemma ctrl_cancelRead p code c :
  ids_inv c -> ptr c p -> is_varint code -> ctrl_inv c -> ctrl_inv (cancelRead p code c).
Proof.
  intros Hi Hp Hc H. unfold cancelRead. destruct (_ || _); [done|].
  eapply ctrl_same; [by rewrite kv_complete, kv_broadcast_read|].
  set (c1 := upd p clear_rbuf _).
  assert (H1 : ctrl_inv c1) by (by eapply ctrl_same; [|exact H]).
  forget c1. destruct (negb _); [|done].
  eapply ctrl_queue; [reflexivity|done|done| |exact H1]. split; [by apply id_varint|done].
Qed.

Lemma ctrl_resetSend p code r c :
  ids_inv c -> flow_inv c -> ptr c p -> is_varint code -> ctrl_inv c -> ctrl_inv (resetSendLocked p code r c).
Proof.
  intros Hi Hf Hp Hc H. unfold resetSendLocked. destruct (sendDone _); [done|].
  eapply ctrl_same; [by rewrite kv_complete, kv_broadcast_write|].
  set (c1 := stream_cancel p _ _).
  assert (H1 : ctrl_inv c1) by (eapply ctrl_same; [|exact H]; subst c1; by rewrite kv_cancel, kv_upd).
  pose proof (so_send _ _ (fl_stream _ Hf p Hp)). pose proof (so_sendMax _ _ (fl_stream _ Hf p Hp)).
  pose proof (id_varint c p Hi Hp) as Hid.
  eapply ctrl_queue; [reflexivity|done|done| |exact H1]. simpl. split_and!; [done|done|]. unfold is_varint. lia.
Qed.

(** * Every operation *)

Lemma kv_streamLocked id recv c : kv (streamLocked id recv c).2 = kv c.
Proof.
  unfold streamLocked. destruct (_ && _); [done|]. destruct (initiatedLocally c id); destruct (_ <=? _); try done.
  cbn [snd]. apply (open_loop_ind (fun c' => kv c' = kv c)); [|done].
  intros c' <- _. by destruct (streamDir id).
Qed.

Lemma ctrl_with_stream id recv k c :
  (forall p c1, found id recv c1 p -> ids_inv c1 -> flow_inv c1 -> ctrl_inv c1 -> ctrl_inv (k p c1).2) ->
  ids_inv c -> c_closeErr c = None -> c_ready c = true -> small_limits c ->
  flow_inv c -> ranges c -> ctrl_inv c -> ctrl_inv (with_stream id recv k c).2.
Proof.
  intros Hk Hi Hc Hr Hs Hf Hg H. unfold with_stream. destruct (streamLocked id recv c) as [r c1] eqn:E.
  destruct (streamLocked_ok _ _ _ _ _ E Hi Hc Hr Hs) as (H1 & K & Hfd).
  pose proof (flow_streamLocked id recv c Hf Hg) as [H2 _].
  pose proof (ctrl_same _ _ (kv_streamLocked id recv c) H) as H3.
  rewrite E in H2, H3. simpl in *. destruct r as [[p|]|e]; try done. apply Hk; [by apply Hfd|done..].
Qed.

Section exec.
Context {GA : GoAppend}.

Lemma kv_received n c c' : receivedLocked n c = inl c' -> kv c' = kv c.
Proof. unfold receivedLocked. destruct (_ <? _); intros; by simplify_eq. Qed.

Lemma kv_stream_frame id off data fin p c : kv (stream_frame id off data fin p c).2 = kv c.
Proof.
  unfold stream_frame. destruct (negb _); [done|]. destruct (s_finRecv _ || _); [by case_match|].
  destruct (_ <? _); [done|]. destruct (receivedLocked _ _) as [c1|] eqn:E; [|done].
  cbn [snd]. rewrite <- (kv_received _ _ _ E), kv_complete, kv_broadcast_read.
  destruct (s_readCancelled _); by autorewrite with kv.
Qed.

Lemma kv_reset_frame id code fs p c : kv (reset_frame id code fs p c).2 = kv c.
Proof.
  unfold reset_frame. destruct (_ || _); [done|]. destruct (s_recvReset _); [done|].
  destruct (_ <? _); [done|]. destruct (receivedLocked _ _) as [c1|] eqn:E; [|done].
  cbn [snd]. rewrite <- (kv_received _ _ _ E). by autorewrite with kv.
Qed.

Lemma ctrl_frame now f c :
  c_closeErr c = None -> frame_parsed f -> small_limits c ->
  ids_inv c -> flow_inv c -> ranges c -> ctrl_inv c -> ctrl_inv (handleFrameLocked now f c).2.
Proof.
  intros Hc Hfp Hs Hi Hf Hg H. destruct (c_ready c) eqn:Hr.
  2: { unfold handleFrameLocked. rewrite Hr. destruct f; try done. cbn [snd].
       eapply ctrl_same; [|exact H]. rewrite handleParametersLocked_eq. done. }
  unfold handleFrameLocked. rewrite Hr. destruct f; simpl; try done; simpl in Hfp.
  - apply ctrl_with_stream; try done. intros. eapply ctrl_same; [apply kv_reset_frame|done].
  - apply ctrl_with_stream; try done. intros p c1 F ? ? ?. apply ctrl_resetSend; try done; [apply F|tauto].
  - apply ctrl_with_stream; try done. intros. eapply ctrl_same; [apply kv_stream_frame|done].
  - unfold handleMaxData. destruct (_ <? _); [|done]. eapply ctrl_same; [|exact H]. done.
  - apply ctrl_with_stream; try done. intros p c1 F ? ? H1. simpl. destruct (_ <? _); [|done].
    eapply ctrl_same; [|exact H1]. done.
  - unfold handleMaxStreams. destruct (_ <? _); [|done]. eapply ctrl_same; [|exact H]. by destruct Uni.
  - by destruct Application.
  - eapply ctrl_same; [|exact H]. unfold handleDatagramLocked. repeat destruct (_ <? _); done.
  - unfold handlePingLocked. destruct Response.
    { eapply ctrl_same; [|exact H]. destruct (_ <=? _); [done|]. by destruct (_ =? _). }
    destruct (_ && _); [done|]. destruct H as [A1 A2 A3]. by split.
Qed.

Lemma ctrl_exec o c :
  ids_inv c -> flow_inv c -> ctrl_inv c -> in_range c -> valid o c -> ctrl_inv (exec o c).
Proof.
  intros Hi Hf H Hr Hv. pose proof (in_range_limits _ Hr) as Hs. apply in_range_ranges in Hr as Hg; [|done].
  destruct o; simpl in *; unfold holds_recv, holds_send, holds in Hv.
  - apply ctrl_frame; tauto.
  - eapply ctrl_same; [|exact H]. unfold tryOpen. destruct (c_closeErr c); [done|].
    destruct (_ <=? _); by destruct d.
  - eapply ctrl_same; [|exact H]. unfold tryAccept. destruct (c_closeErr c); [done|].
    destruct (i_queue _); [by destruct d|]. cbn [snd]. rewrite kv_complete. by destruct d.
  - apply ctrl_tryRead; tauto.
  - eapply ctrl_same; [|exact H]. unfold tryPeek. destruct (c_closeErr c); [done|].
    destruct (s_recvErr _); [done|]. destruct (_ <=? _)%nat; [done|]. by destruct (s_finRecv _).
  - apply ctrl_cancelRead; tauto.
  - by eapply ctrl_same; [|exact H].
  - eapply ctrl_same; [|exact H]. unfold trySend. destruct (sendErrLocked _ _); [done|].
    destruct (_ && _); [done|]. by destruct (_ <? _).
  - eapply ctrl_same; [|exact H]. unfold reserve. by destruct (sendErrLocked _ _).
  - eapply ctrl_same; [|exact H]. unfold finish. destruct (c_closeErr c); [done|].
    destruct (_ || _); [done|]. cbn [snd]. by autorewrite with kv.
  - unfold cancelWrite. destruct (bool_decide _); [done|]. apply ctrl_resetSend; tauto.
  - by eapply ctrl_same; [|exact H].
  - by eapply ctrl_same; [|exact H].
  - eapply ctrl_same; [|exact H]. unfold tryReceiveDatagram. by destruct (c_datagrams c).
  - eapply ctrl_same; [|exact H]. unfold requestPing. by destruct (_ && _).
  - destruct (c_closeErr c) eqn:Hc; [by unfold takeControl; rewrite Hc|].
    rewrite takeControl_eq by done. cbn [snd]. destruct H as [A1 A2 A3]. split; simpl; [done|done|].
    destruct (c_pingPending c); [apply u64_range|done].
  - eapply ctrl_same; [|exact H]. unfold terminate. destruct (c_closeErr c); [done|]. cbn [snd].
    rewrite conn_cancel_eq. set (c0 := if negb _ then _ else _).
    assert (E0 : kv c0 = kv c) by (subst c0; destruct (negb _); [rewrite close_handshake_eq|]; done).
    rewrite <- E0. forget c0. set (c1 := wake_streams _ _).
    assert (E1 : kv c1 = kv c0) by (subst c1; by autorewrite with kv). by rewrite <- E1.
  - by eapply ctrl_same; [|exact H].
  - by eapply ctrl_same; [|exact H].
  - by eapply ctrl_same; [|exact H].
Qed.

Lemma ctrl_init cfg isServer now : ctrl_inv (newConn cfg isServer now).
Proof. split; simpl; [done|apply is_varint_0|lia]. Qed.

Lemma reach_ctrl cfg isServer c : config_ok cfg -> reach cfg isServer c -> ctrl_inv c.
Proof.
  intros H Hr. induction Hr; [by apply ctrl_init|].
  apply ctrl_exec; try done; [by eapply reach_ids|by eapply reach_flow].
Qed.
End exec.

(** * What the write loop takes *)

Definition control_frame (f : frame) : Prop := frame_ok f /\ frame_bound f <= maxControlFrameSize.

Lemma queued_control f : queued f -> control_frame f.
Proof. unfold control_frame, maxControlFrameSize. destruct f; simpl; intros H; try done; (split; [tauto|lia]). Qed.

Lemma Forall_when {A} (P : A -> Prop) b x : (b = true -> P x) -> Forall P (when b x).
Proof. destruct b; simpl; [intros H; apply Forall_singleton; auto|by intros _; apply Forall_nil]. Qed.

Lemma takeControl_frames now c :
  ids_inv c -> flow_inv c -> ctrl_inv c -> in_range c -> Forall control_frame (takeControl now c).1.
Proof.
  intros Hi Hf [A1 A2 A3] Hr. destruct (c_closeErr c) eqn:Hc; [by unfold takeControl; rewrite Hc|].
  rewrite takeControl_eq by done. cbn [fst]. destruct Hr as (R1 & R2 & R3 & R4).
  pose proof (consumed_range c Hf). pose proof (fl_window _ Hf). pose proof (fl_limit _ Hf).
  pose proof (ok_stream_window _ (id_cfg _ Hi)).
  pose proof (id_in _ Hi dirBidi) as Ib. pose proof (id_in _ Hi dirUni) as Iu. simpl in Ib, Iu.
  assert (M60 : maxStreams = 2 ^ 60) by apply maxStreams_eq.
  repeat apply Forall_app_2; try (apply Forall_when; intros _); try (split; [|by vm_compute]); simpl.
  - eapply list.Forall_impl; [exact A1|]. apply queued_control.
  - unfold is_varint. lia.
  - lia.
  - lia.
  - done.
  - unfold is_varint. lia.
Qed.
