(* ===== verification/Wake.v ===== *)
(** Waiting and waking.

    A blocking call of the package is a loop: it tries, and when it cannot
    finish it waits for the channel that the try returned. [kept] relates the
    states before and after a transition: a channel that somebody may be
    waiting for is either closed, or still the one the next waiter gets, and
    then nothing the waiter looks at has improved. It follows that no wake-up
    is lost. *)

From S2P Require Import Prelude Varint Params Frame WriteLock Config State Core Stream Conn System Facts Ids Table Flow Life.

(** * The signals of a connection *)

Inductive slot := RD (p : nat) | WR (p : nat) | SND | OUT (d : dir) | IN (d : dir).

#[global] Instance slot_eq_dec : EqDecision slot.
Proof. solve_decision. Defined.

Definition sig_of (x : slot) (c : Conn) : signal :=
  match x with
  | RD p => s_readSignal (deref c p)
  | WR p => s_writeSignal (deref c p)
  | SND => c_sendSignal c
  | OUT d => o_signal (c_out d c)
  | IN d => i_signal (c_in d c)
  end.

Definition broadcast (x : slot) (c : Conn) : Conn :=
  match x with
  | RD p => broadcast_read p c
  | WR p => broadcast_write p c
  | SND => broadcast_send c
  | OUT d => broadcast_out d c
  | IN d => broadcast_in d c
  end.

Definition slot_ok (x : slot) (c : Conn) : Prop :=
  match x with RD p | WR p => ptr c p | _ => True end.

(** What a waiter on the slot looks at has not improved. *)
Definition rd_same (s s' : stream) : Prop :=
  s_canRecv s' = s_canRecv s /\ s_recvErr s' = s_recvErr s /\ s_finRecv s' = s_finRecv s /\ s_readDeadline s' = s_readDeadline s /\
  unread s' `suffix_of` unread s.
Definition wr_same (s s' : stream) : Prop :=
  s_canSend s' = s_canSend s /\ s_sendErr s' = s_sendErr s /\ s_finSent s' = s_finSent s /\ s_writeDeadline s' = s_writeDeadline s /\
  s_sendMax s' = s_sendMax s /\ s_sendOffset s <= s_sendOffset s'.

Definition same (x : slot) (c c' : Conn) : Prop :=
  c_closeErr c' = c_closeErr c /\
  match x with
  | RD p => rd_same (deref c p) (deref c' p)
  | WR p => wr_same (deref c p) (deref c' p)
  | SND => c_sendMax c' = c_sendMax c /\ c_sent c <= c_sent c'
  | OUT d => o_max (c_out d c') = o_max (c_out d c) /\ o_next (c_out d c) <= o_next (c_out d c')
  | IN d => i_queue (c_in d c') `suffix_of` i_queue (c_in d c)
  end.

Lemma rd_same_refl s : rd_same s s.
Proof. by split_and!. Qed.
Lemma wr_same_refl s : wr_same s s.
Proof. by split_and!. Qed.

Lemma same_refl x c : same x c c.
Proof.
  split; [done|]. destruct x; [apply rd_same_refl|apply wr_same_refl|lia|lia|done].
Qed.

Lemma same_trans x c1 c2 c3 : same x c1 c2 -> same x c2 c3 -> same x c1 c3.
Proof.
  intros [E1 H1] [E2 H2]. split; [congruence|]. destruct x; simpl in *; unfold rd_same, wr_same in *.
  - destruct H1 as (? & ? & ? & ? & ?), H2 as (? & ? & ? & ? & ?). split_and!; try congruence. by etransitivity.
  - destruct H1 as (? & ? & ? & ? & ? & ?), H2 as (? & ? & ? & ? & ? & ?). split_and!; try congruence. lia.
  - lia.
  - lia.
  - by etransitivity.
Qed.

(** The slots in [ex] may have changed in what their waiters look at. *)
Record kept (ex : slot -> Prop) (c c' : Conn) : Prop := {
  kp_closed : c_closed c ⊆ c_closed c';
  kp_length : (length (c_heap c) <= length (c_heap c'))%nat;
  kp_slot x ch : slot_ok x c -> sig_of x c = Some ch ->
    ch ∈ c_closed c' \/ (sig_of x c' = Some ch /\ (~ ex x -> same x c c'));
}.

Definition none : slot -> Prop := fun _ => False.

Lemma kept_refl ex c : kept ex c c.
Proof. split; [done|done|]. intros x ch _ H. right. split; [done|]. intros _. apply same_refl. Qed.

Lemma slot_ok_mono x c c' : (length (c_heap c) <= length (c_heap c'))%nat -> slot_ok x c -> slot_ok x c'.
Proof. destruct x; simpl; lia. Qed.

Lemma kept_trans ex c1 c2 c3 : kept ex c1 c2 -> kept ex c2 c3 -> kept ex c1 c3.
Proof.
  intros [A1 A2 A3] [B1 B2 B3]. split; [set_solver|lia|]. intros x ch Hx Hs.
  destruct (A3 x ch Hx Hs) as [Hc|[Hs2 H12]]; [left; set_solver|].
  destruct (B3 x ch (slot_ok_mono _ _ _ A2 Hx) Hs2) as [Hc|[Hs3 H23]]; [by left|].
  right. split; [done|]. intros Hex. eapply same_trans; auto.
Qed.

Lemma kept_weaken (ex ex' : slot -> Prop) c c' : (forall x, ex x -> ex' x) -> kept ex c c' -> kept ex' c c'.
Proof.
  intros Hw [A1 A2 A3]. split; [done|done|]. intros x ch Hx Hs.
  destruct (A3 x ch Hx Hs) as [|[? ?]]; [by left|right]. split; [done|]. auto.
Qed.

Lemma kept_none ex c c' : kept none c c' -> kept ex c c'.
Proof. by apply kept_weaken. Qed.

(** * Primitive transitions *)

(** What the slots depend on. *)
Definition wv (c : Conn) :=
  (c_heap c, c_closed c, c_closeErr c, (c_sendSignal c, c_sendMax c, c_sent c),
   (c_outBidi c, c_outUni c),
   (i_queue (c_inBidi c), i_signal (c_inBidi c), i_queue (c_inUni c), i_signal (c_inUni c))).

Lemma kept_same ex c c' : wv c' = wv c -> kept ex c c'.
Proof.
  unfold wv. intros E. injection E as E1 E2 E3 E4 E5 E6 E7 E8 E9 E10 E11 E12.
  assert (Ed : forall p, deref c' p = deref c p) by (intros; unfold deref; by rewrite E1).
  split; [by rewrite E2|by rewrite E1|]. intros x ch Hx Hs. right. split.
  - destruct x as [p|p| |[]|[]]; simpl in *; rewrite ?Ed; congruence.
  - intros _. split; [done|]. destruct x as [p|p| |[]|[]]; simpl; rewrite ?Ed, ?E4, ?E5, ?E6, ?E7, ?E8, ?E9, ?E11;
      [apply rd_same_refl|apply wr_same_refl|done..].
Qed.

Lemma kept_upd ex p f c :
  ptr c p ->
  (forall ch, s_readSignal (deref c p) = Some ch -> s_readSignal (f (deref c p)) = Some ch) ->
  (forall ch, s_writeSignal (deref c p) = Some ch -> s_writeSignal (f (deref c p)) = Some ch) ->
  (~ ex (RD p) -> rd_same (deref c p) (f (deref c p))) ->
  (~ ex (WR p) -> wr_same (deref c p) (f (deref c p))) -> kept ex c (upd p f c).
Proof.
  intros Hp Er Ew Hr Hw. pose proof (deref_upd c p f Hp) as Ed.
  assert (En : forall q, q <> p -> deref (upd p f c) q = deref c q).
  { intros q Hq. unfold deref, upd. simpl. by rewrite insert_lookup_total_ne. }
  split; [done|by simpl; rewrite length_insert|]. intros x ch Hx Hs. right. split.
  - destruct x as [q|q| |d|d]; simpl in *; try done.
    + destruct (decide (q = p)) as [->|]; [rewrite Ed; auto|by rewrite En].
    + destruct (decide (q = p)) as [->|]; [rewrite Ed; auto|by rewrite En].
  - intros Hex. split; [done|]. destruct x as [q|q| |d|d]; try done; simpl.
    + destruct (decide (q = p)) as [->|]; [rewrite Ed; auto|rewrite En by done; apply rd_same_refl].
    + destruct (decide (q = p)) as [->|]; [rewrite Ed; auto|rewrite En by done; apply wr_same_refl].
Qed.

Lemma closes sg ch c : sg = Some ch -> ch ∈ c_closed (signal_close sg c).
Proof. intros ->. simpl. set_solver. Qed.

Lemma broadcast_closes x ch c : sig_of x c = Some ch -> ch ∈ c_closed (broadcast x c).
Proof.
  intros H. destruct x as [p|p| |[]|[]]; simpl in *; rewrite H; set_solver.
Qed.

Lemma broadcast_closed x c : c_closed c ⊆ c_closed (broadcast x c).
Proof. destruct x as [p|p| |[]|[]]; simpl; repeat case_match; set_solver. Qed.

Lemma broadcast_length x c : length (c_heap (broadcast x c)) = length (c_heap c).
Proof. destruct x as [p|p| |[]|[]]; simpl; by rewrite ?length_insert. Qed.

(** A broadcast touches its own slot only. *)
Lemma deref_upd_other p f c c0 q :
  ptr c p -> c_heap c0 = c_heap c ->
  deref (upd p f c0) q = if decide (q = p) then f (deref c p) else deref c q.
Proof.
  intros Hp E. unfold deref, upd. simpl. unfold deref. rewrite E. destruct (decide (q = p)) as [->|].
  - by rewrite insert_lookup_total_eq.
  - by rewrite insert_lookup_total_ne.
Qed.

Lemma same_stream x c c' :
  wv (set_c_heap (c_heap c) (set_c_closed (c_closed c) c')) = wv c ->
  (forall q, slot_ok x c -> rd_same (deref c q) (deref c' q) /\ wr_same (deref c q) (deref c' q)) ->
  slot_ok x c -> same x c c'.
Proof.
  unfold wv. intros E Hd Hx. simpl in E. injection E as E3 E4 E5 E6 E7 E8 E9 E10 E11 E12.
  split; [done|]. destruct x as [q|q| |[]|[]]; simpl; rewrite ?E5, ?E6, ?E7, ?E8, ?E9, ?E11; try done.
  - by apply Hd.
  - by apply Hd.
Qed.

Lemma broadcast_other x y ch c :
  slot_ok x c -> slot_ok y c -> x <> y -> sig_of y c = Some ch ->
  sig_of y (broadcast x c) = Some ch /\ same y c (broadcast x c).
Proof.
  intros Hx Hy Hne Hs. destruct x as [p|p| |d|d]; simpl in Hx.
  - pose proof (fun q => deref_upd_other p (set_s_readSignal None) c
      (signal_close (s_readSignal (deref c p)) c) q Hx eq_refl) as Ed.
    change (upd p (set_s_readSignal None) (signal_close (s_readSignal (deref c p)) c)) with (broadcast_read p c) in Ed.
    split.
    + destruct y as [q|q| |d'|d']; simpl in *; rewrite ?Ed; try done; destruct (decide (q = p)) as [->|]; done.
    + apply same_stream; [done| |done]. intros q _. rewrite Ed. destruct (decide (q = p)) as [->|];
        (split; [by split_and!|by split_and!]).
  - pose proof (fun q => deref_upd_other p (set_s_writeSignal None) c
      (signal_close (s_writeSignal (deref c p)) c) q Hx eq_refl) as Ed.
    change (upd p (set_s_writeSignal None) (signal_close (s_writeSignal (deref c p)) c)) with (broadcast_write p c) in Ed.
    split.
    + destruct y as [q|q| |d'|d']; simpl in *; rewrite ?Ed; try done; destruct (decide (q = p)) as [->|]; done.
    + apply same_stream; [done| |done]. intros q _. rewrite Ed. destruct (decide (q = p)) as [->|];
        (split; [by split_and!|by split_and!]).
  - split; [by destruct y|]. split; [done|].
    destruct y as [q|q| |d'|d']; simpl; [apply rd_same_refl|apply wr_same_refl|done..].
  - split; [by destruct y as [q|q| |[]|[]], d|]. split; [by destruct d|].
    destruct y as [q|q| |[]|[]], d; simpl; first [apply rd_same_refl|apply wr_same_refl|done].
  - split; [by destruct y as [q|q| |[]|[]], d|]. split; [by destruct d|].
    destruct y as [q|q| |[]|[]], d; simpl; first [apply rd_same_refl|apply wr_same_refl|done].
Qed.

(** A transition that changes what the waiters of [x] look at, and then wakes
    them. *)
Lemma kept_broadcast ex x c c1 :
  slot_ok x c1 -> kept (fun y => x = y \/ ex y) c c1 -> kept ex c (broadcast x c1).
Proof.
  intros Hx [A1 A2 A3]. split.
  - etransitivity; [exact A1|apply broadcast_closed].
  - by rewrite broadcast_length.
  - intros y ch Hy Hs. destruct (A3 y ch Hy Hs) as [Hc|[Hs1 H1]].
    { left. eapply elem_of_subseteq; [apply broadcast_closed|done]. }
    destruct (decide (x = y)) as [->|Hne]; [left; by apply broadcast_closes|].
    destruct (broadcast_other x y ch c1) as [Hs2 H2]; try done.
    { by eapply slot_ok_mono. }
    right. split; [done|]. intros Hex. eapply same_trans; [apply H1; tauto|done].
Qed.

(** A transition of the connection's own slots. *)
Lemma kept_conn (ex : slot -> Prop) c c' :
  c_heap c' = c_heap c -> c_closed c' = c_closed c -> c_closeErr c' = c_closeErr c ->
  (forall ch, c_sendSignal c = Some ch -> c_sendSignal c' = Some ch) ->
  (~ ex SND -> c_sendMax c' = c_sendMax c /\ c_sent c <= c_sent c') ->
  (forall d, (forall ch, o_signal (c_out d c) = Some ch -> o_signal (c_out d c') = Some ch) /\
    (~ ex (OUT d) -> o_max (c_out d c') = o_max (c_out d c) /\ o_next (c_out d c) <= o_next (c_out d c'))) ->
  (forall d, (forall ch, i_signal (c_in d c) = Some ch -> i_signal (c_in d c') = Some ch) /\
    (~ ex (IN d) -> i_queue (c_in d c') `suffix_of` i_queue (c_in d c))) ->
  kept ex c c'.
Proof.
  intros Eh Ec El Hs1 Hs2 Ho Hi.
  assert (Ed : forall p, deref c' p = deref c p) by (intros; unfold deref; by rewrite Eh).
  split; [by rewrite Ec|by rewrite Eh|]. intros x ch Hx Hs. right. split.
  - destruct x as [p|p| |d|d]; simpl in *; rewrite ?Ed; [done|done|auto|by apply Ho|by apply Hi].
  - intros Hex. split; [done|]. destruct x as [p|p| |d|d]; simpl; rewrite ?Ed;
      [apply rd_same_refl|apply wr_same_refl|auto|by apply Ho|by apply Hi].
Qed.

(** A new stream. *)
Lemma kept_grow ex c s : kept ex c (set_c_heap (c_heap c ++ [s]) c).
Proof.
  assert (Ed : forall p, ptr c p -> deref (set_c_heap (c_heap c ++ [s]) c) p = deref c p).
  { intros p Hp. unfold deref. simpl. by rewrite lookup_total_app_l. }
  split; [done|simpl; rewrite length_app; lia|]. intros x ch Hx Hs. right. split.
  - destruct x; simpl in *; rewrite ?Ed; done.
  - intros _. split; [done|]. destruct x; simpl in *; rewrite ?Ed by done;
      first [apply rd_same_refl|apply wr_same_refl|done].
Qed.

Lemma kept_complete ex p c : ptr c p -> kept ex c (completeLocked p c).
Proof.
  intros Hp. destruct (completing (deref c p)) eqn:E; [|rewrite completeLocked_no by done; apply kept_refl].
  rewrite completeLocked_eq. cbv zeta. rewrite E.
  eapply kept_trans; [apply (kept_upd ex p completed c Hp)|]; try done.
  - intros _. unfold rd_same. split_and!; try done. unfold unread. simpl. rewrite drop_nil. apply suffix_nil.
  - apply kept_same. unfold wv, upd, complete_in. simpl. by repeat destruct (_ && _).
Qed.

(** * The operations of streams *)

Lemma kept_consume ex n c : kept ex c (consumeLocked n c).
Proof. by apply kept_same. Qed.

Lemma ptr_upd p q f c : ptr c p -> ptr (upd q f c) p.
Proof. simpl. by rewrite length_insert. Qed.

Lemma ptr_broadcast_read p q c : ptr c p -> ptr (broadcast_read q c) p.
Proof. intros Hp. unfold broadcast_read. by apply ptr_upd. Qed.

Lemma ptr_broadcast_write p q c : ptr c p -> ptr (broadcast_write q c) p.
Proof. intros Hp. unfold broadcast_write. by apply ptr_upd. Qed.

(** A change of one side of a stream, up to the other side and the signals. *)
Lemma kept_recv p f c :
  ptr c p ->
  (forall s, s_readSignal (f s) = s_readSignal s /\ s_writeSignal (f s) = s_writeSignal s /\
    s_sendErr (f s) = s_sendErr s /\ s_finSent (f s) = s_finSent s /\
    s_writeDeadline (f s) = s_writeDeadline s /\ s_sendMax (f s) = s_sendMax s /\
    s_sendOffset (f s) = s_sendOffset s /\ s_canSend (f s) = s_canSend s) ->
  kept (fun x => RD p = x \/ none x) c (upd p f c).
Proof.
  intros Hp Hf. destruct (Hf (deref c p)) as (E1 & E2 & E3 & E4 & E5 & E6 & E7 & E8).
  apply kept_upd; [done|congruence|congruence| |].
  - intros H. destruct H. by left.
  - intros _. split_and!; try done. lia.
Qed.

Lemma kept_send p f c :
  ptr c p ->
  (forall s, s_readSignal (f s) = s_readSignal s /\ s_writeSignal (f s) = s_writeSignal s /\
    s_recvErr (f s) = s_recvErr s /\ s_finRecv (f s) = s_finRecv s /\
    s_readDeadline (f s) = s_readDeadline s /\ s_rbuf (f s) = s_rbuf s /\ s_roff (f s) = s_roff s /\
    s_canRecv (f s) = s_canRecv s) ->
  kept (fun x => WR p = x \/ none x) c (upd p f c).
Proof.
  intros Hp Hf. destruct (Hf (deref c p)) as (E1 & E2 & E3 & E4 & E5 & E6 & E7 & E8).
  apply kept_upd; [done|congruence|congruence| |].
  - intros _. split_and!; try done. unfold unread. by rewrite E6, E7.
  - intros H. destruct H. by left.
Qed.

Lemma took_suffix n s : unread (took n s) `suffix_of` unread s.
Proof.
  unfold took, unread. destruct (_ =? _)%nat; simpl; [apply suffix_nil|].
  rewrite <- drop_drop. exists (take n (drop (s_roff s) (s_rbuf s))). by rewrite take_drop.
Qed.

Lemma kept_readLocked ex p n c : ptr c p -> kept ex c (readLocked p n c).
Proof.
  intros Hp. rewrite readLocked_eq by done. cbv zeta. set (s := deref c p).
  set (s' := set_s_recvMax _ _).
  eapply kept_trans; [apply (kept_upd ex p (fun _ => s') c Hp)|]; try done. by apply kept_same.
Qed.

(** A waiter gets the channel that is there, or a new one. *)
Lemma kept_wait_read p n k c :
  ptr c p -> kept none c (upd p (set_s_readSignal (Some (default k (s_readSignal (deref c p))))) (set_c_chans n c)).
Proof.
  intros Hp. eapply kept_trans; [by apply (kept_same none c (set_c_chans n c))|].
  apply kept_upd; try done. intros ch E. change (deref (set_c_chans n c) p) with (deref c p) in E.
  simpl. by rewrite E.
Qed.

Lemma kept_wait_write p n k c :
  ptr c p -> kept none c (upd p (set_s_writeSignal (Some (default k (s_writeSignal (deref c p))))) (set_c_chans n c)).
Proof.
  intros Hp. eapply kept_trans; [by apply (kept_same none c (set_c_chans n c))|].
  apply kept_upd; try done. intros ch E. change (deref (set_c_chans n c) p) with (deref c p) in E.
  simpl. by rewrite E.
Qed.

Lemma kept_tryRead p n c : ptr c p -> kept none c (tryRead p n c).2.
Proof.
  intros Hp. unfold tryRead. destruct (c_closeErr c); [apply kept_refl|].
  destruct (s_recvErr _); [apply kept_refl|]. destruct (_ <? _)%nat.
  - cbn [snd]. set (k := length _).
    eapply kept_trans; [apply (kept_upd none p (took k) c Hp)|].
    1-2: unfold took; by destruct (_ =? _)%nat.
    1: { intros _. pose proof (took_suffix k (deref c p)). unfold rd_same. split_and!; try done;
           unfold took; by destruct (_ =? _)%nat. }
    1: { intros _. unfold took, wr_same. by destruct (_ =? _)%nat. }
    eapply kept_trans; [apply kept_readLocked; by apply ptr_upd|]. apply kept_complete.
    rewrite readLocked_eq by (by apply ptr_upd). simpl. by rewrite !length_insert.
  - destruct (s_finRecv _); [apply kept_refl|]. by apply kept_wait_read.
Qed.

Lemma kept_tryPeek p n c : ptr c p -> kept none c (tryPeek p n c).2.
Proof.
  intros Hp. unfold tryPeek. destruct (c_closeErr c); [apply kept_refl|].
  destruct (s_recvErr _); [apply kept_refl|]. destruct (_ <=? _)%nat; [apply kept_refl|].
  destruct (s_finRecv _); [apply kept_refl|]. by apply kept_wait_read.
Qed.

Lemma kept_cancelRead p code c : ptr c p -> kept none c (cancelRead p code c).
Proof.
  intros Hp. unfold cancelRead. destruct (_ || _); [apply kept_refl|].
  set (c1 := upd p clear_rbuf _).
  assert (K1 : kept (fun x => RD p = x \/ none x) c c1 /\ ptr c1 p).
  { subst c1. set (f := fun s : stream => set_s_readCancelled true _).
    assert (Hp1 : ptr (upd p f c) p) by (by apply ptr_upd).
    assert (K : kept (fun x => RD p = x \/ none x) c (upd p f c)) by (by apply kept_recv).
    set (c0 := upd p f c) in *. forget c0. set (n := zlen _).
    assert (Hp2 : ptr (consumeLocked n c0) p) by (by rewrite heap_consume).
    assert (K2 : kept (fun x => RD p = x \/ none x) c (consumeLocked n c0))
      by (eapply kept_trans; [exact K|apply kept_consume]).
    set (c2 := consumeLocked n c0) in *. forget c2. split; [|by apply ptr_upd].
    eapply kept_trans; [exact K2|]. by apply kept_recv. }
  destruct K1 as [K1 Hp1]. forget c1. destruct (negb _);
    (eapply kept_trans; [apply (kept_broadcast none (RD p))|apply kept_complete; by apply ptr_broadcast_read]);
    try done.
  eapply kept_trans; [exact K1|]. by apply kept_same.
Qed.

Lemma kept_setReadDeadline p t c : ptr c p -> kept none c (setReadDeadline p t c).
Proof.
  intros Hp. apply (kept_broadcast none (RD p)); [by apply ptr_upd|]. by apply kept_recv.
Qed.

Lemma kept_setWriteDeadline p t c : ptr c p -> kept none c (setWriteDeadline p t c).
Proof.
  intros Hp. apply (kept_broadcast none (WR p)); [by apply ptr_upd|]. by apply kept_send.
Qed.

Lemma kept_cancel ex p cause c : ptr c p -> kept ex c (stream_cancel p cause c).
Proof.
  intros Hp. unfold stream_cancel. destruct (negb _); [by apply kept_same|].
  destruct (stream_cause _ _); [apply kept_refl|]. by apply kept_upd.
Qed.

Lemma ptr_cancel p q cause c : ptr c p -> ptr (stream_cancel q cause c) p.
Proof. intros Hp. by rewrite (only_length _ _ _ (only_cancel q cause c)). Qed.

Lemma kept_finish p c : ptr c p -> kept none c (finish p c).2.
Proof.
  intros Hp. unfold finish. destruct (c_closeErr c); [apply kept_refl|].
  destruct (_ || _); [apply kept_refl|]. cbn [snd].
  assert (Hp1 : ptr (stream_cancel p None (upd p (set_s_finSent true) c)) p) by (by apply ptr_cancel, ptr_upd).
  eapply kept_trans; [apply (kept_broadcast none (WR p)); [done|]|apply kept_complete; by apply ptr_broadcast_write].
  eapply kept_trans; [by apply (kept_send p (set_s_finSent true))|]. apply kept_cancel. by apply ptr_upd.
Qed.

Lemma kept_resetSend p code r c : ptr c p -> kept none c (resetSendLocked p code r c).
Proof.
  intros Hp. unfold resetSendLocked. destruct (sendDone _); [apply kept_refl|].
  set (c1 := stream_cancel p _ _).
  assert (K1 : kept (fun x => WR p = x \/ none x) c c1 /\ ptr c1 p).
  { subst c1. split; [|by apply ptr_cancel, ptr_upd].
    eapply kept_trans; [by apply (kept_send p (set_s_sendErr (Some (ErrStream (s_id (deref c p)) code r))))|].
    apply kept_cancel. by apply ptr_upd. }
  destruct K1 as [K1 Hp1].
  eapply kept_trans; [apply (kept_broadcast none (WR p))|apply kept_complete; by apply ptr_broadcast_write]; [done|].
  eapply kept_trans; [exact K1|]. by apply kept_same.
Qed.

Lemma kept_trySend now p c : ptr c p -> kept none c (trySend now p c).2.
Proof.
  intros Hp. unfold trySend. destruct (sendErrLocked _ _); [apply kept_refl|].
  destruct (_ && _); [apply kept_refl|]. destruct (_ <? _); [apply kept_refl|]. cbn [snd signal_wait].
  set (c1 := upd p _ _).
  assert (K1 : kept none c c1) by (by apply kept_wait_write).
  forget c1. eapply kept_trans; [exact K1|]. apply kept_conn; try done; simpl.
  intros ch E. by rewrite E.
Qed.

Lemma kept_reserve p n c : flow_inv c -> ptr c p -> 0 <= n -> kept none c (reserve p n c).2.
Proof.
  intros Hf Hp Hn. unfold reserve. destruct (sendErrLocked _ _); [apply kept_refl|]. cbn [snd].
  pose proof (sendCredit_range p c Hf Hp) as (C1 & C2 & C3). set (k := Z.min (Z.min n maxStreamData) _).
  assert (Hk : 0 <= k <= sendCreditLocked p c) by (subst k; assert (0 <= maxStreamData) by done; lia).
  pose proof (stream_sent c Hf p Hp). pose proof (fl_sendLimit _ Hf). pose proof (fl_sendMax _ Hf).
  clearbody k. rewrite !u64_id by (unfold is_u64; lia).
  eapply kept_trans; [apply (kept_upd none p (set_s_sendOffset (s_sendOffset (deref c p) + k)) c Hp)|]; try done.
  - intros _. unfold wr_same. simpl. split_and!; try done. lia.
  - apply kept_conn; try done; simpl; [lia|by intros []..].
Qed.

(** * The operations of the connection *)

Lemma kept_maxStreamData p m c :
  ptr c p -> kept none c (broadcast_write p (upd p (set_s_sendMax m) c)).
Proof. intros Hp. apply (kept_broadcast none (WR p)); [by apply ptr_upd|]. by apply kept_send. Qed.

Lemma kept_maxData m c : kept none c (handleMaxData m c).
Proof.
  unfold handleMaxData. destruct (_ <? _); [|apply kept_refl].
  apply (kept_broadcast none SND); [done|]. apply kept_conn; try done. intros H. destruct H. by left.
Qed.

Lemma kept_maxStreams uni m c : kept none c (handleMaxStreams uni m c).
Proof.
  unfold handleMaxStreams. set (d := if uni then dirUni else dirBidi).
  destruct (_ <? _); [|apply kept_refl]. apply (kept_broadcast none (OUT d)); [done|].
  apply kept_conn; try by destruct d.
  intros d'. split; [by destruct d, d'|]. intros H. destruct (decide (d' = d)) as [->|Hne]; [destruct H; by left|].
  by destruct d, d'.
Qed.

Lemma kept_parameters params c : kept none c (handleParametersLocked params c).
Proof.
  rewrite handleParametersLocked_eq. cbv zeta. set (c0 := set_c_ready true _).
  apply (kept_broadcast none (OUT dirUni)); [done|]. apply (kept_broadcast _ (OUT dirBidi)); [done|].
  apply (kept_broadcast _ SND); [done|]. subst c0. apply kept_conn; try done.
  - intros H. destruct H. by left.
  - intros []; (split; [done|]); intros H; destruct H; tauto.
Qed.

Lemma kept_open_incoming d c : kept none c (open_incoming d c).
Proof.
  unfold open_incoming. cbn [newStreamLocked].
  set (c1 := set_c_streams _ _).
  assert (K1 : kept none c c1).
  { subst c1. eapply kept_trans; [apply kept_grow|]. by apply kept_same. }
  eapply kept_trans; [exact K1|]. clear K1. forget c1.
  apply (kept_broadcast none (IN d)); [done|]. apply kept_conn; try by destruct d.
  intros d'. split; [by destruct d, d'|]. intros H. destruct (decide (d' = d)) as [->|Hne]; [destruct H; by left|].
  by destruct d, d'.
Qed.

Lemma kept_streamLocked id recv c : kept none c (streamLocked id recv c).2.
Proof.
  unfold streamLocked. destruct (_ && _); [apply kept_refl|].
  destruct (initiatedLocally c id); destruct (_ <=? _); try apply kept_refl. cbn [snd].
  apply (open_loop_ind (kept none c)); [|apply kept_refl].
  intros c' K _. eapply kept_trans; [exact K|apply kept_open_incoming].
Qed.

Lemma kept_with_stream id recv k c :
  (forall p c1, found id recv c1 p -> kept none c1 (k p c1).2) ->
  ids_inv c -> c_closeErr c = None -> c_ready c = true -> small_limits c ->
  kept none c (with_stream id recv k c).2.
Proof.
  intros Hk Hi Hc Hr Hs. unfold with_stream. pose proof (kept_streamLocked id recv c) as K.
  destruct (streamLocked id recv c) as [r c1] eqn:E.
  destruct (streamLocked_ok _ _ _ _ _ E Hi Hc Hr Hs) as (_ & _ & Hfd).
  destruct r as [[p|]|e]; try done. eapply kept_trans; [exact K|]. apply Hk. by apply Hfd.
Qed.

Section frames.
Context {GA : GoAppend}.

Lemma kept_buffer p data c :
  ptr c p -> kept (fun x => RD p = x \/ none x) c (upd p (bufferLocked data) c).
Proof.
  intros Hp. apply kept_recv; [done|]. intros s. unfold bufferLocked, append_rbuf.
  destruct (_ && _); simpl; by destruct (_ <=? _)%nat.
Qed.

Lemma received_wv n c c' : receivedLocked n c = inl c' -> wv c' = wv c.
Proof. unfold receivedLocked. destruct (_ <? _); intros; by simplify_eq. Qed.

Lemma kept_stream_frame id off data fin p c : ptr c p -> kept none c (stream_frame id off data fin p c).2.
Proof.
  intros Hp. unfold stream_frame. destruct (negb _); [apply kept_refl|].
  destruct (s_finRecv _ || _); [case_match; apply kept_refl|]. destruct (_ <? _); [apply kept_refl|].
  destruct (receivedLocked _ _) as [c0|] eqn:E0; [|apply kept_refl]. apply received_wv in E0.
  assert (Hp0 : ptr c0 p) by (unfold wv in E0; assert (X : c_heap c0 = c_heap c) by congruence; by rewrite X).
  apply (kept_same none) in E0. eapply kept_trans; [exact E0|]. clear E0.
  set (b := s_readCancelled _). clearbody b. cbn [snd]. set (f := fun s : stream => set_s_finRecv fin _).
  assert (K1 : kept (fun x => RD p = x \/ none x) c0 (upd p f c0)) by (by apply kept_recv).
  assert (Hp1 : ptr (upd p f c0) p) by (by apply ptr_upd).
  set (c1 := upd p f c0) in *. forget c1.
  destruct b; (eapply kept_trans; [apply (kept_broadcast none (RD p))|apply kept_complete; apply ptr_broadcast_read]).
  - exact Hp1.
  - eapply kept_trans; [exact K1|apply kept_consume].
  - exact Hp1.
  - by apply ptr_upd.
  - eapply kept_trans; [exact K1|by apply kept_buffer].
  - by apply ptr_upd.
Qed.

Lemma kept_reset_frame id code fs p c : ptr c p -> kept none c (reset_frame id code fs p c).2.
Proof.
  intros Hp. unfold reset_frame. destruct (_ || _); [apply kept_refl|].
  destruct (s_recvReset _); [apply kept_refl|]. destruct (_ <? _); [apply kept_refl|].
  destruct (receivedLocked _ _) as [c0|] eqn:E0; [|apply kept_refl]. apply received_wv in E0.
  assert (Hp0 : ptr c0 p) by (unfold wv in E0; assert (X : c_heap c0 = c_heap c) by congruence; by rewrite X).
  apply (kept_same none) in E0. eapply kept_trans; [exact E0|]. clear E0. cbn [snd]. set (n := u64 _).
  assert (K1 : kept (fun x => RD p = x \/ none x) c0 (consumeLocked n c0)) by apply kept_consume.
  assert (Hp1 : ptr (consumeLocked n c0) p) by (by rewrite heap_consume).
  set (c1 := consumeLocked n c0) in *. forget c1.
  eapply kept_trans; [apply (kept_broadcast none (RD p)); [by apply ptr_upd|]|
    apply kept_complete; apply ptr_broadcast_read; by apply ptr_upd].
  eapply kept_trans; [exact K1|]. apply kept_recv; [done|]. intros s. unfold after_reset. simpl.
  by destruct (s_recvErr s).
Qed.

Lemma kept_frame now f c :
  ids_inv c -> c_closeErr c = None -> small_limits c -> kept none c (handleFrameLocked now f c).2.
Proof.
  intros Hi Hc Hs. destruct (c_ready c) eqn:Hr.
  2: { unfold handleFrameLocked. rewrite Hr. destruct f; try apply kept_refl. apply kept_parameters. }
  unfold handleFrameLocked. rewrite Hr. destruct f; simpl; try apply kept_refl.
  - apply kept_with_stream; try done. intros p c1 F. apply kept_reset_frame, F.
  - apply kept_with_stream; try done. intros p c1 F. apply kept_resetSend, F.
  - apply kept_with_stream; try done. intros p c1 F. apply kept_stream_frame, F.
  - apply kept_maxData.
  - apply kept_with_stream; try done. intros p c1 F. simpl. destruct (_ <? _); [|apply kept_refl].
    apply kept_maxStreamData, F.
  - apply kept_maxStreams.
  - destruct Application; apply kept_refl.
  - apply kept_same. unfold handleDatagramLocked. repeat destruct (_ <? _); done.
  - apply kept_same. unfold handlePingLocked. destruct Response;
      [destruct (_ <=? _); [done|]; by destruct (_ =? _)|]. by destruct (_ && _).
Qed.
End frames.

Lemma kept_open d c : ids_inv c -> kept none c (tryOpen d c).2.
Proof.
  intros Hi. unfold tryOpen. destruct (c_closeErr c); [apply kept_refl|].
  pose proof (id_out _ Hi d) as Ho. destruct (Z.leb_spec (o_max (c_out d c)) (o_next (c_out d c))).
  - apply kept_conn; try by destruct d. intros d'. split.
    + intros ch E. destruct d, d'; simpl in *; by rewrite ?E.
    + intros _. destruct d, d'; simpl; lia.
  - cbn [newStreamLocked snd]. set (c1 := set_c_streams _ _). set (p := length (c_heap c)).
    assert (K1 : kept none c c1).
    { subst c1. eapply kept_trans; [apply kept_grow|]. by apply kept_same. }
    assert (Hp1 : ptr c1 p) by (subst c1 p; simpl; rewrite length_app; simpl; lia).
    assert (Eo : forall d, c_out d c1 = c_out d c) by (by intros []).
    forget c1. eapply kept_trans; [exact K1|].
    eapply kept_trans; [by apply (kept_upd none p (set_s_accepted true) c1 Hp1)|].
    apply kept_conn; try by destruct d. intros d'. split; [by destruct d, d'|]. intros _.
    specialize (Eo d). destruct d, d'; simpl in *; rewrite ?Eo, ?u64_id by (unfold is_u64; lia); lia.
Qed.

Lemma kept_accept d c : ids_inv c -> kept none c (tryAccept d c).2.
Proof.
  intros Hi. unfold tryAccept. destruct (c_closeErr c); [apply kept_refl|].
  destruct (i_queue (c_in d c)) as [|p queue] eqn:Eq.
  - apply kept_conn; try by destruct d. intros d'. split.
    + intros ch E. destruct d, d'; simpl in *; by rewrite ?E.
    + intros _. destruct d, d'; simpl in *; by rewrite ?Eq.
  - assert (Hp : ptr c p) by (apply (id_queue _ Hi d p); rewrite Eq; left). cbn [snd].
    set (c1 := set_c_in d _ c).
    assert (K1 : kept none c c1).
    { subst c1. apply kept_conn; try by destruct d. intros d'. split; [by destruct d, d'|]. intros _.
      destruct d, d'; simpl in *; rewrite ?Eq; try done; by exists [p]. }
    assert (Hp1 : ptr c1 p) by (subst c1; by destruct d).
    forget c1. eapply kept_trans; [exact K1|].
    eapply kept_trans; [by apply (kept_upd none p (set_s_accepted true) c1 Hp1)|].
    apply kept_complete. by apply ptr_upd.
Qed.

(** * The end of the connection *)

Definition broadcasts (xs : list slot) (c : Conn) : Conn := foldl (fun c x => broadcast x c) c xs.

Lemma broadcasts_closed xs c : c_closed c ⊆ c_closed (broadcasts xs c).
Proof.
  revert c. induction xs as [|x xs IH]; intros c; [done|]. simpl.
  etransitivity; [apply (broadcast_closed x)|apply IH].
Qed.

Lemma broadcasts_close xs c x ch :
  Forall (fun x => slot_ok x c) xs -> x ∈ xs -> sig_of x c = Some ch -> ch ∈ c_closed (broadcasts xs c).
Proof.
  revert c. induction xs as [|y xs IH]; intros c Hok Hin Hs; [by apply not_elem_of_nil in Hin|].
  apply list.Forall_cons in Hok as [Hy Hxs]. simpl.
  assert (Hxs' : Forall (fun x => slot_ok x (broadcast y c)) xs).
  { eapply list.Forall_impl; [exact Hxs|]. intros z Hz. eapply slot_ok_mono; [|exact Hz]. by rewrite broadcast_length. }
  destruct (decide (y = x)) as [->|Hne].
  - eapply elem_of_subseteq; [apply broadcasts_closed|by apply broadcast_closes].
  - apply elem_of_cons in Hin as [->|Hin]; [done|]. apply IH; [done|done|].
    apply broadcast_other; try done. by eapply list.Forall_forall in Hxs.
Qed.

Lemma wake_streams_broadcasts ps c :
  wake_streams ps c = broadcasts (mjoin ((fun p => [RD p; WR p]) <$> ps)) c.
Proof. revert c. induction ps as [|p ps IH]; intros c; [done|]. simpl. by rewrite IH. Qed.

Lemma closed_streams m c : c_closed (set_c_streams m c) = c_closed c.
Proof. done. Qed.

Lemma terminate_broadcasts c :
  broadcast_in dirUni (broadcast_out dirUni (broadcast_in dirBidi (broadcast_out dirBidi (broadcast_send c)))) =
  broadcasts [SND; OUT dirBidi; IN dirBidi; OUT dirUni; IN dirUni] c.
Proof. unfold broadcasts. cbn [foldl broadcast]. reflexivity. Qed.

(** The stream of a slot is in the table. *)
Definition live (x : slot) (c : Conn) : Prop :=
  match x with RD p | WR p => s_done (deref c p) = false | _ => True end.

Lemma terminate_closes e c x ch :
  ids_inv c -> c_closeErr c = None -> slot_ok x c -> live x c -> sig_of x c = Some ch ->
  ch ∈ c_closed (terminate e c).2.
Proof.
  intros Hi Hc Hx Hl Hs. unfold terminate. rewrite Hc. cbn [snd]. rewrite conn_cancel_eq.
  set (c0 := if negb _ then _ else _).
  assert (E0 : c_heap c0 = c_heap c /\ c_streams c0 = c_streams c /\
    c_sendSignal c0 = c_sendSignal c /\ (forall d, c_out d c0 = c_out d c) /\ (forall d, c_in d c0 = c_in d c)).
  { subst c0. destruct (negb _); [rewrite close_handshake_eq|]; (split_and!; [done|done|done|by intros []|by intros []]). }
  forget c0. destruct E0 as (E1 & E2 & E3 & E4 & E5).
  assert (Hs0 : sig_of x c0 = Some ch).
  { destruct x; simpl in *; unfold deref in *; rewrite ?E1, ?E3, ?E4, ?E5; done. }
  rewrite wake_streams_broadcasts. set (ps := snd <$> map_to_list _).
  assert (Hps : ps = snd <$> map_to_list (c_streams c)) by (subst ps; simpl; by rewrite E2).
  rewrite Hps. clear ps Hps.
  rewrite terminate_broadcasts.
  set (ys := mjoin _).
  assert (Hb : forall zs, broadcasts ys (broadcasts zs c0) = broadcasts (zs ++ ys) c0)
    by (intros; unfold broadcasts; by rewrite foldl_app).
  rewrite Hb, closed_streams. apply broadcasts_close with x; [| |done].
  - apply Forall_app_2; [by repeat constructor|]. apply list.Forall_forall. intros y Hy.
    apply list_elem_of_join in Hy as (l & Hy & Hl'). apply list_elem_of_fmap in Hl' as (p & -> & Hp).
    apply list_elem_of_fmap in Hp as ([id q] & -> & Hp). apply elem_of_map_to_list in Hp.
    apply (id_streams _ Hi Hc) in Hp as (Hp & _). rewrite <- E1 in Hp.
    repeat (apply elem_of_cons in Hy as [->|Hy]; [done|]). by apply not_elem_of_nil in Hy.
  - apply elem_of_app. destruct x as [p|p| |[]|[]]; try (left; rewrite !elem_of_cons; tauto); right.
    + apply list_elem_of_join. exists [RD p; WR p]. split; [left|]. apply list_elem_of_fmap.
      exists p. split; [done|]. apply list_elem_of_fmap. exists (s_id (deref c p), p). split; [done|].
      apply elem_of_map_to_list. by apply (id_streams _ Hi Hc).
    + apply list_elem_of_join. exists [RD p; WR p]. split; [right; left|]. apply list_elem_of_fmap.
      exists p. split; [done|]. apply list_elem_of_fmap. exists (s_id (deref c p), p). split; [done|].
      apply elem_of_map_to_list. by apply (id_streams _ Hi Hc).
Qed.

(** * Every operation, and every run *)

Section runs.
Context {GA : GoAppend}.

Lemma terminate_closed e c : c_closed c ⊆ c_closed (terminate e c).2.
Proof.
  unfold terminate. destruct (c_closeErr c); [done|]. cbn [snd]. rewrite conn_cancel_eq.
  set (c0 := if negb _ then _ else _).
  assert (E0 : c_closed c0 = c_closed c)
    by (subst c0; destruct (negb _); [rewrite close_handshake_eq|]; done).
  rewrite <- E0. forget c0. rewrite wake_streams_broadcasts, terminate_broadcasts, closed_streams.
  etransitivity; [|apply broadcasts_closed]. apply broadcasts_closed.
Qed.

Lemma terminate_length e c : length (c_heap (terminate e c).2) = length (c_heap c).
Proof. apply fv_length, fv_terminate. Qed.

Lemma exec_kept o c :
  ids_inv c -> flow_inv c -> in_range c -> valid o c ->
  (forall e, o <> OpTerminate e) -> kept none c (exec o c).
Proof.
  intros Hi Hf Hr Hv Hne. pose proof (in_range_limits _ Hr) as Hs.
  destruct o; simpl in *; unfold holds_recv, holds_send, holds in Hv.
  - apply kept_frame; tauto.
  - by apply kept_open.
  - by apply kept_accept.
  - apply kept_tryRead; tauto.
  - apply kept_tryPeek; tauto.
  - apply kept_cancelRead; tauto.
  - apply kept_setReadDeadline; tauto.
  - apply kept_trySend; tauto.
  - apply kept_reserve; [done|tauto|lia].
  - apply kept_finish; tauto.
  - unfold cancelWrite. destruct (bool_decide _); [apply kept_refl|]. apply kept_resetSend; tauto.
  - apply kept_setWriteDeadline; tauto.
  - apply kept_upd; [tauto|done..].
  - apply kept_same. unfold tryReceiveDatagram. by destruct (c_datagrams c).
  - apply kept_same. unfold requestPing. by destruct (_ && _).
  - apply kept_same. destruct (c_closeErr c) eqn:Hc; [by unfold takeControl; rewrite Hc|].
    by rewrite takeControl_eq.
  - by destruct (Hne e).
  - by apply kept_same.
  - by apply kept_same.
  - by apply kept_same.
Qed.

(** The waiters of a slot of a live stream. *)
Lemma exec_slot o c x ch :
  ids_inv c -> flow_inv c -> in_range c -> valid o c -> slot_ok x c -> live x c -> sig_of x c = Some ch ->
  ch ∈ c_closed (exec o c) \/
  (slot_ok x (exec o c) /\ sig_of x (exec o c) = Some ch /\ same x c (exec o c)).
Proof.
  intros Hi Hf Hr Hv Hx Hl Hs.
  assert (Hd : (exists e, o = OpTerminate e) \/ forall e, o <> OpTerminate e).
  { destruct o; try (right; done). left. by eexists. }
  destruct Hd as [[e ->]|Hne].
  - simpl. destruct (c_closeErr c) eqn:Hc; [|left; by apply (terminate_closes e c x)].
    right. unfold terminate. rewrite Hc. split; [done|]. split; [done|apply same_refl].
  - destruct (exec_kept o c Hi Hf Hr Hv Hne) as [K1 K2 K3].
    destruct (K3 x ch Hx Hs) as [|[? H]]; [by left|right].
    split; [by eapply slot_ok_mono|]. split; [done|apply H; by intros []].
Qed.

Lemma exec_closed o c :
  ids_inv c -> flow_inv c -> in_range c -> valid o c -> c_closed c ⊆ c_closed (exec o c).
Proof.
  intros Hi Hf Hr Hv.
  assert (Hd : (exists e, o = OpTerminate e) \/ forall e, o <> OpTerminate e).
  { destruct o; try (right; done). left. by eexists. }
  destruct Hd as [[e ->]|Hne]; [apply terminate_closed|]. by destruct (exec_kept o c Hi Hf Hr Hv Hne).
Qed.

(** A run of the connection: any interleaving of operations. *)
Inductive steps : Conn -> Conn -> Prop :=
| steps_refl c : steps c c
| steps_step o c c' : in_range c -> valid o c -> steps (exec o c) c' -> steps c c'.

Lemma steps_snoc o c c' : steps c c' -> in_range c' -> valid o c' -> steps c (exec o c').
Proof. induction 1 as [c|k c c' Hr Hv _ IH]; intros; eapply steps_step; eauto. constructor. Qed.

Record all_inv (c : Conn) : Prop := {
  ai_ids : ids_inv c; ai_flow : flow_inv c; ai_life : life_inv c }.

Lemma reach_all cfg isServer c : config_ok cfg -> reach cfg isServer c -> all_inv c.
Proof. intros H Hr. split; [by eapply reach_ids|by eapply reach_flow|by eapply reach_life]. Qed.

Lemma all_exec o c : all_inv c -> in_range c -> valid o c -> all_inv (exec o c).
Proof. intros [? ? ?] ? ?. split; [by apply ids_exec|by apply flow_exec|by apply life_exec]. Qed.

Lemma steps_closed c c' : steps c c' -> all_inv c -> c_closed c ⊆ c_closed c'.
Proof.
  induction 1 as [|o c c' Hr Hv Hs IH]; intros H; [done|].
  etransitivity; [apply (exec_closed o); try done; apply H|]. apply IH. by apply all_exec.
Qed.

(** A blocked waiter stays blocked, on the same channel, until the channel is
    closed: [blocked] is what keeps it waiting. *)
Lemma steps_slot (blocked : Conn -> Prop) x ch c c' :
  (forall c, all_inv c -> slot_ok x c -> blocked c -> live x c) ->
  (forall c c', same x c c' -> blocked c -> blocked c') ->
  steps c c' -> all_inv c -> slot_ok x c -> sig_of x c = Some ch -> blocked c -> ch ∉ c_closed c' ->
  slot_ok x c' /\ sig_of x c' = Some ch /\ blocked c' /\ all_inv c'.
Proof.
  intros Hlive Hkeep Hs. induction Hs as [|o c c' Hr Hv Hs IH]; intros H Hx Hsig Hb Hnc; [done|].
  assert (H1 : all_inv (exec o c)) by (by apply all_exec).
  destruct (exec_slot o c x ch) as [Hc|(Hx1 & Hs1 & Hsame)]; try done; [apply H|apply H|by apply Hlive| |].
  - destruct Hnc. by apply (steps_closed _ _ Hs).
  - apply IH; try done. by eapply Hkeep.
Qed.
End runs.
