(* ===== verification/Wire.v ===== *)
(** What an endpoint puts on the wire.

    The functions of [Endpoint] that write are total on reachable states; the
    records they write fit the size every peer accepts, and parse back to the
    frames that were meant, in order. *)

From S2P Require Import Prelude Varint Params Frame WriteLock Config State Core Stream Conn System Facts Ids Table Flow Life Control Transport Endpoint.

(** * Frames and records *)

Section carried.
Context {V : QuicVarint} {VL : QuicVarintLaws V}.

(** The bytes are the encodings of the frames, one after the other. *)
Inductive carried : list frame -> bytes -> Prop :=
| carried_nil : carried [] []
| carried_cons f fs e b :
    frame_ok f -> (forall pre, Append f pre = Some (pre ++ e)) -> carried fs b -> carried (f :: fs) (e ++ b).

(** The frames of a record, as [handleRecord] parses them. *)
Fixpoint parse_all (fuel : nat) (b : bytes) : option (list frame) :=
  match b with
  | [] => Some []
  | _ =>
      match fuel with
      | O => None
      | S fuel =>
          match Parse b with
          | ParsedFrame f rest => fs ← parse_all fuel rest; Some (f :: fs)
          | ParsedNone => Some []
          | ParsedError _ => None
          end
      end
  end.

Definition record_frames (b : bytes) : option (list frame) := parse_all (length b) b.

Lemma carried_app fs b gs b' : carried fs b -> carried gs b' -> carried (fs ++ gs) (b ++ b').
Proof.
  intros Hf Hg. induction Hf; [done|]. simpl. rewrite <- app_assoc. by constructor.
Qed.

Lemma Append_nonempty f e : frame_ok f -> (forall pre, Append f pre = Some (pre ++ e)) -> (0 < length e)%nat.
Proof.
  intros Hf He. destruct (Append_length f [] Hf) as (e' & E & Hl & _). rewrite (He []) in E.
  simplify_eq/=. lia.
Qed.

Lemma parse_all_carried fs b fuel :
  carried fs b -> (length b <= fuel)%nat -> parse_all fuel b = Some (frame_received <$> fs).
Proof.
  intros H. revert fuel. induction H as [|f fs e b Hf He Hc IH]; intros fuel Hl; [by destruct fuel|].
  pose proof (Append_nonempty f e Hf He) as Hne. rewrite length_app in Hl.
  destruct fuel as [|fuel]; [lia|].
  destruct (Append_Parse f Hf) as (e' & E' & HP). pose proof (He []) as E0. rewrite E' in E0.
  apply Some_inj in E0. simpl in E0. subst e'. destruct e as [|x e]; [simpl in Hne; lia|].
  change (parse_all (S fuel) ((x :: e) ++ b)) with
    (match Parse ((x :: e) ++ b) with
     | ParsedFrame f rest => fs ← parse_all fuel rest; Some (f :: fs)
     | ParsedNone => Some []
     | ParsedError _ => None
     end).
  rewrite HP, IH by (simpl in Hl; lia). done.
Qed.

Lemma carried_frames fs b : carried fs b -> record_frames b = Some (frame_received <$> fs).
Proof. intros H. by apply parse_all_carried. Qed.

Lemma carried_length fs b : carried fs b -> zlen b <= sumZ frame_bound fs.
Proof.
  induction 1 as [|f fs e b Hf He Hc IH]; [done|]. rewrite sumZ_cons, length_app.
  destruct (Append_length f [] Hf) as (e' & E & Hl). rewrite (He []) in E. simplify_eq/=. lia.
Qed.

Lemma Append_carried f pre :
  frame_ok f -> exists e, Append f pre = Some (pre ++ e) /\ carried [f] e /\ 1 <= zlen e <= frame_bound f.
Proof.
  intros Hf. destruct (Append_Parse f Hf) as (e & HA & _).
  destruct (Append_length f pre Hf) as (e' & E & Hl). pose proof (HA pre) as E2. rewrite E in E2.
  apply Some_inj, app_inv_head in E2. subst e'. exists e. split_and!; [done| |lia..].
  rewrite <- (app_nil_r e). constructor; [done|done|constructor].
Qed.

Lemma append_frames_carried fs pre :
  Forall frame_ok fs -> exists b, append_frames fs pre = Some (pre ++ b) /\ carried fs b.
Proof.
  intros H. revert pre. induction H as [|f fs Hf Hfs IH]; intros pre; simpl.
  - exists []. rewrite app_nil_r. split; [done|constructor].
  - destruct (Append_Parse f Hf) as (e & HA & _). rewrite (HA pre). simpl.
    destruct (IH (pre ++ e)) as (b & Hb & Hc). exists (e ++ b). rewrite Hb, app_assoc.
    split; [done|by constructor].
Qed.
End carried.

(** * Writing records *)

(** The connections differ in the statistics of what was sent. *)
Definition stats_only (c c' : Conn) : Prop :=
  exists b r t, c' = set_c_lastActivity t (set_c_recordsSent r (set_c_bytesSent b c)).

Lemma stats_refl c : stats_only c c.
Proof. exists (c_bytesSent c), (c_recordsSent c), (c_lastActivity c). by destruct c. Qed.

Lemma stats_trans c1 c2 c3 : stats_only c1 c2 -> stats_only c2 c3 -> stats_only c1 c3.
Proof. intros (b & r & t & ->) (b' & r' & t' & ->). exists b', r', t'. done. Qed.

(** The largest record that every peer accepts. *)
Definition record_ok (b : bytes) : Prop := 1 <= zlen b <= DefaultMaxRecordSize.

Section writing.
Context {V : QuicVarint} {VL : QuicVarintLaws V} {T : Type} {RT : RecordTransport T}
  {RTL : RecordTransportLaws T RT}.
Implicit Types (e : endpoint T).

(** The headroom of the record buffer is there. *)
Definition wbuf_ok (e : endpoint T) : Prop := zlen (e_wbuf e) = recordHeadroom.

(** The transport [t] has failed to write a record, and is [t'] then. *)
Definition refused (t : T) (err : error) (t' : T) : Prop :=
  exists buf, writeRecord buf t = Some (inr err, t').

Lemma writeRecordLocked_ok now buf e rs :
  recordHeadroom <= zlen buf < 2 ^ 62 -> carries (e_tr e) rs ->
  exists r e', writeRecordLocked now buf e = Some (r, e') /\ wbuf_ok e' /\
    stats_only (e_conn e) (e_conn e') /\ e_forced e' = e_forced e /\
    (r = None -> carries (e_tr e') (rs ++ [frames_of buf])) /\
    (forall err, r = Some err -> refused (e_tr e) err (e_tr e')).
Proof.
  intros Hb Hc. unfold writeRecordLocked. cbn [e_tr set_wbuf].
  destruct (write_total buf (e_tr e) Hb) as [[r t] Hw]. rewrite Hw. simpl.
  assert (Hl : zlen (ztake recordHeadroom buf) = recordHeadroom).
  { unfold recordHeadroom in *. rewrite length_take. lia. }
  destruct r as [n|err]; do 2 eexists; (split; [reflexivity|]); split_and!; try done.
  - by eexists _, _, _.
  - intros _. by eapply write_carries.
  - apply stats_refl.
  - intros x [= <-]. by exists buf.
Qed.

Lemma frames_of_app (h b : bytes) : zlen h = recordHeadroom -> frames_of (h ++ b) = b.
Proof.
  intros H. unfold frames_of. rewrite <- H, Nat2Z.id. by rewrite drop_app_length.
Qed.

(** The end of [flush_loop]: what the buffer holds goes out, if anything. *)
Lemma flush_end_ok now held pre h e rs :
  zlen h = recordHeadroom -> carried held pre -> zlen (h ++ pre) <= full -> carries (e_tr e) rs ->
  exists r e', flush_loop now [] (h ++ pre) e = Some (r, e') /\
    stats_only (e_conn e) (e_conn e') /\ (wbuf_ok e -> wbuf_ok e') /\ e_forced e' = e_forced e /\
    (r = None -> exists recs groups, carries (e_tr e') (rs ++ recs) /\ Forall record_ok recs /\
      Forall2 carried groups recs /\ mjoin groups = held) /\
    (forall err, r = Some err -> exists t, refused t err (e_tr e')).
Proof.
  intros Hh Hpre Hfull Hc. simpl.
  rewrite length_app. destruct (Z.eqb_spec (Z.of_nat (length h + length pre)) recordHeadroom) as [E|E].
  - do 2 eexists. split; [reflexivity|]. split_and!; [apply stats_refl|done|done| |done]. intros _.
    exists [], []. rewrite !app_nil_r. split_and!; [done|constructor|constructor|].
    destruct Hpre as [|f fs e0 b Hf He Hb]; [done|]. pose proof (Append_nonempty f e0 Hf He).
    rewrite length_app in E. lia.
  - destruct (writeRecordLocked_ok now (h ++ pre) e rs) as (r & e' & Hw & W & S & F & C & R).
    { rewrite length_app in Hfull |- *.
      unfold full, recordHeadroom, DefaultMaxRecordSize, maxControlFrameSize in *. lia. }
    { done. }
    do 2 eexists. split; [exact Hw|]. split_and!; [done|done|done| |by eauto]. intros Hr. specialize (C Hr).
    rewrite frames_of_app in C by done. exists [pre], [held].
    split_and!; [done| |by repeat constructor|by csimpl; rewrite app_nil_r].
    apply Forall_singleton. rewrite length_app in Hfull.
    unfold record_ok, full, maxControlFrameSize in *. lia.
Qed.

(** The records and frames of [flush_loop], from a buffer that holds the
    frames [held] already. *)
Lemma flush_loop_ok now frames : Forall control_frame frames ->
  forall held pre h e rs,
  zlen h = recordHeadroom -> carried held pre -> zlen (h ++ pre) <= full -> carries (e_tr e) rs ->
  exists r e', flush_loop now frames (h ++ pre) e = Some (r, e') /\
    stats_only (e_conn e) (e_conn e') /\ (wbuf_ok e -> wbuf_ok e') /\ e_forced e' = e_forced e /\
    (r = None -> exists recs groups, carries (e_tr e') (rs ++ recs) /\ Forall record_ok recs /\
      Forall2 carried groups recs /\ mjoin groups = held ++ frames) /\
    (forall err, r = Some err -> exists t, refused t err (e_tr e')).
Proof.
  induction 1 as [|f frames [Hok Hsz] Hall IH]; intros held pre h e rs Hh Hpre Hfull Hc; simpl.
  - rewrite app_nil_r. by apply flush_end_ok.
  - destruct (Append_carried f (h ++ pre) Hok) as (b & Hb & Hcb & Hl). rewrite Hb. simpl.
    rewrite <- app_assoc. set (pre' := pre ++ b).
    assert (Hpre' : carried (held ++ [f]) pre') by (by apply carried_app).
    assert (Hlen : zlen (h ++ pre') <= recordHeadroom + DefaultMaxRecordSize).
    { subst pre'. unfold full in *. rewrite length_app in Hfull. rewrite !length_app. lia. }
    destruct (Z.ltb_spec full (zlen (h ++ pre'))) as [Hlt|Hle].
    + destruct (writeRecordLocked_ok now (h ++ pre') e rs) as (r & e' & Hw & W & S & F & C & R).
      { rewrite length_app in Hlen |- *. unfold recordHeadroom, DefaultMaxRecordSize in *. lia. }
      { done. }
      rewrite Hw. simpl. destruct r as [err|].
      { do 2 eexists. split; [reflexivity|]. split_and!; [done|done|done|done|]. intros x Hx. by eauto. }
      specialize (C eq_refl). rewrite frames_of_app in C by done.
      destruct (IH [] [] (e_wbuf e') e' (rs ++ [pre'])) as (r2 & e2 & H2 & S2 & W2 & F2 & C2 & R2); try done.
      { constructor. }
      { rewrite app_nil_r. rewrite W. done. }
      rewrite app_nil_r in H2. do 2 eexists. split; [exact H2|].
      split_and!; [by eapply stats_trans|auto|congruence| |done]. intros Hr.
      destruct (C2 Hr) as (recs & groups & X1 & X2 & X3 & X4).
      exists (pre' :: recs), ((held ++ [f]) :: groups). rewrite <- app_assoc in X1. split_and!; [done| |by constructor|].
      * constructor; [|done]. rewrite length_app in Hlt, Hlen.
        unfold record_ok, full, recordHeadroom, DefaultMaxRecordSize, maxControlFrameSize in *. lia.
      * csimpl. by rewrite X4, <- app_assoc.
    + destruct (IH (held ++ [f]) pre' h e rs) as (r2 & e2 & H2 & S2 & W2 & F2 & C2 & R2); try done.
      do 2 eexists. split; [exact H2|]. split_and!; [done|done|done| |done]. intros Hr.
      destruct (C2 Hr) as (recs & groups & X1 & X2 & X3 & X4). exists recs, groups. split_and!; try done.
      by rewrite X4, <- app_assoc.
Qed.
End writing.
