(* ===== verification/Scenario.v ===== *)
(** Concrete runs of a connection.

    Executable versions of the side conditions of [System], which let a run be
    checked by computation, and a few runs that the examples and witnesses of
    the development use. *)

From S2P Require Import Prelude Varint Params Frame WriteLock Config State Core Stream Conn System Wake.

(** * Checking a run *)

Definition is_varintb (x : Z) : bool := (0 <=? x) && (x <=? varint_max).

Lemma is_varintb_ok x : is_varintb x = true -> is_varint x.
Proof. unfold is_varintb, is_varint. lia. Qed.

Definition params_validb (p : Parameters) : bool :=
  forallb is_varintb [MaxIdleTimeout p; InitialMaxData p; InitialMaxStreamDataBidiLocal p;
    InitialMaxStreamDataBidiRemote p; InitialMaxStreamDataUni p; InitialMaxStreamsBidi p;
    InitialMaxStreamsUni p; MaxDatagramFrameSize p; MaxRecordSize p] &&
  (InitialMaxStreamsBidi p <=? maxStreams) && (InitialMaxStreamsUni p <=? maxStreams) &&
  (DefaultMaxRecordSize <=? MaxRecordSize p).

Lemma params_validb_ok p : params_validb p = true -> params_valid p.
Proof.
  unfold params_validb. intros H. apply andb_true_iff in H as [[[H Hb]%andb_true_iff Hu]%andb_true_iff Hm].
  simpl in H. repeat apply andb_true_iff in H as [?%is_varintb_ok H]. split_and!; [|lia..].
  intros id f Hf. field_cases Hf; done.
Qed.

Definition frame_parsedb (f : frame) : bool :=
  match f with
  | ResetStream sid code fs => is_varintb sid && is_varintb code && is_varintb fs
  | StopSending sid code => is_varintb sid && is_varintb code
  | Stream sid off _ _ => is_varintb sid && is_varintb off
  | MaxData m => is_varintb m
  | MaxStreamData sid m => is_varintb sid && is_varintb m
  | MaxStreams _ m => (0 <=? m) && (m <=? maxStreams)
  | Blocked => true
  | ConnectionClose _ code ft _ => is_varintb code && is_varintb ft
  | Datagram _ => true
  | Ping _ seq => is_varintb seq
  | TransportParameters p => params_validb p
  end.

Lemma frame_parsedb_ok f : frame_parsedb f = true -> frame_parsed f.
Proof.
  destruct f; simpl; intros H; try done; try by apply params_validb_ok.
  all: repeat match type of H with _ && _ = true => apply andb_true_iff in H as [H ?%is_varintb_ok] end.
  all: try apply is_varintb_ok in H; done || (unfold is_varint in *; lia).
Qed.

Definition holdsb (c : Conn) (p : nat) : bool :=
  bool_decide (p < length (c_heap c))%nat && s_accepted (deref c p).

Definition validb (o : op) (c : Conn) : bool :=
  match o with
  | OpFrame _ f => bool_decide (c_closeErr c = None) && frame_parsedb f && is_varintb (zlen (frame_data f))
  | OpRead p _ | OpPeek p _ | OpReadDeadline p _ => holdsb c p && s_canRecv (deref c p)
  | OpCancelRead p code => holdsb c p && s_canRecv (deref c p) && is_varintb code
  | OpTrySend _ p | OpFinish p | OpWriteDeadline p _ | OpPriority p _ _ => holdsb c p && s_canSend (deref c p)
  | OpReserve p n => holdsb c p && s_canSend (deref c p) && ((0 <=? n) && (n <? 2 ^ 63))
  | OpCancelWrite p code => holdsb c p && s_canSend (deref c p) && is_varintb code
  | _ => true
  end.

Lemma holdsb_ok c p : holdsb c p = true -> holds c p.
Proof. unfold holdsb, holds. intros [H ?]%andb_true_iff. by apply bool_decide_eq_true in H. Qed.

Lemma validb_ok o c : validb o c = true -> valid o c.
Proof.
  destruct o; simpl; intros H; try done;
    repeat match type of H with _ && _ = true => apply andb_true_iff in H as [H ?] end;
    repeat split;
    first [ done | by apply holdsb_ok | by apply holdsb_ok in H as [? ?] | by apply is_varintb_ok
          | by apply bool_decide_eq_true in H | by apply frame_parsedb_ok | lia
          | match goal with H : is_varintb _ = true |- _ => by apply is_varintb_ok in H as [? ?] end | idtac ].
Qed.

Definition in_rangeb (c : Conn) : bool :=
  (c_received c + InitialConnectionReceiveWindow (c_config c) +
    InitialStreamReceiveWindow (c_config c) <=? varint_max) &&
  (i_max (c_inBidi c) <=? 2 ^ 60) && (i_max (c_inUni c) <=? 2 ^ 60) && (c_nextPing c <=? varint_max).

Lemma in_rangeb_ok c : in_rangeb c = true -> in_range c.
Proof. unfold in_rangeb, in_range. lia. Qed.

Section run.
Context {GA : GoAppend}.

(** The state after the operations, if each of them can run. *)
Fixpoint run (ops : list op) (c : Conn) : option Conn :=
  match ops with
  | [] => Some c
  | o :: ops => if in_rangeb c && validb o c then run ops (exec o c) else None
  end.

Lemma run_reach cfg isServer ops c c' : reach cfg isServer c -> run ops c = Some c' -> reach cfg isServer c'.
Proof.
  revert c. induction ops as [|o ops IH]; intros c Hr E; simpl in E; [by simplify_eq|].
  destruct (_ && _) eqn:Ev; [|done]. apply andb_true_iff in Ev as [Hi Hv].
  eapply IH; [|exact E]. constructor; [done|by apply in_rangeb_ok|by apply validb_ok].
Qed.

Lemma run_steps ops c c' : run ops c = Some c' -> steps c c'.
Proof.
  revert c. induction ops as [|o ops IH]; intros c E; simpl in E; [simplify_eq; constructor|].
  destruct (_ && _) eqn:Ev; [|done]. apply andb_true_iff in Ev as [Hi Hv].
  apply (steps_step o); [by apply in_rangeb_ok|by apply validb_ok|by apply IH].
Qed.
End run.

(** * Go's [append], doubling *)

Module Doubling.
#[global] Program Instance doubling : GoAppend := {| growslice old need := Nat.max (2 * old) need |}.
Next Obligation. intros. simpl. lia. Qed.
End Doubling.

(** * Runs *)

(** A client with the default configuration, whose peer allows ten streams of
    each kind and a kilobyte on each. *)
Definition demo_params : Parameters :=
  mkParameters 10000 4096 1024 1024 1024 10 10 1200 DefaultMaxRecordSize.

Definition demo_start : Conn := newConn DefaultConfig false 0.

Definition demo_ops : list op :=
  [ OpFrame 1 (TransportParameters demo_params);
    OpOpen dirBidi;
    OpOpen dirUni;
    OpFrame 2 (Stream 1 0 (str "hello") false);
    OpAccept dirBidi;
    OpRead 2 3;
    OpReserve 0 700;
    OpFrame 3 (Stream 3 0 (str "hi") true);
    OpAccept dirUni;
    OpRead 3 10 ].
