(* ===== verification/WireTheorems.v ===== *)
(** The wire format: frames, transport parameters, records and transports
    survive encoding, and malformed input is reported with the right error. *)

From S2P Require Import Prelude Varint Params Frame WriteLock Config State Transport Endpoint Control Wire.

Section theorems.
Context {V : QuicVarint} {VL : QuicVarintLaws V}.

(** * Frames *)

(** C37: every frame whose fields are in range has an encoding, and parsing
    that encoding, whatever follows it, gives the frame back with what
    follows untouched. (An application close carries no frame type, and an
    absent record size takes its default: [frame_received].) *)
Theorem frame_round_trip f b r :
  frame_ok f ->
  exists e, Append f b = Some (b ++ e) /\ Parse (e ++ r) = ParsedFrame (frame_received f) r.
Proof. intros H. destruct (Append_Parse f H) as (e & HA & HP). exists e. auto. Qed.

(** A frame that [Parse] returns has all its numbers within the limits
    of the protocol, its data is no longer than the input, and the rest it
    returns is a strict suffix of the input: parsing a record always makes
    progress. *)
Theorem Parse_progress b f rest :
  Parse b = ParsedFrame f rest ->
  frame_parsed f /\ zlen (frame_data f) <= zlen b /\ rest `suffix_of` b /\ (length rest < length b)%nat.
Proof.
  intros H. destruct (Parse_inv b f rest H) as (Hf & d & -> & Hd & Hl).
  split_and!; [done|done|by exists d|rewrite length_app; lia].
Qed.

(** An encoding that is cut short anywhere is an error, with the code
    FRAME_ENCODING_ERROR. *)
Theorem Parse_rejects_truncation f p q :
  frame_ok f -> Append f [] = Some (p ++ q) -> p <> [] -> q <> [] ->
  exists e, Parse p = ParsedError e /\ err_Code e = FrameEncodingError.
Proof. apply Parse_truncated. Qed.

(** The only error codes of the parser are FRAME_ENCODING_ERROR and
    TRANSPORT_PARAMETER_ERROR. *)
Theorem Parse_error_codes b e :
  Parse b = ParsedError e ->
  err_Code e = FrameEncodingError \/ err_Code e = TransportParameterError.
Proof. apply Parse_error. Qed.

(** The encoding of a frame is never larger than its bound: 25 bytes for
    the control frames, [StreamOverhead] and its data for a STREAM frame. *)
Theorem frame_size_bound f b b' :
  frame_ok f -> Append f b = Some b' -> zlen b < zlen b' <= zlen b + frame_bound f.
Proof.
  intros H E. destruct (Append_length f b H) as (e & E' & Hl). rewrite E' in E.
  apply Some_inj in E as <-. rewrite length_app. lia.
Qed.

(** * Transport parameters *)

(** C38: whatever the configuration, what the connection declares can be
    encoded, and the peer decodes it to exactly the limits of the normalized
    configuration, the idle timeout in whole milliseconds. *)
Theorem localParameters_round_trip config :
  (match config with Some c => config_typed c | None => True end) ->
  let cfg := normalized config in
  exists b, Parameters_append (localParameters cfg) [] = Some b /\
    exists p, parseParameters b = inr p /\
      InitialMaxData p = InitialConnectionReceiveWindow cfg /\
      InitialMaxStreamDataBidiLocal p = InitialStreamReceiveWindow cfg /\
      InitialMaxStreamDataBidiRemote p = InitialStreamReceiveWindow cfg /\
      InitialMaxStreamDataUni p = InitialStreamReceiveWindow cfg /\
      InitialMaxStreamsBidi p = MaxIncomingStreams cfg /\
      InitialMaxStreamsUni p = MaxIncomingUniStreams cfg /\
      MaxDatagramFrameSize p = cfg_MaxDatagramFrameSize cfg /\
      MaxRecordSize p = cfg_MaxRecordSize cfg /\
      MaxIdleTimeout p = Z.quot (cfg_MaxIdleTimeout cfg) Millisecond.
Proof.
  intros Ht cfg. pose proof (normalized_ok config Ht) as Hok. fold cfg in Hok. clearbody cfg.
  pose proof (localParameters_sendable cfg Hok) as Hs.
  eexists. split; [apply Parameters_append_enc, Hs|]. eexists.
  split; [apply (parse_append_params _ _ Hs); apply Parameters_append_enc, Hs|].
  destruct Hok as [S1 S2 S3 S4 S5 S6 S7 S8 S9 S10 S11].
  assert (Hq : 0 <= Z.quot (cfg_MaxIdleTimeout cfg) Millisecond < 2 ^ 63).
  { unfold Millisecond. rewrite Z.quot_div_nonneg by lia. split; [apply Z.div_pos|apply Z.div_lt_upper_bound]; lia. }
  unfold params_received, localParameters. unfold DefaultMaxRecordSize in *.
  destruct (Z.eqb_spec (cfg_MaxRecordSize cfg) 16382) as [E|E]; simpl.
  - rewrite !u64_id by (unfold is_u64; lia). by rewrite E.
  - destruct (Z.eqb_spec (cfg_MaxRecordSize cfg) 0) as [E0|_]; [lia|]. simpl.
    by rewrite !u64_id by (unfold is_u64; lia).
Qed.

(** Parameters that the parser accepts are within the limits of the
    protocol: every field is a variable-length integer, stream counts are at
    most 2^60, and the record size is at least the default. *)
Theorem parseParameters_sound b p :
  parseParameters b = inr p ->
  0 <= InitialMaxStreamsBidi p <= 2 ^ 60 /\ 0 <= InitialMaxStreamsUni p <= 2 ^ 60 /\
  DefaultMaxRecordSize <= MaxRecordSize p <= varint_max /\
  is_varint (InitialMaxData p) /\ is_varint (MaxIdleTimeout p) /\ is_varint (MaxDatagramFrameSize p).
Proof.
  intros H. destruct (parseParameters_valid b p H) as (Hv & Hb & Hu & Hm).
  rewrite maxStreams_eq in *. apply params_varint_fields in Hv. unfold is_varint in *. lia.
Qed.

(** Malformed parameters are a TRANSPORT_PARAMETER_ERROR: the parser
    always ends with parameters or with that error. *)
Theorem parseParameters_total b :
  (exists p, parseParameters b = inr p) \/
  (exists e, parseParameters b = inl e /\ err_Code e = TransportParameterError).
Proof.
  destruct (parseParameters b) as [e|p] eqn:E; [right|left; by eexists].
  exists e. split; [done|]. by eapply parseParameters_error.
Qed.

(** * Records *)

(** A record that [writeFramesLocked] builds from frames in range parses
    back to those frames, in order. *)
Theorem record_round_trip fs h :
  Forall frame_ok fs ->
  exists b, append_frames fs h = Some (h ++ b) /\ record_frames b = Some (frame_received <$> fs).
Proof.
  intros H. destruct (append_frames_carried fs h H) as (b & Hb & Hc).
  exists b. split; [done|]. by apply carried_frames.
Qed.

End theorems.

(** * Transports *)

Section transports.
Context {T : Type} {RT : RecordTransport T}.

(** [n] calls of [readRecord]. *)
Fixpoint readRecords (n : nat) (t : T) : list (bytes + error) * T :=
  match n with
  | O => ([], t)
  | S n =>
      let '(r, t) := readRecord t in
      let '(rs, t) := readRecords n t in (r :: rs, t)
  end.

(** Calls of [writeRecord], as long as they succeed. *)
Fixpoint writeRecords (bufs : list bytes) (t : T) : option T :=
  match bufs with
  | [] => Some t
  | buf :: bufs =>
      match writeRecord buf t with
      | Some (inl _, t) => writeRecords bufs t
      | _ => None
      end
  end.

Context {RTL : RecordTransportLaws T RT}.

(** What reading the record [r] gives, under the limit [max]. *)
Definition read_result (max : Z) (r : bytes) : bytes + error :=
  if max <? zlen r then inr (recordTooLarge (zlen r) max) else inl r.

Lemma readRecords_delivers rs : Forall (fun r => zlen r < 2 ^ 62) rs -> forall t, delivers t rs ->
  exists t', readRecords (length rs) t = (read_result (max_record t) <$> rs, t') /\ delivers t' [].
Proof.
  induction 1 as [|r rs Hr Hrs IH]; intros t Hd; [by exists t|].
  destruct (read_delivers t r rs Hd Hr) as (t1 & Hd1 & Hm & E).
  destruct (IH t1 Hd1) as (t' & E' & Hd'). exists t'. split; [|done].
  csimpl. rewrite E, E', Hm. done.
Qed.

Lemma writeRecords_carries bufs :
  Forall (fun b => recordHeadroom <= zlen b < 2 ^ 62) bufs -> forall t t' rs,
  carries t rs -> writeRecords bufs t = Some t' -> carries t' (rs ++ (frames_of <$> bufs)).
Proof.
  induction 1 as [|b bufs Hb Hbs IH]; intros t t' rs Hc E; simpl in E.
  - simplify_eq. by rewrite app_nil_r.
  - destruct (writeRecord b t) as [[[n|e] t1]|] eqn:Ew; try done.
    pose proof (write_carries b t n t1 rs Hb Hc Ew) as H1.
    specialize (IH _ _ _ H1 E). csimpl. by rewrite <- app_assoc in IH.
Qed.
End transports.

Section pipes.
Context {V : QuicVarint} {VL : QuicVarintLaws V}.

(** C39: records that one endpoint writes to a byte stream, however large,
    are read by the other endpoint one by one, as they were written; one
    that is larger than the reader's limit is reported and skipped whole, so
    that the records after it are read as before. *)
Theorem stream_pipe bufs (w w' : streamTransport) (t : streamTransport) tail :
  Forall (fun b => recordHeadroom <= zlen b < 2 ^ 62) bufs ->
  conn_out (st_conn w) = [] -> writeRecords bufs w = Some w' ->
  conn_in (st_conn t) = conn_out (st_conn w') ++ tail ->
  (readRecords (length bufs) t).1 = read_result (st_max t) <$> (frames_of <$> bufs) /\
  conn_in (st_conn (readRecords (length bufs) t).2) = tail.
Proof.
  intros Hb H0 Hw Ht.
  assert (Hc : st_carries w' (frames_of <$> bufs)).
  { apply (writeRecords_carries (RTL := streamTransport_laws) bufs Hb w w' []); [|done].
    simpl. unfold st_carries. by rewrite H0. }
  destruct Hc as [Hc _]. rewrite Hc in Ht. clear H0 Hw Hc. revert t Ht.
  induction Hb as [|b bufs [Hb1 Hb2] Hbs IH]; intros t Ht; [done|].
  csimpl in Ht. rewrite <- app_assoc in Ht.
  destruct (st_readRecord_next t (frames_of b) _ Ht) as [cap E].
  { unfold frames_of. rewrite length_drop. lia. }
  set (t1 := mkStreamTransport _ cap _) in E.
  destruct (IH t1 eq_refl) as [I1 I2]. csimpl.
  change (readRecord t) with (st_readRecord t). rewrite E.
  destruct (readRecords (length bufs) t1) as [rs t2] eqn:Er. simpl in *. split; [|done].
  rewrite I1. done.
Qed.

(** C40: an application's message transport used as a byte stream
    ([NetConn]) gives out the bytes of its messages in order, in pieces of
    any size: each [Read] returns a non-empty piece of what is left, or the
    transport's error once everything was read. A read never fails for lack
    of fuel, however many empty messages there are. *)
Theorem adapter_reads_in_order {M} {MC : MessageConn M} {ML : MessageConnLaws M MC} fuel n
    (a : messageConnAdapter M) :
  (length (mc_pending (ad_mc a)) < fuel)%nat -> (0 < n)%nat ->
  (exists d a', ad_Read fuel n a = Some (inl d, a') /\ ad_stream a = d ++ ad_stream a' /\
     (0 < length d <= n)%nat) \/
  (exists a', ad_Read fuel n a = Some (inr (mc_end (ad_mc a)), a') /\ ad_stream a = []).
Proof.
  intros Hf Hn. destruct (fill_spec fuel a Hf) as (a' & S1 & _ & [[E Hne]|[E He]]); unfold ad_Read; rewrite E; simpl.
  - left. do 2 eexists. split; [reflexivity|]. unfold ad_stream in *. simpl. rewrite <- S1. split.
    + by rewrite app_assoc, take_drop.
    + rewrite length_take. destruct (ad_buf a'); [done|simpl; lia].
  - right. by eexists.
Qed.
End pipes.

(** * Witnesses *)

Module Witnesses.
#[local] Existing Instance RFC9000.varint.
#[local] Existing Instance RFC9000.laws.

Definition a_stream : frame := Stream 4 10 (str "abc") true.
Definition a_stream_bytes : bytes := default [] (Append a_stream []).

Lemma a_stream_ok : frame_ok a_stream.
Proof. by repeat split. Defined.

Lemma frame_round_trip_witness :
  frame_ok a_stream /\
  exists e, Append a_stream [] = Some ([] ++ e) /\ Parse (e ++ str "x") = ParsedFrame a_stream (str "x").
Proof. split; [exact a_stream_ok|]. apply (frame_round_trip a_stream [] (str "x")). exact a_stream_ok. Defined.

Lemma Parse_progress_witness :
  Parse (a_stream_bytes ++ str "x") = ParsedFrame a_stream (str "x") /\
  (length (str "x") < length (a_stream_bytes ++ str "x"))%nat.
Proof.
  assert (H : Parse (a_stream_bytes ++ str "x") = ParsedFrame a_stream (str "x")) by (vm_compute; reflexivity).
  split; [exact H|]. apply (Parse_progress _ _ _ H).
Defined.

Lemma Parse_rejects_truncation_witness :
  exists e, Parse (take 4 a_stream_bytes) = ParsedError e /\ err_Code e = FrameEncodingError.
Proof.
  apply (Parse_rejects_truncation a_stream (take 4 a_stream_bytes) (drop 4 a_stream_bytes)).
  - exact a_stream_ok.
  - vm_compute. reflexivity.
  - vm_compute. discriminate.
  - vm_compute. discriminate.
Defined.

(** A frame type that does not exist. *)
Lemma Parse_error_codes_witness :
  exists e, Parse [z2b 0x3f] = ParsedError e /\
    (err_Code e = FrameEncodingError \/ err_Code e = TransportParameterError).
Proof.
  eexists. split; [vm_compute; reflexivity|].
  apply (Parse_error_codes [z2b 0x3f]). vm_compute. reflexivity.
Defined.

Lemma frame_size_bound_witness :
  frame_ok a_stream /\ zlen (@nil byte) < zlen a_stream_bytes <= zlen (@nil byte) + frame_bound a_stream.
Proof.
  split; [exact a_stream_ok|]. apply (frame_size_bound a_stream [] a_stream_bytes).
  - exact a_stream_ok.
  - vm_compute. reflexivity.
Defined.

Definition a_config : Config := set_MaxIncomingStreams 7 (set_cfg_MaxRecordSize 20000 zeroConfig).

Lemma localParameters_round_trip_witness :
  config_typed a_config /\
  exists b, Parameters_append (localParameters (normalized (Some a_config))) [] = Some b /\
    exists p, parseParameters b = inr p /\ InitialMaxStreamsBidi p = 7 /\ MaxRecordSize p = 20000.
Proof.
  assert (Ht : config_typed a_config) by (repeat split; vm_compute; congruence).
  split; [exact Ht|].
  destruct (localParameters_round_trip (Some a_config) Ht)
    as (b & Hb & p & Hp & _ & _ & _ & _ & Hs & _ & _ & Hm & _).
  exists b. split; [exact Hb|]. exists p. split; [exact Hp|]. split; [exact Hs|exact Hm].
Defined.

Definition some_params : bytes :=
  default [] (Parameters_append (localParameters DefaultConfig) []).

Lemma parseParameters_sound_witness :
  exists p, parseParameters some_params = inr p /\ 0 <= InitialMaxStreamsBidi p <= 2 ^ 60.
Proof.
  eexists. split; [vm_compute; reflexivity|].
  apply (parseParameters_sound some_params). vm_compute. reflexivity.
Defined.

Lemma record_round_trip_witness :
  Forall frame_ok [a_stream; Ping false 3] /\
  exists b, append_frames [a_stream; Ping false 3] [] = Some ([] ++ b) /\
    record_frames b = Some [a_stream; Ping false 3].
Proof.
  assert (H : Forall frame_ok [a_stream; Ping false 3]).
  { repeat constructor; vm_compute; congruence. }
  split; [exact H|]. apply (record_round_trip [a_stream; Ping false 3] [] H).
Defined.

(** A pipe between two endpoints: what [w] writes is what [t] reads. *)
Definition a_conn (input : bytes) : netConn := mkNetConn input ErrEOF [] None true None 0 false false.
Definition a_buf (payload : bytes) : bytes := replicate 8 (z2b 0) ++ payload.
Definition three : list bytes := [a_buf (str "one"); a_buf (str "a long record"); a_buf (str "two")].
Definition written : bytes :=
  match writeRecords three (newStreamTransport (a_conn []) 100) with
  | Some w => conn_out (st_conn w)
  | None => []
  end.

Lemma stream_pipe_witness :
  exists w', writeRecords three (newStreamTransport (a_conn []) 100) = Some w' /\
    (readRecords 3 (newStreamTransport (a_conn written) 5)).1 =
    [inl (str "one"); inr (recordTooLarge 13 5); inl (str "two")].
Proof.
  eexists. split; [vm_compute; reflexivity|].
  refine (proj1 (stream_pipe three (newStreamTransport (a_conn []) 100) _
    (newStreamTransport (a_conn written) 5) [] _ _ _ _)).
  - repeat constructor; vm_compute; congruence.
  - reflexivity.
  - vm_compute. reflexivity.
  - vm_compute. reflexivity.
Defined.

Definition a_queue : Queue.conn := Queue.mkConn [[]; str "hello"; str "world"] [] false.

Lemma adapter_reads_in_order_witness :
  (length (mc_pending (ad_mc (NetConn a_queue))) < 4)%nat /\
  ((exists d a', ad_Read 4 3 (NetConn a_queue) = Some (inl d, a') /\
      ad_stream (NetConn a_queue) = d ++ ad_stream a' /\ (0 < length d <= 3)%nat) \/
   (exists a', ad_Read 4 3 (NetConn a_queue) = Some (inr (mc_end (ad_mc (NetConn a_queue))), a') /\
      ad_stream (NetConn a_queue) = [])).
Proof.
  assert (H : (length (mc_pending (ad_mc (NetConn a_queue))) < 4)%nat) by (vm_compute; lia).
  split; [exact H|]. apply (adapter_reads_in_order 4 3 (NetConn a_queue)); [exact H|lia].
Defined.
End Witnesses.
