(* ===== verification/Grammar.v ===== *)
(** The wire format as a grammar.

    [frame_on_wire] lists the frames with their fields as the QMux draft and RFC 9000,
    Section 19, write them, with the numbers of the types spelled out, and
    [params_on_wire] the transport parameters. They say which bytes are an
    encoding of what, not how to read them; [Parse] and [parseParameters] accept
    exactly these. *)

From S2P Require Import Prelude Varint Params Frame.

(** * Integers *)

Section grammar.
Context {V : QuicVarint}.

(** [e] is an encoding of [v], of any of the four lengths. *)
Definition encodes (v : Z) (e : bytes) : Prop := varint_parse e = Some (v, zlen e).

Inductive ints : list Z -> bytes -> Prop :=
| ints_nil : ints [] []
| ints_cons v vs e b : encodes v e -> ints vs b -> ints (v :: vs) (e ++ b).

(** * Transport parameters *)

(** A parameter: its identifier and its value. *)
Inductive entries : list (Z * bytes) -> bytes -> Prop :=
| entries_nil : entries [] []
| entries_cons id value es h b : ints [id; zlen value] h -> entries es b -> entries ((id, value) :: es) (h ++ value ++ b).

(** The identifiers of QUIC that the draft forbids. *)
Definition prohibited : list Z := [0x00; 0x02; 0x03; 0x0a; 0x0b; 0x0c; 0x0d; 0x0e; 0x0f; 0x10].

(** The parameters with a meaning, each with the field that keeps its value. *)
Definition known : list (Z * (Z -> Parameters -> Parameters)) :=
  [(0x01, set_MaxIdleTimeout); (0x04, set_InitialMaxData);
   (0x05, set_InitialMaxStreamDataBidiLocal); (0x06, set_InitialMaxStreamDataBidiRemote); (0x07, set_InitialMaxStreamDataUni);
   (0x08, set_InitialMaxStreamsBidi); (0x09, set_InitialMaxStreamsUni);
   (0x20, set_MaxDatagramFrameSize); (0x0571c59429cd0845, set_MaxRecordSize)].

(** The value of a known parameter is one integer; others are ignored. *)
Inductive assigns : list (Z * bytes) -> Parameters -> Parameters -> Prop :=
| assigns_nil p : assigns [] p p
| assigns_known id value v f es p p' :
    (id, f) ∈ known -> encodes v value -> assigns es (f v p) p' -> assigns ((id, value) :: es) p p'
| assigns_unknown id value es p p' : id ∉ known.*1 -> assigns es p p' -> assigns ((id, value) :: es) p p'.

Definition params_on_wire (p : Parameters) (b : bytes) : Prop :=
  exists es, entries es b /\ NoDup es.*1 /\ Forall (fun id => id ∉ prohibited) es.*1 /\ assigns es initialParameters p /\
    InitialMaxStreamsBidi p <= 2 ^ 60 /\ InitialMaxStreamsUni p <= 2 ^ 60 /\ 16382 <= MaxRecordSize p.

(** * Frames *)

Definition bit (b : bool) (n : Z) : Z := if b then n else 0.

(** [e], followed by [tl] in the record, is an encoding of the frame. A frame
    without a length takes the rest of the record. *)
Inductive frame_on_wire : frame -> bytes -> bytes -> Prop :=
| w_reset_stream sid code size e tl : ints [0x04; sid; code; size] e -> frame_on_wire (ResetStream sid code size) e tl
| w_stop_sending sid code e tl : ints [0x05; sid; code] e -> frame_on_wire (StopSending sid code) e tl
| w_stream (off len fin : bool) sid offset data h tl :
    ints ([0x08 + bit off 4 + bit len 2 + bit fin 1; sid] ++ (if off then [offset] else []) ++ (if len then [zlen data] else [])) h ->
    (off = false -> offset = 0) -> (len = false -> tl = []) -> frame_on_wire (Stream sid offset data fin) (h ++ data) tl
| w_max_data m e tl : ints [0x10; m] e -> frame_on_wire (MaxData m) e tl
| w_max_stream_data sid m e tl : ints [0x11; sid; m] e -> frame_on_wire (MaxStreamData sid m) e tl
| w_max_streams uni m e tl : ints [0x12 + bit uni 1; m] e -> m <= 2 ^ 60 -> frame_on_wire (MaxStreams uni m) e tl
| w_data_blocked m e tl : ints [0x14; m] e -> frame_on_wire Blocked e tl
| w_stream_data_blocked sid m e tl : ints [0x15; sid; m] e -> frame_on_wire Blocked e tl
| w_streams_blocked uni m e tl : ints [0x16 + bit uni 1; m] e -> m <= 2 ^ 60 -> frame_on_wire Blocked e tl
| w_transport_close code ft reason h tl :
    ints [0x1c; code; ft; zlen reason] h -> frame_on_wire (ConnectionClose false code ft reason) (h ++ reason) tl
| w_application_close code reason h tl :
    ints [0x1d; code; zlen reason] h -> frame_on_wire (ConnectionClose true code 0 reason) (h ++ reason) tl
| w_datagram data h : ints [0x30] h -> frame_on_wire (Datagram data) (h ++ data) []
| w_datagram_len data h tl : ints [0x31; zlen data] h -> frame_on_wire (Datagram data) (h ++ data) tl
| w_transport_parameters p b h tl :
    ints [0x3f5153300d0a0d0a; zlen b] h -> params_on_wire p b -> frame_on_wire (TransportParameters p) (h ++ b) tl
| w_ping (response : bool) seq e tl : ints [0x348c67529ef8c7bd + bit response 1; seq] e -> frame_on_wire (Ping response seq) e tl.

Definition padding (b : bytes) : Prop := Forall (fun x => b2z x = 0) b.
End grammar.

(** * Reading *)

Section reading.
Context {V : QuicVarint} {VL : QuicVarintLaws V}.

Lemma parse_encodes b v n : varint_parse b = Some (v, n) -> encodes v (ztake n b).
Proof using VL.
  intros E. destruct (parse_Some b v n E) as (_ & Hn & Hl). unfold encodes.
  assert (Hlen : zlen (ztake n b) = n) by (rewrite length_take; lia). rewrite Hlen.
  destruct b as [|x t]; [by rewrite parse_empty in E|].
  assert (En : n = prefix_size x).
  { destruct (decide (prefix_size x <= zlen (x :: t))) as [H|H]; [|by rewrite parse_short in E by lia].
    destruct (parse_long x t H) as (w & Hw & _). congruence. }
  destruct (ztake n (x :: t)) as [|y t'] eqn:Et; [simpl in Hlen; lia|].
  assert (y = x) as ->. { destruct (Z.to_nat n) eqn:Hnn; [lia|]. simpl in Et. congruence. }
  destruct (parse_long x t') as (w & Hw & _); [lia|].
  pose proof (parse_extend _ _ _ (zdrop n (x :: t)) Hw) as Hx. rewrite <- Et, take_drop, E in Hx. congruence.
Qed.

Lemma varint_inv r v r' :
  varint r = (v, r') -> r_failed r' = false -> r_failed r = false /\ exists e, encodes v e /\ r_b r = e ++ r_b r'.
Proof using VL.
  unfold varint. destruct (r_failed r) eqn:Hf; [intros [= <- <-]; congruence|].
  destruct (varint_parse (r_b r)) as [[w n]|] eqn:E; intros [= <- <-] Hr; [|done]. split; [done|].
  exists (ztake n (r_b r)). split; [by apply parse_encodes|]. simpl. by rewrite take_drop.
Qed.

Lemma varint_encodes v e tl : encodes v e -> varint (mkReader (e ++ tl) false) = (v, mkReader tl false).
Proof using VL.
  intros E. unfold varint. simpl. rewrite (parse_extend _ _ _ tl E). f_equal. f_equal.
  rewrite Nat2Z.id. by rewrite drop_app_length.
Qed.

(** The reader went over the integers [vs]. *)
Definition went (r : reader) (vs : list Z) (r' : reader) : Prop :=
  r_failed r = false /\ exists e, ints vs e /\ r_b r = e ++ r_b r'.

Lemma went_nil r : r_failed r = false -> went r [] r.
Proof using Type. intros H. split; [done|]. exists []. split; [constructor|done]. Qed.

Lemma went_cons r v r1 vs r' : varint r = (v, r1) -> went r1 vs r' -> went r (v :: vs) r'.
Proof using VL.
  intros E [Hf (e & He & Eb)]. destruct (varint_inv r v r1 E Hf) as (H & e1 & He1 & Eb1). split; [done|].
  exists (e1 ++ e). split; [by constructor|]. by rewrite Eb1, Eb, app_assoc.
Qed.

(** A length and that many bytes. *)
Lemma went_bytes r n r1 d r2 :
  varint r = (n, r1) -> read_bytes n r1 = (d, r2) -> r_failed r2 = false -> went r [zlen d] r1 /\ r_b r1 = d ++ r_b r2.
Proof using VL.
  intros E1 E2 Hf. destruct (read_bytes_ok _ _ _ _ E2 Hf) as ((H & _) & Ed & Hn). destruct (varint_ok _ _ _ E1 H) as [[Hv _] _].
  assert (n = zlen d) as -> by (rewrite Ed, length_take; lia). split; [eapply went_cons; [exact E1|by apply went_nil]|].
  unfold read_bytes in E2. rewrite H in E2. cbn [orb] in E2.
  destruct (zlen (r_b r1) <? zlen d); [by injection E2 as _ <-|]. injection E2 as E3 <-. cbn [r_b].
  transitivity (ztake (zlen d) (r_b r1) ++ zdrop (zlen d) (r_b r1)); [by rewrite take_drop|by rewrite E3].
Qed.

Lemma rest_inv r d r' : rest r = (d, r') -> r_failed r' = false -> r_failed r = false /\ r_b r = d /\ r_b r' = [].
Proof using Type. unfold rest. destruct (r_failed r) eqn:Hf; intros [= <- <-] Hr; [congruence|done]. Qed.
End reading.

(** * [parseParameters] *)

Lemma prohibited_ok id : prohibitedParam id = [] <-> id ∉ prohibited.
Proof.
  unfold prohibitedParam, prohibited. split.
  - intros H Hin. repeat (apply elem_of_cons in Hin as [->|Hin]; [done|]). by apply elem_of_nil in Hin.
  - intros H. repeat match goal with |- context [id =? ?k] =>
      destruct (Z.eqb_spec id k) as [->|_]; [exfalso; apply H; rewrite !elem_of_cons; tauto|] end. done.
Qed.

Lemma field_known id : match field id with Some f => (id, store f) ∈ known | None => id ∉ known.*1 end.
Proof.
  unfold field, known. repeat match goal with |- context [id =? ?k] =>
    destruct (Z.eqb_spec id k) as [->|]; [rewrite !elem_of_cons; tauto|] end.
  cbn. rewrite !not_elem_of_cons. split_and!; done || apply not_elem_of_nil.
Qed.

Lemma known_field id f : (id, f) ∈ known -> exists g, field id = Some g /\ store g = f.
Proof.
  unfold known. intros H. repeat (apply elem_of_cons in H as [[= -> ->]|H]; [by eexists|]). by apply elem_of_nil in H.
Qed.

Section params.
Context {V : QuicVarint} {VL : QuicVarintLaws V}.

Lemma parse_loop_sound fuel p seen b q :
  parse_loop fuel p seen (mkReader b false) = Some (inr q) ->
  exists es, entries es b /\ NoDup es.*1 /\ Forall (fun id => id ∉ prohibited) es.*1 /\ Forall (fun id => id ∉ seen) es.*1 /\ assigns es p q.
Proof using VL.
  revert p seen b. induction fuel as [|fuel IH]; intros p seen b; [done|]. cbn [parse_loop r_b].
  destruct (Z.ltb_spec 0 (zlen b)) as [Hb|Hb].
  2:{ intros [= <-]. destruct b; [|simpl in Hb; lia]. exists []. split_and!; constructor. }
  destruct (varint (mkReader b false)) as [id r1] eqn:E1. destruct (varint r1) as [n r2] eqn:E2. destruct (read_bytes n r2) as [value r3] eqn:E3.
  destruct (r_failed r3) eqn:Hf; [done|]. destruct (bool_decide (prohibitedParam id = [])) eqn:Ep; [|done]. apply bool_decide_eq_true, prohibited_ok in Ep.
  cbn [negb]. destruct (bool_decide (id ∈ seen)) eqn:Es; [done|]. apply bool_decide_eq_false in Es.
  destruct (went_bytes r1 n r2 value r3 E2 E3 Hf) as [W Eb]. pose proof (went_cons _ _ _ _ _ E1 W) as (_ & h & Hh & Eh). simpl in Eh.
  assert (Er : r3 = mkReader (r_b r3) false) by (by destruct r3; simpl in *; subst).
  assert (Hnext : forall p', parse_loop fuel p' ({[id]} ∪ seen) r3 = Some (inr q) ->
    (forall es, assigns es p' q -> assigns ((id, value) :: es) p q) ->
    exists es, entries es b /\ NoDup es.*1 /\ Forall (fun id => id ∉ prohibited) es.*1 /\ Forall (fun id => id ∉ seen) es.*1 /\ assigns es p q).
  { intros p' H Ha. rewrite Er in H. apply IH in H as (es & I1 & I2 & I3 & I4 & I5). exists ((id, value) :: es). rewrite list.Forall_forall in I4. split_and!.
    - rewrite Eh, Eb. by constructor.
    - cbn. apply list.NoDup_cons. split; [|done]. intros Hin. apply (I4 _ Hin), elem_of_union_l. by apply elem_of_singleton.
    - by constructor.
    - constructor; [done|]. apply list.Forall_forall. intros i Hi Hin. apply (I4 i Hi). by apply elem_of_union_r.
    - auto. }
  pose proof (field_known id) as Hk. destruct (field id) as [f|].
  - destruct (varint_parse value) as [[v k]|] eqn:Ev; [|done]. destruct (Z.eqb_spec k (zlen value)) as [->|]; [|done]. cbn [negb].
    intros H. apply (Hnext _ H). intros es Ha. by eapply assigns_known.
  - intros H. apply (Hnext _ H). intros es Ha. by apply assigns_unknown.
Qed.

Lemma parse_loop_complete es b : entries es b -> forall fuel p q seen,
  NoDup es.*1 -> Forall (fun id => id ∉ prohibited) es.*1 -> Forall (fun id => id ∉ seen) es.*1 -> assigns es p q -> (length b < fuel)%nat ->
  parse_loop fuel p seen (mkReader b false) = Some (inr q).
Proof using VL.
  induction 1 as [|id value es h b Hh _ IH]; intros fuel p q seen N1 N2 N3 A Hf.
  { destruct fuel; [simpl in Hf; lia|]. inversion A; subst. done. }
  inversion Hh as [|v1 vs1 e1 b1 H1 H1']; subst. inversion H1' as [|v2 vs2 e2 b2 H2 H2']; subst. inversion H2'; subst. rewrite app_nil_r in *.
  assert (Hl1 : 1 <= zlen e1) by (destruct (parse_Some _ _ _ H1) as (_ & ? & _); lia).
  destruct fuel as [|fuel]; [simpl in Hf; lia|]. cbn [parse_loop r_b]. rewrite <- app_assoc.
  destruct (Z.ltb_spec 0 (zlen (e1 ++ e2 ++ value ++ b))) as [_|H]; [|rewrite length_app in H; lia].
  rewrite (varint_encodes id e1) by done. rewrite (varint_encodes _ e2) by done. rewrite read_bytes_app. cbn [r_failed].
  cbn in N1, N2, N3. apply list.NoDup_cons in N1 as [N1 N1']. apply list.Forall_cons in N2 as [N2 N2']. apply list.Forall_cons in N3 as [N3 N3'].
  rewrite bool_decide_eq_true_2 by (by apply prohibited_ok). cbn [negb]. rewrite bool_decide_eq_false_2 by done.
  assert (Hnext : forall p', assigns es p' q -> parse_loop fuel p' ({[id]} ∪ seen) (mkReader b false) = Some (inr q)).
  { intros p' Ha. apply IH; try done; [|rewrite !length_app in Hf; lia]. rewrite list.Forall_forall in N3' |- *. intros i Hi. specialize (N3' i Hi).
    assert (i <> id) by congruence. intros [?%elem_of_singleton|?]%elem_of_union; done. }
  inversion A as [|? ? v f ? ? ? E1 E2 E3|? ? ? ? ? E1 E2]; subst.
  2:{ pose proof (field_known id) as Hk. destruct (field id); [|by apply Hnext]. by apply (list_elem_of_fmap_2 fst) in Hk. }
  destruct (known_field _ _ E1) as (g & -> & <-). unfold encodes in E2. rewrite E2, Z.eqb_refl. cbn [negb]. by apply Hnext.
Qed.

Lemma parseParameters_grammar p b : parseParameters b = inr p <-> params_on_wire p b.
Proof using VL.
  unfold parseParameters, params_on_wire. split.
  - destruct (parse_loop _ _ _ _) as [[e|q]|] eqn:E; try done. intros H.
    apply parse_loop_sound in E as (es & I1 & I2 & I3 & _ & I5). unfold check_params in H.
    destruct ((maxStreams <? InitialMaxStreamsBidi q) || (maxStreams <? InitialMaxStreamsUni q)) eqn:E1; [done|].
    destruct (MaxRecordSize q <? DefaultMaxRecordSize) eqn:E2; [done|]. assert (q = p) as -> by congruence. exists es. rewrite maxStreams_eq in E1. unfold DefaultMaxRecordSize in E2. split_and!; try done; lia.
  - intros (es & I1 & I2 & I3 & I5 & L1 & L2 & L3).
    rewrite (parse_loop_complete es b I1 _ initialParameters p); try done; [|apply list.Forall_forall; intros i _; apply not_elem_of_empty|lia].
    apply check_params_ok; rewrite ?maxStreams_eq; done.
Qed.
End params.

(** * [Parse] *)

Section frames.
Context {V : QuicVarint} {VL : QuicVarintLaws V}.

(** The bytes of [r0] up to [tl] are an encoding of [f]. *)
Definition shows (r0 : reader) (f : frame) (tl : bytes) : Prop := exists e, r_b r0 = e ++ tl /\ frame_on_wire f e tl.

Lemma shows_ints r0 vs r f : went r0 vs r -> (forall e, ints vs e -> frame_on_wire f e (r_b r)) -> shows r0 f (r_b r).
Proof using Type. intros (_ & e & He & Eb) H. exists e. auto. Qed.

Lemma shows_data r0 vs r d f tl :
  went r0 vs r -> r_b r = d ++ tl -> (forall h, ints vs h -> frame_on_wire f (h ++ d) tl) -> shows r0 f tl.
Proof using Type. intros (_ & e & He & Eb) Er H. exists (e ++ d). split; [by rewrite Eb, Er, app_assoc|auto]. Qed.

Lemma stream_bits t :
  (typeStream <=? t) && (t <=? typeStreamMax) = true ->
  t = 0x08 + bit (negb (Z.land t streamBitOff =? 0)) 4 + bit (negb (Z.land t streamBitLen =? 0)) 2 + bit (negb (Z.land t streamBitFin =? 0)) 1.
Proof using Type.
  unfold typeStream, typeStreamMax. intros H.
  assert (t = 8 \/ t = 9 \/ t = 10 \/ t = 11 \/ t = 12 \/ t = 13 \/ t = 14 \/ t = 15) as D by lia.
  repeat (destruct D as [->|D]; [done|]). by subst.
Qed.

Lemma went_app r1 vs1 r2 vs2 r3 : went r1 vs1 r2 -> went r2 vs2 r3 -> went r1 (vs1 ++ vs2) r3.
Proof using Type.
  intros (H1 & e1 & I1 & E1) (_ & e2 & I2 & E2). split; [done|]. exists (e1 ++ e2). split; [|by rewrite E1, E2, app_assoc].
  clear E1 E2. induction I1 as [|v vs e b He _ IH]; [done|]. simpl. rewrite <- app_assoc. by constructor.
Qed.

(** The STREAM frames. *)
Lemma parse_stream t r r0 f tl :
  (typeStream <=? t) && (t <=? typeStreamMax) = true -> varint r0 = (t, r) -> parse_body t r = ParsedFrame f tl -> shows r0 f tl.
Proof using VL.
  intros Ht Et H. pose proof (stream_bits t Ht) as Hb. unfold parse_body in H. assert (Hne : (t =? typeResetStream) = false /\ (t =? typeStopSending) = false).
  { unfold typeStream, typeResetStream, typeStopSending in *. lia. }
  destruct Hne as [N1 N2]. rewrite N1, N2, Ht in H. set (fin := negb (Z.land t streamBitFin =? 0)) in *.
  set (off := negb (Z.land t streamBitOff =? 0)) in *. set (len := negb (Z.land t streamBitLen =? 0)) in *. forget fin. forget off. forget len.
  destruct (varint r) as [sid r1] eqn:E1. destruct (if off then varint r1 else (0, r1)) as [offset r2] eqn:E2.
  destruct (if len then _ else _) as [data r3] eqn:E3. apply finish_frame_inv in H as (Hf & <- & <-).
  assert (H3 : exists r2', went r2 (if len then [zlen data] else []) r2' /\ r_b r2' = data ++ r_b r3 /\ (len = false -> r_b r3 = [])).
  { destruct len.
    - destruct (varint r2) as [n r2'] eqn:En. destruct (went_bytes r2 n r2' data r3 En E3 Hf) as [W Eb]. by exists r2'.
    - destruct (rest_inv _ _ _ E3 Hf) as (Hf2 & Eb & En). exists r2. split; [by apply went_nil|]. by rewrite En, app_nil_r. }
  destruct H3 as (r2' & W3 & Eb & Hlen).
  assert (W2 : went r1 (if off then [offset] else []) r2 /\ (off = false -> offset = 0)).
  { destruct off; [split; [|done]; eapply went_cons; [exact E2|apply went_nil, W3]|injection E2 as <- <-; split; [apply went_nil, W3|done]]. }
  destruct W2 as [W2 Hoff]. pose proof (went_app _ _ _ _ _ W2 W3) as W.
  eapply (shows_data r0 _ r2' data); [eapply went_cons; [exact Et|]; eapply went_cons; [exact E1|exact W]|exact Eb|].
  intros h Hh. rewrite Hb in Hh. by apply (w_stream off len).
Qed.

Ltac went := repeat (eapply went_cons; [eassumption|]); apply went_nil; assumption.

Ltac went_data W Eb :=
  match goal with E1 : varint ?r = (?n, ?r1), E2 : read_bytes ?n ?r1 = (?d, ?r2), Hf : r_failed ?r2 = false |- _ =>
    destruct (went_bytes r n r1 d r2 E1 E2 Hf) as [W Eb] end.

(** The type of the frame, in the branch for it. *)
Ltac known_type :=
  match goal with
  | E : (_ =? _) = true |- _ => apply Z.eqb_eq in E; subst
  | E : (_ =? _) || (_ =? _) = true |- _ => apply orb_true_iff in E as [E|E]; apply Z.eqb_eq in E; subst
  end.

Lemma parse_body_sound t r r0 f tl : varint r0 = (t, r) -> parse_body t r = ParsedFrame f tl -> shows r0 f tl.
Proof using VL.
  intros Et H. destruct ((typeStream <=? t) && (t <=? typeStreamMax)) eqn:Ht; [by eapply parse_stream|].
  unfold parse_body in H. rewrite Ht in H.
  assert (Hwent : forall vs r', went r vs r' -> went r0 (t :: vs) r') by (intros; by eapply went_cons).
  body_cases H; apply finish_frame_inv in H as (Hf & <- & <-).
  - known_type. eapply shows_ints; [apply Hwent; went|]. intros e He. by apply w_reset_stream.
  - known_type. eapply shows_ints; [apply Hwent; went|]. intros e He. by apply w_stop_sending.
  - known_type. eapply shows_ints; [apply Hwent; went|]. intros e He. by apply w_max_data.
  - known_type. eapply shows_ints; [apply Hwent; went|]. intros e He. by apply w_max_stream_data.
  - known_type; (eapply shows_ints; [apply Hwent; went|]); intros e He.
    + apply (w_max_streams false); [done|by apply Z.ltb_ge].
    + apply (w_max_streams true); [done|by apply Z.ltb_ge].
  - known_type. eapply shows_ints; [apply Hwent; went|]. intros e He. by eapply w_data_blocked.
  - known_type. eapply shows_ints; [apply Hwent; went|]. intros e He. by eapply w_stream_data_blocked.
  - known_type; (eapply shows_ints; [apply Hwent; went|]); intros e He.
    + eapply (w_streams_blocked false); [exact He|by apply Z.ltb_ge].
    + eapply (w_streams_blocked true); [exact He|by apply Z.ltb_ge].
  - known_type; [|done]. went_data W Eb. eapply shows_data; [apply Hwent; do 2 (eapply went_cons; [eassumption|]); exact W|exact Eb|].
    intros h Hh. by apply w_transport_close.
  - known_type; [done|]. went_data W Eb. eapply shows_data; [apply Hwent; eapply went_cons; [eassumption|exact W]|exact Eb|].
    intros h Hh. by apply w_application_close.
  - known_type. match goal with E : rest _ = _ |- _ => destruct (rest_inv _ _ _ E Hf) as (Hr & Eb & ->) end.
    eapply (shows_data r0 _ r (r_b r)); [apply Hwent, went_nil; exact Hr|by rewrite app_nil_r|]. rewrite Eb. intros h Hh. by apply w_datagram.
  - known_type. went_data W Eb. eapply shows_data; [apply Hwent; exact W|exact Eb|]. intros h Hh. by apply w_datagram_len.
  - rewrite Hf in *. done.
  - known_type. went_data W Eb. eapply shows_data; [apply Hwent; exact W|exact Eb|]. intros h Hh.
    apply w_transport_parameters; [done|]. by apply parseParameters_grammar.
  - known_type; (eapply shows_ints; [apply Hwent; went|]); intros e He.
    + by apply (w_ping false).
    + by apply (w_ping true).
Qed.

(** ** Completeness *)

Lemma ints_inv v vs b : ints (v :: vs) b -> exists e b', b = e ++ b' /\ encodes v e /\ ints vs b'.
Proof using Type. intros H. inversion H; subst. by eexists _, _. Qed.

Lemma ints_nil_inv b : ints [] b -> b = [].
Proof using Type. intros H. by inversion H. Qed.

(** Runs the [switch] of [Parse] on a type that is known. *)
Ltac run_switch :=
  cbv [parse_body typeResetStream typeStopSending typeStream typeStreamMax typeMaxData typeMaxStreamData typeMaxStreamsBidi typeMaxStreamsUni
    typeDataBlocked typeStreamDataBlocked typeStreamsBlocked typeStreamsBlockedUni typeConnectionClose typeApplicationClose typeDatagram
    typeDatagramLen typeTransportParameters typePingRequest typePingResponse streamBitFin streamBitLen streamBitOff bit
    Z.eqb Z.leb Z.compare Z.add Z.land Pos.eqb Pos.compare Pos.compare_cont Pos.add Pos.succ Pos.land Pos.Nsucc_double Pos.Ndouble Z.of_N
    andb orb negb].

(** Reads the next integer, and the bytes after the last one. *)
Ltac eat H :=
  let e := fresh "e" in let b := fresh "b" in let He := fresh "He" in
  apply ints_inv in H as (e & b & -> & He & H); rewrite <- ?app_assoc; rewrite (varint_encodes _ e _ He).
Ltac eaten H := apply ints_nil_inv in H as ->; rewrite app_nil_l, ?read_bytes_app; done.

Lemma parse_body_complete f e tl :
  frame_on_wire f e tl -> let '(t, r) := varint (mkReader (e ++ tl) false) in parse_body t r = ParsedFrame f tl.
Proof using VL.
  destruct 1 as [sid code size e tl H|sid code e tl H|off len fin sid offset data h tl H Ho Hl|m e tl H|sid m e tl H|uni m e tl H Hm|m e tl H|sid m e tl H
    |uni m e tl H Hm|code ft reason h tl H|code reason h tl H|data h H|data h tl H|p b h tl H Hp|response seq e tl H].
  - eat H. run_switch. eat H. eat H. eat H. eaten H.
  - eat H. run_switch. eat H. eat H. eaten H.
  - cbn [app] in H. destruct off, len, fin; cbn [app] in H; eat H; run_switch; repeat eat H; apply ints_nil_inv in H as ->; rewrite app_nil_l.
    all: rewrite ?read_bytes_app, ?(Ho eq_refl); try done.
    all: specialize (Hl eq_refl) as ->; unfold rest; cbn [r_failed r_b]; by rewrite app_nil_r.
  - eat H. run_switch. eat H. eaten H.
  - eat H. run_switch. eat H. eat H. eaten H.
  - rewrite <- maxStreams_eq in Hm. destruct uni; eat H; run_switch; eat H; rewrite (proj2 (Z.ltb_ge _ _) Hm); eaten H.
  - eat H. run_switch. eat H. eaten H.
  - eat H. run_switch. eat H. eat H. eaten H.
  - rewrite <- maxStreams_eq in Hm. destruct uni; eat H; run_switch; eat H; rewrite (proj2 (Z.ltb_ge _ _) Hm); eaten H.
  - eat H. run_switch. eat H. eat H. eat H. eaten H.
  - eat H. run_switch. eat H. eat H. eaten H.
  - eat H. run_switch. apply ints_nil_inv in H as ->. unfold rest. cbn [r_failed r_b]. by rewrite app_nil_l, app_nil_r.
  - eat H. run_switch. eat H. eaten H.
  - eat H. run_switch. eat H. apply ints_nil_inv in H as ->. rewrite app_nil_l, read_bytes_app. apply parseParameters_grammar in Hp. by rewrite Hp.
  - destruct response; eat H; run_switch; eat H; eaten H.
Qed.

(** ** Padding *)

Lemma skip_padding_spec b :
  exists pad, b = pad ++ skip_padding b /\ padding pad /\ (forall x l, skip_padding b = x :: l -> b2z x <> 0).
Proof using Type.
  induction b as [|x b (pad & E & H1 & H2)]; [exists []; split_and!; [done|constructor|done]|]. simpl.
  destruct (Z.eqb_spec (b2z x) 0) as [Hx|Hx].
  - exists (x :: pad). split_and!; [by rewrite E at 1|by constructor|done].
  - exists []. split_and!; [done|constructor|]. by intros y l [= <- _].
Qed.

Lemma skip_padding_app pad x l : padding pad -> b2z x <> 0 -> skip_padding (pad ++ x :: l) = x :: l.
Proof using Type.
  intros H Hx. induction H as [|y pad Hy _ IH]; simpl; [by rewrite (proj2 (Z.eqb_neq _ _))|]. by rewrite Hy.
Qed.

(** The first byte of a frame is not padding. *)
Lemma encodes_head v e : encodes v e -> v <> 0 -> exists x l, e = x :: l /\ b2z x <> 0.
Proof using VL.
  unfold encodes. intros E Hv. destruct e as [|x l]; [by rewrite parse_empty in E|]. exists x, l. split; [done|]. intros Hx.
  assert (x = z2b 0) as -> by (by rewrite <- Hx, z2b_b2z).
  assert (H0 : is_varint 0) by (unfold is_varint; lia). pose proof (parse_enc 0 l H0) as H. rewrite enc_byte in H by lia. simpl in H. congruence.
Qed.

Lemma on_wire_head f e tl : frame_on_wire f e tl -> exists x l, e = x :: l /\ b2z x <> 0.
Proof using VL.
  assert (Hi : forall v vs h d, ints (v :: vs) h -> v <> 0 -> exists x l, h ++ d = x :: l /\ b2z x <> 0).
  { intros v vs h d H Hv. apply ints_inv in H as (e' & b' & -> & He & _). destruct (encodes_head v e' He Hv) as (x & l & -> & Hx).
    exists x, ((l ++ b') ++ d). done. }
  assert (Hn : forall v vs h, ints (v :: vs) h -> v <> 0 -> exists x l, h = x :: l /\ b2z x <> 0).
  { intros v vs h H Hv. rewrite <- (app_nil_r h). by eapply Hi. }
  destruct 1; try (by eapply Hn); try (by eapply Hi);
    try (eapply Hn; [eassumption|]; match goal with b : bool |- _ => by destruct b end).
  eapply Hi; [eassumption|]. by destruct off, len, fin.
Qed.

(** C10: [Parse] accepts exactly the wire format. It returns a frame and what
    follows it if and only if the input is padding, an encoding of that frame
    by the grammar of the draft and of RFC 9000, and what follows; and it returns
    no frame exactly when the input is only padding. Everything else is an
    error. The same holds of the transport parameters inside a frame. *)
Theorem Parse_grammar b :
  (forall f tl, Parse b = ParsedFrame f tl <-> exists pad e, b = pad ++ e ++ tl /\ padding pad /\ frame_on_wire f e tl) /\
  (Parse b = ParsedNone <-> padding b) /\
  (forall p, parseParameters b = inr p <-> params_on_wire p b).
Proof using VL.
  split_and!; [| |intros p; apply parseParameters_grammar].
  - intros f tl. unfold Parse. split.
    + destruct (skip_padding_spec b) as (pad & E & Hp & _). destruct (_ =? 0); [done|]. destruct (varint _) as [t r] eqn:Et. intros H.
      destruct (parse_body_sound t r _ f tl Et H) as (e & Eb & He). exists pad, e. cbn [r_b] in Eb. by rewrite E, Eb at 1.
    + intros (pad & e & -> & Hp & He). destruct (on_wire_head f e tl He) as (x & l & -> & Hx). cbn [app].
      rewrite skip_padding_app by done. destruct (Z.eqb_spec (zlen (x :: l ++ tl)) 0) as [H|_]; [simpl in H; lia|].
      apply parse_body_complete in He. cbn [app] in He. by destruct (varint _).
  - unfold Parse. destruct (skip_padding_spec b) as (pad & E & Hp & Hh). destruct (skip_padding b) as [|x l] eqn:Es.
    + rewrite app_nil_r in E. subst b. done.
    + destruct (Z.eqb_spec (zlen (x :: l)) 0) as [H|_]; [simpl in H; lia|]. destruct (varint _) as [t r]. split.
      * intros H. exfalso. unfold parse_body in H. body_cases H; unfold finish_frame in H; by destruct (r_failed _).
      * intros H. exfalso. apply (Hh x l eq_refl). rewrite E in H. apply Forall_app in H as [_ H]. by apply list.Forall_cons in H as [H _].
Qed.
End frames.
