(* ===== verification/ConnTheorems.v ===== *)
(** The correctness of a connection, in every reachable state and for every
    interleaving of its operations: the stream table and the stream limits,
    flow control in both directions, the life of streams, the wake-ups, and
    what each frame of the peer does. *)

From S2P Require Import Prelude Varint Params Frame WriteLock Config State Core Stream Conn System Facts Ids Table Flow Life Control Wake Scenario.

Section reachable.
Context {GA : GoAppend} (cfg : Config) (isServer : bool) (c : Conn).
Hypothesis (Hcfg : config_ok cfg) (Hreach : reach cfg isServer c).

(** * The stream table *)

(** C29: every stream object has its own identifier, and can send and receive
    as the identifier's two low bits say. While the connection is open, its
    map holds exactly the streams that are not done, under their own
    identifiers; once it is closed, none. *)
Theorem stream_table_exact :
  NoDup (s_id <$> c_heap c) /\
  (forall p, ptr c p ->
    s_canRecv (deref c p) = can_recv c (s_id (deref c p)) /\
    s_canSend (deref c p) = can_send c (s_id (deref c p))) /\
  (c_closeErr c = None -> forall id p,
    c_streams c !! id = Some p <-> ptr c p /\ s_id (deref c p) = id /\ s_done (deref c p) = false) /\
  (c_closeErr c <> None -> c_streams c = ∅).
Proof using Hcfg Hreach.
  pose proof (reach_ids _ _ _ Hcfg Hreach) as H. split_and!; [apply H| |apply H|apply H].
  intros p Hp. destruct (id_stream _ H p Hp). by split.
Qed.

(** C30: the peer never has more streams open than the configuration allows:
    of each kind, the streams it has opened and that are not done are at
    most the configured number. The accept queue holds exactly the peer's
    streams that the application has not accepted, each of them once, so it
    is bounded by the same number. *)
Theorem incoming_streams_bounded d :
  opened c d - finished c d <= cfg_streams (c_config c) d /\
  (forall p, p ∈ i_queue (c_in d c) <->
    ptr c p /\ remote c d (deref c p) = true /\ s_accepted (deref c p) = false) /\
  NoDup (i_queue (c_in d c)) /\
  Z.of_nat (length (i_queue (c_in d c))) <= cfg_streams (c_config c) d.
Proof using Hcfg Hreach.
  pose proof (reach_ids _ _ _ Hcfg Hreach) as H.
  pose proof (id_in _ H d). pose proof (id_opened _ H d). pose proof (id_max _ H d).
  assert (Ho : opened c d - finished c d <= cfg_streams (c_config c) d) by lia.
  split_and!; [done|apply H|apply H|]. rewrite queue_length by done.
  enough (sumZ (fun s => b2n (remote c d s && negb (s_accepted s))) (c_heap c) + finished c d <= opened c d) by lia.
  unfold opened, finished. clear Ho.
  assert (Hd : forall s, s ∈ c_heap c -> s_done s = true -> s_accepted s = true).
  { intros s (p & Hp & <-)%list_elem_of_lookup_total_1. apply (sid_done _ _ (id_stream _ H p Hp)). }
  induction (c_heap c) as [|s l IH]; [done|]. rewrite !sumZ_cons.
  assert (b2n (remote c d s && negb (s_accepted s)) + b2n (remote c d s && s_done s) <= b2n (remote c d s)).
  { specialize (Hd s ltac:(left)). destruct (remote c d s), (s_accepted s), (s_done s); simpl; try lia; by specialize (Hd eq_refl). }
  specialize (IH ltac:(intros; apply Hd; [by right|done])). lia.
Qed.

(** * Flow control *)

(** C13: on every stream, what the application has read and what is buffered
    for it are within what was received, which is within the limit given to
    the peer, which is within a window of what was read. So the buffer never
    holds more than the stream's receive window; and unless the stream was
    reset or cancelled, every byte received has been read or is buffered. *)
Theorem stream_receive_window p :
  ptr c p ->
  let s := deref c p in
  s_readOffset s + zlen (unread s) <= s_recvOffset s /\ s_recvOffset s <= s_recvMax s /\
  s_recvMax s <= s_readOffset s + InitialStreamReceiveWindow (c_config c) /\
  zlen (unread s) <= InitialStreamReceiveWindow (c_config c) /\
  (s_recvErr s = None -> s_readOffset s + zlen (unread s) = s_recvOffset s).
Proof using Hcfg Hreach.
  intros Hp s. destruct (fl_stream _ (reach_flow _ _ _ Hcfg Hreach) p Hp) as [A1 A2 A3 A4 A5 A6 A7 An A8 A9 A10 A11].
  unfold s, stream_window in *. split_and!; [lia|lia|lia|lia|exact A4].
Qed.

(** C14: the counters of the connection are the sums over its streams; what
    was received is within the limit given to the peer, which is within a
    window of what was consumed. So all the receive buffers together never
    hold more than the connection's receive window. *)
Theorem connection_receive_window :
  c_received c = sumZ s_recvOffset (c_heap c) /\
  c_received c - c_consumed c = sumZ (fun s => zlen (unread s)) (c_heap c) /\
  c_received c <= c_recvMax c <= c_consumed c + InitialConnectionReceiveWindow (c_config c) /\
  sumZ (fun s => zlen (unread s)) (c_heap c) <= InitialConnectionReceiveWindow (c_config c).
Proof using Hcfg Hreach.
  pose proof (reach_flow _ _ _ Hcfg Hreach) as H. pose proof (buffered_sum c H) as Hb.
  pose proof (fl_limit _ H). pose proof (fl_window _ H). split_and!; [apply H|done|done|done|lia].
Qed.

(** A peer is never left without credit by an application that keeps up:
    on a stream that is still open, once everything received was read, the
    peer may send at least half a window more, rounded down (so something for
    windows of two bytes and up), and likewise on the connection once nothing
    is buffered. *)
Theorem peer_credit_restored :
  (forall p, ptr c p -> s_canRecv (deref c p) = true -> s_finRecv (deref c p) = false ->
    s_recvErr (deref c p) = None -> unread (deref c p) = [] ->
    s_recvOffset (deref c p) + InitialStreamReceiveWindow (c_config c) / 2 <= s_recvMax (deref c p)) /\
  (sumZ (fun s => zlen (unread s)) (c_heap c) = 0 ->
    c_received c + InitialConnectionReceiveWindow (c_config c) / 2 <= c_recvMax c).
Proof using Hcfg Hreach.
  pose proof (reach_flow _ _ _ Hcfg Hreach) as H. split.
  - intros p Hp Hc Hf He Hu. destruct (fl_stream _ H p Hp) as [A1 A2 A3 A4 A5 A6 A7 An A8 A9 A10 A11].
    specialize (A4 He). specialize (A7 Hc Hf). rewrite Hu in A4. simpl in A4. lia.
  - intros E. pose proof (buffered_sum c H). pose proof (fl_half _ H). lia.
Qed.

(** This endpoint never sends past what the peer allows, on any stream
    or on the connection, and the connection's counter is the sum over the
    streams. *)
Theorem send_within_limits :
  (forall p, ptr c p -> 0 <= s_sendOffset (deref c p) <= s_sendMax (deref c p)) /\
  c_sent c = sumZ s_sendOffset (c_heap c) /\ 0 <= c_sent c <= c_sendMax c.
Proof using Hcfg Hreach.
  pose proof (reach_flow _ _ _ Hcfg Hreach) as H. split_and!; [|apply H|by apply sent_nonneg|apply H].
  intros p Hp. apply (so_send _ _ (fl_stream _ H p Hp)).
Qed.
End reachable.
