(* ===== verification/LifeTheorems.v ===== *)
(** The life of a connection and of its streams: what completes a stream, what
    ends a connection, and that no blocked call is left waiting for something
    that has happened. *)

From S2P Require Import Prelude Varint Params Frame WriteLock Config State Core Stream Conn System Facts Ids Table Flow Life Control Wake Scenario.

(** * Blocked calls *)

(** What keeps [tryRead] and [tryPeek] waiting for [n] bytes. *)
Definition recv_blocked (p n : nat) (dl : Z) (c : Conn) : Prop :=
  c_closeErr c = None /\ s_canRecv (deref c p) = true /\ s_recvErr (deref c p) = None /\
  s_finRecv (deref c p) = false /\ s_readDeadline (deref c p) = dl /\ (length (unread (deref c p)) < n)%nat.

(** What keeps [trySend] waiting: the stream can still send, up to [m]. *)
Definition send_blocked (p : nat) (dl m : Z) (c : Conn) : Prop :=
  c_closeErr c = None /\ s_canSend (deref c p) = true /\ s_sendErr (deref c p) = None /\
  s_finSent (deref c p) = false /\ s_writeDeadline (deref c p) = dl /\ s_sendMax (deref c p) = m.

Lemma recv_blocked_live p n dl c : all_inv c -> ptr c p -> recv_blocked p n dl c -> live (RD p) c.
Proof.
  intros [_ Hf Hl] Hp (_ & Hc & He & Hfin & _ & _). simpl.
  rewrite (sl_done _ (lf_stream _ Hl p Hp)). unfold recvDone. rewrite Hc, Hfin. simpl.
  destruct (s_recvReset (deref c p)) eqn:Hr; [|by rewrite andb_false_r].
  pose proof (so_err _ _ (fl_stream _ Hf p Hp)) as [_ H]. destruct H; [by right|done].
Qed.

Lemma send_blocked_live p dl m c : all_inv c -> ptr c p -> send_blocked p dl m c -> live (WR p) c.
Proof.
  intros [_ _ Hl] Hp (_ & Hc & He & Hfin & _). simpl.
  rewrite (sl_done _ (lf_stream _ Hl p Hp)). unfold sendDone. rewrite Hc, Hfin, He. simpl. apply andb_false_r.
Qed.

Lemma recv_blocked_same p n dl c c' : same (RD p) c c' -> recv_blocked p n dl c -> recv_blocked p n dl c'.
Proof.
  intros [Ec (E1 & E2 & E3 & E4 & Hs)] (B0 & B1 & B2 & B3 & B4 & B5).
  unfold recv_blocked. rewrite Ec, E1, E2, E3, E4. split_and!; try done.
  apply suffix_length in Hs. lia.
Qed.

Lemma blocked_unread p c : flow_inv c -> ptr c p ->
  (s_roff (deref c p) <? length (s_rbuf (deref c p)))%nat = (0 <? length (unread (deref c p)))%nat.
Proof.
  intros Hf Hp. unfold unread. rewrite length_drop.
  destruct (Nat.ltb_spec (s_roff (deref c p)) (length (s_rbuf (deref c p)))), 
    (Nat.ltb_spec 0 (length (s_rbuf (deref c p)) - s_roff (deref c p))); lia || done.
Qed.

(** A blocked reader gets the channel of the stream's signal. *)
Lemma tryRead_blocked p n ch dl c :
  flow_inv c -> ptr c p -> recv_blocked p 1 dl c -> s_readSignal (deref c p) = Some ch ->
  (tryRead p n c).1 = TryWait ch dl.
Proof.
  intros Hf Hp (B0 & B1 & B2 & B3 & B4 & B5) Hs. unfold tryRead. rewrite B0, B2, B3, blocked_unread by done.
  destruct (Nat.ltb_spec 0 (length (unread (deref c p)))); [lia|]. simpl. by rewrite Hs, B4.
Qed.

Lemma tryPeek_blocked p n ch dl c :
  recv_blocked p n dl c -> s_readSignal (deref c p) = Some ch -> (tryPeek p n c).1 = TryWait ch dl.
Proof.
  intros (B0 & B1 & B2 & B3 & B4 & B5) Hs. unfold tryPeek. rewrite B0, B2, B3.
  destruct (Nat.leb_spec n (length (unread (deref c p)))); [lia|]. simpl. by rewrite Hs, B4.
Qed.

(** What a reader leaves when it goes to wait. *)
Lemma wait_read_state p ch n dl c k :
  ptr c p -> recv_blocked p n dl c ->
  let c1 := upd p (set_s_readSignal (Some ch)) (set_c_chans k c) in
  ptr c1 p /\ recv_blocked p n dl c1 /\ s_readSignal (deref c1 p) = Some ch.
Proof.
  intros Hp B c1. assert (E : deref c1 p = set_s_readSignal (Some ch) (deref c p)) by (by apply (deref_upd (set_c_chans k c))).
  split; [by apply ptr_upd|]. unfold recv_blocked. rewrite E. by split.
Qed.

Lemma tryRead_waits p n ch dl c c1 :
  flow_inv c -> ptr c p -> s_canRecv (deref c p) = true -> tryRead p n c = (TryWait ch dl, c1) ->
  ptr c1 p /\ recv_blocked p 1 dl c1 /\ s_readSignal (deref c1 p) = Some ch.
Proof.
  intros Hf Hp Hr. unfold tryRead. destruct (c_closeErr c) eqn:Hc; [done|].
  destruct (s_recvErr (deref c p)) eqn:He; [done|]. rewrite blocked_unread by done.
  destruct (Nat.ltb_spec 0 (length (unread (deref c p)))); [done|].
  destruct (s_finRecv (deref c p)) eqn:Hfin; [done|]. unfold signal_wait. intros E. injection E as E1 E2 E3.
  subst ch dl c1. apply wait_read_state; [done|]. split_and!; try done. lia.
Qed.

Lemma tryPeek_waits p n ch dl c c1 :
  ptr c p -> s_canRecv (deref c p) = true -> tryPeek p n c = (TryWait ch dl, c1) ->
  ptr c1 p /\ recv_blocked p n dl c1 /\ s_readSignal (deref c1 p) = Some ch.
Proof.
  intros Hp Hr. unfold tryPeek. destruct (c_closeErr c) eqn:Hc; [done|].
  destruct (s_recvErr (deref c p)) eqn:He; [done|].
  destruct (Nat.leb_spec n (length (unread (deref c p)))); [done|].
  destruct (s_finRecv (deref c p)) eqn:Hfin; [done|]. unfold signal_wait. intros E. injection E as E1 E2 E3.
  subst ch dl c1. by apply wait_read_state.
Qed.

(** * Blocked writers *)

(** A writer out of credit waits for the stream's limit or the connection's. *)
Definition stream_full (p : nat) (dl m : Z) (c : Conn) : Prop :=
  send_blocked p dl m c /\ m <= s_sendOffset (deref c p).
Definition conn_full (m : Z) (c : Conn) : Prop := c_closeErr c = None /\ c_sendMax c = m /\ m <= c_sent c.

Lemma send_blocked_same p dl m c c' : same (WR p) c c' -> send_blocked p dl m c -> send_blocked p dl m c'.
Proof.
  intros [Ec (E1 & E2 & E3 & E4 & E5 & _)] (B0 & B1 & B2 & B3 & B4 & B5).
  unfold send_blocked. rewrite Ec, E1, E2, E3, E4, E5. by split_and!.
Qed.

Lemma stream_full_same p dl m c c' : same (WR p) c c' -> stream_full p dl m c -> stream_full p dl m c'.
Proof.
  intros Hs [B H]. split; [by eapply send_blocked_same|]. destruct Hs as [_ (_ & _ & _ & _ & _ & Ho)]. lia.
Qed.

Lemma conn_full_same m c c' : same SND c c' -> conn_full m c -> conn_full m c'.
Proof. intros [Ec [E1 E2]] (B0 & B1 & B2). unfold conn_full. rewrite Ec, E1. split_and!; try done. lia. Qed.

Lemma credit_none p c :
  flow_inv c -> ptr c p ->
  (0 <? sendCreditLocked p c) = false <->
  s_sendMax (deref c p) <= s_sendOffset (deref c p) \/ c_sendMax c <= c_sent c.
Proof.
  intros H Hp. pose proof (stream_sent c H p Hp). pose proof (fl_sendLimit _ H). pose proof (fl_sendMax _ H).
  pose proof (so_send _ _ (fl_stream _ H p Hp)). pose proof (so_sendMax _ _ (fl_stream _ H p Hp)).
  unfold sendCreditLocked. rewrite !u64_id by (unfold is_u64; lia). rewrite Z.ltb_ge.
  destruct (Z.leb_spec (s_sendMax (deref c p)) (s_sendOffset (deref c p))); simpl; [lia|].
  destruct (Z.leb_spec (c_sendMax c) (c_sent c)); lia.
Qed.

(** A blocked writer gets the channels of both signals, unless its deadline has
    passed. *)
Lemma trySend_blocked now p w cw dl m c :
  flow_inv c -> ptr c p -> send_blocked p dl m c ->
  m <= s_sendOffset (deref c p) \/ c_sendMax c <= c_sent c ->
  s_writeSignal (deref c p) = Some w -> c_sendSignal c = Some cw ->
  (trySend now p c).1 = if negb (dl =? 0) && (dl <=? now) then SendErr ErrDeadlineExceeded else SendWait w cw dl.
Proof.
  intros Hf Hp (B0 & B1 & B2 & B3 & B4 & B5) Hfull Hw Hcw. unfold trySend, sendErrLocked.
  rewrite B0, B2, B3, B4. destruct (negb _ && _); [done|].
  rewrite (proj2 (credit_none p c Hf Hp)) by (by rewrite B5). simpl. by rewrite Hw, Hcw.
Qed.

Lemma trySend_waits now p w cw dl c c1 :
  flow_inv c -> ptr c p -> s_canSend (deref c p) = true -> trySend now p c = (SendWait w cw dl, c1) ->
  exists m, ptr c1 p /\ send_blocked p dl m c1 /\
    (m <= s_sendOffset (deref c1 p) \/ c_sendMax c1 <= c_sent c1) /\
    s_writeSignal (deref c1 p) = Some w /\ c_sendSignal c1 = Some cw.
Proof.
  intros Hf Hp Hs. unfold trySend, sendErrLocked. destruct (c_closeErr c) eqn:Hc; [done|].
  destruct (s_sendErr (deref c p)) eqn:He; [done|]. destruct (s_finSent (deref c p)) eqn:Hfin; [done|].
  case_match; [done|]. destruct (0 <? sendCreditLocked p c) eqn:Hk; [done|].
  apply credit_none in Hk; [|done|done]. unfold signal_wait. intros E. injection E as E1 E2 E3 E4.
  exists (s_sendMax (deref c p)).
  set (c0 := set_c_chans (match s_writeSignal (deref c p) with Some _ => c_chans c | None => S (c_chans c) end) c) in *.
  set (c2 := upd p (set_s_writeSignal (Some w)) c0).
  assert (Ed : deref c2 p = set_s_writeSignal (Some w) (deref c p)) by (by apply (deref_upd c0)).
  assert (Hc1 : deref c1 p = deref c2 p /\ c_closeErr c1 = c_closeErr c /\ c_sendMax c1 = c_sendMax c /\
    c_sent c1 = c_sent c /\ ptr c1 p /\ c_sendSignal c1 = Some cw).
  { subst c1. split_and!; [by rewrite E1|done|done|done| |by rewrite <- E2].
    simpl. by rewrite length_insert. }
  destruct Hc1 as (D1 & D2 & D3 & D4 & D5 & D6). unfold send_blocked.
  rewrite D1, Ed, D2, D3, D4. by split_and!.
Qed.

(** * Blocked openers and acceptors *)

Definition open_blocked (d : dir) (c : Conn) : Prop :=
  c_closeErr c = None /\ o_max (c_out d c) <= o_next (c_out d c).
Definition accept_blocked (d : dir) (c : Conn) : Prop := c_closeErr c = None /\ i_queue (c_in d c) = [].

Lemma open_blocked_same d c c' : same (OUT d) c c' -> open_blocked d c -> open_blocked d c'.
Proof. intros [Ec [E1 E2]] [B0 B1]. unfold open_blocked. rewrite Ec, E1. split; [done|lia]. Qed.

Lemma accept_blocked_same d c c' : same (IN d) c c' -> accept_blocked d c -> accept_blocked d c'.
Proof.
  intros [Ec Hs] [B0 B1]. unfold accept_blocked. rewrite Ec. split; [done|].
  simpl in Hs. rewrite B1 in Hs. by apply suffix_nil_inv in Hs.
Qed.

Lemma tryOpen_blocked d ch c : open_blocked d c -> o_signal (c_out d c) = Some ch -> (tryOpen d c).1 = OpenWait ch.
Proof.
  intros [B0 B1] Hs. unfold tryOpen. rewrite B0. destruct (Z.leb_spec (o_max (c_out d c)) (o_next (c_out d c))); [|lia].
  simpl. by rewrite Hs.
Qed.

Lemma tryOpen_waits d ch c c1 :
  tryOpen d c = (OpenWait ch, c1) -> open_blocked d c1 /\ o_signal (c_out d c1) = Some ch.
Proof.
  unfold tryOpen. destruct (c_closeErr c) eqn:Hc; [done|].
  destruct (Z.leb_spec (o_max (c_out d c)) (o_next (c_out d c))) as [Hle|]; [|by destruct (newStreamLocked _ _)].
  unfold signal_wait. intros E. injection E as E1 E2. subst ch c1. by destruct d.
Qed.

Lemma tryAccept_blocked d ch c : accept_blocked d c -> i_signal (c_in d c) = Some ch -> (tryAccept d c).1 = OpenWait ch.
Proof. intros [B0 B1] Hs. unfold tryAccept. rewrite B0, B1. simpl. by rewrite Hs. Qed.

Lemma tryAccept_waits d ch c c1 :
  tryAccept d c = (OpenWait ch, c1) -> accept_blocked d c1 /\ i_signal (c_in d c1) = Some ch.
Proof.
  unfold tryAccept. destruct (c_closeErr c) eqn:Hc; [done|].
  destruct (i_queue (c_in d c)) eqn:Hq; [|done].
  unfold signal_wait. intros E. injection E as E1 E2. subst ch c1. by destruct d.
Qed.

(** * The end of the connection *)

Lemma iv_closeErr c c' : iv c' = iv c -> c_closeErr c' = c_closeErr c.
Proof. unfold iv. congruence. Qed.

Lemma complete_closeErr p c : c_closeErr (completeLocked p c) = c_closeErr c.
Proof. by rewrite completeLocked_eq. Qed.

Lemma ends_closeErr p c c' : ends p c c' -> c_closeErr c' = c_closeErr c.
Proof.
  intros (c1 & E & [-> | ->]); [by apply iv_closeErr|]. rewrite complete_closeErr. by apply iv_closeErr.
Qed.

(** No operation changes the error of a closed connection. *)
Lemma exec_closed_err {GA : GoAppend} o c e :
  valid o c -> c_closeErr c = Some e -> c_closeErr (exec o c) = Some e.
Proof.
  intros Hv Hc. rewrite <- Hc.
  destruct o as [now f|d|d|p n|p n|p code|p t|now p|p n|p|p code|p t|p u i| |now|now|e'|now n|now n|]; simpl.
  - destruct Hv as [Hv _]. congruence.
  - unfold tryOpen. by rewrite Hc.
  - unfold tryAccept. by rewrite Hc.
  - apply (ends_closeErr p). auto with qmux.
  - apply (ends_closeErr p). auto with qmux.
  - apply (ends_closeErr p). auto with qmux.
  - done.
  - apply (ends_closeErr p). auto with qmux.
  - apply (ends_closeErr p). auto with qmux.
  - apply (ends_closeErr p). auto with qmux.
  - apply (ends_closeErr p). auto with qmux.
  - done.
  - done.
  - unfold tryReceiveDatagram. by destruct (c_datagrams c).
  - unfold requestPing. by destruct (_ && _).
  - apply iv_closeErr, iv_takeControl.
  - unfold terminate. by rewrite Hc.
  - done.
  - done.
  - done.
Qed.

Lemma steps_closed_err {GA : GoAppend} c c' e :
  steps c c' -> c_closeErr c = Some e -> c_closeErr c' = Some e.
Proof. induction 1 as [|o c c' Hr Hv Hs IH]; intros Hc; [done|]. apply IH. by apply exec_closed_err. Qed.

(** Every call of the application fails at once with the error, and changes
    nothing; nothing more is taken for the peer. *)
Definition refuses (e : error) (c : Conn) : Prop :=
  (forall p n, tryRead p n c = (TryDone [] (Some e), c) /\ tryPeek p n c = (TryDone [] (Some e), c)) /\
  (forall p now n, trySend now p c = (SendErr e, c) /\ reserve p n c = (inr e, c) /\ finish p c = (inr e, c)) /\
  (forall d, tryOpen d c = (OpenErr e, c) /\ tryAccept d c = (OpenErr e, c)) /\
  (forall p code now, cancelRead p code c = c /\ cancelWrite p code c = c /\ takeControl now c = ([], c)) /\
  (forall e', terminate e' c = (false, c)).

Lemma closed_refuses e c : c_closeErr c = Some e -> refuses e c.
Proof.
  intros Hc. unfold refuses, tryRead, tryPeek, trySend, reserve, sendErrLocked, finish, tryOpen, tryAccept,
    cancelRead, cancelWrite, takeControl, terminate. by rewrite Hc.
Qed.

Lemma all_after {GA : GoAppend} o c c1 : all_inv c -> in_range c -> valid o c -> exec o c = c1 -> all_inv c1.
Proof. intros H Hr Hv <-. by apply all_exec. Qed.

Section wakeups.
Context {GA : GoAppend} (cfg : Config) (isServer : bool) (c : Conn).
Hypothesis (Hcfg : config_ok cfg) (Hreach : reach cfg isServer c) (Hrange : in_range c).

Lemma read_waits p n ch dl c1 c2 :
  holds_recv c p -> tryRead p n c = (TryWait ch dl, c1) -> steps c1 c2 -> ch ∉ c_closed c2 ->
  ptr c2 p /\ s_readSignal (deref c2 p) = Some ch /\ recv_blocked p 1 dl c2 /\ all_inv c2.
Proof using Hcfg Hreach Hrange.
  intros Hh E Hs Hnc. pose proof (reach_all _ _ _ Hcfg Hreach) as H.
  destruct (tryRead_waits p n ch dl c c1) as (Hp1 & Hb & Hsig); [apply H|apply Hh|apply Hh|done|].
  assert (H1 : all_inv c1) by (apply (all_after (OpRead p n) c); try done; simpl; by rewrite E).
  apply (steps_slot (recv_blocked p 1 dl) (RD p) ch c1 c2); try done.
  - intros c'. apply recv_blocked_live.
  - intros c' c''. apply recv_blocked_same.
Qed.

Lemma peek_waits p n ch dl c1 c2 :
  holds_recv c p -> tryPeek p n c = (TryWait ch dl, c1) -> steps c1 c2 -> ch ∉ c_closed c2 ->
  ptr c2 p /\ s_readSignal (deref c2 p) = Some ch /\ recv_blocked p n dl c2 /\ all_inv c2.
Proof using Hcfg Hreach Hrange.
  intros Hh E Hs Hnc. pose proof (reach_all _ _ _ Hcfg Hreach) as H.
  destruct (tryPeek_waits p n ch dl c c1) as (Hp1 & Hb & Hsig); [apply Hh|apply Hh|done|].
  assert (H1 : all_inv c1) by (apply (all_after (OpPeek p n) c); try done; simpl; by rewrite E).
  apply (steps_slot (recv_blocked p n dl) (RD p) ch c1 c2); try done.
  - intros c'. apply recv_blocked_live.
  - intros c' c''. apply recv_blocked_same.
Qed.

Lemma write_waits now p w cw dl c1 c2 :
  holds_send c p -> trySend now p c = (SendWait w cw dl, c1) -> steps c1 c2 -> w ∉ c_closed c2 ->
  exists m, ptr c2 p /\ s_writeSignal (deref c2 p) = Some w /\ send_blocked p dl m c2 /\ all_inv c2 /\
    (cw ∉ c_closed c2 -> c_sendSignal c2 = Some cw /\
      (m <= s_sendOffset (deref c2 p) \/ c_sendMax c2 <= c_sent c2)).
Proof using Hcfg Hreach Hrange.
  intros Hh E Hs Hw. pose proof (reach_all _ _ _ Hcfg Hreach) as H.
  destruct (trySend_waits now p w cw dl c c1) as (m & Hp1 & Hb & Hfull & Hs1 & Hs2); [apply H|apply Hh|apply Hh|done|].
  assert (H1 : all_inv c1) by (apply (all_after (OpTrySend now p) c); try done; simpl; by rewrite E).
  destruct (steps_slot (send_blocked p dl m) (WR p) w c1 c2) as (Hp2 & Hsig2 & Hb2 & H2); try done.
  { intros c'. apply send_blocked_live. }
  { intros c' c''. apply send_blocked_same. }
  exists m. split_and!; try done. intros Hcw.
  destruct (steps_slot (fun _ => True) SND cw c1 c2) as (_ & Hsig3 & _); try done.
  split; [done|]. destruct Hfull as [Hf|Hf].
  - left. destruct (steps_slot (stream_full p dl m) (WR p) w c1 c2) as (_ & _ & [_ Hx] & _); try done.
    + intros c' Hc' Hp' [Hx _]. revert Hx. by apply send_blocked_live.
    + intros c' c''. apply stream_full_same.
  - right. destruct (steps_slot (conn_full (c_sendMax c1)) SND cw c1 c2) as (_ & _ & (_ & Hx & Hy) & _); try done.
    + intros c' c''. apply conn_full_same.
    + split; [apply Hb|done].
    + lia.
Qed.

Lemma open_waits d ch c1 c2 :
  tryOpen d c = (OpenWait ch, c1) -> steps c1 c2 -> ch ∉ c_closed c2 ->
  o_signal (c_out d c2) = Some ch /\ open_blocked d c2.
Proof using Hcfg Hreach Hrange.
  intros E Hs Hnc. pose proof (reach_all _ _ _ Hcfg Hreach) as H. destruct (tryOpen_waits d ch c c1 E) as [Hb Hsig].
  assert (H1 : all_inv c1) by (apply (all_after (OpOpen d) c); try done; simpl; by rewrite E).
  destruct (steps_slot (open_blocked d) (OUT d) ch c1 c2) as (_ & Hsig2 & Hb2 & _); try done.
  intros c' c''. apply open_blocked_same.
Qed.

Lemma accept_waits d ch c1 c2 :
  tryAccept d c = (OpenWait ch, c1) -> steps c1 c2 -> ch ∉ c_closed c2 ->
  i_signal (c_in d c2) = Some ch /\ accept_blocked d c2.
Proof using Hcfg Hreach Hrange.
  intros E Hs Hnc. pose proof (reach_all _ _ _ Hcfg Hreach) as H. destruct (tryAccept_waits d ch c c1 E) as [Hb Hsig].
  assert (H1 : all_inv c1) by (apply (all_after (OpAccept d) c); try done; simpl; by rewrite E).
  destruct (steps_slot (accept_blocked d) (IN d) ch c1 c2) as (_ & Hsig2 & Hb2 & _); try done.
  intros c' c''. apply accept_blocked_same.
Qed.

(** C19: a blocked [Read] or [Peek] loses no wake-up. When the try returned a
    channel to wait on, then after any further operations, in any order,
    either that channel is closed, so the call runs again, or another try
    would still wait, on the same channel and with the same deadline: nothing
    it waits for has happened. *)
Theorem read_no_lost_wakeup p n ch dl c1 c2 :
  holds_recv c p -> steps c1 c2 -> ch ∉ c_closed c2 ->
  (tryRead p n c = (TryWait ch dl, c1) -> (tryRead p n c2).1 = TryWait ch dl) /\
  (tryPeek p n c = (TryWait ch dl, c1) -> (tryPeek p n c2).1 = TryWait ch dl).
Proof using Hcfg Hreach Hrange.
  intros Hh Hs Hnc. split; intros E.
  - destruct (read_waits p n ch dl c1 c2 Hh E Hs Hnc) as (Hp & Hsig & Hb & H). apply tryRead_blocked; try done. apply H.
  - destruct (peek_waits p n ch dl c1 c2 Hh E Hs Hnc) as (Hp & Hsig & Hb & H). by apply tryPeek_blocked.
Qed.

(** C20: a blocked [Write] loses no wake-up. When [trySend] returned the two
    channels of the stream's limit and of the connection's, then after any
    further operations one of them is closed, or another [trySend] would
    still wait on both, or the deadline, which its timer watches, has
    passed. *)
Theorem write_no_lost_wakeup now now' p w cw dl c1 c2 :
  holds_send c p -> trySend now p c = (SendWait w cw dl, c1) -> steps c1 c2 ->
  w ∉ c_closed c2 -> cw ∉ c_closed c2 ->
  (trySend now' p c2).1 =
    if negb (dl =? 0) && (dl <=? now') then SendErr ErrDeadlineExceeded else SendWait w cw dl.
Proof using Hcfg Hreach Hrange.
  intros Hh E Hs Hw Hcw. destruct (write_waits now p w cw dl c1 c2 Hh E Hs Hw) as (m & Hp & Hsig & Hb & H & Hx).
  destruct (Hx Hcw) as [Hsig2 Hfull]. apply (trySend_blocked now' p w cw dl m c2); try done. apply H.
Qed.

(** C21: a blocked [OpenStreamSync] and a blocked [AcceptStream] lose no
    wake-up, for streams of either kind. *)
Theorem open_accept_no_lost_wakeup d ch c1 c2 :
  steps c1 c2 -> ch ∉ c_closed c2 ->
  (tryOpen d c = (OpenWait ch, c1) -> (tryOpen d c2).1 = OpenWait ch) /\
  (tryAccept d c = (OpenWait ch, c1) -> (tryAccept d c2).1 = OpenWait ch).
Proof using Hcfg Hreach Hrange.
  intros Hs Hnc. split; intros E.
  - destruct (open_waits d ch c1 c2 E Hs Hnc). by apply tryOpen_blocked.
  - destruct (accept_waits d ch c1 c2 E Hs Hnc). by apply tryAccept_blocked.
Qed.

(** C22: closing a connection unblocks every call. A [Read], [Peek], [Write],
    [OpenStreamSync] or [AcceptStream] that was waiting when the connection
    ended, however long before and whatever happened in between, finds its
    channel closed, and its next try returns the error that the connection
    ended with. *)
Theorem close_unblocks c1 c2 err :
  steps c1 c2 -> c_closeErr c2 = Some err ->
  (forall p n ch dl, holds_recv c p -> tryRead p n c = (TryWait ch dl, c1) ->
    ch ∈ c_closed c2 /\ tryRead p n c2 = (TryDone [] (Some err), c2)) /\
  (forall p n ch dl, holds_recv c p -> tryPeek p n c = (TryWait ch dl, c1) ->
    ch ∈ c_closed c2 /\ tryPeek p n c2 = (TryDone [] (Some err), c2)) /\
  (forall now p w cw dl, holds_send c p -> trySend now p c = (SendWait w cw dl, c1) ->
    w ∈ c_closed c2 /\ forall now', trySend now' p c2 = (SendErr err, c2)) /\
  (forall d ch, tryOpen d c = (OpenWait ch, c1) -> ch ∈ c_closed c2 /\ tryOpen d c2 = (OpenErr err, c2)) /\
  (forall d ch, tryAccept d c = (OpenWait ch, c1) -> ch ∈ c_closed c2 /\ tryAccept d c2 = (OpenErr err, c2)).
Proof using Hcfg Hreach Hrange.
  intros Hs Hc. destruct (closed_refuses err c2 Hc) as (R1 & R2 & R3 & _). split_and!.
  - intros p n ch dl Hh E. split; [|apply R1]. destruct (decide (ch ∈ c_closed c2)) as [|Hn]; [done|].
    destruct (read_waits p n ch dl c1 c2 Hh E Hs Hn) as (_ & _ & [Hb _] & _). congruence.
  - intros p n ch dl Hh E. split; [|apply R1]. destruct (decide (ch ∈ c_closed c2)) as [|Hn]; [done|].
    destruct (peek_waits p n ch dl c1 c2 Hh E Hs Hn) as (_ & _ & [Hb _] & _). congruence.
  - intros now p w cw dl Hh E. split; [|intros now'; by destruct (R2 p now' 0)].
    destruct (decide (w ∈ c_closed c2)) as [|Hn]; [done|].
    destruct (write_waits now p w cw dl c1 c2 Hh E Hs Hn) as (m & _ & _ & [Hb _] & _). congruence.
  - intros d ch E. split; [|apply R3]. destruct (decide (ch ∈ c_closed c2)) as [|Hn]; [done|].
    destruct (open_waits d ch c1 c2 E Hs Hn) as (_ & [Hb _]). congruence.
  - intros d ch E. split; [|apply R3]. destruct (decide (ch ∈ c_closed c2)) as [|Hn]; [done|].
    destruct (accept_waits d ch c1 c2 E Hs Hn) as (_ & [Hb _]). congruence.
Qed.
End wakeups.

(** * The life of streams and of the connection *)

Section reachable.
Context {GA : GoAppend} (cfg : Config) (isServer : bool) (c : Conn).
Hypothesis (Hcfg : config_ok cfg) (Hreach : reach cfg isServer c).

(** C27: no operation panics: the handshake channel is closed once, when the
    peer's parameters arrive or the connection ends, and only streams that
    can send have a context to cancel. The context of the connection is
    cancelled when the connection ends, with the error it ended with. *)
Theorem no_panic :
  c_panicked c = false /\
  (forall o, in_range c -> valid o c -> c_panicked (exec o c) = false) /\
  c_handshake c = c_ready c || bool_decide (c_closeErr c <> None) /\
  c_cause c = c_closeErr c.
Proof using Hcfg Hreach.
  pose proof (reach_life _ _ _ Hcfg Hreach) as H. split_and!; try apply H.
  intros o Hr Hv. apply (reach_life cfg isServer _ Hcfg). by apply reach_step.
Qed.

(** C28: a stream is done exactly when the application holds it and both of
    its directions have ended: the receiving one when it was reset, or when
    all its data was read or given up after its FIN; the sending one when its
    FIN was sent or it was reset, which exclude each other (a direction that the
    stream does not have has ended). Its context is
    cancelled exactly when its sending direction has ended, or with the
    connection. *)
Theorem stream_done_exact p :
  ptr c p ->
  let s := deref c p in
  (s_done s = true <-> s_accepted s = true /\ recvDone s = true /\ sendDone s = true) /\
  (recvDone s = true <-> s_canRecv s = false \/ s_recvReset s = true \/
    s_finRecv s = true /\ (s_readCancelled s = true \/ unread s = [])) /\
  (sendDone s = true <-> s_canSend s = false \/ s_finSent s = true \/ s_sendErr s <> None) /\
  ~ (s_finSent s = true /\ s_sendErr s <> None) /\
  (stream_cause c s <> None <-> s_finSent s = true \/ s_sendErr s <> None \/ c_closeErr c <> None).
Proof using Hcfg Hreach.
  intros Hp s. pose proof (reach_life _ _ _ Hcfg Hreach) as H. destruct (lf_stream _ H p Hp) as [L1 L2 L3 L4].
  pose proof (so_roff _ _ (fl_stream _ (reach_flow _ _ _ Hcfg Hreach) p Hp)) as Hr. unfold s. clear s.
  set (s := deref c p) in *. split_and!.
  - rewrite L1, !andb_true_iff. tauto.
  - assert (Hu : (s_roff s =? length (s_rbuf s))%nat = true <-> unread s = []).
    { rewrite Nat.eqb_eq. unfold unread. rewrite <- length_zero_iff_nil, length_drop. lia. }
    unfold recvDone. destruct (s_canRecv s), (s_recvReset s); simpl; try (split; [by auto|done]).
    rewrite andb_true_iff, orb_true_iff, Hu. split; [by auto|]. by intros [|[|]].
  - unfold sendDone. rewrite !orb_true_iff, negb_true_iff, bool_decide_eq_true. tauto.
  - intros [Hf He]. by rewrite L2 in He.
  - unfold stream_cause. rewrite (lf_cause _ H). destruct (s_cause s) eqn:Ec.
    + split; [|done]. intros _. destruct L3 as [L3 _]. destruct L3; auto.
    + split; [by auto|]. intros [Hf|[He|Hc]]; [| |done]; destruct L3 as [_ L3]; exfalso; apply L3; auto.
Qed.

(** The first error ends the connection, for good. [terminate] on an open
    connection records its error, cancels the context with it, drops the
    streams, and closes every channel that a call is waiting on, so that all
    of them return. From then on, whatever happens, every call fails at once
    with that error and changes nothing; a second [terminate] does nothing
    either. *)
Theorem terminate_ends e :
  c_closeErr c = None ->
  exists c', terminate e c = (true, c') /\
    c_closeErr c' = Some e /\ c_cause c' = Some e /\ c_streams c' = ∅ /\ c_handshake c' = true /\
    (forall x ch, slot_ok x c -> live x c -> sig_of x c = Some ch -> ch ∈ c_closed c') /\
    (forall c2, steps c' c2 -> c_closeErr c2 = Some e /\ refuses e c2).
Proof using Hcfg Hreach.
  intros Hc. pose proof (reach_ids _ _ _ Hcfg Hreach) as Hi.
  pose proof (life_terminate e c (reach_life _ _ _ Hcfg Hreach)) as Hl.
  pose proof (terminate_view e c Hc) as Ev. pose proof (fun x ch => terminate_closes e c x ch Hi Hc) as Hw.
  assert (Eb : (terminate e c).1 = true) by (unfold terminate; by rewrite Hc).
  destruct (terminate e c) as [b c'] eqn:E. simpl in *. subst b. exists c'.
  assert (Hc' : c_closeErr c' = Some e /\ c_streams c' = ∅).
  { unfold iv in Ev. simpl in Ev. by injection Ev as E1 E2 E3 E4 E5. }
  destruct Hc' as [Hc1 Hs]. split_and!; try done.
  - by rewrite (lf_cause _ Hl).
  - rewrite (lf_handshake _ Hl), Hc1. apply orb_true_r.
  - intros c2 H2. pose proof (steps_closed_err _ _ _ H2 Hc1) as Hc2. split; [done|].
    by apply closed_refuses.
Qed.
End reachable.
