(* ===== verification/History.v ===== *)
(** What happens to the data of one stream over the whole life of a connection.

    [step_data] says what one operation does to a stream: what it buffers, what
    it hands to the application, and what it sends. Everything else leaves the
    data of the stream alone ([quiet]). *)

From S2P Require Import Prelude Varint Params Frame WriteLock Config State Core Stream Conn System Facts Ids Table Flow Life Control Wake.

(** * Operations that leave the data of a stream alone *)

(** The receiving and the sending part of the data of a stream. *)
Definition rdata (s : stream) := (unread s, s_recvErr s, s_readOffset s).
Definition wdata (s : stream) := (s_sendOffset s, s_finSent s, s_sendErr s).
Definition data_of (s : stream) := (rdata s, wdata s).

(** A view of the stream [p] is the same in [c] and [c']. *)
Definition keepv {T} (v : stream -> T) (p : nat) (c c' : Conn) : Prop := v (deref c' p) = v (deref c p).

Abbreviation quiet := (keepv data_of).

Lemma only_other p q c c' : only q c c' -> p <> q -> deref c' p = deref c p.
Proof. intros H Hne. unfold deref at 1. rewrite H. by rewrite insert_lookup_total_ne. Qed.

Lemma deref_out c p : ~ ptr c p -> deref c p = zeroStream.
Proof. intros H. unfold deref. by rewrite list_lookup_total_alt, lookup_ge_None_2 by lia. Qed.

Section view.
Context {T : Type} (v : stream -> T).

Lemma keepv_refl p c : keepv v p c c.
Proof. done. Qed.

Lemma keepv_trans p c1 c2 c3 : keepv v p c1 c2 -> keepv v p c2 c3 -> keepv v p c1 c3.
Proof. unfold keepv. congruence. Qed.

Lemma keepv_heap p c c' : c_heap c' = c_heap c -> keepv v p c c'.
Proof. intros E. unfold keepv. by rewrite (deref_heap c c' p E). Qed.

Lemma keepv_other p q c c' : only q c c' -> p <> q -> keepv v p c c'.
Proof. intros H Hne. unfold keepv. by rewrite (only_other p q c c'). Qed.

Lemma keepv_upd p q f c : v (f (deref c q)) = v (deref c q) -> keepv v p c (upd q f c).
Proof.
  intros H. unfold keepv. destruct (decide (p = q)) as [->|Hne].
  - destruct (decide (ptr c q)) as [Hq|Hq]; [by rewrite deref_upd|].
    rewrite !deref_out; [done|done|]. unfold upd. simpl. by rewrite length_insert.
  - by rewrite (only_other p q _ _ (only_upd q f c)).
Qed.

Lemma keepv_broadcast_read p q c :
  (forall s, v (set_s_readSignal None s) = v s) -> keepv v p c (broadcast_read q c).
Proof.
  intros H. unfold broadcast_read. set (c1 := signal_close _ c).
  eapply keepv_trans; [by apply (keepv_heap p c c1)|]. by apply keepv_upd.
Qed.

Lemma keepv_broadcast_write p q c :
  (forall s, v (set_s_writeSignal None s) = v s) -> keepv v p c (broadcast_write q c).
Proof.
  intros H. unfold broadcast_write. set (c1 := signal_close _ c).
  eapply keepv_trans; [by apply (keepv_heap p c c1)|]. by apply keepv_upd.
Qed.

Lemma keepv_cancel p q cause c :
  (forall e s, v (set_s_cause e s) = v s) -> keepv v p c (stream_cancel q cause c).
Proof.
  intros H. rewrite stream_cancel_eq. cbv zeta. set (s := set_s_cause _ _).
  eapply keepv_trans; [apply (keepv_upd p q (fun _ => s)); apply H|]. by apply keepv_heap.
Qed.

Lemma keepv_complete p q c :
  (forall s, v (completed s) = v s) -> ptr c q -> keepv v p c (completeLocked q c).
Proof.
  intros H Hq. destruct (decide (p = q)) as [->|Hne]; [|by apply (keepv_other p q); [apply only_complete|]].
  unfold keepv. rewrite deref_complete by done. by destruct (completing (deref c q)).
Qed.
End view.

(** A stream that completes has nothing left to read. *)
Lemma quiet_complete p q c : flow_inv c -> ptr c q -> quiet p c (completeLocked q c).
Proof.
  intros H Hq. destruct (decide (p = q)) as [->|Hne]; [|by apply (keepv_other data_of p q); [apply only_complete|]].
  unfold keepv. rewrite deref_complete by done. destruct (completing (deref c q)) eqn:Ec; [|done].
  apply completing_true in Ec as (_ & _ & Hr & _).
  destruct (recvDone_empty _ _ (fl_stream _ H q Hq) Hr) as [Eb _].
  unfold data_of, rdata, unread, completed. simpl. by rewrite Eb, !drop_nil.
Qed.

(** New streams start with the view of the zero value. *)
Section fresh.
Context {T : Type} (v : stream -> T) (Hnew : forall id c, v (new_stream id c) = v zeroStream).

Lemma keepv_new p c c' id :
  c_heap c' = c_heap c ++ [new_stream id c] -> keepv v p c c'.
Proof using Hnew.
  intros Eh. unfold keepv. destruct (decide (ptr c p)) as [Hp|Hp].
  - unfold deref. by rewrite Eh, lookup_total_app_l.
  - rewrite (deref_out c p Hp). destruct (decide (p = length (c_heap c))) as [->|Hne].
    + unfold deref. by rewrite Eh, list_lookup_total_middle.
    + rewrite deref_out; [done|]. rewrite Eh, length_app. simpl. lia.
Qed.

Lemma keepv_streamLocked p id recv c : keepv v p c (streamLocked id recv c).2.
Proof using Hnew.
  unfold streamLocked. destruct (_ && _); [done|].
  destruct (initiatedLocally c id); destruct (_ <=? _); try done. cbn [snd].
  apply (open_loop_ind (keepv v p c)); [|done].
  intros c' K _. eapply keepv_trans; [exact K|].
  destruct (open_incoming_fields (streamDir id) c') as (_ & _ & _ & _ & Eh & _). by eapply keepv_new.
Qed.
End fresh.

Lemma new_stream_data id c : data_of (new_stream id c) = data_of zeroStream.
Proof. unfold new_stream. cbv zeta. by repeat case_match. Qed.

Lemma new_stream_done id c : s_done (new_stream id c) = s_done zeroStream.
Proof. unfold new_stream. cbv zeta. by repeat case_match. Qed.

Lemma quiet_open p d c : quiet p c (tryOpen d c).2.
Proof.
  unfold tryOpen. destruct (c_closeErr c); [done|]. destruct (_ <=? _).
  - simpl. apply (keepv_heap data_of). by destruct d.
  - simpl.
    match goal with |- quiet p c (set_c_out d ?o ?c2) => set (c2' := c2) end.
    eapply keepv_trans; [|by apply (keepv_heap data_of p c2'); destruct d].
    subst c2'. eapply keepv_trans; [|by apply keepv_upd].
    by eapply (keepv_new data_of new_stream_data).
Qed.

Lemma quiet_accept p d c : ids_inv c -> flow_inv c -> quiet p c (tryAccept d c).2.
Proof.
  intros Hi H. unfold tryAccept. destruct (c_closeErr c); [done|]. destruct (i_queue (c_in d c)) as [|q qs] eqn:Eq.
  - simpl. apply (keepv_heap data_of). by destruct d.
  - cbn [snd]. assert (Hq : ptr c q) by (apply (id_queue _ Hi d q); rewrite Eq; by left).
    set (i := mkIncoming _ _ _ _ _). set (c1 := upd q _ _).
    assert (E1 : fv c1 = fv c). { unfold c1. rewrite fv_upd by done. by destruct d. }
    assert (Q1 : quiet p c c1).
    { unfold c1. eapply keepv_trans; [|by apply keepv_upd]. apply (keepv_heap data_of). by destruct d. }
    assert (Hq1 : ptr c1 q) by (by rewrite (fv_length _ _ E1)). forget c1.
    eapply keepv_trans; [exact Q1|]. apply quiet_complete; [by eapply flow_same|done].
Qed.

Lemma quiet_terminate p e c : quiet p c (terminate e c).2.
Proof.
  unfold terminate. destruct (c_closeErr c); [done|]. cbn [snd].
  set (c1 := if negb _ then _ else _).
  assert (E1 : c_heap c1 = c_heap c).
  { subst c1. rewrite conn_cancel_eq. destruct (negb _); [|done]. by rewrite close_handshake_eq. }
  set (c2 := broadcast_in _ _). assert (E2 : c_heap c2 = c_heap c) by (by rewrite <- E1).
  forget c2. set (ps := snd <$> _). forget ps.
  eapply keepv_trans; [by apply (keepv_heap data_of)|]. 
  eapply keepv_trans; [|by apply (keepv_heap data_of p (wake_streams ps c2))]. clear E2 E1.
  unfold wake_streams. revert c2. induction ps as [|q ps IH]; intros c2; [done|]. simpl.
  eapply keepv_trans; [|apply IH]. eapply keepv_trans; [by apply keepv_broadcast_read|by apply keepv_broadcast_write].
Qed.

(** * What an operation does to the data of a stream *)

Definition ended (s : stream) : bool := s_finSent s || bool_decide (s_sendErr s <> None).

(** [del] is added to what the stream has received, [ret] is taken out of it
    for the application, and [ch] are the ranges of offsets that it sends. *)
Record moved (p : nat) (del ret : bytes) (ch : list (Z * Z)) (c c' : Conn) : Prop := {
  mv_recv : s_recvErr (deref c' p) = None ->
    s_recvErr (deref c p) = None /\ unread (deref c p) ++ del = ret ++ unread (deref c' p);
  mv_read : s_readOffset (deref c' p) = s_readOffset (deref c p) + zlen ret;
  mv_sent : match ch with
    | [] => s_sendOffset (deref c' p) = s_sendOffset (deref c p)
    | [(off, k)] => off = s_sendOffset (deref c p) /\ 0 <= k /\ s_sendOffset (deref c' p) = off + k
    | _ => False
    end;
  mv_end : ended (deref c p) = true -> ended (deref c' p) = true /\ ch = [];
  mv_ret : ret = [] \/ s_recvErr (deref c' p) = None;
}.

Lemma data_fields s s' :
  data_of s' = data_of s ->
  unread s' = unread s /\ s_recvErr s' = s_recvErr s /\ s_readOffset s' = s_readOffset s /\
  s_sendOffset s' = s_sendOffset s /\ ended s' = ended s.
Proof. unfold data_of, rdata, wdata, ended. intros E. by injection E as -> -> -> -> -> ->. Qed.

Lemma moved_quiet p c c' : quiet p c c' -> moved p [] [] [] c c'.
Proof.
  intros Q. apply data_fields in Q as (Q1 & Q2 & Q3 & Q4 & Q5). split; rewrite ?Q1, ?Q2, ?Q3, ?Q4, ?Q5; try done.
  - by rewrite app_nil_r.
  - simpl. lia.
  - by left.
Qed.

Lemma quiet_moved p del ret ch c c1 c2 : quiet p c c1 -> moved p del ret ch c1 c2 -> moved p del ret ch c c2.
Proof.
  intros Q [M1 M2 M3 M4 M5]. apply data_fields in Q as (Q1 & Q2 & Q3 & Q4 & Q5).
  rewrite Q1, Q2 in M1. rewrite Q3 in M2. rewrite Q4 in M3. rewrite Q5 in M4. by split.
Qed.

Lemma moved_then p del ret ch c c1 c2 : moved p del ret ch c c1 -> quiet p c1 c2 -> moved p del ret ch c c2.
Proof.
  intros [M1 M2 M3 M4 M5] Q. apply data_fields in Q as (Q1 & Q2 & Q3 & Q4 & Q5).
  rewrite <- Q1, <- Q2 in M1. rewrite <- Q2 in M5. rewrite <- Q3 in M2. rewrite <- Q4 in M3. rewrite <- Q5 in M4. by split.
Qed.

(** A change of the stream itself. *)
Lemma moved_change p del ret ch c c1 :
  (let s := deref c p in let s1 := deref c1 p in
   (s_recvErr s1 = None -> s_recvErr s = None /\ unread s ++ del = ret ++ unread s1) /\
   s_readOffset s1 = s_readOffset s + zlen ret /\ wdata s1 = wdata s /\ ch = [] /\
   (ret = [] \/ s_recvErr s1 = None)) ->
  moved p del ret ch c c1.
Proof.
  intros (H1 & H2 & H3 & -> & H4). unfold wdata in H3. injection H3 as W1 W2 W3.
  split; [done|done|done| |done]. unfold ended. by rewrite W2, W3.
Qed.

Lemma take_rest {A} n (l : list A) : l = take n l ++ drop (length (take n l)) l.
Proof. revert n. induction l as [|x l IH]; intros [|n]; try done. simpl. by rewrite <- IH. Qed.

Section operations.
Context {GA : GoAppend}.

(** [Read] *)
Lemma moved_read p q n c :
  flow_inv c -> ranges c -> ptr c q -> s_canRecv (deref c q) = true ->
  moved p [] (if bool_decide (q = p) then match (tryRead q n c).1 with TryDone d _ => d | _ => [] end else [])
    [] c (tryRead q n c).2.
Proof.
  intros H Hr Hq Hc. unfold tryRead.
  destruct (c_closeErr c); [simpl; destruct (bool_decide _); by apply moved_quiet|].
  destruct (s_recvErr (deref c q)) eqn:He; [simpl; destruct (bool_decide _); by apply moved_quiet|].
  destruct (_ <? _)%nat eqn:Eb.
  - cbn [fst snd]. set (d := take n (unread (deref c q))).
    assert (Hd : (length d <= length (unread (deref c q)))%nat) by (subst d; rewrite length_take; lia).
    pose proof (flow_read (length d) q c H Hr Hq He Hc Hd) as H1.
    destruct (readLocked_fields q (zlen d) (upd q (took (length d)) c)) as [Eh _]; [by apply ptr_upd|].
    rewrite deref_upd, heap_upd, list_insert_insert_eq in Eh by done.
    set (c1 := readLocked _ _ _) in *. assert (Hq1 : ptr c1 q) by (by rewrite Eh, length_insert).
    destruct (bool_decide (q = p)) eqn:Ep.
    + apply bool_decide_eq_true in Ep as ->. eapply moved_then; [|by apply quiet_complete].
      assert (Ed : deref c1 p = after_read (stream_window c) (zlen d) (took (length d) (deref c p))).
      { unfold deref at 1. rewrite Eh. by apply insert_lookup_total_eq. }
      apply moved_change. cbv zeta. rewrite Ed.
      destruct (took_fields (length d) (deref c p)) as (_ & _ & T3 & _ & T5 & _).
      pose proof (took_unread (length d) (deref c p) Hd) as Tu.
      pose proof (fl_stream _ H p Hq) as [A1 A2 A3 A4 A5 A6 A7 An A8 A9 A10 A11].
      pose proof (stream_received c H p Hq). pose proof (rg_windows _ Hr).
      pose proof (rg_stream _ Hr). pose proof (rg_conn _ Hr).
      split_and!; [| | |done|].
      * intros _. split; [done|]. rewrite app_nil_r. unfold after_read, unread. cbv zeta. simpl.
        change (unread (deref c p) = d ++ unread (took (length d) (deref c p))).
        rewrite Tu. apply take_rest.
      * unfold after_read. cbv zeta. simpl. rewrite T3, u64_id; [done|unfold is_u64; lia].
      * unfold after_read, took. cbv zeta. by destruct (_ =? _)%nat.
      * right. unfold after_read. cbv zeta. simpl. by rewrite T5.
    + apply bool_decide_eq_false in Ep. apply moved_quiet. apply (keepv_other _ p q); [|done].
      eapply only_trans; [by eapply only_insert|apply only_complete].
  - destruct (s_finRecv (deref c q)); simpl.
    + destruct (bool_decide _); by apply moved_quiet.
    + set (ch := default _ _). set (k := match _ with Some _ => _ | None => _ end).
      replace (if bool_decide (q = p) then [] else []) with (@nil byte) by (by destruct (bool_decide _)).
      apply moved_quiet. eapply keepv_trans; [by apply (keepv_heap data_of p c (set_c_chans k c))|].
      by apply keepv_upd.
Qed.

Lemma quiet_peek p q n c : quiet p c (tryPeek q n c).2.
Proof.
  unfold tryPeek. destruct (c_closeErr c); [done|]. destruct (s_recvErr (deref c q)); [done|].
  destruct (_ <=? _)%nat; [done|]. destruct (s_finRecv (deref c q)); [done|]. simpl.
  set (k := match _ with Some _ => _ | None => _ end).
  eapply keepv_trans; [by apply (keepv_heap data_of p c (set_c_chans k c))|]. by apply keepv_upd.
Qed.

Lemma quiet_trySend p now q c : quiet p c (trySend now q c).2.
Proof.
  unfold trySend. destruct (sendErrLocked q c); [done|]. case_match; [done|]. destruct (0 <? _); [done|]. simpl.
  set (c2 := upd q _ _).
  assert (Q : quiet p c c2).
  { subst c2. set (n := match _ with Some _ => _ | None => _ end).
    eapply keepv_trans; [by apply (keepv_heap data_of p c (set_c_chans n c))|]. by apply keepv_upd. }
  eapply keepv_trans; [exact Q|]. by apply (keepv_heap data_of p c2).
Qed.

(** The part of the data that survives the end of the receiving side. *)
Definition tail_of (s : stream) := (s_recvErr s, s_readOffset s, wdata s).

(** The receiving side of a stream ends with an error. *)
Lemma moved_recv_end p c c1 c2 :
  tail_of (deref c1 p) = tail_of (deref c2 p) -> s_recvErr (deref c1 p) <> None ->
  s_readOffset (deref c1 p) = s_readOffset (deref c p) -> wdata (deref c1 p) = wdata (deref c p) ->
  moved p [] [] [] c c2.
Proof.
  unfold tail_of. intros E He Hr Hw.
  assert (E1 : s_recvErr (deref c1 p) = s_recvErr (deref c2 p)) by congruence.
  assert (E2 : s_readOffset (deref c1 p) = s_readOffset (deref c2 p)) by congruence.
  apply moved_change. cbv zeta. split; [intros; exfalso; congruence|].
  split; [simpl; lia|]. split; [|by split; [|left]]. rewrite <- Hw. congruence.
Qed.

(** [CancelRead] *)
Lemma moved_cancelRead p q code c :
  flow_inv c -> ptr c q -> moved p [] [] [] c (cancelRead q code c).
Proof.
  intros H Hq. unfold cancelRead. case_match; [by apply moved_quiet|].
  set (f := fun s => set_s_readCancelled true _). set (s := deref c q).
  set (c1 := upd q f c). set (c1' := consumeLocked _ c1). set (c2 := upd q clear_rbuf c1').
  assert (Hq2 : ptr c2 q) by (subst c2 c1; simpl; by rewrite !length_insert).
  assert (O2 : only q c c2).
  { eapply only_trans; [apply (only_upd q f c)|]. eapply only_trans; [by apply (only_heap_eq q c1 c1')|apply only_upd]. }
  assert (T2 : keepv tail_of p c1 c2).
  { eapply keepv_trans; [by apply (keepv_heap _ p c1 c1')|]. by apply keepv_upd. }
  assert (D1 : deref c1 q = f s) by (by apply deref_upd).
  set (c3 := if negb (s_finRecv s) then _ else _).
  assert (Hc3 : c_heap c3 = c_heap c2) by (subst c3; by destruct (negb _)).
  forget c3. assert (Hq3 : ptr (broadcast_read q c3) q) by (apply ptr_broadcast_read; by rewrite Hc3).
  destruct (decide (p = q)) as [->|Hne].
  - eapply (moved_recv_end q c c1); [|by rewrite D1..].
    symmetry. assert (K : keepv tail_of q c1 (completeLocked q (broadcast_read q c3))); [|exact K].
    eapply keepv_trans; [exact T2|]. eapply keepv_trans; [by apply (keepv_heap _ q c2 c3)|].
    eapply keepv_trans; [by apply keepv_broadcast_read|]. by apply keepv_complete.
  - apply moved_quiet. eapply keepv_trans; [by apply (keepv_other _ p q c c2)|].
    eapply keepv_trans; [by apply (keepv_heap _ p c2 c3)|].
    eapply keepv_trans; [by apply keepv_broadcast_read|].
    apply (keepv_other _ p q); [apply only_complete|done].
Qed.

(** A STREAM frame *)
Lemma moved_stream_frame p id off data fin q c :
  flow_inv c -> ranges c -> ptr c q -> is_varint (zlen data) ->
  moved p (if bool_decide (q = p) then match (stream_frame id off data fin q c).1 with None => data | Some _ => [] end else [])
    [] [] c (stream_frame id off data fin q c).2.
Proof.
  intros H Hr Hq Hd.
  destruct (stream_frame_inv id off data fin q c H Hr Hq Hd)
    as [(e & -> & _)|[(-> & _ & -> & _)|(c1 & -> & Ho & Hf & Hrs & _ & _ & H1 & Eh & _)]];
    [simpl; destruct (bool_decide _); by apply moved_quiet..|]. cbn [fst snd].
  assert (Hq1 : ptr (broadcast_read q c1) q) by (apply ptr_broadcast_read; by rewrite Eh, length_insert).
  assert (H2 : flow_inv (broadcast_read q c1)) by (eapply flow_same; [by apply fv_broadcast_read|done]).
  eapply moved_then; [|by apply quiet_complete]. eapply moved_then; [|by apply keepv_broadcast_read].
  destruct (bool_decide (q = p)) eqn:Ep.
  - apply bool_decide_eq_true in Ep as ->.
    assert (Ed : deref c1 p = fed data fin (deref c p)) by (unfold deref at 1; rewrite Eh; by apply insert_lookup_total_eq).
    apply moved_change. cbv zeta. rewrite Ed. unfold fed. set (s1 := set_s_finRecv fin _).
    pose proof (fl_stream _ H p Hq) as Hs. destruct (buffer_fields data s1) as (_ & _ & B3 & _ & B5 & _).
    destruct (s_readCancelled (deref c p)) eqn:Ec.
    + assert (He : s_recvErr (deref c p) <> None) by (apply (so_err _ _ Hs); by left).
      split_and!; try done; [simpl; lia|by left].
    + rewrite B3, B5. split_and!; try done.
      * intros He. split; [done|]. by rewrite buffer_unread by apply (roff_le _ _ Hs).
      * simpl. lia.
      * unfold bufferLocked, append_rbuf. cbv zeta. by repeat case_match.
      * by left.
  - apply bool_decide_eq_false in Ep. apply moved_quiet. apply (keepv_other _ p q); [|done]. by eapply only_insert.
Qed.

Lemma after_reset_tail code fs s :
  let s' := after_reset code fs s in
  s_recvErr s' <> None /\ s_readOffset s' = s_readOffset s /\ wdata s' = wdata s.
Proof. unfold after_reset. simpl. destruct (s_recvErr s) eqn:E; simpl; by rewrite ?E. Qed.

(** A RESET_STREAM frame *)
Lemma moved_reset_frame p id code fs q c :
  ptr c q -> moved p [] [] [] c (reset_frame id code fs q c).2.
Proof.
  intros Hq. unfold reset_frame. case_match; [by apply moved_quiet|].
  destruct (s_recvReset (deref c q)); [by apply moved_quiet|].
  destruct (s_recvMax (deref c q) <? fs); [by apply moved_quiet|].
  destruct (receivedLocked _ _) as [c0|] eqn:E0; [|by apply moved_quiet]. cbn [snd].
  assert (Eh : c_heap c0 = c_heap c).
  { unfold receivedLocked in E0. destruct (c_recvMax c <? _); [done|]. by injection E0 as <-. }
  set (c1 := consumeLocked _ c0). assert (Eh1 : c_heap c1 = c_heap c) by exact Eh.
  assert (Hq1 : ptr c1 q) by (by rewrite Eh1). forget c1.
  set (c2 := upd q (after_reset code fs) c1).
  assert (Hq2 : ptr (broadcast_read q c2) q) by (by apply ptr_broadcast_read, ptr_upd).
  destruct (decide (p = q)) as [->|Hne].
  - assert (D2 : deref c2 q = after_reset code fs (deref c q)).
    { subst c2. rewrite deref_upd by done. by rewrite (deref_heap c c1). }
    eapply (moved_recv_end q c c2); [symmetry|rewrite D2; apply after_reset_tail..].
    assert (K : keepv tail_of q c2 (completeLocked q (broadcast_read q c2))); [|exact K].
    eapply keepv_trans; [by apply keepv_broadcast_read|]. by apply keepv_complete.
  - apply moved_quiet. eapply keepv_trans; [by apply (keepv_heap data_of p c c1)|].
    eapply keepv_trans; [apply (keepv_other _ p q c1 c2); [apply only_upd|done]|].
    eapply keepv_trans; [by apply keepv_broadcast_read|].
    apply (keepv_other _ p q); [apply only_complete|done].
Qed.

(** [reserve] *)
Lemma moved_reserve p q n c :
  flow_inv c -> ptr c q -> 0 <= n ->
  moved p [] [] (if bool_decide (q = p) then match (reserve q n c).1 with inl ch => [ch] | inr _ => [] end else [])
    c (reserve q n c).2.
Proof.
  intros H Hq Hn. unfold reserve.
  destruct (sendErrLocked q c) eqn:Es; [simpl; destruct (bool_decide _); by apply moved_quiet|]. cbn [fst snd].
  pose proof (sendCredit_range q c H Hq). pose proof (so_sendMax _ _ (fl_stream _ H q Hq)).
  pose proof (so_send _ _ (fl_stream _ H q Hq)). assert (0 < maxStreamData) by done.
  set (k := Z.min _ _). assert (Hk : 0 <= k <= sendCreditLocked q c) by lia. clearbody k.
  rewrite (u64_id (s_sendOffset _ + k)) by (unfold is_u64; lia).
  set (c1 := upd q _ c). eapply moved_then; [|by apply (keepv_heap data_of p c1)].
  destruct (bool_decide (q = p)) eqn:Ep.
  - apply bool_decide_eq_true in Ep as ->.
    assert (Ed : deref c1 p = set_s_sendOffset (s_sendOffset (deref c p) + k) (deref c p)) by (by apply deref_upd).
    split; rewrite Ed.
    + intros He. split; [done|]. by rewrite app_nil_r.
    + simpl. lia.
    + simpl. lia.
    + unfold ended. intros E. exfalso. unfold sendErrLocked in Es.
      destruct (c_closeErr c); [done|]. destruct (s_sendErr (deref c p)); [done|]. destruct (s_finSent (deref c p)); done.
    + by left.
  - apply bool_decide_eq_false in Ep. apply moved_quiet. apply (keepv_other _ p q); [apply only_upd|done].
Qed.

(** The sending side ends: only that is changed. *)
Lemma moved_send_end p q f c c1 c2 :
  flow_inv c -> ptr c q -> c1 = upd q f c ->
  (forall s, rdata (f s) = rdata s /\ s_sendOffset (f s) = s_sendOffset s) -> ended (f (deref c q)) = true ->
  fv c2 = fv c -> quiet p c1 c2 -> moved p [] [] [] c (completeLocked q c2).
Proof.
  intros H Hq -> Hf He Ev Q. assert (Hq2 : ptr c2 q) by (by rewrite (fv_length _ _ Ev)).
  eapply moved_then; [|apply quiet_complete; [by eapply flow_same|done]]. eapply moved_then; [|exact Q].
  destruct (decide (p = q)) as [->|Hne].
  - rewrite <- (deref_upd c q f Hq) in He. destruct (Hf (deref c q)) as [F1 F2]. unfold rdata in F1. injection F1 as R1 R2 R3.
    split; rewrite ?(deref_upd c q f Hq), ?R1, ?R2, ?R3; try done.
    + by rewrite app_nil_r.
    + simpl. lia.
    + by rewrite (deref_upd c q f Hq) in He.
    + by left.
  - apply moved_quiet. apply (keepv_other _ p q); [apply only_upd|done].
Qed.

Lemma moved_finish p q c : flow_inv c -> ptr c q -> moved p [] [] [] c (finish q c).2.
Proof.
  intros H Hq. unfold finish. destruct (c_closeErr c); [by apply moved_quiet|].
  destruct (_ || _) eqn:Es; [by apply moved_quiet|]. cbn [snd].
  apply (moved_send_end p q (set_s_finSent true) c (upd q (set_s_finSent true) c)); try done.
  - autorewrite with fv. by rewrite fv_upd.
  - eapply keepv_trans; [by apply keepv_cancel|by apply keepv_broadcast_write].
Qed.

Lemma moved_resetSend p q code r c : flow_inv c -> ptr c q -> moved p [] [] [] c (resetSendLocked q code r c).
Proof.
  intros H Hq. unfold resetSendLocked. destruct (sendDone _); [by apply moved_quiet|].
  set (f := set_s_sendErr _). set (c2 := stream_cancel _ _ _).
  apply (moved_send_end p q f c (upd q f c)); try done.
  - unfold ended. simpl. apply orb_true_r.
  - subst c2. autorewrite with fv. by rewrite fv_upd.
  - eapply keepv_trans; [by apply keepv_cancel|]. fold c2.
    eapply keepv_trans; [|by apply keepv_broadcast_write]. by apply (keepv_heap data_of p c2).
Qed.
End operations.

(** * The history of a stream *)

Lemma id_inj c p q : ids_inv c -> ptr c p -> ptr c q -> s_id (deref c p) = s_id (deref c q) -> p = q.
Proof.
  intros H Hp Hq E. apply (NoDup_lookup _ p q (s_id (deref c p)) (id_nodup _ H)).
  - by rewrite list_lookup_fmap, heap_lookup.
  - by rewrite list_lookup_fmap, heap_lookup, E.
Qed.

Lemma ends_id q c c' : ends q c c' -> ptr c q ->
  length (c_heap c') = length (c_heap c) /\ forall p, s_id (deref c' p) = s_id (deref c p).
Proof.
  intros (c1 & E & Hc') Hq. assert (El : length (c_heap c1) = length (c_heap c)) by (by apply iv_length).
  assert (Ei : forall p, s_id (deref c1 p) = s_id (deref c p)).
  { intros p. unfold iv in E. destruct (iview_heap c c1) as [_ Hv]; [congruence|]. specialize (Hv p).
    unfold iview in Hv. congruence. }
  destruct Hc' as [-> | ->]; [done|]. split; [by rewrite (only_length q _ _ (only_complete q c1))|].
  intros p. rewrite <- Ei. apply (keepv_complete s_id); [done|lia].
Qed.

Section history.
Context {GA : GoAppend}.

(** The data that an operation adds to the stream [p]: that of an accepted
    STREAM frame with its identifier, unless the stream is done. *)
Definition delivered (p : nat) (o : op) (c : Conn) : bytes :=
  match o with
  | OpFrame now (Stream sid off data fin) =>
      match (handleFrameLocked now (Stream sid off data fin) c).1 with
      | None => if bool_decide (ptr (exec o c) p) && (s_id (deref (exec o c) p) =? sid) && negb (s_done (deref c p))
                then data else []
      | Some _ => []
      end
  | _ => []
  end.

(** The data that an operation hands to the application from the stream. *)
Definition returned (p : nat) (o : op) (c : Conn) : bytes :=
  match o with
  | OpRead q n => if bool_decide (q = p) then match (tryRead q n c).1 with TryDone d _ => d | _ => [] end else []
  | _ => []
  end.

(** The offset and length of what an operation sends on the stream. *)
Definition chunk (p : nat) (o : op) (c : Conn) : list (Z * Z) :=
  match o with
  | OpReserve q n => if bool_decide (q = p) then match (reserve q n c).1 with inl ch => [ch] | inr _ => [] end else []
  | _ => []
  end.

Lemma moved_with_stream p id recv k c :
  (forall q c1, found id recv c1 q -> flow_inv c1 -> ranges c1 -> moved p [] [] [] c1 (k q c1).2) ->
  ids_inv c -> c_closeErr c = None -> c_ready c = true -> small_limits c ->
  flow_inv c -> ranges c -> moved p [] [] [] c (with_stream id recv k c).2.
Proof.
  intros Hk Hi Hc Hr Hs H Hg. unfold with_stream.
  pose proof (keepv_streamLocked data_of new_stream_data p id recv c) as Q.
  pose proof (flow_streamLocked id recv c H Hg) as [H1 Hg1]. destruct (streamLocked id recv c) as [r c1] eqn:E.
  destruct (streamLocked_ok _ _ _ _ _ E Hi Hc Hr Hs) as (_ & _ & Hf). simpl in *.
  destruct r as [[q|]|e]; [|by apply moved_quiet..]. eapply quiet_moved; [exact Q|]. apply Hk; auto.
Qed.

Lemma streamLocked_table id recv c r c1 : streamLocked id recv c = (inl r, c1) -> r = c_streams c1 !! id.
Proof.
  unfold streamLocked. destruct (_ && _); [done|].
  destruct (initiatedLocally c id); destruct (_ <=? _); try done; by intros [= <- <-].
Qed.

(** A STREAM frame reaches the live stream with its identifier. *)
Lemma delivered_stream p now id off data fin c r c1 :
  ids_inv c -> c_closeErr c = None -> c_ready c = true -> small_limits c -> streamLocked id true c = (r, c1) ->
  delivered p (OpFrame now (Stream id off data fin)) c =
  match r with
  | inl (Some q) =>
      if bool_decide (q = p) then match (stream_frame id off data fin q c1).1 with None => data | Some _ => [] end else []
  | _ => []
  end.
Proof.
  intros Hi Hc Hr Hs E. unfold delivered, exec.
  assert (Eo : handleFrameLocked now (Stream id off data fin) c = handleStreamLocked id off data fin c)
    by (simpl; by rewrite Hr).
  rewrite Eo. unfold handleStreamLocked, with_stream. rewrite E.
  pose proof (keepv_streamLocked s_done new_stream_done p id true c) as Qd.
  destruct (streamLocked_ok _ _ _ _ _ E Hi Hc Hr Hs) as (Hi1 & K & Hf). rewrite E in Qd. simpl in Qd.
  assert (Hc1 : c_closeErr c1 = None) by (destruct K as (_ & _ & K & _); congruence).
  destruct r as [[q|]|e]; [| |done].
  - destruct (Hf q eq_refl) as [F1 F2 F3 _].
    destruct (ends_id q c1 (stream_frame id off data fin q c1).2) as [El Ei]; [apply ends_stream_frame|done|].
    replace (bool_decide (ptr _ p) && _ && _) with (bool_decide (q = p)).
    { destruct (stream_frame id off data fin q c1) as [[e|] c2]; simpl; by destruct (bool_decide _). }
    rewrite El, Ei, <- Qd. apply eq_true_iff_eq. rewrite !andb_true_iff, !bool_decide_eq_true, Z.eqb_eq, negb_true_iff.
    split; [by intros <-|]. intros [[Hp He] _]. symmetry. apply (id_inj c1 p q); congruence.
  - apply streamLocked_table in E. cbn [fst snd].
    replace (bool_decide _ && _ && _) with false; [done|]. symmetry. rewrite <- Qd.
    apply not_true_iff_false. rewrite !andb_true_iff, bool_decide_eq_true, Z.eqb_eq, negb_true_iff.
    intros [[Hp He] Hnd]. assert (c_streams c1 !! id = Some p) by (by apply (id_streams _ Hi1 Hc1)). congruence.
Qed.

Lemma moved_stream p now id off data fin c :
  ids_inv c -> c_closeErr c = None -> c_ready c = true -> small_limits c ->
  flow_inv c -> ranges c -> is_varint (zlen data) ->
  let o := OpFrame now (Stream id off data fin) in
  moved p (delivered p o c) [] [] c (exec o c).
Proof.
  intros Hi Hc Hr Hs H Hg Hd o. unfold o. pose proof (keepv_streamLocked data_of new_stream_data p id true c) as Q.
  pose proof (flow_streamLocked id true c H Hg) as [H1 Hg1]. destruct (streamLocked id true c) as [r c1] eqn:E.
  rewrite (delivered_stream p now id off data fin c r c1) by done. simpl in Q, H1, Hg1 |- *. rewrite Hr. cbn [negb].
  destruct (streamLocked_ok _ _ _ _ _ E Hi Hc Hr Hs) as (_ & _ & Hf).
  unfold handleStreamLocked, with_stream. rewrite E. destruct r as [[q|]|e]; [|by apply moved_quiet..].
  eapply quiet_moved; [exact Q|]. destruct (Hf q eq_refl) as [F1 _ _ _]. by apply moved_stream_frame.
Qed.

Lemma moved_frame p now f c :
  ids_inv c -> c_closeErr c = None -> small_limits c -> flow_inv c -> ranges c -> is_varint (zlen (frame_data f)) ->
  moved p (delivered p (OpFrame now f) c) [] [] c (exec (OpFrame now f) c).
Proof.
  intros Hi Hc Hs H Hg Hd.
  assert (Hq : forall c', c_heap c' = c_heap c -> moved p [] [] [] c c').
  { intros c' E. apply moved_quiet. by apply keepv_heap. }
  destruct (c_ready c) eqn:Hr.
  2:{ unfold delivered, exec, handleFrameLocked. rewrite Hr. destruct f; simpl; try by apply Hq.
      apply Hq. by rewrite handleParametersLocked_eq. }
  destruct f; try (by apply moved_stream);
    unfold delivered, exec, handleFrameLocked; rewrite Hr; cbn [negb fst snd].
  - apply moved_with_stream; try done. intros q c1 [F1 _ _ _] H1 Hg1. by apply moved_reset_frame.
  - apply moved_with_stream; try done. intros q c1 [F1 _ _ _] H1 Hg1. by apply moved_resetSend.
  - unfold handleMaxData. apply Hq. by destruct (_ <? _).
  - apply moved_with_stream; try done. intros q c1 _ H1 Hg1. destruct (_ <? _); [|by apply moved_quiet].
    apply moved_quiet. cbn [snd]. eapply keepv_trans; [|by apply keepv_broadcast_write]. by apply keepv_upd.
  - unfold handleMaxStreams. apply Hq. by destruct Uni, (_ <? _).
  - by apply Hq.
  - destruct Application; by apply Hq.
  - unfold handleDatagramLocked. apply Hq. by repeat destruct (_ <? _).
  - unfold handlePingLocked. apply Hq. by repeat case_match.
  - by apply Hq.
Qed.

Lemma exec_moved p o c :
  ids_inv c -> flow_inv c -> in_range c -> valid o c ->
  moved p (delivered p o c) (returned p o c) (chunk p o c) c (exec o c).
Proof.
  intros Hi H Hr Hv. pose proof (in_range_ranges _ Hi Hr) as Hg. pose proof (in_range_limits _ Hr) as Hs.
  assert (Hq : forall c', quiet p c c' -> moved p [] [] [] c c') by (intros; by apply moved_quiet).
  destruct o as [now f|d|d|q n|q n|q code|q t|now q|q n|q|q code|q t|q u i| |now|now|e|now n|now n|].
  - destruct Hv as (Hc & _ & Hd). by apply moved_frame.
  - apply Hq, quiet_open.
  - by apply Hq, quiet_accept.
  - apply moved_read; try done; apply Hv.
  - apply Hq, quiet_peek.
  - apply moved_cancelRead; [done|apply Hv].
  - apply Hq. simpl. unfold setReadDeadline. eapply keepv_trans; [|by apply keepv_broadcast_read]. by apply keepv_upd.
  - apply Hq, quiet_trySend.
  - apply moved_reserve; [done|apply Hv|apply Hv].
  - apply moved_finish; [done|apply Hv].
  - simpl. unfold cancelWrite. destruct (bool_decide _); [by apply Hq|]. apply moved_resetSend; [done|apply Hv].
  - apply Hq. simpl. unfold setWriteDeadline. eapply keepv_trans; [|by apply keepv_broadcast_write]. by apply keepv_upd.
  - apply Hq. by apply keepv_upd.
  - apply Hq, keepv_heap. simpl. unfold tryReceiveDatagram. by destruct (c_datagrams c).
  - apply Hq, keepv_heap. simpl. unfold requestPing. by destruct (_ && _).
  - apply Hq, keepv_heap. simpl. destruct (c_closeErr c) eqn:Hc; [unfold takeControl; by rewrite Hc|].
    by rewrite takeControl_eq.
  - apply Hq, quiet_terminate.
  - by apply Hq, keepv_heap.
  - by apply Hq, keepv_heap.
  - by apply Hq, keepv_heap.
Qed.

(** A run of the connection, with everything that was delivered to the
    stream [p], read from it and sent on it, in order. *)
Inductive logged (cfg : Config) (isServer : bool) (p : nat) : bytes -> bytes -> list (Z * Z) -> Conn -> Prop :=
| logged_init now : logged cfg isServer p [] [] [] (newConn cfg isServer now)
| logged_step o rcv rd chs c :
    logged cfg isServer p rcv rd chs c -> in_range c -> valid o c ->
    logged cfg isServer p (rcv ++ delivered p o c) (rd ++ returned p o c) (chs ++ chunk p o c) (exec o c).

Lemma logged_reach cfg isServer p rcv rd chs c : logged cfg isServer p rcv rd chs c -> reach cfg isServer c.
Proof. induction 1; by constructor. Qed.

(** Every run has a history. *)
Lemma reach_logged cfg isServer p c : reach cfg isServer c -> exists rcv rd chs, logged cfg isServer p rcv rd chs c.
Proof.
  induction 1 as [now|o c Hreach (rcv & rd & chs & IH) Hr Hv]; [do 3 eexists; constructor|].
  do 3 eexists. by constructor.
Qed.

(** The ranges are contiguous, from [a] to [b]. *)
Fixpoint tiles (a : Z) (chs : list (Z * Z)) (b : Z) : Prop :=
  match chs with
  | [] => a = b
  | (off, k) :: chs => off = a /\ 0 <= k /\ tiles (a + k) chs b
  end.

Lemma tiles_app a chs b chs' b' : tiles a chs b -> tiles b chs' b' -> tiles a (chs ++ chs') b'.
Proof.
  revert a. induction chs as [|[off k] chs IH]; intros a; simpl; [by intros ->|].
  intros (? & ? & ?) ?. split_and!; try done. by apply IH.
Qed.

(** What was read is a prefix of what was delivered; the rest is buffered. *)
Lemma logged_data cfg isServer p rcv rd chs c :
  config_ok cfg -> logged cfg isServer p rcv rd chs c ->
  rd `prefix_of` rcv /\ zlen rd = s_readOffset (deref c p) /\
  (s_recvErr (deref c p) = None -> rcv = rd ++ unread (deref c p)).
Proof.
  intros Hcfg Hl. induction Hl as [now|o rcv rd chs c Hl (IH1 & IH2 & IH3) Hr Hv].
  - by split_and!.
  - apply logged_reach in Hl. pose proof (reach_ids _ _ _ Hcfg Hl) as Hi. pose proof (reach_flow _ _ _ Hcfg Hl) as Hf.
    destruct (exec_moved p o c Hi Hf Hr Hv) as [M1 M2 _ _ M5]. split_and!.
    + destruct M5 as [->|M5]; [rewrite app_nil_r; by apply prefix_app_r|].
      destruct (M1 M5) as [He Hu]. rewrite (IH3 He), <- app_assoc, Hu, app_assoc. by eexists.
    + rewrite length_app. lia.
    + intros He. destruct (M1 He) as [He0 Hu]. by rewrite (IH3 He0), <- !app_assoc, Hu.
Qed.

(** C11: the bytes of a stream arrive complete and in order, in every run of
    the connection. The application has read a prefix of the data of the
    accepted STREAM frames of the stream, put together in the order in
    which they came; and as long as the stream was neither reset nor its
    reading cancelled, the rest of it is what is buffered. *)
Theorem stream_data_in_order cfg isServer p rcv rd chs c :
  config_ok cfg -> logged cfg isServer p rcv rd chs c ->
  rd `prefix_of` rcv /\ zlen rd = s_readOffset (deref c p) /\
  (s_recvErr (deref c p) = None -> rcv = rd ++ unread (deref c p)).
Proof. apply logged_data. Qed.

(** What this endpoint sends on a stream is contiguous: the ranges of
    offsets that its writes reserved, in order, follow each other from 0 to
    the stream's offset without a gap or an overlap. *)
Theorem stream_sends_in_order cfg isServer p rcv rd chs c :
  config_ok cfg -> logged cfg isServer p rcv rd chs c -> tiles 0 chs (s_sendOffset (deref c p)).
Proof.
  intros Hcfg Hl. induction Hl as [now|o rcv rd chs c Hl IH Hr Hv]; [done|].
  apply logged_reach in Hl. pose proof (reach_ids _ _ _ Hcfg Hl) as Hi. pose proof (reach_flow _ _ _ Hcfg Hl) as Hf.
  destruct (exec_moved p o c Hi Hf Hr Hv) as [_ _ M3 _ _]. eapply tiles_app; [exact IH|].
  destruct (chunk p o c) as [|[off k] [|]]; simpl; [done| |done]. destruct M3 as (-> & ? & ->). by split_and!.
Qed.

Lemma steps_ended p c c' :
  steps c c' -> all_inv c -> ended (deref c p) = true ->
  ended (deref c' p) = true /\ s_sendOffset (deref c' p) = s_sendOffset (deref c p).
Proof.
  induction 1 as [|o c c' Hr Hv Hs IH]; intros H He; [done|].
  destruct (exec_moved p o c (ai_ids _ H) (ai_flow _ H) Hr Hv) as [_ _ M3 M4 _].
  destruct (M4 He) as [He' Ech]. rewrite Ech in M3. rewrite <- M3. apply IH; [by apply all_exec|done].
Qed.

Lemma ended_refuses p n c : ended (deref c p) = true -> exists e, reserve p n c = (inr e, c).
Proof.
  unfold ended, reserve, sendErrLocked. intros E. destruct (c_closeErr c); [by eexists|].
  destruct (s_sendErr (deref c p)); [by eexists|]. destruct (s_finSent (deref c p)); [by eexists|done].
Qed.

(** The sending side after it ended, and the offset it ended at. *)
Lemma moved_offset p c c' : moved p [] [] [] c c' -> s_sendOffset (deref c' p) = s_sendOffset (deref c p).
Proof. by intros [_ _ M _ _]. Qed.

Lemma finish_result p fs c c1 :
  flow_inv c -> ptr c p -> finish p c = (inl (Some fs), c1) ->
  fs = s_sendOffset (deref c1 p) /\ ended (deref c1 p) = true.
Proof.
  intros Hf Hp. unfold finish. destruct (c_closeErr c); [done|]. destruct (_ || _); [done|].
  set (c0 := broadcast_write p _). intros E. injection E as <- <-. split; [done|].
  assert (Hc0 : keepv s_finSent p (upd p (set_s_finSent true) c) c0).
  { eapply keepv_trans; [by apply keepv_cancel|by apply keepv_broadcast_write]. }
  assert (Hp0 : ptr c0 p).
  { subst c0. apply ptr_broadcast_write. rewrite (only_length p _ _ (only_cancel p None _)). by apply ptr_upd. }
  unfold ended. rewrite (keepv_complete s_finSent p p c0) by done. rewrite Hc0, deref_upd by done. done.
Qed.

Lemma cancelWrite_result p code c :
  ptr c p -> s_canSend (deref c p) = true -> c_closeErr c = None -> ended (deref c p) = false ->
  c_control (cancelWrite p code c) = c_control c ++ [ResetStream (s_id (deref c p)) code (s_sendOffset (deref c p))] /\
  ended (deref (cancelWrite p code c) p) = true.
Proof.
  intros Hp Hs Hc He. unfold cancelWrite, resetSendLocked. rewrite (bool_decide_eq_false_2 (c_closeErr c <> None)) by tauto.
  unfold ended in He. apply orb_false_iff in He as [He1 He2].
  unfold sendDone. rewrite Hs, He1, He2. cbn [negb orb]. cbv iota beta.
  set (f := set_s_sendErr _). set (c1 := stream_cancel _ _ _). set (fr := ResetStream _ _ _).
  assert (K1 : kv c1 = kv c) by (subst c1; by autorewrite with kv).
  assert (D1 : s_sendErr (deref c1 p) = s_sendErr (f (deref c p))).
  { unfold c1. rewrite (keepv_cancel s_sendErr p p _ (upd p f c)) by done. by rewrite deref_upd. }
  assert (Hp1 : ptr c1 p) by (unfold c1; rewrite (only_length p _ _ (only_cancel p _ _)); by apply ptr_upd).
  forget c1. split.
  - set (c2 := queueLocked fr c1). assert (E2 : c_control c2 = c_control c1 ++ [fr]) by done. forget c2.
    assert (K : kv (completeLocked p (broadcast_write p c2)) = kv c2) by (by autorewrite with kv).
    unfold kv in K, K1. injection K as -> _ _. injection K1 as E1 _ _. by rewrite E2, E1.
  - unfold ended. set (c2 := queueLocked fr c1).
    rewrite (keepv_complete s_sendErr p p) by (try done; by apply ptr_broadcast_write).
    rewrite (keepv_broadcast_write s_sendErr p p c2) by done.
    change (s_sendErr (deref c2 p)) with (s_sendErr (deref c1 p)). rewrite D1. simpl. apply orb_true_r.
Qed.
End history.

Section final_size.
Context {GA : GoAppend} (cfg : Config) (isServer : bool) (c : Conn).
Hypothesis (Hcfg : config_ok cfg) (Hreach : reach cfg isServer c) (Hrange : in_range c).

(** C31: the final size that this endpoint declares for a stream is final. The
    FIN of [CloseWrite] carries the number of bytes sent so far, and so does
    the RESET_STREAM of [CancelWrite]; and whatever happens later, the
    stream never sends another byte. *)
Theorem final_size_is_final p fs code c1 :
  holds_send c p -> c_closeErr c = None -> is_varint code ->
  finish p c = (inl (Some fs), c1) \/
  (ended (deref c p) = false /\ cancelWrite p code c = c1 /\
   c_control c1 = c_control c ++ [ResetStream (s_id (deref c p)) code fs]) ->
  fs = s_sendOffset (deref c p) /\
  forall c2, steps c1 c2 -> s_sendOffset (deref c2 p) = fs /\ forall n, exists e, reserve p n c2 = (inr e, c2).
Proof using Hcfg Hreach Hrange.
  intros Hh Hc Hcode Hend. pose proof (reach_all _ _ _ Hcfg Hreach) as H. destruct Hh as [[Hp Ha] Hs].
  assert (Hfs : fs = s_sendOffset (deref c p) /\ s_sendOffset (deref c1 p) = fs /\ ended (deref c1 p) = true /\ all_inv c1).
  { destruct Hend as [E|(He & <- & Hl)].
    - destruct (finish_result p fs c c1 (ai_flow _ H) Hp E) as [-> He].
      pose proof (moved_offset _ _ _ (moved_finish p p c (ai_flow _ H) Hp)) as Ho. rewrite E in Ho. simpl in Ho.
      pose proof (all_exec (OpFinish p) c H Hrange (conj (conj Hp Ha) Hs)) as H1. simpl in H1. rewrite E in H1.
      by split_and!.
    - destruct (cancelWrite_result p code c Hp Hs Hc He) as [Eq He']. rewrite Eq in Hl. apply app_inj_2 in Hl as [_ Hl]; [|done]. injection Hl as <-.
      pose proof (all_exec (OpCancelWrite p code) c H Hrange (conj (conj (conj Hp Ha) Hs) Hcode)) as H1.
      split_and!; try done. unfold cancelWrite. destruct (bool_decide _); [done|].
      apply moved_offset, moved_resetSend; [apply H|done]. }
  destruct Hfs as (-> & Ho & He & H1). split; [done|].
  intros c2 Hs2. destruct (steps_ended p c1 c2 Hs2 H1 He) as [He2 ->]. split; [done|]. intros n. by apply ended_refuses.
Qed.
End final_size.
