(* ===== verification/Grow.v ===== *)
(** What the operations of a connection leave alone in its streams.

    A relation between a stream and itself at a later time, such as "has sent
    the same", lifts to connections: the streams of the one are in the other,
    related, and new streams come after them. [Growth] is what the relation has
    to allow; then every operation relates its two states, but for [reserve],
    which sends, and the frames that carry or end the data of a stream. *)

From S2P Require Import Prelude Varint Params Frame WriteLock Config State Core Stream Conn System Facts Ids Table Flow Life Control Wake History.

(** The parts of a stream that the relations are about: what the application
    holds it by, what it has received and what it has sent. *)
Definition handle (s : stream) := (s_id s, s_canRecv s, s_canSend s, s_accepted s).
Definition rv (s : stream) := (s_recvOffset s, s_recvReset s, s_finRecv s).
Definition core (s : stream) := (handle s, wdata s, rv s, s_readCancelled s).

Class Growth (R : stream -> stream -> Prop) (fresh : stream -> Prop) := {
  gr_pre :: PreOrder R;
  gr_fresh s s' : fresh s -> R s s' -> fresh s';
  gr_new id c : fresh (new_stream id c);
  gr_same s s' : core s' = core s -> R s s';
  gr_fin s : R s (set_s_finSent true s);
  gr_err e s : R s (set_s_sendErr (Some e) s);
  gr_accept s : R s (set_s_accepted true s);
}.

(** A relation that allows the application to stop reading. *)
Class CancelGrowth (R : stream -> stream -> Prop) :=
  gr_cancel e s : R s (set_s_readCancelled true (set_s_recvErr (Some e) s)).

(** The receiving side is closed by the peer. *)
Definition shut (s : stream) : bool := s_finRecv s || s_recvReset s.

(** A relation that allows the stream to receive. *)
Class SendGrowth (R : stream -> stream -> Prop) (fresh : stream -> Prop) := {
  sg_growth :: Growth R fresh;
  sg_same s s' : handle s' = handle s -> wdata s' = wdata s -> s_readCancelled s' = s_readCancelled s ->
    (shut s = true -> shut s' = true) -> R s s';
}.

(** Reducing the goal [grown c (f c')] to [grown c c']. *)
Ltac grown_by L := etrans; [|apply L; try apply _].

Section grown.
Context (R : stream -> stream -> Prop) (fresh : stream -> Prop) {GR : Growth R fresh}.

(** The streams of [c] are in [c'], later; those after them are new. *)
Definition grown (c c' : Conn) : Prop :=
  exists old new, c_heap c' = old ++ new /\ Forall2 R (c_heap c) old /\ Forall fresh new.

#[global] Instance grown_preorder : PreOrder grown.
Proof using GR.
  split.
  - intros c. exists (c_heap c), []. split_and!; [by rewrite app_nil_r|reflexivity|constructor].
  - intros c1 c2 c3 (o1 & n1 & E1 & L1 & Z1) (o2 & n2 & E2 & L2 & Z2). rewrite E1 in L2.
    apply Forall2_app_inv_l in L2 as (o2a & o2b & L2a & L2b & ->).
    exists o2a, (o2b ++ n2). split_and!; [by rewrite app_assoc|by etrans|]. apply Forall_app. split; [|done].
    clear -L2b Z1 GR. induction L2b as [|x y xs ys Hxy _ IH]; [constructor|].
    apply list.Forall_cons in Z1 as [Hx Hxs]. constructor; [by eapply gr_fresh|by apply IH].
Qed.

Lemma grown_heap c c' : c_heap c' = c_heap c -> grown c c'.
Proof. intros E. exists (c_heap c), []. split_and!; [by rewrite E, app_nil_r|reflexivity|constructor]. Qed.

Lemma grown_insert p s c c' : c_heap c' = <[p := s]> (c_heap c) -> R (deref c p) s -> grown c c'.
Proof.
  intros E H. exists (<[p := s]> (c_heap c)), []. split_and!; [by rewrite E, app_nil_r| |constructor].
  destruct (decide (ptr c p)) as [Hp|Hp]; [|rewrite list_insert_ge by lia; reflexivity].
  rewrite <- (insert_same (c_heap c) p) at 1. by apply Forall2_insert.
Qed.

Lemma grown_upd p f c : R (deref c p) (f (deref c p)) -> grown c (upd p f c).
Proof. intros H. by eapply grown_insert. Qed.

Lemma grown_deref c c' p : grown c c' -> ptr c p -> ptr c' p /\ R (deref c p) (deref c' p).
Proof.
  intros (o & n & E & L & _) Hp. assert (Hl : length (c_heap c) = length o) by (by eapply Forall2_length).
  split; [rewrite E, length_app; lia|]. unfold deref. rewrite E, lookup_total_app_l by lia.
  eapply Forall2_lookup_lr; [exact L|by apply list_lookup_lookup_total_lt|apply list_lookup_lookup_total_lt; lia].
Qed.

(** A stream of [c'] is one of [c], or new. *)
Lemma grown_back c c' p : grown c c' -> ptr c' p -> ptr c p \/ ~ ptr c p /\ fresh (deref c' p).
Proof.
  intros (o & n & E & L & Z) Hp. assert (Hl : length (c_heap c) = length o) by (by eapply Forall2_length).
  destruct (decide (ptr c p)) as [|Hn]; [by left|]. right. split; [done|]. rewrite E, length_app in Hp. unfold deref.
  rewrite E, lookup_total_app_r by lia. rewrite list.Forall_lookup in Z. eapply Z, list_lookup_lookup_total_lt. lia.
Qed.

Lemma grown_new id c c' : c_heap c' = c_heap c ++ [new_stream id c] -> grown c c'.
Proof.
  intros E. exists (c_heap c), [new_stream id c]. split_and!; [done|reflexivity|]. apply Forall_singleton.
  apply gr_new.
Qed.

Lemma grown_broadcast_read p c : grown c (broadcast_read p c).
Proof. unfold broadcast_read. eapply grown_insert; [reflexivity|]. by apply gr_same. Qed.

Lemma grown_broadcast_write p c : grown c (broadcast_write p c).
Proof. unfold broadcast_write. eapply grown_insert; [reflexivity|]. by apply gr_same. Qed.

Lemma grown_complete p c : grown c (completeLocked p c).
Proof.
  rewrite completeLocked_eq. cbv zeta. destruct (completing (deref c p)); [|by apply grown_heap].
  eapply grown_insert; [reflexivity|]. by apply gr_same.
Qed.

Lemma grown_cancel p cause c : grown c (stream_cancel p cause c).
Proof. rewrite stream_cancel_eq. cbv zeta. eapply grown_insert; [reflexivity|]. by apply gr_same. Qed.

Lemma grown_consume n c : grown c (consumeLocked n c).
Proof. by apply grown_heap. Qed.

Lemma grown_received n c c' : receivedLocked n c = inl c' -> grown c c'.
Proof. unfold receivedLocked. case_match; [done|]. intros [= <-]. by apply grown_heap. Qed.

Lemma grown_queue f c : grown c (queueLocked f c).
Proof. by apply grown_heap. Qed.

Lemma grown_read p n c : grown c (readLocked p n c).
Proof.
  unfold readLocked. set (c1 := consumeLocked n _).
  assert (H : grown c c1) by (grown_by grown_consume; by apply grown_upd, gr_same). forget c1.
  destruct (_ && _); [|done]. grown_by grown_queue. etrans; [exact H|]. by apply grown_upd, gr_same.
Qed.

Lemma grown_took n s : R s (took n s).
Proof. unfold took. cbv zeta. by case_match; apply gr_same. Qed.

Lemma grown_tryRead p n c : grown c (tryRead p n c).2.
Proof.
  unfold tryRead. destruct (c_closeErr c); [done|]. destruct (s_recvErr _); [done|]. destruct (_ <? _)%nat.
  - simpl. grown_by grown_complete. grown_by grown_read. apply grown_upd, grown_took.
  - destruct (s_finRecv _); [done|]. simpl. eapply grown_insert; [reflexivity|]. by apply gr_same.
Qed.

Lemma grown_tryPeek p n c : grown c (tryPeek p n c).2.
Proof.
  unfold tryPeek. destruct (c_closeErr c); [done|]. destruct (s_recvErr _); [done|]. destruct (_ <=? _)%nat; [done|].
  destruct (s_finRecv _); [done|]. simpl. eapply grown_insert; [reflexivity|]. by apply gr_same.
Qed.

Lemma grown_cancelRead {CG : CancelGrowth R} p code c : grown c (cancelRead p code c).
Proof using GR.
  unfold cancelRead. destruct (_ || _); [done|]. grown_by grown_complete. grown_by grown_broadcast_read.
  assert (H : grown c (upd p clear_rbuf (consumeLocked (zlen (unread (deref c p)))
    (upd p (fun s => set_s_readCancelled true (set_s_recvErr (Some (ErrStream (s_id s) code false)) s)) c)))).
  { etrans; [|by apply grown_upd, gr_same]. grown_by grown_consume. by apply grown_upd, gr_cancel. }
  destruct (negb _); [|done]. by grown_by grown_queue.
Qed.

Lemma grown_trySend now p c : grown c (trySend now p c).2.
Proof.
  unfold trySend. destruct (sendErrLocked p c); [done|]. destruct (_ && _); [done|]. destruct (_ <? _); [done|].
  simpl. eapply grown_insert; [reflexivity|]. by apply gr_same.
Qed.

Lemma grown_finish p c : grown c (finish p c).2.
Proof.
  unfold finish. destruct (c_closeErr c); [done|]. destruct (_ || _); [done|]. cbn [snd].
  grown_by grown_complete. grown_by grown_broadcast_write. grown_by grown_cancel.
  apply grown_upd, gr_fin.
Qed.

Lemma grown_resetSend p code r c : grown c (resetSendLocked p code r c).
Proof.
  unfold resetSendLocked. destruct (sendDone _); [done|]. grown_by grown_complete. grown_by grown_broadcast_write.
  grown_by grown_queue. grown_by grown_cancel. apply grown_upd, gr_err.
Qed.

Lemma grown_cancelWrite p code c : grown c (cancelWrite p code c).
Proof. unfold cancelWrite. destruct (bool_decide _); [done|apply grown_resetSend]. Qed.

Lemma grown_open d c : grown c (tryOpen d c).2.
Proof.
  unfold tryOpen. destruct (c_closeErr c); [done|]. destruct (_ <=? _); simpl.
  - apply grown_heap. by destruct d.
  - match goal with |- grown c (set_c_out d ?o ?c2) =>
      etrans; [|apply (grown_heap c2); by destruct d] end.
    etrans; [|by apply grown_upd, gr_accept]. by eapply grown_new.
Qed.

Lemma grown_accept d c : grown c (tryAccept d c).2.
Proof.
  unfold tryAccept. destruct (c_closeErr c); [done|]. destruct (i_queue _) as [|p ps]; simpl.
  - apply grown_heap. by destruct d.
  - grown_by grown_complete. etrans; [|by apply grown_upd, gr_accept]. apply grown_heap. by destruct d.
Qed.

Lemma grown_terminate e c : grown c (terminate e c).2.
Proof.
  unfold terminate. destruct (c_closeErr c); [done|]. cbn [snd].
  set (c1 := if negb _ then _ else _).
  assert (E1 : c_heap c1 = c_heap c).
  { subst c1. rewrite conn_cancel_eq. destruct (negb _); [|done]. by rewrite close_handshake_eq. }
  set (c2 := broadcast_in _ _). assert (E2 : c_heap c2 = c_heap c) by (by rewrite <- E1).
  forget c2. set (ps := snd <$> _). forget ps. etrans; [by apply (grown_heap c c2)|].
  etrans; [|by apply (grown_heap (wake_streams ps c2))]. clear E2 E1.
  unfold wake_streams. revert c2. induction ps as [|q ps IH]; intros c2; [done|]. simpl.
  etrans; [|apply IH]. grown_by grown_broadcast_write. apply grown_broadcast_read.
Qed.

(** ** Frames *)

Lemma grown_streamLocked id recv c : grown c (streamLocked id recv c).2.
Proof.
  unfold streamLocked. destruct (_ && _); [done|].
  destruct (initiatedLocally c id); destruct (_ <=? _); try done. cbn [snd].
  apply (open_loop_ind (grown c)); [|done].
  intros c' K _. etrans; [exact K|].
  destruct (open_incoming_fields (streamDir id) c') as (_ & _ & _ & _ & Eh & _). by eapply grown_new.
Qed.

Lemma grown_with_stream id recv k c :
  (forall p c1, grown c1 (k p c1).2) -> grown c (with_stream id recv k c).2.
Proof.
  intros Hk. unfold with_stream. pose proof (grown_streamLocked id recv c) as H.
  destruct (streamLocked id recv c) as [[[p|]|e] c1]; simpl in *; [|done|done]. etrans; [exact H|apply Hk].
Qed.

Section exec.
Context {GA : GoAppend}.

Lemma grown_parameters p c : grown c (handleParametersLocked p c).
Proof. rewrite handleParametersLocked_eq. by apply grown_heap. Qed.

(** The frames that carry or end the data of a stream. *)
Definition receives (f : frame) : bool :=
  match f with Stream _ _ _ _ | ResetStream _ _ _ => true | _ => false end.

Lemma grown_frame now f c : receives f = false -> grown c (handleFrameLocked now f c).2.
Proof.
  unfold handleFrameLocked. destruct (c_ready c); destruct f; cbn [negb snd]; intros Hf; try done.
  - apply grown_with_stream. intros. apply grown_resetSend.
  - unfold handleMaxData. destruct (_ <? _); [|done]. by apply grown_heap.
  - apply grown_with_stream. intros p c1. destruct (_ <? _); [|done]. cbn [snd].
    grown_by grown_broadcast_write. by apply grown_upd, gr_same.
  - unfold handleMaxStreams. destruct Uni; destruct (_ <? _); try done; by apply grown_heap.
  - by destruct Application.
  - unfold handleDatagramLocked. repeat case_match; try done. by apply grown_heap.
  - unfold handlePingLocked. repeat case_match; try done; by apply grown_heap.
  - apply grown_parameters.
Qed.

(** The operations that send or receive data. *)
Definition reserves (o : op) : bool := match o with OpReserve _ _ => true | _ => false end.
Definition op_receives (o : op) : bool := match o with OpFrame _ f => receives f | _ => false end.

Definition cancels (o : op) : bool := match o with OpCancelRead _ _ => true | _ => false end.

Lemma grown_exec o c :
  reserves o = false -> op_receives o = false -> (cancels o = true -> CancelGrowth R) -> grown c (exec o c).
Proof.
  destruct o as [now f|d|d|q n|q n|q code|q t|now q|q n|q|q code|q t|q u i| |now|now|e|now n|now n|]; simpl; intros Ho Hf Hc; try done.
  - by apply grown_frame.
  - apply grown_open.
  - apply grown_accept.
  - apply grown_tryRead.
  - apply grown_tryPeek.
  - specialize (Hc eq_refl). apply grown_cancelRead.
  - unfold setReadDeadline. grown_by grown_broadcast_read. by apply grown_upd, gr_same.
  - apply grown_trySend.
  - apply grown_finish.
  - apply grown_cancelWrite.
  - unfold setWriteDeadline. grown_by grown_broadcast_write. by apply grown_upd, gr_same.
  - by apply grown_upd, gr_same.
  - unfold tryReceiveDatagram. destruct (c_datagrams c); [done|]. by apply grown_heap.
  - unfold requestPing. destruct (_ && _); [done|]. by apply grown_heap.
  - destruct (c_closeErr c) eqn:E; [unfold takeControl; by rewrite E|]. rewrite takeControl_eq by done. by apply grown_heap.
  - apply grown_terminate.
  - by apply grown_heap.
  - by apply grown_heap.
  - by apply grown_heap.
Qed.
End exec.
End grown.

(** * Frames that carry data *)

Section received.
Context {GA : GoAppend} (R : stream -> stream -> Prop) (fresh : stream -> Prop) {SG : SendGrowth R fresh}.

Lemma buffer_same d s : core (bufferLocked d s) = core s.
Proof. unfold bufferLocked, append_rbuf. cbv zeta. by repeat case_match. Qed.

Lemma grown_stream_frame id off data fin p c : grown R fresh c (stream_frame id off data fin p c).2.
Proof using SG.
  unfold stream_frame. destruct (negb _); [done|]. destruct (s_finRecv _ || _) eqn:Hs; [by destruct ((0 <? _) || _)|].
  destruct (_ <? _); [done|]. destruct (receivedLocked _ c) as [c1|] eqn:E; [|done]. cbn [snd].
  etrans; [exact (grown_received R fresh _ _ _ E)|]. grown_by grown_complete. grown_by grown_broadcast_read.
  set (c2 := upd p _ c1). assert (H : grown R fresh c1 c2).
  { apply grown_upd; [apply _|]. apply sg_same; try done. assert (E1 : c_heap c1 = c_heap c) by (unfold receivedLocked in E; case_match; by simplify_eq).
    unfold shut, deref. rewrite E1. fold (deref c p). congruence. }
  forget c2.
  destruct (s_readCancelled _); [by grown_by grown_consume|]. etrans; [exact H|].
  apply grown_upd; [apply _|apply gr_same, buffer_same].
Qed.

Lemma grown_reset_frame id code fs p c : grown R fresh c (reset_frame id code fs p c).2.
Proof using SG.
  unfold reset_frame. destruct (_ || _); [done|]. destruct (s_recvReset _); [done|]. destruct (_ <? _); [done|].
  destruct (receivedLocked _ c) as [c1|] eqn:E; [|done]. cbn [snd].
  etrans; [exact (grown_received R fresh _ _ _ E)|]. grown_by grown_complete. grown_by grown_broadcast_read.
  etrans; [apply grown_consume; apply _|]. apply grown_upd; [apply _|]. unfold after_reset. cbv zeta.
  by case_match; apply sg_same; try done; intros _; unfold shut; simpl; rewrite orb_true_r.
Qed.

Lemma grown_any_frame now f c : grown R fresh c (handleFrameLocked now f c).2.
Proof using SG.
  destruct (receives f) eqn:Hf; [|by apply grown_frame; [apply _|]]. unfold handleFrameLocked.
  destruct f; try done; destruct (c_ready c); cbn [negb snd]; try done; (apply grown_with_stream; [apply _|]; intros).
  - apply grown_reset_frame.
  - apply grown_stream_frame.
Qed.

(** Every critical section but [reserve]. *)
Lemma grown_any_exec o c : reserves o = false -> (cancels o = true -> CancelGrowth R) -> grown R fresh c (exec o c).
Proof using SG.
  intros Ho Hc. destruct (op_receives o) eqn:E; [|by apply grown_exec; [apply _|..]]. destruct o; try done. apply grown_any_frame.
Qed.
End received.
