(* ===== verification/FrameTheorems.v ===== *)
(** What each frame of the peer does, on every branch: which stream it refers
    to, which violations it is rejected for, and what it changes when it is
    accepted; and that a record is handled frame by frame to its end. *)

From S2P Require Import Prelude Varint Params Frame WriteLock Config State Core Stream Conn System Facts Ids Table Flow Life Control Wake Transport Endpoint Wire LifeTheorems History Scenario.

(** * The stream of a frame *)

Lemma acc_streamLocked id recv c : acc (streamLocked id recv c).2 = acc c.
Proof.
  unfold streamLocked. destruct (_ && _); [done|].
  destruct (initiatedLocally c id); destruct (_ <=? _); try done. cbn [snd].
  apply (open_loop_ind (fun c' => acc c' = acc c)); [|done]. intros c' <- _. by destruct (streamDir id).
Qed.

(** The end of the handlers of stream frames: the stream was changed to [s1],
    its readers are woken, and it may complete. *)
Lemma frame_applied p s1 c c1 :
  flow_inv c1 -> ptr c p -> c_heap c1 = <[p := s1]> (c_heap c) ->
  let c' := completeLocked p (broadcast_read p c1) in
  fview (deref c' p) = fview s1 /\ (forall q, q <> p -> deref c' q = deref c q) /\ acc c' = acc c1 /\
  (forall ch, s_readSignal s1 = Some ch -> ch ∈ c_closed c').
Proof.
  intros H Hp Eh c'. assert (Hp1 : ptr c1 p) by (by rewrite Eh, length_insert).
  assert (Ed : deref c1 p = s1) by (unfold deref; rewrite Eh; by apply insert_lookup_total_eq).
  assert (Hb : flow_inv (broadcast_read p c1)) by (eapply flow_same; [apply fv_broadcast_read|done]).
  assert (Ev : fv c' = fv c1).
  { unfold c'. rewrite fv_complete by (try done; by apply ptr_broadcast_read). apply fv_broadcast_read. }
  split_and!.
  - unfold fv in Ev. destruct (view_heap fview c1 c' p) as [_ Hv]; [congruence|]. by rewrite Hv, Ed.
  - intros q Hq. unfold c'. rewrite (only_other q p _ _ (only_complete p _)) by done.
    assert (O : only p c (broadcast_read p c1)); [|by rewrite (only_other q p _ _ O)].
    eapply only_trans; [by eapply only_insert|]. unfold broadcast_read. set (c2 := signal_close _ c1).
    eapply only_trans; [by apply (only_heap_eq p c1 c2)|apply only_upd].
  - unfold fv in Ev. unfold acc. congruence.
  - intros ch Hch. unfold c'. rewrite completeLocked_eq. cbv zeta. simpl. rewrite Ed, Hch. set_solver.
Qed.

Lemma fed_fields {GA : GoAppend} data fin s :
  s_recvOffset (fed data fin s) = s_recvOffset s + zlen data /\ s_finRecv (fed data fin s) = fin /\
  s_readSignal (fed data fin s) = s_readSignal s.
Proof.
  unfold fed. destruct (s_readCancelled s); [done|]. set (s1 := set_s_finRecv fin _).
  destruct (buffer_fields data s1) as (B1 & _ & _ & B4 & _). rewrite B1, B4. split_and!; try done.
  unfold bufferLocked, append_rbuf. cbv zeta. by repeat case_match.
Qed.

Section reachable.
Context {GA : GoAppend} (cfg : Config) (isServer : bool) (c : Conn).
Hypothesis (Hcfg : config_ok cfg) (Hreach : reach cfg isServer c) (Hrange : in_range c).
Hypothesis (Hopen : c_closeErr c = None) (Hready : c_ready c = true).

(** C16: which stream a frame refers to. A frame is rejected, and nothing
    changes, when its identifier is of a unidirectional stream of the wrong
    side, of a stream this endpoint has not opened, or beyond the limit given
    to the peer. Otherwise the peer's stream has been opened, with all the
    streams of its kind below it, and the result is the one live stream with
    that identifier; there is none only when the stream is done. *)
Theorem streamLocked_classified id recv r c' :
  is_varint id -> streamLocked id recv c = (r, c') ->
  let local := initiatedLocally c id in
  let d := streamDir id in
  let index := Z.shiftr id 2 in
  match r with
  | inr e => c' = c /\
      (err_Code e = StreamStateError /\ (d = dirUni /\ local = recv \/ local = true /\ o_next (c_out d c) <= index) \/
       err_Code e = StreamLimitError /\ local = false /\ i_max (c_in d c) <= index)
  | inl sp =>
      (d = dirUni -> local <> recv) /\
      (local = true -> c' = c /\ index < o_next (c_out d c)) /\
      (local = false -> index < i_max (c_in d c) /\
        (forall j, 0 <= j <= index -> exists q, ptr c' q /\ s_id (deref c' q) = streamID c j d false) /\
        exists q, ptr c' q /\ s_id (deref c' q) = id /\ sp = if s_done (deref c' q) then None else Some q) /\
      (forall q, sp = Some q <-> ptr c' q /\ s_id (deref c' q) = id /\ s_done (deref c' q) = false)
  end.
Proof using Hcfg Hreach Hrange Hopen Hready.
  intros Hid E local d index. pose proof (reach_ids _ _ _ Hcfg Hreach) as H.
  pose proof (in_range_limits _ Hrange) as Hs.
  destruct (streamLocked_ok _ _ _ _ _ E H Hopen Hready Hs) as (H' & K & _).
  assert (Hc' : c_closeErr c' = None) by (destruct K as (_ & _ & K & _); congruence).
  assert (Htab : forall sp, r = inl sp -> forall q, sp = Some q <-> ptr c' q /\ s_id (deref c' q) = id /\ s_done (deref c' q) = false).
  { intros sp Er q. rewrite Er in E. rewrite (streamLocked_table _ _ _ _ _ E). by apply (id_streams _ H'). }
  pose proof (index_range id) as Hix. unfold is_varint in Hid. fold index in Hix.
  unfold streamLocked in E. fold local d index in E.
  destruct (bool_decide (d = dirUni) && Bool.eqb local recv) eqn:Eu.
  { injection E as <- <-. apply andb_true_iff in Eu as [Eu%bool_decide_eq_true El%eqb_prop]. split; [done|]. left. auto. }
  assert (Hu : d = dirUni -> local <> recv).
  { intros Hd Hl. rewrite bool_decide_eq_true_2, Hl, eqb_reflx in Eu by done. done. }
  destruct local eqn:El.
  - destruct (Z.leb_spec (o_next (c_out d c)) index); injection E as <- <-.
    + split; [done|]. left. auto.
    + split_and!; try done. by apply Htab.
  - destruct (Z.leb_spec (i_max (c_in d c)) index) as [|Hlt]; injection E as Er Ec'.
    + subst r c'. split; [done|]. right. auto.
    + subst r. split_and!; [done|done| |by apply Htab]. intros _. split; [done|].
      assert (Hn : index < i_next (c_in d c')).
      { rewrite <- Ec'. apply open_loop_next; try done. lia. }
      assert (Eid : forall j, streamID c' j d false = streamID c j d false).
      { intros j. destruct K as (_ & K & _). unfold streamID. by rewrite K. }
      assert (Hall : forall j, 0 <= j <= index -> exists q, ptr c' q /\ s_id (deref c' q) = streamID c j d false).
      { intros j Hj. rewrite <- Eid. apply remote_ids_complete; [done|lia]. }
      assert (Hrb : streamID c index d false = id).
      { pose proof (streamID_of_id c id ltac:(lia)) as Hrb. fold local d index in Hrb. by rewrite El in Hrb. }
      split; [done|]. destruct (Hall index) as (q & Hq & Eq); [lia|]. rewrite Hrb in Eq. exists q.
      split; [done|]. split; [done|]. rewrite Ec'. destruct (s_done (deref c' q)) eqn:Ed.
      * destruct (c_streams c' !! id) as [q'|] eqn:Es; [|done]. exfalso.
        apply (id_streams _ H' Hc') in Es as (Hq' & Eq' & Ed').
        assert (q' = q) as ->; [|congruence]. apply (id_inj c'); congruence.
      * by apply (id_streams _ H' Hc').
Qed.

Lemma frame_start id p c1 :
  streamLocked id true c = (inl (Some p), c1) ->
  ptr c1 p /\ flow_inv c1 /\ ranges c1 /\ c_recvMax c1 = c_recvMax c /\ c_received c1 = c_received c /\
  c_consumed c1 = c_consumed c.
Proof using Hcfg Hreach Hrange Hopen Hready.
  intros E. pose proof (reach_ids _ _ _ Hcfg Hreach) as Hi. pose proof (reach_flow _ _ _ Hcfg Hreach) as Hf.
  pose proof (in_range_limits _ Hrange) as Hl. pose proof (in_range_ranges _ Hi Hrange) as Hg.
  destruct (streamLocked_ok _ _ _ _ _ E Hi Hopen Hready Hl) as (_ & _ & F). destruct (F p eq_refl) as [Hp _ _ _].
  pose proof (flow_streamLocked id true c Hf Hg) as [Hf1 Hg1]. pose proof (acc_streamLocked id true c) as Ea.
  rewrite E in Hf1, Hg1, Ea. simpl in Hf1, Hg1, Ea. unfold acc in Ea. injection Ea as _ _ _ _ A1 A2 A3. done.
Qed.

(** C15: what a STREAM frame does. It is rejected, and changes nothing beyond
    opening streams, when its data does not follow what was received, lies
    past the stream's final size or ends a stream that was reset without a FIN,
    or exceeds the limit of the stream or of the connection. It is ignored when
    it carries no data for a stream that has ended, and at most repeats its FIN.
    Otherwise its data is appended to what the application can read (or dropped
    and counted as consumed, when the application has cancelled reading), both
    counters advance by its length, the other streams are untouched, and every
    blocked reader is woken. The conditions exclude each other. *)
Theorem stream_frame_exact id off data fin p c1 r c' :
  is_varint (zlen data) -> streamLocked id true c = (inl (Some p), c1) ->
  handleStreamLocked id off data fin c = (r, c') ->
  let s := deref c1 p in let s' := deref c' p in
  (exists e, r = Some (ErrWire e) /\ c' = c1 /\
    (err_Code e = ProtocolViolation /\ off <> s_recvOffset s \/
     err_Code e = FinalSizeError /\ off = s_recvOffset s /\ (s_finRecv s || s_recvReset s) = true /\
       (0 < zlen data \/ fin = true /\ s_finRecv s = false) \/
     err_Code e = FlowControlError /\ off = s_recvOffset s /\ (s_finRecv s || s_recvReset s) = false /\
       (s_recvMax s < off + zlen data \/ c_recvMax c < c_received c + zlen data))) \/
  (r = None /\ c' = c1 /\ off = s_recvOffset s /\ data = [] /\ (s_finRecv s || s_recvReset s) = true /\
    (fin = true -> s_finRecv s = true)) \/
  (r = None /\ off = s_recvOffset s /\ (s_finRecv s || s_recvReset s) = false /\
    off + zlen data <= s_recvMax s /\ c_received c + zlen data <= c_recvMax c /\
    s_recvOffset s' = off + zlen data /\ s_finRecv s' = fin /\ c_received c' = c_received c + zlen data /\
    unread s' = (if s_readCancelled s then [] else unread s ++ data) /\
    c_consumed c' = c_consumed c + (if s_readCancelled s then zlen data else 0) /\
    (forall q, q <> p -> deref c' q = deref c1 q) /\
    (forall ch, s_readSignal s = Some ch -> ch ∈ c_closed c')).
Proof using Hcfg Hreach Hrange Hopen Hready.
  intros Hd E Eh s s'. destruct (frame_start _ _ _ E) as (Hp & Hf1 & Hg1 & A1 & A2 & A3).
  unfold handleStreamLocked, with_stream in Eh. rewrite E in Eh.
  destruct (stream_frame_inv id off data fin p c1 Hf1 Hg1 Hp Hd)
    as [(e & X & Hx)|[(X & Hx)|(c2 & X & X1 & X2 & X3 & X4 & X5 & X6 & X7 & X8 & X9)]]; rewrite X in Eh; injection Eh as <- Ec'.
  - left. exists e. subst c'. split_and!; try done. by rewrite A1, A2 in Hx.
  - right; left. subst c'. destruct Hx as (? & ? & ? & ?). by split_and!.
  - right; right. destruct (frame_applied p _ c1 c2 X6 Hp X7) as (Y1 & Y2 & Y3 & Y4).
    rewrite Ec' in *. fold s s' in X1, X2, X3, X4, X9, Y1, Y4. rewrite X2, X3. rewrite A1, A2 in X5.
    destruct (fed_fields data fin s) as (Z1 & Z2 & Z3).
    unfold fview in Y1. injection Y1 as _ W2 W3 W4 _ _ W7 _ _ _ _ _. unfold acc in Y3. injection Y3 as _ _ _ _ _ W8 W9.
    split_and!; try done; try lia.
    + congruence.
    + unfold unread at 1. rewrite W2, W3. fold (unread (fed data fin s)). unfold fed.
      destruct (s_readCancelled s) eqn:Ec; [|by rewrite buffer_unread by apply (roff_le _ _ (fl_stream _ Hf1 p Hp))].
      pose proof (fl_stream _ Hf1 p Hp) as Hs. fold s in Hs. unfold unread. simpl.
      rewrite (so_gone _ _ Hs); [apply drop_nil|]. apply (so_err _ _ Hs). by left.
    + intros ch Hch. apply Y4. by rewrite Z3.
Qed.

(** C17: what a RESET_STREAM frame does. It is rejected when its final size is
    below what was received, changes one that is known, or exceeds the limit
    of the stream or of the connection; it is ignored when the stream was
    already reset, at the same size. Otherwise, when the size is the one known
    from a FIN, if there was one, the stream ends at that size with the code of the
    frame (or the error it already had), what was buffered is dropped, and
    both what was dropped and what will never come count as received and
    consumed, so that the peer gets its credit on the connection back; every
    blocked reader is woken. *)
Theorem reset_frame_exact id code fs p c1 r c' :
  is_varint fs -> streamLocked id true c = (inl (Some p), c1) ->
  handleResetStreamLocked id code fs c = (r, c') ->
  let s := deref c1 p in let s' := deref c' p in
  (exists e, r = Some (ErrWire e) /\ c' = c1 /\
    (err_Code e = FinalSizeError /\
       (fs < s_recvOffset s \/ (s_finRecv s || s_recvReset s) = true /\ fs <> s_recvOffset s) \/
     err_Code e = FlowControlError /\ s_recvReset s = false /\ s_recvOffset s <= fs /\ (s_finRecv s = true -> fs = s_recvOffset s) /\
       (s_recvMax s < fs \/ c_recvMax c < c_received c + (fs - s_recvOffset s)))) \/
  (r = None /\ c' = c1 /\ s_recvReset s = true /\ fs = s_recvOffset s) \/
  (r = None /\ s_recvReset s = false /\ s_recvOffset s <= fs <= s_recvMax s /\ (s_finRecv s = true -> fs = s_recvOffset s) /\
    c_received c + (fs - s_recvOffset s) <= c_recvMax c /\
    s_recvReset s' = true /\ s_recvOffset s' = fs /\ unread s' = [] /\
    s_recvErr s' = Some (default (ErrStream (s_id s) code true) (s_recvErr s)) /\
    c_received c' = c_received c + (fs - s_recvOffset s) /\
    c_consumed c' = c_consumed c + (fs - s_recvOffset s) + zlen (unread s) /\
    (forall q, q <> p -> deref c' q = deref c1 q) /\
    (forall ch, s_readSignal s = Some ch -> ch ∈ c_closed c')).
Proof using Hcfg Hreach Hrange Hopen Hready.
  intros Hd E Eh s s'. destruct (frame_start _ _ _ E) as (Hp & Hf1 & Hg1 & A1 & A2 & A3).
  unfold handleResetStreamLocked, with_stream in Eh. rewrite E in Eh.
  destruct (reset_frame_inv id code fs p c1 Hf1 Hg1 Hp Hd)
    as [(e & X & Hx)|[(X & Hx & Hx')|(c2 & X & X1 & X2 & X3 & X4 & X5 & X6 & X7 & X8)]]; rewrite X in Eh; injection Eh as <- Ec'.
  - left. exists e. subst c'. split_and!; try done. by rewrite A1, A2 in Hx.
  - right; left. subst c'. by split_and!.
  - right; right. destruct (frame_applied p _ c1 c2 X5 Hp X6) as (Y1 & Y2 & Y3 & Y4).
    rewrite Ec' in *. fold s s' in X1, X2, X3, X7, X8, Y1, Y4. rewrite A1, A2 in X3.
    assert (Hr : s_rbuf (after_reset code fs s) = [] /\ s_recvOffset (after_reset code fs s) = fs /\
      s_recvReset (after_reset code fs s) = true /\ s_readSignal (after_reset code fs s) = s_readSignal s /\
      s_recvErr (after_reset code fs s) = Some (default (ErrStream (s_id s) code true) (s_recvErr s))).
    { unfold after_reset. simpl. destruct (s_recvErr s) eqn:Es; simpl; by rewrite ?Es. }
    destruct Hr as (Z1 & Z2 & Z3 & Z4 & Z5).
    unfold fview in Y1. injection Y1 as _ W2 W3 W4 _ _ _ W8 _ W10 _ _. unfold acc in Y3. injection Y3 as _ _ _ _ _ W13 W14.
    split_and!; try done; try lia; try congruence.
    + unfold unread. rewrite W2, Z1. apply drop_nil.
    + intros ch Hch. apply Y4. congruence.
Qed.
End reachable.

(** * Records *)

Section records.
Context {GA : GoAppend} {V : QuicVarint} {VL : QuicVarintLaws V}.

(** The frames one after the other, up to the first that fails. *)
Fixpoint handle_frames (now : Z) (fs : list frame) (c : Conn) : option error * Conn :=
  match fs with
  | [] => (None, c)
  | f :: fs =>
      match handleFrameLocked now f c with
      | (Some e, c) => (Some e, c)
      | (None, c) => handle_frames now fs c
      end
  end.

(** The frames of a record up to the first that does not parse, with the
    error of that one. *)
Fixpoint split_record (fuel : nat) (b : bytes) : list frame * option Error :=
  match b, fuel with
  | [], _ | _, O => ([], None)
  | _, S fuel =>
      match Parse b with
      | ParsedError e => ([], Some e)
      | ParsedNone => ([], None)
      | ParsedFrame f rest => let '(fs, e) := split_record fuel rest in (f :: fs, e)
      end
  end.

(** A frame never ends the connection: the read loop does, with the error. *)
Lemma with_stream_closeErr id recv k c :
  (forall p c1, c_closeErr (k p c1).2 = c_closeErr c1) ->
  c_closeErr (with_stream id recv k c).2 = c_closeErr c.
Proof.
  intros Hk. unfold with_stream.
  assert (E : c_closeErr (streamLocked id recv c).2 = c_closeErr c).
  { unfold streamLocked. destruct (_ && _); [done|].
    destruct (initiatedLocally c id); destruct (_ <=? _); try done. cbn [snd].
    by destruct (open_loop_keep (Z.to_nat (Z.shiftr id 2 + 1 - i_next (c_in (streamDir id) c))) (streamDir id) (Z.shiftr id 2) c)
      as (_ & _ & K & _). }
  destruct (streamLocked id recv c) as [[[p|]|e] c1]; simpl in *; [by rewrite Hk|done..].
Qed.

Lemma frame_closeErr now f c : c_closeErr (handleFrameLocked now f c).2 = c_closeErr c.
Proof.
  unfold handleFrameLocked. destruct (c_ready c); destruct f; cbn [negb snd]; try done.
  - apply with_stream_closeErr. intros p c1. apply (ends_closeErr p), ends_reset_frame.
  - apply with_stream_closeErr. intros p c1. apply (ends_closeErr p), ends_resetSend.
  - apply with_stream_closeErr. intros p c1. apply (ends_closeErr p), ends_stream_frame.
  - unfold handleMaxData. by destruct (_ <? _).
  - apply with_stream_closeErr. intros p c1. by destruct (_ <? _).
  - unfold handleMaxStreams. by destruct Uni, (_ <? _).
  - by destruct Application.
  - unfold handleDatagramLocked. by repeat destruct (_ <? _).
  - unfold handlePingLocked. by repeat case_match.
  - by rewrite handleParametersLocked_eq.
Qed.

Lemma record_loop_split now fuel rec c :
  c_closeErr c = None -> (length rec < fuel)%nat ->
  forall fuel', (length rec <= fuel')%nat ->
  record_loop fuel now rec c =
  let '(fs, pe) := split_record fuel' rec in
  match handle_frames now fs c with
  | (Some e, c') => (Some e, c')
  | (None, c') => (ErrWire <$> pe, c')
  end.
Proof.
  revert rec c. induction fuel as [|fuel IH]; intros rec c Hc Hf fuel' Hf'; [lia|]. simpl.
  destruct rec as [|b rec]; [by destruct fuel'|]. destruct fuel' as [|fuel']; [simpl in Hf'; lia|].
  rewrite bool_decide_eq_true_2 by done. destruct (Z.ltb_spec 0 (zlen (b :: rec))); [|simpl in *; lia].
  cbn [andb split_record]. destruct (Parse (b :: rec)) as [|f rest|e] eqn:Ep; [done| |done].
  destruct (Parse_inv _ _ _ Ep) as (_ & dd & Ed & Hl & _).
  assert (length rest < length (b :: rec))%nat by (rewrite Ed, length_app; lia). clear dd Ed Hl. pose proof (frame_closeErr now f c) as Hk. rewrite Hc in Hk.
  rewrite (surjective_pairing (split_record fuel' rest)). cbn [handle_frames].
  destruct (handleFrameLocked now f c) as [[e|] c']; [done|]. simpl in *.
  rewrite (IH rest c' Hk ltac:(lia) fuel' ltac:(lia)). by rewrite (surjective_pairing (split_record fuel' rest)).
Qed.

(** C18: a record is handled completely. The loop of [handleRecord] terminates
    within the record's length, and any more iterations change nothing; it
    handles the frames of the record in order up to the first that fails, and
    stops there with its error; when all of them succeed, the error is that of
    the first byte that is no frame, if any. *)
Theorem handleRecord_exact now rec c :
  c_closeErr c = None ->
  (forall fuel, (length rec < fuel)%nat -> record_loop fuel now rec c = handleRecord now rec c) /\
  handleRecord now rec c =
    let '(fs, pe) := split_record (length rec) rec in
    match handle_frames now fs c with
    | (Some e, c') => (Some e, c')
    | (None, c') => (ErrWire <$> pe, c')
    end.
Proof.
  intros Hc. unfold handleRecord. split.
  - intros fuel Hf. rewrite (record_loop_split now fuel rec c Hc Hf (length rec)) by done.
    by rewrite (record_loop_split now (S (length rec)) rec c Hc ltac:(lia) (length rec)) by done.
  - by apply record_loop_split; [|lia|].
Qed.
End records.
