(* ===== verification/EndpointTheorems.v ===== *)
(** The connection on its transport: what each operation puts on the transport,
    in terms of the records that the transport carries and of the frames that
    a peer parses out of them. The transport is any instance of
    [RecordTransport] that satisfies its laws. *)

From S2P Require Import Prelude Varint Params Frame WriteLock Config State Core Stream Conn Transport Endpoint System Facts Ids Table Flow Life Control Wake Wire LifeTheorems History FrameTheorems Scenario.

Section endpoint.
Context {V : QuicVarint} {VL : QuicVarintLaws V} {GA : GoAppend} {T : Type} {RT : RecordTransport T}
  {RTL : RecordTransportLaws T RT}.
Implicit Types (e : endpoint T).

(** The record [b] carries exactly the frames [fs], in at most [n] bytes. *)
Definition record_of (n : Z) (fs : list frame) (b : bytes) : Prop :=
  1 <= zlen b <= n /\ record_frames b = Some (frame_received <$> fs).

(** Writing one frame. *)
Lemma writeFrame_ok now f e rs :
  frame_ok f -> frame_bound f < 2 ^ 61 -> wbuf_ok e -> carries (e_tr e) rs ->
  exists r e', writeFramesLocked now [f] e = Some (r, e') /\ wbuf_ok e' /\
    stats_only (e_conn e) (e_conn e') /\
    (r = None -> exists b, carries (e_tr e') (rs ++ [b]) /\ record_of (frame_bound f) [f] b) /\
    (forall x, r = Some x -> refused (e_tr e) x (e_tr e')).
Proof.
  intros Hf Hb Hw Hc. unfold writeFramesLocked. simpl.
  destruct (Append_carried f (e_wbuf e) Hf) as (b & -> & Hcb & Hl). simpl.
  destruct (writeRecordLocked_ok now (e_wbuf e ++ b) e rs) as (r & e' & Hr & W & S & F & C & R).
  { rewrite length_app. unfold wbuf_ok, recordHeadroom in *. lia. }
  { done. }
  exists r, e'. split_and!; try done. intros E. exists b. rewrite <- (frames_of_app (e_wbuf e) b) at 1 by done.
  split; [by apply C|]. split; [lia|by apply carried_frames].
Qed.

Lemma terminate_open err c :
  c_closeErr c = None -> exists c', terminate err c = (true, c') /\ c_closeErr c' = Some err.
Proof.
  intros Hc. pose proof (terminate_view err c Hc) as Ev.
  assert (Eb : (terminate err c).1 = true) by (unfold terminate; by rewrite Hc).
  exists (terminate err c).2. split; [rewrite <- Eb; apply surjective_pairing|]. unfold iv in Ev. simpl in Ev. congruence.
Qed.

(** The operation gave up: the transport [t], where it was refused a record, is
    closed, and the connection has ended with the error of the transport. *)
Definition gave_up (t : T) (x : error) (e : endpoint T) : Prop :=
  c_closeErr (e_conn e) = Some (ErrWriteTransport x) /\ exists t', refused t x t' /\ e_tr e = close t'.

(** [abort] after a failed write. *)
Lemma abort_gave_up t x e :
  life_inv (e_conn e) -> c_closeErr (e_conn e) = None -> refused t x (e_tr e) ->
  cause (abort (ErrWriteTransport x) e) = Some (ErrWriteTransport x) /\ gave_up t x (abort (ErrWriteTransport x) e).
Proof.
  intros H Hc Hr. unfold abort. pose proof (life_terminate (ErrWriteTransport x) (e_conn e) H) as Hl.
  destruct (terminate_open (ErrWriteTransport x) _ Hc) as (c' & E & Hc'). rewrite E in Hl |- *. simpl in Hl.
  split; [unfold cause; simpl; by rewrite (lf_cause _ Hl)|]. split; [done|]. by exists (e_tr e).
Qed.

Lemma writeFrames_forced now fs e r e' :
  writeFramesLocked now fs e = Some (r, e') -> e_forced e' = e_forced e.
Proof.
  unfold writeFramesLocked, writeRecordLocked. destruct (append_frames _ _) as [b|]; [|done]. simpl.
  destruct (writeRecord b (e_tr e)) as [[[n|x] t]|]; simpl; [..|done]; by intros [= <- <-].
Qed.

Lemma abort_wbuf err e : wbuf_ok e -> wbuf_ok (abort err e).
Proof. unfold abort, wbuf_ok. by destruct (terminate err (e_conn e)) as [[] c']. Qed.

Lemma stats_life c c' : stats_only c c' -> life_inv c -> life_inv c'.
Proof. intros (b & r & t & ->) H. eapply life_same; [|exact H]. done. Qed.

Lemma stats_closeErr c c' : stats_only c c' -> c_closeErr c' = c_closeErr c.
Proof. by intros (b & r & t & ->). Qed.

Lemma stats_deref c c' p : stats_only c c' -> deref c' p = deref c p.
Proof. by intros (b & r & t & ->). Qed.
End endpoint.

(** * Closing *)

Section closing.
Context {V : QuicVarint} {VL : QuicVarintLaws V} {GA : GoAppend} {T : Type} {RT : RecordTransport T}
  {RTL : RecordTransportLaws T RT}.
Implicit Types (e : endpoint T).

(** The endpoint has closed with [err]: after the records [rs], the transport
    carries one with the frame [f], and is closed at once or, when it can be
    closed for writing only, at the latest at [deadline]; or the transport, [t]
    with that deadline for its writes, refused the frame, and it is closed at
    once. *)
Definition closed_with (deadline : Z) (err : error) (f : frame) (rs : list bytes) (t : T) (e : endpoint T) : Prop :=
  c_closeErr (e_conn e) = Some err /\ wbuf_ok e /\
  ((exists x t', refused (expire deadline t) x t' /\ e_tr e = close t' /\ e_forced e = None) \/
   (exists b, carries (e_tr e) (rs ++ [b]) /\ record_of DefaultMaxRecordSize [f] b /\
     (e_forced e = Some deadline \/ e_forced e = None /\ exists t, e_tr e = close t))).

Lemma closeGracefully_ok now err f e rs :
  c_closeErr (e_conn e) = None -> frame_ok f -> frame_bound f <= DefaultMaxRecordSize ->
  wbuf_ok e -> carries (e_tr e) rs ->
  exists e', closeGracefully now err (Some f) e = Some e' /\ closed_with (now + closeTimeout) err f rs (e_tr e) e'.
Proof.
  intros Hc Hf Hb Hw Hcr. destruct (terminate_open err _ Hc) as (c1 & Et & Hc1).
  unfold closeGracefully. rewrite Et. cbn [negb].
  set (e1 := set_forced _ _).
  destruct (writeFrame_ok now f e1 rs) as (r & e2 & Hr & W & S & C & R); try done.
  { unfold DefaultMaxRecordSize in Hb. lia. }
  { by apply (shut_carries (e_tr e) rs). }
  rewrite Hr. simpl. assert (Hc2 : c_closeErr (e_conn e2) = Some err) by (by destruct S as (? & ? & ? & ->)).
  destruct r as [x|].
  - eexists. split; [reflexivity|]. split_and!; try done. left. exists x, (e_tr e2). split_and!; try done. by apply R.
  - destruct (C eq_refl) as (b & Hb1 & Hb2 & Hb3). destruct (shut_carries (e_tr e2) _ 0 Hb1) as (_ & Hcw & _).
    destruct (closeWrite (e_tr e2)) as [half t]. simpl in Hcw.
    assert (Hrec : record_of DefaultMaxRecordSize [f] b) by (split; [lia|done]).
    destruct half; simpl.
    + eexists. split; [reflexivity|]. split_and!; try done. right. exists b. split_and!; try done. left.
      exact (writeFrames_forced _ _ _ _ _ Hr).
    + eexists. split; [reflexivity|]. split_and!; try done. right. exists b. split_and!; try done.
      * by apply (shut_carries t _ 0 Hcw).
      * right. split; [done|]. by eexists.
Qed.

Lemma closeGracefully_closed now err fr e :
  c_closeErr (e_conn e) <> None -> closeGracefully now err fr e = Some e.
Proof.
  intros Hc. unfold closeGracefully, terminate. destruct (c_closeErr (e_conn e)); [|done]. simpl. by destruct e.
Qed.

Lemma reason_bound (msg : bytes) :
  let reason := ztake (Z.min (zlen msg) maxReasonLength) msg in
  reason `prefix_of` msg /\ zlen reason <= maxReasonLength.
Proof.
  split; [exists (zdrop (Z.min (zlen msg) maxReasonLength) msg); by rewrite take_drop|].
  rewrite length_take. unfold maxReasonLength, DefaultMaxRecordSize, maxControlFrameSize. lia.
Qed.

Lemma close_frame_ok app code (reason : bytes) :
  is_varint code -> zlen reason <= maxReasonLength ->
  frame_ok (ConnectionClose app code 0 reason) /\
  frame_bound (ConnectionClose app code 0 reason) <= DefaultMaxRecordSize.
Proof.
  intros Hc Hr. unfold maxReasonLength, DefaultMaxRecordSize, maxControlFrameSize in *. simpl.
  unfold is_varint in *. lia.
Qed.
End closing.

(** * The errors of frames *)

Section errors.
Context {V : QuicVarint} {VL : QuicVarintLaws V} {GA : GoAppend}.

(** An error of this package has one of its codes; any other error of a
    frame is the peer's own close. *)
Definition error_ok (r : option error) : Prop :=
  match r with Some (ErrWire w) => is_varint (err_Code w) | _ => True end.

Lemma with_stream_error id recv k c :
  (forall p c1, error_ok (k p c1).1) -> error_ok (with_stream id recv k c).1.
Proof.
  intros Hk. unfold with_stream, streamLocked. repeat case_match; simplify_eq; try done; apply Hk.
Qed.

Lemma received_error n c e : receivedLocked n c = inr e -> is_varint (err_Code e).
Proof. unfold receivedLocked. by case_match; intros; simplify_eq. Qed.

Lemma frame_error now f c : error_ok (handleFrameLocked now f c).1.
Proof.
  unfold handleFrameLocked. destruct (c_ready c); destruct f; cbn [negb fst]; try done.
  - apply with_stream_error. intros p c1. unfold reset_frame. repeat case_match; try done. by eapply received_error.
  - by apply with_stream_error.
  - apply with_stream_error. intros p c1. unfold stream_frame. repeat case_match; try done. by eapply received_error.
  - apply with_stream_error. intros p c1. by case_match.
  - by destruct Application.
  - unfold handleDatagramLocked. by repeat case_match.
  - unfold handlePingLocked. by repeat case_match.
Qed.

Lemma record_error now fuel rec c : error_ok (record_loop fuel now rec c).1.
Proof.
  revert rec c. induction fuel as [|fuel IH]; intros rec c; [done|]. simpl. destruct (_ && _); [|done].
  destruct (Parse rec) as [|f rest|e] eqn:Ep; [done| |destruct (Parse_error rec e Ep) as [E|E]; simpl; by rewrite E].
  pose proof (frame_error now f c) as Hf. destruct (handleFrameLocked now f c) as [[x|] c']; [done|]. apply IH.
Qed.

Lemma record_closeErr now fuel rec c : c_closeErr (record_loop fuel now rec c).2 = c_closeErr c.
Proof.
  revert rec c. induction fuel as [|fuel IH]; intros rec c; [done|]. simpl. destruct (_ && _); [|done].
  destruct (Parse rec) as [|f rest|e]; [done| |done].
  pose proof (frame_closeErr now f c) as Hf. destruct (handleFrameLocked now f c) as [[x|] c']; [done|].
  rewrite IH. exact Hf.
Qed.
End errors.

Section reachable.
Context {V : QuicVarint} {VL : QuicVarintLaws V} {GA : GoAppend} {T : Type} {RT : RecordTransport T}
  {RTL : RecordTransportLaws T RT}.
Context (cfg : Config) (isServer : bool) (e : endpoint T) (rs : list bytes).
Hypothesis (Hcfg : config_ok cfg) (Hreach : reach cfg isServer (e_conn e)) (Hrange : in_range (e_conn e)).
Hypothesis (Hwbuf : wbuf_ok e) (Hcarries : carries (e_tr e) rs).

(** What [flushControl] did: [recs] are the records it wrote. *)
Definition flush_outcome (now : Z) (r : option error) (e' : endpoint T) : Prop :=
  stats_only (takeControl now (e_conn e)).2 (e_conn e') /\
  (r = None -> exists recs groups, carries (e_tr e') (rs ++ recs) /\
    Forall2 (record_of DefaultMaxRecordSize) groups recs /\
    mjoin groups = (takeControl now (e_conn e)).1) /\
  (forall x, r = Some x -> exists t, refused t x (e_tr e')).

Lemma flushControl_ok now :
  exists r e', flushControl now e = Some (r, e') /\ wbuf_ok e' /\ flush_outcome now r e'.
Proof using Hcfg Hreach Hrange Hwbuf Hcarries VL.
  pose proof (reach_ids _ _ _ Hcfg Hreach) as Hi. pose proof (reach_flow _ _ _ Hcfg Hreach) as Hf.
  pose proof (takeControl_frames now _ Hi Hf (reach_ctrl _ _ _ Hcfg Hreach) Hrange) as Hfr.
  unfold flush_outcome, flushControl. destruct (takeControl now (e_conn e)) as [frames c] eqn:E. simpl in Hfr |- *.
  destruct (flush_loop_ok now frames Hfr [] [] (e_wbuf e) (set_conn c e) rs) as (r & e' & H1 & H2 & H3 & _ & H5 & H6);
    try done; [constructor|by rewrite app_nil_r, Hwbuf|].
  rewrite app_nil_r in H1. exists r, e'. split; [done|]. split; [by apply H3|]. split_and!; [done| |done]. intros Hr.
  destruct (H5 Hr) as (recs & groups & X1 & X2 & X3 & X4). exists recs, groups. split_and!; try done.
  revert X2. clear -X3 VL. induction X3 as [|g b gs bs Hgb _ IH]; intros Hall; [constructor|].
  apply list.Forall_cons in Hall as [Hb Hbs]. constructor; [|by apply IH]. split; [exact Hb|by apply carried_frames].
Qed.

(** [flushControl] delivers the control frames. It never panics, and when
    it succeeds (it fails only when the transport refuses a record) the
    transport carries, after the records before, records
    that every peer accepts (not empty and at most the default record size)
    whose frames, put together, are exactly those that [takeControl] took,
    in order; the connection is left as [takeControl] left it, up to the
    statistics. *)
Theorem flushControl_delivers now :
  exists r e', flushControl now e = Some (r, e') /\ wbuf_ok e' /\ flush_outcome now r e'.
Proof using Hcfg Hreach Hrange Hwbuf Hcarries VL. apply flushControl_ok. Qed.

(** What [writeChunk] did: the stream cannot send; flow control has no credit;
    it sent [n] bytes; or the transport refused the record. *)
Definition chunk_outcome (p : nat) (data : bytes) (n : Z) (err : option error) (e' : endpoint T) : Prop :=
  let s := deref (e_conn e) p in
  (exists x, n = 0 /\ err = Some x /\ e' = e /\ sendErrLocked p (e_conn e) = Some x) \/
  (n = 0 /\ err = None /\ e_tr e' = e_tr e /\ e_conn e' = (reserve p (zlen data) (e_conn e)).2 /\
    s_sendOffset (deref (e_conn e') p) = s_sendOffset s /\
    (data = [] \/ s_sendOffset s = s_sendMax s \/ c_sent (e_conn e) = c_sendMax (e_conn e))) \/
  (0 < n <= Z.min (zlen data) maxStreamData /\ err = None /\
    s_sendOffset s + n <= s_sendMax s /\ c_sent (e_conn e) + n <= c_sendMax (e_conn e) /\
    stats_only (reserve p (zlen data) (e_conn e)).2 (e_conn e') /\
    s_sendOffset (deref (e_conn e') p) = s_sendOffset s + n /\
    exists b, carries (e_tr e') (rs ++ [b]) /\
      record_of DefaultMaxRecordSize [Stream (s_id s) (s_sendOffset s) (ztake n data) false] b) \/
  (exists x, n = 0 /\ err = Some (ErrWriteTransport x) /\ gave_up (e_tr e) x e').

Lemma writeChunk_ok now p data :
  holds_send (e_conn e) p -> zlen data < 2 ^ 63 ->
  exists n err e', writeChunk now p data e = Some (n, err, e') /\ wbuf_ok e' /\ chunk_outcome p data n err e'.
Proof using Hcfg Hreach Hrange Hwbuf Hcarries VL.
  intros Hh Hd. unfold chunk_outcome. cbv zeta. pose proof (reach_all _ _ _ Hcfg Hreach) as H. pose proof (ai_flow _ H) as Hf.
  assert (Hp : ptr (e_conn e) p) by apply Hh. pose proof (id_varint _ p (ai_ids _ H) Hp) as Hid.
  unfold writeChunk. destruct (reserve p (zlen data) (e_conn e)) as [r c1] eqn:E.
  assert (H1 : all_inv c1).
  { apply (all_after (OpReserve p (zlen data)) (e_conn e)); try done; [split; [done|lia]|]. simpl. by rewrite E. }
  destruct r as [[off n]|x].
  - destruct (reserve_spec p (zlen data) off n (e_conn e) c1 Hf Hp ltac:(lia) E) as (-> & Hn & Ho & Hm & _ & Hs & Hz).
    destruct (Z.eqb_spec n 0) as [->|Hne].
    + exists 0, None, (set_conn c1 e). split_and!; try done. right; left. split_and!; try done.
      * simpl. by rewrite Ho, Z.add_0_r.
      * destruct (Hz eq_refl) as [Hl|Hl]; [left|right; done]. by destruct data.
    + assert (Hlen : zlen (ztake n data) = n) by (rewrite length_take; lia).
      pose proof (so_send _ _ (fl_stream _ Hf p Hp)). pose proof (so_sendMax _ _ (fl_stream _ Hf p Hp)).
      unfold maxStreamData, DefaultMaxRecordSize, StreamOverhead in Hn.
      destruct (writeFrame_ok now (Stream (s_id (deref (e_conn e) p)) (s_sendOffset (deref (e_conn e) p)) (ztake n data) false) (set_conn c1 e) rs)
        as (r & e' & -> & W & S & C & R); try done.
      { simpl. unfold is_varint in *. rewrite Hlen. lia. }
      { unfold frame_bound. rewrite Hlen. unfold StreamOverhead. lia. }
      simpl. destruct r as [err|].
      * destruct (abort_gave_up (e_tr e) err e') as [Hx Hx'].
        { eapply stats_life; [exact S|]. apply H1. }
        { rewrite (stats_closeErr _ _ S). simpl. rewrite (ends_closeErr p (e_conn e) c1).
          - unfold reserve, sendErrLocked in E. by destruct (c_closeErr (e_conn e)).
          - pose proof (ends_reserve p (zlen data) (e_conn e)) as He. by rewrite E in He. }
        { by apply R. }
        do 3 eexists. split; [reflexivity|]. split; [by apply abort_wbuf|]. right; right; right. exists err. by rewrite Hx.
      * destruct (C eq_refl) as (b & Hb & Hr1 & Hr2). do 3 eexists. split; [reflexivity|]. split; [done|].
        right; right; left. split_and!; try done; try lia; [unfold maxStreamData, DefaultMaxRecordSize, StreamOverhead; lia|..].
        -- rewrite (stats_deref _ _ p S). exact Ho.
        -- exists b. split; [done|]. split; [|done]. unfold frame_bound, StreamOverhead in Hr1. rewrite Hlen in Hr1.
           unfold DefaultMaxRecordSize. lia.
  - unfold reserve in E. destruct (sendErrLocked p (e_conn e)) as [y|] eqn:Ey; [|done]. injection E as -> <-.
    exists 0, (Some x), e. split; [by destruct e|]. split; [done|]. left. by exists x.
Qed.

(** One chunk of a [Write]. It never panics. It sends at most what was
    asked for and what flow control allows, as one STREAM frame in a record
    of its own, at the stream's current offset; the stream advances by
    exactly what was sent. It sends nothing when the stream cannot send, and
    says why, or when a limit is reached. When the transport refuses the
    record, and only then, the connection ends with the error that is
    returned, and the transport is closed. *)
Theorem writeChunk_exact now p data :
  holds_send (e_conn e) p -> zlen data < 2 ^ 63 ->
  exists n err e', writeChunk now p data e = Some (n, err, e') /\ wbuf_ok e' /\ chunk_outcome p data n err e'.
Proof using Hcfg Hreach Hrange Hwbuf Hcarries VL. apply writeChunk_ok. Qed.

(** What [closeSend] did: the connection has ended; the stream has ended; it
    sent the FIN; or the transport refused the record. *)
Definition close_outcome (p : nat) (err : option error) (e' : endpoint T) : Prop :=
  let s := deref (e_conn e) p in
  (exists x, err = Some x /\ e' = e /\ c_closeErr (e_conn e) = Some x) \/
  (err = None /\ e' = e /\ ended s = true) \/
  (err = None /\ ended s = false /\ c_closeErr (e_conn e) = None /\
    stats_only (finish p (e_conn e)).2 (e_conn e') /\ ended (deref (e_conn e') p) = true /\
    exists b, carries (e_tr e') (rs ++ [b]) /\
      record_of DefaultMaxRecordSize [Stream (s_id s) (s_sendOffset s) [] true] b) \/
  (exists x, err = Some (ErrWriteTransport x) /\ gave_up (e_tr e) x e').

Lemma closeSend_ok now p :
  holds_send (e_conn e) p ->
  exists err e', closeSend now p e = Some (err, e') /\ wbuf_ok e' /\ close_outcome p err e'.
Proof using Hcfg Hreach Hrange Hwbuf Hcarries VL.
  intros Hh. unfold close_outcome. cbv zeta. pose proof (reach_all _ _ _ Hcfg Hreach) as H. pose proof (ai_flow _ H) as Hf.
  assert (Hp : ptr (e_conn e) p) by apply Hh. pose proof (id_varint _ p (ai_ids _ H) Hp) as Hid.
  unfold closeSend. destruct (finish p (e_conn e)) as [r c1] eqn:E.
  assert (H1 : all_inv c1).
  { apply (all_after (OpFinish p) (e_conn e)); try done. simpl. by rewrite E. }
  destruct r as [[fs|]|x].
  - destruct (finish_result _ _ _ _ Hf Hp E) as [Efs Hend].
    pose proof (moved_offset _ _ _ (moved_finish p p (e_conn e) Hf Hp)) as Ho. rewrite E in Ho. simpl in Ho.
    rewrite Ho in Efs. subst fs.
    pose proof (so_send _ _ (fl_stream _ Hf p Hp)). pose proof (so_sendMax _ _ (fl_stream _ Hf p Hp)).
    destruct (writeFrame_ok now (Stream (s_id (deref (e_conn e) p)) (s_sendOffset (deref (e_conn e) p)) [] true) (set_conn c1 e) rs)
      as (r & e' & Hw & W & S & C & R); try done.
    { unfold frame_ok, is_varint in *. simpl. lia. }
    rewrite Hw. simpl. destruct r as [err|].
    + destruct (abort_gave_up (e_tr e) err e') as [Hx Hx'].
      { eapply stats_life; [exact S|]. apply H1. }
      { rewrite (stats_closeErr _ _ S). simpl. rewrite (ends_closeErr p (e_conn e) c1).
        - unfold finish in E. by destruct (c_closeErr (e_conn e)).
        - pose proof (ends_finish p (e_conn e)) as He. by rewrite E in He. }
      { by apply R. }
      do 2 eexists. split; [reflexivity|]. split; [by apply abort_wbuf|]. right; right; right. exists err. by rewrite Hx.
    + destruct (C eq_refl) as (b & Hb & Hr1 & Hr2). do 2 eexists. split; [reflexivity|]. split; [done|].
      right; right; left. unfold finish in E. destruct (c_closeErr (e_conn e)) eqn:Ec; [done|].
      destruct (s_finSent (deref (e_conn e) p) || bool_decide (s_sendErr (deref (e_conn e) p) <> None)) eqn:Ee; [done|].
      split_and!; try done.
      * by rewrite (stats_deref _ _ p S).
      * exists b. split; [done|]. split; [|done]. unfold frame_bound, StreamOverhead in Hr1.
        unfold DefaultMaxRecordSize. simpl in Hr1. lia.
  - unfold finish in E. destruct (c_closeErr (e_conn e)) eqn:Ec; [done|].
    destruct (s_finSent (deref (e_conn e) p) || bool_decide (s_sendErr (deref (e_conn e) p) <> None)) eqn:Ee;
      [injection E as <-|done].
    exists None, e. split; [by destruct e|]. split; [done|]. right; left. by split_and!.
  - unfold finish in E. destruct (c_closeErr (e_conn e)) as [y|] eqn:Ec.
    + injection E as -> <-. exists (Some x), e. split; [by destruct e|]. split; [done|]. left. by exists x.
    + by destruct (s_finSent (deref (e_conn e) p) || bool_decide (s_sendErr (deref (e_conn e) p) <> None)).
Qed.

(** Closing a stream for sending. It never panics. The first time, on a
    stream that was not reset, it sends one STREAM frame with the FIN bit,
    without data, at the number of bytes sent: the final size. It does
    nothing when the stream has ended, and fails when the connection has, or
    when the transport refuses the record, which ends the connection. *)
Theorem closeSend_exact now p :
  holds_send (e_conn e) p ->
  exists err e', closeSend now p e = Some (err, e') /\ wbuf_ok e' /\ close_outcome p err e'.
Proof using Hcfg Hreach Hrange Hwbuf Hcarries VL. apply closeSend_ok. Qed.

(** A code that QUIC cannot express makes it panic. *)
Lemma CloseWithError_panics now code msg :
  2 ^ 62 <= code -> c_closeErr (e_conn e) = None -> CloseWithError now code msg e = None.
Proof using VL.
  intros Hc Ho. unfold CloseWithError, closeGracefully, terminate. rewrite Ho. cbn [negb].
  unfold writeFramesLocked, append_frames, Append, ConnectionClose_Append.
  by rewrite append_panics by lia.
Qed.

Lemma CloseWithError_ok now code msg :
  is_varint code -> c_closeErr (e_conn e) = None ->
  exists e' reason, CloseWithError now code msg e = Some e' /\
    reason `prefix_of` msg /\ (zlen msg <= maxReasonLength -> reason = msg) /\
    closed_with (now + closeTimeout) (ErrApplication false code reason) (ConnectionClose true code 0 reason) rs (e_tr e) e' /\
    (forall now' code' msg', CloseWithError now' code' msg' e' = Some e') /\
    (forall now', (takeControl now' (e_conn e')).1 = []).
Proof using Hwbuf Hcarries VL.
  intros Hcode Hc. destruct (reason_bound msg) as [Hpre Hlen]. unfold CloseWithError.
  set (reason := ztake _ msg) in *. destruct (close_frame_ok true code reason Hcode Hlen) as [Hf Hb].
  destruct (closeGracefully_ok now (ErrApplication false code reason) _ e rs Hc Hf Hb Hwbuf Hcarries) as (e' & -> & He').
  exists e', reason. split_and!; try done.
  - intros Hm. unfold reason. rewrite Z.min_l by done. rewrite Nat2Z.id. apply take_ge. done.
  - intros now' code' msg'. apply closeGracefully_closed. destruct He' as [-> _]. done.
  - intros now'. destruct He' as [Hx _]. unfold takeControl. by rewrite Hx.
Qed.

(** Closing the connection. [CloseWithError] (and [Close], with code 0)
    ends the connection with its code and a reason that is cut to what fits
    a record; the CONNECTION_CLOSE frame with both is the last record, and
    closing again, or with another code, does nothing. *)
Theorem CloseWithError_exact now code msg :
  is_varint code -> c_closeErr (e_conn e) = None ->
  exists e' reason, CloseWithError now code msg e = Some e' /\
    reason `prefix_of` msg /\ (zlen msg <= maxReasonLength -> reason = msg) /\
    closed_with (now + closeTimeout) (ErrApplication false code reason) (ConnectionClose true code 0 reason) rs (e_tr e) e' /\
    (forall now' code' msg', CloseWithError now' code' msg' e' = Some e') /\
    (forall now', (takeControl now' (e_conn e')).1 = []).
Proof using Hwbuf Hcarries VL. apply CloseWithError_ok. Qed.

Lemma read_step_ok now rec rest :
  delivers (e_tr e) (rec :: rest) -> zlen rec < 2 ^ 62 -> c_closeErr (e_conn e) = None ->
  exists go e', read_step now e = Some (go, e') /\
    if max_record (e_tr e) <? zlen rec then
      go = true /\ exists reason, closed_with (now + closeTimeout) (ErrTransport false FrameEncodingError 0 reason)
        (ConnectionClose false FrameEncodingError 0 reason) rs (readRecord (e_tr e)).2 e'
    else match handleRecord now rec (record_received now (zlen rec) (e_conn e)) with
      | (None, c') => go = true /\ e_conn e' = c' /\ delivers (e_tr e') rest /\ carries (e_tr e') rs /\ wbuf_ok e'
      | (Some (ErrWire w), _) =>
          go = true /\ exists reason, closed_with (now + closeTimeout) (ErrTransport false (err_Code w) 0 reason)
            (ConnectionClose false (err_Code w) 0 reason) rs (readRecord (e_tr e)).2 e'
      | (Some err, _) => go = false /\ c_closeErr (e_conn e') = Some err /\ exists t, e_tr e' = close t
      end.
Proof using Hwbuf Hcarries VL.
  intros Hd Hl Hc. destruct (read_delivers _ _ _ Hd Hl) as (t & Ht & _ & Hr).
  assert (Hct : carries t rs) by (by eapply read_carries). unfold read_step. rewrite Hr.
  assert (Hclose : forall w c, is_varint (err_Code w) -> c_closeErr c = None ->
    exists e' reason, closeWithTransportError now w (set_conn c (set_tr t e)) = Some e' /\
      closed_with (now + closeTimeout) (ErrTransport false (err_Code w) 0 reason)
        (ConnectionClose false (err_Code w) 0 reason) rs t e').
  { intros w c Hcode Hc'. destruct (reason_bound (err_Reason w)) as [_ Hlen]. unfold closeWithTransportError.
    set (reason := ztake _ (err_Reason w)) in *. destruct (close_frame_ok false _ reason Hcode Hlen) as [Hf Hb].
    destruct (closeGracefully_ok now (ErrTransport false (err_Code w) 0 reason) _ (set_conn c (set_tr t e)) rs Hc' Hf Hb Hwbuf Hct)
      as (e' & -> & He'). by exists e', reason. }
  destruct (max_record (e_tr e) <? zlen rec).
  { unfold recordTooLarge. set (w := mkError _ _).
    destruct (Hclose w (e_conn e)) as (e' & reason & He & Hx); [done|done|].
    change (set_conn (e_conn e) (set_tr t e)) with (set_tr t e) in He.
    rewrite He. exists true, e'. split; [done|]. split; [done|]. by exists reason. }
  set (c0 := record_received now (zlen rec) (e_conn e)). cbn [e_conn set_tr].
  pose proof (record_error now (S (length rec)) rec c0) as Her.
  pose proof (record_closeErr now (S (length rec)) rec c0) as Hcl. unfold handleRecord. fold c0.
  destruct (record_loop (S (length rec)) now rec c0) as [[err|] c1]; simpl in Her, Hcl.
  - destruct err; try (do 2 eexists; split; [reflexivity|]; split; [done|];
      unfold abort; cbn [e_conn set_conn];
      match goal with |- context [terminate ?x c1] => destruct (terminate_open x c1) as (c2 & -> & Hc2); [by rewrite Hcl|] end;
      split; [done|by eexists]).
    destruct (Hclose e0 c1 Her) as (e' & reason & He & Hx); [by rewrite Hcl|].
    rewrite He. exists true, e'. split; [done|]. split; [done|]. by exists reason.
  - do 2 eexists. split; [reflexivity|]. by split_and!.
Qed.

(** One record of the peer. The read loop never panics. A record that is
    larger than the limit closes the connection with FRAME_ENCODING_ERROR,
    whatever it holds. Otherwise its frames are handled; when all of them
    are in order, the loop goes on with the next record; when one violates the
    protocol, the connection closes with a CONNECTION_CLOSE frame that
    carries the code of the violation; and when it is the peer's own
    CONNECTION_CLOSE, the connection ends with its code and the transport is
    closed, without an answer. *)
Theorem read_step_exact now rec rest :
  delivers (e_tr e) (rec :: rest) -> zlen rec < 2 ^ 62 -> c_closeErr (e_conn e) = None ->
  exists go e', read_step now e = Some (go, e') /\
    if max_record (e_tr e) <? zlen rec then
      go = true /\ exists reason, closed_with (now + closeTimeout) (ErrTransport false FrameEncodingError 0 reason)
        (ConnectionClose false FrameEncodingError 0 reason) rs (readRecord (e_tr e)).2 e'
    else match handleRecord now rec (record_received now (zlen rec) (e_conn e)) with
      | (None, c') => go = true /\ e_conn e' = c' /\ delivers (e_tr e') rest /\ carries (e_tr e') rs /\ wbuf_ok e'
      | (Some (ErrWire w), _) =>
          go = true /\ exists reason, closed_with (now + closeTimeout) (ErrTransport false (err_Code w) 0 reason)
            (ConnectionClose false (err_Code w) 0 reason) rs (readRecord (e_tr e)).2 e'
      | (Some err, _) => go = false /\ c_closeErr (e_conn e') = Some err /\ exists t, e_tr e' = close t
      end.
Proof using Hwbuf Hcarries VL. apply read_step_ok. Qed.

(** What [SendDatagram] did: the peer accepts none; it is too large; the
    connection has ended; the transport refused the record; or it was sent. *)
Definition datagram_outcome (data : bytes) (r : option error) (e' : endpoint T) : Prop :=
  let limit := Z.min (MaxDatagramFrameSize (c_peer (e_conn e))) (MaxRecordSize (c_peer (e_conn e))) in
  let size := 1 + varint_size (zlen data) + zlen data in
  (limit = 0 /\ r = Some ErrDatagramsNotSupported /\ e' = e) \/
  (0 < limit < size /\ (exists n, r = Some (ErrDatagramTooLarge n)) /\ e' = e) \/
  (0 < size <= limit /\ e' = e /\ exists x, r = Some x /\ c_closeErr (e_conn e) = Some x) \/
  (0 < size <= limit /\ c_closeErr (e_conn e) = None /\
    exists x, r = Some (ErrWriteTransport x) /\ gave_up (e_tr e) x e') \/
  (0 < size <= limit /\ r = None /\ c_closeErr (e_conn e) = None /\ stats_only (e_conn e) (e_conn e') /\
    exists b, carries (e_tr e') (rs ++ [b]) /\ record_of limit [Datagram data] b).

Lemma SendDatagram_ok now data :
  zlen data < 2 ^ 60 ->
  exists r e', SendDatagram now data e = Some (r, e') /\ wbuf_ok e' /\ datagram_outcome data r e'.
Proof using Hcfg Hreach Hwbuf Hcarries VL.
  intros Hd. unfold datagram_outcome. set (limit := Z.min _ _). set (size := 1 + _ + _). cbv zeta. pose proof (reach_life _ _ _ Hcfg Hreach) as Hl.
  pose proof (fl_peer _ (reach_flow _ _ _ Hcfg Hreach)) as Hpv. apply params_varint_fields in Hpv.
  pose proof (varint_size_range (zlen data)) as Hvs.
  assert (Hlim : is_varint limit) by (unfold limit, is_varint in *; lia).
  unfold SendDatagram, datagramLimit. fold limit.
  destruct (Z.eqb_spec limit 0) as [E0|E0]; [exists (Some ErrDatagramsNotSupported), e; auto 6|].
  assert (Hlen : Datagram_Len data = Some size).
  { unfold Datagram_Len. rewrite len_size by (unfold is_varint; lia). done. }
  rewrite Hlen. simpl. destruct (Z.ltb_spec limit size) as [Hlt|Hge].
  { rewrite len_size by done. simpl. eexists _, e. split; [reflexivity|]. split; [done|]. right; left.
    split_and!; try done; [unfold is_varint in *; lia|by eexists]. }
  unfold cause. rewrite (lf_cause _ Hl). destruct (c_closeErr (e_conn e)) as [x|] eqn:Hc.
  { exists (Some x), e. split; [done|]. split; [done|]. right; right; left. split; [lia|]. split; [done|]. by exists x. }
  destruct (writeFrame_ok now (Datagram data) e rs) as (r & e' & Hr & W & S & C & R); try done.
  { unfold frame_ok, is_varint. lia. }
  { unfold frame_bound. lia. }
  rewrite Hr. simpl. destruct r as [err|].
  - destruct (abort_gave_up (e_tr e) err e') as [Hx Hx'];
      [by eapply stats_life|by rewrite (stats_closeErr _ _ S)|by apply R|].
    do 2 eexists. split; [reflexivity|]. split; [by apply abort_wbuf|]. right; right; right; left. split_and!; [lia|lia|done|].
    exists err. unfold cause in Hx. by rewrite Hx.
  - destruct (C eq_refl) as (b & Hb & Hb1 & Hb2). do 2 eexists. split; [reflexivity|]. split; [done|].
    right; right; right; right. split_and!; try done; try lia. exists b. split; [done|]. split; [|done].
    unfold frame_bound in Hb1. lia.
Qed.

(** C34: sending a datagram. It never panics, whatever the length of the data.
    It fails when the peer accepts no datagrams, and when the frame would be
    larger than what the peer accepts, and sends nothing then; otherwise the
    data goes out whole, as one DATAGRAM frame in a record of its own that is
    within both of the peer's limits, or the connection has ended and its
    error is returned, or the transport refuses the record and the connection
    ends. *)
Theorem SendDatagram_exact now data :
  zlen data < 2 ^ 60 ->
  exists r e', SendDatagram now data e = Some (r, e') /\ wbuf_ok e' /\ datagram_outcome data r e'.
Proof using Hcfg Hreach Hwbuf Hcarries VL. apply SendDatagram_ok. Qed.

(** The first record of a connection. [sendParameters] never panics, and
    when the write succeeds the peer parses exactly one frame from it, the
    transport parameters that stand for the configuration. *)
Theorem sendParameters_exact now :
  exists r e', sendParameters now e = Some (r, e') /\ wbuf_ok e' /\ stats_only (e_conn e) (e_conn e') /\
    (r = None -> exists b, carries (e_tr e') (rs ++ [b]) /\
      record_of DefaultMaxRecordSize [TransportParameters (localParameters (c_config (e_conn e)))] b).
Proof using Hcfg Hreach Hwbuf Hcarries VL.
  pose proof (id_cfg _ (reach_ids _ _ _ Hcfg Hreach)) as Hok.
  destruct (writeFrame_ok now (TransportParameters (localParameters (c_config (e_conn e)))) e rs)
    as (r & e' & Hr & W & S & C & _); try done; [by apply localParameters_sendable|].
  exists r, e'. split_and!; try done. intros E. destruct (C E) as (b & Hb & Hb1 & Hb2). exists b. split; [done|].
  split; [|done]. unfold frame_bound, DefaultMaxRecordSize in *. lia.
Qed.

(** The idle timer is exact. At any time after the last activity, the timer
    closes the connection when the timeout has passed since then, without a
    frame; it sleeps exactly until that moment otherwise, and forever when
    there is no timeout. *)
Theorem idle_timeout_exact now :
  let timeout := c_idleTimeout (e_conn e) in
  let last := c_lastActivity (e_conn e) in
  c_closeErr (e_conn e) = None -> is_i64 timeout -> 0 <= now - last < 2 ^ 63 ->
  exists r, idle_step now e = Some r /\
    match r with
    | inr e' => 0 < timeout /\ last + timeout <= now /\ c_closeErr (e_conn e') = Some ErrIdleTimeout /\
        carries (e_tr e') rs
    | inl (Some d) => 0 < timeout /\ now < last + timeout /\ now + d = last + timeout
    | inl None => timeout <= 0
    end.
Proof using Hcarries.
  intros timeout last Hc Ht Hn. unfold idle_step. fold timeout last.
  destruct (Z.ltb_spec 0 timeout) as [Hpos|]; [|by exists (inl None)].
  assert (E : i64 (timeout - time_sub now last) = timeout - (now - last)).
  { unfold time_sub, is_i64 in *. rewrite i64_id; unfold is_i64; lia. }
  rewrite E. destruct (Z.leb_spec (timeout - (now - last)) 0).
  - unfold closeGracefully. destruct (terminate_open ErrIdleTimeout _ Hc) as (c1 & -> & Hc1). cbn [negb].
    set (t1 := expire (now + closeTimeout) (e_tr e)). simpl.
    assert (H1 : carries t1 rs) by (by apply (shut_carries (e_tr e) rs (now + closeTimeout))).
    destruct (shut_carries t1 rs 0 H1) as (_ & H2 & _). fold t1.
    destruct (closeWrite t1) as [[] t]; simpl in *.
    + eexists. split; [reflexivity|]. split_and!; try done. lia.
    + eexists. split; [reflexivity|]. split_and!; try done; [lia|]. by apply (shut_carries t rs 0).
  - eexists. split; [reflexivity|]. simpl. lia.
Qed.
End reachable.
