(* ===== verification/Refine.v ===== *)
(** The endpoint refines the transition system of [System].

    Whatever a goroutine does to an endpoint (a write, the read loop's handling
    of a record, a flush of the control queue, a close, a timer) is, on the
    state of the connection, a sequence of operations of [System], each of them
    valid where it runs. So the invariants and the theorems about every
    reachable state of a connection hold for the connection of an endpoint. *)

From S2P Require Import Prelude Varint Params Frame WriteLock Config State Core Stream Conn Transport Endpoint System Facts Ids Table Flow Life Control Wake Wire LifeTheorems History FrameTheorems EndpointTheorems Scenario.

(** * Runs of operations *)

Section runs.
Context {GA : GoAppend}.

Inductive runs : list op -> Conn -> Conn -> Prop :=
| runs_nil c : runs [] c c
| runs_cons o os c c' : valid o c -> runs os (exec o c) c' -> runs (o :: os) c c'.

(** The connection stays within the numbers of the protocol. *)
Fixpoint in_range_along (os : list op) (c : Conn) : Prop :=
  match os with
  | [] => True
  | o :: os => in_range c /\ in_range_along os (exec o c)
  end.

Lemma runs_app os1 os2 c1 c2 c3 : runs os1 c1 c2 -> runs os2 c2 c3 -> runs (os1 ++ os2) c1 c3.
Proof. induction 1; [done|]. intros. simpl. constructor; auto. Qed.

Lemma runs_one o c : valid o c -> runs [o] c (exec o c).
Proof. intros. constructor; [done|constructor]. Qed.

Lemma runs_reach cfg isServer os c c' :
  runs os c c' -> in_range_along os c -> reach cfg isServer c -> reach cfg isServer c'.
Proof. induction 1 as [|o os c c' Hv Hr IH]; [done|]. intros [H1 H2] H. apply IH; [done|]. by constructor. Qed.
End runs.

Section endpoint.
Context {V : QuicVarint} {VL : QuicVarintLaws V} {GA : GoAppend} {T : Type} {RT : RecordTransport T}.
Implicit Types (e : endpoint T).

Abbreviation can_run c c' := (exists os, runs os c c').

Lemma can_refl c : can_run c c.
Proof. exists []. constructor. Qed.

Lemma can_trans c1 c2 c3 : can_run c1 c2 -> can_run c2 c3 -> can_run c1 c3.
Proof. intros [os1 H1] [os2 H2]. exists (os1 ++ os2). by eapply runs_app. Qed.

Lemma can_exec o c : valid o c -> can_run c (exec o c).
Proof. intros H. exists [o]. by apply runs_one. Qed.

Lemma run_writeRecord now buf e r e' :
  writeRecordLocked now buf e = Some (r, e') -> can_run (e_conn e) (e_conn e').
Proof.
  unfold writeRecordLocked. destruct (writeRecord buf _) as [[[n|x] t]|]; simpl; [..|done]; intros [= <- <-].
  - apply (can_exec (OpSent now n)). done.
  - apply can_refl.
Qed.

Lemma run_writeFrames now fs e r e' :
  writeFramesLocked now fs e = Some (r, e') -> can_run (e_conn e) (e_conn e').
Proof.
  unfold writeFramesLocked. destruct (append_frames _ _) as [buf|]; [|done]. simpl. apply run_writeRecord.
Qed.

Lemma run_terminate err c : can_run c (terminate err c).2.
Proof. by apply (can_exec (OpTerminate err)). Qed.

Lemma run_abort err e : can_run (e_conn e) (e_conn (abort err e)).
Proof.
  unfold abort. pose proof (run_terminate err (e_conn e)) as H.
  by destruct (terminate err (e_conn e)) as [[] c'].
Qed.

Lemma run_closeGracefully now err fr e e' :
  closeGracefully now err fr e = Some e' -> can_run (e_conn e) (e_conn e').
Proof.
  unfold closeGracefully. pose proof (run_terminate err (e_conn e)) as H.
  destruct (terminate err (e_conn e)) as [[] c']; simpl in H; [|by intros [= <-]]. cbn [negb].
  set (e1 := set_forced _ _). change c' with (e_conn e1) in H. clearbody e1. intros E. 
  assert (Hw : exists r e2, can_run (e_conn e1) (e_conn e2) /\
    (match fr with Some f => writeFramesLocked now [f] e1 | None => Some (None, e1) end) = Some (r, e2)).
  { destruct fr as [f|]; [|do 2 eexists; split; [apply can_refl|done]].
    destruct (writeFramesLocked now [f] e1) as [[r e2]|] eqn:Ew; [|done].
    do 2 eexists. split; [by eapply run_writeFrames|done]. }
  destruct Hw as (r & e2 & Hr & Ew). rewrite Ew in E. simpl in E. eapply can_trans; [exact H|].
  destruct r as [x|]; [by injection E as <-|]. destruct (closeWrite (e_tr e2)) as [[] t]; by injection E as <-.
Qed.

Lemma run_flush_loop now fs buf e r e' :
  flush_loop now fs buf e = Some (r, e') -> can_run (e_conn e) (e_conn e').
Proof.
  revert buf e. induction fs as [|f fs IH]; intros buf e; simpl.
  - destruct (_ =? _); [intros [= <- <-]; apply can_refl|apply run_writeRecord].
  - destruct (Append f buf) as [buf'|]; [|done]. simpl. destruct (full <? _); [|apply IH].
    destruct (writeRecordLocked now buf' e) as [[[x|] e1]|] eqn:E; [..|done]; simpl.
    + intros [= <- <-]. by eapply run_writeRecord.
    + intros H. eapply can_trans; [by eapply run_writeRecord|by eapply IH].
Qed.

Lemma run_flushControl now e r e' :
  flushControl now e = Some (r, e') -> can_run (e_conn e) (e_conn e').
Proof.
  unfold flushControl. pose proof (can_exec (OpTakeControl now) (e_conn e) I) as H. simpl in H.
  destruct (takeControl now (e_conn e)) as [fs c]. intros E. eapply can_trans; [exact H|]. by apply run_flush_loop in E.
Qed.

(** A write that gives up on the connection when it fails. *)
Lemma run_write_or_abort {A} now fs e (k : option error -> endpoint T -> option A) (conn : A -> Conn) x :
  (r ← writeFramesLocked now fs e;
   match r with
   | (Some err, e) => k (Some err) (abort (ErrWriteTransport err) e)
   | (None, e) => k None e
   end) = Some x ->
  (forall r e2 y, k r e2 = Some y -> conn y = e_conn e2) -> can_run (e_conn e) (conn x).
Proof.
  intros E Hk. destruct (writeFramesLocked now fs e) as [[[err|] e1]|] eqn:Ew; [..|done]; simpl in E;
    rewrite (Hk _ _ _ E); apply run_writeFrames in Ew; [|done]. eapply can_trans; [exact Ew|apply run_abort].
Qed.

Lemma run_writeChunk now p data e n err e' :
  holds_send (e_conn e) p -> zlen data < 2 ^ 63 ->
  writeChunk now p data e = Some (n, err, e') -> can_run (e_conn e) (e_conn e').
Proof.
  intros Hh Hd. unfold writeChunk.
  assert (Hv : valid (OpReserve p (zlen data)) (e_conn e)) by (split; [done|lia]).
  pose proof (can_exec _ _ Hv) as H. simpl in H.
  destruct (reserve p (zlen data) (e_conn e)) as [[[off k]|x] c1]; simpl in H; [|by intros [= <- <- <-]].
  destruct (k =? 0); [by intros [= <- <- <-]|]. intros E. eapply can_trans; [exact H|].
  apply (run_write_or_abort now _ (set_conn c1 e)
    (fun r e => match r with Some _ => Some (0, cause e, e) | None => Some (k, None, e) end) (fun y => e_conn y.2)
    (n, err, e') E).
  intros [x|] e2 y [= <-]; done.
Qed.

Lemma run_closeSend now p e err e' :
  holds_send (e_conn e) p -> closeSend now p e = Some (err, e') -> can_run (e_conn e) (e_conn e').
Proof.
  intros Hh. unfold closeSend. pose proof (can_exec (OpFinish p) (e_conn e) Hh) as H. simpl in H.
  destruct (finish p (e_conn e)) as [[[fs|]|x] c1]; simpl in H; [|by intros [= <- <-]..].
  intros E. eapply can_trans; [exact H|].
  apply (run_write_or_abort now _ (set_conn c1 e)
    (fun r e => match r with Some _ => Some (cause e, e) | None => Some (None, e) end) (fun y => e_conn y.2) (err, e') E).
  intros [x|] e2 y [= <-]; done.
Qed.

Lemma run_SendDatagram now data e r e' :
  SendDatagram now data e = Some (r, e') -> can_run (e_conn e) (e_conn e').
Proof.
  unfold SendDatagram. destruct (_ =? _); [intros [= <- <-]; apply can_refl|].
  destruct (Datagram_Len data) as [len|]; [|done]. simpl. destruct (_ <? _).
  { destruct (varint_len _); [|done]. simpl. intros [= <- <-]. apply can_refl. }
  destruct (cause e); [intros [= <- <-]; apply can_refl|]. intros E.
  apply (run_write_or_abort now _ e
    (fun r e => match r with Some _ => Some (cause e, e) | None => Some (None, e) end) (fun y => e_conn y.2) (r, e') E).
  intros [x|] e2 y [= <-]; done.
Qed.

(** The frames of a record are the operations that [handleRecord] runs. *)
Lemma run_record now fuel rec c :
  zlen rec < 2 ^ 62 -> can_run c (record_loop fuel now rec c).2.
Proof.
  revert rec c. induction fuel as [|fuel IH]; intros rec c Hl; [apply can_refl|]. simpl.
  destruct (_ && _) eqn:Eb; [|apply can_refl]. apply andb_true_iff in Eb as [_ Hc%bool_decide_eq_true].
  destruct (Parse rec) as [|f rest|err] eqn:Ep; [apply can_refl| |apply can_refl].
  destruct (Parse_inv _ _ _ Ep) as (Hf & d & Hrec & Hd & Hfd).
  assert (Hv : valid (OpFrame now f) c).
  { split_and!; try done. unfold is_varint. lia. }
  pose proof (can_exec _ _ Hv) as H. simpl in H.
  destruct (handleFrameLocked now f c) as [[x|] c1]; [exact H|]. eapply can_trans; [exact H|]. apply IH.
  rewrite Hrec, length_app in Hl. lia.
Qed.

Lemma run_closeTransport now w e e' :
  closeWithTransportError now w e = Some e' -> can_run (e_conn e) (e_conn e').
Proof. apply run_closeGracefully. Qed.

Lemma run_read_step now e go e' :
  (forall rec t, readRecord (e_tr e) = (inl rec, t) -> zlen rec < 2 ^ 62) ->
  read_step now e = Some (go, e') -> can_run (e_conn e) (e_conn e').
Proof.
  intros Hl. unfold read_step. destruct (readRecord (e_tr e)) as [[rec|err] t]; simpl.
  - specialize (Hl rec t eq_refl). set (c0 := record_received now (zlen rec) (e_conn e)).
    assert (H0 : can_run (e_conn e) c0) by (by apply (can_exec (OpReceived now (zlen rec)))).
    pose proof (run_record now (S (length rec)) rec c0 Hl) as H1. unfold handleRecord.
    destruct (record_loop (S (length rec)) now rec c0) as [r c1]. simpl in H1.
    assert (H : can_run (e_conn e) c1) by (by eapply can_trans). clear H0 H1.
    destruct r as [err|]; [|by intros [= <- <-]].
    destruct err; try (intros [= <- <-]; eapply can_trans; [exact H|]; apply (run_abort _ (set_conn c1 (set_tr t e)))).
    destruct (closeWithTransportError now e0 _) as [e1|] eqn:Ec; [|done]. simpl. intros [= <- <-].
    eapply can_trans; [exact H|]. by apply run_closeTransport in Ec.
  - destruct err; try (intros [= <- <-]; apply (run_abort _ (set_tr t e))).
    destruct (closeWithTransportError now e0 _) as [e1|] eqn:Ec; [|done]. simpl. intros [= <- <-].
    by apply run_closeTransport in Ec.
Qed.

Lemma run_write_step now e go e' :
  write_step now e = Some (go, e') -> can_run (e_conn e) (e_conn e').
Proof.
  unfold write_step. set (e1 := set_conn (take_wake (e_conn e)) e).
  assert (H : can_run (e_conn e) (e_conn e1)) by (by apply (can_exec OpWoken)).
  destruct (flushControl now e1) as [[[err|] e2]|] eqn:E; [..|done]; simpl; apply run_flushControl in E;
    intros [= <- <-]; (eapply can_trans; [exact H|]); [|done]. eapply can_trans; [exact E|apply run_abort].
Qed.

(** * The steps of an endpoint *)

(** What the goroutines of the package and of the application do to an endpoint
    besides critical sections on [Conn.mu] and writing data: operations that
    also use the transport. *)
Inductive ostep (e e' : endpoint T) : Prop :=
| os_start now go : write_start now e = Some (go, e') -> ostep e e'
| os_closeSend now p err : holds_send (e_conn e) p -> closeSend now p e = Some (err, e') -> ostep e e'
| os_datagram now data r : zlen data < 2 ^ 60 -> SendDatagram now data e = Some (r, e') -> ostep e e'
| os_close now code msg : CloseWithError now code msg e = Some e' -> ostep e e'
| os_read now go :
    (forall rec t, readRecord (e_tr e) = (inl rec, t) -> zlen rec < 2 ^ 62) ->
    read_step now e = Some (go, e') -> ostep e e'
| os_write now go : write_step now e = Some (go, e') -> ostep e e'
| os_idle now : idle_step now e = Some (inr e') -> ostep e e'
| os_handshake now : handshake_expired now e = Some e' -> ostep e e'
| os_keepalive now go : keepalive_step now e = Some (go, e') -> ostep e e'
| os_cancelled err : e' = (start_cancelled err e).2 -> ostep e e'
| os_forced now : force_close now e = Some e' -> ostep e e'.

(** Everything that happens to an endpoint: a critical section, one chunk of a
    [Write], or another operation on the transport. *)
Inductive estep (e e' : endpoint T) : Prop :=
| es_locked o : valid o (e_conn e) -> e' = set_conn (exec o (e_conn e)) e -> estep e e'
| es_chunk now p data n err :
    holds_send (e_conn e) p -> zlen data < 2 ^ 63 -> writeChunk now p data e = Some (n, err, e') -> estep e e'
| es_other : ostep e e' -> estep e e'.

Lemma run_write_start now e go e' :
  write_start now e = Some (go, e') -> can_run (e_conn e) (e_conn e').
Proof.
  unfold write_start, sendParameters. destruct (writeFramesLocked _ _ _) as [[[err|] e1]|] eqn:E; [..|done]; simpl;
    apply run_writeFrames in E; intros [= <- <-]; [|done]. eapply can_trans; [exact E|apply run_abort].
Qed.

Lemma run_other e e' : ostep e e' -> can_run (e_conn e) (e_conn e').
Proof.
  intros [now go E|now p err Hh E|now data r _ E|now code msg E|now go Hl E|now go E|now E|now E|now go E|err ->|now E].
  - by apply run_write_start in E.
  - by apply run_closeSend in E.
  - by apply run_SendDatagram in E.
  - by apply run_closeGracefully in E.
  - by apply run_read_step in E.
  - by apply run_write_step in E.
  - unfold idle_step in E. destruct (0 <? _); [|done]. destruct (_ <=? 0); [|done].
    destruct (closeGracefully _ _ _ _) as [e1|] eqn:Ec; [|done]. injection E as <-. by apply run_closeGracefully in Ec.
  - by apply run_closeGracefully in E.
  - unfold keepalive_step in E. pose proof (can_exec (OpRequestPing now) (e_conn e) I) as H. simpl in H.
    destruct (requestPing now (e_conn e)) as [[] c1]; simpl in *; [by injection E as <- <-|].
    destruct (closeGracefully _ _ _ _) as [e1|] eqn:Ec; [|done]. injection E as <- <-.
    apply run_closeGracefully in Ec. by eapply can_trans.
  - apply run_abort.
  - unfold force_close in E. destruct (e_forced e) as [t|]; [|done]. destruct (_ <=? _); [|done]. injection E as <-. apply can_refl.
Qed.

Lemma run_estep e e' : estep e e' -> can_run (e_conn e) (e_conn e').
Proof.
  intros [o Hv ->|now p data n err Hh Hd E|H]; [by apply can_exec|by apply run_writeChunk in E|by apply run_other].
Qed.

(** C12: the endpoint refines the transition system. Every step of an endpoint,
    with all its effects on the state of the connection, is a sequence of the
    system's operations, each valid where it runs; so as long as the numbers
    of the protocol are in range, the connection of an endpoint is in a
    reachable state, and everything proved of those holds for it. *)
Theorem endpoint_refines e e' :
  estep e e' ->
  exists os, runs os (e_conn e) (e_conn e') /\
    forall cfg isServer, in_range_along os (e_conn e) ->
      reach cfg isServer (e_conn e) -> reach cfg isServer (e_conn e').
Proof.
  intros [os Hos]%run_estep. exists os. split; [done|]. intros. by eapply runs_reach.
Qed.
End endpoint.
