(* ===== verification/Closing.v ===== *)
(** The end of a connection, at both ends.

    An endpoint that closes sends its code and reason in the last record, and its
    peer ends with them: the error that every call there returns names the same
    code and reason, as the peer's. *)

From S2P Require Import Prelude Varint Params Frame WriteLock Config State Core Stream Conn System Facts Ids Table Flow Life Control Wake Transport Endpoint Wire LifeTheorems History FrameTheorems EndpointTheorems.

(** The error that a CONNECTION_CLOSE frame means to its receiver. *)
Definition close_error (application : bool) (code ft : Z) (reason : bytes) : error :=
  if application then ErrApplication true code reason else ErrTransport true code ft reason.

Section records.
Context {V : QuicVarint} {GA : GoAppend}.

(** A record that starts with a frame. *)
Lemma record_head b f fs : record_frames b = Some (f :: fs) -> exists rest, Parse b = ParsedFrame f rest.
Proof using Type.
  unfold record_frames. destruct b as [|x b]; [done|]. cbn [length parse_all]. destruct (Parse (x :: b)) as [|g rest|e]; try done.
  destruct (parse_all (length b) rest); [|done]. intros [= -> _]. by exists rest.
Qed.

Lemma handle_close now b application code ft reason c :
  record_frames b = Some [ConnectionClose application code ft reason] -> c_closeErr c = None -> c_ready c = true ->
  handleRecord now b c = (Some (close_error application code ft reason), c).
Proof using Type.
  intros Hb Hc Hr. apply record_head in Hb as Hp. destruct Hp as [rest Hp]. unfold handleRecord. cbn [record_loop].
  assert (Hl : 0 < zlen b) by (destruct b; [done|cbn [length]; lia]). rewrite (proj2 (Z.ltb_lt _ _) Hl), bool_decide_eq_true_2 by done. cbn [andb].
  rewrite Hp. simpl. rewrite Hr. by destruct application.
Qed.
End records.

(** * The peer of an endpoint that closes *)

(** [e] ends with [err]: its read loop stops, the transport is closed, and every
    call, then and whatever happens later, fails with the error. *)
Definition ends_with {T} {V : QuicVarint} {GA : GoAppend} {RT : RecordTransport T} (now : Z) (err : error) (e : endpoint T) : Prop :=
  exists e', read_step now e = Some (false, e') /\ c_closeErr (e_conn e') = Some err /\ (exists t, e_tr e' = close t) /\
    forall c, steps (e_conn e') c -> refuses err c.

Section peer.
Context {V : QuicVarint} {VL : QuicVarintLaws V} {GA : GoAppend} {T : Type} {RT : RecordTransport T} {RTL : RecordTransportLaws T RT}.

(** An endpoint that can read: open, past the handshake, and with a record
    limit of at least the default, as [normalized] makes it. *)
Record listening (e : endpoint T) (next : list bytes) : Prop := {
  ls_delivers : delivers (e_tr e) next;
  ls_limit : DefaultMaxRecordSize <= max_record (e_tr e);
  ls_open : c_closeErr (e_conn e) = None;
  ls_ready : c_ready (e_conn e) = true;
  ls_wbuf : wbuf_ok e;
  ls_carries : exists rs, carries (e_tr e) rs;
}.

Lemma close_arrives now e b rest application code ft reason :
  listening e (b :: rest) -> record_of DefaultMaxRecordSize [ConnectionClose application code ft reason] b ->
  ends_with now (close_error application code (if application then 0 else ft) reason) e.
Proof using VL RTL.
  intros [L1 L2 L3 L4 L5 [rs L6]] [Hlen Hb].
  assert (Hl : zlen b < 2 ^ 62) by (unfold DefaultMaxRecordSize in Hlen; lia).
  destruct (read_step_ok e rs L5 L6 now b rest L1 Hl L3) as (go & e' & E & H).
  destruct (Z.ltb_spec (max_record (e_tr e)) (zlen b)); [lia|].
  assert (Hf : record_frames b = Some [ConnectionClose application code (if application then 0 else ft) reason]).
  { rewrite Hb. by destruct application. }
  rewrite (handle_close now b _ _ _ _ (record_received now (zlen b) (e_conn e)) Hf L3 L4) in H.
  set (err := close_error _ _ _ _) in *.
  assert (H' : go = false /\ c_closeErr (e_conn e') = Some err /\ exists t, e_tr e' = close t) by (subst err; by destruct application).
  destruct H' as (-> & Hc & Ht). exists e'. split_and!; [done|done|done|].
  intros c Hs. apply closed_refuses. by eapply steps_closed_err.
Qed.
End peer.

Section closing.
Context {V : QuicVarint} {VL : QuicVarintLaws V} {GA : GoAppend}.
Context {TA : Type} {RTA : RecordTransport TA} {RTLA : RecordTransportLaws TA RTA}.
Context {TB : Type} {RTB : RecordTransport TB} {RTLB : RecordTransportLaws TB RTB}.
Context (a : endpoint TA) (rs : list bytes) (Hwbuf : wbuf_ok a) (Hcarries : carries (e_tr a) rs).

(** [a'] ended with [err], and its last record, unless the transport refused
    it, makes any peer that reads it next end with [err']. *)
Definition ends_both (err err' : error) (a' : endpoint TA) : Prop :=
  c_closeErr (e_conn a') = Some err /\
  ((exists t x t', refused t x t' /\ e_tr a' = close t') \/
   exists b, carries (e_tr a') (rs ++ [b]) /\
     forall now (peer : endpoint TB) rest, listening peer (b :: rest) -> ends_with now err' peer).

Lemma closed_with_both deadline err application code ft reason t a' :
  closed_with deadline err (ConnectionClose application code ft reason) rs t a' ->
  ends_both err (close_error application code (if application then 0 else ft) reason) a'.
Proof using VL RTLB.
  intros (Hc & _ & D). split; [done|]. destruct D as [(x & t' & Hr & Ht & _)|(b & Hb & Hrec & _)].
  - left. by exists (expire deadline t), x, t'.
  - right. exists b. split; [done|]. intros now peer rest L. by eapply close_arrives.
Qed.

(** C23: closing a connection ends it at both ends, with the same code and
    reason, for the codes that QUIC can express. With a code below 2^62,
    [CloseWithError] ends this endpoint with an application error of its own; a
    peer that reads the record that it wrote last ends with the application error
    of its peer, the same code and the same reason (the message, cut to what fits
    a record); its transport is closed and every call there fails with that error
    from then on. With a larger code, which the type allows, [CloseWithError]
    panics. *)
Theorem close_reaches_peer now code msg :
  0 <= code -> c_closeErr (e_conn a) = None ->
  if code <? 2 ^ 62 then
    exists a' reason, CloseWithError now code msg a = Some a' /\
      reason `prefix_of` msg /\ (zlen msg <= maxReasonLength -> reason = msg) /\
      ends_both (ErrApplication false code reason) (ErrApplication true code reason) a'
  else CloseWithError now code msg a = None.
Proof using VL RTLA RTLB Hwbuf Hcarries.
  intros Hn Hc. destruct (Z.ltb_spec code (2 ^ 62)) as [Hlt|Hge]; [|by apply CloseWithError_panics].
  assert (Hcode : is_varint code) by (unfold is_varint; lia). destruct (CloseWithError_ok a rs Hwbuf Hcarries now code msg Hcode Hc) as (a' & reason & E & H1 & H2 & H3 & _).
  exists a', reason. split_and!; try done. by apply closed_with_both in H3.
Qed.

(** C24: a violation of the protocol ends the connection at both ends, with the
    same error. A record whose frames break a rule ends this endpoint with a
    transport error of its own; the peer that sent it, when it reads the
    answer, ends with the transport error of its peer with the same code and
    reason. *)
Theorem violation_reported now rec rest w :
  delivers (e_tr a) (rec :: rest) -> zlen rec <= max_record (e_tr a) -> zlen rec < 2 ^ 62 -> c_closeErr (e_conn a) = None ->
  (handleRecord now rec (record_received now (zlen rec) (e_conn a))).1 = Some (ErrWire w) ->
  exists a' reason, read_step now a = Some (true, a') /\
    ends_both (ErrTransport false (err_Code w) 0 reason) (ErrTransport true (err_Code w) 0 reason) a'.
Proof using VL RTLA RTLB Hwbuf Hcarries.
  intros Hd Hmax Hl Hc Hw. destruct (read_step_ok a rs Hwbuf Hcarries now rec rest Hd Hl Hc) as (go & a' & E & H).
  destruct (Z.ltb_spec (max_record (e_tr a)) (zlen rec)); [lia|].
  destruct (handleRecord _ _ _) as [err c1]. simpl in Hw. subst err. destruct H as (-> & reason & H).
  exists a', reason. split; [done|]. by apply closed_with_both in H.
Qed.
End closing.
