(* ===== verification/Sender.v ===== *)
(** The sender of a stream, with the data that its writes put on it.

    Only [writeChunk] puts data on a stream: every other step of an endpoint
    sends records without stream data, but for a FIN ([no_data]). So the records
    that the transport of the endpoint carries hold pieces of the data written
    to the stream, each at its offset ([sender_inv]). *)

From S2P Require Import Prelude Varint Params Frame WriteLock Config State Core Stream Conn Transport Endpoint System Facts Ids Table Flow Life Control Wake Wire LifeTheorems History FrameTheorems EndpointTheorems Scenario Refine Grow.

(** * Operations that send no data *)

(** The sending side of a stream, later: it has sent the same, and an end is
    for good. *)
Definition later (s s' : stream) : Prop :=
  s_id s' = s_id s /\ s_sendOffset s' = s_sendOffset s /\ (ended s = true -> ended s' = true).

Definition sent_nothing (s : stream) : Prop := s_sendOffset s = 0.

Lemma later_same s s' : handle s' = handle s -> wdata s' = wdata s -> later s s'.
Proof. unfold handle, wdata, later, ended. intros E1 E2. injection E1 as -> _ _ _. injection E2 as -> -> ->. done. Qed.

#[global] Instance later_growth : Growth later sent_nothing.
Proof.
  unfold later, sent_nothing. split.
  - split; [by intros s|]. intros s1 s2 s3 (A1 & A2 & A3) (B1 & B2 & B3). split_and!; [congruence|congruence|auto].
  - intros s s' H (_ & E & _). congruence.
  - intros id c. pose proof (new_stream_data id c) as H. unfold data_of, wdata in H. by injection H as _ _ _ H _ _.
  - intros s s' E. unfold core in E. injection E as E1 E2 E3 E4 E5 E6 E7 _ _ _ _. apply later_same; unfold handle, wdata; congruence.
  - done.
  - intros e s. split_and!; [done|done|]. intros _. unfold ended. simpl. apply orb_true_r.
  - done.
Qed.

#[global] Instance later_sendGrowth : SendGrowth later sent_nothing.
Proof. split; [apply _|]. intros s s' E1 E2 _ _. by apply later_same. Qed.

#[global] Instance later_cancel : CancelGrowth later.
Proof. done. Qed.

Abbreviation unsent := (grown later sent_nothing).

Section exec.
Context {GA : GoAppend}.

Lemma unsent_exec o c : reserves o = false -> unsent c (exec o c).
Proof. intros H. apply grown_any_exec; [apply _|done|intros _; apply _]. Qed.

Lemma unsent_record now fuel {V : QuicVarint} rec c : unsent c (record_loop fuel now rec c).2.
Proof.
  revert rec c. induction fuel as [|fuel IH]; intros rec c; [done|]. simpl. destruct (_ && _); [|done].
  destruct (Parse rec) as [|f rest|e]; [done| |done].
  pose proof (grown_any_frame later sent_nothing now f c) as H. destruct (handleFrameLocked now f c) as [[x|] c1]; [exact H|].
  etrans; [exact H|apply IH].
Qed.

End exec.

(** * The sender *)

Section sender.
Context {V : QuicVarint} {VL : QuicVarintLaws V} {GA : GoAppend} {T : Type} {RT : RecordTransport T}
  {RTL : RecordTransportLaws T RT}.
Implicit Types (e : endpoint T).

(** ** Steps that leave the connection open *)

Lemma abort_closes err e : c_closeErr (e_conn (abort err e)) <> None.
Proof.
  unfold abort. destruct (c_closeErr (e_conn e)) eqn:Hc.
  - unfold terminate. rewrite Hc. simpl. by rewrite Hc.
  - destruct (terminate_open err _ Hc) as (c' & -> & Hc'). simpl. by rewrite Hc'.
Qed.

Lemma writeFrames_closeErr now fs e r e' :
  writeFramesLocked now fs e = Some (r, e') -> c_closeErr (e_conn e') = c_closeErr (e_conn e).
Proof.
  unfold writeFramesLocked, writeRecordLocked. destruct (append_frames _ _) as [b|]; [|done]. simpl.
  destruct (writeRecord b (e_tr e)) as [[[n|x] t]|]; simpl; [..|done]; by intros [= <- <-].
Qed.

Lemma closeGracefully_closes now err fr e e' :
  closeGracefully now err fr e = Some e' -> c_closeErr (e_conn e') <> None.
Proof.
  unfold closeGracefully. destruct (c_closeErr (e_conn e)) eqn:Hc.
  { unfold terminate. rewrite Hc. simpl. intros [= <-]. simpl. by rewrite Hc. }
  destruct (terminate_open err _ Hc) as (c' & -> & Hc'). cbn [negb]. set (e1 := set_forced _ _).
  assert (H1 : c_closeErr (e_conn e1) <> None) by (simpl; by rewrite Hc'). clearbody e1.
  assert (Hk : forall (werr : option error) e2, c_closeErr (e_conn e2) <> None ->
    (match werr with
     | Some _ => Some (set_tr (close (e_tr e2)) (set_forced None e2))
     | None => let '(half, t) := closeWrite (e_tr e2) in
         let e := set_tr t e2 in if negb half then Some (set_tr (close (e_tr e)) (set_forced None e)) else Some e
     end) = Some e' -> c_closeErr (e_conn e') <> None).
  { intros [x|] e2 H2; [by intros [= <-]|]. destruct (closeWrite (e_tr e2)) as [[] t]; simpl; by intros [= <-]. }
  destruct fr as [f|]; simpl; [|by apply (Hk None)].
  destruct (writeFramesLocked now [f] e1) as [[r e2]|] eqn:Ew; [|done]. simpl. apply Hk.
  by rewrite (writeFrames_closeErr _ _ _ _ _ Ew).
Qed.

(** An iteration of the read loop that leaves the connection open. *)
Lemma read_step_open now e go e' :
  read_step now e = Some (go, e') -> c_closeErr (e_conn e') = None ->
  exists rec t c', readRecord (e_tr e) = (inl rec, t) /\
    handleRecord now rec (record_received now (zlen rec) (e_conn e)) = (None, c') /\ e' = set_conn c' (set_tr t e).
Proof.
  unfold read_step. destruct (readRecord (e_tr e)) as [[rec|err] t]; simpl.
  - destruct (handleRecord now rec _) as [[err|] c'] eqn:E.
    + destruct err; try (intros [= <- <-] Hc; by apply abort_closes in Hc).
      destruct (closeWithTransportError _ _ _) as [e1|] eqn:Ec; [|done]. simpl. intros [= <- <-] Hc.
      by apply closeGracefully_closes in Ec.
    + intros [= <- <-] _. by exists rec, t, c'.
  - destruct err; try (intros [= <- <-] Hc; by apply abort_closes in Hc).
    destruct (closeWithTransportError _ _ _) as [e1|] eqn:Ec; [|done]. simpl. intros [= <- <-] Hc.
    by apply closeGracefully_closes in Ec.
Qed.

(** ** The frames on the transport *)

(** The frames of the records, as the peer parses them. *)
Definition frames_in (rs : list bytes) (fs : list frame) : Prop :=
  exists gs, Forall2 (fun b g => record_frames b = Some g) rs gs /\ mjoin gs = fs.

Definition not_stream (f : frame) : Prop := match f with Stream _ _ _ _ => False | _ => True end.

Lemma frames_in_app rs fs rs' fs' : frames_in rs fs -> frames_in rs' fs' -> frames_in (rs ++ rs') (fs ++ fs').
Proof.
  intros (gs & H1 & <-) (gs' & H2 & <-). exists (gs ++ gs'). split; [by apply Forall2_app|apply join_app].
Qed.

Lemma frames_in_unique rs fs fs' : frames_in rs fs -> frames_in rs fs' -> fs = fs'.
Proof.
  intros (gs & H1 & <-) (gs' & H2 & <-). f_equal. revert gs' H2. induction H1 as [|b g bs gs Hb _ IH]; intros gs' H2; inversion H2; subst; [done|].
  f_equal; [congruence|by apply IH].
Qed.

Lemma frames_in_one b n fs : record_of n fs b -> frames_in [b] (frame_received <$> fs).
Proof. intros [_ H]. exists [frame_received <$> fs]. split; [by repeat constructor|]. csimpl. by rewrite app_nil_r. Qed.

Lemma frames_in_groups n gs rs :
  Forall2 (record_of n) gs rs -> frames_in rs (frame_received <$> mjoin gs).
Proof.
  induction 1 as [|g b gs bs [_ Hb] _ (hs & IH1 & IH2)]; [by exists []|].
  exists ((frame_received <$> g) :: hs). split; [by constructor|]. csimpl. by rewrite IH2, fmap_app.
Qed.

Lemma received_not_stream f : not_stream f -> not_stream (frame_received f).
Proof. destruct f; simpl; try done. by destruct Application. Qed.

Lemma takeControl_not_stream now c : ctrl_inv c -> Forall not_stream (takeControl now c).1.
Proof.
  intros [A1 _ _]. destruct (c_closeErr c) eqn:Hc; [by unfold takeControl; rewrite Hc|].
  rewrite takeControl_eq by done. cbn [fst]. repeat apply Forall_app_2; try by (apply Forall_when).
  eapply list.Forall_impl; [exact A1|]. by intros [].
Qed.

(** A FIN of the stream [p], whose sending side ends with it. *)
Definition fin_of (e e' : endpoint T) (f : frame) : Prop :=
  exists p, ptr (e_conn e) p /\ f = Stream (s_id (deref (e_conn e) p)) (s_sendOffset (deref (e_conn e) p)) [] true /\
    ended (deref (e_conn e') p) = true.

(** What a step does that sends no data: it puts records on the transport
    without stream data, except that of a FIN. *)
Definition no_data (e e' : endpoint T) (rs : list bytes) : Prop :=
  wbuf_ok e' /\ unsent (e_conn e) (e_conn e') /\
  exists rs' fs, carries (e_tr e') (rs ++ rs') /\ frames_in rs' fs /\
    Forall (fun f => not_stream f \/ fin_of e e' f) fs.

Lemma no_data_none e e' rs :
  wbuf_ok e' -> unsent (e_conn e) (e_conn e') -> carries (e_tr e') rs -> no_data e e' rs.
Proof.
  intros Hw Hu Hc. split_and!; [done|done|]. exists [], []. rewrite app_nil_r. split_and!; [done|by exists []|constructor].
Qed.

Lemma no_data_frames e e' rs rs' fs :
  wbuf_ok e' -> unsent (e_conn e) (e_conn e') -> carries (e_tr e') (rs ++ rs') -> frames_in rs' (frame_received <$> fs) ->
  Forall not_stream fs -> no_data e e' rs.
Proof.
  intros Hw Hu Hc Hf Hn. split_and!; [done|done|]. exists rs', (frame_received <$> fs). split_and!; [done|done|].
  apply Forall_fmap. eapply list.Forall_impl; [exact Hn|]. intros f H. left. by apply received_not_stream.
Qed.

Lemma unsent_stats c c' : stats_only c c' -> unsent c c'.
Proof. intros (b & r & t & ->). by apply grown_heap; [apply _|]. Qed.

Section step.
Context (cfg : Config) (isServer : bool) (e e' : endpoint T) (rs : list bytes).
Hypothesis (Hcfg : config_ok cfg) (Hreach : reach cfg isServer (e_conn e)) (Hrange : in_range (e_conn e)).
Hypothesis (Hwbuf : wbuf_ok e) (Hcarries : carries (e_tr e) rs) (Hopen : c_closeErr (e_conn e') = None).

Lemma no_data_start now go : write_start now e = Some (go, e') -> no_data e e' rs.
Proof using Hcfg Hreach Hwbuf Hcarries Hopen VL.
  unfold write_start.
  destruct (sendParameters_exact cfg isServer e rs Hcfg Hreach Hwbuf Hcarries now) as (r & e1 & -> & W & S & C). simpl.
  destruct r as [x|]; intros [= <- E]; [exfalso; rewrite <- E in Hopen; by apply abort_closes in Hopen|]. subst e1.
  destruct (C eq_refl) as (b & Hb & Hr).
  eapply no_data_frames; [done|by apply unsent_stats|exact Hb|by eapply frames_in_one|by repeat constructor].
Qed.

Lemma no_data_closeSend now p err :
  holds_send (e_conn e) p -> closeSend now p e = Some (err, e') -> no_data e e' rs.
Proof using Hcfg Hreach Hrange Hwbuf Hcarries Hopen VL.
  intros Hh. destruct (closeSend_ok cfg isServer e rs Hcfg Hreach Hrange Hwbuf Hcarries now p Hh) as (r & e1 & -> & W & O).
  intros [= -> ->]. destruct O as [(x & _ & -> & _)|[(_ & -> & _)|[(_ & He & _ & S & He' & b & Hb & Hr)|(x & _ & Hg & _)]]].
  - by apply no_data_none.
  - by apply no_data_none.
  - split_and!; [done| |].
    + etrans; [apply grown_finish; apply _|by apply unsent_stats].
    + eexists [b], _. split_and!; [exact Hb|by eapply frames_in_one|]. apply Forall_singleton. right. exists p.
      split_and!; [apply Hh|done|done].
  - by rewrite Hg in Hopen.
Qed.

Lemma no_data_datagram now data r :
  zlen data < 2 ^ 60 -> SendDatagram now data e = Some (r, e') -> no_data e e' rs.
Proof using Hcfg Hreach Hwbuf Hcarries Hopen VL.
  intros Hd. destruct (SendDatagram_ok cfg isServer e rs Hcfg Hreach Hwbuf Hcarries now data Hd) as (x & e1 & -> & W & O).
  intros [= -> ->].
  destruct O as [(_ & _ & ->)|[(_ & _ & ->)|[(_ & -> & _)|[(_ & _ & y & _ & Hg & _)|(_ & _ & _ & S & b & Hb & Hr)]]]];
    try by apply no_data_none.
  - by rewrite Hg in Hopen.
  - eapply no_data_frames; [done|by apply unsent_stats|exact Hb|by eapply frames_in_one|by repeat constructor].
Qed.

Lemma no_data_read now go : read_step now e = Some (go, e') -> no_data e e' rs.
Proof using Hwbuf Hcarries Hopen.
  intros E. destruct (read_step_open _ _ _ _ E Hopen) as (rec & t & c' & Hr & Hh & ->). apply no_data_none; [done| |].
  - unfold handleRecord in Hh. pose proof (unsent_record now (S (length rec)) rec
      (record_received now (zlen rec) (e_conn e))) as H. rewrite Hh in H. simpl in H. etrans; [|exact H]. by apply grown_heap; [apply _|].
  - by eapply read_carries.
Qed.

Lemma no_data_write now go : write_step now e = Some (go, e') -> no_data e e' rs.
Proof using Hcfg Hreach Hrange Hwbuf Hcarries Hopen VL.
  unfold write_step. set (e1 := set_conn (take_wake (e_conn e)) e).
  assert (Hr1 : reach cfg isServer (e_conn e1)) by (by apply (reach_step _ _ OpWoken)).
  destruct (flushControl_ok cfg isServer e1 rs Hcfg Hr1 Hrange Hwbuf Hcarries now) as (r & e2 & -> & W & S & C & _). simpl.
  destruct r as [x|]; intros [= <- E]; [exfalso; rewrite <- E in Hopen; by apply abort_closes in Hopen|]. subst e2.
  destruct (C eq_refl) as (recs & gs & Hb & Hg & Ej).
  eapply no_data_frames; [done| |exact Hb|by eapply frames_in_groups|].
  - etrans; [by apply (grown_heap _ _ _ (e_conn e1))|]. etrans; [by apply (unsent_exec (OpTakeControl now))|by apply unsent_stats].
  - rewrite Ej. apply takeControl_not_stream. by eapply reach_ctrl.
Qed.

Lemma no_data_keepalive now go : keepalive_step now e = Some (go, e') -> no_data e e' rs.
Proof using GA Hwbuf Hcarries Hopen.
  unfold keepalive_step. pose proof (unsent_exec (OpRequestPing now) (e_conn e) eq_refl) as H. simpl in H.
  destruct (requestPing now (e_conn e)) as [[] c1]; simpl in *; [intros [= <- <-]; by apply no_data_none|].
  destruct (closeGracefully _ _ _ _) as [e1|] eqn:Ec; [|done]. simpl. intros [= <- E]. exfalso. subst e1.
  by apply closeGracefully_closes in Ec.
Qed.

Lemma no_data_other : ostep e e' -> no_data e e' rs.
Proof using Hcfg Hreach Hrange Hwbuf Hcarries Hopen VL.
  intros [now go E|now p err Hh E|now data r Hd E|now code msg E|now go _ E|now go E|now E|now E|now go E|err E|now E].
  - by eapply no_data_start.
  - by eapply no_data_closeSend.
  - by eapply no_data_datagram.
  - by apply closeGracefully_closes in E.
  - by eapply no_data_read.
  - by eapply no_data_write.
  - exfalso. unfold idle_step in E. destruct (0 <? _); [|done]. destruct (_ <=? 0); [|done].
    destruct (closeGracefully _ _ _ _) as [e1|] eqn:Ec; [|done]. injection E as ->. by apply closeGracefully_closes in Ec.
  - by apply closeGracefully_closes in E.
  - by eapply no_data_keepalive.
  - exfalso. rewrite E in Hopen. by apply abort_closes in Hopen.
  - unfold force_close in E. destruct (e_forced e) as [t|]; [|done]. destruct (_ <=? _); [|done]. injection E as <-.
    apply no_data_none; [done|done|]. by apply (shut_carries (e_tr e) rs 0).
Qed.
End step.
End sender.

(** * Runs of the sender *)

(** The frame is a piece of the data [W] of the stream [id], at its offset, and
    a FIN is at the end of it. *)
Definition piece (id : Z) (W : bytes) (f : frame) : Prop :=
  match f with
  | Stream sid off d fin => sid = id ->
      0 <= off /\ off + zlen d <= zlen W /\ d = ztake (zlen d) (zdrop off W) /\ (fin = true -> off + zlen d = zlen W)
  | _ => True
  end.

Definition has_fin (id : Z) (fs : list frame) : Prop := exists off d, Stream id off d true ∈ fs.

(** The sending side of the stream [id] has ended. *)
Definition ended_id (id : Z) (c : Conn) : Prop := exists p, ptr c p /\ s_id (deref c p) = id /\ ended (deref c p) = true.

Lemma piece_grows id W w f : piece id W f -> (w = [] \/ ~ has_fin id [f]) -> piece id (W ++ w) f.
Proof.
  intros H [->|Hn]; [by rewrite app_nil_r|]. destruct f as [| |sid off d fin| | | | | | | |]; try done.
  simpl in *. intros E. destruct (H E) as (H1 & H2 & H3 & _). rewrite length_app. split_and!; [done|lia| |].
  - rewrite drop_app_le by lia. rewrite take_app_le by (rewrite length_drop; lia). done.
  - intros ->. exfalso. apply Hn. exists off, d. rewrite E. by left.
Qed.

Lemma piece_new id sid (W d : bytes) :
  piece id (W ++ (if sid =? id then d else [])) (Stream sid (zlen W) d false).
Proof.
  simpl. intros ->. rewrite Z.eqb_refl, length_app, !Nat2Z.id, drop_app_length, firstn_all. split_and!; [lia|lia|done|done].
Qed.

Section written.
Context {V : QuicVarint} {VL : QuicVarintLaws V} {GA : GoAppend} {T : Type} {RT : RecordTransport T}
  {RTL : RecordTransportLaws T RT}.
Implicit Types (e : endpoint T).
Context (cfg : Config) (isServer : bool) (id : Z).

(** A step of the endpoint, and the data that it puts on the stream [id]: what
    [writeChunk] reports as sent. [reserve] runs inside of [writeChunk] only. *)
Inductive puts : bytes -> endpoint T -> endpoint T -> Prop :=
| puts_chunk now p data n err e e' :
    holds_send (e_conn e) p -> zlen data < 2 ^ 63 -> writeChunk now p data e = Some (n, err, e') ->
    puts (if s_id (deref (e_conn e) p) =? id then ztake n data else []) e e'
| puts_locked o e :
    reserves o = false -> valid o (e_conn e) -> puts [] e (set_conn (exec o (e_conn e)) e)
| puts_other e e' : ostep e e' -> puts [] e e'.

(** A run of an endpoint up to the end of its connection, with all the data that
    it has put on the stream [id]. *)
Inductive written : bytes -> endpoint T -> Prop :=
| written_init tr now : carries tr [] -> written [] (new_endpoint tr cfg isServer now)
| written_step W w e e' :
    written W e -> in_range (e_conn e) -> puts w e e' ->
    reach cfg isServer (e_conn e') -> c_closeErr (e_conn e') = None -> written (W ++ w) e'.

Record sender_inv (W : bytes) (e : endpoint T) : Prop := {
  sv_wbuf : wbuf_ok e;
  sv_frames : exists rs fs, carries (e_tr e) rs /\ frames_in rs fs /\ Forall (piece id W) fs /\
    (has_fin id fs -> ended_id id (e_conn e));
  sv_off p : ptr (e_conn e) p -> s_id (deref (e_conn e) p) = id -> s_sendOffset (deref (e_conn e) p) = zlen W;
  sv_none : (forall p, ptr (e_conn e) p -> s_id (deref (e_conn e) p) <> id) -> W = [];
}.

(** Streams that have sent nothing more keep the account. *)
Lemma account_unsent (W : bytes) c c' :
  ids_inv c' -> unsent c c' ->
  (forall p, ptr c p -> s_id (deref c p) = id -> s_sendOffset (deref c p) = zlen W) ->
  ((forall p, ptr c p -> s_id (deref c p) <> id) -> W = []) ->
  (forall p, ptr c' p -> s_id (deref c' p) = id -> s_sendOffset (deref c' p) = zlen W) /\
  ((forall p, ptr c' p -> s_id (deref c' p) <> id) -> W = []) /\ (ended_id id c -> ended_id id c').
Proof.
  intros Hi Hu Ho Hn. split_and!.
  - intros p Hp Hid. destruct (grown_back _ _ _ _ _ Hu Hp) as [Hp0|[Hnp Hz]].
    + destruct (grown_deref _ _ _ _ _ Hu Hp0) as [_ (E1 & E2 & _)]. rewrite E2. apply Ho; congruence.
    + rewrite Hz. rewrite Hn; [done|]. intros q Hq E. destruct (grown_deref _ _ _ _ _ Hu Hq) as [Hq' (E1 & _)].
      assert (q = p) as ->; [|done]. apply (id_inj c'); congruence.
  - intros H. apply Hn. intros p Hp E. destruct (grown_deref _ _ _ _ _ Hu Hp) as [Hp' (E1 & _)].
    apply (H p Hp'). congruence.
  - intros (p & Hp & E & He). destruct (grown_deref _ _ _ _ _ Hu Hp) as [Hp' (E1 & _ & E3)]. exists p.
    split_and!; [done|congruence|auto].
Qed.

(** Frames without data, except that of a FIN, keep the pieces. *)
Lemma pieces_no_data (W : bytes) e e' fs fs' :
  unsent (e_conn e) (e_conn e') -> Forall (fun f => not_stream f \/ fin_of e e' f) fs' ->
  (forall p, ptr (e_conn e) p -> s_id (deref (e_conn e) p) = id -> s_sendOffset (deref (e_conn e) p) = zlen W) ->
  (ended_id id (e_conn e) -> ended_id id (e_conn e')) -> Forall (piece id W) fs -> (has_fin id fs -> ended_id id (e_conn e)) ->
  Forall (piece id W) (fs ++ fs') /\ (has_fin id (fs ++ fs') -> ended_id id (e_conn e')).
Proof.
  intros Hu Hall Ho He Hfs Hfin. split.
  - apply Forall_app. split; [done|]. eapply list.Forall_impl; [exact Hall|]. intros f [Hn|(p & Hp & -> & _)]; [by destruct f|].
    simpl. intros E. rewrite (Ho p Hp E). split_and!; try lia. done.
  - intros (off & d & [Hin|Hin]%elem_of_app); [apply He, Hfin; by exists off, d|].
    rewrite list.Forall_forall in Hall. destruct (Hall _ Hin) as [[]|(p & Hp & E & He')]. injection E as E _ _.
    destruct (grown_deref _ _ _ _ _ Hu Hp) as [Hp' (E1 & _)]. exists p. split_and!; [done|congruence|done].
Qed.

Lemma sender_no_data W e e' :
  ids_inv (e_conn e') -> sender_inv W e -> (forall rs, carries (e_tr e) rs -> no_data e e' rs) -> sender_inv W e'.
Proof.
  intros Hi [I1 (rs & fs & I2 & I3 & I4 & I5) I6 I7] Hno. destruct (Hno rs I2) as (Hw & Hu & rs' & fs' & Hc & Hf & Hall).
  destruct (account_unsent W _ _ Hi Hu I6 I7) as (A1 & A2 & A3). split; try done.
  destruct (pieces_no_data W e e' fs fs' Hu Hall I6 A3 I4 I5) as [P1 P2].
  exists (rs ++ rs'), (fs ++ fs'). split_and!; [done|by apply frames_in_app|done|done].
Qed.

Lemma reserve_heap p n c :
  exists x, c_heap (reserve p n c).2 = <[p := set_s_sendOffset x (deref c p)]> (c_heap c).
Proof.
  unfold reserve. destruct (sendErrLocked p c); simpl; [|by eexists].
  exists (s_sendOffset (deref c p)). assert (set_s_sendOffset (s_sendOffset (deref c p)) (deref c p) = deref c p) as ->
    by (by destruct (deref c p)). unfold deref. by rewrite insert_same.
Qed.

(** The account after the stream [p] has sent [d]. *)
Lemma account_chunk (W d : bytes) p x c c' :
  ids_inv c -> ptr c p -> c_heap c' = <[p := set_s_sendOffset x (deref c p)]> (c_heap c) ->
  s_sendOffset (deref c' p) = s_sendOffset (deref c p) + zlen d ->
  let W' := W ++ (if s_id (deref c p) =? id then d else []) in
  (forall q, ptr c q -> s_id (deref c q) = id -> s_sendOffset (deref c q) = zlen W) ->
  ((forall q, ptr c q -> s_id (deref c q) <> id) -> W = []) ->
  (forall q, ptr c' q -> s_id (deref c' q) = id -> s_sendOffset (deref c' q) = zlen W') /\
  ((forall q, ptr c' q -> s_id (deref c' q) <> id) -> W' = []) /\ (ended_id id c -> ended_id id c').
Proof.
  intros Hi Hp Eh Es W' Ho Hn. assert (Hl : length (c_heap c') = length (c_heap c)) by (by rewrite Eh, length_insert).
  assert (Hq : forall q, s_id (deref c' q) = s_id (deref c q) /\ ended (deref c' q) = ended (deref c q) /\
    (q <> p -> deref c' q = deref c q)).
  { intros q. unfold deref at 1 3 5. rewrite Eh. destruct (decide (q = p)) as [->|Hne].
    - by rewrite insert_lookup_total_eq by done.
    - by rewrite insert_lookup_total_ne by done. }
  split_and!.
  - intros q Hqp. destruct (Hq q) as (-> & _ & Hne). rewrite Hl in Hqp. intros Eid. unfold W'.
    destruct (decide (q = p)) as [->|Hd].
    + rewrite Es, (Ho p Hp Eid), (proj2 (Z.eqb_eq _ _) Eid), length_app. lia.
    + rewrite (Hne Hd), (Ho q Hqp Eid). destruct (Z.eqb_spec (s_id (deref c p)) id) as [E|_]; [|by rewrite app_nil_r].
      exfalso. apply Hd, (id_inj c); congruence.
  - intros H. unfold W'. destruct (Z.eqb_spec (s_id (deref c p)) id) as [E|_].
    + exfalso. apply (H p); [by rewrite Hl|]. by destruct (Hq p) as [-> _].
    + rewrite app_nil_r. apply Hn. intros q Hqp. destruct (Hq q) as [<- _]. apply H. by rewrite Hl.
  - intros (q & Hqp & E & He). exists q. destruct (Hq q) as (-> & -> & _). by rewrite Hl.
Qed.

(** The next chunk of the stream [p] is a piece, and the others still are: the
    stream has not ended. *)
Lemma pieces_chunk (W d : bytes) p c c' fs off n k :
  ids_inv c -> ptr c p -> reserve p n c = (inl (off, k), c') -> off = s_sendOffset (deref c p) ->
  (forall p, ptr c p -> s_id (deref c p) = id -> s_sendOffset (deref c p) = zlen W) ->
  Forall (piece id W) fs -> (has_fin id fs -> ended_id id c) ->
  Forall (piece id (W ++ (if s_id (deref c p) =? id then d else []))) (fs ++ [Stream (s_id (deref c p)) off d false]).
Proof.
  intros Hi Hp Er -> Ho Hfs Hfin. apply Forall_app. split.
  - apply list.Forall_forall. intros f Hf. rewrite list.Forall_forall in Hfs. apply piece_grows; [by apply Hfs|].
    destruct (Z.eqb_spec (s_id (deref c p)) id) as [Eid|]; [right|by left].
    intros (off & dd & Hin%list_elem_of_singleton). destruct Hfin as (q & Hq & Eq & He); [exists off, dd; by rewrite Hin|].
    assert (q = p) as -> by (apply (id_inj c); congruence).
    destruct (ended_refuses p n _ He) as [y Hy]. congruence.
  - apply Forall_singleton. destruct (decide (s_id (deref c p) = id)) as [Eid|Hne]; [|by simpl]. rewrite (Ho p Hp Eid). apply piece_new.
Qed.

Lemma has_fin_data fs sid off d : has_fin id (fs ++ [Stream sid off d false]) -> has_fin id fs.
Proof. intros (off' & d' & [Hin|Hin%list_elem_of_singleton]%elem_of_app); [by exists off', d'|done]. Qed.

Lemma sender_chunk W e now p data n err e' :
  config_ok cfg -> reach cfg isServer (e_conn e) -> in_range (e_conn e) -> c_closeErr (e_conn e') = None ->
  holds_send (e_conn e) p -> zlen data < 2 ^ 63 -> writeChunk now p data e = Some (n, err, e') ->
  sender_inv W e -> sender_inv (W ++ (if s_id (deref (e_conn e) p) =? id then ztake n data else [])) e'.
Proof.
  intros Hcfg Hreach Hrange Hopen Hh Hd E [I1 (rs & fs & I2 & I3 & I4 & I5) I6 I7].
  pose proof (reach_ids _ _ _ Hcfg Hreach) as Hi. assert (Hp : ptr (e_conn e) p) by apply Hh.
  destruct (writeChunk_ok cfg isServer e rs Hcfg Hreach Hrange I1 I2 now p data Hh Hd) as (n1 & err1 & e1 & E1 & W1 & O).
  rewrite E in E1. injection E1 as <- <- <-.
  assert (H0 : W ++ (if s_id (deref (e_conn e) p) =? id then [] else []) = W).
  { destruct (_ =? _); by rewrite app_nil_r. }
  destruct O as [(x & -> & _ & -> & _)|[(-> & _ & Et & Ec & Es & _)|[(Hn & _ & _ & _ & S & Es & b & Hb & Hr)|(x & _ & _ & Hg & _)]]].
  - change (ztake 0 data) with (@nil byte). rewrite H0. split; try done. by exists rs, fs.
  - destruct (reserve_heap p (zlen data) (e_conn e)) as [x Eh]. rewrite <- Ec in Eh.
    destruct (account_chunk W [] p x _ _ Hi Hp Eh) as (A1 & A2 & A3); [simpl; lia|done|done|].
    change (ztake 0 data) with (@nil byte). rewrite H0 in A1, A2 |- *. split; try done. exists rs, fs. rewrite Et. by split_and!; auto.
  - destruct (reserve_heap p (zlen data) (e_conn e)) as [x Eh].
    assert (Eh' : c_heap (e_conn e') = c_heap (reserve p (zlen data) (e_conn e)).2) by (by destruct S as (? & ? & ? & ->)).
    rewrite <- Eh' in Eh. set (d := ztake n data) in *.
    assert (Hlen : zlen d = n) by (unfold d; rewrite length_take; lia).
    destruct (account_chunk W d p x _ _ Hi Hp Eh) as (A1 & A2 & A3); [lia|done|done|].
    set (W' := W ++ _) in *. split; try done.
    exists (rs ++ [b]), (fs ++ [Stream (s_id (deref (e_conn e) p)) (s_sendOffset (deref (e_conn e) p)) d false]).
    split_and!; [done|apply frames_in_app; [done|by apply (frames_in_one _ _ _ Hr)]| |by intros ?%has_fin_data%I5%A3].
    unfold writeChunk in E. destruct (reserve p (zlen data) (e_conn e)) as [[[off k]|y] c] eqn:Er; [|injection E as <- _ _; lia].
    destruct (reserve_spec p (zlen data) off k _ c (reach_flow _ _ _ Hcfg Hreach) Hp ltac:(lia) Er) as (Eo & _).
    rewrite <- Eo. by eapply pieces_chunk.
  - by rewrite Hg in Hopen.
Qed.

Lemma sender_run W e : config_ok cfg -> written W e -> sender_inv W e /\ reach cfg isServer (e_conn e).
Proof.
  intros Hcfg. induction 1 as [tr now Htr|W w e e' Hw (IH & Hreach) Hrange Hp Hreach' Hopen].
  - split; [|constructor]. split; try done; simpl; try lia.
    exists [], []. split_and!; [done|by exists []|constructor|]. intros (off & d & Hin). by apply not_elem_of_nil in Hin.
  - split; [|done]. pose proof (reach_ids _ _ _ Hcfg Hreach') as Hi'. destruct Hp as [now p data n err e e' Hh Hd E|o e Ho Hv|e e' Hs].
    + by eapply sender_chunk.
    + rewrite app_nil_r. eapply sender_no_data; [done|exact IH|]. intros rs Hc. apply no_data_none; [apply IH|by apply unsent_exec|done].
    + rewrite app_nil_r. eapply sender_no_data; [done|exact IH|]. intros rs Hc.
      apply (no_data_other cfg isServer); try done. apply IH.
Qed.
End written.
