(* ===== verification/Release.v ===== *)
(** Starting a connection, and letting go of its transport.

    The connection owns its transport. It is open as long as the connection is;
    when the connection ends, for whatever reason, the transport is closed, at
    once or by the timer of [closeGracefully]. [start] returns a connection that
    is open and has the peer's parameters, or an error, and then the transport is
    let go too. *)

From S2P Require Import Prelude Varint Params Frame WriteLock Config State Core Stream Conn System Facts Ids Table Flow Life Control Wake Transport Endpoint Wire LifeTheorems FrameTheorems EndpointTheorems Refine Sender.

(** * Transports that can be closed *)

(** Whether [close] was called on the transport; nothing else changes it. *)
Class ClosableTransport (T : Type) (RT : RecordTransport T) := {
  is_closed : T -> bool;
  close_closes t : is_closed (close t) = true;
  read_closed t r t' : readRecord t = (r, t') -> is_closed t' = is_closed t;
  write_closed buf t r t' : writeRecord buf t = Some (r, t') -> is_closed t' = is_closed t;
  expire_closed d t : is_closed (expire d t) = is_closed t;
  closeWrite_closed t : is_closed (closeWrite t).2 = is_closed t;
}.

#[global] Instance streamTransport_closable {V : QuicVarint} : ClosableTransport streamTransport streamTransport_record.
Proof.
  refine {| is_closed t := conn_closed (st_conn t) |}; simpl.
  - done.
  - intros t r t'. unfold st_readRecord, st_take. repeat case_match; by intros; simplify_eq.
  - intros buf t r t'. unfold st_writeRecord, conn_Write. destruct (varint_len _); [|done]. simpl.
    destruct (varint_append _ _); [|done]. simpl. by destruct (conn_fail _) as [[]|]; intros [= <- <-].
  - done.
  - intros t. unfold st_closeWrite. by destruct (conn_half _).
Defined.

(** The same for the application's message transport. *)
Class ClosableMessages (M : Type) (MC : MessageConn M) := {
  mc_closed : M -> bool;
  mc_close_closes m : mc_closed (mc_Close m) = true;
  mc_read_closed m r m' : ReadMessage m = (r, m') -> mc_closed m' = mc_closed m;
  mc_write_closed p m r m' : WriteMessage p m = (r, m') -> mc_closed m' = mc_closed m;
  mc_deadline_closed f d m : mc_SetWriteDeadline = Some f -> mc_closed (f d m) = mc_closed m;
}.

#[global] Instance messageTransport_closable {M} {MC : MessageConn M} {CM : ClosableMessages M MC} :
  ClosableTransport (messageTransport M) messageTransport_record.
Proof.
  refine {| is_closed t := mc_closed (mt_mc t) |}; simpl.
  - intros t. apply mc_close_closes.
  - intros t r t'. unfold mt_readRecord. destruct (ReadMessage _) as [x m] eqn:E. apply mc_read_closed in E.
    repeat case_match; by intros; simplify_eq.
  - intros buf t r t'. unfold mt_writeRecord. destruct (WriteMessage _ _) as [[x|] m] eqn:E; apply mc_write_closed in E; by intros [= <- <-].
  - intros d t. unfold mt_expire. destruct mc_SetWriteDeadline as [f|] eqn:E; [|done]. simpl. by apply mc_deadline_closed.
  - done.
Defined.

#[global] Instance queue_closable : ClosableMessages Queue.conn Queue.queue.
Proof.
  refine {| mc_closed := Queue.q_closed |}; simpl; try done.
  - intros m r m'. destruct (Queue.q_in m); by intros [= <- <-].
  - by intros p m r m' [= <- <-].
Defined.

(** Only [terminate] ends the connection. *)
Lemma exec_closeErr {GA : GoAppend} o c :
  valid o c -> (forall err, o <> OpTerminate err) -> c_closeErr (exec o c) = c_closeErr c.
Proof.
  intros Hv Ho. destruct (c_closeErr c) as [err|] eqn:Hc; [by apply exec_closed_err|]. rewrite <- Hc.
  destruct o as [now f|d|d|p n|p n|p code|p t|now p|p n|p|p code|p t|p u i| |now|now|e'|now n|now n|]; simpl; try done.
  all: try (apply (ends_closeErr p); auto with qmux; fail).
  - apply frame_closeErr.
  - unfold tryOpen. rewrite Hc. destruct (_ <=? _); [by destruct d|]. unfold newStreamLocked. by destruct d.
  - unfold tryAccept. rewrite Hc. destruct (i_queue _); [by destruct d|]. simpl. rewrite complete_closeErr. by destruct d.
  - unfold tryReceiveDatagram. by destruct (c_datagrams c).
  - unfold requestPing. by destruct (_ && _).
  - apply iv_closeErr, iv_takeControl.
  - by destruct (Ho e').
Qed.

(** * The transport of an endpoint *)

Section release.
Context {V : QuicVarint} {GA : GoAppend} {T : Type} {RT : RecordTransport T} {CT : ClosableTransport T RT}.
Implicit Types (e : endpoint T).

(** The connection is open and so is the transport, or it has ended and the
    transport is closed or waits for the timer to close it. *)
Definition owns (e : endpoint T) : Prop :=
  match c_closeErr (e_conn e) with
  | None => is_closed (e_tr e) = false /\ e_forced e = None
  | Some _ => is_closed (e_tr e) = true \/ is_Some (e_forced e)
  end.

(** [e'] is as open as [e]. *)
Definition alike (e e' : endpoint T) : Prop :=
  c_closeErr (e_conn e') = c_closeErr (e_conn e) /\ is_closed (e_tr e') = is_closed (e_tr e) /\ e_forced e' = e_forced e.

#[local] Instance alike_refl : Reflexive alike.
Proof using Type. done. Qed.

#[local] Instance alike_trans : Transitive alike.
Proof using Type. intros e1 e2 e3 (A1 & A2 & A3) (B1 & B2 & B3). unfold alike. by rewrite B1, B2, B3. Qed.

Lemma alike_owns e e' : alike e e' -> owns e -> owns e'.
Proof using Type. unfold owns. by intros (-> & -> & ->). Qed.

Lemma alike_conn c e : c_closeErr c = c_closeErr (e_conn e) -> alike e (set_conn c e).
Proof using Type. done. Qed.

Lemma alike_record now buf e r e' : writeRecordLocked now buf e = Some (r, e') -> alike e e'.
Proof using Type.
  unfold writeRecordLocked. destruct (writeRecord _ _) as [[[n|x] t]|] eqn:E; [..|done]; apply write_closed in E; simpl; by intros [= <- <-].
Qed.

Lemma alike_frames now fs e r e' : writeFramesLocked now fs e = Some (r, e') -> alike e e'.
Proof using Type. unfold writeFramesLocked. destruct (append_frames _ _); [|done]. apply alike_record. Qed.

Lemma alike_flush now fs buf e r e' : flush_loop now fs buf e = Some (r, e') -> alike e e'.
Proof using Type.
  revert buf e. induction fs as [|f fs IH]; intros buf e; simpl; [destruct (_ =? _); [by intros [= <- <-]|apply alike_record]|].
  destruct (Append f buf) as [b|]; [|done]. simpl. destruct (_ <? _); [|apply IH].
  destruct (writeRecordLocked now b e) as [[[x|] e1]|] eqn:E; [..|done]; apply alike_record in E; simpl; [by intros [= <- <-]|].
  intros H. etrans; [exact E|by eapply IH].
Qed.

Lemma owns_closed e : is_closed (e_tr e) = true -> c_closeErr (e_conn e) <> None -> owns e.
Proof using Type. unfold owns. destruct (c_closeErr (e_conn e)); [by left|done]. Qed.

(** Ending at once. *)
Lemma owns_abort err e : owns e -> owns (abort err e).
Proof using Type.
  intros H. unfold abort. destruct (c_closeErr (e_conn e)) as [x|] eqn:Hc.
  - unfold terminate. rewrite Hc. simpl. by destruct e.
  - destruct (terminate_open err _ Hc) as (c' & -> & Hc'). apply owns_closed; simpl; [apply close_closes|by rewrite Hc'].
Qed.

(** Ending with a last record. *)
Lemma owns_gracefully now err fr e e' : owns e -> closeGracefully now err fr e = Some e' -> owns e'.
Proof using Type.
  intros H. unfold closeGracefully. destruct (c_closeErr (e_conn e)) as [x|] eqn:Hc.
  { unfold terminate. rewrite Hc. simpl. intros [= <-]. by destruct e. }
  destruct (terminate_open err _ Hc) as (c' & -> & Hc'). cbn [negb]. set (e1 := set_forced _ _).
  set (r := match fr with Some f => _ | None => _ end). intros E.
  assert (Hr : forall werr e2, r = Some (werr, e2) -> alike e1 e2).
  { intros werr e2. subst r. destruct fr; [apply alike_frames|by intros [= <- <-]]. }
  destruct r as [[werr e2]|]; [|done]. destruct (Hr werr e2 eq_refl) as (A1 & A2 & A3). simpl in A1, A3, E. rewrite Hc' in A1.
  destruct werr; [injection E as <-; apply owns_closed; simpl; [apply close_closes|by rewrite A1]|].
  destruct (closeWrite (e_tr e2)) as [[] t]; injection E as <-.
  - unfold owns. simpl. rewrite A1, A3. right. by eexists.
  - apply owns_closed; simpl; [apply close_closes|by rewrite A1].
Qed.

Lemma finish_closeErr p c : c_closeErr (finish p c).2 = c_closeErr c.
Proof using Type. apply (ends_closeErr p). auto with qmux. Qed.

Lemma reserve_closeErr p n c : c_closeErr (reserve p n c).2 = c_closeErr c.
Proof using Type. apply (ends_closeErr p). auto with qmux. Qed.

(** A record is written, and the connection gives up when it cannot be. *)
Lemma owns_write now fs e e0 x e2 :
  alike e0 e -> owns e0 -> writeFramesLocked now fs e = Some (x, e2) -> owns e2 /\ forall err, owns (abort err e2).
Proof using Type.
  intros A H E. apply alike_frames in E. assert (H2 : owns e2) by (eapply alike_owns; [|exact H]; by etrans).
  split; [done|]. intros err. by apply owns_abort.
Qed.

Lemma owns_chunk now p data e n err e' : owns e -> writeChunk now p data e = Some (n, err, e') -> owns e'.
Proof using Type.
  intros H. unfold writeChunk. pose proof (reserve_closeErr p (zlen data) (e_conn e)) as Hc.
  destruct (reserve p (zlen data) (e_conn e)) as [[[off k]|x] c]; simpl in Hc.
  2:{ intros [= <- <- <-]. by eapply alike_owns; [apply alike_conn|]. }
  destruct (k =? 0); [intros [= <- <- <-]; by eapply alike_owns; [apply alike_conn|]|].
  destruct (writeFramesLocked _ _ _) as [[x e1]|] eqn:E; [|done].
  destruct (owns_write _ _ _ e _ _ (alike_conn c e Hc) H E) as [H1 H2]. by destruct x; intros [= <- <- <-].
Qed.

Lemma owns_closeSend now p e err e' : owns e -> closeSend now p e = Some (err, e') -> owns e'.
Proof using Type.
  intros H. unfold closeSend. pose proof (finish_closeErr p (e_conn e)) as Hc.
  destruct (finish p (e_conn e)) as [[[k|]|x] c]; simpl in Hc.
  2,3: intros [= <- <-]; by eapply alike_owns; [apply alike_conn|].
  destruct (writeFramesLocked _ _ _) as [[x e1]|] eqn:E; [|done].
  destruct (owns_write _ _ _ e _ _ (alike_conn c e Hc) H E) as [H1 H2]. by destruct x; intros [= <- <-].
Qed.

Lemma owns_datagram now data e r e' : owns e -> SendDatagram now data e = Some (r, e') -> owns e'.
Proof using Type.
  intros H. unfold SendDatagram. destruct (_ =? 0); [by intros [= <- <-]|]. destruct (Datagram_Len data) as [len|]; [|done]. simpl.
  destruct (_ <? len); [destruct (varint_len _); [|done]; by intros [= <- <-]|]. destruct (cause e); [by intros [= <- <-]|].
  destruct (writeFramesLocked _ _ _) as [[x e1]|] eqn:E; [|done].
  destruct (owns_write _ _ _ e _ _ (reflexivity e) H E) as [H1 H2]. by destruct x; intros [= <- <-].
Qed.

Lemma owns_read now e go e' : owns e -> read_step now e = Some (go, e') -> owns e'.
Proof using Type.
  intros H. unfold read_step. destruct (readRecord (e_tr e)) as [r t] eqn:Er. apply read_closed in Er.
  assert (H1 : owns (set_tr t e)) by (by eapply alike_owns; [|exact H]).
  assert (Hstop : forall (err : error) (x : endpoint T), Some (false, set_tr (close (e_tr (abort err x))) (abort err x)) = Some (go, e') -> owns e').
  { intros err x [= <- <-]. apply owns_closed; simpl; [apply close_closes|apply abort_closes]. }
  assert (Hviol : forall we x, owns x -> (e1 ← closeWithTransportError now we x; Some (true, e1)) = Some (go, e') -> owns e').
  { intros we x Hx. unfold closeWithTransportError. destruct (closeGracefully _ _ _ _) as [e1|] eqn:E; [|done]. intros [= <- <-].
    by eapply owns_gracefully. }
  destruct r as [rec|err]; [|by destruct err; eauto]. unfold handleRecord.
  pose proof (record_closeErr now (S (length rec)) rec (record_received now (zlen rec) (e_conn (set_tr t e)))) as Hc.
  destruct (record_loop _ _ _ _) as [x c]. simpl in Hc.
  assert (H2 : owns (set_conn c (set_tr t e))) by (by eapply alike_owns; [apply alike_conn|]).
  destruct x as [err|]; [by destruct err; eauto|]. by intros [= <- <-].
Qed.

Lemma owns_forced now e e' : owns e -> force_close now e = Some e' -> owns e'.
Proof using Type.
  unfold force_close. intros H. destruct (e_forced e) as [t|] eqn:Hf; [|done]. destruct (_ <=? _); [|done]. intros [= <-].
  apply owns_closed; simpl; [apply close_closes|]. unfold owns in H. destruct (c_closeErr (e_conn e)); [done|]. by destruct H; congruence.
Qed.

Lemma owns_other e e' : owns e -> ostep e e' -> owns e'.
Proof using Type.
  intros H [now go E|now p err _ E|now data r _ E|now code msg E|now go _ E|now go E|now E|now E|now go E|err ->|now E].
  - unfold write_start, sendParameters in E. destruct (writeFramesLocked _ _ _) as [[x e1]|] eqn:Ew; [|done].
    destruct (owns_write _ _ _ e _ _ (reflexivity e) H Ew) as [H1 H2]. by destruct x; injection E as <- <-.
  - by eapply owns_closeSend.
  - by eapply owns_datagram.
  - by eapply owns_gracefully.
  - by eapply owns_read.
  - unfold write_step, flushControl in E. pose proof (exec_closeErr (OpTakeControl now) (take_wake (e_conn e)) I) as Hc. simpl in Hc, E.
    destruct (takeControl now (take_wake (e_conn e))) as [fs c]. destruct (flush_loop _ _ _ _) as [[x e1]|] eqn:Ef; [|done].
    apply alike_flush in Ef. assert (H1 : owns e1) by (eapply alike_owns; [exact Ef|]; eapply alike_owns; [|exact H]; by split; [apply Hc|]).
    destruct x; injection E as <- <-; [by apply owns_abort|done].
  - unfold idle_step in E. destruct (0 <? _); [|done]. destruct (_ <=? 0); [|done].
    destruct (closeGracefully _ _ _ _) as [e1|] eqn:Ec; [|done]. injection E as <-. by eapply owns_gracefully.
  - by eapply owns_gracefully.
  - unfold keepalive_step in E. pose proof (exec_closeErr (OpRequestPing now) (e_conn e) I) as Hc. simpl in Hc.
    destruct (requestPing now (e_conn e)) as [ok c]. simpl in Hc.
    assert (H1 : owns (set_conn c e)) by (eapply alike_owns; [apply alike_conn; by apply Hc|done]).
    destruct ok; [by injection E as <- <-|]. destruct (closeGracefully _ _ _ _) as [e1|] eqn:Ec; [|done]. injection E as <- <-. by eapply owns_gracefully.
  - by apply owns_abort.
  - by eapply owns_forced.
Qed.

(** ** Runs *)

(** A step of an endpoint, as in [estep], where [terminate] is run by [abort] and
    [closeGracefully] only, as in the source. *)
Inductive lstep (e e' : endpoint T) : Prop :=
| ls_locked o :
    valid o (e_conn e) -> (forall err, o <> OpTerminate err) -> e' = set_conn (exec o (e_conn e)) e -> lstep e e'
| ls_chunk now p data n err :
    holds_send (e_conn e) p -> zlen data < 2 ^ 63 -> writeChunk now p data e = Some (n, err, e') -> lstep e e'
| ls_other : ostep e e' -> lstep e e'.

(** The endpoints that a connection on the transport [tr] goes through. *)
Inductive started (tr : T) (cfg : Config) (isServer : bool) : endpoint T -> Prop :=
| started_new now : started tr cfg isServer (new_endpoint tr cfg isServer now)
| started_step e e' : started tr cfg isServer e -> lstep e e' -> started tr cfg isServer e'.

Lemma started_owns tr cfg isServer e : is_closed tr = false -> started tr cfg isServer e -> owns e.
Proof using Type.
  intros Ht. induction 1 as [now|e e' _ IH [o Hv Ho ->|now p data n err _ _ E|H]]; [done|..].
  - eapply alike_owns; [|exact IH]. by apply alike_conn, exec_closeErr.
  - by eapply owns_chunk.
  - by eapply owns_other.
Qed.

Lemma gracefully_forced now err fr e e' t :
  owns e -> c_closeErr (e_conn e) = None -> closeGracefully now err fr e = Some e' -> e_forced e' = Some t -> t = now + closeTimeout.
Proof using Type.
  intros H Hc. unfold closeGracefully. destruct (terminate_open err _ Hc) as (c' & -> & Hc'). cbn [negb].
  set (e1 := set_forced _ _). set (r := match fr with Some f => _ | None => _ end). intros E.
  assert (Hr : forall werr e2, r = Some (werr, e2) -> e_forced e2 = e_forced e1).
  { intros werr e2. subst r. destruct fr; [intros (_ & _ & A)%alike_frames; exact A|by intros [= <- <-]]. }
  destruct r as [[[x|] e2]|]; [by injection E as <-| |done]. specialize (Hr _ _ eq_refl). simpl in E, Hr.
  destruct (closeWrite (e_tr e2)) as [[] s]; injection E as <-; simpl; [|done]. congruence.
Qed.

Lemma force_close_closes now e t :
  e_forced e = Some t -> t <= now -> exists e', force_close now e = Some e' /\ is_closed (e_tr e') = true /\ e_conn e' = e_conn e.
Proof using Type.
  intros Hf Ht. unfold force_close. rewrite Hf, (proj2 (Z.leb_le _ _) Ht). eexists. split; [reflexivity|]. split; [apply close_closes|done].
Qed.

(** C25: the connection lets go of its transport exactly when it ends. Along any
    run of an endpoint the transport stays open while the connection is open;
    once the connection has ended, for whatever reason, the transport is closed
    or a timer is set that closes it; and a graceful close sets that timer no
    later than [closeTimeout] after it began. *)
Theorem transport_released tr cfg isServer e :
  is_closed tr = false -> started tr cfg isServer e ->
  (c_closeErr (e_conn e) = None -> is_closed (e_tr e) = false) /\
  (c_closeErr (e_conn e) <> None -> is_closed (e_tr e) = true \/
    exists t, e_forced e = Some t /\ forall now, t <= now ->
      exists e', force_close now e = Some e' /\ is_closed (e_tr e') = true /\ e_conn e' = e_conn e) /\
  (forall now err fr e' t, c_closeErr (e_conn e) = None -> closeGracefully now err fr e = Some e' ->
    e_forced e' = Some t -> t = now + closeTimeout).
Proof using Type.
  intros Ht Hs. apply started_owns in Hs as H; [|done]. split_and!.
  - intros Hc. unfold owns in H. rewrite Hc in H. apply H.
  - intros Hc. unfold owns in H. destruct (c_closeErr (e_conn e)); [|done]. destruct H as [H|[t H]]; [by left|right].
    exists t. split; [done|]. intros now. by apply force_close_closes.
  - intros now err fr e' t. by apply gracefully_forced.
Qed.

(** C26: [start] keeps its contract. It returns as soon as the peer's parameters
    are in, the connection has ended or the caller's context is done, and not
    before. It returns the connection only when the parameters are in and
    connection and transport are open; otherwise the connection has ended, the
    transport is closed or about to be, and the error is that of the context or
    the one the connection ended with. *)
Theorem start_contract tr cfg isServer ctx e :
  is_closed tr = false -> config_ok cfg -> started tr cfg isServer e -> reach cfg isServer (e_conn e) ->
  ((exists r e', start ctx e r e') <-> c_ready (e_conn e) = true \/ c_closeErr (e_conn e) <> None \/ ctx <> None) /\
  forall r e', start ctx e r e' ->
    match r with
    | inl x => x = e /\ e' = e /\ c_ready (e_conn e) = true /\ c_closeErr (e_conn e) = None /\ is_closed (e_tr e) = false
    | inr err => c_closeErr (e_conn e') <> None /\ (is_closed (e_tr e') = true \/ is_Some (e_forced e')) /\
        (ctx = Some err \/ c_closeErr (e_conn e') = Some err)
    end.
Proof using Type.
  intros Ht Hcfg Hs Hr. apply started_owns in Hs as H; [|done]. pose proof (reach_life _ _ _ Hcfg Hr) as [_ Lc Lh]. split.
  - split.
    + intros (r & e' & [? Hh _|err ? ? -> _]); [|by auto]. rewrite Lh in Hh. destruct (c_ready (e_conn e)); [by left|].
      apply bool_decide_eq_true in Hh. by right; left.
    + intros [E|[E|E]].
      * eexists _, e. apply start_handshake; [by rewrite Lh, E|reflexivity].
      * eexists _, e. apply start_handshake; [|reflexivity]. rewrite Lh, bool_decide_eq_true_2 by done. apply orb_true_r.
      * destruct ctx as [err|]; [|done]. eexists _, _. by eapply start_done.
  - intros r e' [x Hh ->|err x ? Hx E].
    + unfold start_ready, cause. rewrite Lc. unfold owns in H. destruct (c_closeErr (e_conn e)) as [err|] eqn:Hc.
      * split_and!; [done|done|by right].
      * rewrite Lh in Hh. split_and!; [done|done| |done|apply H]. by destruct (c_ready (e_conn e)).
    + unfold start_cancelled in E. injection E as <- <-. apply (owns_abort err) in H. pose proof (abort_closes err e) as Hc.
      unfold owns in H. split_and!; [done| |by left]. by destruct (c_closeErr (e_conn (abort err e))).
Qed.
End release.
