(* ===== verification/Receiver.v ===== *)
(** The receiver of a stream, with the frames that it handles.

    [recv_change] says what an operation can do to the receiving side of a
    stream. When the frames handled for it are pieces of some data, each at its
    offset, then what is delivered to the stream is a prefix of that data,
    and all of it once the end of the stream was received ([receiver_inv]). *)

From S2P Require Import Prelude Varint Params Frame WriteLock Config State Core Stream Conn System Facts Ids Table Flow Life Control Wake Transport Endpoint Wire LifeTheorems History FrameTheorems Grow Sender.

(** The receiving side of a stream that has received nothing more. *)
Definition same_recv (s s' : stream) : Prop := s_id s' = s_id s /\ rv s' = rv s.
Definition received_nothing (s : stream) : Prop := rv s = rv zeroStream.

#[global] Instance same_recv_growth : Growth same_recv received_nothing.
Proof.
  unfold same_recv, received_nothing. split; [|try done..].
  - split; [by intros s|]. intros s1 s2 s3 [A1 A2] [B1 B2]. split; congruence.
  - intros s s' H [_ E]. congruence.
  - intros id c. unfold new_stream, rv. by repeat case_match.
  - unfold core, handle, rv. intros s s' E. split; congruence.
Qed.

#[global] Instance same_recv_cancel : CancelGrowth same_recv.
Proof. done. Qed.

Abbreviation unheard := (grown same_recv received_nothing).

(** The stream [p], from [c] to [c']: it keeps its identifier, and receives
    nothing. *)
Definition keeps_recv (p : nat) (c c' : Conn) : Prop :=
  (ptr c p -> ptr c' p /\ s_id (deref c' p) = s_id (deref c p)) /\ rv (deref c' p) = rv (deref c p).

Lemma unheard_keeps p c c' : unheard c c' -> keeps_recv p c c'.
Proof.
  intros Hu. split.
  - intros Hp. destruct (grown_deref _ _ _ _ _ Hu Hp) as [Hp' [E _]]. done.
  - destruct (decide (ptr c p)) as [Hp|Hn]; [by destruct (grown_deref _ _ _ _ _ Hu Hp) as [_ [_ E]]|].
    rewrite (deref_out c p Hn). destruct (decide (ptr c' p)) as [Hp'|Hn']; [|by rewrite (deref_out c' p Hn')].
    by destruct (grown_back _ _ _ _ _ Hu Hp') as [?|[_ Hz]].
Qed.

Section receiver.
Context {GA : GoAppend}.

(** What the operation [o] can do to the receiving side of a stream, when [d]
    is the data that it delivers: nothing; the data of a STREAM frame follows
    what was received; or the stream is reset. *)
Definition recv_change (p : nat) (o : op) (d : bytes) (c c' : Conn) : Prop :=
  let s := deref c p in let s' := deref c' p in
  (rv s' = rv s /\ d = []) \/
  (exists now fin, ptr c' p /\ o = OpFrame now (Stream (s_id s') (s_recvOffset s) d fin) /\
    s_recvReset s = false /\ s_finRecv s = false /\ rv s' = (s_recvOffset s + zlen d, false, fin)) \/
  (s_recvReset s' = true /\ s_finRecv s' = s_finRecv s /\ (s_finRecv s = true -> s_recvOffset s' = s_recvOffset s) /\ d = []).

Lemma change_none p o d c c' : keeps_recv p c c' -> d = [] -> recv_change p o d c c'.
Proof. intros [_ H] ->. by left. Qed.

Lemma exec_id p o c : ptr c p -> ptr (exec o c) p /\ s_id (deref (exec o c) p) = s_id (deref c p).
Proof.
  intros Hp. destruct (reserves o) eqn:Eo.
  - destruct o as [| | | | | | | |q n| | | | | | | | | | |]; try done. destruct (reserve_heap q n c) as [x Eh]. simpl.
    split; [by rewrite Eh, length_insert|]. unfold deref at 1. rewrite Eh. destruct (decide (p = q)) as [->|].
    + by rewrite insert_lookup_total_eq.
    + by rewrite insert_lookup_total_ne.
  - destruct (grown_deref _ _ _ _ _ (unsent_exec o c Eo) Hp) as (Hp' & E & _). done.
Qed.

(** The operations that carry no data in. *)
Lemma change_exec p o c : op_receives o = false -> recv_change p o (delivered p o c) c (exec o c).
Proof.
  intros Ho. apply change_none; [|by destruct o as [now []| | | | | | | | | | | | | | | | | | |]].
  apply unheard_keeps. destruct (reserves o) eqn:Er; [|apply grown_exec; [apply _|done|done|intros _; apply _]].
  destruct o as [| | | | | | | |q n| | | | | | | | | | |]; try done. destruct (reserve_heap q n c) as [x Eh].
  eapply grown_insert; [apply _|exact Eh|done].
Qed.

(** The stream that a frame was applied to, in terms of what it received. *)
Lemma applied_rv p s1 c c1 :
  flow_inv c1 -> ptr c p -> c_heap c1 = <[p := s1]> (c_heap c) ->
  let c' := completeLocked p (broadcast_read p c1) in
  rv (deref c' p) = rv s1 /\ forall q, q <> p -> deref c' q = deref c q.
Proof.
  intros H Hp Eh c'. destruct (frame_applied p s1 c c1 H Hp Eh) as (Y1 & Y2 & _). split; [|done].
  fold c' in Y1. unfold fview in Y1. unfold rv. congruence.
Qed.

Lemma fed_rv data fin s : s_recvReset s = false -> rv (fed data fin s) = (s_recvOffset s + zlen data, false, fin).
Proof.
  intros Hr. destruct (fed_fields data fin s) as (Z1 & Z2 & _). unfold rv. rewrite Z1, Z2. do 2 f_equal.
  unfold fed, bufferLocked, append_rbuf. cbv zeta. by repeat case_match.
Qed.

(** A STREAM frame, once its stream is found. *)
Lemma change_stream_frame p now id off data fin q c :
  flow_inv c -> ranges c -> ptr c q -> s_id (deref c q) = id -> is_varint (zlen data) ->
  let r := stream_frame id off data fin q c in
  recv_change p (OpFrame now (Stream id off data fin))
    (if bool_decide (q = p) then match r.1 with None => data | Some _ => [] end else []) c r.2.
Proof.
  intros H Hr Hq Hid Hd r. destruct (ends_id q c r.2) as [El Ei]; [apply ends_stream_frame|done|]. unfold r in *. clear r.
  destruct (stream_frame_inv id off data fin q c H Hr Hq Hd)
    as [(e & -> & _)|[(-> & _ & -> & _)|(c1 & E & Ho & Hf & Hrs & _ & _ & H1 & Eh & _)]];
    [apply change_none; [by split|by destruct (bool_decide _)]..|]. rewrite E in El, Ei |- *. cbn [fst snd] in *.
  destruct (applied_rv q _ c c1 H1 Hq Eh) as (Y1 & Y2). destruct (decide (q = p)) as [->|Hne].
  - rewrite bool_decide_eq_true_2 by done. right; left. exists now, fin. rewrite Y1, fed_rv, Ei, El, Hid, Ho by done.
    by split_and!.
  - rewrite bool_decide_eq_false_2 by done. left. by rewrite Y2.
Qed.

(** A RESET_STREAM frame, once its stream is found. *)
Lemma change_reset_frame p o id code fs q c :
  flow_inv c -> ranges c -> ptr c q -> is_varint fs -> recv_change p o [] c (reset_frame id code fs q c).2.
Proof.
  intros H Hr Hq Hfs.
  destruct (reset_frame_inv id code fs q c H Hr Hq Hfs)
    as [(e & -> & _)|[(-> & _)|(c1 & -> & _ & _ & _ & Hfin & H1 & Eh & _)]]; [by apply change_none..|]. cbn [snd].
  destruct (applied_rv q _ c c1 H1 Hq Eh) as (Y1 & Y2). destruct (decide (p = q)) as [->|Hne]; [|left; by rewrite Y2].
  right; right. set (s' := deref (completeLocked _ _) _) in *.
  assert (E : rv (after_reset code fs (deref c q)) = (fs, true, s_finRecv (deref c q))).
  { unfold after_reset. cbv zeta. by case_match. }
  rewrite E in Y1. unfold rv in Y1. injection Y1 as -> -> ->. by split_and!.
Qed.

(** Finding the stream of a frame opens streams, which have received nothing. *)
Lemma change_found p o d id recv c c1 c2 r :
  streamLocked id recv c = (r, c1) -> recv_change p o d c1 c2 -> recv_change p o d c c2.
Proof.
  intros E. pose proof (grown_streamLocked same_recv received_nothing id recv c) as Hu. rewrite E in Hu.
  destruct (unheard_keeps p _ _ Hu) as [_ Ev]. cbn [snd] in Ev. unfold rv in Ev. injection Ev as E1 E2 E3.
  unfold recv_change. cbv zeta. unfold rv at 1 2 4 5. by rewrite E1, E2, E3.
Qed.

Section frame.
Context (c : Conn) (Hi : ids_inv c) (Hopen : c_closeErr c = None) (Hready : c_ready c = true).
Context (Hlim : small_limits c) (Hflow : flow_inv c) (Hrng : ranges c).

Lemma change_reset p now id code fs :
  is_varint fs -> let o := OpFrame now (ResetStream id code fs) in recv_change p o [] c (exec o c).
Proof using All.
  intros Hfs o. unfold o at 2. simpl. rewrite Hready. unfold handleResetStreamLocked, with_stream.
  pose proof (flow_streamLocked id true c Hflow Hrng) as [H1 Hg1]. destruct (streamLocked id true c) as [r c1] eqn:E.
  destruct (streamLocked_ok _ _ _ _ _ E Hi Hopen Hready Hlim) as (_ & _ & Hf). cbn [snd] in H1, Hg1.
  eapply change_found; [exact E|]. destruct r as [[q|]|e]; [|by apply change_none..].
  apply change_reset_frame; try done. apply (Hf q eq_refl).
Qed.

Lemma change_stream p now id off data fin :
  is_varint (zlen data) ->
  let o := OpFrame now (Stream id off data fin) in recv_change p o (delivered p o c) c (exec o c).
Proof using All.
  intros Hd o.
  unfold o. pose proof (flow_streamLocked id true c Hflow Hrng) as [H1 Hg1]. destruct (streamLocked id true c) as [r c1] eqn:E.
  rewrite (delivered_stream p now id off data fin c r c1) by done.
  destruct (streamLocked_ok _ _ _ _ _ E Hi Hopen Hready Hlim) as (_ & _ & Hf). cbn [snd] in H1, Hg1.
  eapply change_found; [exact E|]. simpl. rewrite Hready. cbn [negb].
  unfold handleStreamLocked, with_stream. rewrite E. destruct r as [[q|]|e]; [|by apply change_none..].
  destruct (Hf q eq_refl) as [F1 F2 _ _]. by apply change_stream_frame.
Qed.
End frame.

Lemma exec_change p o c :
  ids_inv c -> flow_inv c -> in_range c -> valid o c -> recv_change p o (delivered p o c) c (exec o c).
Proof.
  intros Hi Hf Hr Hv. pose proof (in_range_ranges _ Hi Hr) as Hg. pose proof (in_range_limits _ Hr) as Hs.
  destruct (op_receives o) eqn:Eo; [|by apply change_exec].
  destruct o as [now f| | | | | | | | | | | | | | | | | | |]; try done. destruct Hv as (Hc & Hok & Hd).
  destruct (c_ready c) eqn:Hrd.
  - destruct f; try done; [apply change_reset; try done|by apply change_stream]. apply Hok.
  - apply change_none; destruct f; try done; simpl; rewrite Hrd; done.
Qed.
End receiver.

(** * Runs of the receiver *)

Section played.
Context {GA : GoAppend} (cfg : Config) (isServer : bool) (p : nat).

Definition op_frames (o : op) : list frame := match o with OpFrame _ f => [f] | _ => [] end.

(** A run of the connection with the frames it handled, and what was
    delivered to the stream [p] and read from it. *)
Inductive played : list frame -> bytes -> bytes -> Conn -> Prop :=
| played_init now : played [] [] [] (newConn cfg isServer now)
| played_step o heard rcv rd c :
    played heard rcv rd c -> in_range c -> valid o c ->
    played (heard ++ op_frames o) (rcv ++ delivered p o c) (rd ++ returned p o c) (exec o c).

Lemma played_logged heard rcv rd c : played heard rcv rd c -> exists chs, logged cfg isServer p rcv rd chs c.
Proof.
  induction 1 as [now|o heard rcv rd c _ (chs & IH) Hr Hv]; [eexists; constructor|]. eexists. by constructor.
Qed.

(** The stream [p] is the stream [id], once it is there. *)
Definition is_stream (id : Z) (c : Conn) : Prop := ptr c p -> s_id (deref c p) = id.

(** What was delivered, when the frames are pieces of [W]. *)
Record receiver_inv (id : Z) (W : bytes) (heard : list frame) (rcv : bytes) (s : stream) : Prop := {
  rc_prefix : rcv `prefix_of` W;
  rc_offset : s_recvReset s = false -> zlen rcv = s_recvOffset s;
  rc_fin : s_finRecv s = true -> s_recvOffset s = zlen W /\ has_fin id heard;
}.

Lemma has_fin_app id fs fs' : has_fin id fs -> has_fin id (fs ++ fs').
Proof. intros (off & d & H). exists off, d. apply elem_of_app. by left. Qed.

(** The next piece of the data extends a prefix of it. *)
Lemma piece_extends id (W rcv d : bytes) fin :
  rcv `prefix_of` W -> piece id W (Stream id (zlen rcv) d fin) ->
  rcv ++ d `prefix_of` W /\ (fin = true -> zlen rcv + zlen d = zlen W).
Proof.
  intros [k ->] H. destruct (H eq_refl) as (_ & H2 & H3 & H4). split; [|done].
  rewrite !Nat2Z.id, drop_app_length in H3. apply prefix_app. rewrite H3. apply prefix_take.
Qed.

Lemma receiver_change id W heard rcv o c :
  let d := delivered p o c in let c' := exec o c in
  recv_change p o d c c' -> is_stream id c' -> Forall (piece id W) (op_frames o) ->
  receiver_inv id W heard rcv (deref c p) -> receiver_inv id W (heard ++ op_frames o) (rcv ++ d) (deref c' p).
Proof.
  intros d c' Hch Hid Hall [I1 I2 I3]. clearbody d c'.
  destruct Hch as [[E ->]|[(now & fin & Hp & Eo & Hr & Hf & E)|(E1 & E2 & E3 & ->)]].
  - unfold rv in E. injection E as E1 E2 E3. rewrite app_nil_r. split; rewrite ?E1, ?E2, ?E3; [done|done|].
    intros Ht. destruct (I3 Ht) as [? ?]. split; [done|by apply has_fin_app].
  - unfold rv in E. injection E as E1 E2 E3. rewrite (Hid Hp), <- (I2 Hr) in Eo. rewrite Eo in Hall |- *. cbn [op_frames] in *.
    apply list.Forall_cons in Hall as [Hall _]. destruct (piece_extends id W rcv d fin I1 Hall) as [X1 X2].
    split; rewrite ?E1, ?E2, ?E3; [done|intros _; rewrite length_app, <- (I2 Hr); lia|]. intros ->.
    rewrite <- (I2 Hr). split; [by apply X2|]. exists (zlen rcv), d. apply elem_of_app. right. by left.
  - rewrite app_nil_r. split; [done|congruence|]. rewrite E2. intros Ht. rewrite (E3 Ht).
    destruct (I3 Ht) as [? ?]. split; [done|by apply has_fin_app].
Qed.

Lemma receiver_run id W heard rcv rd c :
  config_ok cfg -> played heard rcv rd c -> is_stream id c -> Forall (piece id W) heard ->
  receiver_inv id W heard rcv (deref c p).
Proof.
  intros Hcfg Hl. induction Hl as [now|o heard rcv rd c Hl IH Hr Hv]; intros Hid Hall.
  - rewrite deref_out by (simpl; lia). split; [apply prefix_nil|done|done].
  - apply Forall_app in Hall as [Hall Hall']. destruct (played_logged _ _ _ _ Hl) as (chs & Hlog%logged_reach).
    apply receiver_change; [|done|done|].
    + apply exec_change; [by eapply reach_ids|by eapply reach_flow|done|done].
    + apply IH; [|done]. intros Hp. destruct (exec_id p o c Hp) as [Hp' <-]. by apply Hid.
Qed.

(** The application is told the end of the stream. *)
Lemma eof_read n c c' :
  flow_inv c -> ptr c p -> c_closeErr c = None -> tryRead p n c = (TryDone [] (Some ErrEOF), c') ->
  s_recvErr (deref c p) = None /\ s_finRecv (deref c p) = true /\ unread (deref c p) = [] /\
  s_recvReset (deref c p) = false.
Proof using Type.
  intros Hf Hp Hc. pose proof (fl_stream _ Hf p Hp) as [_ _ _ _ _ _ _ _ H1 _ _ _ H2].
  unfold tryRead. rewrite Hc. destruct (s_recvErr (deref c p)) as [e|] eqn:Ee; [intros [= -> _]; done|].
  destruct (Nat.ltb_spec (s_roff (deref c p)) (length (s_rbuf (deref c p)))); [done|].
  destruct (s_finRecv (deref c p)); [|done]. intros _. split_and!; [done|done|by apply drop_ge|].
  destruct (s_recvReset (deref c p)) eqn:Er; [|done]. by destruct (proj2 H1 (or_intror eq_refl)).
Qed.

(** At the end of the stream, all of it has been read. *)
Lemma receiver_eof id W heard rcv rd c n c' :
  config_ok cfg -> played heard rcv rd c -> ptr c p -> s_id (deref c p) = id -> Forall (piece id W) heard ->
  c_closeErr c = None -> tryRead p n c = (TryDone [] (Some ErrEOF), c') -> rd = W /\ has_fin id heard.
Proof.
  intros Hcfg Hl Hp Hid Hall Hc E. destruct (receiver_run id W heard rcv rd c Hcfg Hl (fun _ => Hid) Hall) as [I1 I2 I3].
  destruct (played_logged _ _ _ _ Hl) as (chs & Hlog). destruct (logged_data _ _ _ _ _ _ _ Hcfg Hlog) as (_ & _ & L3).
  pose proof (reach_flow _ _ _ Hcfg (logged_reach _ _ _ _ _ _ _ Hlog)) as Hf.
  destruct (eof_read n c c' Hf Hp Hc E) as (E1 & E2 & E3 & E4). destruct (I3 E2) as [E5 Hfin]. split; [|done].
  rewrite (L3 E1), E3, app_nil_r in I1, I2. apply prefix_length_eq; [done|]. specialize (I2 E4). lia.
Qed.

(** The frames of the stream are among [fs], which are pieces of [W]. *)
Lemma receiver_delivers id W fs heard rcv rd c :
  config_ok cfg -> Forall (piece id W) fs -> played heard rcv rd c -> ptr c p -> s_id (deref c p) = id ->
  (forall off d fin, Stream id off d fin ∈ heard -> Stream id off d fin ∈ fs) ->
  rd `prefix_of` W /\
  forall n c', c_closeErr c = None -> tryRead p n c = (TryDone [] (Some ErrEOF), c') -> rd = W /\ has_fin id fs.
Proof.
  intros Hcfg Hall Hl Hp Hid Hin. assert (Hheard : Forall (piece id W) heard).
  { rewrite list.Forall_forall in Hall |- *. intros [] Hf'; try done.
    destruct (decide (StreamID = id)) as [->|Hne]; [by apply Hall, Hin|by intros]. }
  destruct (played_logged _ _ _ _ Hl) as (chs & Hlog). destruct (logged_data _ _ _ _ _ _ _ Hcfg Hlog) as (Hpre & _).
  pose proof (receiver_run id W heard rcv rd c Hcfg Hl (fun _ => Hid) Hheard) as [I1 _ _].
  split; [by etrans|]. intros n c' Hopen E.
  destruct (receiver_eof id W heard rcv rd c n c' Hcfg Hl Hp Hid Hheard Hopen E) as [-> (off & d & Hd)].
  split; [done|]. exists off, d. by apply Hin.
Qed.
End played.
