(* ===== verification/Delivery.v ===== *)
(** Data from one application to the other.

    Two endpoints share a stream: one writes to it, the other reads. The records
    that the transport of the sender carries hold pieces of the data written
    ([Sender]); a receiver that handles such frames delivers them in order
    ([Receiver]). Together: what the receiving application reads is a prefix of
    what the sending application wrote, and all of it at the end of the stream. *)

From S2P Require Import Prelude Varint Params Frame WriteLock Config State Core Stream Conn Transport Endpoint System Facts Ids Table Flow Life Control Wake Wire History FrameTheorems EndpointTheorems Scenario Refine Grow Sender Receiver.

Section delivery.
Context {V : QuicVarint} {VL : QuicVarintLaws V} {GA : GoAppend} {T : Type} {RT : RecordTransport T}
  {RTL : RecordTransportLaws T RT}.

(** A stream delivers what was written to it. Let one endpoint have written
    [W] to the stream [id]. Its transport then carries records with frames
    [fs], and for every run of another endpoint in which each STREAM frame of
    that stream is one of them, whatever happens on its other streams, the
    application there has read a prefix of [W]. If it is told the end of the
    stream, it has read all of [W], and the sender has ended the stream. *)
Theorem stream_delivery cfgA serverA id W (a : endpoint T) :
  config_ok cfgA -> written cfgA serverA id W a ->
  exists rs fs, carries (e_tr a) rs /\ frames_in rs fs /\
  forall cfgB serverB p heard rcv rd b,
    config_ok cfgB -> played cfgB serverB p heard rcv rd b -> ptr b p -> s_id (deref b p) = id ->
    (forall off d fin, Stream id off d fin ∈ heard -> Stream id off d fin ∈ fs) ->
    rd `prefix_of` W /\
    forall n b', c_closeErr b = None -> tryRead p n b = (TryDone [] (Some ErrEOF), b') ->
      rd = W /\ ended_id id (e_conn a).
Proof.
  intros HcfgA Ha. destruct (sender_run _ _ _ _ _ HcfgA Ha) as [[_ (rs & fs & Hc & Hf & Hall & Hfin) _ _] _].
  exists rs, fs. split_and!; [done|done|]. intros cfgB serverB p heard rcv rd b HcfgB Hl Hp Hid Hin.
  destruct (receiver_delivers cfgB serverB p id W fs heard rcv rd b HcfgB Hall Hl Hp Hid Hin) as [H1 H2].
  split; [done|]. intros n b' Hopen E. destruct (H2 n b' Hopen E). auto.
Qed.
End delivery.
