(* ===== verification/Calls.v ===== *)
(** The blocking calls of the package.

    A blocking call is a loop around a try operation: [read], [peek], [write]
    with [waitSendCredit] ([qmux/stream.go]), [open] and [accept]
    ([qmux/conn.go]). Between two tries it waits for a channel, a deadline or
    a context, and any other goroutine may run. So a call is a transition
    system of its own, whose states say where the call is, next to the state of
    the connection or of the endpoint. *)

From stdpp Require Import relations.
From S2P Require Import Prelude Varint Params Frame WriteLock Config State Core Stream Conn Transport Endpoint System Facts Ids Table Flow Life Control Wake Wire Scenario Refine Grow Sender.

(** * Waiting *)

(** [wait], in a state where it can return: one of the channels is closed, or
    the deadline, when set, has passed; a nil channel is never closed. *)
Inductive wait_returns (now : Z) (c : Conn) (chs : list (option nat)) (deadline : Z) : option error -> Prop :=
| wait_woken ch : Some ch ∈ chs -> ch ∈ c_closed c -> wait_returns now c chs deadline None
| wait_timeout : deadline <> 0 -> deadline <= now -> wait_returns now c chs deadline (Some ErrDeadlineExceeded).

(** The same, of the [select] in [open] and [accept]: a channel, or the
    caller's context with its error. *)
Inductive select_returns (c : Conn) (ctx : option error) (ch : nat) : option error -> Prop :=
| select_woken : ch ∈ c_closed c -> select_returns c ctx ch None
| select_done e : ctx = Some e -> select_returns c ctx ch (Some e).

(** [wait] fails at once exactly when its deadline has passed. *)
Lemma wait_expired_returns now c chs dl :
  wait_expired now dl = true -> wait_returns now c chs dl (Some ErrDeadlineExceeded).
Proof.
  unfold wait_expired, time_sub. rewrite andb_true_iff, negb_true_iff, Z.eqb_neq, Z.leb_le. intros [H1 H2].
  apply wait_timeout; lia.
Qed.

(** * Read *)

Section read.
Context {GA : GoAppend} (p n : nat).

Inductive read_pc :=
| ReadTry
| ReadWait (ch : option nat) (deadline : Z)
| ReadDone (data : bytes) (err : option error).

(** One iteration of [read] into a buffer of [n] bytes, up to [wait]. *)
Definition read_try (c : Conn) : read_pc * Conn :=
  match tryRead p n c with
  | (TryDone data err, c) =>
      if (0 <? length data)%nat || bool_decide (is_Some err) || (n =? 0)%nat
      then (ReadDone data err, c) else (ReadWait None 0, c)
  | (TryWait ch deadline, c) =>
      if (n =? 0)%nat then (ReadDone [] None, c) else (ReadWait (Some ch) deadline, c)
  end.

Inductive read_call : read_pc * Conn -> read_pc * Conn -> Prop :=
| read_tries c : in_range c -> read_call (ReadTry, c) (read_try c)
| read_wakes now ch dl c :
    wait_returns now c [ch] dl None -> read_call (ReadWait ch dl, c) (ReadTry, c)
| read_fails now ch dl c e :
    wait_returns now c [ch] dl (Some e) -> read_call (ReadWait ch dl, c) (ReadDone [] (Some e), c)
| read_others o pc c : in_range c -> valid o c -> read_call (pc, c) (pc, exec o c).

End read.

(** * Peek *)

Section peek.
Context {GA : GoAppend} (p n : nat).

Inductive peek_pc :=
| PeekStart
| PeekTry
| PeekWait (ch : nat) (deadline : Z)
| PeekDone (data : bytes) (err : option error).

(** The start of [peek], and one iteration of its loop up to [wait]. *)
Definition peek_start (c : Conn) : peek_pc :=
  match peek_check n c with Some e => PeekDone [] (Some e) | None => PeekTry end.

Definition peek_try (c : Conn) : peek_pc * Conn :=
  match tryPeek p n c with
  | (TryDone data err, c) => (PeekDone data err, c)
  | (TryWait ch deadline, c) => (PeekWait ch deadline, c)
  end.

Inductive peek_call : peek_pc * Conn -> peek_pc * Conn -> Prop :=
| peek_starts c : peek_call (PeekStart, c) (peek_start c, c)
| peek_tries c : peek_call (PeekTry, c) (peek_try c)
| peek_wakes now ch dl c :
    wait_returns now c [Some ch] dl None -> peek_call (PeekWait ch dl, c) (PeekTry, c)
| peek_fails now ch dl c e :
    wait_returns now c [Some ch] dl (Some e) -> peek_call (PeekWait ch dl, c) (PeekDone [] (Some e), c)
| peek_others o pc c : in_range c -> valid o c -> peek_call (pc, c) (pc, exec o c).
End peek.

(** * Write *)

Section write.
Context {V : QuicVarint} {GA : GoAppend} {T : Type} {RT : RecordTransport T} {RTL : RecordTransportLaws T RT} (p : nat) (data : bytes).

(** Where [write] is; [total] bytes are sent. *)
Inductive write_pc :=
| WriteTry (total : Z)
| WriteWait (total : Z) (wake connWake : nat) (deadline : Z)
| WriteChunk (total : Z)
| WriteDone (total : Z) (err : option error).

(** The loop condition of [write], and one iteration of [waitSendCredit] up to
    [wait]. *)
Definition write_try (now total : Z) (e : endpoint T) : write_pc * endpoint T :=
  if total <? zlen data then
    match trySend now p (e_conn e) with
    | (SendOk, c) => (WriteChunk total, set_conn c e)
    | (SendErr x, c) => (WriteDone total (Some x), set_conn c e)
    | (SendWait wake connWake deadline, c) => (WriteWait total wake connWake deadline, set_conn c e)
    end
  else (WriteDone total None, e).

(** The rest of the iteration of [write]. *)
Definition write_chunk (now total : Z) (e : endpoint T) : option (write_pc * endpoint T) :=
  r ← writeChunk now p (zdrop total data) e;
  let '(n, err, e) := r in
  let total := total + n in
  Some (match err with Some x => WriteDone total (Some x) | None => WriteTry total end, e).

(** The frames of the records that the transport carries in [e'], after those
    that it carries in [e]. *)
Definition puts_frames (e e' : endpoint T) (fs : list frame) : Prop :=
  exists rs rs', carries (e_tr e) rs /\ carries (e_tr e') (rs ++ rs') /\ frames_in rs' fs.

(** A step of the call, with the frames that it has put on the transport; none
    count of a chunk that the transport has refused. *)
Inductive write_call : write_pc * endpoint T -> list frame -> write_pc * endpoint T -> Prop :=
| write_tries now total e : write_call (WriteTry total, e) [] (write_try now total e)
| write_sends now total e total' e' fs :
    write_chunk now total e = Some (WriteTry total', e') -> puts_frames e e' fs ->
    write_call (WriteChunk total, e) fs (WriteTry total', e')
| write_stops now total e total' x e' :
    write_chunk now total e = Some (WriteDone total' (Some x), e') ->
    write_call (WriteChunk total, e) [] (WriteDone total' (Some x), e')
| write_wakes now total w cw dl e :
    wait_returns now (e_conn e) [Some w; Some cw] dl None ->
    write_call (WriteWait total w cw dl, e) [] (WriteTry total, e)
| write_fails now total w cw dl e x :
    wait_returns now (e_conn e) [Some w; Some cw] dl (Some x) ->
    write_call (WriteWait total w cw dl, e) [] (WriteDone total (Some x), e)
| write_others pc e e' : estep e e' -> write_call (pc, e) [] (pc, e').
End write.

(** * Open, accept and receive *)

Section open.
Context {GA : GoAppend} (d : dir) (ctx : option error).

Inductive open_pc :=
| OpenTry
| OpenBlocked (ch : nat)
| OpenDone (r : nat + error).

(** One iteration of a loop around [tryOpen] or [tryAccept], up to its
    [select]. *)
Definition open_iter (try : dir -> Conn -> open_result * Conn) (c : Conn) : open_pc * Conn :=
  match try d c with
  | (Opened p, c) => (OpenDone (inl p), c)
  | (OpenErr e, c) => (OpenDone (inr e), c)
  | (OpenWait ch, c) => (OpenBlocked ch, c)
  end.

(** [open] is the loop around [tryOpen], [accept] that around [tryAccept]. *)
Inductive open_loop_call (try : dir -> Conn -> open_result * Conn) : open_pc * Conn -> open_pc * Conn -> Prop :=
| open_tries c : in_range c -> open_loop_call try (OpenTry, c) (open_iter try c)
| open_wakes ch c : select_returns c ctx ch None -> open_loop_call try (OpenBlocked ch, c) (OpenTry, c)
| open_fails ch c e :
    select_returns c ctx ch (Some e) -> open_loop_call try (OpenBlocked ch, c) (OpenDone (inr e), c)
| open_others o pc c : in_range c -> valid o c -> open_loop_call try (pc, c) (pc, exec o c).

Definition open_call := open_loop_call tryOpen.
Definition accept_call := open_loop_call tryAccept.
End open.

(** The [select] of [ReceiveDatagram]: any case that is ready can be taken. *)
Inductive receive_datagram (ctx : option error) (c : Conn) : bytes + error -> Conn -> Prop :=
| receive_data data c' : tryReceiveDatagram c = (Some data, c') -> receive_datagram ctx c (inl data) c'
| receive_closed e : c_cause c = Some e -> receive_datagram ctx c (inr e) c
| receive_cancelled e : ctx = Some e -> receive_datagram ctx c (inr e) c.
