(* ===== verification/Api.v ===== *)
(** The exported types and methods ([qmux/stream.go], [qmux/conn.go]) and what
    the transports report ([qmux/transport.go], [qmux/adapter.go]).

    The application has three types of stream, each with the methods that make
    sense for it. [methods_valid] shows what this gives: whatever the
    application calls on a stream that it got from the connection, at any later
    time, is an operation that [System.valid] allows. *)

From stdpp Require Import relations.
From S2P Require Import Prelude Varint Params Frame WriteLock Config State Core Stream Conn Transport Endpoint System Facts Ids Table Flow Life Control Wake History Grow Sender Calls.

(** * Streams *)

(** [Stream], [ReceiveStream] and [SendStream]. *)
Inductive exported :=
| EStream (s : nat)
| EReceiveStream (s : nat)
| ESendStream (s : nat).

Definition exported_ptr (h : exported) : nat :=
  match h with EStream s | EReceiveStream s | ESendStream s => s end.

(** [StreamID] *)
Definition StreamID (h : exported) (c : Conn) : Z := s_id (deref c (exported_ptr h)).

Definition wrap (k : nat -> exported) (r : nat + error) : exported + error :=
  match r with inl s => inl (k s) | inr e => inr e end.

(** ** Getting a stream *)

Definition OpenStream (c : Conn) : (exported + error) * Conn :=
  let '(r, c) := openNow dirBidi c in (wrap EStream r, c).

Definition OpenUniStream (c : Conn) : (exported + error) * Conn :=
  let '(r, c) := openNow dirUni c in (wrap ESendStream r, c).

Section blocking.
Context {GA : GoAppend}.

(** A blocking call, from its start in [c] to its return in [c']. *)
Definition returns (call : open_pc * Conn -> open_pc * Conn -> Prop) (k : nat -> exported) (c : Conn)
    (r : exported + error) (c' : Conn) : Prop :=
  exists x, rtc call (OpenTry, c) (OpenDone x, c') /\ r = wrap k x.

Definition AcceptStream (ctx : option error) := returns (accept_call dirBidi ctx) EStream.
Definition AcceptUniStream (ctx : option error) := returns (accept_call dirUni ctx) EReceiveStream.
Definition OpenStreamSync (ctx : option error) := returns (open_call dirBidi ctx) EStream.
Definition OpenUniStreamSync (ctx : option error) := returns (open_call dirUni ctx) ESendStream.
End blocking.

(** ** Using a stream *)

Inductive method :=
| Read (n : nat)
| Peek (n : nat)
| CancelRead (code : Z)
| SetReadDeadline (t : Z)
| Write (data : bytes)
| Close
| CancelWrite (code : Z)
| SetPriority (urgency : Z) (incremental : bool)
| SetWriteDeadline (t : Z)
| SetDeadline (t : Z).

(** The methods of [ReceiveStream], and of [SendStream]; [Stream] has both,
    and [SetDeadline]. *)
Definition receiving (m : method) : bool :=
  match m with Read _ | Peek _ | CancelRead _ | SetReadDeadline _ => true | _ => false end.
Definition sending (m : method) : bool :=
  match m with Write _ | Close | CancelWrite _ | SetPriority _ _ | SetWriteDeadline _ => true | _ => false end.

Definition offers (h : exported) (m : method) : bool :=
  match h with
  | EStream _ => true
  | EReceiveStream _ => receiving m
  | ESendStream _ => sending m
  end.

(** The critical sections that a method runs on the stream [p]. *)
Inductive runs_section (p : nat) : method -> op -> Prop :=
| runs_read n : runs_section p (Read n) (OpRead p n)
| runs_peek n : runs_section p (Peek n) (OpPeek p n)
| runs_cancelRead code : runs_section p (CancelRead code) (OpCancelRead p code)
| runs_setReadDeadline t : runs_section p (SetReadDeadline t) (OpReadDeadline p t)
| runs_trySend now data : runs_section p (Write data) (OpTrySend now p)
| runs_reserve data n : 0 <= n <= zlen data -> runs_section p (Write data) (OpReserve p n)
| runs_close : runs_section p Close (OpFinish p)
| runs_cancelWrite code : runs_section p (CancelWrite code) (OpCancelWrite p code)
| runs_setPriority u i : runs_section p (SetPriority u i) (OpPriority p u i)
| runs_setWriteDeadline t : runs_section p (SetWriteDeadline t) (OpWriteDeadline p t)
| runs_deadline_read t : runs_section p (SetDeadline t) (OpReadDeadline p t)
| runs_deadline_write t : runs_section p (SetDeadline t) (OpWriteDeadline p t).

(** Error codes are QUIC integers, and Go's slices have an [int] for a length. *)
Definition arguments_ok (m : method) : Prop :=
  match m with
  | CancelRead code | CancelWrite code => is_varint code
  | Write data => zlen data < 2 ^ 63
  | _ => True
  end.

(** ** A stream stays what it is *)

Definition held (s s' : stream) : Prop :=
  s_id s' = s_id s /\ s_canRecv s' = s_canRecv s /\ s_canSend s' = s_canSend s /\
  (s_accepted s = true -> s_accepted s' = true).

Definition any_stream (s : stream) : Prop := True.

Lemma held_same s s' : handle s' = handle s -> held s s'.
Proof. unfold handle, held. intros E. injection E as -> -> -> ->. done. Qed.

#[global] Instance held_growth : Growth held any_stream.
Proof.
  split; try done.
  - split; [by intros s|]. unfold held. intros s1 s2 s3 (A1 & A2 & A3 & A4) (B1 & B2 & B3 & B4). split_and!; [congruence..|auto].
  - unfold core. intros s s' E. apply held_same. congruence.
Qed.

#[global] Instance held_sendGrowth : SendGrowth held any_stream.
Proof. split; [apply _|]. intros s s' H _ _ _. by apply held_same. Qed.

#[global] Instance held_cancel : CancelGrowth held.
Proof. done. Qed.

(** What the type of a stream promises of it. *)
Definition handle_ok (h : exported) (c : Conn) : Prop :=
  match h with
  | EStream p => holds_recv c p /\ holds_send c p
  | EReceiveStream p => holds_recv c p
  | ESendStream p => holds_send c p
  end.

Section held.
Context {GA : GoAppend}.

Lemma held_exec o c : grown held any_stream c (exec o c).
Proof.
  destruct (reserves o) eqn:Er; [|apply grown_any_exec; [apply _|done|intros _; apply _]].
  destruct o as [| | | | | | | |q n| | | | | | | | | | |]; try done. destruct (reserve_heap q n c) as [x Eh].
  eapply grown_insert; [apply _|exact Eh|by apply held_same].
Qed.

Lemma held_steps c c' : steps c c' -> grown held any_stream c c'.
Proof. induction 1 as [|o c c' _ _ _ IH]; [done|]. etrans; [apply held_exec|exact IH]. Qed.

Lemma handle_kept h c c' : grown held any_stream c c' -> handle_ok h c -> handle_ok h c'.
Proof.
  intros Hg. assert (Hk : forall p, holds c p -> holds c' p /\ s_canRecv (deref c' p) = s_canRecv (deref c p) /\
    s_canSend (deref c' p) = s_canSend (deref c p)).
  { intros p [Hp Ha]. destruct (grown_deref _ _ _ _ _ Hg Hp) as [Hp' (_ & E1 & E2 & E3)].
    split_and!; [|done|done]. split; [done|auto]. }
  unfold handle_ok, holds_recv, holds_send. destruct h as [p|p|p].
  - intros [[H1 H2] [_ H3]]. destruct (Hk p H1) as (K1 & -> & ->). done.
  - intros [H1 H2]. destruct (Hk p H1) as (K1 & -> & _). done.
  - intros [H1 H2]. destruct (Hk p H1) as (K1 & _ & ->). done.
Qed.

Lemma handle_valid h m o c :
  handle_ok h c -> offers h m = true -> arguments_ok m -> runs_section (exported_ptr h) m o -> valid o c.
Proof.
  intros Hh Hm Ha Hr. destruct h as [p|p|p]; [destruct Hh as [Hrecv Hsend]|rename Hh into Hrecv|rename Hh into Hsend];
    destruct Hr; try done; simpl in *; try (split; [done|lia]).
Qed.

(** ** Streams that the connection hands out *)

(** The type that goes with the direction of a stream, and who opened it. *)
Definition export (d : dir) (local : bool) : nat -> exported :=
  match d, local with
  | dirBidi, _ => EStream
  | dirUni, true => ESendStream
  | dirUni, false => EReceiveStream
  end.

Lemma export_ok d local p c :
  ids_inv c -> holds c p -> streamDir (s_id (deref c p)) = d -> initiatedLocally c (s_id (deref c p)) = local ->
  handle_ok (export d local p) c.
Proof.
  intros H Hh Hd Hl. destruct (id_stream _ H p ltac:(apply Hh)) as [_ S1 S2 _ _ _].
  unfold can_recv, can_send in *. rewrite Hd, Hl in S1, S2. destruct d, local; simpl in *; try by split.
  all: split; by split.
Qed.

Lemma open_handle d c p c' :
  ids_inv c -> tryOpen d c = (Opened p, c') -> ids_inv c' /\ handle_ok (export d true p) c'.
Proof.
  intros H E. pose proof (ids_open d c H) as H'. rewrite E in H'. split; [done|]. pose proof (id_out _ H d) as Ho.
  unfold tryOpen in E. destruct (c_closeErr c); [done|]. destruct (Z.leb_spec (o_max (c_out d c)) (o_next (c_out d c))); [done|].
  cbn [newStreamLocked] in E. set (id := streamID c _ d true) in *. injection E as <- <-.
  destruct (streamID_parts c (o_next (c_out d c)) d true) as (_ & P2 & P3 & _); [lia|]. fold id in P2, P3.
  set (c1 := set_c_streams _ _) in *. set (c2 := set_c_out d _ _) in *.
  assert (Hp : ptr c1 (length (c_heap c))) by (simpl; rewrite length_app; simpl; lia).
  assert (Ed : deref c2 (length (c_heap c)) = set_s_accepted true (new_stream id c)).
  { transitivity (deref (upd (length (c_heap c)) (set_s_accepted true) c1) (length (c_heap c))); [subst c2; by destruct d|].
    rewrite deref_upd by done. unfold deref. simpl. by rewrite list_lookup_total_middle by done. }
  pose proof (new_stream_view id c) as Hv. unfold iview in Hv. injection Hv as V1 _ _ _ _.
  apply export_ok; [done| |rewrite Ed; simpl; by rewrite V1|].
  - split; [|by rewrite Ed]. subst c2. destruct d; simpl; rewrite length_insert, length_app; simpl; lia.
  - rewrite Ed. simpl. rewrite V1, <- P2. unfold initiatedLocally. by destruct d.
Qed.

Lemma accept_handle d c p c' :
  ids_inv c -> small_limits c -> tryAccept d c = (Opened p, c') -> ids_inv c' /\ handle_ok (export d false p) c'.
Proof.
  intros H Hs E. pose proof (ids_accept d c H Hs) as H'. rewrite E in H'. split; [done|].
  unfold tryAccept in E. destruct (c_closeErr c); [done|]. destruct (i_queue (c_in d c)) as [|q qs] eqn:Eq; [done|].
  injection E as <- <-. assert (Hq : q ∈ i_queue (c_in d c)) by (rewrite Eq; left).
  apply (id_queue _ H) in Hq as (Hp & Hr & _).
  set (c1 := set_c_in d _ c). set (c2 := upd q _ c1).
  assert (Hp1 : ptr c1 q) by (subst c1; by destruct d).
  assert (E2 : deref c2 q = set_s_accepted true (deref c q)) by (subst c2; rewrite deref_upd by done; subst c1; by destruct d).
  assert (Hg : grown held any_stream c2 (completeLocked q c2)) by (apply grown_complete; apply _).
  assert (Hp2 : ptr c2 q) by (subst c2; by apply ptr_upd).
  destruct (grown_deref _ _ _ _ _ Hg Hp2) as [Hp3 (I1 & _ & _ & I4)]. rewrite E2 in I1, I4. simpl in I1, I4.
  unfold remote in Hr. apply andb_true_iff in Hr as [Hl%negb_true_iff Hd%bool_decide_eq_true].
  apply export_ok; [done|by split; [|apply I4]|by rewrite I1|]. rewrite I1, <- Hl. unfold initiatedLocally.
  f_equal. rewrite completeLocked_eq. subst c2 c1. by destruct d.
Qed.

Lemma openNow_handle d c p c' :
  ids_inv c -> openNow d c = (inl p, c') -> handle_ok (export d true p) c'.
Proof.
  intros H. unfold openNow. destruct (tryOpen d c) as [[q| |] c1] eqn:E; intros [= <- <-].
  by destruct (open_handle d c q c1 H E).
Qed.

(** What an operation that opens or accepts a stream promises. *)
Definition hands_out (k : nat -> exported) (r : open_result) (c : Conn) : Prop :=
  match r with Opened p => handle_ok (k p) c | _ => True end.

Section loop.
Context (cfg : Config) (isServer : bool) (Hcfg : config_ok cfg).
Context (try : dir -> Conn -> open_result * Conn) (k : nat -> exported) (d : dir) (ctx : option error).
Hypothesis Htry : forall c, reach cfg isServer c -> in_range c ->
  reach cfg isServer (try d c).2 /\ hands_out k (try d c).1 (try d c).2.

Definition loop_ok (x : open_pc * Conn) : Prop :=
  reach cfg isServer x.2 /\ match x.1 with OpenDone (inl p) => handle_ok (k p) x.2 | _ => True end.

Lemma loop_handle x y : rtc (open_loop_call d ctx try) x y -> loop_ok x -> loop_ok y.
Proof using Htry.
  induction 1 as [|x y z Hs _ IH]; [done|]. intros [Hr Hk]. apply IH. clear IH.
  destruct Hs as [c Hc|ch c _|ch c e _|o pc c Hc Hv]; simpl in *.
  - unfold open_iter. destruct (Htry c Hr Hc) as [H1 H2]. destruct (try d c) as [[p|e|ch] c1]; by split.
  - by split.
  - by split.
  - split; [by constructor|]. destruct pc as [| |[p|e]]; try done. simpl in *. eapply handle_kept; [apply held_exec|exact Hk].
Qed.

Lemma returns_handle c h c' :
  reach cfg isServer c -> returns (open_loop_call d ctx try) k c (inl h) c' -> reach cfg isServer c' /\ handle_ok h c'.
Proof using Htry.
  intros Hr (x & Hx & E). destruct (loop_handle _ _ Hx) as [H1 H2]; [by split|]. destruct x as [p|e]; [|done].
  injection E as ->. done.
Qed.
End loop.

(** The application has got the stream [h] from the connection. *)
Inductive got (c : Conn) : exported -> Conn -> Prop :=
| got_open h c' : OpenStream c = (inl h, c') -> got c h c'
| got_openUni h c' : OpenUniStream c = (inl h, c') -> got c h c'
| got_openSync ctx h c' : OpenStreamSync ctx c (inl h) c' -> got c h c'
| got_openUniSync ctx h c' : OpenUniStreamSync ctx c (inl h) c' -> got c h c'
| got_accept ctx h c' : AcceptStream ctx c (inl h) c' -> got c h c'
| got_acceptUni ctx h c' : AcceptUniStream ctx c (inl h) c' -> got c h c'.

Lemma got_handle cfg isServer c h c' :
  config_ok cfg -> reach cfg isServer c -> got c h c' -> handle_ok h c'.
Proof.
  intros Hcfg Hr Hg. assert (Hi : forall c1, reach cfg isServer c1 -> ids_inv c1) by (intros; by eapply reach_ids).
  assert (Hopen : forall d c1, reach cfg isServer c1 -> in_range c1 ->
    reach cfg isServer (tryOpen d c1).2 /\ hands_out (export d true) (tryOpen d c1).1 (tryOpen d c1).2).
  { intros d c1 H1 H2. split; [by apply (reach_step _ _ (OpOpen d))|]. destruct (tryOpen d c1) as [[p| |] c2] eqn:E; try done.
    by destruct (open_handle d c1 p c2 (Hi _ H1) E). }
  assert (Haccept : forall d c1, reach cfg isServer c1 -> in_range c1 ->
    reach cfg isServer (tryAccept d c1).2 /\ hands_out (export d false) (tryAccept d c1).1 (tryAccept d c1).2).
  { intros d c1 H1 H2. split; [by apply (reach_step _ _ (OpAccept d))|]. destruct (tryAccept d c1) as [[p| |] c2] eqn:E; try done.
    by destruct (accept_handle d c1 p c2 (Hi _ H1) (in_range_limits _ H2) E). }
  destruct Hg as [h c' E|h c' E|ctx h c' E|ctx h c' E|ctx h c' E|ctx h c' E].
  - unfold OpenStream in E. destruct (openNow dirBidi c) as [[p|e] c1] eqn:Eo; simpl in E; [|done]. injection E as <- <-.
    exact (openNow_handle dirBidi c p c1 (Hi _ Hr) Eo).
  - unfold OpenUniStream in E. destruct (openNow dirUni c) as [[p|e] c1] eqn:Eo; simpl in E; [|done]. injection E as <- <-.
    exact (openNow_handle dirUni c p c1 (Hi _ Hr) Eo).
  - by apply (returns_handle cfg isServer tryOpen EStream dirBidi ctx (Hopen dirBidi) c h c').
  - by apply (returns_handle cfg isServer tryOpen ESendStream dirUni ctx (Hopen dirUni) c h c').
  - by apply (returns_handle cfg isServer tryAccept EStream dirBidi ctx (Haccept dirBidi) c h c').
  - by apply (returns_handle cfg isServer tryAccept EReceiveStream dirUni ctx (Haccept dirUni) c h c').
Qed.

(** C35: The exported types are safe. On a stream that the application got from
    the connection by opening or accepting it, by a call that blocks or not,
    every critical section that a method of the stream's type runs, at any
    later time, is one that its state allows: it sends only on streams that can
    send and receives only on streams that can receive. *)
Theorem methods_valid cfg isServer c h c1 c2 m o :
  config_ok cfg -> reach cfg isServer c -> got c h c1 -> steps c1 c2 ->
  offers h m = true -> arguments_ok m -> runs_section (exported_ptr h) m o -> valid o c2.
Proof.
  intros Hcfg Hr Hg Hs Hm Ha Ho. eapply handle_valid; [|exact Hm|exact Ha|exact Ho].
  eapply handle_kept; [by apply held_steps|]. by eapply got_handle.
Qed.
End held.

(** * What the transport reports *)

(** [net.Addr], by its two methods; [unknownAddr] is that of a transport that
    does not report one. *)
Record Addr := mkAddr { Network : bytes; String : bytes }.
Definition unknownAddr : Addr := mkAddr (str "qmux") (str "unknown").

Section reports.
(** [tls.ConnectionState] with its zero value, and the methods that a wrapped
    connection may have. *)
Context {TLS : Type} (zeroTLS : TLS) {M : Type}.

Record capabilities := {
  has_LocalAddr : option (M -> Addr);
  has_RemoteAddr : option (M -> Addr);
  has_ConnectionState : option (M -> TLS);
  has_SetDeadline : option (Z -> M -> option error * M);
  has_SetReadDeadline : option (Z -> M -> option error * M);
  has_SetWriteDeadline : option (Z -> M -> option error * M);
}.
Context (cap : capabilities).

(** The result of a method that may be missing. *)
Definition addr_of (f : option (M -> Addr)) (m : M) : Addr :=
  match f with Some f => f m | None => unknownAddr end.

Definition tlsStateOf (m : M) : TLS :=
  match has_ConnectionState cap with Some f => f m | None => zeroTLS end.

(** [messageTransport.localAddr], [remoteAddr] and [tlsState] *)
Definition mt_localAddr (t : messageTransport M) : Addr := addr_of (has_LocalAddr cap) (mt_mc t).
Definition mt_remoteAddr (t : messageTransport M) : Addr := addr_of (has_RemoteAddr cap) (mt_mc t).
Definition mt_tlsState (t : messageTransport M) : TLS := tlsStateOf (mt_mc t).

(** The adapter's [LocalAddr], [RemoteAddr] and deadlines. *)
Definition ad_LocalAddr (a : messageConnAdapter M) : Addr := addr_of (has_LocalAddr cap) (ad_mc a).
Definition ad_RemoteAddr (a : messageConnAdapter M) : Addr := addr_of (has_RemoteAddr cap) (ad_mc a).

Definition set_deadline_of (f : option (Z -> M -> option error * M)) (t : Z) (a : messageConnAdapter M)
    : option error * messageConnAdapter M :=
  match f with
  | Some f => let '(err, m) := f t (ad_mc a) in (err, mkAdapter m (ad_buf a))
  | None => (None, a)
  end.

Definition ad_SetDeadline := set_deadline_of (has_SetDeadline cap).
Definition ad_SetReadDeadline := set_deadline_of (has_SetReadDeadline cap).
Definition ad_SetWriteDeadline := set_deadline_of (has_SetWriteDeadline cap).

End reports.
Arguments capabilities : clear implicits.

(** The part of [recordTransport] that describes it. *)
Class TransportInfo (TLS T : Type) := { localAddr : T -> Addr; remoteAddr : T -> Addr; tlsState : T -> TLS }.

Definition messageTransport_info {TLS M} (zeroTLS : TLS) (cap : capabilities TLS M) : TransportInfo TLS (messageTransport M) :=
  {| localAddr := mt_localAddr cap; remoteAddr := mt_remoteAddr cap; tlsState := mt_tlsState zeroTLS cap |}.

(** A byte stream has its addresses, as every [net.Conn]; its TLS state it has
    when it is a TLS connection. *)
Section stream_info.
Context {TLS : Type} (zeroTLS : TLS) (LocalAddr RemoteAddr : netConn -> Addr) (cap : capabilities TLS netConn).

Definition st_localAddr (t : streamTransport) : Addr := LocalAddr (st_conn t).
Definition st_remoteAddr (t : streamTransport) : Addr := RemoteAddr (st_conn t).
Definition st_tlsState (t : streamTransport) : TLS := tlsStateOf zeroTLS cap (st_conn t).

Definition streamTransport_info : TransportInfo TLS streamTransport :=
  {| localAddr := st_localAddr; remoteAddr := st_remoteAddr; tlsState := st_tlsState |}.
End stream_info.

(** ** The connection *)

Record connectionState (TLS : Type) := mkConnectionState { cs_TLS : TLS; cs_datagramsLocal : bool; cs_datagramsRemote : bool }.
Arguments mkConnectionState {TLS}.

Section conn_info.
Context {TLS T : Type} {TI : TransportInfo TLS T}.

Definition LocalAddr (e : endpoint T) : Addr := localAddr (e_tr e).
Definition RemoteAddr (e : endpoint T) : Addr := remoteAddr (e_tr e).

Definition ConnectionState (e : endpoint T) : connectionState TLS :=
  mkConnectionState (tlsState (e_tr e)) (EnableDatagrams (c_config (e_conn e))) (0 <? MaxDatagramFrameSize (c_peer (e_conn e))).
End conn_info.

Record connectionStats := mkConnectionStats {
  MinRTT : Z; LatestRTT : Z; SmoothedRTT : Z; MeanDeviation : Z;
  BytesSent : Z; PacketsSent : Z; BytesReceived : Z; PacketsReceived : Z }.

Definition ConnectionStats (c : Conn) : connectionStats :=
  mkConnectionStats (rtt_min (c_rtt c)) (rtt_latest (c_rtt c)) (rtt_smoothed (c_rtt c)) (rtt_deviation (c_rtt c))
    (c_bytesSent c) (c_recordsSent c) (c_bytesReceived c) (c_recordsReceived c).

(** ** Round-trip times *)

(** The statistics after the given samples, from none. *)
Definition rtt_after (samples : list Z) : rttStats := foldl (fun r x => rtt_update x r) (mkRtt 0 0 0 0) samples.

Definition rtt_ok (lo hi : Z) (samples : list Z) (r : rttStats) : Prop :=
  rtt_min r ∈ samples /\ Forall (fun x => rtt_min r <= x) samples /\ list.last samples = Some (rtt_latest r) /\
  lo <= rtt_smoothed r <= hi /\ 0 <= rtt_deviation r <= hi.

Lemma rtt_step lo hi samples r x :
  0 < lo -> hi < 2 ^ 60 -> lo <= x <= hi -> Forall (fun x => lo <= x <= hi) samples ->
  rtt_ok lo hi samples r -> rtt_ok lo hi (samples ++ [x]) (rtt_update x r).
Proof.
  intros Hlo Hhi Hx Hall (R1 & R2 & R3 & R4 & R5). rewrite list.Forall_forall in Hall. pose proof (Hall _ R1) as Hm.
  assert (Ha : duration_abs (i64 (rtt_smoothed r - x)) = Z.abs (rtt_smoothed r - x)).
  { rewrite i64_id by (unfold is_i64; lia). unfold duration_abs. repeat case_match; lia. }
  unfold rtt_update. rewrite Ha. destruct (Z.eqb_spec (rtt_smoothed r) 0); [lia|].
  rewrite !i64_id by (unfold is_i64; rewrite ?i64_id by (unfold is_i64; lia); lia).
  rewrite !Z.quot_div_nonneg by lia. unfold rtt_ok. cbn [rtt_min rtt_latest rtt_smoothed rtt_deviation].
  rewrite last_snoc. split_and!; try done.
  - rewrite elem_of_app, list_elem_of_singleton. destruct (Z.eqb_spec (rtt_min r) 0); [lia|]. simpl.
    destruct (_ <? _); auto.
  - apply Forall_app. split; [|apply Forall_singleton].
    + eapply list.Forall_impl; [exact R2|]. intros y Hy. simpl in Hy. destruct (Z.eqb_spec (rtt_min r) 0); [lia|]. simpl.
      destruct (Z.ltb_spec x (rtt_min r)); lia.
    + destruct (Z.eqb_spec (rtt_min r) 0); [lia|]. simpl. destruct (Z.ltb_spec x (rtt_min r)); lia.
  - apply Z.div_le_lower_bound; lia.
  - apply Z.div_le_upper_bound; lia.
  - apply Z.div_pos; lia.
  - apply Z.div_le_upper_bound; lia.
Qed.

(** The round-trip times that [ConnectionStats] reports: when every sample is
    positive and between [lo] and [hi], up to 36 years (2^60 nanoseconds), the
    minimum is the smallest sample, the latest is the last, the smoothed one
    stays between [lo] and [hi], and the deviation between 0 and [hi]; no
    computation overflows. *)
Theorem rtt_estimates lo hi samples :
  0 < lo -> hi < 2 ^ 60 -> samples <> [] -> Forall (fun x => lo <= x <= hi) samples ->
  rtt_ok lo hi samples (rtt_after samples).
Proof.
  intros Hlo Hhi. induction samples as [|x samples IH] using rev_ind; [done|]. intros _ Hall.
  apply Forall_app in Hall as [Hall Hx]. apply list.Forall_cons in Hx as [Hx _].
  unfold rtt_after. rewrite foldl_snoc. fold (rtt_after samples).
  destruct samples as [|y samples]; [|by apply rtt_step; try done; apply IH].
  unfold rtt_after, rtt_update, rtt_ok. simpl. rewrite Z.quot_div_nonneg by lia.
  split_and!; [left|by apply Forall_singleton|done|lia|lia|apply Z.div_pos; lia|apply Z.div_le_upper_bound; lia].
Qed.
