(* ===== verification/Contracts.v ===== *)
(** The contracts of [Read] and [Write]: what the blocking calls of [Calls] may
    return, and what they wait for, whatever other goroutines do meanwhile. *)

From stdpp Require Import relations.
From S2P Require Import Prelude Varint Params Frame WriteLock Config State Core Stream Conn Transport Endpoint System Facts Ids Table Flow Life Control Wake Wire LifeTheorems History FrameTheorems EndpointTheorems Refine Grow Sender Calls Api.

(** * Read *)

Section read.
Context {GA : GoAppend} (p n : nat).

(** What [read] waits for: the channel of the stream's [readSignal], which is
    closed when that is broadcast, and nothing that it could return has come
    about before. *)
Definition read_waits_for (ch : option nat) (dl : Z) (c : Conn) : Prop :=
  exists k, ch = Some k /\
    (k ∈ c_closed c \/ s_readSignal (deref c p) = Some k /\ (tryRead p n c).1 = TryWait k dl).

Definition read_ok (pc : read_pc) (c : Conn) : Prop :=
  match pc with
  | ReadTry => True
  | ReadWait ch dl => read_waits_for ch dl c
  | ReadDone data err =>
      (length data <= n)%nat /\
      match err with Some _ => data = [] | None => n = 0%nat \/ data <> [] end
  end.

(** What a try of [read] leads to. *)
Lemma read_try_ok c :
  match (read_try p n c).1 with
  | ReadTry => False
  | ReadWait ch dl => exists k, ch = Some k /\ tryRead p n c = (TryWait k dl, (read_try p n c).2)
  | ReadDone data err =>
      (length data <= n)%nat /\
      match err with Some _ => data = [] | None => n = 0%nat \/ data <> [] end
  end.
Proof.
  unfold read_try, tryRead. destruct (c_closeErr c) as [e|]; [simpl; split; [lia|done]|].
  destruct (s_recvErr (deref c p)) as [e|]; [simpl; split; [lia|done]|].
  destruct (Nat.ltb_spec (s_roff (deref c p)) (length (s_rbuf (deref c p)))) as [Hlt|].
  - set (u := unread (deref c p)).
    assert (Hu : (0 < length u)%nat) by (subst u; unfold unread; rewrite length_drop; lia).
    cbn [fst]. destruct (Nat.ltb_spec 0 (length (take n u))) as [Hd|Hd]; rewrite length_take in Hd.
    + simpl. split; [rewrite length_take; lia|]. right. intros E%(f_equal length). rewrite length_take in E. simpl in E. lia.
    + assert (n = 0%nat) as -> by lia. simpl. split; [lia|]. by left.
  - destruct (s_finRecv (deref c p)); simpl; [split; [lia|done]|]. destruct (Nat.eqb_spec n 0); simpl; [|by eexists].
    split; [lia|]. by left.
Qed.

Lemma read_try_conn c : (read_try p n c).2 = exec (OpRead p n) c.
Proof.
  unfold read_try. simpl. destruct (tryRead p n c) as [[data err|ch dl] c1]; [destruct (_ || _)|destruct (_ =? _)%nat]; done.
Qed.

(** Where a call is, with the try that it waits after. *)
Definition read_since (cfg : Config) (isServer : bool) (x : read_pc * Conn) : Prop :=
  reach cfg isServer x.2 /\ holds_recv x.2 p /\
  match x.1 with
  | ReadWait ch dl => exists k c0 c1, ch = Some k /\ reach cfg isServer c0 /\ in_range c0 /\ holds_recv c0 p /\
      tryRead p n c0 = (TryWait k dl, c1) /\ steps c1 x.2
  | pc => read_ok pc x.2
  end.

Lemma holds_recv_exec o c : holds_recv c p -> holds_recv (exec o c) p.
Proof. apply (handle_kept (EReceiveStream p) c), held_exec. Qed.

Lemma read_since_step cfg isServer x y : read_call p n x y -> read_since cfg isServer x -> read_since cfg isServer y.
Proof.
  intros Hs (R & Hh & Hx). destruct Hs as [c Hr|now ch dl c Hw|now ch dl c e Hw|o pc c Hr Hv]; simpl in *.
  - pose proof (read_try_ok c) as Ht. pose proof (read_try_conn c) as Ec.
    split; [rewrite Ec; by constructor|]. split; [rewrite Ec; by apply holds_recv_exec|].
    destruct (read_try p n c) as [[|ch dl|data err] c1]; simpl in *; [done| |done].
    destruct Ht as (k & -> & E). exists k, c, c1. split_and!; try done. constructor.
  - done.
  - split; [done|]. split; [done|]. simpl. split; [lia|done].
  - split; [by constructor|]. split; [by apply holds_recv_exec|]. destruct pc as [|ch dl|data err]; try done.
    destruct Hx as (k & c0 & c1 & H1 & H2 & H3 & H4 & H5 & H6). exists k, c0, c1. split_and!; try done. by eapply steps_snoc.
Qed.
End read.

(** C33: the contract of [Read], on a stream that the application holds.
    Whatever the other goroutines do meanwhile, a [Read] never waits on a nil
    channel: at any time while it waits, its channel is closed, so that it goes
    on, or is the one that the stream's next broadcast closes, and a new try
    would still have nothing to return and wait for the same. When it returns,
    it returns at most as much as the buffer holds, either data and no error, or
    an error and no data; it returns nothing and no error only for an empty
    buffer. *)
Theorem read_contract {GA : GoAppend} cfg isServer p n c pc c' :
  config_ok cfg -> reach cfg isServer c -> holds_recv c p ->
  rtc (read_call p n) (ReadTry, c) (pc, c') -> read_ok p n pc c'.
Proof.
  intros Hcfg R Hh H.
  assert (G : forall x y, rtc (read_call p n) x y -> read_since p n cfg isServer x -> read_since p n cfg isServer y)
    by (induction 1; eauto using read_since_step).
  destruct (G _ _ H) as (_ & _ & Hy); [done|]. simpl in Hy. destruct pc as [|ch dl|data err]; try done.
  destruct Hy as (k & c0 & c1 & -> & R0 & Hr0 & Hh0 & E & Hs). exists k. split; [done|].
  destruct (decide (k ∈ c_closed c')) as [|Hk]; [by left|right].
  destruct (read_waits cfg isServer c0 Hcfg R0 Hr0 p n k dl c1 c' Hh0 E Hs Hk) as (Hp & Hsig & Hb & Ha). split; [done|].
  apply tryRead_blocked; try done. apply Ha.
Qed.


(** * Write *)

Section write.
Context {V : QuicVarint} {VL : QuicVarintLaws V} {GA : GoAppend} {T : Type} {RT : RecordTransport T} {RTL : RecordTransportLaws T RT}.
Context (cfg : Config) (isServer : bool) (Hcfg : config_ok cfg) (p : nat) (data : bytes) (Hdata : zlen data < 2 ^ 63).
Implicit Types (e : endpoint T).





(** ** Steps of the endpoint *)







(** ** Steps of the call *)






End write.
