(* ===== verification/Peers.v ===== *)
(** Two connections of this package that talk to each other.

    The state of the pair is the two connections and the frames that are on
    their way in each direction. The transport is reliable and ordered, and one
    writer at a time holds the write lock from the moment it takes the frames
    from the connection until they are on the transport; so the frames of an
    operation join the queue in the same step. The first frame in each direction is the
    transport parameters: [newConn] hands the write lock to [writeLoop], which
    releases it once they are written. [Interop.writers_act] shows that the
    endpoint's writers put these frames on the transport, and
    [Concurrent.goroutines_refine_pair] that goroutines which interleave between
    these points still take the steps of the pair. *)

From S2P Require Import Prelude Varint Params Frame WriteLock Config State Core Stream Conn System Facts Ids Table Flow Life Control Wake Transport Endpoint Wire Scenario History.

(** * The pair *)

(** What the peer learns of a configuration. *)
Definition declared (c : Conn) : Parameters := params_received (localParameters (c_config c)).

(** The operations that put nothing on the transport; [terminate] ends the
    connection. *)
Definition silent (o : op) : bool :=
  match o with
  | OpFrame _ _ | OpReserve _ _ | OpFinish _ | OpTakeControl _ | OpTerminate _ => false
  | _ => true
  end.

Section pair.
Context {V : QuicVarint} {GA : GoAppend}.

(** What a connection does by itself, and the frames it puts on the transport:
    [writeChunk], [closeSend], [flushControl] and [SendDatagram] with the
    critical section that each of them runs, and all the others. *)
Inductive acts (c : Conn) : list frame -> Conn -> Prop :=
| acts_silent o : silent o = true -> valid o c -> acts c [] (exec o c)
| acts_chunk p n off k d c' :
    holds_send c p -> 0 <= n < 2 ^ 63 -> reserve p n c = (inl (off, k), c') -> zlen d = k ->
    acts c (if k =? 0 then [] else [Stream (s_id (deref c p)) off d false]) c'
| acts_fin p off c' :
    holds_send c p -> finish p c = (inl (Some off), c') -> acts c [Stream (s_id (deref c p)) off [] true] c'
| acts_flush now : acts c (takeControl now c).1 (takeControl now c).2
| acts_datagram d n :
    zlen d < 2 ^ 60 -> Datagram_Len d = Some n -> n <= datagramLimit c -> acts c [Datagram d] c.

(** The two connections, with the frames from the first to the second, and
    back. *)
Record pair := mkPair { left : Conn; ltr : list frame; right : Conn; rtl : list frame }.

Definition swap_pair (x : pair) : pair := mkPair (right x) (rtl x) (left x) (ltr x).

(** A step of the first connection: it acts, or it handles the next frame. *)
Inductive left_step : pair -> pair -> Prop :=
| left_acts a q b r fs a' :
    in_range a -> acts a fs a' -> left_step (mkPair a q b r) (mkPair a' (q ++ fs) b r)
| left_handles now a q b f r a' :
    in_range a -> handleFrameLocked now f a = (None, a') -> left_step (mkPair a q b (f :: r)) (mkPair a' q b r).

Inductive pair_step (x y : pair) : Prop :=
| step_left : left_step x y -> pair_step x y
| step_right : left_step (swap_pair x) (swap_pair y) -> pair_step x y.

(** A client and a server, from the moment that both have sent their transport
    parameters. *)
Inductive paired (cfgA cfgB : Config) : pair -> Prop :=
| paired_init nowA nowB :
    let a := newConn cfgA false nowA in let b := newConn cfgB true nowB in
    paired cfgA cfgB (mkPair a [TransportParameters (declared a)] b [TransportParameters (declared b)])
| paired_step x y : paired cfgA cfgB x -> pair_step x y -> paired cfgA cfgB y.
End pair.

(** * Streams by their identifier *)

Definition by_id (c : Conn) (id : Z) : option stream := snd <$> list_find (fun s => s_id s = id) (c_heap c).

Definition known (c : Conn) (id : Z) : Prop := is_Some (by_id c id).

(** What was sent on the stream and whether it has ended, and the same of what
    was received. *)
Definition send_state (c : Conn) (id : Z) : Z * bool :=
  match by_id c id with Some s => (s_sendOffset s, ended s) | None => (0, false) end.
Definition recv_state (c : Conn) (id : Z) : Z * bool :=
  match by_id c id with Some s => (s_recvOffset s, s_finRecv s || s_recvReset s) | None => (0, false) end.

(** The limits of the stream, or those that it will have when it is opened. *)
Definition send_limit (c : Conn) (id : Z) : Z :=
  match by_id c id with Some s => s_sendMax s | None => 0 end.
Definition recv_limit (c : Conn) (id : Z) : Z :=
  match by_id c id with Some s => s_recvMax s | None => s_recvMax (new_stream id c) end.
Definition peer_limit (c : Conn) (id : Z) : Z := s_sendMax (new_stream id c).

Abbreviation nodup_ids c := (NoDup (s_id <$> c_heap c)).

Lemma by_id_lookup c id s :
  nodup_ids c -> by_id c id = Some s <-> exists p, c_heap c !! p = Some s /\ s_id s = id.
Proof.
  intros H. unfold by_id. split.
  - intros ([p s'] & E & Hs)%fmap_Some. apply list_find_Some in E as (E1 & E2 & _). simpl in *. subst s'. by exists p.
  - intros (p & Hp & Hid). destruct (list_find _ _) as [[q s']|] eqn:E.
    + apply list_find_Some in E as (E1 & E2 & _). simpl. f_equal.
      assert (q = p) as ->; [|congruence]. apply (NoDup_lookup _ q p id H); rewrite list_lookup_fmap, ?E1, ?Hp; simpl; congruence.
    + apply list_find_None in E. rewrite list.Forall_forall in E. exfalso. apply (E s); [|done].
      apply list_elem_of_lookup. by exists p.
Qed.

Lemma by_id_Some c id s :
  ids_inv c -> by_id c id = Some s <-> exists p, ptr c p /\ deref c p = s /\ s_id s = id.
Proof.
  intros H. rewrite by_id_lookup by apply H. split.
  - intros (p & Hp & Hid). exists p. split; [by eapply lookup_lt_Some|]. split; [|done].
    unfold deref. by apply list_lookup_total_correct.
  - intros (p & Hp & <- & Hid). exists p. split; [by apply heap_lookup|done].
Qed.

Lemma by_id_ptr c p : ids_inv c -> ptr c p -> by_id c (s_id (deref c p)) = Some (deref c p).
Proof. intros H Hp. apply by_id_Some; [done|]. by exists p. Qed.

Lemma known_ptr c id : ids_inv c -> known c id <-> exists p, ptr c p /\ s_id (deref c p) = id.
Proof.
  intros H. split.
  - intros [s Hs]. apply by_id_Some in Hs as (p & Hp & <- & E); [|done]. by exists p.
  - intros (p & Hp & <-). exists (deref c p). by apply by_id_ptr.
Qed.

(** The streams after one of them was replaced, or a new one appended. *)
Lemma by_id_insert c c' p s' :
  ids_inv c -> ptr c p -> c_heap c' = <[p := s']> (c_heap c) -> s_id s' = s_id (deref c p) ->
  forall id, by_id c' id = if id =? s_id (deref c p) then Some s' else by_id c id.
Proof.
  intros H Hp Eh Es id.
  assert (Hn : nodup_ids c').
  { assert (s_id <$> c_heap c' = s_id <$> c_heap c) as ->; [|apply H]. rewrite Eh. by apply fmap_insert_same. }
  apply option_eq. intros s. rewrite (by_id_lookup c' id s Hn). destruct (Z.eqb_spec id (s_id (deref c p))) as [E|Hne].
  - split.
    + intros (q & Hq & Hid). rewrite Eh in Hq. f_equal. apply list_lookup_insert_Some in Hq as [(_ & ? & _)|[Hne Hq]]; [done|].
      exfalso. apply Hne. symmetry. apply (NoDup_lookup _ q p id (id_nodup _ H)); rewrite list_lookup_fmap.
      * by rewrite Hq, <- Hid.
      * rewrite heap_lookup by done. simpl. congruence.
    + intros [= <-]. exists p. rewrite Eh. split; [by apply list_lookup_insert_eq|congruence].
  - rewrite by_id_lookup by apply H. split; intros (q & Hq & Hid); exists q; (split; [|done]).
    + rewrite Eh in Hq. apply list_lookup_insert_Some in Hq as [(_ & <- & _)|[_ Hq]]; [congruence|done].
    + rewrite Eh, list_lookup_insert_ne; [done|]. intros ->. rewrite heap_lookup in Hq by done. congruence.
Qed.

Lemma by_id_snoc c c' s' :
  nodup_ids c' -> c_heap c' = c_heap c ++ [s'] ->
  by_id c (s_id s') = None /\ forall id, by_id c' id = if id =? s_id s' then Some s' else by_id c id.
Proof.
  intros Hn Eh. assert (H := Hn). rewrite Eh, fmap_app in H. apply list.NoDup_app in H as (H1 & H2 & _).
  assert (Hnone : by_id c (s_id s') = None).
  { destruct (by_id c (s_id s')) as [s|] eqn:E; [|done]. apply by_id_lookup in E as (p & Hp & E); [|done].
    exfalso. apply (H2 (s_id s')); [|by left]. apply list_elem_of_fmap. exists s. split; [done|]. apply list_elem_of_lookup. by exists p. }
  split; [done|]. intros id. apply option_eq. intros s. rewrite (by_id_lookup c' id s Hn), Eh.
  destruct (Z.eqb_spec id (s_id s')) as [E|Hne].
  - split.
    + intros (q & Hq & Hid). apply lookup_snoc_Some in Hq as [[_ Hq]|[_ ->]]; [|done]. exfalso.
      assert (by_id c id = Some s) by (apply by_id_lookup; [done|by exists q]). congruence.
    + intros [= <-]. exists (length (c_heap c)). split; [|done]. apply lookup_snoc_Some. by right.
  - rewrite by_id_lookup by done. split; intros (q & Hq & Hid); exists q; (split; [|done]).
    + apply lookup_snoc_Some in Hq as [[_ Hq]|[_ ->]]; [done|congruence].
    + apply lookup_snoc_Some. left. split; [by eapply lookup_lt_Some|done].
Qed.

(** A view of the streams that has their identifiers determines the view by
    identifier. *)
Lemma by_id_view {T} (g : stream -> T) c c' id :
  (forall s s', g s = g s' -> s_id s = s_id s') -> g <$> c_heap c' = g <$> c_heap c ->
  g <$> by_id c' id = g <$> by_id c id.
Proof.
  intros Hg. unfold by_id. generalize (c_heap c), (c_heap c'). intros l. induction l as [|s l IH]; intros [|s' l'] E; try done.
  simpl in E. injection E as E1 E2. specialize (IH l' E2). simpl.
  destruct (decide (s_id s' = id)) as [H1|H1], (decide (s_id s = id)) as [H2|H2].
  - simpl. by rewrite E1.
  - apply Hg in E1. congruence.
  - apply Hg in E1. congruence.
  - rewrite <- !option_fmap_compose in IH |- *. destruct (list_find _ l') as [[]|], (list_find _ l) as [[]|]; simpl in *; try done; congruence.
Qed.

(** * Frames in order *)

(** The offset of a stream and whether it has ended, after the frames. Each of
    them must follow the ones before it, and none may follow the end. *)
Fixpoint track (id : Z) (st : Z * bool) (fs : list frame) : option (Z * bool) :=
  match fs with
  | [] => Some st
  | Stream sid off d fin :: fs =>
      if sid =? id then if (off =? st.1) && negb st.2 then track id (off + zlen d, fin) fs else None
      else track id st fs
  | ResetStream sid _ n :: fs =>
      if sid =? id then if (n =? st.1) && negb st.2 then track id (n, true) fs else None
      else track id st fs
  | _ :: fs => track id st fs
  end.

(** The frame is part of the data of the stream. *)
Definition touches (id : Z) (f : frame) : bool :=
  match f with Stream sid _ _ _ | ResetStream sid _ _ => sid =? id | _ => false end.

Lemma track_app id st fs gs : track id st (fs ++ gs) = track id st fs ≫= fun st' => track id st' gs.
Proof. revert st. induction fs as [|f fs IH]; intros st; [done|]. destruct f; simpl; repeat case_match; try done; apply IH. Qed.

Lemma track_skip id st fs : Forall (fun f => touches id f = false) fs -> track id st fs = Some st.
Proof. induction 1 as [|f fs Hf _ IH]; [done|]. destruct f; simpl in *; rewrite ?Hf; done. Qed.

Lemma track_cons_skip id st f fs : touches id f = false -> track id st (f :: fs) = track id st fs.
Proof. destruct f; simpl; try done; by intros ->. Qed.

Lemma track_le id st fs st' : track id st fs = Some st' -> st.1 <= st'.1.
Proof.
  revert st. induction fs as [|f fs IH]; intros st; simpl; [by intros [= ->]|].
  destruct f; try apply IH; (destruct (_ =? id); [|apply IH]; destruct (_ && _) eqn:E; [|done]); intros H%IH; simpl in H; lia.
Qed.

Lemma track_closed id o fs st' :
  track id (o, true) fs = Some st' -> st' = (o, true) /\ Forall (fun f => touches id f = false) fs.
Proof.
  induction fs as [|f fs IH]; simpl; [by intros [= <-]|].
  assert (Hc : forall b : bool, track id (o, true) fs = Some st' -> touches id f = false ->
    st' = (o, true) /\ Forall (fun f => touches id f = false) (f :: fs)).
  { intros _ E Hf. destruct (IH E) as [-> H]. split; [done|by constructor]. }
  destruct f; try (intros E; by apply (Hc true)); simpl.
  - destruct (_ =? id) eqn:Es; [rewrite andb_false_r; done|]. intros E. by apply (Hc true).
  - destruct (_ =? id) eqn:Es; [rewrite andb_false_r; done|]. intros E. by apply (Hc true).
Qed.

(** Among the queued frames, only one that ends the stream touches it. *)
Lemma track_queued id st fs o :
  Forall queued fs -> track id st fs = Some (o, false) -> st = (o, false) /\ Forall (fun f => touches id f = false) fs.
Proof.
  intros Hq. revert st. induction Hq as [|f fs Hf _ IH]; intros st; simpl; [by intros [= ->]|].
  destruct f; try done; simpl in *.
  - destruct (_ =? id) eqn:E.
    + destruct (_ && _); [|done]. by intros [? _]%track_closed.
    + intros [-> H]%IH. by repeat constructor.
  - intros [-> H]%IH. by repeat constructor.
  - intros [-> H]%IH. by repeat constructor.
Qed.

(** * Runs of the pair *)

(** What an endpoint does in its turn. *)
Inductive turn :=
| Do (o : op)
| Chunk (p : nat) (n : Z) (d : bytes)
| Fin (p : nat)
| Flush (now : Z)
| SendData (d : bytes)
| Handle (now : Z).

Section runs.
Context {V : QuicVarint} {GA : GoAppend}.

(** The first connection takes the turn, if it can. *)
Definition turn_left (t : turn) (x : pair) : option pair :=
  let '(mkPair a q b r) := x in
  if negb (in_rangeb a) then None else
  match t with
  | Do o => if silent o && validb o a then Some (mkPair (exec o a) q b r) else None
  | Chunk p n d =>
      match reserve p n a with
      | (inl (off, k), a') =>
          if validb (OpReserve p n) a && (zlen d =? k)
          then Some (mkPair a' (q ++ if k =? 0 then [] else [Stream (s_id (deref a p)) off d false]) b r) else None
      | _ => None
      end
  | Fin p =>
      match finish p a with
      | (inl (Some off), a') =>
          if validb (OpFinish p) a then Some (mkPair a' (q ++ [Stream (s_id (deref a p)) off [] true]) b r) else None
      | _ => None
      end
  | Flush now => Some (mkPair (takeControl now a).2 (q ++ (takeControl now a).1) b r)
  | SendData d =>
      match Datagram_Len d with
      | Some n => if (n <=? datagramLimit a) && (zlen d <? 2 ^ 60) then Some (mkPair a (q ++ [Datagram d]) b r) else None
      | None => None
      end
  | Handle now =>
      match r with
      | f :: r => match handleFrameLocked now f a with (None, a') => Some (mkPair a' q b r) | _ => None end
      | [] => None
      end
  end.

Lemma turn_left_step t x y : turn_left t x = Some y -> left_step x y.
Proof.
  destruct x as [a q b r]. unfold turn_left. destruct (in_rangeb a) eqn:Hr; [|done]. apply in_rangeb_ok in Hr. cbn [negb].
  destruct t as [o|p n d|p|now|d|now].
  - destruct (_ && _) eqn:E; [|done]. apply andb_true_iff in E as [E1 E2]. intros [= <-].
    rewrite <- (app_nil_r q) at 2. apply left_acts; [done|]. constructor; [done|by apply validb_ok].
  - destruct (reserve p n a) as [[[off k]|e] a'] eqn:E; [|done]. destruct (_ && _) eqn:Ev; [|done].
    apply andb_true_iff in Ev as [Ev El%Z.eqb_eq]. apply validb_ok in Ev as [E1 E2]. intros [= <-].
    apply left_acts; [done|]. by eapply acts_chunk.
  - destruct (finish p a) as [[[off|]|e] a'] eqn:E; try done. destruct (validb _ _) eqn:Ev; [|done]. apply validb_ok in Ev.
    intros [= <-]. apply left_acts; [done|]. by apply acts_fin.
  - intros [= <-]. apply left_acts; [done|]. apply acts_flush.
  - destruct (Datagram_Len d) as [n|] eqn:E; [|done]. destruct (_ && _) eqn:Ev; [|done]. intros [= <-].
    apply left_acts; [done|]. apply (acts_datagram a d n); [lia|done|lia].
  - destruct r as [|f r]; [done|]. destruct (handleFrameLocked now f a) as [[e|] a'] eqn:E; [done|]. intros [= <-].
    by eapply left_handles.
Qed.

(** Turns of both; [true] is the first connection. *)
Fixpoint turns (ts : list (bool * turn)) (x : pair) : option pair :=
  match ts with
  | [] => Some x
  | (true, t) :: ts => turn_left t x ≫= turns ts
  | (false, t) :: ts => y ← turn_left t (swap_pair x); turns ts (swap_pair y)
  end.

Lemma swap_swap x : swap_pair (swap_pair x) = x.
Proof. by destruct x. Qed.

Lemma turns_paired cfgA cfgB ts x y : paired cfgA cfgB x -> turns ts x = Some y -> paired cfgA cfgB y.
Proof.
  revert x. induction ts as [|[[] t] ts IH]; intros x Hx E; simpl in E.
  - by injection E as <-.
  - apply bind_Some in E as (z & Ez & E). apply (IH z); [|done]. eapply paired_step; [exact Hx|]. apply step_left. by eapply turn_left_step.
  - apply bind_Some in E as (z & Ez & E). apply (IH (swap_pair z)); [|done]. eapply paired_step; [exact Hx|]. apply step_right.
    rewrite swap_swap. exact (turn_left_step t (swap_pair x) z Ez).
Qed.
End runs.
