(* ===== verification/Ahead.v ===== *)
(** What a connection does between the frames of its peer.

    [ahead] relates the two states of a connection around an operation that puts
    nothing on the transport: limits only grow, streams are only added, what was
    sent and received stays, and the frames that it queues follow what was sent
    on their streams and are backed by the state of the connection. *)

From S2P Require Import Prelude Varint Params Frame WriteLock Config State Core Stream Conn System Facts Ids Table Flow Life Control Wake Transport Endpoint Wire LifeTheorems History FrameTheorems Grow Peers.

(** ** The parts that stay *)

Definition fixed (c : Conn) :=
  (c_isServer c, c_config c, c_peer c, c_ready c, c_closeErr c, (c_sendMax c, c_sent c, c_received c),
   (c_nextPing c, c_peerPinged c, c_peerPingLast c, c_pongPending c, c_pongSequence c),
   (o_max (c_outBidi c), o_max (c_outUni c))).

(** Frames that the state of their sender stands behind. *)
Definition backed (c : Conn) (f : frame) : Prop :=
  match f with
  | Stream sid _ _ _ | ResetStream sid _ _ => known c sid /\ can_send c sid = true
  | StopSending sid _ => known c sid /\ can_recv c sid = true
  | MaxStreamData sid m => known c sid /\ can_recv c sid = true /\ m <= recv_limit c sid
  | MaxData m => m <= c_recvMax c
  | MaxStreams uni m => m <= i_max (c_in (if uni then dirUni else dirBidi) c)
  | Ping resp seq => resp = false -> seq < c_nextPing c
  | TransportParameters p => p = declared c
  | Blocked | Datagram _ => True
  | ConnectionClose _ _ _ _ => False
  end.

Record ahead (b : dir -> Z) (new : list frame) (c c' : Conn) : Prop := {
  ah_fixed : fixed c' = fixed c;
  ah_recvMax : c_recvMax c <= c_recvMax c';
  ah_out d : o_next (c_out d c) <= o_next (c_out d c');
  ah_opened d j : o_next (c_out d c) <= j < o_next (c_out d c') -> known c' (streamID c j d true);
  ah_next d : i_next (c_in d c') <= Z.max (i_next (c_in d c)) (b d);
  ah_max d : i_max (c_in d c) <= i_max (c_in d c');
  ah_control : c_control c' = c_control c ++ new;
  ah_known id : known c id -> known c' id;
  ah_send id : track id (send_state c id) new = Some (send_state c' id);
  ah_recv id : recv_state c' id = recv_state c id;
  ah_sendLimit id : send_limit c' id <= Z.max (send_limit c id) (peer_limit c id);
  ah_recvLimit id : recv_limit c id <= recv_limit c' id;
  ah_new : Forall (backed c') new;
}.

(** No streams of the peer. *)
Definition none (d : dir) : Z := 0.

Ltac fixed_eqs H := unfold fixed in H; injection H as ? ? ? ? ? ? ? ? ? ? ? ? ? ? ?.

Lemma initiated_fixed c c' id : c_isServer c' = c_isServer c -> initiatedLocally c' id = initiatedLocally c id.
Proof. unfold initiatedLocally. by intros ->. Qed.

Lemma streamID_fixed c c' j d local : c_isServer c' = c_isServer c -> streamID c' j d local = streamID c j d local.
Proof. unfold streamID. by intros ->. Qed.

Lemma can_fixed c c' id :
  c_isServer c' = c_isServer c -> can_recv c' id = can_recv c id /\ can_send c' id = can_send c id.
Proof. intros E. unfold can_recv, can_send. by rewrite (initiated_fixed c c' id E). Qed.

Lemma new_stream_fixed c c' id :
  c_isServer c' = c_isServer c -> c_config c' = c_config c -> c_peer c' = c_peer c -> new_stream id c' = new_stream id c.
Proof. intros E1 E2 E3. unfold new_stream. by rewrite (initiated_fixed c c' id E1), E2, E3. Qed.

Lemma backed_mono c c' f :
  c_isServer c' = c_isServer c -> c_config c' = c_config c -> c_recvMax c <= c_recvMax c' ->
  (forall d, i_max (c_in d c) <= i_max (c_in d c')) -> c_nextPing c <= c_nextPing c' ->
  (forall id, known c id -> known c' id) -> (forall id, recv_limit c id <= recv_limit c' id) -> backed c f -> backed c' f.
Proof.
  intros E1 E2 H1 H2 H3 H4 H5. assert (Hc := fun id => can_fixed c c' id E1).
  destruct f; simpl; intros Hb; try done.
  - destruct (Hc StreamID) as [_ ->]. destruct Hb. auto.
  - destruct (Hc StreamID) as [-> _]. destruct Hb. auto.
  - destruct (Hc StreamID) as [_ ->]. destruct Hb. auto.
  - lia.
  - destruct (Hc StreamID) as [-> _]. destruct Hb as (? & ? & ?). split_and!; [auto|done|]. specialize (H5 StreamID). lia.
  - specialize (H2 (if Uni then dirUni else dirBidi)). lia.
  - intros E. specialize (Hb E). lia.
  - unfold declared in *. by rewrite E2.
Qed.

Lemma backed_ahead b new c c' f : ahead b new c c' -> backed c f -> backed c' f.
Proof. intros [F A1 _ _ _ A4 _ A6 _ _ _ A10 _]. fixed_eqs F. apply backed_mono; try done. lia. Qed.

Lemma ahead_trans b new1 new2 c1 c2 c3 : ahead b new1 c1 c2 -> ahead b new2 c2 c3 -> ahead b (new1 ++ new2) c1 c3.
Proof.
  intros A B. pose proof (backed_ahead b new2 c2 c3) as Hb. destruct A as [F A1 A2 Ao A3 A4 A5 A6 A7 A8 A9 A10 A11].
  assert (B' := B). destruct B as [G B1 B2 Bo B3 B4 B5 B6 B7 B8 B9 B10 B11]. split; try done.
  - congruence.
  - lia.
  - intros d. specialize (A2 d). specialize (B2 d). lia.
  - intros d j Hj. fixed_eqs F. destruct (Z.lt_ge_cases j (o_next (c_out d c2))); [apply B6, Ao; lia|].
    rewrite <- (streamID_fixed c1 c2) by done. apply Bo. lia.
  - intros d. specialize (A3 d). specialize (B3 d). lia.
  - intros d. specialize (A4 d). specialize (B4 d). lia.
  - by rewrite B5, A5, app_assoc.
  - auto.
  - intros id. rewrite track_app, A7. simpl. by rewrite B7.
  - intros id. by rewrite B8, A8.
  - intros id. specialize (A9 id). specialize (B9 id).
    assert (E : peer_limit c2 id = peer_limit c1 id).
    { unfold peer_limit. fixed_eqs F. by rewrite (new_stream_fixed c1 c2). }
    lia.
  - intros id. specialize (A10 id). specialize (B10 id). lia.
  - apply Forall_app. split; [|done]. eapply list.Forall_impl; [exact A11|]. intros f. by apply (Hb f).
Qed.

Lemma ahead_nil_l b new c1 c2 c3 : ahead b [] c1 c2 -> ahead b new c2 c3 -> ahead b new c1 c3.
Proof. apply ahead_trans. Qed.

Lemma ahead_nil_r b new c1 c2 c3 : ahead b new c1 c2 -> ahead b [] c2 c3 -> ahead b new c1 c3.
Proof. intros A B. rewrite <- (app_nil_r new). by eapply ahead_trans. Qed.

(** ** Operations that change nothing of it *)

Definition hview (s : stream) :=
  (s_id s, (s_sendOffset s, ended s), (s_recvOffset s, s_finRecv s || s_recvReset s), (s_sendMax s, s_recvMax s)).

Definition pv (c : Conn) :=
  (fixed c, c_recvMax c, (o_next (c_outBidi c), o_next (c_outUni c)),
   ((i_next (c_inBidi c), i_max (c_inBidi c)), (i_next (c_inUni c), i_max (c_inUni c))), c_control c, hview <$> c_heap c).

Lemma hview_by_id c c' id :
  hview <$> c_heap c' = hview <$> c_heap c -> hview <$> by_id c' id = hview <$> by_id c id.
Proof. apply by_id_view. unfold hview. congruence. Qed.

Lemma ahead_same_view b c c' :
  fixed c' = fixed c -> c_recvMax c <= c_recvMax c' -> (forall d, o_next (c_out d c') = o_next (c_out d c)) ->
  (forall d, i_next (c_in d c') = i_next (c_in d c)) -> (forall d, i_max (c_in d c) <= i_max (c_in d c')) ->
  c_control c' = c_control c -> hview <$> c_heap c' = hview <$> c_heap c -> ahead b [] c c'.
Proof.
  intros F A1 A2 A3 A4 A5 Hh. assert (Hv := fun id => hview_by_id c c' id Hh).
  assert (Hn : forall id, new_stream id c' = new_stream id c) by (intros id; fixed_eqs F; by apply new_stream_fixed).
  split; try done.
  - intros d. rewrite A2. lia.
  - intros d j Hj. rewrite A2 in Hj. lia.
  - intros d. rewrite A3. lia.
  - by rewrite app_nil_r.
  - intros id [s Hs]. specialize (Hv id). unfold known. rewrite Hs in Hv. destruct (by_id c' id); [by eexists|done].
  - intros id. specialize (Hv id). unfold send_state. simpl. destruct (by_id c' id), (by_id c id); simpl in Hv; try done.
    unfold hview in Hv. congruence.
  - intros id. specialize (Hv id). unfold recv_state. destruct (by_id c' id), (by_id c id); simpl in Hv; try done.
    unfold hview in Hv. congruence.
  - intros id. specialize (Hv id). unfold send_limit. destruct (by_id c' id), (by_id c id); simpl in Hv; try done; [|lia].
    unfold hview in Hv. injection Hv as _ _ _ _ _ -> _. lia.
  - intros id. specialize (Hv id). unfold recv_limit. destruct (by_id c' id), (by_id c id); simpl in Hv; try done; [|by rewrite Hn].
    unfold hview in Hv. injection Hv as _ _ _ _ _ _ ->. lia.
Qed.

Lemma ahead_pv b c c' : pv c' = pv c -> ahead b [] c c'.
Proof.
  intros E. pose proof (f_equal (fun x => x.1.1.1.1.1) E) as E1. pose proof (f_equal (fun x => x.1.1.1.1.2) E) as E2.
  pose proof (f_equal (fun x => x.1.1.1.2) E) as E3. pose proof (f_equal (fun x => x.1.1.2) E) as E4.
  pose proof (f_equal (fun x => x.1.2) E) as E5. pose proof (f_equal snd E) as E6. clear E. simpl in *.
  injection E3 as E31 E32. injection E4 as E41 E42 E43 E44.
  apply ahead_same_view; try done; try lia; intros []; simpl; lia.
Qed.

Lemma ahead_refl b c : ahead b [] c c.
Proof. by apply ahead_pv. Qed.

Lemma pv_upd p f c : hview (f (deref c p)) = hview (deref c p) -> pv (upd p f c) = pv c.
Proof. intros H. unfold pv, upd. simpl. f_equal. by apply fmap_insert_same. Qed.

Lemma pv_broadcast_read p c : pv (broadcast_read p c) = pv c.
Proof. unfold broadcast_read. by rewrite pv_upd. Qed.
Lemma pv_broadcast_write p c : pv (broadcast_write p c) = pv c.
Proof. unfold broadcast_write. by rewrite pv_upd. Qed.
Lemma pv_broadcast_send c : pv (broadcast_send c) = pv c.
Proof. done. Qed.
Lemma pv_broadcast_out d c : pv (broadcast_out d c) = pv c.
Proof. by destruct d. Qed.
Lemma pv_broadcast_in d c : pv (broadcast_in d c) = pv c.
Proof. by destruct d. Qed.
Lemma pv_cancel p cause c : pv (stream_cancel p cause c) = pv c.
Proof.
  unfold stream_cancel. destruct (negb _); [done|]. destruct (stream_cause _ _); [done|]. by rewrite pv_upd.
Qed.

Create Rewrite HintDb pv.
#[export] Hint Rewrite pv_broadcast_read pv_broadcast_write pv_broadcast_send pv_broadcast_out pv_broadcast_in pv_cancel : pv.

(** * Operations on one stream *)

Section one_stream.
Context (b : dir -> Z) (c : Conn) (p : nat) (Hi : ids_inv c) (Hp : ptr c p).
Abbreviation s := (deref c p).

Lemma ahead_stream new s' c' :
  c_heap c' = <[p := s']> (c_heap c) -> s_id s' = s_id s -> fixed c' = fixed c -> c_recvMax c <= c_recvMax c' ->
  (forall d, o_next (c_out d c') = o_next (c_out d c)) -> (forall d, i_next (c_in d c') = i_next (c_in d c)) ->
  (forall d, i_max (c_in d c) <= i_max (c_in d c')) -> c_control c' = c_control c ++ new ->
  (forall id, id <> s_id s -> Forall (fun f => touches id f = false) new) ->
  track (s_id s) (s_sendOffset s, ended s) new = Some (s_sendOffset s', ended s') ->
  s_recvOffset s' = s_recvOffset s -> s_finRecv s' || s_recvReset s' = s_finRecv s || s_recvReset s ->
  s_sendMax s' = s_sendMax s -> s_recvMax s <= s_recvMax s' -> Forall (backed c') new -> ahead b new c c'.
Proof using Hi Hp.
  intros Eh Eid F A1 A2 A3 A4 A5 Hother Htrack Er Ef Es Hm Hb.
  assert (Hby := by_id_insert c c' p s' Hi Hp Eh Eid). assert (Hs := by_id_ptr c p Hi Hp).
  assert (Hn : forall id, new_stream id c' = new_stream id c) by (intros id; fixed_eqs F; by apply new_stream_fixed).
  split; try done.
  - intros d. rewrite A2. lia.
  - intros d j Hj. rewrite A2 in Hj. lia.
  - intros d. rewrite A3. lia.
  - intros id [x Hx]. unfold known. rewrite Hby. destruct (_ =? _); by eexists.
  - intros id. unfold send_state. rewrite Hby. destruct (Z.eqb_spec id (s_id s)) as [->|Hne]; [by rewrite Hs|].
    by apply track_skip, Hother.
  - intros id. unfold recv_state. rewrite Hby. destruct (Z.eqb_spec id (s_id s)) as [->|Hne]; [|done]. rewrite Hs. congruence.
  - intros id. unfold send_limit. rewrite Hby. destruct (Z.eqb_spec id (s_id s)) as [->|Hne]; [rewrite Hs|]; lia.
  - intros id. unfold recv_limit. rewrite Hby, Hn. destruct (Z.eqb_spec id (s_id s)) as [->|Hne]; [by rewrite Hs|lia].
Qed.
End one_stream.

(** A stream is opened. *)
Lemma ahead_new b id c c' s' :
  nodup_ids c' -> c_heap c' = c_heap c ++ [s'] -> hview s' = hview (new_stream id c) -> fixed c' = fixed c ->
  c_recvMax c' = c_recvMax c -> (forall d, o_next (c_out d c) <= o_next (c_out d c')) ->
  (forall d j, o_next (c_out d c) <= j < o_next (c_out d c') -> id = streamID c j d true) ->
  (forall d, i_next (c_in d c') <= Z.max (i_next (c_in d c)) (b d)) -> (forall d, i_max (c_in d c') = i_max (c_in d c)) ->
  c_control c' = c_control c -> ahead b [] c c'.
Proof.
  intros Hnd Eh Ev F A1 A2 Ao A3 A4 A5. pose proof (new_stream_data id c) as Hd.
  destruct (by_id_snoc c c' s' Hnd Eh) as [Hnone Hby].
  assert (Hn : forall id, new_stream id c' = new_stream id c) by (intros i; fixed_eqs F; by apply new_stream_fixed).
  assert (N : s_id s' = id /\ (s_sendOffset s', ended s') = (0, false) /\
    (s_recvOffset s', s_finRecv s' || s_recvReset s') = (0, false) /\ s_sendMax s' = peer_limit c id /\
    s_recvMax s' = s_recvMax (new_stream id c)).
  { pose proof (new_stream_view id c) as Hv. unfold iview in Hv. unfold hview in Ev. unfold peer_limit.
    injection Ev as E1 E2 E3 E4 E5 E6 E7. injection Hv as V1 _ _ _ _. unfold data_of, rdata, wdata in Hd.
    unfold ended in *. rewrite E1, E2, E3, E4, E5, E6, E7, V1. split_and!; try done; unfold new_stream; by repeat case_match. }
  destruct N as (N1 & N2 & N3 & N4 & N5). rewrite N1 in *. split; try done.
  - rewrite A1. lia.
  - intros d j Hj. unfold known. rewrite <- (Ao d j Hj), Hby, Z.eqb_refl. by eexists.
  - intros d. rewrite A4. lia.
  - by rewrite app_nil_r.
  - intros i [x Hx]. unfold known. rewrite Hby. destruct (_ =? _); by eexists.
  - intros i. unfold send_state. rewrite Hby. simpl. destruct (Z.eqb_spec i id) as [->|]; [|done]. by rewrite Hnone, N2.
  - intros i. unfold recv_state. rewrite Hby. destruct (Z.eqb_spec i id) as [->|]; [|done]. by rewrite Hnone, N3.
  - intros i. unfold send_limit. rewrite Hby. destruct (Z.eqb_spec i id) as [->|]; lia.
  - intros i. unfold recv_limit. rewrite Hby, Hn. destruct (Z.eqb_spec i id) as [->|]; [rewrite Hnone|]; lia.
Qed.

(** A control frame is queued. *)
Lemma ahead_queue b f c :
  (forall id, touches id f = false) -> backed c f -> ahead b [f] c (queueLocked f c).
Proof.
  intros Ht Hb. split; try done; try (intros []; simpl; lia); try (intros id; simpl; lia).
  - intros id. by rewrite track_cons_skip.
  - intros id. change (send_limit (queueLocked f c) id) with (send_limit c id). lia.
  - apply Forall_singleton. by destruct f.
Qed.

(** ** Completion and flow control *)

Definition fits (c : Conn) : Prop := forall d, 0 <= i_max (c_in d c) <= 2 ^ 60.

Lemma in_range_fits c : ids_inv c -> in_range c -> fits c.
Proof.
  intros H Hr d. pose proof (id_in _ H d). pose proof (in_range_limits _ Hr d). lia.
Qed.

Lemma fits_pv c c' : pv c' = pv c -> fits c -> fits c'.
Proof.
  intros E H d. pose proof (f_equal (fun x => x.1.1.2) E) as E4. simpl in E4. injection E4 as _ E1 _ E2.
  specialize (H d). destruct d; simpl in *; lia.
Qed.

Lemma ahead_complete b p c : fits c -> ahead b [] c (completeLocked p c).
Proof.
  intros Hf. rewrite completeLocked_eq. cbv zeta.
  assert (Hm : forall d, i_next (complete_in d (deref c p) c) = i_next (c_in d c) /\
    i_max (c_in d c) <= i_max (complete_in d (deref c p) c)).
  { intros d. unfold complete_in. specialize (Hf d). destruct (_ && _ && _); simpl; [|lia].
    rewrite u64_id by (unfold is_u64; lia). lia. }
  apply ahead_same_view; [done|simpl; lia|by intros []|intros []; apply Hm|intros []; apply Hm|done|].
  simpl. destruct (completing _); [|done]. by apply fmap_insert_same.
Qed.

Lemma new_limit_le m consumed window n :
  0 <= n -> 0 <= consumed -> m <= consumed + window -> consumed + n + window < 2 ^ 64 -> 0 <= window ->
  m <= new_limit m (u64 (consumed + n)) window.
Proof.
  intros. unfold new_limit. rewrite (u64_id (consumed + n)) by (unfold is_u64; lia). destruct (_ <? _); [|lia].
  rewrite u64_id by (unfold is_u64; lia). lia.
Qed.

(** The data [n] can be counted as consumed without the limit overflowing. *)
Definition consumable (n : Z) (c : Conn) : Prop :=
  0 <= n /\ 0 <= c_consumed c /\ c_recvMax c <= c_consumed c + conn_window c /\ c_consumed c + n + conn_window c < 2 ^ 64 /\
  0 <= conn_window c.

Lemma flow_consumable n c : flow_inv c -> ranges c -> 0 <= n -> c_consumed c + n <= c_received c -> consumable n c.
Proof.
  intros H [R1 R2 R3] H1 H2. pose proof (consumed_range c H). pose proof (fl_window _ H). unfold consumable. lia.
Qed.

Lemma ahead_consume b n c : consumable n c -> ahead b [] c (consumeLocked n c).
Proof.
  intros (H1 & H2 & H3 & H4 & H5).
  apply ahead_same_view; [done| |by intros []|by intros []|intros []; simpl; lia|done|done].
  change (c_recvMax (consumeLocked n c)) with (new_limit (c_recvMax c) (u64 (c_consumed c + n)) (conn_window c)).
  by apply new_limit_le.
Qed.

(** ** Reading *)

Lemma stream_can c p : ids_inv c -> ptr c p ->
  known c (s_id (deref c p)) /\ can_recv c (s_id (deref c p)) = s_canRecv (deref c p) /\
  can_send c (s_id (deref c p)) = s_canSend (deref c p).
Proof.
  intros H Hp. destruct (id_stream _ H p Hp) as [_ S1 S2 _ _ _]. split_and!; [|done|done].
  apply known_ptr; [done|]. by exists p.
Qed.

Lemma ahead_readLocked b p n c :
  ids_inv c -> ptr c p -> s_canRecv (deref c p) = true -> consumable n c -> 0 <= s_readOffset (deref c p) ->
  s_recvMax (deref c p) <= s_readOffset (deref c p) + stream_window c -> 0 <= stream_window c ->
  s_readOffset (deref c p) + n + stream_window c < 2 ^ 62 -> exists new, ahead b new c (readLocked p n c).
Proof.
  intros Hi Hp Hc Hcons H1 H2 H3 H4. destruct (stream_can c p Hi Hp) as (K1 & K2 & _).
  pose proof (ahead_consume b n c Hcons) as [_ Am _ _ _ _ _ _ _ _ _ _ _]. destruct Hcons as (Hn & _).
  rewrite readLocked_eq by done. cbv zeta.
  rewrite (u64_id (s_readOffset (deref c p) + n)) by (unfold is_u64; lia).
  rewrite (u64_id (s_readOffset (deref c p) + n + stream_window c)) by (unfold is_u64; lia).
  set (low := negb _ && _). set (m := if low then _ else _). set (s' := set_s_recvMax m _).
  match goal with |- exists new, ahead b new c ?x => set (c' := x) end. eexists.
  assert (Hm : s_recvMax (deref c p) <= m) by (subst m; destruct low; lia).
  apply (ahead_stream b c p Hi Hp _ s'); [done|done|done|exact Am|by intros []|by intros []|intros []; simpl; lia|done|
    intros id _; by destruct low; repeat constructor|by destruct low|done|done|done|exact Hm|].
  - destruct low eqn:El; [|constructor]. apply Forall_singleton.
    destruct (can_fixed c c' (s_id (deref c p)) eq_refl) as [K3 _].
    assert (Hby : by_id c' (s_id (deref c p)) = Some s').
    { rewrite (by_id_insert c c' p s') by done. by rewrite Z.eqb_refl. }
    split_and!; [by eexists|congruence|]. unfold recv_limit. rewrite Hby. simpl. lia.
Qed.

Lemma hview_took n s : hview (took n s) = hview s.
Proof. unfold took. by destruct (_ =? _)%nat. Qed.

(** An operation that only registers what it waits for. *)
Ltac ahead_wait := apply ahead_pv; unfold pv; simpl; f_equal; by apply fmap_insert_same.

Section ops.
Context {GA : GoAppend} (b : dir -> Z) (c : Conn).
Hypothesis (Hi : ids_inv c) (Hf : flow_inv c) (Hr : in_range c).

Lemma ahead_then_complete new c1 p : ahead b new c c1 -> fits c1 -> ahead b new c (completeLocked p c1).
Proof using Type. intros H1 H2. eapply ahead_nil_r; [exact H1|by apply ahead_complete]. Qed.

Lemma ahead_read p n : holds_recv c p -> exists new, ahead b new c (tryRead p n c).2.
Proof using Hi Hf Hr.
  intros [[Hp Ha] Hc]. unfold tryRead. destruct (c_closeErr c); [exists []; apply ahead_refl|].
  destruct (s_recvErr (deref c p)); [exists []; apply ahead_refl|]. destruct (_ <? _)%nat.
  2:{ exists []. destruct (s_finRecv _); [apply ahead_refl|]. ahead_wait. }
  set (data := take n (unread (deref c p))). cbn [snd]. set (c1 := upd p (took (length data)) c).
  assert (E1 : pv c1 = pv c) by (subst c1; apply pv_upd, hview_took).
  pose proof (fl_stream _ Hf p Hp) as Hs. pose proof (in_range_ranges _ Hi Hr) as Hg. destruct Hg as [R1 R2 R3].
  assert (Hlen : 0 <= zlen data <= zlen (unread (deref c p))) by (subst data; rewrite length_take; lia).
  pose proof (buffered_room c Hf p Hp). pose proof (stream_received c Hf p Hp). pose proof (so_have _ _ Hs). pose proof (so_read _ _ Hs).
  destruct (took_fields (length data) (deref c p)) as (_ & F2 & F3 & _ & _ & _ & F7 & _).
  assert (Ed : deref c1 p = took (length data) (deref c p)) by (by apply deref_upd).
  assert (Hcons : consumable (zlen data) c) by (apply flow_consumable; [done|by apply in_range_ranges|lia|lia]).
  destruct (ahead_readLocked b p (zlen data) c1) as [new Hnew]; rewrite ?Ed, ?F2, ?F3, ?F7; try done; try lia.
  { eapply ids_same; [|exact Hi]. subst c1. apply iv_upd. unfold took. by destruct (_ =? _)%nat. }
  { subst c1. by apply ptr_upd. }
  { apply (so_window _ _ Hs). }
  { change (stream_window c1) with (stream_window c). lia. }
  { change (stream_window c1) with (stream_window c). lia. }
  exists new. apply ahead_then_complete.
  - eapply ahead_nil_l; [by apply ahead_pv|exact Hnew].
  - intros d. rewrite readLocked_eq by (subst c1; by apply ptr_upd). pose proof (in_range_fits c Hi Hr d) as Hd. by destruct d.
Qed.

Lemma ahead_peek p n : ahead b [] c (tryPeek p n c).2.
Proof using Type.
  unfold tryPeek. destruct (c_closeErr c); [apply ahead_refl|]. destruct (s_recvErr _); [apply ahead_refl|].
  destruct (_ <=? _)%nat; [apply ahead_refl|]. destruct (s_finRecv _); [apply ahead_refl|]. ahead_wait.
Qed.

Lemma ahead_cancelRead p code : holds_recv c p -> exists new, ahead b new c (cancelRead p code c).
Proof using Hi Hf Hr.
  intros [[Hp Ha] Hc]. unfold cancelRead. destruct (_ || _); [exists []; apply ahead_refl|].
  destruct (stream_can c p Hi Hp) as (K1 & K2 & _). set (c1 := upd p _ c). set (c2 := consumeLocked _ c1). set (c3 := upd p clear_rbuf c2).
  assert (E1 : pv c1 = pv c) by (subst c1; by apply pv_upd).
  assert (Hcons : consumable (zlen (unread (deref c p))) c1).
  { apply (flow_consumable (zlen (unread (deref c p))) c); [done|by apply in_range_ranges|lia|by apply buffered_room]. }
  assert (A3 : ahead b [] c c3).
  { eapply ahead_nil_l; [by apply ahead_pv|]. eapply ahead_nil_l; [by apply ahead_consume|]. apply ahead_pv. subst c3. by apply pv_upd. }
  assert (F3 : fits c3) by (intros d; pose proof (in_range_fits c Hi Hr d); by destruct d).
  assert (Hid : c_isServer c3 = c_isServer c) by done. forget c3.
  assert (A4 : exists new, ahead b new c (if negb (s_finRecv (deref c p)) then queueLocked (StopSending (s_id (deref c p)) code) c3 else c3) /\
    fits (if negb (s_finRecv (deref c p)) then queueLocked (StopSending (s_id (deref c p)) code) c3 else c3)).
  { destruct (negb _); [|by exists []]. exists [StopSending (s_id (deref c p)) code]. split; [|intros d; specialize (F3 d); by destruct d].
    eapply ahead_nil_l; [exact A3|]. apply ahead_queue; [done|]. split; [by apply (ah_known _ _ _ _ A3)|].
    destruct (can_fixed c c3 (s_id (deref c p)) Hid) as [-> _]. congruence. }
  destruct A4 as (new & A4 & F4). exists new. set (c4 := if negb _ then _ else c3) in *. forget c4.
  apply ahead_then_complete; [|by apply (fits_pv c4); [apply pv_broadcast_read|]].
  eapply ahead_nil_r; [exact A4|]. apply ahead_pv, pv_broadcast_read.
Qed.

(** ** Sending *)

Lemma ahead_trySend now p : ahead b [] c (trySend now p c).2.
Proof using Type.
  unfold trySend. destruct (sendErrLocked p c); [apply ahead_refl|]. destruct (_ && _); [apply ahead_refl|].
  destruct (_ <? _); [apply ahead_refl|]. ahead_wait.
Qed.

Lemma ahead_resetSend p code r : ptr c p -> exists new, ahead b new c (resetSendLocked p code r c).
Proof using Hi Hr.
  intros Hp. unfold resetSendLocked. destruct (sendDone (deref c p)) eqn:Ed; [exists []; apply ahead_refl|].
  destruct (stream_can c p Hi Hp) as (K1 & _ & K3).
  unfold sendDone in Ed. apply orb_false_iff in Ed as [[Hs%negb_false_iff E1]%orb_false_iff E2]. rewrite Hs in K3.
  set (e := ErrStream _ _ _). set (f := ResetStream _ _ _). set (c1 := stream_cancel p _ _). set (c2 := queueLocked f c1).
  assert (H2 : exists cause, c_heap c2 = <[p := set_s_cause cause (set_s_sendErr (Some e) (deref c p))]> (c_heap c)).
  { subst c2 c1. rewrite stream_cancel_eq. cbv zeta. simpl. rewrite deref_upd by done. eexists. by rewrite list_insert_insert_eq. }
  destruct H2 as [cause Eh].
  assert (F : fixed c2 = fixed c /\ c_recvMax c2 = c_recvMax c /\ (forall d, o_next (c_out d c2) = o_next (c_out d c)) /\
    (forall d, c_in d c2 = c_in d c) /\ c_control c2 = c_control c ++ [f]).
  { subst c2 c1. rewrite stream_cancel_eq. cbv zeta. split_and!; try done; by intros []. }
  destruct F as (F1 & F2 & F3 & F4 & F5). forget c2.
  assert (A : ahead b [f] c c2).
  { apply (ahead_stream b c p Hi Hp _ _ c2 Eh); try done; simpl; try lia.
    - intros d. by rewrite F4.
    - intros d. by rewrite F4.
    - intros id Hid. apply Forall_singleton. simpl. apply Z.eqb_neq. congruence.
    - unfold ended. rewrite E1, E2, !Z.eqb_refl. simpl. by rewrite orb_true_r.
    - apply Forall_singleton. fixed_eqs F1. destruct (can_fixed c c2 (s_id (deref c p))) as [_ K4]; [done|]. split; [|simpl; congruence].
      unfold known. rewrite (by_id_insert c c2 p _ Hi Hp Eh) by done. by rewrite Z.eqb_refl. }
  exists [f]. apply ahead_then_complete.
  - eapply ahead_nil_r; [exact A|]. apply ahead_pv, pv_broadcast_write.
  - apply (fits_pv c2); [apply pv_broadcast_write|]. intros d. rewrite F4. by apply in_range_fits.
Qed.
End ops.

(** ** Opening streams *)

Lemma ahead_open b d c : ids_inv c -> ahead b [] c (tryOpen d c).2.
Proof.
  intros H. pose proof (ids_open d c H) as H'. pose proof (id_out _ H d) as Ho. unfold tryOpen in *.
  destruct (c_closeErr c); [apply ahead_refl|]. destruct (Z.leb_spec (o_max (c_out d c)) (o_next (c_out d c))).
  { apply ahead_pv. by destruct d. }
  cbn [newStreamLocked snd] in *. set (id := streamID c _ d true) in *. set (c1 := set_c_streams _ _) in *.
  set (c2 := set_c_out d _ _) in *.
  assert (Eh : c_heap c2 = c_heap c ++ [set_s_accepted true (new_stream id c)]).
  { subst c2 c1. unfold upd, deref. destruct d; simpl;
      rewrite list_lookup_total_middle by done; rewrite <- (Nat.add_0_r (length (c_heap c))) at 1; by rewrite insert_app_r. }
  assert (Hn : u64 (o_next (c_out d c) + 1) = o_next (c_out d c) + 1) by (apply u64_id; unfold is_u64; lia).
  apply (ahead_new b id c c2 _ (id_nodup _ H') Eh); subst c2 c1; [done|by destruct d|by destruct d| | | | |by destruct d].
  - intros []; destruct d; simpl in *; lia.
  - intros d' j Hj. assert (d' = d /\ j = o_next (c_out d c)) as [-> ->]; [|done]. destruct d, d'; simpl in *; lia || (split; [done|lia]).
  - intros []; destruct d; simpl in *; lia.
  - intros []; by destruct d.
Qed.

Lemma ahead_accept b d c : ids_inv c -> in_range c -> ahead b [] c (tryAccept d c).2.
Proof.
  intros H Hr. unfold tryAccept. destruct (c_closeErr c); [apply ahead_refl|]. destruct (i_queue (c_in d c)) as [|p ps].
  { apply ahead_pv. by destruct d. }
  cbn [snd]. set (c1 := set_c_in d _ c). assert (E : pv (upd p (set_s_accepted true) c1) = pv c).
  { rewrite pv_upd by done. subst c1. by destruct d. }
  eapply ahead_nil_l; [apply ahead_pv; exact E|]. apply ahead_complete. eapply fits_pv; [exact E|by apply in_range_fits].
Qed.

(** Finding the stream of a frame opens the streams up to it. *)
Definition up_to (id : Z) (d : dir) : Z := if decide (d = streamDir id) then Z.shiftr id 2 + 1 else 0.

Lemma ahead_open_incoming id c :
  let d := streamDir id in
  ids_inv c -> c_closeErr c = None -> c_ready c = true -> small_limits c -> i_next (c_in d c) <= Z.shiftr id 2 < i_max (c_in d c) ->
  ahead (up_to id) [] c (open_incoming d c).
Proof.
  intros d H Hc Hr Hs Hn. assert (H' : ids_inv (open_incoming d c)) by (apply ids_open_incoming; try done; lia).
  pose proof (open_incoming_fields d c) as F. cbv zeta in F. set (c1 := open_incoming d c) in *.
  set (new := streamID c _ d false) in *. destruct F as (_ & _ & _ & _ & Eh & _ & E7 & E8).
  assert (F : fixed c1 = fixed c /\ c_recvMax c1 = c_recvMax c /\ c_control c1 = c_control c) by (subst c1; by destruct d).
  destruct F as (F1 & F2 & F3). pose proof (id_in _ H d). specialize (Hs d).
  apply (ahead_new (up_to id) new c c1 _ (id_nodup _ H') Eh); try done.
  - intros d'. by rewrite E7.
  - intros d' j. rewrite E7. lia.
  - intros d'. rewrite E8. unfold up_to. fold d. case_bool_decide as Ed; [|lia]. subst d'. destruct (decide (d = d)); [|done].
    simpl. rewrite u64_id by (unfold is_u64; lia). lia.
  - intros d'. rewrite E8. case_bool_decide; by subst.
Qed.

Lemma ahead_streamLocked id recv c :
  ids_inv c -> c_closeErr c = None -> c_ready c = true -> small_limits c -> ahead (up_to id) [] c (streamLocked id recv c).2.
Proof.
  intros H Hc Hr Hs. unfold streamLocked. destruct (_ && _); [apply ahead_refl|].
  destruct (initiatedLocally c id); [destruct (_ <=? _); apply ahead_refl|].
  destruct (Z.leb_spec (i_max (c_in (streamDir id) c)) (Z.shiftr id 2)) as [|Hlt]; [apply ahead_refl|]. cbn [snd].
  apply (open_loop_ind (fun c' => ahead (up_to id) [] c c' /\ ids_inv c' /\ keeps c c')).
  - intros c' (A & H' & K) Hn. assert (K' := K). destruct K' as (K1 & K2 & K3 & K4 & K5 & K6).
    assert (Hs' : small_limits c') by (by eapply keeps_limits).
    assert (Hn' : i_next (c_in (streamDir id) c') <= Z.shiftr id 2 < i_max (c_in (streamDir id) c')) by (rewrite K5; lia).
    split_and!.
    + eapply ahead_nil_l; [exact A|]. apply ahead_open_incoming; try done; congruence.
    + apply ids_open_incoming; try done; try congruence. lia.
    + destruct (open_incoming_fields (streamDir id) c') as (E1 & E2 & E3 & E4 & _ & _ & E7 & E8).
      unfold keeps. split_and!; try congruence. intros d'. rewrite E8, <- K5. case_bool_decide; by subst.
  - split_and!; [apply ahead_refl|done|done].
Qed.

(** ** Every operation that puts nothing on the transport *)

Lemma ahead_silent {GA : GoAppend} b o c :
  ids_inv c -> flow_inv c -> in_range c -> silent o = true -> valid o c -> exists new, ahead b new c (exec o c).
Proof.
  intros Hi Hf Hr Ho Hv. assert (Hnil : forall c', ahead b [] c c' -> exists new, ahead b new c c') by (intros; by exists []).
  destruct o as [now f|d|d|q n|q n|q code|q t|now q|q n|q|q code|q t|q u i| |now|now|e|now n|now n|]; try done; simpl.
  - apply Hnil. by apply ahead_open.
  - apply Hnil. by apply ahead_accept.
  - by apply ahead_read.
  - apply Hnil, ahead_peek.
  - apply ahead_cancelRead; try done. apply Hv.
  - apply Hnil, ahead_pv. unfold setReadDeadline. by rewrite pv_broadcast_read, pv_upd.
  - apply Hnil, ahead_trySend.
  - unfold cancelWrite. destruct (bool_decide _); [apply Hnil, ahead_refl|]. apply ahead_resetSend; try done. apply Hv.
  - apply Hnil, ahead_pv. unfold setWriteDeadline. by rewrite pv_broadcast_write, pv_upd.
  - apply Hnil, ahead_pv. by apply pv_upd.
  - apply Hnil, ahead_pv. unfold tryReceiveDatagram. by destruct (c_datagrams c).
  - apply Hnil, ahead_pv. unfold requestPing. by destruct (_ && _).
  - by apply Hnil, ahead_pv.
  - by apply Hnil, ahead_pv.
  - by apply Hnil, ahead_pv.
Qed.
