(* ===== verification/Compat.v ===== *)
(** Two endpoints of this package understand each other.

    [linked] says how the states of two connected endpoints and the frames
    between them fit together: each sends within the limits that the other has
    given it, and what is on its way is the rest of what was sent. It is an
    invariant of the pair, and it makes every frame that arrives acceptable. *)

From S2P Require Import Prelude Varint Params Frame WriteLock Config State Core Stream Conn System Facts Ids Table Flow Life Control Wake Transport Endpoint Wire LifeTheorems History FrameTheorems Grow Peers Ahead.

(** * The invariant *)

(** A connection never goes below the limits that it declared, and keeps the
    streams that it opened. *)
Record grounded (c : Conn) : Prop := {
  gd_conn : conn_window c <= c_recvMax c;
  gd_stream id : s_recvMax (new_stream id c) <= recv_limit c id;
  gd_local d j : 0 <= j < o_next (c_out d c) -> known c (streamID c j d true);
}.

(** The limits of [x], which sends, are within those of [y], which receives. *)
Record agree (x y : Conn) : Prop := {
  ag_side : c_isServer y = negb (c_isServer x);
  ag_sendMax : c_sendMax x <= c_recvMax y;
  ag_out d : o_max (c_out d x) <= i_max (c_in d y);
  ag_next d : i_next (c_in d y) <= o_next (c_out d x);
  ag_limit id : Z.max (send_limit x id) (peer_limit x id) <= recv_limit y id;
  ag_datagram : MaxDatagramFrameSize (c_peer x) <= cfg_MaxDatagramFrameSize (c_config y);
  ag_pong : c_pongPending x = true -> c_pongSequence x < c_nextPing y;
}.

Definition data_len (q : list frame) : Z := sumZ (fun f => match f with Stream _ _ d _ => zlen d | _ => 0 end) q.

Definition not_params (f : frame) : Prop := match f with TransportParameters _ => False | _ => True end.

(** The pings on their way, in order, above [lo] and below [hi]. *)
Definition pings (q : list frame) : list Z := omap (fun f => match f with Ping false s => Some s | _ => None end) q.
Fixpoint climbs (lo : Z) (ss : list Z) (hi : Z) : Prop :=
  match ss with [] => True | s :: ss => lo < s < hi /\ climbs s ss hi end.
Definition last_ping (c : Conn) : Z := if c_peerPinged c then c_peerPingLast c else -1.

(** A frame as [Parse] returns it. *)
Definition parsed_ok (f : frame) : Prop := frame_parsed f /\ is_varint (zlen (frame_data f)).

(** The frames [q] on their way from [x] to [y]. *)
Record flight (x : Conn) (q : list frame) (y : Conn) : Prop := {
  ft_params : if c_ready y then Forall not_params q
    else exists q1, q = TransportParameters (declared x) :: q1 /\ Forall not_params q1;
  ft_data : c_received y + data_len q = c_sent x;
  ft_track id : track id (recv_state y id) (q ++ c_control x) = Some (send_state x id);
  ft_backed : Forall (backed x) (q ++ c_control x);
  ft_pings : climbs (last_ping y) (pings q) (c_nextPing x);
  ft_last : last_ping y < c_nextPing x;
  ft_pongs seq : Ping true seq ∈ q -> seq < c_nextPing y;
  ft_datagrams d : Datagram d ∈ q -> 1 + zlen d <= cfg_MaxDatagramFrameSize (c_config y);
  ft_parsed : Forall parsed_ok q;
}.

Record linked (x : Conn) (q : list frame) (y : Conn) (r : list frame) : Prop := {
  lk_x : grounded x;
  lk_y : grounded y;
  lk_xy : agree x y;
  lk_yx : agree y x;
  lk_q : flight x q y;
  lk_r : flight y r x;
}.

Lemma linked_swap x q y r : linked x q y r -> linked y r x q.
Proof. by intros []. Qed.

(** * Silent operations *)

Section ahead.
Context (b : dir -> Z) (new : list frame) (x x' y : Conn) (A : ahead b new x x').

Lemma ahead_fields :
  c_isServer x' = c_isServer x /\ c_config x' = c_config x /\ c_peer x' = c_peer x /\ c_ready x' = c_ready x /\
  c_closeErr x' = c_closeErr x /\ c_sendMax x' = c_sendMax x /\ c_sent x' = c_sent x /\ c_received x' = c_received x /\
  c_nextPing x' = c_nextPing x /\ last_ping x' = last_ping x /\ c_pongPending x' = c_pongPending x /\
  c_pongSequence x' = c_pongSequence x /\ (forall d, o_max (c_out d x') = o_max (c_out d x)).
Proof using A.
  pose proof (ah_fixed _ _ _ _ A) as F. unfold fixed in F. injection F as F1 F2 F3 F4 F5 F6 F7 F8 F9 F10 F11 F12 F13 F14 F15.
  split_and!; try done; [unfold last_ping; by rewrite F10, F11|by intros []].
Qed.

Lemma ahead_grounded : grounded x -> grounded x'.
Proof using A.
  intros [G1 G2 G3]. destruct ahead_fields as (E1 & E2 & E3 & _). split.
  3:{ intros d j Hj. rewrite (streamID_fixed x x') by done.
      destruct (Z.lt_ge_cases j (o_next (c_out d x))); [|apply (ah_opened _ _ _ _ A); lia]. apply (ah_known _ _ _ _ A), G3. lia. }
  - rewrite E2. pose proof (ah_recvMax _ _ _ _ A). lia.
  - intros id. rewrite (new_stream_fixed x x') by done. specialize (G2 id). pose proof (ah_recvLimit _ _ _ _ A id). lia.
Qed.

Lemma ahead_agree_l : agree x y -> agree x' y.
Proof using A.
  intros [A1 A2 A3 A4 A5 A6 A7]. destruct ahead_fields as (E1 & E2 & E3 & _ & _ & E6 & _ & _ & _ & _ & E11 & E12 & E13). split.
  - congruence.
  - by rewrite E6.
  - intros d. by rewrite E13.
  - intros d. specialize (A4 d). pose proof (ah_out _ _ _ _ A d). lia.
  - intros id. specialize (A5 id). pose proof (ah_sendLimit _ _ _ _ A id). unfold peer_limit in *.
    rewrite (new_stream_fixed x x') by done. lia.
  - by rewrite E3.
  - by rewrite E11, E12.
Qed.

Lemma ahead_agree_r : (forall d, b d <= o_next (c_out d y)) -> agree y x -> agree y x'.
Proof using A.
  intros Hb [A1 A2 A3 A4 A5 A6 A7]. destruct ahead_fields as (E1 & E2 & _ & _ & _ & _ & _ & _ & E9 & _). split.
  - congruence.
  - pose proof (ah_recvMax _ _ _ _ A). lia.
  - intros d. specialize (A3 d). pose proof (ah_max _ _ _ _ A d). lia.
  - intros d. specialize (A4 d). specialize (Hb d). pose proof (ah_next _ _ _ _ A d). lia.
  - intros id. specialize (A5 id). pose proof (ah_recvLimit _ _ _ _ A id). lia.
  - by rewrite E2.
  - by rewrite E9.
Qed.

Lemma ahead_flight_l q : flight x q y -> flight x' q y.
Proof using A.
  intros [F1 F2 F3 F4 F5 Fl F6 F7 F8]. destruct ahead_fields as (E1 & E2 & _ & _ & _ & _ & E7 & _ & E9 & _). split; try done.
  - destruct (c_ready y); [done|]. unfold declared in *. by rewrite E2.
  - by rewrite E7.
  - intros id. rewrite (ah_control _ _ _ _ A), app_assoc, track_app, F3. simpl. apply (ah_send _ _ _ _ A).
  - rewrite (ah_control _ _ _ _ A), app_assoc. apply Forall_app. split; [|apply (ah_new _ _ _ _ A)].
    eapply list.Forall_impl; [exact F4|]. intros f. by apply (backed_ahead b new).
  - by rewrite E9.
  - by rewrite E9.
Qed.

Lemma ahead_flight_r r : flight y r x -> flight y r x'.
Proof using A.
  intros [F1 F2 F3 F4 F5 Fl F6 F7 F8]. destruct ahead_fields as (E1 & E2 & _ & E4 & _ & _ & _ & E8 & E9 & E10 & _). split; try done.
  - by rewrite E4.
  - by rewrite E8.
  - intros id. by rewrite (ah_recv _ _ _ _ A).
  - by rewrite E10.
  - by rewrite E10.
  - by rewrite E9.
  - by rewrite E2.
Qed.
End ahead.

Lemma linked_ahead b new x x' q y r :
  ahead b new x x' -> (forall d, b d <= o_next (c_out d y)) -> linked x q y r -> linked x' q y r.
Proof.
  intros A Hb [L1 L2 L3 L4 L5 L6]. split.
  - by eapply ahead_grounded.
  - done.
  - by eapply ahead_agree_l.
  - by eapply ahead_agree_r.
  - by eapply ahead_flight_l.
  - by eapply ahead_flight_r.
Qed.

Lemma none_le y : ids_inv y -> forall d, none d <= o_next (c_out d y).
Proof. intros H d. pose proof (id_out _ H d). unfold none. lia. Qed.

(** * Sending on a stream *)

(** The state but for the streams, and what was sent and received. *)
Definition conn_rest (c : Conn) :=
  (c_isServer c, c_config c, c_peer c, c_ready c, c_closeErr c, (c_sendMax c, c_recvMax c),
   (c_nextPing c, c_peerPinged c, c_peerPingLast c, c_pongPending c, c_pongSequence c),
   ((o_next (c_outBidi c), o_max (c_outBidi c)), (o_next (c_outUni c), o_max (c_outUni c))),
   ((i_next (c_inBidi c), i_max (c_inBidi c)), (i_next (c_inUni c), i_max (c_inUni c))), c_control c).

Lemma rest_fields c c' :
  conn_rest c' = conn_rest c ->
  (c_isServer c' = c_isServer c /\ c_config c' = c_config c /\ c_peer c' = c_peer c /\ c_ready c' = c_ready c) /\
  (c_sendMax c' = c_sendMax c /\ c_recvMax c' = c_recvMax c /\ c_control c' = c_control c) /\
  (c_nextPing c' = c_nextPing c /\ last_ping c' = last_ping c /\ c_pongPending c' = c_pongPending c /\
   c_pongSequence c' = c_pongSequence c) /\
  (forall d, o_next (c_out d c') = o_next (c_out d c) /\ o_max (c_out d c') = o_max (c_out d c) /\
    i_next (c_in d c') = i_next (c_in d c) /\ i_max (c_in d c') = i_max (c_in d c)).
Proof.
  unfold conn_rest. intros E. injection E as E1 E2 E3 E4 E5 E6 E7 E8 E9 E10 E11 E12 E13 E14 E15 E16 E17 E18 E19 E20 E21.
  split_and!; try done; [unfold last_ping; by rewrite E9, E10|intros []; simpl; by split_and!].
Qed.

(** One stream of [x] changes in what it has sent or received. *)
Record touched (p : nat) (s' : stream) (x x' : Conn) : Prop := {
  to_rest : conn_rest x' = conn_rest x;
  to_heap : c_heap x' = <[p := s']> (c_heap x);
  to_id : s_id s' = s_id (deref x p);
  to_recvMax : s_recvMax s' = s_recvMax (deref x p);
}.

Section touched.
Context (p : nat) (s' : stream) (x x' : Conn) (Hi : ids_inv x) (Hp : ptr x p) (T : touched p s' x x').
Abbreviation sid := (s_id (deref x p)).

Lemma touched_by_id id : by_id x' id = if id =? sid then Some s' else by_id x id.
Proof using All. destruct T as [_ Eh Es _]. by apply by_id_insert. Qed.

Lemma touched_known id : known x id -> known x' id.
Proof using All. intros [s Hs]. unfold known. rewrite touched_by_id. destruct (_ =? _); by eexists. Qed.

Lemma touched_limits id :
  recv_limit x' id = recv_limit x id /\ peer_limit x' id = peer_limit x id /\
  new_stream id x' = new_stream id x.
Proof using All.
  destruct (rest_fields _ _ (to_rest _ _ _ _ T)) as ((R1 & R2 & R3 & _) & _).
  assert (Hn : new_stream id x' = new_stream id x) by (by apply new_stream_fixed).
  pose proof (by_id_ptr x p Hi Hp) as Hs. destruct T as [_ _ _ T2].
  unfold recv_limit, peer_limit. rewrite touched_by_id, Hn.
  destruct (Z.eqb_spec id sid) as [->|]; [|done]. rewrite Hs. split_and!; congruence.
Qed.

Lemma touched_backed f : backed x f -> backed x' f.
Proof using All.
  destruct (rest_fields _ _ (to_rest _ _ _ _ T)) as ((R1 & R2 & R3 & _) & (R5 & R6 & _) & (R8 & _) & Rd).
  apply backed_mono; try done; try lia.
  - intros d. destruct (Rd d) as (_ & _ & _ & ->). lia.
  - intros id. apply touched_known.
  - intros id. destruct (touched_limits id) as (-> & _). lia.
Qed.

Lemma touched_grounded : grounded x -> grounded x'.
Proof using All.
  destruct (rest_fields _ _ (to_rest _ _ _ _ T)) as ((R1 & R2 & R3 & _) & (R5 & R6 & _) & _ & Rd). intros [G1 G2 G3]. split.
  - by rewrite R2, R6.
  - intros id. destruct (touched_limits id) as (-> & _ & ->). apply G2.
  - intros d j. destruct (Rd d) as (-> & _). intros Hj. apply touched_known.
    rewrite (streamID_fixed x x') by done. by apply G3.
Qed.

Lemma touched_agree_l y : s_sendMax s' <= recv_limit y sid -> agree x y -> agree x' y.
Proof using All.
  intros Hm.
  destruct (rest_fields _ _ (to_rest _ _ _ _ T)) as ((R1 & R2 & R3 & _) & (R5 & R6 & _) & (R8 & _ & R10 & R11) & Rd).
  intros [A1 A2 A3 A4 A5 A6 A7]. split; rewrite ?R1, ?R3, ?R5, ?R10, ?R11; try done.
  - intros d. destruct (Rd d) as (_ & -> & _). apply A3.
  - intros d. destruct (Rd d) as (-> & _). apply A4.
  - intros id. destruct (touched_limits id) as (_ & -> & _). specialize (A5 id). unfold send_limit at 1. rewrite touched_by_id.
    destruct (Z.eqb_spec id sid) as [->|]; [lia|]. unfold send_limit in A5. lia.
Qed.

Lemma touched_agree_r y : agree y x -> agree y x'.
Proof using All.
  destruct (rest_fields _ _ (to_rest _ _ _ _ T)) as ((R1 & R2 & R3 & _) & (R5 & R6 & _) & (R8 & _) & Rd).
  intros [A1 A2 A3 A4 A5 A6 A7]. split; rewrite ?R1, ?R2, ?R6, ?R8; try done.
  - intros d. destruct (Rd d) as (_ & _ & _ & ->). apply A3.
  - intros d. destruct (Rd d) as (_ & _ & -> & _). apply A4.
  - intros id. destruct (touched_limits id) as (-> & _). apply A5.
Qed.
End touched.

Lemma data_len_app q q' : data_len (q ++ q') = data_len q + data_len q'.
Proof. unfold data_len. apply sumZ_app. Qed.

Lemma pings_app q q' : pings (q ++ q') = pings q ++ pings q'.
Proof. unfold pings. apply omap_app. Qed.

Section sends.
Context (x x' y : Conn) (p : nat) (s' : stream) (off : Z) (d : bytes) (fin : bool).
Abbreviation s := (deref x p).
Abbreviation f := (Stream (s_id s) off d fin).
Hypothesis (Hi : ids_inv x) (Hc : Forall queued (c_control x)) (Hp : ptr x p) (Hs : s_canSend s = true).
Hypothesis (Hend : ended s = false) (Hoff : off = s_sendOffset s) (T : touched p s' x x').
Hypothesis (Hsent : c_sent x' = c_sent x + zlen d) (Hrecvd : c_received x' = c_received x).
Hypothesis (Hsend' : (s_sendOffset s', ended s') = (off + zlen d, fin)).
Hypothesis (Hrecv' : (s_recvOffset s', s_finRecv s' || s_recvReset s') = (s_recvOffset s, s_finRecv s || s_recvReset s)).
Hypothesis (Hmax : s_sendMax s' = s_sendMax s) (Hparsed : parsed_ok f).

Lemma sends_track q st id :
  track id st (q ++ c_control x) = Some (send_state x id) ->
  track id st ((q ++ [f]) ++ c_control x') = Some (send_state x' id).
Proof using Hi Hc Hp Hend Hoff T Hsend'.
  destruct (rest_fields _ _ (to_rest _ _ _ _ T)) as (_ & (_ & _ & ->) & _). rewrite !track_app.
  pose proof (by_id_ptr x p Hi Hp) as Hb. unfold send_state. rewrite (touched_by_id p s' x x' Hi Hp T).
  destruct (track id st q) as [st1|]; [|done]. simpl. destruct (Z.eqb_spec id (s_id s)) as [->|Hne].
  - rewrite Hb, Hend. intros [-> Hno]%track_queued; [|done]. simpl. rewrite Z.eqb_refl, Hoff, Z.eqb_refl. simpl.
    rewrite track_skip by done. congruence.
  - rewrite (proj2 (Z.eqb_neq (s_id s) id)) by congruence. done.
Qed.

Lemma sends_flight q : flight x q y -> flight x' (q ++ [f]) y.
Proof using Hi Hc Hp Hs Hend Hoff T Hsent Hsend' Hparsed.
  destruct (rest_fields _ _ (to_rest _ _ _ _ T)) as ((R1 & R2 & _) & (_ & _ & R7) & (R8 & _) & _).
  intros [F1 F2 F3 F4 F5 Fl F6 F7 F8]. split.
  - assert (Hf : Forall not_params [f]) by (by apply Forall_singleton). unfold declared. rewrite R2.
    destruct (c_ready y); [by apply Forall_app|]. destruct F1 as (q1 & -> & Hq1). exists (q1 ++ [f]).
    split; [done|]. by apply Forall_app.
  - rewrite data_len_app. assert (data_len [f] = zlen d) as -> by (unfold data_len, sumZ; simpl; lia). lia.
  - intros id. by apply sends_track.
  - rewrite R7. apply Forall_app in F4 as [F4 F4']. rewrite !Forall_app. pose proof (touched_backed p s' x x' Hi Hp T) as Hb.
    split; [split|]; [eapply list.Forall_impl; [exact F4|exact Hb]| |eapply list.Forall_impl; [exact F4'|exact Hb]].
    apply Forall_singleton, Hb. simpl. destruct (stream_can x p Hi Hp) as (K1 & _ & K3). split; [done|congruence].
  - rewrite pings_app, R8. simpl. by rewrite app_nil_r.
  - by rewrite R8.
  - intros seq [?|?%list_elem_of_singleton]%elem_of_app; [by apply F6|done].
  - intros g [?|?%list_elem_of_singleton]%elem_of_app; [by apply F7|done].
  - apply Forall_app. split; [done|]. by apply Forall_singleton.
Qed.

Lemma sends_flight_r r : flight y r x -> flight y r x'.
Proof using Hi Hp T Hrecvd Hrecv'.
  destruct (rest_fields _ _ (to_rest _ _ _ _ T)) as ((R1 & R2 & R3 & R4) & (_ & _ & R7) & (R8 & R9 & _) & _).
  pose proof (by_id_ptr x p Hi Hp) as Hb.
  intros [F1 F2 F3 F4 F5 Fl F6 F7 F8]. split; rewrite ?R2, ?R4, ?R8, ?R9, ?Hrecvd; try done.
  intros id. rewrite <- F3. f_equal. unfold recv_state. rewrite (touched_by_id p s' x x' Hi Hp T).
  destruct (Z.eqb_spec id (s_id s)) as [->|]; [|done]. by rewrite Hb.
Qed.

Lemma linked_sends q r : linked x q y r -> linked x' (q ++ [f]) y r.
Proof using All.
  intros [L1 L2 L3 L4 L5 L6]. split.
  - by apply (touched_grounded p s' x x').
  - done.
  - apply (touched_agree_l p s' x x' Hi Hp T); [|done]. pose proof (ag_limit _ _ L3 (s_id s)) as Hl.
    unfold send_limit in Hl. rewrite (by_id_ptr x p Hi Hp) in Hl. lia.
  - by apply (touched_agree_r p s' x x').
  - by apply sends_flight.
  - by apply sends_flight_r.
Qed.
End sends.

(** * The actions of an endpoint *)

Lemma ok_parsed f : frame_ok f -> not_params f -> parsed_ok f.
Proof. destruct f; simpl; try done; unfold parsed_ok; simpl; unfold is_varint; intros; destruct_and?; split_and!; try done; lia. Qed.

(** A connection in a reachable state, still open. *)
Record live (c : Conn) : Prop := {
  li_ids : ids_inv c;
  li_flow : flow_inv c;
  li_life : life_inv c;
  li_ctrl : ctrl_inv c;
  li_open : c_closeErr c = None;
}.

Lemma sendable_open p c : sendErrLocked p c = None -> ended (deref c p) = false.
Proof.
  unfold sendErrLocked, ended. destruct (c_closeErr c); [done|]. destruct (s_sendErr _); [done|]. by destruct (s_finSent _).
Qed.

Section actions.
Context {V : QuicVarint} {VL : QuicVarintLaws V} {GA : GoAppend} (x y : Conn) (q r : list frame).
Hypothesis (X : live x) (Y : live y) (Hr : in_range x) (L : linked x q y r).

Lemma linked_chunk p n off k d x' :
  holds_send x p -> 0 <= n < 2 ^ 63 -> reserve p n x = (inl (off, k), x') -> zlen d = k ->
  linked x' (q ++ if k =? 0 then [] else [Stream (s_id (deref x p)) off d false]) y r.
Proof using X Y Hr L.
  intros [[Hp _] Hs] Hn E Hd. destruct X as [Hi Hf _ Hc _].
  destruct (reserve_spec p n off k x x' Hf Hp ltac:(lia) E) as (Eo & Hk & _ & H1 & H2 & H3 & _).
  pose proof (so_send _ _ (fl_stream _ Hf p Hp)) as Hsend. pose proof (so_sendMax _ _ (fl_stream _ Hf p Hp)).
  pose proof (id_varint x p Hi Hp) as Hid. pose proof (fl_sendMax _ Hf). pose proof (sent_nonneg x Hf).
  unfold reserve in E. destruct (sendErrLocked p x) eqn:Ese; [done|]. injection E as _ E2 E3. rewrite E2 in E3.
  rewrite !u64_id in E3 by (unfold is_u64; lia).
  assert (Ex : x' = set_c_sent (c_sent x + k) (upd p (set_s_sendOffset (off + k)) x)) by congruence. clear E2 E3 H2.
  destruct (Z.eqb_spec k 0) as [->|Hk0].
  - rewrite app_nil_r. eapply (linked_ahead none []); [|apply none_le, Y|exact L]. apply ahead_pv. subst x'. rewrite !Z.add_0_r.
    assert (Esame : set_s_sendOffset off (deref x p) = deref x p) by (subst off; by destruct (deref x p)).
    unfold pv, upd, fixed. rewrite Esame. unfold deref. simpl. by rewrite insert_same.
  - subst k. apply (linked_sends x x' y p (set_s_sendOffset (off + zlen d) (deref x p))); try done; try (by subst x').
    + apply Hc.
    + by eapply sendable_open.
    + simpl. f_equal. by apply sendable_open in Ese.
    + apply ok_parsed; [|done]. simpl. unfold is_varint in *. assert (maxStreamData <= varint_max) by (vm_compute; congruence). lia.
Qed.

Lemma linked_fin p off x' :
  holds_send x p -> finish p x = (inl (Some off), x') -> linked x' (q ++ [Stream (s_id (deref x p)) off [] true]) y r.
Proof using X Y Hr L.
  intros [[Hp _] Hs] E. destruct X as [Hi Hf _ Hc Hopen].
  pose proof (so_send _ _ (fl_stream _ Hf p Hp)) as Hsend. pose proof (so_sendMax _ _ (fl_stream _ Hf p Hp)).
  pose proof (id_varint x p Hi Hp) as Hid. destruct (finish_result p off x x' Hf Hp E) as [Eo _].
  pose proof (moved_offset _ _ _ (moved_finish p p x Hf Hp)) as Eo'. rewrite E in Eo'. simpl in Eo'. rewrite Eo' in Eo. clear Eo'.
  unfold finish in E. rewrite Hopen in E. destruct (s_finSent _ || _) eqn:Ee; [done|].
  set (x1 := stream_cancel p None _) in E. injection E as _ <-.
  assert (H1 : exists cause, c_heap x1 = <[p := set_s_cause cause (set_s_finSent true (deref x p))]> (c_heap x) /\
    conn_rest x1 = conn_rest x /\ c_sent x1 = c_sent x /\ c_received x1 = c_received x).
  { subst x1. rewrite stream_cancel_eq. cbv zeta. simpl. rewrite deref_upd by done. eexists. rewrite list_insert_insert_eq. by split_and!. }
  destruct H1 as (cause & Eh & Er & Es & Erc). forget x1.
  assert (L1 : linked x1 (q ++ [Stream (s_id (deref x p)) off [] true]) y r).
  { apply (linked_sends x x1 y p (set_s_cause cause (set_s_finSent true (deref x p)))); try done.
    - apply Hc.
    - simpl. lia.
    - simpl. f_equal. lia.
    - apply ok_parsed; [|done]. simpl. unfold is_varint in *. lia. }
  eapply (linked_ahead none []); [|apply none_le, Y|exact L1].
  eapply ahead_nil_l; [apply ahead_pv, pv_broadcast_write|]. apply ahead_complete.
  apply (fits_pv x1); [apply pv_broadcast_write|]. intros d. pose proof (in_range_fits x Hi Hr d) as Hd.
  destruct (rest_fields _ _ Er) as (_ & _ & _ & Rd). destruct (Rd d) as (_ & _ & _ & ->). done.
Qed.

Lemma linked_silent o : silent o = true -> valid o x -> linked (exec o x) q y r.
Proof using X Y Hr L.
  intros Ho Hv. destruct (ahead_silent none o x (li_ids _ X) (li_flow _ X) Hr Ho Hv) as [new A].
  eapply linked_ahead; [exact A|apply none_le, Y|exact L].
Qed.

(** A datagram. *)
Lemma linked_datagram d n :
  Datagram_Len d = Some n -> is_varint (zlen d) -> n <= datagramLimit x -> linked x (q ++ [Datagram d]) y r.
Proof using L VL.
  intros En Hd Hn. destruct L as [L1 L2 L3 L4 [F1 F2 F3 F4 F5 Fl F6 F7 F8] L6]. split; try done.
  assert (H1 : 1 + zlen d <= cfg_MaxDatagramFrameSize (c_config y)).
  { pose proof (ag_datagram _ _ L3) as Hlim. unfold datagramLimit in Hn. unfold Datagram_Len in En.
    rewrite len_size in En by done. simpl in En. injection En as <-. pose proof (varint_size_range (zlen d)). lia. }
  split; try done.
  - assert (Hf : Forall not_params [Datagram d]) by (by apply Forall_singleton).
    destruct (c_ready y); [by apply Forall_app|]. destruct F1 as (q1 & -> & Hq1). exists (q1 ++ [Datagram d]).
    split; [done|]. by apply Forall_app.
  - rewrite data_len_app. assert (data_len [Datagram d] = 0) as -> by done. lia.
  - intros id. rewrite <- F3, <- app_assoc, !track_app. by destruct (track id (recv_state y id) q).
  - rewrite <- app_assoc. apply Forall_app in F4 as [F4 F4']. apply Forall_app. split; [done|]. by constructor.
  - rewrite pings_app. simpl. by rewrite app_nil_r.
  - intros seq [?|?%list_elem_of_singleton]%elem_of_app; [by apply F6|done].
  - intros g [?|E%list_elem_of_singleton]%elem_of_app; [by apply F7|]. by injection E as ->.
  - apply Forall_app. split; [done|]. by apply Forall_singleton.
Qed.

(** The write loop takes the control queue. *)
Lemma climbs_snoc lo ss hi hi' : lo < hi -> hi < hi' -> climbs lo ss hi -> climbs lo (ss ++ [hi]) hi'.
Proof using Type.
  intros H Hhi. revert lo H. induction ss as [|s ss IH]; intros lo H; simpl; [lia|]. intros [H1 H2].
  split; [lia|]. apply IH; [lia|done].
Qed.

Lemma climbs_mono lo ss hi hi' : hi <= hi' -> climbs lo ss hi -> climbs lo ss hi'.
Proof using Type. intros H. revert lo. induction ss as [|s ss IH]; intros lo; simpl; [done|]. intros [? ?]. split; [lia|auto]. Qed.

(** What [takeControl] adds to the frames that were queued. *)
Definition added : list frame :=
  when (c_maxDataPending x) (MaxData (c_recvMax x)) ++
  when (i_pending (c_inBidi x)) (MaxStreams false (i_max (c_inBidi x))) ++
  when (i_pending (c_inUni x)) (MaxStreams true (i_max (c_inUni x))) ++
  when (c_pongPending x) (Ping true (c_pongSequence x)) ++ when (c_pingPending x) (Ping false (c_nextPing x)).

(** Frames that carry no data of any kind. *)
Definition plain (f : frame) : Prop :=
  not_params f /\ (forall seq, f = Ping true seq -> seq < c_nextPing y) /\ (forall d, f <> Datagram d) /\ data_len [f] = 0.

Lemma data_len_plain fs : Forall plain fs -> data_len fs = 0.
Proof using Type.
  induction 1 as [|f fs (_ & _ & _ & Hf) _ IH]; [done|]. change (f :: fs) with ([f] ++ fs). by rewrite data_len_app, Hf, IH.
Qed.

Lemma queued_plain fs : Forall queued fs -> Forall plain fs /\ pings fs = [].
Proof using Type.
  induction 1 as [|f fs Hf _ [IH1 IH2]]; [by split|]. split.
  - constructor; [|done]. destruct f; try done; by split_and!.
  - by destruct f.
Qed.

Lemma flight_flush x' :
  c_control x' = [] -> c_config x' = c_config x -> c_sent x' = c_sent x -> (forall id, send_state x' id = send_state x id) ->
  (forall f, backed x f -> backed x' f) -> c_nextPing x' = c_nextPing x + (if c_pingPending x then 1 else 0) ->
  Forall (fun f => plain f /\ backed x' f /\ forall id, touches id f = false) added -> Forall control_frame (c_control x ++ added) ->
  flight x' (q ++ c_control x ++ added) y.
Proof using X L.
  intros E1 E2 E3 E4 Hb Hn Hadd Hok. destruct L as [_ _ _ _ [F1 F2 F3 F4 F5 Fl F6 F7 F8] _].
  destruct (queued_plain _ (ct_queue _ (li_ctrl _ X))) as [Hq Hqp].
  assert (Hpl : Forall plain (c_control x ++ added)).
  { apply Forall_app. split; [done|]. eapply list.Forall_impl; [exact Hadd|]. by intros f [? _]. }
  assert (Hnp : Forall not_params (c_control x ++ added)) by (eapply list.Forall_impl; [exact Hpl|]; by intros f [? _]).
  apply Forall_app in F4 as [F4 F4']. split.
  - unfold declared. rewrite E2. destruct (c_ready y); [by apply Forall_app|]. destruct F1 as (q1 & -> & Hq1).
    exists (q1 ++ c_control x ++ added). split; [done|]. by apply Forall_app.
  - rewrite data_len_app, (data_len_plain _ Hpl). lia.
  - intros id. rewrite E1, app_nil_r, E4, app_assoc, track_app, F3. simpl. apply track_skip.
    eapply list.Forall_impl; [exact Hadd|]. by intros f (_ & _ & ?).
  - rewrite E1, app_nil_r. rewrite !Forall_app. split_and!; [eapply list.Forall_impl; [exact F4|exact Hb]|
      eapply list.Forall_impl; [exact F4'|exact Hb]|eapply list.Forall_impl; [exact Hadd|by intros f (_ & ? & _)]].
  - rewrite !pings_app, Hqp, Hn. simpl.
    assert (pings added = if c_pingPending x then [c_nextPing x] else []) as ->.
    { unfold added. by destruct (c_maxDataPending x), (i_pending (c_inBidi x)), (i_pending (c_inUni x)), (c_pongPending x), (c_pingPending x). }
    destruct (c_pingPending x); [apply climbs_snoc; [done|lia|done]|by rewrite app_nil_r, Z.add_0_r].
  - destruct (c_pingPending x); lia.
  - intros seq [?|Hin]%elem_of_app; [by apply F6|]. rewrite list.Forall_forall in Hpl. by apply (Hpl _ Hin).
  - intros d [?|Hin]%elem_of_app; [by apply F7|]. rewrite list.Forall_forall in Hpl. exfalso. by destruct (Hpl _ Hin) as (_ & _ & H & _); apply (H d).
  - apply Forall_app. split; [done|]. apply list.Forall_forall. intros f Hin. rewrite list.Forall_forall in Hok, Hnp.
    apply ok_parsed; [by apply Hok|by apply Hnp].
Qed.

Lemma linked_flush now : linked (takeControl now x).2 (q ++ (takeControl now x).1) y r.
Proof using X Y Hr L.
  pose proof L as L'. destruct L' as [[G1 G2 G3] L2 [A1 A2 A3 A4 A5 A6 A7] [B1 B2 B3 B4 B5 B6 B7] _ [C1 C2 C3 C4 C5 Cl C6 C7 C8]].
  pose proof X as X'. destruct X' as [Hi Hf _ Hc Hopen]. pose proof (takeControl_frames now x Hi Hf Hc Hr) as Hok.
  pose proof (ct_ping _ Hc) as Hping. rewrite takeControl_eq in * by done. cbn [fst snd] in *. fold added in Hok |- *. set (x' := set_c_control [] _).
  assert (Hn : c_nextPing x' = c_nextPing x + if c_pingPending x then 1 else 0).
  { subst x'. simpl. destruct Hr as (_ & _ & _ & R). destruct (c_pingPending x); [apply u64_id; unfold is_u64|]; lia. }
  assert (Hb : forall f, backed x f -> backed x' f).
  { intros f. apply backed_mono; [done|done|simpl; lia|intros []; simpl; lia| |done|intros id; apply Z.le_refl].
    rewrite Hn. destruct (c_pingPending x); lia. }
  assert (Hex : Forall (fun f => plain f /\ backed x' f /\ forall id, touches id f = false) added).
  { repeat apply Forall_app_2; apply Forall_when; intros Hw; (split_and!; [split_and!; try done| |done]); try (simpl; lia).
    - intros seq [= <-]. by apply A7.
    - intros _. rewrite Hn, Hw. lia. }
  split; [split; [done|done|intros []; [apply (G3 dirBidi)|apply (G3 dirUni)]]|done| | | |].
  - split; try done; by intros [].
  - split; try done.
    + intros d. specialize (B3 d). destruct d; simpl in *; lia.
    + intros d. specialize (B4 d). destruct d; simpl in *; lia.
    + rewrite Hn. intros Hp%B7. destruct (c_pingPending x); lia.
  - by apply flight_flush.
  - split; try done. rewrite Hn. intros seq Hs%C6. destruct (c_pingPending x); lia.
Qed.
End actions.

(** * Handling the next frame *)

Lemma data_len_nonneg fs : 0 <= data_len fs.
Proof. unfold data_len. apply sumZ_nonneg. intros [] _; lia. Qed.

Lemma data_len_cons f fs : data_len (f :: fs) = data_len [f] + data_len fs.
Proof. by rewrite <- data_len_app. Qed.

(** Frames that only the connection looks at. *)
Definition skippable (f : frame) : Prop :=
  match f with Stream _ _ _ _ | ResetStream _ _ _ | TransportParameters _ | Ping false _ => False | _ => True end.

Lemma flight_tail y f r x : skippable f -> c_ready x = true -> flight y (f :: r) x -> flight y r x.
Proof.
  intros Hf Hr [F1 F2 F3 F4 F5 Fl F6 F7 F8]. rewrite Hr in F1. rewrite data_len_cons in F2.
  assert (Hd : data_len [f] = 0) by (by destruct f).
  split; rewrite ?Hr.
  - by apply list.Forall_cons in F1 as [_ F1].
  - lia.
  - intros id. rewrite <- F3. simpl app. rewrite track_cons_skip; [done|]. by destruct f.
  - simpl app in F4. by apply list.Forall_cons in F4 as [_ F4].
  - destruct f as [| | | | | | | | |[]|]; done.
  - done.
  - intros seq H1. apply F6. by right.
  - intros d H1. apply F7. by right.
  - by apply list.Forall_cons in F8 as [_ F8].
Qed.

Lemma linked_tail x q y f r : skippable f -> c_ready x = true -> linked x q y (f :: r) -> linked x q y r.
Proof. intros Hf Hr [L1 L2 L3 L4 L5 L6]. split; try done. by apply (flight_tail y f). Qed.

Lemma head_backed y f r x : flight y (f :: r) x -> backed y f.
Proof. intros [_ _ _ F4 _ _ _ _ _]. simpl app in F4. by apply list.Forall_cons in F4 as [F4 _]. Qed.

(** A change to what [x] may send, or to what it has heard. *)
Record relimited (x x' : Conn) : Prop := {
  rl_heap : c_heap x' = c_heap x;
  rl_side : c_isServer x' = c_isServer x;
  rl_config : c_config x' = c_config x;
  rl_sent : c_sent x' = c_sent x;
  rl_recvMax : c_recvMax x' = c_recvMax x;
  rl_control : c_control x' = c_control x;
  rl_nextPing : c_nextPing x' = c_nextPing x;
  rl_dir d : o_next (c_out d x') = o_next (c_out d x) /\ i_next (c_in d x') = i_next (c_in d x) /\
    i_max (c_in d x') = i_max (c_in d x);
}.

Lemma new_recvMax id x x' :
  c_isServer x' = c_isServer x -> c_config x' = c_config x -> s_recvMax (new_stream id x') = s_recvMax (new_stream id x).
Proof.
  intros E1 E2. unfold new_stream. rewrite (initiated_fixed x x' id E1), E2.
  by destruct (bool_decide _), (initiatedLocally x id).
Qed.

Lemma relimited_state x x' id :
  relimited x x' -> by_id x' id = by_id x id /\ recv_limit x' id = recv_limit x id.
Proof.
  intros [E1 E2 E3 _ _ _ _ _]. assert (E : by_id x' id = by_id x id) by (unfold by_id; by rewrite E1).
  split; [done|]. unfold recv_limit. rewrite E. destruct (by_id x id); [done|]. by apply new_recvMax.
Qed.

Lemma linked_relimited x x' q y r r' :
  relimited x x' -> agree x' y -> flight y r' x' -> linked x q y r -> linked x' q y r'.
Proof.
  intros R HA HF [[G1 G2 G3] L2 _ [B1 B2 B3 B4 B5 B6 B7] [F1 F2 F3 F4 F5 Fl F6 F7 F8] _].
  pose proof (fun id => relimited_state x x' id R) as Hid. destruct R as [E1 E2 E3 E4 E5 E6 E7 E8].
  assert (Hk : forall id, known x id -> known x' id) by (intros id; unfold known; by destruct (Hid id) as [-> _]).
  split; try done.
  - split.
    + by rewrite E3, E5.
    + intros id. destruct (Hid id) as [_ ->]. rewrite (new_recvMax id x x' E2 E3). apply G2.
    + intros d j. destruct (E8 d) as (-> & _). rewrite (streamID_fixed x x') by done. auto.
  - split; rewrite ?E2, ?E3, ?E5, ?E7; try done.
    + intros d. destruct (E8 d) as (_ & _ & ->). apply B3.
    + intros d. destruct (E8 d) as (_ & -> & _). apply B4.
    + intros id. destruct (Hid id) as [_ ->]. apply B5.
  - split; rewrite ?E4, ?E6, ?E7; try done.
    + unfold declared. by rewrite E3.
    + intros id. unfold send_state. destruct (Hid id) as [-> _]. apply F3.
    + eapply list.Forall_impl; [exact F4|]. intros f. apply backed_mono; try done; try lia.
      * intros d. destruct (E8 d) as (_ & _ & ->). lia.
      * intros id. destruct (Hid id) as [_ ->]. lia.
Qed.

Section handles.
Context {GA : GoAppend} (x y : Conn) (q r : list frame) (f : frame).
Hypothesis (X : live x) (Y : live y) (Hr : in_range x) (Hready : c_ready x = true) (L : linked x q y (f :: r)).

(** ** Frames about the connection *)

Lemma handles_maxData m : f = MaxData m -> linked (handleMaxData m x) q y r.
Proof using Hready L.
  intros Ef. pose proof (head_backed _ _ _ _ (lk_r _ _ _ _ L)) as Hb. rewrite Ef in Hb. simpl in Hb.
  assert (L' : linked x q y r) by (apply (linked_tail x q y f); [by rewrite Ef|done..]).
  unfold handleMaxData. destruct (_ <? _); [|done]. set (x' := broadcast_send _).
  assert (R : relimited x x') by (split; try done; by intros []).
  pose proof L' as [_ _ [A1 A2 A3 A4 A5 A6 A7] _ _ [C1 C2 C3 C4 C5 Cl C6 C7 C8]].
  eapply linked_relimited; [exact R| | |exact L']; split; try done.
Qed.

Lemma handles_maxStreams uni m : f = MaxStreams uni m -> linked (handleMaxStreams uni m x) q y r.
Proof using Hready L.
  intros Ef. pose proof (head_backed _ _ _ _ (lk_r _ _ _ _ L)) as Hb. rewrite Ef in Hb. simpl in Hb.
  assert (L' : linked x q y r) by (apply (linked_tail x q y f); [by rewrite Ef|done..]).
  unfold handleMaxStreams. destruct (_ <? _); [|done]. set (x' := broadcast_out _ _).
  assert (R : relimited x x') by (split; try (by destruct uni); intros []; by destruct uni).
  pose proof L' as [_ _ [A1 A2 A3 A4 A5 A6 A7] _ _ [C1 C2 C3 C4 C5 Cl C6 C7 C8]].
  eapply linked_relimited; [exact R| | |exact L']; destruct uni; split; try done; intros d; specialize (A3 d); specialize (A4 d); by destruct d.
Qed.

Lemma handles_ping now resp seq :
  f = Ping resp seq -> exists x', handlePingLocked now resp seq x = (None, x') /\ linked x' q y r.
Proof using Hready L.
  intros Ef. pose proof (head_backed _ _ _ _ (lk_r _ _ _ _ L)) as Hb. rewrite Ef in Hb. simpl in Hb. unfold handlePingLocked.
  pose proof L as [_ _ [A1 A2 A3 A4 A5 A6 A7] _ _ F]. destruct resp.
  - assert (L' : linked x q y r) by (apply (linked_tail x q y f); [by rewrite Ef|done..]).
    pose proof (ft_pongs _ _ _ F seq ltac:(rewrite Ef; left)) as Hs. destruct (Z.leb_spec (c_nextPing x) seq); [lia|].
    destruct (_ =? _); [|by eexists]. eexists. split; [done|]. pose proof (lk_r _ _ _ _ L') as [C1 C2 C3 C4 C5 Cl C6 C7 C8].
    eapply linked_relimited; [| | |exact L']; split; try done; by intros [].
  - rewrite Ef in F. destruct F as [F1 F2 F3 F4 [F5 F5'] Fl F6 F7 F8]. specialize (Hb eq_refl).
    assert (Hl : c_peerPinged x && (seq <=? c_peerPingLast x) = false).
    { unfold last_ping in F5. destruct (c_peerPinged x); simpl; [|done]. lia. }
    rewrite Hl. eexists. split; [done|]. eapply linked_relimited; [| | |exact L].
    + split; try done; by intros [].
    + split; try done; by intros [].
    + rewrite Hready in F1. split; simpl; rewrite ?Hready; try done.
      * by apply list.Forall_cons in F1 as [_ F1].
      * simpl app in F4. by apply list.Forall_cons in F4 as [_ F4].
      * intros s Hs. apply F6. by right.
      * intros d Hd. apply F7. by right.
      * by apply list.Forall_cons in F8 as [_ F8].
Qed.

Lemma handles_datagram d : f = Datagram d -> exists x', handleDatagramLocked d x = (None, x') /\ linked x' q y r.
Proof using Hready L Y.
  intros Ef. assert (L' : linked x q y r) by (apply (linked_tail x q y f); [by rewrite Ef|done..]).
  pose proof (ft_datagrams _ _ _ (lk_r _ _ _ _ L) d ltac:(rewrite Ef; left)) as Hd. unfold handleDatagramLocked.
  destruct (Z.ltb_spec (cfg_MaxDatagramFrameSize (c_config x)) (1 + zlen d)); [lia|].
  destruct (_ <? _); [|by eexists]. eexists. split; [done|].
  apply (linked_ahead none [] x); [by apply ahead_pv|apply none_le, Y|exact L'].
Qed.
End handles.
