(* ===== verification/Interop.v ===== *)
(** Every frame of a peer of this package is accepted.

    The handlers of [handleFrameLocked], applied to the next frame on its way
    from an endpoint that is [linked]: none of them returns an error, and the two
    endpoints stay [linked]. *)

From S2P Require Import Prelude Varint Params Frame WriteLock Config State Core Stream Conn System Facts Ids Table Flow Life Control Wake Transport Endpoint Wire LifeTheorems History FrameTheorems EndpointTheorems Grow Peers Ahead Compat.

(** * Both sides of a stream *)

Section sides.
Context (x y : Conn) (Hside : c_isServer y = negb (c_isServer x)).

Lemma other_initiated id : initiatedLocally y id = negb (initiatedLocally x id).
Proof using Hside. unfold initiatedLocally. rewrite Hside. by destruct (_ =? _), (c_isServer x). Qed.

Lemma other_can id : can_recv y id = can_send x id /\ can_send y id = can_recv x id.
Proof using Hside. unfold can_recv, can_send. rewrite other_initiated, negb_involutive. done. Qed.
End sides.

(** * The transport parameters *)

Lemma declared_fields c :
  let p := declared c in
  InitialMaxData p = conn_window c /\ InitialMaxStreamsBidi p = u64 (MaxIncomingStreams (c_config c)) /\
  InitialMaxStreamsUni p = u64 (MaxIncomingUniStreams (c_config c)) /\
  MaxDatagramFrameSize p = cfg_MaxDatagramFrameSize (c_config c) /\
  InitialMaxStreamDataBidiLocal p = stream_window c /\ InitialMaxStreamDataBidiRemote p = stream_window c /\
  InitialMaxStreamDataUni p = stream_window c.
Proof. unfold declared, params_received, localParameters. by destruct (negb _); simpl; repeat case_match. Qed.

Lemma finished_nonneg c d : 0 <= finished c d.
Proof. unfold finished. apply sumZ_nonneg. intros s _. destruct (_ && _); simpl; lia. Qed.

Lemma new_recvMax_nonneg id c : config_ok (c_config c) -> 0 <= s_recvMax (new_stream id c).
Proof.
  intros H. pose proof (ok_stream_window _ H). unfold new_stream. destruct (bool_decide _), (initiatedLocally c id); simpl; lia.
Qed.

(** The limits that an endpoint declares are those that it enforces. *)
Lemma declared_limit x y id :
  c_isServer y = negb (c_isServer x) -> c_peer x = declared y -> config_ok (c_config y) ->
  peer_limit x id <= s_recvMax (new_stream id y).
Proof.
  intros Hs Ep Hc. pose proof (ok_stream_window _ Hc). destruct (declared_fields y) as (_ & _ & _ & _ & D1 & D2 & D3).
  unfold peer_limit, new_stream. rewrite Ep, (other_initiated x y Hs), negb_involutive.
  destruct (bool_decide _), (initiatedLocally x id); simpl; lia.
Qed.

Lemma handles_params x q y f r :
  live x -> live y -> c_ready x = false -> linked x q y (f :: r) ->
  f = TransportParameters (declared y) /\ linked (handleParametersLocked (declared y) x) q y r.
Proof.
  intros X Y Hr L. pose proof L as [G1 [H1 H2 _] [A1 A2 A3 A4 A5 A6 A7] A' _ [C1 C2 C3 C4 C5 Cl C6 C7 C8]].
  rewrite Hr in C1. destruct C1 as (q1 & [= -> <-] & C1). split; [done|].
  destruct (id_ready _ (li_ids _ X) Hr) as [Hnil _]. pose proof (id_cfg _ (li_ids _ Y)) as Hcfg.
  destruct (declared_fields y) as (D1 & D2 & D3 & D4 & _).
  rewrite handleParametersLocked_eq. cbv zeta. set (x' := broadcast_out dirUni _).
  assert (R : relimited x x') by (split; try done; by intros []).
  apply (linked_relimited x x' q y (TransportParameters (declared y) :: r)); [exact R| | |exact L].
  - split; try done.
    + by rewrite <- D1 in H1.
    + pose proof (ok_streams _ Hcfg). pose proof (ok_uni _ Hcfg).
      intros d. rewrite (id_max _ (li_ids _ Y) d). pose proof (finished_nonneg y d).
      destruct d; simpl; rewrite ?D2, ?D3, u64_id by (unfold is_u64; lia); lia.
    + intros d. specialize (A4 d). by destruct d.
    + intros id. specialize (H2 id). pose proof (declared_limit x' y id A1 eq_refl Hcfg).
      assert (send_limit x' id = 0) as ->; [|pose proof (new_recvMax_nonneg id y Hcfg); lia].
      unfold send_limit. destruct (relimited_state x x' id R) as [-> _]. unfold by_id. by rewrite Hnil.
    + change (MaxDatagramFrameSize (declared y) <= cfg_MaxDatagramFrameSize (c_config y)). lia.
  - split; try done.
    + simpl app in C4. by apply list.Forall_cons in C4 as [_ C4].
    + intros seq Hs. apply C6. by right.
    + intros d Hd. apply C7. by right.
    + by apply list.Forall_cons in C8 as [_ C8].
Qed.

(** * The stream of a frame *)

(** What [streamLocked] returns to the handlers of stream frames. *)
Record located (id : Z) (recv : bool) (sp : option nat) (x : Conn) : Prop := {
  lo_live : live x;
  lo_range : in_range x;
  lo_ready : c_ready x = true;
  lo_found p : sp = Some p -> found id recv x p;
  lo_gone : sp = None -> exists s, by_id x id = Some s /\ s_done s = true;
}.

Lemma live_streamLocked id recv x sp x1 :
  live x -> in_range x -> c_ready x = true -> streamLocked id recv x = (inl sp, x1) -> live x1 /\ in_range x1 /\ c_ready x1 = true /\
    (forall p, sp = Some p -> found id recv x1 p) /\ ahead (up_to id) [] x x1.
Proof.
  intros [Hi Hf Hl Hc Ho] Hr Hrd E. pose proof (in_range_limits _ Hr) as Hs.
  destruct (streamLocked_ok id recv x _ _ E Hi Ho Hrd Hs) as (Hi1 & (K1 & K2 & K3 & K4 & K5 & K6) & Hfd).
  pose proof (ahead_streamLocked id recv x Hi Ho Hrd Hs) as A. destruct (flow_streamLocked id recv x Hf (in_range_ranges _ Hi Hr)) as [Hf1 _].
  pose proof (life_streamLocked id recv x Hl) as Hl1. pose proof (kv_streamLocked id recv x) as Hk. rewrite E in *. cbn [snd] in *.
  destruct (ahead_fields _ _ _ _ A) as (E1 & E2 & _ & E4 & E5 & _ & _ & E8 & E9 & _). split_and!; try done.
  - split; try done; [by eapply ctrl_same|congruence].
  - pose proof (K5 dirBidi). pose proof (K5 dirUni). simpl in *. unfold in_range in *. rewrite E2, E8, E9. lia.
  - congruence.
  - intros p Hp. apply Hfd. congruence.
Qed.

(** The stream of a remote identifier exists once the streams up to it are open. *)
Lemma open_loop_known id x :
  live x -> in_range x -> c_ready x = true -> 0 <= id < 2 ^ 62 -> initiatedLocally x id = false ->
  Z.shiftr id 2 < i_max (c_in (streamDir id) x) ->
  known (open_loop (Z.to_nat (Z.shiftr id 2 + 1 - i_next (c_in (streamDir id) x))) (streamDir id) (Z.shiftr id 2) x) id.
Proof.
  intros [Hi _ _ _ Ho] Hr Hrd Hid El Hlt. pose proof (in_range_limits _ Hr) as Hs. assert (0 <= Z.shiftr id 2) by (apply Z.shiftr_nonneg; lia).
  set (n := Z.to_nat _). pose proof (open_loop_keep n (streamDir id) (Z.shiftr id 2) x) as (_ & K2 & _).
  assert (H1 : ids_inv (open_loop n (streamDir id) (Z.shiftr id 2) x)) by (by apply ids_open_loop).
  assert (Hn : Z.shiftr id 2 < i_next (c_in (streamDir id) (open_loop n (streamDir id) (Z.shiftr id 2) x))).
  { apply open_loop_next; try done. lia. }
  destruct (remote_ids_complete _ (streamDir id) (Z.shiftr id 2) H1 ltac:(lia)) as (p & Hp & Ep).
  apply known_ptr; [done|]. exists p. split; [done|]. rewrite Ep, (streamID_fixed x) by done. by rewrite <- El, <- streamID_of_id.
Qed.

Section locate.
Context (x y : Conn) (q r : list frame) (id : Z) (recv : bool).
Hypothesis (X : live x) (Y : live y) (Hr : in_range x) (Hrd : c_ready x = true) (L : linked x q y r).
Hypothesis (Hk : known y id) (Hside : (if recv then can_send y id else can_recv y id) = true).

Lemma peer_index :
  0 <= id < 2 ^ 62 /\ Z.shiftr id 2 < if initiatedLocally x id then o_next (c_out (streamDir id) x) else o_next (c_out (streamDir id) y).
Proof using Y L Hk.
  pose proof L as [_ _ Axy _ _ _]. pose proof (ag_next _ _ Axy (streamDir id)).
  apply known_ptr in Hk as (py & Hpy & Hid); [|apply Y]. destruct (id_stream _ (li_ids _ Y) py Hpy) as [S1 _ _ S4 _ _].
  rewrite Hid in S1, S4. split; [done|]. unfold next_index in S4. rewrite (other_initiated x y (ag_side _ _ Axy)) in S4.
  destruct (initiatedLocally x id); simpl in S4; lia.
Qed.

Lemma streamLocked_known :
  exists x1, streamLocked id recv x = (inl (c_streams x1 !! id), x1) /\ known x1 id.
Proof using All.
  destruct peer_index as [S1 S4]. pose proof L as [G _ Axy Ayx _ _]. unfold streamLocked.
  assert (E0 : bool_decide (streamDir id = dirUni) && Bool.eqb (initiatedLocally x id) recv = false).
  { unfold can_recv, can_send in *. rewrite (other_initiated x y (ag_side _ _ Axy)) in *.
    destruct (bool_decide _), (initiatedLocally x id), recv; done. }
  rewrite E0. destruct (initiatedLocally x id) eqn:El.
  - destruct (Z.leb_spec (o_next (c_out (streamDir id) x)) (Z.shiftr id 2)); [lia|].
    exists x. split; [done|]. rewrite (streamID_of_id x id S1), El. apply (gd_local _ G).
    split; [apply Z.shiftr_nonneg|]; lia.
  - pose proof (ag_out _ _ Ayx (streamDir id)). pose proof (id_out _ (li_ids _ Y) (streamDir id)).
    destruct (Z.leb_spec (i_max (c_in (streamDir id) x)) (Z.shiftr id 2)); [lia|]. eexists. split; [done|]. by apply open_loop_known.
Qed.

Lemma streamLocked_finds :
  exists sp x1, streamLocked id recv x = (inl sp, x1) /\ located id recv sp x1 /\ linked x1 q y r.
Proof using All.
  destruct peer_index as [S1 S4]. destruct streamLocked_known as (x1 & E & K). exists (c_streams x1 !! id), x1. split; [done|].
  destruct (live_streamLocked id recv x _ x1 X Hr Hrd E) as (X1 & Hr1 & Hrd1 & Hf & A). split.
  - split; try done. intros Hnone. apply known_ptr in K as (p & Hp & Hid); [|apply X1]. exists (deref x1 p).
    split; [rewrite <- Hid; by apply by_id_ptr; [apply X1|]|]. destruct (s_done (deref x1 p)) eqn:Ed; [done|].
    assert (c_streams x1 !! id = Some p); [|congruence]. by apply (id_streams _ (li_ids _ X1) (li_open _ X1)).
  - destruct (initiatedLocally x id) eqn:El.
    + assert (x1 = x) as ->; [|done]. unfold streamLocked in E. rewrite El in E. by repeat case_match; simplify_eq.
    + eapply linked_ahead; [exact A| |exact L]. intros d. unfold up_to. pose proof (id_out _ (li_ids _ Y) d).
      destruct (decide _) as [->|]; lia.
Qed.
End locate.

(** * Frames about a stream *)

Section changed.
Context (x x' y : Conn) (p : nat) (s' : stream) (Hi : ids_inv x) (Hp : ptr x p) (T : touched p s' x x').
Abbreviation s := (deref x p).
Hypothesis (Hsent : c_sent x' = c_sent x) (Hsend : (s_sendOffset s', ended s') = (s_sendOffset s, ended s)).
Hypothesis (Hmax : s_sendMax s' <= recv_limit y (s_id s)).

Lemma changed_flight q : flight x q y -> flight x' q y.
Proof using Hi Hp T Hsent Hsend.
  destruct (rest_fields _ _ (to_rest _ _ _ _ T)) as ((R1 & R2 & _) & (_ & _ & R7) & (R8 & _) & _).
  intros [F1 F2 F3 F4 F5 Fl F6 F7 F8]. split; rewrite ?R7, ?R8, ?Hsent; try done.
  - unfold declared. by rewrite R2.
  - intros id. rewrite F3. unfold send_state. rewrite (touched_by_id p s' x x' Hi Hp T).
    destruct (Z.eqb_spec id (s_id s)) as [->|]; [|done]. rewrite (by_id_ptr x p Hi Hp). congruence.
  - eapply list.Forall_impl; [exact F4|]. intros f. by apply (touched_backed p s').
Qed.

Lemma linked_changed q r r' : flight y r' x' -> linked x q y r -> linked x' q y r'.
Proof using All.
  intros HF [L1 L2 L3 L4 L5 L6]. split; [|done| | | |done].
  - by apply (touched_grounded p s' x x').
  - by apply (touched_agree_l p s' x x').
  - by apply (touched_agree_r p s' x x').
  - by apply changed_flight.
Qed.
End changed.

(** The next frame of a stream has arrived. *)
Lemma flight_received x x' y p s' f r :
  ids_inv x -> ptr x p -> touched p s' x x' -> c_ready x = true -> (forall id, touches id f = (s_id (deref x p) =? id)) ->
  c_received x' = c_received x + data_len [f] ->
  track (s_id (deref x p)) (recv_state x (s_id (deref x p))) [f] = Some (s_recvOffset s', s_finRecv s' || s_recvReset s') ->
  flight y (f :: r) x -> flight y r x'.
Proof.
  intros Hi Hp T Hrd Ht Hd Htr [F1 F2 F3 F4 F5 Fl F6 F7 F8].
  destruct (rest_fields _ _ (to_rest _ _ _ _ T)) as ((R1 & R2 & R3 & R4) & _ & (R8 & R9 & _) & _).
  rewrite data_len_cons in F2. rewrite Hrd in F1. split; rewrite ?R2, ?R4, ?R8, ?R9, ?Hrd; try done.
  - by apply list.Forall_cons in F1 as [_ F1].
  - lia.
  - intros id. rewrite <- F3. change ((f :: r) ++ c_control y) with ([f] ++ (r ++ c_control y)). rewrite (track_app id _ [f]).
    unfold recv_state at 1. rewrite (touched_by_id p s' x x' Hi Hp T). destruct (Z.eqb_spec id (s_id (deref x p))) as [->|Hne].
    + by rewrite Htr.
    + rewrite track_cons_skip; [done|]. rewrite Ht. apply Z.eqb_neq. congruence.
  - simpl app in F4. by apply list.Forall_cons in F4 as [_ F4].
  - specialize (Ht (s_id (deref x p))). rewrite Z.eqb_refl in Ht. by destruct f.
  - intros seq H. apply F6. by right.
  - intros d H. apply F7. by right.
  - by apply list.Forall_cons in F8 as [_ F8].
Qed.

(** A stream that is done has received its end. *)
Lemma done_closed x s id :
  live x -> by_id x id = Some s -> can_recv x id = true -> s_done s = true -> recv_state x id = (s_recvOffset s, true).
Proof.
  intros X Hs Hc Hd. unfold recv_state. rewrite Hs. f_equal. apply by_id_Some in Hs as (p & Hp & <- & Hid); [|apply X].
  pose proof (sl_done _ (lf_stream _ (li_life _ X) p Hp)) as H. pose proof (sid_recv _ _ (id_stream _ (li_ids _ X) p Hp)) as Hr.
  rewrite Hid, Hc in Hr. rewrite Hd in H. symmetry in H. apply andb_true_iff in H as [[_ H]%andb_true_iff _].
  unfold recvDone in H. rewrite Hr in H. simpl in H. destruct (s_recvReset _); [apply orb_true_r|]. by apply andb_true_iff in H as [-> _].
Qed.

(** What a frame of a stream must be, by the frames before it. *)
Lemma head_open y f r x id :
  flight y (f :: r) x -> touches id f = true -> (recv_state x id).2 = false.
Proof.
  intros [_ _ F3 _ _ _ _ _ _] Ht. specialize (F3 id). destruct (recv_state x id) as [o []]; [|done].
  apply track_closed in F3 as [_ F]. simpl app in F. apply list.Forall_cons in F as [F _]. congruence.
Qed.

Section stream_frames.
Context {GA : GoAppend} (x y : Conn) (q r : list frame) (f : frame).
Hypothesis (X : live x) (Y : live y) (Hr : in_range x) (Hrd : c_ready x = true) (L : linked x q y (f :: r)).

Lemma handles_maxStreamData sid m :
  f = MaxStreamData sid m -> exists x', handleMaxStreamData sid m x = (None, x') /\ linked x' q y r.
Proof using X Y Hr Hrd L.
  intros Ef. pose proof (head_backed _ _ _ _ (lk_r _ _ _ _ L)) as Hb. rewrite Ef in Hb. destruct Hb as (B1 & B2 & B3).
  assert (L' : linked x q y r) by (apply (linked_tail x q y f); [by rewrite Ef|done..]).
  destruct (streamLocked_finds x y q r sid false X Y Hr Hrd L' B1 B2) as (sp & x1 & E & [X1 Hr1 Hrd1 Hfd _] & L1).
  unfold handleMaxStreamData, with_stream. rewrite E. destruct sp as [p|]; [|by eexists].
  destruct (Hfd p eq_refl) as [Hp Hid _ _]. destruct (_ <? _); [|by eexists]. eexists. split; [done|].
  assert (T : touched p (set_s_sendMax m (deref x1 p)) x1 (upd p (set_s_sendMax m) x1)) by done.
  eapply (linked_ahead none []); [apply ahead_pv, pv_broadcast_write|apply none_le, Y|].
  apply (linked_changed x1 _ y p _ (li_ids _ X1) Hp T eq_refl eq_refl) with (r := r); [by rewrite Hid| |done].
  apply (sends_flight_r x1 _ y p _ (li_ids _ X1) Hp T eq_refl eq_refl), L1.
Qed.

Lemma handles_stopSending sid code :
  f = StopSending sid code -> exists x', handleStopSending sid code x = (None, x') /\ linked x' q y r.
Proof using X Y Hr Hrd L.
  intros Ef. pose proof (head_backed _ _ _ _ (lk_r _ _ _ _ L)) as Hb. rewrite Ef in Hb. destruct Hb as (B1 & B2).
  assert (L' : linked x q y r) by (apply (linked_tail x q y f); [by rewrite Ef|done..]).
  destruct (streamLocked_finds x y q r sid false X Y Hr Hrd L' B1 B2) as (sp & x1 & E & [X1 Hr1 Hrd1 Hfd _] & L1).
  unfold handleStopSending, with_stream. rewrite E. destruct sp as [p|]; [|by eexists].
  destruct (Hfd p eq_refl) as [Hp Hid _ _]. eexists. split; [done|].
  destruct (ahead_resetSend none x1 (li_ids _ X1) Hr1 p code true Hp) as [new A].
  eapply linked_ahead; [exact A|apply none_le, Y|exact L1].
Qed.

(** ** Data *)

(** The limits that its sender keeps. *)
Lemma head_limits x1 p :
  live x1 -> ptr x1 p -> (forall id, touches id f = (s_id (deref x1 p) =? id)) -> linked x1 q y (f :: r) ->
  exists st, track (s_id (deref x1 p)) (recv_state x1 (s_id (deref x1 p))) [f] = Some st /\
    st.1 <= s_recvMax (deref x1 p) /\ c_received x1 + data_len [f] <= c_recvMax x1.
Proof using Y.
  clear L. intros X1 Hp Ht [_ _ _ [_ A2 _ _ A5 _ _] _ [_ F2 F3 F4 _ _ _ _ _]]. specialize (F3 (s_id (deref x1 p))). specialize (A5 (s_id (deref x1 p))).
  unfold recv_limit in A5. rewrite (by_id_ptr x1 p (li_ids _ X1) Hp) in A5. rewrite data_len_cons in F2. pose proof (data_len_nonneg r).
  pose proof (fl_sendLimit _ (li_flow _ Y)). change ((f :: r) ++ c_control y) with ([f] ++ (r ++ c_control y)) in F3. rewrite track_app in F3.
  destruct (track _ _ [f]) as [st|]; [|done]. simpl in F3. apply track_le in F3. exists st. split_and!; [done| |lia].
  simpl app in F4. apply list.Forall_cons in F4 as [F4 _]. specialize (Ht (s_id (deref x1 p))). rewrite Z.eqb_refl in Ht.
  assert (Hk : known y (s_id (deref x1 p))) by (destruct f; try done; simpl in *; destruct F4; apply Z.eqb_eq in Ht; congruence).
  destruct Hk as [sy Hsy]. unfold send_state in F3. unfold send_limit in A5. rewrite Hsy in F3, A5. simpl in F3.
  apply by_id_Some in Hsy as (py & Hpy & <- & _); [|apply Y]. pose proof (so_send _ _ (fl_stream _ (li_flow _ Y) py Hpy)). lia.
Qed.

(** The state after the data has been counted. *)
Lemma linked_counted x1 x2 p s' :
  live x1 -> ptr x1 p -> (forall id, touches id f = (s_id (deref x1 p) =? id)) -> linked x1 q y (f :: r) -> c_ready x1 = true ->
  touched p s' x1 x2 -> c_sent x2 = c_sent x1 -> c_received x2 = c_received x1 + data_len [f] ->
  (s_sendOffset s', ended s') = (s_sendOffset (deref x1 p), ended (deref x1 p)) -> s_sendMax s' = s_sendMax (deref x1 p) ->
  track (s_id (deref x1 p)) (recv_state x1 (s_id (deref x1 p))) [f] = Some (s_recvOffset s', s_finRecv s' || s_recvReset s') ->
  linked x2 q y r.
Proof using Type.
  intros X1 Hp Ht L1 Hrd1 T Es Ec Esend Emax Etr.
  apply (linked_changed x1 x2 y p s' (li_ids _ X1) Hp T Es Esend) with (r := f :: r); [| |done].
  - pose proof (ag_limit _ _ (lk_xy _ _ _ _ L1) (s_id (deref x1 p))) as H. unfold send_limit in H.
    rewrite (by_id_ptr x1 p (li_ids _ X1) Hp) in H. lia.
  - apply (flight_received x1 x2 y p s' f r (li_ids _ X1) Hp T Hrd1 Ht Ec Etr), L1.
Qed.

(** The end of the handlers: what was read is consumed or buffered, and the
    stream may be complete. *)
Lemma linked_settled x2 x3 p b :
  fits x2 -> (forall d, i_max (c_in d x3) = i_max (c_in d x2)) -> ahead b [] x2 x3 -> (forall d, b d <= o_next (c_out d y)) ->
  linked x2 q y r -> linked (completeLocked p (broadcast_read p x3)) q y r.
Proof using Type.
  intros Hf Hin A Hb L2. apply (linked_ahead b [] x2); [|done|exact L2].
  eapply ahead_nil_l; [exact A|]. eapply ahead_nil_l; [apply ahead_pv, pv_broadcast_read|]. apply ahead_complete.
  apply (fits_pv x3); [apply pv_broadcast_read|]. intros d. rewrite Hin. apply Hf.
Qed.

Lemma accepts_stream x1 p sid off d fin :
  f = Stream sid off d fin -> live x1 -> in_range x1 -> c_ready x1 = true -> found sid true x1 p -> linked x1 q y (f :: r) ->
  exists x', stream_frame sid off d fin p x1 = (None, x') /\ linked x' q y r.
Proof using Y.
  intros Ef X1 Hr1 Hrd1 [Hp Hid _ _] L1.
  assert (Ht : forall id, touches id f = (s_id (deref x1 p) =? id)) by (intros id; by rewrite Ef, Hid).
  destruct (head_limits x1 p X1 Hp Ht L1) as (st & Etr & Hm & Hc). pose proof (linked_counted x1) as Hcount.
  assert (Ed : data_len [f] = zlen d) by (rewrite Ef; unfold data_len, sumZ; simpl; lia). rewrite Ed in *.
  assert (Etr' := Etr). unfold recv_state in Etr'. rewrite (by_id_ptr x1 p (li_ids _ X1) Hp), Ef, Hid in Etr'. simpl in Etr'. rewrite Z.eqb_refl in Etr'.
  unfold stream_frame. destruct (off =? s_recvOffset (deref x1 p)) eqn:Eo; [|done]. simpl in Etr'.
  destruct (s_finRecv (deref x1 p) || s_recvReset (deref x1 p)) eqn:Ecl; [done|]. simpl in Etr'. injection Etr' as <-. cbn [negb fst] in *.
  apply Z.eqb_eq in Eo. apply orb_false_iff in Ecl as [_ Ecl].
  pose proof (li_flow _ X1) as Hf1. pose proof (fl_stream _ Hf1 p Hp) as Hs. pose proof (in_range_ranges _ (li_ids _ X1) Hr1) as [R1 R2 R3].
  pose proof (consumed_range _ Hf1). pose proof (fl_window _ Hf1). pose proof (so_read _ _ Hs). pose proof (so_have _ _ Hs).
  pose proof (stream_received _ Hf1 p Hp). assert (varint_max < 2 ^ 63) by (vm_compute; congruence).
  rewrite (u64_id (s_recvOffset _ + zlen d)) by (unfold is_u64; lia). destruct (Z.ltb_spec (s_recvMax (deref x1 p)) (s_recvOffset (deref x1 p) + zlen d)); [lia|].
  unfold receivedLocked. rewrite (u64_id (c_received x1 + _)) by (unfold is_u64; lia). destruct (Z.ltb_spec (c_recvMax x1) (c_received x1 + zlen d)); [lia|].
  set (x2 := upd p _ _). eexists. split; [done|].
  assert (L2 : linked x2 q y r).
  { apply (Hcount x2 p (set_s_finRecv fin (set_s_recvOffset (u64 (s_recvOffset (deref x1 p) + zlen d)) (deref x1 p)))); try done.
    rewrite Etr. cbn [s_recvOffset s_finRecv s_recvReset set_s_finRecv set_s_recvOffset]. rewrite Ecl, orb_false_r, u64_id by (unfold is_u64; lia). congruence. }
  apply (linked_settled x2 _ p none); [..|exact L2].
  - intros e. pose proof (in_range_fits x1 (li_ids _ X1) Hr1 e). by destruct e.
  - intros e. destruct (s_readCancelled _); by destruct e.
  - destruct (s_readCancelled _).
    + apply ahead_consume. split_and!; simpl; lia.
    + apply ahead_pv, pv_upd. unfold hview, ended, bufferLocked, append_rbuf. destruct (_ && _); simpl; by destruct (_ <=? _)%nat.
  - apply none_le, Y.
Qed.

Lemma accepts_reset x1 p sid code n :
  f = ResetStream sid code n -> live x1 -> in_range x1 -> c_ready x1 = true -> found sid true x1 p -> linked x1 q y (f :: r) ->
  exists x', reset_frame sid code n p x1 = (None, x') /\ linked x' q y r.
Proof using Y.
  intros Ef X1 Hr1 Hrd1 [Hp Hid _ _] L1.
  assert (Ht : forall id, touches id f = (s_id (deref x1 p) =? id)) by (intros id; by rewrite Ef, Hid).
  destruct (head_limits x1 p X1 Hp Ht L1) as (st & Etr & Hm & Hc).
  assert (Ed : data_len [f] = 0) by (by rewrite Ef).
  assert (Etr' := Etr). unfold recv_state in Etr'. rewrite (by_id_ptr x1 p (li_ids _ X1) Hp), Ef, Hid in Etr'. simpl in Etr'. rewrite Z.eqb_refl in Etr'.
  unfold reset_frame. destruct (Z.eqb_spec n (s_recvOffset (deref x1 p))) as [Eo|]; [|done]. simpl in Etr'.
  destruct (s_finRecv (deref x1 p) || s_recvReset (deref x1 p)) eqn:Ecl; [done|]. simpl in Etr'. injection Etr' as <-. cbn [negb fst] in *.
  pose proof (li_flow _ X1) as Hf1. pose proof (fl_stream _ Hf1 p Hp) as Hs. pose proof (in_range_ranges _ (li_ids _ X1) Hr1) as Hg.
  pose proof (consumed_range _ Hf1). pose proof (buffered_room _ Hf1 p Hp). assert (varint_max < 2 ^ 63) by (vm_compute; congruence).
  apply orb_false_iff in Ecl as [_ Ecl]. rewrite Ecl. destruct (Z.ltb_spec n (s_recvOffset (deref x1 p))); [lia|]. cbn [orb andb].
  destruct (Z.ltb_spec (s_recvMax (deref x1 p)) n); [lia|]. replace (n - s_recvOffset (deref x1 p)) with 0 by lia.
  unfold receivedLocked. change (u64 0) with 0. destruct Hg as [R1 R2 R3]. rewrite Z.add_0_r, Z.add_0_l, (u64_id (c_received x1)) by (unfold is_u64; lia).
  rewrite (u64_id (zlen _)) by (unfold is_u64; lia). destruct (Z.ltb_spec (c_recvMax x1) (c_received x1)); [lia|].
  set (k := zlen (unread (deref x1 p))) in *. set (x1' := set_c_received (c_received x1) x1). eexists. split; [done|].
  set (x2 := upd p (after_reset code n) x1').
  change (upd p (after_reset code n) (consumeLocked k x1')) with (consumeLocked k x2).
  assert (L2 : linked x2 q y r).
  { apply (linked_counted x1 x2 p (after_reset code n (deref x1 p))); try done.
    - split; try done; unfold after_reset; by case_match.
    - rewrite Ed. simpl. lia.
    - unfold after_reset, ended. by case_match.
    - unfold after_reset. by case_match.
    - rewrite Etr. unfold after_reset. case_match; simpl; by rewrite orb_true_r. }
  apply (linked_settled x2 _ p none); [..|exact L2].
  - intros e. pose proof (in_range_fits x1 (li_ids _ X1) Hr1 e). by destruct e.
  - by intros [].
  - apply ahead_consume. apply (flow_consumable k x1); [done|by split|lia|done].
  - apply none_le, Y.
Qed.

(** A frame of data finds its stream. *)
Lemma data_found sid (k : nat -> Conn -> option error * Conn) :
  touches sid f = true ->
  (forall p x1, live x1 -> in_range x1 -> c_ready x1 = true -> found sid true x1 p -> linked x1 q y (f :: r) ->
    exists x', k p x1 = (None, x') /\ linked x' q y r) ->
  exists x', with_stream sid true k x = (None, x') /\ linked x' q y r.
Proof using X Y Hr Hrd L.
  intros Ht Hk. pose proof (head_backed _ _ _ _ (lk_r _ _ _ _ L)) as Hb.
  assert (B : known y sid /\ can_send y sid = true) by (destruct f; try done; simpl in *; apply Z.eqb_eq in Ht; by subst).
  destruct B as [B1 B2].
  destruct (streamLocked_finds x y q (f :: r) sid true X Y Hr Hrd L B1 B2) as (sp & x1 & E & [X1 Hr1 Hrd1 Hfd Hgone] & L1).
  unfold with_stream. rewrite E. destruct sp as [p|]; [by apply Hk; auto|].
  exfalso. destruct (Hgone eq_refl) as (s & Hs & Hd). pose proof (head_open _ _ _ _ sid (lk_r _ _ _ _ L1) Ht) as Ho.
  rewrite (done_closed x1 s sid X1 Hs) in Ho; [done| |done].
  by destruct (other_can y x1 (ag_side _ _ (lk_yx _ _ _ _ L1)) sid) as [-> _].
Qed.
End stream_frames.

(** * Every frame *)

Lemma handles_next {GA : GoAppend} now x q y f r :
  live x -> live y -> in_range x -> linked x q y (f :: r) ->
  exists x', handleFrameLocked now f x = (None, x') /\ linked x' q y r.
Proof.
  intros X Y Hr L. destruct (c_ready x) eqn:Hrd.
  2:{ destruct (handles_params x q y f r X Y Hrd L) as [-> L']. simpl. rewrite Hrd. by eexists. }
  pose proof (head_backed _ _ _ _ (lk_r _ _ _ _ L)) as Hb. pose proof (ft_params _ _ _ (lk_r _ _ _ _ L)) as Hnp.
  rewrite Hrd in Hnp. apply list.Forall_cons in Hnp as [Hnp _].
  destruct f as [sid code n|sid code|sid off d fin|m|sid m|uni m| | |d|resp seq|]; try done; simpl; rewrite Hrd; simpl.
  - eapply data_found; try done; [apply Z.eqb_refl|]. intros. by eapply accepts_reset.
  - by eapply handles_stopSending.
  - eapply data_found; try done; [apply Z.eqb_refl|]. intros. by eapply accepts_stream.
  - eexists. split; [done|]. by eapply handles_maxData.
  - by eapply handles_maxStreamData.
  - eexists. split; [done|]. by eapply handles_maxStreams.
  - eexists. split; [done|]. by apply (linked_tail x q y Blocked).
  - by eapply handles_datagram.
  - by eapply handles_ping.
Qed.

(** * The pair *)

(** The invariant of the pair; the sides are parameters, so that it holds of
    the swapped pair too. *)
Record coupled (cfgA : Config) (sideA : bool) (cfgB : Config) (sideB : bool) {GA : GoAppend} (x : pair) : Prop := {
  cp_left : reach cfgA sideA (left x);
  cp_right : reach cfgB sideB (right x);
  cp_openL : c_closeErr (left x) = None;
  cp_openR : c_closeErr (right x) = None;
  cp_linked : linked (left x) (ltr x) (right x) (rtl x);
}.

Lemma coupled_swap {GA : GoAppend} cfgA sideA cfgB sideB x :
  coupled cfgA sideA cfgB sideB x -> coupled cfgB sideB cfgA sideA (swap_pair x).
Proof. intros []. split; try done. by apply linked_swap. Qed.

Lemma reach_live {GA : GoAppend} cfg side c : config_ok cfg -> reach cfg side c -> c_closeErr c = None -> live c.
Proof.
  intros H Hc Ho. split; [by eapply reach_ids|by eapply reach_flow|by eapply reach_life|by eapply reach_ctrl|done].
Qed.

(** ** The start *)

Lemma declared_ok cfg side now : config_ok cfg -> parsed_ok (TransportParameters (declared (newConn cfg side now))).
Proof.
  intros H. destruct (localParameters_sendable cfg H) as (Hv & Hb & Hu & Hm). unfold parsed_ok. simpl. split; [|done].
  unfold declared, params_received. simpl. destruct (Z.eqb_spec (MaxRecordSize (localParameters cfg)) 0) as [E|E].
  - split_and!; try done. intros id f Hf. specialize (Hv id f Hf). unfold is_varint in *. by field_cases Hf; cbn [load] in *; simpl.
  - split_and!; try done. lia.
Qed.

Lemma new_grounded cfg side now : config_ok cfg -> grounded (newConn cfg side now).
Proof. intros H. split; try done. intros [] j Hj; simpl in Hj; lia. Qed.

Lemma new_agree cfgA cfgB side nowA nowB :
  config_ok cfgB -> config_ok cfgA -> agree (newConn cfgA side nowA) (newConn cfgB (negb side) nowB).
Proof.
  intros HB HA. pose proof (ok_streams _ HB). pose proof (ok_uni _ HB). pose proof (ok_conn_window _ HB).
  pose proof (ok_datagram _ HB). split; try done; simpl; try lia.
  - intros []; simpl; rewrite u64_id by (unfold is_u64; lia); lia.
  - by intros [].
  - intros id. unfold recv_limit. simpl. pose proof (new_recvMax_nonneg id (newConn cfgB (negb side) nowB) HB).
    assert (peer_limit (newConn cfgA side nowA) id = 0) as ->; [|unfold send_limit; simpl; lia].
    unfold peer_limit, new_stream. by destruct (bool_decide _), (initiatedLocally _ id).
Qed.

Lemma new_flight cfgA cfgB sideA sideB nowA nowB :
  config_ok cfgA ->
  let a := newConn cfgA sideA nowA in flight a [TransportParameters (declared a)] (newConn cfgB sideB nowB).
Proof.
  intros HA a. split; try done.
  - by exists [].
  - by apply Forall_singleton.
  - by intros seq ?%list_elem_of_singleton.
  - by intros d ?%list_elem_of_singleton.
  - apply Forall_singleton. by apply declared_ok.
Qed.

Section pair.
Context {V : QuicVarint} {VL : QuicVarintLaws V} {GA : GoAppend}.
Context (cfgA : Config) (sideA : bool) (cfgB : Config) (sideB : bool).
Hypothesis (HA : config_ok cfgA) (HB : config_ok cfgB).

(** ** The steps *)

Lemma acts_open c fs c' : live c -> in_range c -> acts c fs c' -> c_closeErr c' = None.
Proof using Type.
  intros [Hi Hf _ _ Ho] Hr [o Hs Hv|p n off k d c1 _ _ E _|p off c1 _ E|now|]; [| | | |done].
  - destruct (ahead_silent none o c Hi Hf Hr Hs Hv) as [new A]. destruct (ahead_fields _ _ _ _ A) as (_ & _ & _ & _ & E & _). congruence.
  - unfold reserve in E. destruct (sendErrLocked p c); [done|]. injection E as _ _ <-. done.
  - unfold finish in E. rewrite Ho in E. destruct (_ || _); [done|]. injection E as _ <-.
    rewrite completeLocked_eq. cbv zeta. by rewrite stream_cancel_eq.
  - by rewrite takeControl_eq.
Qed.

Lemma acts_reach c fs c' : in_range c -> reach cfgA sideA c -> acts c fs c' -> reach cfgA sideA c'.
Proof using Type.
  intros Hr Hc [o Ho Hv|p n off k d c1 Hh Hn E _|p off c1 Hh E|now|]; [by apply reach_step| | | |done].
  - replace c1 with (exec (OpReserve p n) c) by (simpl; by rewrite E). by apply reach_step.
  - replace c1 with (exec (OpFinish p) c) by (simpl; by rewrite E). by apply reach_step.
  - by apply (reach_step _ _ (OpTakeControl now)).
Qed.

Lemma acts_linked x fs x' q y r :
  live x -> live y -> in_range x -> acts x fs x' -> linked x q y r -> linked x' (q ++ fs) y r.
Proof using VL.
  intros X Y Hr [o Ho Hv|p n off k d c1 Hh Hn E Hd|p off c1 Hh E|now|d n Hd En Hn] L.
  - rewrite app_nil_r. by apply linked_silent.
  - by eapply linked_chunk.
  - by apply linked_fin.
  - by apply linked_flush.
  - eapply linked_datagram; try done. unfold is_varint. assert (2 ^ 60 <= varint_max) by (vm_compute; congruence). lia.
Qed.

Lemma coupled_left x x' : left_step x x' -> coupled cfgA sideA cfgB sideB x -> coupled cfgA sideA cfgB sideB x'.
Proof using VL HA HB.
  intros S [C1 C2 C3 C4 C5]. pose proof (reach_live _ _ _ HA C1 C3) as X. pose proof (reach_live _ _ _ HB C2 C4) as Y.
  destruct S as [a q b r fs a' Hr Ha|now a q b f r a' Hr E]; simpl in *.
  - split; simpl; try done; [by apply (acts_reach a fs)|by apply (acts_open a fs)|by apply (acts_linked a)].
  - destruct (handles_next now a q b f r X Y Hr C5) as (a1 & E1 & L1). rewrite E in E1. injection E1 as <-.
    assert (Hp := ft_parsed _ _ _ (lk_r _ _ _ _ C5)). apply list.Forall_cons in Hp as [[Hp1 Hp2] _].
    split; simpl; try done.
    + replace a' with (exec (OpFrame now f) a) by (simpl; by rewrite E). by apply reach_step.
    + pose proof (frame_closeErr now f a) as Hcl. rewrite E in Hcl. simpl in Hcl. congruence.
Qed.
End pair.

(** ** The writers of an endpoint *)

Section writers.
Context {V : QuicVarint} {VL : QuicVarintLaws V} {GA : GoAppend} {T : Type} {RT : RecordTransport T} {RTL : RecordTransportLaws T RT}.
Context (cfg : Config) (isServer : bool) (e : endpoint T) (rs : list bytes).
Hypothesis (Hcfg : config_ok cfg) (Hreach : reach cfg isServer (e_conn e)) (Hrange : in_range (e_conn e)).
Hypothesis (Hwbuf : wbuf_ok e) (Hcarries : carries (e_tr e) rs).

(** The connection took a step of [acts], up to the statistics, and the records
    that the transport carries since then hold the frames of that step. *)
Definition wrote (e' : endpoint T) : Prop :=
  exists fs c recs groups, acts (e_conn e) fs c /\ stats_only c (e_conn e') /\ carries (e_tr e') (rs ++ recs) /\
    Forall2 (fun g b => record_frames b = Some g) groups recs /\ mjoin groups = fs.

Lemma wrote_one n f b e' c :
  acts (e_conn e) [f] c -> frame_received f = f -> stats_only c (e_conn e') -> carries (e_tr e') (rs ++ [b]) -> record_of n [f] b -> wrote e'.
Proof using Type.
  intros Ha Hf Hst Hc [_ Hr]. exists [f], c, [b], [[f]]. split_and!; try done. constructor; [|constructor]. rewrite Hr. simpl. by rewrite Hf.
Qed.

Lemma writeChunk_acts now p data n e' :
  holds_send (e_conn e) p -> zlen data < 2 ^ 63 -> writeChunk now p data e = Some (n, None, e') -> wrote e'.
Proof using All.
  intros Hh Hd E.
  destruct (writeChunk_ok cfg isServer e rs Hcfg Hreach Hrange Hwbuf Hcarries now p data Hh Hd) as (n' & err & e'' & E' & _ & Ho).
  rewrite E in E'. injection E' as <- <- <-. unfold writeChunk in E. destruct (reserve p (zlen data) (e_conn e)) as [[[off k]|x] c] eqn:Er; [|done].
  assert (Hoff : off = s_sendOffset (deref (e_conn e) p)).
  { unfold reserve in Er. destruct (sendErrLocked p (e_conn e)); [done|]. by injection Er as <- _ _. }
  destruct (reserve_spec p (zlen data) off k _ c (reach_flow _ _ _ Hcfg Hreach) (proj1 (proj1 Hh)) ltac:(lia) Er) as (_ & _ & Ho' & _).
  clear E. subst off. destruct Ho as [(x & _ & Hx & _)|[(-> & _ & Et & Ec & Hsame & _)|[(Hk & _ & _ & _ & Hs & Hadv & b & Hc & Hb)|(x & _ & Hx & _)]]]; try done.
  - rewrite Er in Ec. simpl in Ec. rewrite Ec in Hsame. assert (k = 0) as -> by lia.
    exists [], c, [], []. rewrite app_nil_r, Et, Ec. split_and!; [|apply stats_refl|done|constructor|done].
    apply (acts_chunk (e_conn e) p (zlen data) (s_sendOffset (deref (e_conn e) p)) 0 []); try done. lia.
  - rewrite Er in Hs. simpl in Hs. assert (n = k) as ->.
    { destruct Hs as (b0 & r0 & t0 & E0). rewrite E0 in Hadv. change (s_sendOffset (deref c p) = s_sendOffset (deref (e_conn e) p) + n) in Hadv. lia. }
    assert (Hl : zlen (ztake k data) = k) by (rewrite length_take; lia).
    pose proof (acts_chunk (e_conn e) p (zlen data) _ k (ztake k data) c Hh ltac:(lia) Er Hl) as Ha.
    destruct (Z.eqb_spec k 0); [lia|]. by eapply wrote_one.
Qed.

Lemma closeSend_acts now p e' : holds_send (e_conn e) p -> closeSend now p e = Some (None, e') -> wrote e' \/ e' = e.
Proof using All.
  intros Hh E. destruct (closeSend_ok cfg isServer e rs Hcfg Hreach Hrange Hwbuf Hcarries now p Hh) as (err & e'' & E' & _ & Ho).
  rewrite E in E'. injection E' as <- <-. pose proof (reach_flow _ _ _ Hcfg Hreach) as Hf. assert (Hp : ptr (e_conn e) p) by apply Hh.
  destruct Ho as [(x & ? & _)|[(_ & -> & _)|[(_ & He & Hc & Hs & _ & b & Hcr & Hb)|(x & ? & _)]]]; try done; [by right|left].
  destruct (finish p (e_conn e)) as [r c] eqn:Ef. simpl in Hs.
  assert (exists off, r = inl (Some off)) as [off ->].
  { unfold finish in Ef. rewrite Hc in Ef. destruct (_ || _) eqn:Ee; [unfold ended in He; congruence|]. injection Ef as <- _. by eexists. }
  destruct (finish_result p off _ c Hf Hp Ef) as [Eo _]. pose proof (moved_offset _ _ _ (moved_finish p p _ Hf Hp)) as Em.
  rewrite Ef in Em. simpl in Em. rewrite Em in Eo. subst off. eapply wrote_one; [by apply acts_fin|done|exact Hs|exact Hcr|exact Hb].
Qed.

(** The control frames arrive as they are. *)
Lemma takeControl_received now : Forall (fun f => frame_received f = f) (takeControl now (e_conn e)).1.
Proof using Hcfg Hreach.
  destruct (c_closeErr (e_conn e)) eqn:Ec; [by unfold takeControl; rewrite Ec|]. rewrite takeControl_eq by done. cbn [fst].
  pose proof (ct_queue _ (reach_ctrl _ _ _ Hcfg Hreach)) as Hq. apply Forall_app_2.
  - eapply list.Forall_impl; [exact Hq|]. by intros [].
  - repeat apply Forall_app_2; by apply Forall_when.
Qed.

Lemma groups_received n groups recs :
  Forall2 (record_of n) groups recs -> Forall (fun f => frame_received f = f) (mjoin groups) ->
  Forall2 (fun g b => record_frames b = Some g) groups recs.
Proof using Type.
  induction 1 as [|g b gs bs [_ Hg] _ IH]; [constructor|]. simpl. intros [H1 H2]%Forall_app. constructor; [|by apply IH]. rewrite Hg. f_equal.
  clear -H1. induction H1 as [|f fs Hf _ IH]; [done|]. by apply (f_equal2 cons).
Qed.

Lemma flushControl_acts now e' : flushControl now e = Some (None, e') -> wrote e'.
Proof using All.
  intros E. destruct (flushControl_ok cfg isServer e rs Hcfg Hreach Hrange Hwbuf Hcarries now) as (r & e'' & E' & _ & Hs & Hd & _).
  rewrite E in E'. injection E' as <- <-. destruct (Hd eq_refl) as (recs & groups & Hc & Hg & Hj).
  exists (takeControl now (e_conn e)).1, (takeControl now (e_conn e)).2, recs, groups. split_and!; try done; [apply acts_flush|].
  eapply groups_received; [exact Hg|]. rewrite Hj. apply takeControl_received.
Qed.

Lemma SendDatagram_acts now data e' : zlen data < 2 ^ 60 -> SendDatagram now data e = Some (None, e') -> wrote e'.
Proof using Hcfg Hreach Hwbuf Hcarries VL RTL.
  intros Hd E. destruct (SendDatagram_ok cfg isServer e rs Hcfg Hreach Hwbuf Hcarries now data Hd) as (r & e'' & E' & _ & Ho).
  rewrite E in E'. injection E' as <- <-.
  destruct Ho as [(_ & ? & _)|[(_ & (x & ?) & _)|[(_ & _ & x & ? & _)|[(_ & _ & x & ? & _)|(Hl & _ & _ & Hs & b & Hc & Hb)]]]]; try done.
  apply (wrote_one _ _ b e' (e_conn e)) in Hb; try done. eapply acts_datagram; [done| |].
  - unfold Datagram_Len. rewrite len_size by (unfold is_varint; lia). done.
  - unfold datagramLimit. simpl. lia.
Qed.

(** What the writers put on the transport is what the pair's steps say: each of
    them that succeeds is a step of [acts], and the records that it wrote
    hold the frames of that step, in order; [closeSend] on a stream that has
    ended does nothing. *)
Theorem writers_act now :
  (forall p data n e', holds_send (e_conn e) p -> zlen data < 2 ^ 63 -> writeChunk now p data e = Some (n, None, e') -> wrote e') /\
  (forall p e', holds_send (e_conn e) p -> closeSend now p e = Some (None, e') -> wrote e' \/ e' = e) /\
  (forall e', flushControl now e = Some (None, e') -> wrote e') /\
  (forall data e', zlen data < 2 ^ 60 -> SendDatagram now data e = Some (None, e') -> wrote e').
Proof using All.
  split_and!; [apply writeChunk_acts|apply closeSend_acts|apply flushControl_acts|apply SendDatagram_acts].
Qed.
End writers.

Section interop.
Context {V : QuicVarint} {VL : QuicVarintLaws V} {GA : GoAppend} (cfgA cfgB : Config).

Lemma paired_coupled x : config_ok cfgA -> config_ok cfgB -> paired cfgA cfgB x -> coupled cfgA false cfgB true x.
Proof using VL.
  intros HA HB. induction 1 as [nowA nowB a b|x y _ IH [S|S]].
  - subst a b. split; simpl; try apply reach_init; try done. split.
    + by apply new_grounded.
    + by apply new_grounded.
    + by apply (new_agree cfgA cfgB false).
    + by apply (new_agree cfgB cfgA true).
    + by apply new_flight.
    + by apply new_flight.
  - by apply (coupled_left _ _ _ _ HA HB x).
  - apply coupled_swap, (coupled_left _ _ _ _ HB HA _ _ S), coupled_swap in IH. by destruct y.
Qed.

(** A connection never rejects a frame of another connection of this
    package. Whatever the two applications do, in whatever order the two
    endpoints run, and whatever valid configurations they have, the next frame
    on its way to an endpoint is one that [handleFrameLocked] accepts: it does not
    exceed a limit, arrive out of order or change a final size, refer to a stream
    that was not opened or a side that the stream does not have, repeat a
    sequence number, or answer a ping that was not sent. *)
Theorem peers_never_reject now x :
  config_ok cfgA -> config_ok cfgB -> paired cfgA cfgB x -> in_range (left x) -> in_range (right x) ->
  (forall f q, rtl x = f :: q -> (handleFrameLocked now f (left x)).1 = None) /\
  (forall f q, ltr x = f :: q -> (handleFrameLocked now f (right x)).1 = None).
Proof using VL.
  intros HA HB Hx RA RB. destruct (paired_coupled x HA HB Hx) as [C1 C2 C3 C4 C5].
  pose proof (reach_live _ _ _ HA C1 C3) as X. pose proof (reach_live _ _ _ HB C2 C4) as Y. split; intros f q E; rewrite E in C5.
  - by destruct (handles_next now _ _ _ _ _ X Y RA C5) as (x' & -> & _).
  - by destruct (handles_next now _ _ _ _ _ Y X RB (linked_swap _ _ _ _ C5)) as (x' & -> & _).
Qed.

(** What [a] sends and [b] has granted and received, when [q] is on its way from
    [a] to [b]. *)
Definition in_step (a : Conn) (q : list frame) (b : Conn) : Prop :=
  c_received b <= c_sent a <= c_sendMax a /\ c_sendMax a <= c_recvMax b /\
  (forall d, i_next (c_in d b) <= o_next (c_out d a) <= o_max (c_out d a) /\ o_max (c_out d a) <= i_max (c_in d b)) /\
  (forall id, (recv_state b id).1 <= (send_state a id).1 /\ send_limit a id <= recv_limit b id) /\
  (q = [] -> c_control a = [] -> forall id, recv_state b id = send_state a id).

Lemma coupled_in_step cfg isServer cfg' isServer' x :
  config_ok cfg -> coupled cfg isServer cfg' isServer' x -> in_step (left x) (ltr x) (right x).
Proof using Type.
  intros HA [C1 C2 C3 C4 [_ _ [A1 A2 A3 A4 A5 A6 A7] _ [F1 F2 F3 _ _ _ _ _ _] _]].
  pose proof (reach_live _ _ _ HA C1 C3) as [Hi Hf _ _ _]. pose proof (data_len_nonneg (ltr x)). pose proof (fl_sendLimit _ Hf).
  unfold in_step. split_and!; try lia.
  - intros d. pose proof (id_out _ Hi d). specialize (A3 d). specialize (A4 d). lia.
  - intros id. specialize (F3 id). specialize (A5 id). apply track_le in F3. split; [done|lia].
  - intros E1 E2 id. specialize (F3 id). rewrite E1, E2 in F3. simpl in F3. congruence.
Qed.

(** C4: the two views of a connection agree, in both directions. What one
    endpoint may send, on the connection, on each stream and in number of
    streams, is never more than what the other has granted; the other has never
    received more than was sent; and when nothing is on its way and nothing is
    queued, it has received exactly what was sent on every stream, and the end of
    those that have ended. *)
Theorem peers_in_step x :
  config_ok cfgA -> config_ok cfgB -> paired cfgA cfgB x ->
  in_step (left x) (ltr x) (right x) /\ in_step (right x) (rtl x) (left x).
Proof using VL.
  intros HA HB Hx. pose proof (paired_coupled x HA HB Hx) as C. split; [by apply (coupled_in_step cfgA false cfgB true)|].
  apply coupled_swap in C. by apply (coupled_in_step cfgB true cfgA false) in C.
Qed.
End interop.
