(* ===== verification/Credit.v ===== *)
(** Credit is never lost.

    [moves] says how the limits of a connection change: those that it is given
    follow the frames that it handles, and those that it gives change only when
    the frame that announces it is queued, or is marked as due. So the limits
    that one endpoint has after the frames on its way to it are those that the other
    has given. *)

From S2P Require Import Prelude Varint Params Frame WriteLock Config State Core Stream Conn System Facts Ids Table Flow Life Control Wake Transport Endpoint Wire Scenario LifeTheorems History FrameTheorems Grow Peers Ahead Compat Interop.

(** * Limits after frames *)

Definition data_step (m : Z) (f : frame) : Z :=
  match f with TransportParameters p => InitialMaxData p | MaxData k => Z.max m k | _ => m end.

Definition streams_step (d : dir) (m : Z) (f : frame) : Z :=
  match f with
  | TransportParameters p => match d with dirBidi => InitialMaxStreamsBidi p | dirUni => InitialMaxStreamsUni p end
  | MaxStreams uni k => if decide (d = if uni then dirUni else dirBidi) then Z.max m k else m
  | _ => m
  end.

(** The side matters for the limit of a stream: [local] is whether the stream
    is the receiver's of the frames. *)
Definition limit_step (local : bool) (id : Z) (m : Z) (f : frame) : Z :=
  match f with
  | TransportParameters p =>
      if bool_decide (streamDir id = dirUni) then if local then InitialMaxStreamDataUni p else 0
      else if local then InitialMaxStreamDataBidiRemote p else InitialMaxStreamDataBidiLocal p
  | MaxStreamData sid k => if sid =? id then Z.max m k else m
  | _ => m
  end.

Abbreviation data_after := (foldl data_step).
Abbreviation streams_after d := (foldl (streams_step d)).
Abbreviation limit_after local id := (foldl (limit_step local id)).

(** What may be sent on a stream, opened or not. *)
Definition allowed (c : Conn) (id : Z) : Z :=
  match by_id c id with Some s => s_sendMax s | None => peer_limit c id end.

Definition flags (c : Conn) := (c_maxDataPending c, (i_pending (c_inBidi c), i_pending (c_inUni c))).

(** [fs] are the frames that were handled. *)
Record moves (fs : list frame) (c c' : Conn) : Prop := {
  mv_side : c_isServer c' = c_isServer c;
  mv_sendMax : c_sendMax c' = data_after (c_sendMax c) fs;
  mv_out d : o_max (c_out d c') = streams_after d (o_max (c_out d c)) fs;
  mv_allowed id : (send_state c' id).2 = false -> allowed c' id = limit_after (initiatedLocally c id) id (allowed c id) fs;
  mv_ended id : (send_state c id).2 = true -> (send_state c' id).2 = true;
  mv_data : c_maxDataPending c' = false -> c_maxDataPending c = false /\ c_recvMax c' = c_recvMax c;
  mv_streams d : i_pending (c_in d c') = false -> i_pending (c_in d c) = false /\ i_max (c_in d c') = i_max (c_in d c);
  mv_new : exists new, c_control c' = c_control c ++ new /\
    forall local id, recv_limit c' id = limit_after local id (recv_limit c id) new;
}.

Lemma moves_trans fs1 fs2 c1 c2 c3 : moves fs1 c1 c2 -> moves fs2 c2 c3 -> moves (fs1 ++ fs2) c1 c3.
Proof.
  intros [A1 A2 A3 A4 A5 A6 A7 (new1 & N1 & N1')] [B1 B2 B3 B4 B5 B6 B7 (new2 & N2 & N2')]. split.
  - congruence.
  - by rewrite foldl_app, B2, A2.
  - intros d. by rewrite foldl_app, B3, A3.
  - intros id He. rewrite foldl_app, B4 by done. rewrite (initiated_fixed c1 c2 id A1), A4; [done|].
    destruct (send_state c2 id).2 eqn:E; [|done]. apply B5 in E. congruence.
  - auto.
  - intros [H1 H2]%B6. apply A6 in H1 as [H1 H3]. split; [done|congruence].
  - intros d [H1 H2]%B7. apply A7 in H1 as [H1 H3]. split; [done|congruence].
  - exists (new1 ++ new2). split; [by rewrite N2, N1, app_assoc|]. intros local id. by rewrite foldl_app, (N2' local id), (N1' local id).
Qed.

Lemma moves_nil_l fs c1 c2 c3 : moves [] c1 c2 -> moves fs c2 c3 -> moves fs c1 c3.
Proof. apply (moves_trans [] fs). Qed.

Lemma moves_nil_r fs c1 c2 c3 : moves fs c1 c2 -> moves [] c2 c3 -> moves fs c1 c3.
Proof. intros A B. rewrite <- (app_nil_r fs). by eapply moves_trans. Qed.

(** * Changes to the connection *)

(** The streams are the same, for what [moves] looks at. *)
Lemma moves_same fs new c c' :
  c_isServer c' = c_isServer c -> c_config c' = c_config c -> hview <$> c_heap c' = hview <$> c_heap c ->
  c_sendMax c' = data_after (c_sendMax c) fs -> (forall d, o_max (c_out d c') = streams_after d (o_max (c_out d c)) fs) ->
  (forall id, by_id c id <> None -> limit_after (initiatedLocally c id) id (allowed c id) fs = allowed c id) ->
  (forall id, by_id c id = None -> peer_limit c' id = limit_after (initiatedLocally c id) id (peer_limit c id) fs) ->
  (c_maxDataPending c' = false -> c_maxDataPending c = false /\ c_recvMax c' = c_recvMax c) ->
  (forall d, i_pending (c_in d c') = false -> i_pending (c_in d c) = false /\ i_max (c_in d c') = i_max (c_in d c)) ->
  c_control c' = c_control c ++ new -> (forall f, f ∈ new -> forall local id m, limit_step local id m f = m) ->
  moves fs c c'.
Proof.
  intros E1 E2 Hh A2 A3 A4 A4' A6 A7 En Hnew. assert (Hv := fun id => hview_by_id c c' id Hh). split; try done.
  - intros id _. specialize (A4 id). specialize (A4' id). specialize (Hv id). unfold allowed in *.
    destruct (by_id c' id) as [s'|], (by_id c id) as [s|]; simpl in Hv; try done; [|by apply A4'].
    rewrite A4 by done. unfold hview in Hv. congruence.
  - intros id. specialize (Hv id). unfold send_state. destruct (by_id c' id) as [s'|], (by_id c id) as [s|]; simpl in Hv; try done.
    unfold hview in Hv. simpl. congruence.
  - exists new. split; [done|]. intros local id.
    assert (Hf : forall m, limit_after local id m new = m).
    { clear -Hnew. induction new as [|f new IH]; intros m; [done|]. simpl. rewrite Hnew by left. apply IH. intros g Hg. apply Hnew. by right. }
    rewrite Hf. specialize (Hv id). unfold recv_limit. destruct (by_id c' id) as [s'|], (by_id c id) as [s|]; simpl in Hv; try done.
    + unfold hview in Hv. congruence.
    + by apply new_recvMax.
Qed.

Lemma moves_pv c c' : pv c' = pv c -> flags c' = flags c -> moves [] c c'.
Proof.
  intros E Ef. pose proof (f_equal (fun x => x.1.1.1.1.1) E) as E1. pose proof (f_equal (fun x => x.1.1.1.1.2) E) as E2.
  pose proof (f_equal (fun x => x.1.1.2) E) as E4. pose proof (f_equal (fun x => x.1.2) E) as E5. pose proof (f_equal snd E) as E6. clear E.
  simpl in *. injection E4 as E41 E42 E43 E44. injection Ef as F1 F2 F3. fixed_eqs E1.
  apply (moves_same [] []); try done; simpl.
  - by intros [].
  - intros id _. unfold peer_limit. by rewrite (new_stream_fixed c c').
  - rewrite F1. by split.
  - intros []; simpl; by rewrite ?F2, ?F3.
  - by rewrite app_nil_r.
  - by intros f ?%elem_of_nil.
Qed.

Lemma moves_refl c : moves [] c c.
Proof. by apply moves_pv. Qed.

(** * Changes to one stream *)

Section one_stream.
Context (c : Conn) (p : nat) (Hi : ids_inv c) (Hp : ptr c p).
Abbreviation s := (deref c p).

Lemma moves_stream fs new s' c' :
  c_heap c' = <[p := s']> (c_heap c) -> s_id s' = s_id s -> c_isServer c' = c_isServer c -> c_config c' = c_config c ->
  c_peer c' = c_peer c -> c_sendMax c' = data_after (c_sendMax c) fs ->
  (forall d, o_max (c_out d c') = streams_after d (o_max (c_out d c)) fs) ->
  (forall id, id <> s_id s -> forall l m, limit_after l id m fs = m) ->
  s_sendMax s' = limit_after (initiatedLocally c (s_id s)) (s_id s) (s_sendMax s) fs -> (ended s = true -> ended s' = true) ->
  (c_maxDataPending c' = false -> c_maxDataPending c = false /\ c_recvMax c' = c_recvMax c) ->
  (forall d, i_pending (c_in d c') = false -> i_pending (c_in d c) = false /\ i_max (c_in d c') = i_max (c_in d c)) ->
  c_control c' = c_control c ++ new -> (forall l, s_recvMax s' = limit_after l (s_id s) (s_recvMax s) new) ->
  (forall id, id <> s_id s -> forall l m, limit_after l id m new = m) -> moves fs c c'.
Proof using Hi Hp.
  intros Eh Eid E1 E2 E3 A2 A3 Hfs Hmax Hend A6 A7 En Hrecv Hnew.
  assert (Hby := by_id_insert c c' p s' Hi Hp Eh Eid). assert (Hs := by_id_ptr c p Hi Hp).
  assert (Hn : forall id, new_stream id c' = new_stream id c) by (intros id; by apply new_stream_fixed).
  split; try done.
  - intros id _. unfold allowed. rewrite Hby. destruct (Z.eqb_spec id (s_id s)) as [->|Hne]; [by rewrite Hs|].
    rewrite Hfs by done. destruct (by_id c id); [done|]. unfold peer_limit. by rewrite Hn.
  - intros id. unfold send_state. rewrite Hby. destruct (Z.eqb_spec id (s_id s)) as [->|Hne]; [by rewrite Hs|done].
  - exists new. split; [done|]. intros l id. unfold recv_limit. rewrite Hby, Hn.
    destruct (Z.eqb_spec id (s_id s)) as [->|Hne]; [by rewrite Hs|]. by rewrite Hnew.
Qed.
End one_stream.

Lemma moves_new id c c' s' :
  nodup_ids c' -> c_heap c' = c_heap c ++ [s'] -> hview s' = hview (new_stream id c) -> fixed c' = fixed c ->
  c_recvMax c' = c_recvMax c -> flags c' = flags c -> (forall d, i_max (c_in d c') = i_max (c_in d c)) ->
  c_control c' = c_control c -> moves [] c c'.
Proof.
  intros Hnd Eh Ev F A1 Ef A4 A5. destruct (by_id_snoc c c' s' Hnd Eh) as [Hnone Hby]. injection Ef as F1 F2 F3.
  assert (Hn : forall id, new_stream id c' = new_stream id c) by (intros i; fixed_eqs F; by apply new_stream_fixed).
  assert (N : s_id s' = id /\ ended s' = ended (new_stream id c) /\ s_sendMax s' = peer_limit c id /\ s_recvMax s' = s_recvMax (new_stream id c)).
  { pose proof (new_stream_view id c) as Hv. unfold iview in Hv. injection Hv as V1 _ _ _ _. unfold hview in Ev. unfold peer_limit.
    injection Ev as E1 E2 E3 E4 E5 E6 E7. by rewrite E1, E3, E6, E7, V1. }
  destruct N as (N1 & N2 & N3 & N4). rewrite N1 in *. fixed_eqs F. split; try done.
  - by intros [].
  - intros i _. unfold allowed. rewrite Hby. simpl. destruct (Z.eqb_spec i id) as [->|]; [by rewrite Hnone|].
    destruct (by_id c i); [done|]. unfold peer_limit. by rewrite Hn.
  - intros i. unfold send_state. rewrite Hby. destruct (Z.eqb_spec i id) as [->|]; [|done]. by rewrite Hnone.
  - rewrite F1. by split.
  - intros d. rewrite A4. destruct d; simpl in *; by rewrite ?F2, ?F3.
  - exists []. rewrite app_nil_r. split; [done|]. intros l i. unfold recv_limit. rewrite Hby, Hn. simpl.
    destruct (Z.eqb_spec i id) as [->|]; [by rewrite Hnone|done].
Qed.

(** ** Parts of the operations *)

Lemma moves_queue f c : (forall l id m, limit_step l id m f = m) -> moves [] c (queueLocked f c).
Proof.
  intros Hf. apply (moves_same [] [f]); try done.
  - intros g ->%list_elem_of_singleton. apply Hf.
Qed.

Lemma moves_complete p c : moves [] c (completeLocked p c).
Proof.
  rewrite completeLocked_eq. cbv zeta.
  assert (Hm : forall d, i_pending (complete_in d (deref c p) c) = false ->
    i_pending (c_in d c) = false /\ i_max (complete_in d (deref c p) c) = i_max (c_in d c)).
  { intros d. unfold complete_in. by destruct (_ && _ && _). }
  apply (moves_same [] []); [done|done| |done|done|done|done|done| |by rewrite app_nil_r|by intros f ?%elem_of_nil].
  - simpl. destruct (completing _); [|done]. by apply fmap_insert_same.
  - intros []; apply Hm.
Qed.

Lemma moves_consume n c : moves [] c (consumeLocked n c).
Proof.
  apply (moves_same [] []); [done..| |done|by rewrite app_nil_r|by intros f ?%elem_of_nil]. simpl. by destruct (_ <? _).
Qed.

(** * Operations *)

Lemma moves_readLocked p n c :
  ids_inv c -> ptr c p -> 0 <= n -> 0 <= s_readOffset (deref c p) -> 0 <= stream_window c ->
  s_recvMax (deref c p) <= s_readOffset (deref c p) + stream_window c ->
  s_readOffset (deref c p) + n + stream_window c < 2 ^ 62 -> moves [] c (readLocked p n c).
Proof.
  intros Hi Hp Hn H1 H2 H3 H4. pose proof (mv_data _ _ _ (moves_consume n c)) as Hd. rewrite readLocked_eq by done. cbv zeta.
  rewrite (u64_id (s_readOffset (deref c p) + n)) by (unfold is_u64; lia).
  rewrite (u64_id (s_readOffset (deref c p) + n + stream_window c)) by (unfold is_u64; lia).
  set (low := negb _ && _). set (m := if low then _ else _). set (s' := set_s_recvMax m _).
  apply (moves_stream c p Hi Hp [] (when low (MaxStreamData (s_id (deref c p)) m)) s'); try done.
  - intros l. subst s' m. destruct low; simpl; [|done]. rewrite Z.eqb_refl. lia.
  - intros id Hid l k. destruct low; simpl; [|done]. by rewrite (proj2 (Z.eqb_neq _ _)).
Qed.

Section ops.
Context {GA : GoAppend} (c : Conn).
Hypothesis (Hi : ids_inv c) (Hf : flow_inv c) (Hr : in_range c).

(** An operation that only registers what it waits for. *)
Ltac moves_wait := apply moves_pv; [unfold pv; simpl; f_equal; by apply fmap_insert_same|done].

Lemma moves_read p n : holds_recv c p -> moves [] c (tryRead p n c).2.
Proof using Hi Hf Hr.
  intros [[Hp Ha] Hc]. unfold tryRead. destruct (c_closeErr c); [apply moves_refl|].
  destruct (s_recvErr (deref c p)); [apply moves_refl|]. destruct (_ <? _)%nat; [|destruct (s_finRecv _); [apply moves_refl|]; moves_wait].
  set (data := take n (unread (deref c p))). cbn [snd]. set (c1 := upd p (took (length data)) c).
  assert (E1 : pv c1 = pv c) by (subst c1; apply pv_upd, hview_took).
  pose proof (fl_stream _ Hf p Hp) as Hs. pose proof (in_range_ranges _ Hi Hr) as [R1 R2 R3].
  assert (Hlen : 0 <= zlen data <= zlen (unread (deref c p))) by (subst data; rewrite length_take; lia).
  pose proof (stream_received c Hf p Hp). pose proof (so_have _ _ Hs). pose proof (so_read _ _ Hs). pose proof (so_window _ _ Hs).
  destruct (took_fields (length data) (deref c p)) as (_ & F2 & F3 & _).
  assert (Ed : deref c1 p = took (length data) (deref c p)) by (by apply deref_upd).
  eapply moves_nil_l; [by apply moves_pv|]. eapply moves_nil_l; [|apply moves_complete].
  apply moves_readLocked; rewrite ?Ed, ?F2, ?F3; try done; try lia; try (change (stream_window c1) with (stream_window c); lia).
  - eapply ids_same; [|exact Hi]. subst c1. apply iv_upd. unfold took. by destruct (_ =? _)%nat.
  - subst c1. by apply ptr_upd.
Qed.

Lemma moves_peek p n : moves [] c (tryPeek p n c).2.
Proof using Type.
  unfold tryPeek. destruct (c_closeErr c); [apply moves_refl|]. destruct (s_recvErr _); [apply moves_refl|].
  destruct (_ <=? _)%nat; [apply moves_refl|]. destruct (s_finRecv _); [apply moves_refl|]. moves_wait.
Qed.

Lemma moves_settle p c1 c2 : moves [] c1 c2 -> moves [] c1 (completeLocked p (broadcast_read p c2)).
Proof using Type.
  intros H. eapply moves_nil_l; [exact H|]. eapply moves_nil_l; [apply moves_pv; [apply pv_broadcast_read|done]|apply moves_complete].
Qed.

Lemma moves_cancelRead p code : moves [] c (cancelRead p code c).
Proof using Type.
  unfold cancelRead. destruct (_ || _); [apply moves_refl|]. set (c1 := upd p _ c). set (c2 := consumeLocked _ c1). set (c3 := upd p clear_rbuf c2).
  assert (E1 : pv c1 = pv c) by (subst c1; by apply pv_upd). assert (E3 : pv c3 = pv c2) by (subst c3; by apply pv_upd).
  assert (M3 : moves [] c c3).
  { apply (moves_nil_l _ c c1); [by apply moves_pv|]. apply (moves_nil_l _ c1 c2); [apply moves_consume|by apply moves_pv]. }
  forget c3. apply moves_settle. destruct (negb _); [|done]. eapply moves_nil_l; [exact M3|by apply moves_queue].
Qed.

Lemma moves_trySend now p : moves [] c (trySend now p c).2.
Proof using Type.
  unfold trySend. destruct (sendErrLocked p c); [apply moves_refl|]. destruct (_ && _); [apply moves_refl|].
  destruct (_ <? _); [apply moves_refl|]. moves_wait.
Qed.

Lemma moves_resetSend p code r : ptr c p -> moves [] c (resetSendLocked p code r c).
Proof using Hi.
  intros Hp. unfold resetSendLocked. destruct (sendDone (deref c p)) eqn:Ed; [apply moves_refl|].
  set (e := ErrStream _ _ _). set (c1 := stream_cancel p _ _).
  assert (M : moves [] c c1).
  { assert (H1 : exists cause, c_heap c1 = <[p := set_s_cause cause (set_s_sendErr (Some e) (deref c p))]> (c_heap c)).
    { subst c1. rewrite stream_cancel_eq. cbv zeta. simpl. rewrite deref_upd by done. eexists. by rewrite list_insert_insert_eq. }
    destruct H1 as [cause Eh]. apply (moves_stream c p Hi Hp [] [] _ c1 Eh); subst c1; rewrite ?stream_cancel_eq; try done.
    - intros _. unfold ended. simpl. by rewrite orb_true_r.
    - simpl. by rewrite app_nil_r. }
  forget c1. eapply moves_nil_l; [exact M|]. set (c2 := queueLocked _ c1).
  apply (moves_nil_l [] c1 c2); [by apply moves_queue|]. eapply moves_nil_l; [apply moves_pv; [apply pv_broadcast_write|done]|apply moves_complete].
Qed.
End ops.

(** ** Opening streams *)

Lemma moves_open d c : ids_inv c -> moves [] c (tryOpen d c).2.
Proof.
  intros H. pose proof (ids_open d c H) as H'. unfold tryOpen in *.
  destruct (c_closeErr c); [apply moves_refl|]. destruct (_ <=? _); [by apply moves_pv; destruct d|].
  cbn [newStreamLocked snd] in *. set (id := streamID c _ d true) in *. set (c1 := set_c_streams _ _) in *.
  set (c2 := set_c_out d _ _) in *.
  assert (Eh : c_heap c2 = c_heap c ++ [set_s_accepted true (new_stream id c)]).
  { subst c2 c1. unfold upd, deref. destruct d; simpl;
      rewrite list_lookup_total_middle by done; rewrite <- (Nat.add_0_r (length (c_heap c))) at 1; by rewrite insert_app_r. }
  apply (moves_new id c c2 _ (id_nodup _ H') Eh); subst c2 c1; by destruct d.
Qed.

Lemma moves_accept d c : moves [] c (tryAccept d c).2.
Proof.
  unfold tryAccept. destruct (c_closeErr c); [apply moves_refl|]. destruct (i_queue (c_in d c)) as [|p ps]; [by apply moves_pv; destruct d|].
  cbn [snd]. set (c1 := set_c_in d _ c). eapply moves_nil_l; [|apply moves_complete]. apply moves_pv.
  - rewrite pv_upd by done. subst c1. by destruct d.
  - subst c1. by destruct d.
Qed.

Lemma moves_streamLocked id recv c :
  ids_inv c -> c_closeErr c = None -> c_ready c = true -> small_limits c -> moves [] c (streamLocked id recv c).2.
Proof.
  intros H Hc Hr Hs. unfold streamLocked. destruct (_ && _); [apply moves_refl|].
  destruct (initiatedLocally c id); [destruct (_ <=? _); apply moves_refl|].
  destruct (Z.leb_spec (i_max (c_in (streamDir id) c)) (Z.shiftr id 2)) as [|Hlt]; [apply moves_refl|]. cbn [snd].
  apply (open_loop_ind (fun c' => moves [] c c' /\ ids_inv c' /\ keeps c c')); [|split_and!; [apply moves_refl|done|done]].
  intros c' (A & H' & K) Hn. assert (K' := K). destruct K' as (K1 & K2 & K3 & K4 & K5 & K6).
  assert (Hs' : small_limits c') by (by eapply keeps_limits).
  assert (Hn' : i_next (c_in (streamDir id) c') < i_max (c_in (streamDir id) c')) by (rewrite K5; lia).
  assert (Hi1 : ids_inv (open_incoming (streamDir id) c')) by (apply ids_open_incoming; try done; congruence).
  destruct (open_incoming_fields (streamDir id) c') as (E1 & E2 & E3 & E4 & E5 & _ & E7 & E8). split_and!; [|done|].
  - eapply moves_nil_l; [exact A|]. apply (moves_new (streamID c' (i_next (c_in (streamDir id) c')) (streamDir id) false) _ _ _ (id_nodup _ Hi1) E5);
      try done; try (by destruct (streamDir id)). intros d'. rewrite E8. case_bool_decide; by subst.
  - unfold keeps. split_and!; try congruence. intros d'. rewrite E8, <- K5. case_bool_decide; by subst.
Qed.

(** ** Every operation of the endpoint itself *)

Lemma moves_silent {GA : GoAppend} o c :
  ids_inv c -> flow_inv c -> in_range c -> silent o = true -> valid o c -> moves [] c (exec o c).
Proof.
  intros Hi Hf Hr Ho Hv.
  destruct o as [now f|d|d|q n|q n|q code|q t|now q|q n|q|q code|q t|q u i| |now|now|e|now n|now n|]; try done; simpl.
  - by apply moves_open.
  - apply moves_accept.
  - by apply moves_read.
  - apply moves_peek.
  - apply moves_cancelRead.
  - apply moves_pv; [|done]. unfold setReadDeadline. by rewrite pv_broadcast_read, pv_upd.
  - apply moves_trySend.
  - unfold cancelWrite. destruct (bool_decide _); [apply moves_refl|]. apply moves_resetSend; [done|apply Hv].
  - apply moves_pv; [|done]. unfold setWriteDeadline. by rewrite pv_broadcast_write, pv_upd.
  - apply moves_pv; [|done]. by apply pv_upd.
  - unfold tryReceiveDatagram. by destruct (c_datagrams c); apply moves_pv.
  - unfold requestPing. by destruct (_ && _); apply moves_pv.
  - by apply moves_pv.
  - by apply moves_pv.
  - by apply moves_pv.
Qed.

Lemma moves_reserve p n off k c c' :
  ids_inv c -> flow_inv c -> ptr c p -> 0 <= n -> reserve p n c = (inl (off, k), c') -> moves [] c c'.
Proof.
  intros Hi Hf Hp Hn E. unfold reserve in E. destruct (sendErrLocked p c); [done|]. injection E as _ _ <-.
  eapply (moves_stream c p Hi Hp [] []); try done. simpl. by rewrite app_nil_r.
Qed.

Lemma moves_finish p off c c' : ids_inv c -> ptr c p -> finish p c = (inl (Some off), c') -> moves [] c c'.
Proof.
  intros Hi Hp E. unfold finish in E. destruct (c_closeErr c); [done|]. destruct (_ || _); [done|].
  set (c1 := stream_cancel p None _) in E. injection E as _ <-.
  assert (M : moves [] c c1).
  { assert (H1 : exists cause, c_heap c1 = <[p := set_s_cause cause (set_s_finSent true (deref c p))]> (c_heap c)).
    { subst c1. rewrite stream_cancel_eq. cbv zeta. simpl. rewrite deref_upd by done. eexists. by rewrite list_insert_insert_eq. }
    destruct H1 as [cause Eh]. apply (moves_stream c p Hi Hp [] [] _ c1 Eh); subst c1; rewrite ?stream_cancel_eq; try done.
    simpl. by rewrite app_nil_r. }
  forget c1. eapply moves_nil_l; [exact M|]. eapply moves_nil_l; [apply moves_pv; [apply pv_broadcast_write|done]|apply moves_complete].
Qed.

(** * Frames *)

(** Frames that give no credit. *)
Definition inert (f : frame) : bool :=
  match f with TransportParameters _ | MaxData _ | MaxStreams _ _ | MaxStreamData _ _ => false | _ => true end.

Lemma moves_inert f c c' : inert f = true -> moves [] c c' -> moves [f] c c'.
Proof. intros Hf [A1 A2 A3 A4 A5 A6 A7 A8]. split; try done; by destruct f. Qed.

Section handlers.
Context {GA : GoAppend} (c : Conn).
Hypothesis (X : live c) (Hr : in_range c) (Hrd : c_ready c = true).

Lemma moves_with_stream id recv k :
  (forall p c1, ids_inv c1 -> ptr c1 p -> moves [] c1 (k p c1).2) -> moves [] c (with_stream id recv k c).2.
Proof using X Hr Hrd.
  intros Hk. unfold with_stream. pose proof X as [Hi _ _ _ Ho]. pose proof (in_range_limits _ Hr) as Hs.
  pose proof (moves_streamLocked id recv c Hi Ho Hrd Hs) as M. destruct (streamLocked id recv c) as [r c1] eqn:E.
  destruct (streamLocked_ok id recv c r c1 E Hi Ho Hrd Hs) as (Hi1 & _ & Hfd). simpl in M.
  destruct r as [[p|]|e]; [|done..]. destruct (Hfd p eq_refl) as [Hp _ _ _]. eapply moves_nil_l; [exact M|]. by apply Hk.
Qed.

(** Data arrives on a stream. *)
Lemma moves_arrives n p g c1 c2 :
  ids_inv c1 -> ptr c1 p -> receivedLocked n c1 = inl c2 ->
  (forall s, s_id (g s) = s_id s /\ s_sendMax (g s) = s_sendMax s /\ s_recvMax (g s) = s_recvMax s /\ ended (g s) = ended s) ->
  moves [] c1 (upd p g c2).
Proof using Type.
  unfold receivedLocked. intros Hi Hp. destruct (_ <? _); [done|]. intros [= <-] Hg. destruct (Hg (deref c1 p)) as (G1 & G2 & G3 & G4).
  apply (moves_stream c1 p Hi Hp [] [] (g (deref c1 p))); try done; simpl; [congruence|by rewrite app_nil_r].
Qed.

Lemma moves_stream_frame sid off d fin p c1 :
  ids_inv c1 -> ptr c1 p -> moves [] c1 (stream_frame sid off d fin p c1).2.
Proof using Type.
  intros Hi Hp. unfold stream_frame. destruct (negb _); [apply moves_refl|]. destruct (_ || _); [destruct (_ || _); apply moves_refl|].
  destruct (_ <? _); [apply moves_refl|]. destruct (receivedLocked _ c1) as [c2|] eqn:E; [|apply moves_refl]. cbn [snd].
  apply moves_settle. set (c3 := upd p _ c2). assert (M : moves [] c1 c3) by (by apply (moves_arrives (zlen d))).
  eapply moves_nil_l; [exact M|]. destruct (s_readCancelled _); [apply moves_consume|].
  apply moves_pv; [|done]. apply pv_upd. unfold hview, ended, bufferLocked, append_rbuf. destruct (_ && _); simpl; by destruct (_ <=? _)%nat.
Qed.

Lemma moves_reset_frame sid code n p c1 : ids_inv c1 -> ptr c1 p -> moves [] c1 (reset_frame sid code n p c1).2.
Proof using Type.
  intros Hi Hp. unfold reset_frame. destruct (_ || _); [apply moves_refl|]. destruct (s_recvReset _); [apply moves_refl|].
  destruct (_ <? _); [apply moves_refl|]. destruct (receivedLocked _ c1) as [c2|] eqn:E; [|apply moves_refl]. cbn [snd]. apply moves_settle.
  set (k := u64 _). change (upd p (after_reset code n) (consumeLocked k c2)) with (consumeLocked k (upd p (after_reset code n) c2)).
  eapply moves_nil_l; [|apply moves_consume]. eapply moves_arrives; [done..|exact E|].
  intros s. unfold after_reset, ended. simpl. destruct (s_recvErr s); by split_and!.
Qed.

(** Every frame but one that raises the limit of a stream. *)
Lemma moves_handle now f :
  match f with MaxStreamData _ _ | TransportParameters _ => False | _ => True end ->
  moves [f] c (handleFrameLocked now f c).2.
Proof using X Hr Hrd.
  intros Hf. unfold handleFrameLocked. rewrite Hrd. cbn [negb].
  destruct f as [sid code n|sid code|sid off d fin|m| |uni m| |app code ft reason|d|resp seq| ]; try done.
  - apply moves_inert; [done|]. apply moves_with_stream. intros. by apply moves_reset_frame.
  - apply moves_inert; [done|]. apply moves_with_stream. intros. by apply moves_resetSend.
  - apply moves_inert; [done|]. apply moves_with_stream. intros. by apply moves_stream_frame.
  - cbn [snd]. unfold handleMaxData. apply (moves_same [MaxData m] []); destruct (Z.ltb_spec (c_sendMax c) m); try done;
      try (by rewrite app_nil_r); try (by intros f ?%elem_of_nil); simpl; lia.
  - cbn [snd]. unfold handleMaxStreams. set (dd := if uni then dirUni else dirBidi).
    apply (moves_same [MaxStreams uni m] []); destruct (Z.ltb_spec (o_max (c_out dd c)) m); try done;
      try (by rewrite app_nil_r; subst dd; destruct uni); try (by intros f ?%elem_of_nil); try (by subst dd; destruct uni).
    + intros d. subst dd. simpl. destruct uni, d; simpl in *; lia.
    + intros d. subst dd. simpl. destruct uni, d; simpl in *; lia.
  - apply moves_inert; [done|]. apply moves_refl.
  - apply moves_inert; [done|]. destruct app; apply moves_refl.
  - apply moves_inert; [done|]. unfold handleDatagramLocked. repeat destruct (_ <? _); try apply moves_refl. by apply moves_pv.
  - apply moves_inert; [done|]. unfold handlePingLocked. destruct resp.
    + destruct (_ <=? _); [apply moves_refl|]. destruct (_ =? _); [|apply moves_refl]. by apply moves_pv.
    + destruct (_ && _); [apply moves_refl|]. apply (moves_same [] []); try done; [by rewrite app_nil_r|by intros f ?%elem_of_nil].
Qed.
End handlers.

(** * The pair *)

(** [x] sends, [y] gives the credit, and the frames [r] are on their way from
    [y] to [x]. *)
Record credited (x : Conn) (r : list frame) (y : Conn) : Prop := {
  cd_data : c_maxDataPending y = false -> data_after (c_sendMax x) r = c_recvMax y;
  cd_streams d : i_pending (c_in d y) = false -> streams_after d (o_max (c_out d x)) r = i_max (c_in d y);
  cd_limit id : (send_state x id).2 = false ->
    limit_after (initiatedLocally x id) id (allowed x id) (r ++ c_control y) = recv_limit y id;
}.

(** The sender moves. *)
Lemma credited_sender fs x x' r y : moves fs x x' -> credited x (fs ++ r) y -> credited x' r y.
Proof.
  intros [A1 A2 A3 A4 A5 _ _ _] [C1 C2 C3]. split.
  - intros H%C1. by rewrite A2, <- foldl_app.
  - intros d H%C2. by rewrite A3, <- foldl_app.
  - intros id He. rewrite (initiated_fixed x x' id A1), A4 by done. rewrite <- foldl_app, app_assoc. apply C3.
    destruct (send_state x id).2 eqn:E; [|done]. apply A5 in E. congruence.
Qed.

(** The one that gives the credit moves. *)
Lemma credited_giver fs x r y y' : moves fs y y' -> credited x r y -> credited x r y'.
Proof.
  intros [_ _ _ _ _ A6 A7 (new & En & Hn)] [C1 C2 C3]. split.
  - intros [H ->]%A6. by apply C1.
  - intros d [H ->]%A7. by apply C2.
  - intros id He. rewrite En, app_assoc, foldl_app, C3 by done. by rewrite (Hn (initiatedLocally x id) id).
Qed.

(** Frames without credit. *)
Lemma credited_inert x r y f : inert f = true -> credited x r y -> credited x (r ++ [f]) y.
Proof.
  intros Hf [C1 C2 C3]. split.
  - intros H%C1. rewrite foldl_app, H. by destruct f.
  - intros d H%C2. rewrite foldl_app, H. by destruct f.
  - intros id He. rewrite <- C3 by done. rewrite <- app_assoc, !foldl_app. by destruct f.
Qed.

(** ** Announcing the credit *)

Lemma data_after_le y r m :
  conn_window y <= c_recvMax y -> Forall (backed y) r -> m <= c_recvMax y -> data_after m r <= c_recvMax y.
Proof.
  intros Hw Hr. revert m. induction Hr as [|f r Hf _ IH]; intros m Hm; [done|]. simpl. apply IH.
  destruct f; simpl in *; try lia. subst params. destruct (declared_fields y) as (-> & _). done.
Qed.

Lemma streams_after_le y d r m :
  ids_inv y -> Forall (backed y) r -> m <= i_max (c_in d y) -> streams_after d m r <= i_max (c_in d y).
Proof.
  intros Hi Hr. revert m. induction Hr as [|f r Hf _ IH]; intros m Hm; [done|]. simpl. apply IH.
  destruct f; simpl in *; try lia.
  - destruct (decide _) as [->|]; lia.
  - subst params. destruct (declared_fields y) as (_ & D2 & D3 & _). rewrite (id_max _ Hi d). pose proof (finished_nonneg y d).
    pose proof (ok_streams _ (id_cfg _ Hi)). pose proof (ok_uni _ (id_cfg _ Hi)).
    destruct d; simpl; rewrite ?D2, ?D3, u64_id by (unfold is_u64; lia); lia.
Qed.

Lemma credited_flush now x q y r :
  live y -> linked x q y r -> credited x r y -> credited x (r ++ (takeControl now y).1) (takeControl now y).2.
Proof.
  intros [Hi _ _ Hc Ho] [_ [G1 _ _] [_ A2 A3 _ _ _ _] _ _ F] [C1 C2 C3]. pose proof (proj1 (proj1 (Forall_app _ _ _) (ft_backed _ _ _ F))) as Fb.
  pose proof (data_after_le y r _ G1 Fb A2) as Hd. pose proof (fun d => streams_after_le y d r _ Hi Fb (A3 d)) as Hs.
  assert (Hq : Forall queued (c_control y)) by apply Hc. rewrite takeControl_eq by done. cbn [fst snd].
  assert (Hskip : forall fs, Forall queued fs -> (forall m, data_after m fs = m) /\ (forall d m, streams_after d m fs = m)).
  { induction 1 as [|f fs Hf _ [IH1 IH2]]; [done|]. split; intros; simpl; destruct f; simpl in *; try done; auto. }
  destruct (Hskip _ Hq) as [Q1 Q2]. split.
  - intros _. rewrite !foldl_app, Q1. simpl. unfold when.
    destruct (c_maxDataPending y) eqn:E; [|rewrite C1 by done];
      destruct (i_pending (c_inBidi y)), (i_pending (c_inUni y)), (c_pongPending y), (c_pingPending y); simpl; lia.
  - intros d _. specialize (Hs d). specialize (C2 d). rewrite !foldl_app, Q2. unfold when. destruct d; simpl in *.
    + destruct (i_pending (c_inBidi y)) eqn:E; [|rewrite C2 by done];
        destruct (c_maxDataPending y), (i_pending (c_inUni y)), (c_pongPending y), (c_pingPending y); simpl; lia.
    + destruct (i_pending (c_inUni y)) eqn:E; [|rewrite C2 by done];
        destruct (c_maxDataPending y), (i_pending (c_inBidi y)), (c_pongPending y), (c_pingPending y); simpl; lia.
  - intros id He. specialize (C3 id He). simpl. rewrite app_nil_r, app_assoc, foldl_app, C3. unfold when.
    by destruct (c_maxDataPending y), (i_pending (c_inBidi y)), (i_pending (c_inUni y)), (c_pongPending y), (c_pingPending y).
Qed.

(** ** Handling the next frame *)

Section handled.
Context {GA : GoAppend} (x y : Conn) (q r : list frame) (f : frame) (now : Z) (x' : Conn).
Hypothesis (X : live x) (Y : live y) (Hr : in_range x) (L : linked x q y (f :: r)).
Hypothesis (E : handleFrameLocked now f x = (None, x')).

Lemma moves_params p : c_ready x = false -> moves [TransportParameters p] x (handleParametersLocked p x).
Proof using X.
  intros Hrd. destruct (id_ready _ (li_ids _ X) Hrd) as [Hnil _]. rewrite handleParametersLocked_eq. cbv zeta. set (x1 := broadcast_out dirUni _).
  apply (moves_same _ []); try done.
  - by intros [].
  - intros id Hid. exfalso. apply Hid. unfold by_id. by rewrite Hnil.
  - intros id _. unfold peer_limit, new_stream. rewrite (initiated_fixed x x1 id) by done. cbn [foldl limit_step].
    by destruct (bool_decide _), (initiatedLocally x id).
  - simpl. by rewrite app_nil_r.
  - by intros g ?%elem_of_nil.
Qed.

(** The limit of one stream. *)
Lemma moves_raise sid m p x1 :
  live x1 -> found sid false x1 p ->
  moves [MaxStreamData sid m] x1 (if s_sendMax (deref x1 p) <? m then broadcast_write p (upd p (set_s_sendMax m) x1) else x1).
Proof using Type.
  intros [Hi _ _ _ _] [Hp Hid _ _].
  assert (Hother : forall id, id <> s_id (deref x1 p) -> forall l k, limit_after l id k [MaxStreamData sid m] = k).
  { intros id Hne l k. simpl. rewrite (proj2 (Z.eqb_neq sid id)) by congruence. done. }
  destruct (Z.ltb_spec (s_sendMax (deref x1 p)) m) as [Hlt|Hge].
  - eapply moves_nil_r; [|apply moves_pv; [apply pv_broadcast_write|done]].
    apply (moves_stream x1 p Hi Hp _ [] (set_s_sendMax m (deref x1 p))); try done; simpl.
    + rewrite Hid, Z.eqb_refl. lia.
    + by rewrite app_nil_r.
  - apply (moves_stream x1 p Hi Hp _ [] (deref x1 p)); try done; simpl.
    + unfold deref. by rewrite insert_same.
    + rewrite Hid, Z.eqb_refl. lia.
    + by rewrite app_nil_r.
Qed.

(** A stream that is done sends no more. *)
Lemma done_ended x1 id s : live x1 -> by_id x1 id = Some s -> can_send x1 id = true -> s_done s = true -> (send_state x1 id).2 = true.
Proof using Type.
  intros X1 Hs Hc Hd. unfold send_state. rewrite Hs. simpl. apply by_id_Some in Hs as (p & Hp & <- & Hid); [|apply X1].
  pose proof (sl_done _ (lf_stream _ (li_life _ X1) p Hp)) as H. pose proof (sid_send _ _ (id_stream _ (li_ids _ X1) p Hp)) as Hs.
  rewrite Hid, Hc in Hs. rewrite Hd in H. symmetry in H. apply andb_true_iff in H as [_ H]. unfold sendDone in H. by rewrite Hs in H.
Qed.

Lemma moves_maxStreamData sid m : f = MaxStreamData sid m -> c_ready x = true -> moves [f] x x'.
Proof using X Y Hr L E.
  intros Ef Hrd. pose proof (head_backed _ _ _ _ (lk_r _ _ _ _ L)) as Hb. rewrite Ef in Hb, E. destruct Hb as (B1 & B2 & B3).
  destruct (streamLocked_finds x y q (f :: r) sid false X Y Hr Hrd L B1 B2) as (sp & x1 & El & [X1 Hr1 Hrd1 Hfd Hgone] & L1).
  pose proof (moves_streamLocked sid false x (li_ids _ X) (li_open _ X) Hrd (in_range_limits _ Hr)) as M. rewrite El in M. simpl in M.
  simpl in E. rewrite Hrd in E. simpl in E. unfold handleMaxStreamData, with_stream in E. rewrite El in E.
  rewrite Ef. eapply moves_nil_l; [exact M|]. destruct sp as [p|].
  - pose proof (moves_raise sid m p x1 X1 (Hfd p eq_refl)) as Mr. destruct (_ <? _); injection E as <-; exact Mr.
  - injection E as <-. destruct (Hgone eq_refl) as (s & Hs & Hd).
    assert (He : (send_state x1 sid).2 = true).
    { apply (done_ended x1 sid s); try done. by destruct (other_can y x1 (ag_side _ _ (lk_yx _ _ _ _ L1)) sid) as [_ ->]. }
    destruct (moves_refl x1) as [A1 A2 A3 A4 A5 A6 A7 A8]. split; try done.
    intros id Hid. simpl. destruct (Z.eqb_spec sid id) as [->|]; [congruence|done].
Qed.

Lemma moves_next : moves [f] x x'.
Proof using X Y Hr L E.
  destruct (c_ready x) eqn:Hrd.
  - pose proof (ft_params _ _ _ (lk_r _ _ _ _ L)) as Hnp. rewrite Hrd in Hnp. apply list.Forall_cons in Hnp as [Hnp _].
    assert (D : (exists sid m, f = MaxStreamData sid m) \/
      match f with MaxStreamData _ _ | TransportParameters _ => False | _ => True end) by (clear -Hnp; destruct f; eauto).
    destruct D as [(sid & m & Ef)|D]; [by apply (moves_maxStreamData sid m)|].
    pose proof (moves_handle x X Hr Hrd now f D) as M. by rewrite E in M.
  - destruct (handles_params x q y f r X Y Hrd L) as [Ef _]. rewrite Ef in E |- *. simpl in E. rewrite Hrd in E. injection E as <-.
    by apply moves_params.
Qed.
End handled.

(** ** The invariant *)

Definition credits (x : pair) : Prop := credited (left x) (rtl x) (right x) /\ credited (right x) (ltr x) (left x).

Lemma credits_swap x : credits (swap_pair x) <-> credits x.
Proof. unfold credits. simpl. tauto. Qed.

Section acts.
Context {V : QuicVarint} {VL : QuicVarintLaws V} {GA : GoAppend}.

(** Sending the control queue gives the sender nothing. *)
Lemma credited_flush_sender now x r y : c_closeErr x = None -> credited x r y -> credited (takeControl now x).2 r y.
Proof using Type. intros Hc [C1 C2 C3]. rewrite takeControl_eq by done. split; [exact C1|exact C2|exact C3]. Qed.

Lemma acts_credited a fs a' q b r :
  live a -> live b -> in_range a -> linked a q b r -> acts a fs a' ->
  credited a r b -> credited b q a -> credited a' r b /\ credited b (q ++ fs) a'.
Proof using Type.
  intros X Y Hr L [o Ho Hv|p n off k d c1 Hh Hn E Hd|p off c1 Hh E|now|d n Hd En Hn] C1 C2.
  - pose proof (moves_silent o a (li_ids _ X) (li_flow _ X) Hr Ho Hv) as M. rewrite app_nil_r.
    split; [by apply (credited_sender [] a)|by apply (credited_giver [] b q a)].
  - assert (M : moves [] a c1) by (eapply (moves_reserve p n); try apply X; try apply Hh; try exact E; lia).
    split; [by apply (credited_sender [] a)|]. apply (credited_giver [] b _ a); [exact M|].
    destruct (k =? 0); [by rewrite app_nil_r|by apply credited_inert].
  - assert (M : moves [] a c1) by (eapply (moves_finish p); try apply X; try apply Hh; exact E).
    split; [by apply (credited_sender [] a)|]. apply (credited_giver [] b _ a); [exact M|by apply credited_inert].
  - split; [by apply credited_flush_sender; [apply X|]|]. by apply (credited_flush now b r a q X (linked_swap _ _ _ _ L)).
  - split; [done|]. by apply credited_inert.
Qed.

Context (cfgA : Config) (sideA : bool) (cfgB : Config) (sideB : bool).
Hypothesis (HA : config_ok cfgA) (HB : config_ok cfgB).

Lemma credits_left x y : coupled cfgA sideA cfgB sideB x -> left_step x y -> credits x -> credits y.
Proof using HA HB.
  intros [C1 C2 C3 C4 C5] S [D1 D2]. pose proof (reach_live _ _ _ HA C1 C3) as X. pose proof (reach_live _ _ _ HB C2 C4) as Y.
  destruct S as [a q b r fs a' Hr Ha|now a q b f r a' Hr E]; unfold credits; simpl in *.
  - by apply (acts_credited a fs a' q b r).
  - pose proof (moves_next a b q r f now a' X Y Hr C5 E) as M. split; [by apply (credited_sender [f] a)|by apply (credited_giver [f] b q a)].
Qed.
End acts.

Section paired.
Context {V : QuicVarint} {VL : QuicVarintLaws V} {GA : GoAppend} (cfgA cfgB : Config).

Lemma new_credited cfg1 cfg2 side now1 now2 :
  config_ok cfg2 ->
  let y := newConn cfg2 (negb side) now2 in credited (newConn cfg1 side now1) [TransportParameters (declared y)] y.
Proof using Type.
  intros H2 y. destruct (declared_fields y) as (D1 & D2 & D3 & D4 & D5 & D6 & D7). split.
  - intros _. simpl. by rewrite D1.
  - intros [] _; simpl; by rewrite ?D2, ?D3.
  - intros id _. simpl. unfold recv_limit, new_stream. simpl. rewrite D5, D6, D7.
    rewrite (other_initiated (newConn cfg1 side now1) y) by done.
    by destruct (bool_decide _), (initiatedLocally _ id).
Qed.

Lemma paired_credits x : config_ok cfgA -> config_ok cfgB -> paired cfgA cfgB x -> credits x.
Proof using VL.
  intros HA HB. induction 1 as [nowA nowB a b|x y Hx IH [S|S]].
  - split; [by apply (new_credited cfgA cfgB false)|by apply (new_credited cfgB cfgA true)].
  - by apply (credits_left cfgA false cfgB true HA HB x y (paired_coupled cfgA cfgB x HA HB Hx) S).
  - apply credits_swap in IH. apply credits_swap.
    by apply (credits_left cfgB true cfgA false HB HA _ _ (coupled_swap _ _ _ _ _ (paired_coupled cfgA cfgB x HA HB Hx)) S).
Qed.
End paired.
