(* ===== verification/Stop.v ===== *)
(** A reader that cancels stops its writer.

    A stream whose reading was cancelled keeps no window for its sender. It does
    not need to: [cancelRead] queues a STOP_SENDING frame, and the peer that
    handles it ends its side of the stream. Here is the invariant that the frame is
    not lost: until the sender has ended, it is queued or on its way. *)

From S2P Require Import Prelude Varint Params Frame WriteLock Config State Core Stream Conn System Facts Ids Table Flow Life Control Wake History Grow Sender Peers Ahead Compat Interop Credit.

(** The application reads no more, and the peer has not ended the stream. *)
Definition halted (s : stream) : bool := s_readCancelled s && negb (shut s).

Definition halts (c : Conn) (id : Z) : bool := match by_id c id with Some s => halted s | None => false end.

(** No stream but [ex] is newly cancelled. *)
Definition unhalted (ex : option Z) (s s' : stream) : Prop :=
  s_id s' = s_id s /\ (Some (s_id s) <> ex -> halted s' = true -> halted s = true).

Definition not_halted (ex : option Z) (s : stream) : Prop := Some (s_id s) <> ex -> halted s = false.

Section unhalted.
Context (ex : option Z).

#[global] Instance unhalted_growth : Growth (unhalted ex) (not_halted ex).
Proof.
  unfold unhalted, not_halted. split; try done.
  - split; [by intros s|]. intros s1 s2 s3 [A1 A2] [B1 B2]. split; [congruence|]. rewrite A1 in B2. auto.
  - intros s s' Hf [E H] Hx. rewrite E in Hx. specialize (Hf Hx). destruct (halted s'); [|done]. rewrite H in Hf; done.
  - intros id c _. unfold new_stream, halted. by repeat case_match.
  - unfold core, handle, rv, halted, shut. intros s s' E. injection E as E1 E2 E3 E4 E5 E6 E7 E8 E9 E10 E11.
    split; [done|]. by rewrite E9, E10, E11.
Qed.

#[global] Instance unhalted_receives : SendGrowth (unhalted ex) (not_halted ex).
Proof.
  split; [apply _|]. intros s s' E _ Hc Hs. split; [unfold handle in E; congruence|]. intros _. unfold halted. rewrite Hc.
  destruct (s_readCancelled s); [|done]. destruct (shut s); [by rewrite Hs|done].
Qed.
End unhalted.

(** [c'] has no cancelled stream that [c] has not, but [ex]. *)
Lemma grown_halts ex c c' id :
  ids_inv c -> ids_inv c' -> grown (unhalted ex) (not_halted ex) c c' -> Some id <> ex -> halts c' id = true -> halts c id = true.
Proof.
  intros H H' G Hx. unfold halts. destruct (by_id c' id) as [s|] eqn:E; [|done]. intros Hs.
  apply by_id_Some in E as (p & Hp & <- & Hid); [|done]. destruct (grown_back _ _ _ _ _ G Hp) as [Hp0|[_ Hf]].
  - destruct (grown_deref _ _ _ _ _ G Hp0) as [_ [E R]]. rewrite E in Hid. subst id. rewrite by_id_ptr by done. auto.
  - exfalso. unfold not_halted in Hf. rewrite Hid, Hs in Hf. by discriminate Hf.
Qed.

(** * [cancelRead] *)

Lemma cancelRead_other p code c :
  grown (unhalted (Some (s_id (deref c p)))) (not_halted (Some (s_id (deref c p)))) c (cancelRead p code c).
Proof.
  unfold cancelRead. destruct (_ || _); [done|]. set (s := deref c p). set (R := unhalted _).
  grown_by grown_complete. grown_by grown_broadcast_read.
  assert (H : grown R (not_halted (Some (s_id s))) c (upd p clear_rbuf (consumeLocked (zlen (unread s))
    (upd p (fun s => set_s_readCancelled true (set_s_recvErr (Some (ErrStream (s_id s) code false)) s)) c)))).
  { etrans; [|apply grown_upd; [apply _|by apply gr_same]]. grown_by grown_consume. apply grown_upd; [apply _|]. by split. }
  destruct (negb _); [|done]. by grown_by grown_queue.
Qed.

Lemma control_queue f c : c_control (queueLocked f c) = c_control c ++ [f].
Proof. done. Qed.

Lemma control_settled p c : c_control (completeLocked p (broadcast_read p c)) = c_control c.
Proof. by rewrite completeLocked_eq. Qed.

Definition cancellable (p : nat) (c : Conn) : bool :=
  negb (bool_decide (c_closeErr c <> None) || bool_decide (s_recvErr (deref c p) <> None) || recvDone (deref c p)).

(** The frame is queued, unless the peer has ended the stream. *)
Lemma cancelRead_queues p code c :
  cancellable p c = true -> s_finRecv (deref c p) = false -> StopSending (s_id (deref c p)) code ∈ c_control (cancelRead p code c).
Proof.
  intros Hg%negb_true_iff Hf. unfold cancelRead. rewrite Hg, Hf. cbn [negb]. rewrite control_settled, control_queue.
  apply elem_of_app. right. by apply list_elem_of_singleton.
Qed.

Lemma cancelRead_shut p code c :
  cancellable p c = false \/ s_finRecv (deref c p) = true -> grown (unhalted None) (not_halted None) c (cancelRead p code c).
Proof.
  intros H. unfold cancelRead. rewrite <- (negb_involutive (_ || _)). fold (cancellable p c).
  destruct (cancellable p c); cbn [negb]; [|done]. destruct H as [|Hf]; [done|]. rewrite Hf. cbn [negb].
  grown_by grown_complete. grown_by grown_broadcast_read. etrans; [|apply grown_upd; [apply _|by apply gr_same]]. grown_by grown_consume.
  apply grown_upd; [apply _|]. split; [done|]. intros _. unfold halted, shut. simpl. by rewrite Hf.
Qed.

(** An operation cancels no stream, or queues the frame. *)
Definition stops (c c' : Conn) : Prop :=
  forall id, halts c' id = true -> halts c id = true \/ exists code, StopSending id code ∈ c_control c'.

Lemma stops_grown c c' : ids_inv c -> ids_inv c' -> grown (unhalted None) (not_halted None) c c' -> stops c c'.
Proof. intros H H' G id Hc. left. by eapply grown_halts. Qed.

Lemma stops_cancelRead p code c : ids_inv c -> ids_inv (cancelRead p code c) -> stops c (cancelRead p code c).
Proof.
  intros H H'. destruct (cancellable p c) eqn:Hg; [|apply stops_grown; [done|done|apply cancelRead_shut; by left]].
  destruct (s_finRecv (deref c p)) eqn:Hf; [apply stops_grown; [done|done|apply cancelRead_shut; by right]|].
  intros id Hc. destruct (decide (id = s_id (deref c p))) as [->|Hne].
  - right. exists code. by apply cancelRead_queues.
  - left. eapply grown_halts; [exact H|exact H'|apply cancelRead_other| |exact Hc]. congruence.
Qed.

Lemma stops_exec {GA : GoAppend} o c : ids_inv c -> ids_inv (exec o c) -> stops c (exec o c).
Proof.
  intros H H'. destruct (cancels o) eqn:Hc; [destruct o; try done; by apply stops_cancelRead|].
  apply stops_grown; [done|done|]. destruct (reserves o) eqn:Er; [|apply grown_any_exec; [apply _|done|congruence]].
  destruct o as [| | | | | | | |q n| | | | | | | | | | |]; try done. destruct (reserve_heap q n c) as [x Eh].
  eapply grown_insert; [apply _|exact Eh|done].
Qed.

(** * The pair *)

(** [x] sends, the application of [y] has cancelled some streams, and the frames
    [r] are on their way from [y] to [x]. *)
Definition stopped (x : Conn) (r : list frame) (y : Conn) : Prop :=
  forall id, halts y id = true -> (exists code, StopSending id code ∈ r ++ c_control y) \/ (send_state x id).2 = true.

Lemma stopped_more fs x r y : stopped x r y -> stopped x (r ++ fs) y.
Proof.
  intros S id [[code H]|H]%S; [left; exists code|by right]. apply elem_of_app in H as [H|H]; apply elem_of_app; [|by right].
  left. apply elem_of_app. by left.
Qed.

(** The receiver of the stream moves. *)
Lemma stopped_giver fs x r y y' : moves fs y y' -> stops y y' -> stopped x r y -> stopped x r y'.
Proof.
  intros M Hs S id Hc. destruct (mv_new _ _ _ M) as (new & En & _). destruct (Hs id Hc) as [H|[code H]].
  - destruct (S id H) as [[code H']|H']; [left; exists code; rewrite En, app_assoc; apply elem_of_app; by left|by right].
  - left. exists code. apply elem_of_app. by right.
Qed.

(** Its sender moves, and has handled the frames [fs]. *)
Lemma stopped_sender fs x x' r y :
  moves fs x x' -> (forall id code, StopSending id code ∈ fs -> (send_state x' id).2 = true) -> stopped x (fs ++ r) y -> stopped x' r y.
Proof.
  intros M Hf S id [[code H]|H]%S; [|right; by apply (mv_ended _ _ _ M)]. rewrite <- app_assoc in H.
  apply elem_of_app in H as [H|H]; [right; by apply (Hf id code)|left; by exists code].
Qed.

(** Sending the control queue. *)
Lemma stopped_flush now x r y : c_closeErr y = None -> stopped x r y -> stopped x (r ++ (takeControl now y).1) (takeControl now y).2.
Proof.
  intros Hc S id H. rewrite takeControl_eq in H |- * by done. destruct (S id H) as [[code H']|H']; [left; exists code|by right].
  cbn [fst snd] in *. apply elem_of_app. left. rewrite app_assoc. apply elem_of_app. by left.
Qed.

(** ** Handling STOP_SENDING *)

(** [resetSendLocked] ends the sending side. *)
Lemma resetSend_ended p code remote c :
  ids_inv c -> ids_inv (resetSendLocked p code remote c) -> ptr c p -> s_canSend (deref c p) = true ->
  (send_state (resetSendLocked p code remote c) (s_id (deref c p))).2 = true.
Proof.
  intros H H' Hp Hc. set (c' := resetSendLocked p code remote c) in *.
  assert (E : exists c1, grown later sent_nothing c1 c' /\ ptr c1 p /\ s_id (deref c1 p) = s_id (deref c p) /\ ended (deref c1 p) = true).
  { subst c'. unfold resetSendLocked. destruct (sendDone (deref c p)) eqn:Ed.
    - exists c. split_and!; [done|done|done|]. unfold sendDone in Ed. by rewrite Hc in Ed.
    - eexists (upd p _ c). split_and!.
      + grown_by grown_complete. grown_by grown_broadcast_write. grown_by grown_queue. apply grown_cancel, _.
      + by rewrite heap_upd, length_insert.
      + by rewrite deref_upd.
      + rewrite deref_upd by done. unfold ended. simpl. apply orb_true_r. }
  destruct E as (c1 & G & Hp1 & Hid & He). destruct (grown_deref _ _ _ _ _ G Hp1) as [Hp' (E & _ & R)].
  unfold send_state. rewrite <- Hid, <- E, by_id_ptr by done. by apply R.
Qed.

Section handled.
Context {GA : GoAppend} (x y : Conn) (q r : list frame) (f : frame) (now : Z) (x' : Conn).
Hypothesis (X : live x) (X' : live x') (Y : live y) (Hr : in_range x) (L : linked x q y (f :: r)).
Hypothesis (E : handleFrameLocked now f x = (None, x')).

Lemma stop_handled id code : f = StopSending id code -> (send_state x' id).2 = true.
Proof using All.
  intros Ef. pose proof (head_backed _ _ _ _ (lk_r _ _ _ _ L)) as Hb. rewrite Ef in Hb, E. destruct Hb as [B1 B2].
  simpl in E. destruct (c_ready x) eqn:Hrd; [|done]. cbn [negb] in E.
  destruct (streamLocked_finds x y q (f :: r) id false X Y Hr Hrd L B1 B2) as (sp & x1 & El & [X1 Hr1 Hrd1 Hfd Hgone] & L1).
  unfold handleStopSending, with_stream in E. rewrite El in E. destruct sp as [p|].
  - injection E as <-. destruct (Hfd p eq_refl) as [Hp Hid _ Hs]. subst id.
    apply resetSend_ended; [apply X1|apply X'|done|done].
  - injection E as <-. destruct (Hgone eq_refl) as (s & Hs & Hd). apply (done_ended x1 id s); try done.
    by destruct (other_can y x1 (ag_side _ _ (lk_yx _ _ _ _ L1)) id) as [_ ->].
Qed.

Lemma stops_handled : stops x x'.
Proof using X X' E.
  apply stops_grown; [apply X|apply X'|]. pose proof (grown_any_frame (unhalted None) (not_halted None) now f x) as G. by rewrite E in G.
Qed.
End handled.

(** ** The invariant *)

Definition stop_inv (x : pair) : Prop := stopped (left x) (rtl x) (right x) /\ stopped (right x) (ltr x) (left x).

Lemma stop_inv_swap x : stop_inv (swap_pair x) <-> stop_inv x.
Proof. unfold stop_inv. simpl. tauto. Qed.

Section acts.
Context {V : QuicVarint} {VL : QuicVarintLaws V} {GA : GoAppend}.

(** What an endpoint does by itself, but for sending the control queue, is a
    move. *)
Lemma acts_moves a fs a' :
  live a -> live a' -> in_range a -> acts a fs a' ->
  (moves [] a a' /\ stops a a') \/ exists now, fs = (takeControl now a).1 /\ a' = (takeControl now a).2.
Proof using Type.
  intros X X' Hr Ha. revert X'.
  destruct Ha as [o Ho Hv|p n off k d c1 Hh Hn E Hd|p off c1 Hh E|now|d n Hd En Hn]; intros X'; [left..|right; by exists now|left].
  - split; [by apply moves_silent; try apply X|]. apply stops_exec; [apply X|apply X'].
  - split; [eapply (moves_reserve p n); try apply X; try apply Hh; try exact E; lia|].
    pose proof (stops_exec (OpReserve p n) a) as H. simpl in H. rewrite E in H. apply H; [apply X|apply X'].
  - split; [eapply (moves_finish p); try apply X; try apply Hh; exact E|].
    pose proof (stops_exec (OpFinish p) a) as H. simpl in H. rewrite E in H. apply H; [apply X|apply X'].
  - split; [apply moves_refl|]. intros id H. by left.
Qed.

Lemma acts_stopped a fs a' q b r :
  live a -> live a' -> in_range a -> acts a fs a' -> stopped a r b -> stopped b q a -> stopped a' r b /\ stopped b (q ++ fs) a'.
Proof using Type.
  intros X X' Hr Ha S1 S2. destruct (acts_moves a fs a' X X' Hr Ha) as [[M Hs]|(now & -> & ->)].
  - split; [apply (stopped_sender [] a); [done|by intros id code ?%elem_of_nil|done]|]. by apply stopped_more, (stopped_giver [] b q a).
  - split; [|apply stopped_flush; [apply X|done]]. intros id H. rewrite takeControl_eq by apply X. exact (S1 id H).
Qed.

Context (cfgA : Config) (sideA : bool) (cfgB : Config) (sideB : bool).
Hypothesis (HA : config_ok cfgA) (HB : config_ok cfgB).

Lemma stop_left x y :
  coupled cfgA sideA cfgB sideB x -> coupled cfgA sideA cfgB sideB y -> left_step x y -> stop_inv x -> stop_inv y.
Proof using HA HB.
  intros [C1 C2 C3 C4 C5] [D1 _ D3 _ _] S [I1 I2]. pose proof (reach_live _ _ _ HA C1 C3) as X. pose proof (reach_live _ _ _ HB C2 C4) as Y.
  pose proof (reach_live _ _ _ HA D1 D3) as X'.
  destruct S as [a q b r fs a' Hr Ha|now a q b f r a' Hr E]; unfold stop_inv; simpl in *; [by apply (acts_stopped a fs a' q b r)|].
  pose proof (moves_next a b q r f now a' X Y Hr C5 E) as M. split.
  - apply (stopped_sender [f] a); [done| |done]. intros id code Hf%list_elem_of_singleton.
    apply (stop_handled a b q r f now a' X X' Y Hr C5 E id code). done.
  - apply (stopped_giver [f] b q a); [done| |done]. by apply (stops_handled a f now).
Qed.
End acts.

Lemma paired_stop {V : QuicVarint} {VL : QuicVarintLaws V} {GA : GoAppend} cfgA cfgB x :
  config_ok cfgA -> config_ok cfgB -> paired cfgA cfgB x -> stop_inv x.
Proof.
  intros HA HB. induction 1 as [nowA nowB a b|x y Hx IH S]; [by split|].
  pose proof (paired_coupled cfgA cfgB x HA HB Hx) as C. pose proof (paired_coupled cfgA cfgB y HA HB (paired_step _ _ x y Hx S)) as D.
  destruct S as [S|S]; [by apply (stop_left cfgA false cfgB true HA HB x y C D S)|]. apply stop_inv_swap in IH. apply stop_inv_swap.
  by apply (stop_left cfgB true cfgA false HB HA _ _ (coupled_swap _ _ _ _ _ C) (coupled_swap _ _ _ _ _ D) S).
Qed.
