(* ===== verification/Settle.v ===== *)
(** Two endpoints come to rest.

    When the applications are idle, the two endpoints only handle the frames on
    their way and send what they have queued in answer. [work] bounds how long
    that can go on: every such step lowers it, so that answers never answer
    each other forever. *)

From stdpp Require Import relations.
From S2P Require Import Prelude Varint Params Frame WriteLock Config State Core Stream Conn System Facts Ids Table Flow Life Control Wake Transport Endpoint Wire Scenario LifeTheorems History FrameTheorems Grow Peers Ahead Compat Interop Credit Stop.

(** * The work that is left *)

(** A frame on its way, with the answers that it can cause. *)
Definition weight (f : frame) : nat :=
  match f with
  | Ping false _ => 3
  | Stream _ _ _ _ | ResetStream _ _ _ => 7
  | StopSending _ _ => 13
  | _ => 1
  end.

Definition due (n : nat) (b : bool) : nat := if b then n else 0.

(** What a connection has queued. *)
Definition load (c : Conn) : nat :=
  sum_list_with (fun f => S (weight f)) (c_control c) + due 2 (c_maxDataPending c) +
  due 2 (i_pending (c_inBidi c)) + due 2 (i_pending (c_inUni c)) + due 2 (c_pongPending c) + due 4 (c_pingPending c).

Definition work (x : pair) : nat :=
  load (left x) + sum_list_with weight (ltr x) + load (right x) + sum_list_with weight (rtl x).

(** The parts of the state that only the application changes, or a ping. *)
Definition own (c : Conn) :=
  (c_isServer c, c_config c, c_sent c, (o_next (c_outBidi c), o_next (c_outUni c)), (c_nextPing c, c_pingPending c)).

(** [c'] has at most [k] more to do. *)
Definition raises (k : nat) (c c' : Conn) : Prop := (load c' <= load c + k)%nat /\ own c' = own c.

Lemma raises_trans k1 k2 c1 c2 c3 : raises k1 c1 c2 -> raises k2 c2 c3 -> raises (k1 + k2) c1 c3.
Proof. intros [H1 E1] [H2 E2]. split; [lia|congruence]. Qed.

Lemma raises_le k1 k2 c c' : (k1 <= k2)%nat -> raises k1 c c' -> raises k2 c c'.
Proof. intros H [? ?]. split; [lia|done]. Qed.

Lemma raises_refl k c : raises k c c.
Proof. split; [lia|done]. Qed.

Lemma raises_then k c1 c2 c3 : raises 0 c1 c2 -> raises k c2 c3 -> raises k c1 c3.
Proof. apply (raises_trans 0 k). Qed.

(** ** The parts of the handlers *)

Lemma raises_upd p g c : raises 0 c (upd p g c).
Proof. split; [unfold load; simpl; lia|done]. Qed.

Lemma raises_broadcast_read p c : raises 0 c (broadcast_read p c).
Proof. split; [unfold load; simpl; lia|done]. Qed.

Lemma raises_broadcast_write p c : raises 0 c (broadcast_write p c).
Proof. split; [unfold load; simpl; lia|done]. Qed.

Lemma raises_complete p c : raises 2 c (completeLocked p c).
Proof.
  rewrite completeLocked_eq. cbv zeta. unfold complete_in. split.
  - unfold load. simpl. destruct (completing _), (negb _), (streamDir _); simpl;
      destruct (i_pending (c_inBidi c)), (i_pending (c_inUni c)); simpl; lia.
  - by unfold own.
Qed.

Lemma raises_consume n c : raises 2 c (consumeLocked n c).
Proof. split; [|done]. unfold load. simpl. destruct (_ <? _); simpl; lia. Qed.

Lemma raises_settle p c1 c2 k : raises k c1 c2 -> raises (k + 2) c1 (completeLocked p (broadcast_read p c2)).
Proof.
  intros H. eapply raises_trans; [exact H|]. eapply raises_then; [apply raises_broadcast_read|apply raises_complete].
Qed.

Lemma raises_streamLocked id recv c : raises 0 c (streamLocked id recv c).2.
Proof.
  unfold streamLocked. destruct (_ && _); [apply raises_refl|]. destruct (initiatedLocally c id); [destruct (_ <=? _); apply raises_refl|].
  destruct (_ <=? _); [apply raises_refl|]. cbn [snd]. apply (open_loop_ind (raises 0 c)); [|apply raises_refl].
  intros c' H _. eapply raises_then; [exact H|]. split; [|by destruct (streamDir id)].
  unfold load. destruct (streamDir id); simpl; lia.
Qed.

Lemma raises_with_stream id recv k n c :
  (forall p c1, raises n c1 (k p c1).2) -> raises n c (with_stream id recv k c).2.
Proof.
  intros Hk. unfold with_stream. pose proof (raises_streamLocked id recv c) as H.
  destruct (streamLocked id recv c) as [[[p|]|e] c1]; simpl in *.
  - eapply raises_then; [exact H|apply Hk].
  - by eapply raises_le; [|exact H]; lia.
  - by eapply raises_le; [|exact H]; lia.
Qed.

Lemma raises_received n c c1 : receivedLocked n c = inl c1 -> raises 0 c c1.
Proof. unfold receivedLocked. destruct (_ <? _); [done|]. intros [= <-]. split; [unfold load; simpl; lia|done]. Qed.

Lemma raises_resetSend p code remote c : raises 10 c (resetSendLocked p code remote c).
Proof.
  unfold resetSendLocked. destruct (sendDone _); [apply raises_refl|]. set (c1 := queueLocked _ _).
  apply (raises_trans 8 2 c c1); [|eapply raises_then; [apply raises_broadcast_write|apply raises_complete]].
  subst c1. rewrite stream_cancel_eq. split; [|done]. unfold load. simpl. rewrite sum_list_with_app. simpl. lia.
Qed.

Section frames.
Context {GA : GoAppend}.

Lemma raises_stream_frame sid off d fin p c : raises 4 c (stream_frame sid off d fin p c).2.
Proof using Type.
  unfold stream_frame. destruct (negb _); [apply raises_refl|]. destruct (_ || _); [destruct (_ || _); apply raises_refl|].
  destruct (_ <? _); [apply raises_refl|]. destruct (receivedLocked _ c) as [c1|] eqn:E; [|apply raises_refl].
  cbn [snd]. apply (raises_settle p c _ 2). eapply raises_then; [by eapply raises_received|].
  eapply raises_then; [apply raises_upd|]. destruct (s_readCancelled _); [apply raises_consume|].
  eapply raises_le; [|apply raises_upd]. lia.
Qed.

Lemma raises_reset_frame sid code n p c : raises 4 c (reset_frame sid code n p c).2.
Proof using Type.
  unfold reset_frame. destruct (_ || _); [apply raises_refl|]. destruct (s_recvReset _); [apply raises_refl|].
  destruct (_ <? _); [apply raises_refl|]. destruct (receivedLocked _ c) as [c1|] eqn:E; [|apply raises_refl].
  cbn [snd]. apply (raises_settle p c _ 2). eapply raises_then; [by eapply raises_received|].
  apply (raises_trans 2 0 _ _ _ (raises_consume _ _) (raises_upd _ _ _)).
Qed.

(** Handling a frame is work done. *)
Lemma handle_lowers now f c :
  let c' := (handleFrameLocked now f c).2 in (load c' < load c + weight f)%nat /\ own c' = own c.
Proof using Type.
  cbv zeta. enough (H : raises (pred (weight f)) c (handleFrameLocked now f c).2).
  { destruct H as [H1 H2]. split; [|done]. destruct f as [| | | | | | | | |[]|]; simpl in *; lia. }
  unfold handleFrameLocked. destruct f as [sid code n|sid code|sid off d fin|m|sid m|uni m| |app code ft reason|d|resp seq|params];
    (destruct (c_ready c); cbn [negb]; [|apply raises_refl || cbn [snd]]); cbn [weight pred].
  - apply raises_with_stream. intros p c1. eapply raises_le; [|apply raises_reset_frame]. lia.
  - apply raises_with_stream. intros p c1. eapply raises_le; [|apply raises_resetSend]. lia.
  - apply raises_with_stream. intros p c1. eapply raises_le; [|apply raises_stream_frame]. lia.
  - unfold handleMaxData. destruct (_ <? _); split; try done; unfold load; simpl; lia.
  - apply raises_with_stream. intros p c1. destruct (_ <? _); [|apply raises_refl]. cbn [snd].
    eapply raises_then; [apply raises_upd|apply raises_broadcast_write].
  - unfold handleMaxStreams. destruct (_ <? _); [|apply raises_refl]. split; [unfold load|]; destruct uni; simpl; (lia || done).
  - apply raises_refl.
  - destruct app; apply raises_refl.
  - unfold handleDatagramLocked. repeat destruct (_ <? _); try apply raises_refl. split; [unfold load; simpl; lia|done].
  - unfold handlePingLocked. destruct resp.
    + destruct (_ <=? _); [apply raises_refl|]. destruct (_ =? _); [|apply raises_refl]. split; [unfold load; simpl; lia|done].
    + destruct (_ && _); [apply raises_refl|]. split; [|done]. unfold load. simpl. destruct (c_pongPending c); simpl; lia.
  - apply raises_refl.
  - rewrite handleParametersLocked_eq. split; [unfold load; simpl; lia|done].
Qed.

(** So is sending what is queued. *)
Lemma flush_lowers now c :
  c_closeErr c = None ->
  let '(fs, c') := takeControl now c in load c' = 0%nat /\ load c = (sum_list_with weight fs + length fs)%nat.
Proof using Type.
  intros Hc. rewrite takeControl_eq by done. split; [by unfold load|].
  assert (H : forall l, sum_list_with (fun f => S (weight f)) l = (sum_list_with weight l + length l)%nat).
  { induction l as [|f l IH]; simpl; lia. }
  unfold load. rewrite H. rewrite !sum_list_with_app, !length_app. unfold when.
  destruct (c_maxDataPending c), (i_pending (c_inBidi c)), (i_pending (c_inUni c)), (c_pongPending c), (c_pingPending c); simpl; lia.
Qed.
End frames.

(** A connection keeps its configuration. *)
Lemma exec_config {GA : GoAppend} o c :
  ids_inv c -> flow_inv c -> in_range c -> valid o c -> c_config (exec o c) = c_config c.
Proof.
  intros Hi Hf Hr Hv. destruct (silent o) eqn:Ho.
  { destruct (ahead_silent none o c Hi Hf Hr Ho Hv) as [new A]. by destruct (ahead_fields _ _ _ _ A) as (_ & -> & _). }
  destruct o; try done; simpl.
  - destruct (handle_lowers now f c) as [_ E]. unfold own in E. congruence.
  - unfold reserve. by destruct (sendErrLocked _ c).
  - unfold finish. destruct (c_closeErr c); [done|]. destruct (_ || _); [done|]. simpl. rewrite completeLocked_eq. cbv zeta. by rewrite stream_cancel_eq.
  - destruct (c_closeErr c) eqn:E; [by unfold takeControl; rewrite E|]. by rewrite takeControl_eq.
  - pose proof (fv_terminate e c) as E. unfold fv in E. congruence.
Qed.

Lemma reach_config {GA : GoAppend} cfg side c : config_ok cfg -> reach cfg side c -> c_config c = cfg.
Proof.
  intros H. induction 1 as [now|o c Hc IH Hr Hv]; [done|]. rewrite exec_config; try done; [by eapply reach_ids|by eapply reach_flow].
Qed.

(** * The endpoints serve each other *)

Section serves.
Context {V : QuicVarint} {GA : GoAppend}.

(** The write loop sends what is queued, or the read loop handles a frame. *)
Inductive serves_left : pair -> pair -> Prop :=
| serves_flush now a q b r :
    load a <> 0%nat -> in_range a ->
    serves_left (mkPair a q b r) (mkPair (takeControl now a).2 (q ++ (takeControl now a).1) b r)
| serves_handle now a q b f r a' :
    in_range a -> handleFrameLocked now f a = (None, a') -> serves_left (mkPair a q b (f :: r)) (mkPair a' q b r).

Inductive serves (x y : pair) : Prop :=
| serves_l : serves_left x y -> serves x y
| serves_r : serves_left (swap_pair x) (swap_pair y) -> serves x y.

(** Nothing is on its way, and nothing is queued. *)
Record settled (x : pair) : Prop := {
  st_ltr : ltr x = [];
  st_rtl : rtl x = [];
  st_left : load (left x) = 0%nat;
  st_right : load (right x) = 0%nat;
}.

Lemma serves_left_step x y : serves_left x y -> left_step x y.
Proof using Type. intros [now a q b r _ Hr|now a q b f r a' Hr E]; [apply left_acts; [done|apply acts_flush]|by eapply left_handles]. Qed.

Lemma serves_step x y : serves x y -> pair_step x y.
Proof using Type. intros [S|S]; [apply step_left|apply step_right]; by apply serves_left_step. Qed.

Lemma work_swap x : work (swap_pair x) = work x.
Proof using Type. unfold work. simpl. lia. Qed.

Lemma serves_left_lowers x y : c_closeErr (left x) = None -> serves_left x y -> (work y < work x)%nat.
Proof using Type.
  intros Ho S. destruct S as [now a q b r Hl Hr|now a q b f r a' Hr E]; unfold work; simpl in *.
  - pose proof (flush_lowers now a Ho) as H. destruct (takeControl now a) as [fs a']. simpl. destruct H as [H1 H2].
    rewrite sum_list_with_app, H1, H2. destruct fs; simpl in *; lia.
  - pose proof (handle_lowers now f a) as [H _]. rewrite E in H. simpl in H. lia.
Qed.
End serves.

(** ** Room to serve *)

(** The limits of QUIC's integers are far enough for what is on its way. *)
Record room (x y : Conn) : Prop := {
  rm_data : c_sent x + conn_window y + stream_window y <= varint_max;
  rm_streams d : cfg_streams (c_config y) d + o_next (c_out d x) <= 2 ^ 60;
  rm_pings : c_nextPing y + Z.of_nat (due 1 (c_pingPending y)) <= varint_max;
}.

Definition roomy (x : pair) : Prop := room (left x) (right x) /\ room (right x) (left x).

Lemma room_own x x' y y' : own x' = own x -> own y' = own y -> room x y -> room x' y'.
Proof.
  unfold own. intros [= _ E1 E2 E3 E4 E5 E6] [= _ D1 D2 D3 D4 D5 D6] [R1 R2 R3].
  split; rewrite ?E2, ?D1, ?D5, ?D6; try done. intros d. specialize (R2 d). destruct d; simpl in *; lia.
Qed.

Lemma finished_opened c d : ids_inv c -> finished c d <= i_next (c_in d c).
Proof.
  intros H. rewrite (id_opened _ H d). unfold finished, opened. apply sumZ_le. intros s _. destruct (remote c d s), (s_done s); simpl; lia.
Qed.

Lemma room_range x q y r : live y -> linked x q y r -> room x y -> in_range y.
Proof.
  intros Y L [R1 R2 R3]. pose proof (ft_data _ _ _ (lk_q _ _ _ _ L)). pose proof (data_len_nonneg q).
  assert (Hm : forall d, i_max (c_in d y) <= 2 ^ 60).
  { intros d. rewrite (id_max _ (li_ids _ Y)). pose proof (finished_opened y d (li_ids _ Y)).
    pose proof (ag_next _ _ (lk_xy _ _ _ _ L) d). specialize (R2 d). lia. }
  pose proof (Hm dirBidi). pose proof (Hm dirUni). unfold in_range. simpl in *. split_and!; lia.
Qed.

Lemma flush_own now c :
  c_closeErr c = None -> c_nextPing c + Z.of_nat (due 1 (c_pingPending c)) <= varint_max -> 0 <= c_nextPing c ->
  let c' := (takeControl now c).2 in
  c_config c' = c_config c /\ c_sent c' = c_sent c /\ (forall d, o_next (c_out d c') = o_next (c_out d c)) /\
  c_nextPing c' + Z.of_nat (due 1 (c_pingPending c')) = c_nextPing c + Z.of_nat (due 1 (c_pingPending c)).
Proof.
  intros Hc Hr Hn. rewrite takeControl_eq by done. split_and!; [done|done|by intros []|]. simpl.
  destruct (c_pingPending c); simpl in *; unwrap_u64; lia.
Qed.

(** ** Serving ends *)

Section steps.
Context {V : QuicVarint} {VL : QuicVarintLaws V} {GA : GoAppend}.
Context (cfgA : Config) (sideA : bool) (cfgB : Config) (sideB : bool).
Hypothesis (HA : config_ok cfgA) (HB : config_ok cfgB).

Lemma coupled_live x : coupled cfgA sideA cfgB sideB x -> live (left x) /\ live (right x).
Proof using HA HB. intros [C1 C2 C3 C4 _]. split; [by eapply (reach_live cfgA)|by eapply (reach_live cfgB)]. Qed.

Lemma coupled_range x : coupled cfgA sideA cfgB sideB x -> roomy x -> in_range (left x) /\ in_range (right x).
Proof using HA HB.
  intros C [R1 R2]. destruct (coupled_live x C) as [X Y]. pose proof (cp_linked _ _ _ _ _ C) as L.
  split; [by eapply room_range; [|apply linked_swap|]|by eapply room_range].
Qed.

Lemma serves_left_room x y : coupled cfgA sideA cfgB sideB x -> serves_left x y -> roomy x -> roomy y.
Proof using HA HB.
  intros C S [R1 R2]. destruct (coupled_live x C) as [X Y]. destruct S as [now a q b r Hl Hr|now a q b f r a' Hr E]; simpl in *.
  - pose proof (ct_ping _ (li_ctrl _ X)). destruct (flush_own now a (li_open _ X) (rm_pings _ _ R2)) as (E1 & E2 & E3 & E4); [simpl in *; lia|].
    destruct R1 as [R11 R12 R13], R2 as [R21 R22 R23]. split; split; simpl; rewrite ?E1, ?E2; try done.
    + intros d. rewrite E3. apply R12.
    + simpl in *. lia.
  - destruct (handle_lowers now f a) as [_ Ho]. rewrite E in Ho. simpl in Ho. split; simpl; eapply room_own; try done.
Qed.

Lemma serves_left_progress (now : Z) x :
  coupled cfgA sideA cfgB sideB x -> roomy x -> rtl x <> [] \/ load (left x) <> 0%nat -> exists y, serves_left x y.
Proof using HA HB.
  intros C R H. destruct (coupled_live x C) as [X Y]. destruct (coupled_range x C R) as [RA RB]. pose proof (cp_linked _ _ _ _ _ C) as L.
  destruct x as [a q b r]. simpl in *. destruct H as [Hr|Hl]; [|eexists; by apply (serves_flush now)].
  destruct r as [|f r]; [done|]. destruct (handles_next now a q b f r X Y RA L) as (a' & E & _). eexists. by eapply serves_handle.
Qed.
End steps.

Section settle.
Context {V : QuicVarint} {VL : QuicVarintLaws V} {GA : GoAppend} (cfgA cfgB : Config).
Hypothesis (HA : config_ok cfgA) (HB : config_ok cfgB).

(** A pair that has room to serve. *)
Definition serving (x : pair) : Prop := coupled cfgA false cfgB true x /\ roomy x.

Lemma serves_serving x y : serving x -> serves x y -> serving y /\ (work y < work x)%nat.
Proof using VL HA HB.
  intros [C R] [S|S].
  - split; [|by apply serves_left_lowers; [apply C|]]. split.
    + apply (coupled_left cfgA false cfgB true HA HB x y (serves_left_step x y S) C).
    + by apply (serves_left_room cfgA false cfgB true HA HB x).
  - apply coupled_swap in C. rewrite <- (work_swap x), <- (work_swap y). split; [|by apply serves_left_lowers; [apply C|]]. split.
    + rewrite <- (swap_swap y). apply coupled_swap. by apply (coupled_left cfgB true cfgA false HB HA _ _ (serves_left_step _ _ S)).
    + apply (serves_left_room cfgB true cfgA false HB HA (swap_pair x)) in S; [by destruct S|done|by destruct R].
Qed.

Lemma serving_run n x y : serving x -> nsteps serves n x y -> serving y /\ (n + work y <= work x)%nat.
Proof using VL HA HB.
  intros Hx H. revert Hx. induction H as [x|n x y z S _ IH]; intros Hx; [split; [done|lia]|].
  destruct (serves_serving x y Hx S) as [Hy Hlt]. destruct (IH Hy) as [Hz Hle]. split; [done|lia].
Qed.

Lemma serving_progress x : serving x -> settled x \/ exists y, serves x y.
Proof using HA HB.
  intros [C R].
  assert (D : settled x \/ (rtl x <> [] \/ load (left x) <> 0%nat) \/ (ltr x <> [] \/ load (right x) <> 0%nat)).
  { destruct (rtl x) eqn:E1; [|right; left; by left]. destruct (ltr x) eqn:E2; [|right; right; by left].
    destruct (decide (load (left x) = 0%nat)); [|tauto]. destruct (decide (load (right x) = 0%nat)); [|tauto]. left. by split. }
  destruct D as [D|[D|D]]; [by left|right|right].
  - destruct (serves_left_progress cfgA false cfgB true HA HB 0 x C R D) as [y S]. exists y. by constructor.
  - apply coupled_swap in C. destruct (serves_left_progress cfgB true cfgA false HB HA 0 (swap_pair x) C) as [y S]; [by destruct R|done|].
    exists (swap_pair y). apply serves_r. by rewrite swap_swap.
Qed.

Lemma serving_settles x : serving x -> exists y, rtc serves x y /\ settled y.
Proof using VL HA HB.
  induction x as [x IH] using (induction_ltof1 _ work). unfold ltof in IH. intros Hx.
  destruct (serving_progress x Hx) as [H|[y S]]; [by exists x|]. destruct (serves_serving x y Hx S) as [Hy Hlt].
  destruct (IH y Hlt Hy) as (z & Hz & Hs). exists z. split; [by eapply rtc_l|done].
Qed.
End settle.

(** * At rest *)

(** [a] sends and [b] receives: they agree on everything that was sent, and on
    every limit. *)
Record in_sync (a b : Conn) : Prop := {
  sy_data : c_received b = c_sent a;
  sy_sendMax : c_sendMax a = c_recvMax b;
  sy_streams d : o_max (c_out d a) = i_max (c_in d b);
  sy_state id : recv_state b id = send_state a id;
  sy_limit id : (send_state a id).2 = false -> allowed a id = recv_limit b id;
  sy_stopped id : halts b id = true -> (send_state a id).2 = true;
}.

(** Why a writer, or a call that opens a stream, can still be waiting: the
    other application has data to read, or as many streams open as it allows. *)
Record waits_for_peer (a b : Conn) : Prop := {
  wp_connection : c_sent a = c_sendMax a -> exists p, ptr b p /\ unread (deref b p) <> [];
  wp_stream p : ptr a p -> s_canSend (deref a p) = true -> ended (deref a p) = false -> s_sendOffset (deref a p) = s_sendMax (deref a p) ->
    exists p', ptr b p' /\ s_id (deref b p') = s_id (deref a p) /\ unread (deref b p') <> [];
  wp_open d : o_next (c_out d a) = o_max (c_out d a) -> o_next (c_out d a) - finished b d = cfg_streams (c_config b) d;
}.

Lemma load_zero c : load c = 0%nat -> c_control c = [] /\ c_maxDataPending c = false /\ forall d, i_pending (c_in d c) = false.
Proof.
  unfold load. intros H. assert (Hc : c_control c = []) by (destruct (c_control c); simpl in *; [done|lia]).
  split; [done|]. destruct (c_maxDataPending c); simpl in H; [lia|]. split; [done|].
  intros []; simpl; [destruct (i_pending (c_inBidi c))|destruct (i_pending (c_inUni c))]; simpl in H; (lia || done).
Qed.

Lemma linked_in_sync a b r :
  linked a [] b r -> credited a [] b -> stopped a [] b -> load a = 0%nat -> load b = 0%nat -> in_sync a b.
Proof.
  intros L [C1 C2 C3] St Ha Hb. destruct (load_zero a Ha) as (A1 & _). destruct (load_zero b Hb) as (B1 & B2 & B3).
  pose proof (lk_q _ _ _ _ L) as [_ F2 F3 _ _ _ _ _ _]. rewrite A1 in F3. rewrite B1 in C3. split.
  - change (data_len []) with 0 in F2. lia.
  - by rewrite <- C1.
  - intros d. by rewrite <- C2.
  - intros id. specialize (F3 id). simpl in F3. congruence.
  - intros id He. by rewrite <- C3.
  - intros id [[code H]|H]%St; [|done]. rewrite B1 in H. by apply elem_of_nil in H.
Qed.

(** Data is buffered when more was received than consumed. *)
Lemma unread_somewhere c : flow_inv c -> c_consumed c < c_received c -> exists p, ptr c p /\ unread (deref c p) <> [].
Proof.
  intros H Hlt. rewrite (fl_consumed _ H), (fl_received _ H) in Hlt.
  destruct (decide (Exists (fun s => unread s <> []) (c_heap c))) as [He|Hn].
  - apply list.Exists_exists in He as (s & (p & Hp & Es)%list_elem_of_lookup_total_1 & Hs). exists p. split; [done|]. unfold deref. by rewrite Es.
  - exfalso. apply not_Exists_Forall in Hn; [|apply _]. assert (sumZ s_recvOffset (c_heap c) <= sumZ used (c_heap c)); [|lia].
    apply sumZ_le. intros s Hs. rewrite list.Forall_forall in Hn. specialize (Hn s Hs). unfold used.
    destruct (decide (unread s = [])) as [->|]; [simpl; lia|done].
Qed.

Lemma stream_waits a b p :
  live a -> live b -> in_sync a b -> 2 <= stream_window b -> c_isServer b = negb (c_isServer a) ->
  ptr a p -> s_canSend (deref a p) = true -> ended (deref a p) = false -> s_sendOffset (deref a p) = s_sendMax (deref a p) ->
  exists p', ptr b p' /\ s_id (deref b p') = s_id (deref a p) /\ unread (deref b p') <> [].
Proof.
  intros A B S Hw Hside Hp Hc He Hfull. set (id := s_id (deref a p)).
  assert (Ha : by_id a id = Some (deref a p)) by (by apply by_id_ptr; [apply A|]).
  assert (Hcr : can_recv b id = true).
  { destruct (other_can a b Hside id) as [-> _]. destruct (stream_can a p (li_ids _ A) Hp) as (_ & _ & E). unfold id. congruence. }
  pose proof (sy_state _ _ S id) as Hst. pose proof (sy_limit _ _ S id) as Hl. unfold send_state, allowed in Hst, Hl. rewrite Ha in Hst, Hl.
  simpl in Hl. specialize (Hl He). unfold recv_state in Hst. unfold recv_limit in Hl. destruct (by_id b id) as [s|] eqn:Eb.
  - pose proof Eb as Eb'. apply by_id_Some in Eb as (p' & Hp' & Es & Hid); [|apply B]. exists p'. split; [done|]. split; [congruence|]. rewrite Es.
    pose proof (fl_stream _ (li_flow _ B) p' Hp') as Hok. pose proof (sid_recv _ _ (id_stream _ (li_ids _ B) p' Hp')) as Hr. rewrite Es in Hok, Hr.
    rewrite Hid, Hcr in Hr. injection Hst as H1 H2. rewrite He in H2. apply orb_false_iff in H2 as [H2 H3].
    pose proof (sy_stopped _ _ S id) as Ht. unfold send_state, halts in Ht. rewrite Ha, Eb' in Ht. simpl in Ht. rewrite He in Ht.
    destruct (s_readCancelled s) eqn:Ec; [unfold halted, shut in Ht; rewrite Ec, H2, H3 in Ht; by discriminate Ht|]. pose proof (so_half _ _ Hok Hr H2) as Hh.
    assert (Hn : s_recvErr s = None).
    { destruct (s_recvErr s) eqn:Ee; [|done]. destruct (proj1 (so_err _ _ Hok)) as [?|?]; congruence. }
    pose proof (so_exact _ _ Hok Hn) as Hx. intros Hu. rewrite Hu in Hx. simpl in Hx.
    assert (1 <= stream_window b / 2) by (apply Z.div_le_lower_bound; lia). lia.
  - exfalso. injection Hst as H1 _. unfold new_stream in Hl. unfold can_recv in Hcr.
    destruct (bool_decide _), (initiatedLocally b id); simpl in Hcr, Hl; try done; lia.
Qed.

Lemma sync_waits a b :
  live a -> live b -> in_sync a b -> 2 <= conn_window b -> 2 <= stream_window b -> c_isServer b = negb (c_isServer a) -> waits_for_peer a b.
Proof.
  intros A B S Hc Hw Hside. split.
  - intros Hfull. apply unread_somewhere; [apply B|]. pose proof (fl_half _ (li_flow _ B)). pose proof (sy_data _ _ S). pose proof (sy_sendMax _ _ S).
    assert (1 <= conn_window b / 2) by (apply Z.div_le_lower_bound; lia). lia.
  - intros p. by apply stream_waits.
  - intros d Hfull. rewrite Hfull, (sy_streams _ _ S d), (id_max _ (li_ids _ B) d). lia.
Qed.

Section theorems.
Context {V : QuicVarint} {VL : QuicVarintLaws V} {GA : GoAppend} (cfgA cfgB : Config).

Lemma settled_in_sync x :
  config_ok cfgA -> config_ok cfgB -> paired cfgA cfgB x -> settled x ->
  coupled cfgA false cfgB true x /\ in_sync (left x) (right x) /\ in_sync (right x) (left x).
Proof using VL.
  intros HA HB Hx [S1 S2 S3 S4]. pose proof (paired_coupled cfgA cfgB x HA HB Hx) as C.
  destruct (paired_credits cfgA cfgB x HA HB Hx) as [K1 K2]. destruct (paired_stop cfgA cfgB x HA HB Hx) as [T1 T2]. pose proof (cp_linked _ _ _ _ _ C) as L. rewrite S1, S2 in *.
  split; [done|]. split; [by eapply linked_in_sync|]. eapply linked_in_sync; try done. by apply linked_swap.
Qed.

Lemma rtc_paired x y : paired cfgA cfgB x -> rtc serves x y -> paired cfgA cfgB y.
Proof using Type. intros Hx. induction 1 as [|x y z S _ IH]; [done|]. apply IH. eapply paired_step; [exact Hx|by apply serves_step]. Qed.

(** C6: two endpoints whose applications are idle come to rest. However their
    steps interleave, they handle and send at most [work x] more times: answers
    do not cause answers forever. Such a run can always go on until nothing is
    on its way and nothing is queued, and then the two agree: on the data of every
    stream, on its end, on the limit of every stream that still sends, and on
    the limits of the connection; and a stream whose reader has cancelled has
    ended. *)
Theorem peers_settle x :
  config_ok cfgA -> config_ok cfgB -> paired cfgA cfgB x -> roomy x ->
  (forall n y, nsteps serves n x y -> (n <= work x)%nat) /\
  (forall y, rtc serves x y -> settled y \/ exists z, serves y z) /\
  (exists y, rtc serves x y /\ settled y) /\
  (forall y, rtc serves x y -> settled y -> in_sync (left y) (right y) /\ in_sync (right y) (left y)).
Proof using VL.
  intros HA HB Hx R. assert (Hs : serving cfgA cfgB x) by (split; [by apply paired_coupled|done]). split_and!.
  - intros n y H. destruct (serving_run cfgA cfgB HA HB n x y Hs H). lia.
  - intros y [n H]%rtc_nsteps. apply (serving_progress cfgA cfgB HA HB). by apply (serving_run cfgA cfgB HA HB n x).
  - by apply (serving_settles cfgA cfgB HA HB).
  - intros y H Hy. apply (settled_in_sync y HA HB); [by eapply rtc_paired|done].
Qed.

(** C5: flow control does not deadlock. When two endpoints with windows of at
    least two bytes are at rest, a writer that waits for the connection's credit
    waits because the other application has data to read; one that waits for
    the stream's credit, because that stream has data to read there; and a call
    that waits to open a stream, because as many streams as the other
    configuration allows have not finished. No credit is lost on the way, and a
    reader that cancels does not leave its writer waiting. *)
Theorem no_credit_deadlock x :
  config_ok cfgA -> config_ok cfgB -> paired cfgA cfgB x -> settled x ->
  2 <= InitialConnectionReceiveWindow cfgA -> 2 <= InitialStreamReceiveWindow cfgA ->
  2 <= InitialConnectionReceiveWindow cfgB -> 2 <= InitialStreamReceiveWindow cfgB ->
  waits_for_peer (left x) (right x) /\ waits_for_peer (right x) (left x).
Proof using VL.
  intros HA HB Hx Hs W1 W2 W3 W4. destruct (settled_in_sync x HA HB Hx Hs) as (C & S1 & S2).
  destruct (coupled_live cfgA false cfgB true HA HB x C) as [A B]. pose proof (cp_linked _ _ _ _ _ C) as L.
  pose proof (reach_config _ _ _ HA (cp_left _ _ _ _ _ C)) as E1. pose proof (reach_config _ _ _ HB (cp_right _ _ _ _ _ C)) as E2.
  split; apply sync_waits; rewrite ?E1, ?E2; try done; [apply (ag_side _ _ (lk_xy _ _ _ _ L))|apply (ag_side _ _ (lk_yx _ _ _ _ L))].
Qed.
End theorems.
