(* ===== verification/Goroutines.v ===== *)
(** The goroutines of an endpoint, step by step.

    [Endpoint] has each call that writes as one step. Here a call takes as many
    steps as it has points where another goroutine can run: it waits for the write
    lock, which [WriteLock] models, runs its critical section on [Conn.mu], puts
    its records on the transport one by one, and releases the lock. Between any
    two of them, and while it holds the write lock, other goroutines read records,
    run critical sections of their own, wait for the lock, or close the
    connection.

    A world is an endpoint with its lock, its goroutines, and what has happened so
    far: the frames that critical sections have given out to be sent, in that order, the
    records written, and whether the transport has refused one. *)

From stdpp Require Import relations.
From S2P Require Import Prelude Varint Params Frame WriteLock Config State Core Stream Conn Transport Endpoint System FrameTheorems Refine Peers.

(** * Goroutines *)

(** The calls that take the write lock. *)
Inductive job :=
| JParams                         (* [sendParameters] *)
| JFlush                          (* [flushControl] *)
| JChunk (p : nat) (data : bytes) (* [writeChunk] *)
| JFin (p : nat)                  (* [closeSend] *)
| JDatagram (data : bytes)        (* [SendDatagram], when the datagram fits *)
| JClose (f : frame).             (* [writeFrames], for [closeGracefully] *)

(** Where a goroutine is. [Aborts] and [Cuts] are in the calls of [abort] and of
    the transport's [close], and go on with [k]. *)
Inductive pc :=
| Wants (j : job) (prio : priority)       (* before [LockPriority] *)
| Waits (j : job) (ready : nat)           (* in [LockPriority], on its channel *)
| Holds (j : job)                         (* has the lock *)
| Flushes (fs : list frame) (buf : bytes) (* in the loop of [flushControl] *)
| Writes (j : job) (buf : bytes)          (* before [writeRecordLocked] *)
| Leaves (j : job) (err : option error)   (* before [Unlock] *)
| Aborts (k : pc) (err : error)           (* before [abort] *)
| Cuts (k : pc)                           (* before [close] *)
| Ends (err : error) (fr : option frame)  (* before [closeGracefully] *)
| Expires (fr : option frame)             (* in [closeGracefully], after [terminate] *)
| Shuts (werr : option error)             (* in [closeGracefully], after [writeFrames] *)
| Done.

(** What a step shows: frames given out by a critical section, a record on the
    transport, or a record refused. *)
Inductive out := Quiet | Given (fs : list frame) | Wrote (rec : bytes) | Refused.

Definition frames_given (o : out) : list frame := match o with Given fs => fs | _ => [] end.
Definition records_written (o : out) : list bytes := match o with Wrote rec => [rec] | _ => [] end.
Definition is_refusal (o : out) : bool := match o with Refused => true | _ => false end.

(** Whether it has the lock. *)
Fixpoint holding (p : pc) : bool :=
  match p with
  | Holds _ | Flushes _ _ | Writes _ _ | Leaves _ _ => true
  | Aborts k _ | Cuts k => holding k
  | _ => false
  end.

Section steps.
Context {V : QuicVarint} {GA : GoAppend} {T : Type} {RT : RecordTransport T}.
Implicit Types (e : endpoint T).

(** ** Critical sections *)

(** One record with the given frame, in the job [j]. *)
Definition to_write (j : job) (f : frame) (e : endpoint T) : option (pc * endpoint T * out) :=
  buf ← append_frames [f] (e_wbuf e); Some (Writes j buf, e, Given [f]).

(** [sendParameters] *)
Definition enter_params (e : endpoint T) : option (pc * endpoint T * out) :=
  to_write JParams (TransportParameters (localParameters (c_config (e_conn e)))) e.

(** [flushControl], up to its loop *)
Definition enter_flush (now : Z) (e : endpoint T) : option (pc * endpoint T * out) :=
  let '(frames, c) := takeControl now (e_conn e) in
  Some (Flushes frames (e_wbuf e), set_conn c e, Given frames).

(** [writeChunk], up to [writeFramesLocked] *)
Definition enter_chunk (p : nat) (data : bytes) (e : endpoint T) : option (pc * endpoint T * out) :=
  let sid := s_id (deref (e_conn e) p) in
  let '(r, c) := reserve p (zlen data) (e_conn e) in
  let e := set_conn c e in
  match r with
  | inr _ => Some (Leaves (JChunk p data) None, e, Quiet)
  | inl (offset, n) =>
      if n =? 0 then Some (Leaves (JChunk p data) None, e, Quiet)
      else to_write (JChunk p data) (Stream sid offset (ztake n data) false) e
  end.

(** [closeSend], up to [writeFramesLocked] *)
Definition enter_fin (p : nat) (e : endpoint T) : option (pc * endpoint T * out) :=
  let sid := s_id (deref (e_conn e) p) in
  let '(r, c) := finish p (e_conn e) in
  let e := set_conn c e in
  match r with
  | inl (Some finalSize) => to_write (JFin p) (Stream sid finalSize [] true) e
  | _ => Some (Leaves (JFin p) None, e, Quiet)
  end.

(** [SendDatagram] once it holds the lock, up to [writeFramesLocked] *)
Definition enter_datagram (data : bytes) (e : endpoint T) : option (pc * endpoint T * out) :=
  match cause e with
  | Some _ => Some (Leaves (JDatagram data) None, e, Quiet)
  | None => to_write (JDatagram data) (Datagram data) e
  end.

Definition enter (now : Z) (j : job) (e : endpoint T) : option (pc * endpoint T * out) :=
  match j with
  | JParams => enter_params e
  | JFlush => enter_flush now e
  | JChunk p data => enter_chunk p data e
  | JFin p => enter_fin p e
  | JDatagram data => enter_datagram data e
  | JClose f => to_write (JClose f) f e
  end.

(** ** Records *)

(** What follows a failed write: the stream's and the datagram's calls abort
    before they release the lock, the others return the error. *)
Definition failed (j : job) (err : error) : pc :=
  match j with
  | JChunk _ _ | JFin _ | JDatagram _ => Aborts (Leaves j None) (ErrWriteTransport err)
  | JParams | JFlush | JClose _ => Leaves j (Some err)
  end.

(** [writeRecordLocked] in the job [j], which goes on with [next]. *)
Definition write_record (now : Z) (j : job) (next : endpoint T -> pc) (buf : bytes) (e : endpoint T)
    : option (pc * endpoint T * out) :=
  r ← writeRecordLocked now buf e;
  match r with
  | (Some err, e) => Some (failed j err, e, Refused)
  | (None, e) => Some (next e, e, Wrote (frames_of buf))
  end.

(** An iteration of the loop of [flushControl], and what follows the loop. *)
Definition flush_next (now : Z) (fs : list frame) (buf : bytes) (e : endpoint T) : option (pc * endpoint T * out) :=
  match fs with
  | [] => Some (if zlen buf =? recordHeadroom then Leaves JFlush None else Writes JFlush buf, e, Quiet)
  | f :: fs =>
      buf ← Append f buf;
      if full <? zlen buf then write_record now JFlush (fun e => Flushes fs (e_wbuf e)) buf e
      else Some (Flushes fs buf, e, Quiet)
  end.

(** ** Ending the connection *)

(** [abort]: [terminate], and [close] when this call ended the connection. *)
Definition abort_terminate (k : pc) (err : error) (e : endpoint T) : pc * endpoint T :=
  let '(ended, c) := terminate err (e_conn e) in
  (if ended then Cuts k else k, set_conn c e).

(** [closeGracefully] *)
Definition close_terminate (err : error) (fr : option frame) (e : endpoint T) : pc * endpoint T :=
  let '(ended, c) := terminate err (e_conn e) in
  (if ended then Expires fr else Done, set_conn c e).

Definition control_priority : priority := mkPriority urgencyControl true 0.

Definition close_expire (now : Z) (fr : option frame) (e : endpoint T) : pc * endpoint T :=
  (match fr with Some f => Wants (JClose f) control_priority | None => Shuts None end,
   set_forced (Some (now + closeTimeout)) (set_tr (expire (now + closeTimeout) (e_tr e)) e)).

Definition close_shut (werr : option error) (e : endpoint T) : endpoint T :=
  match werr with
  | Some _ => set_tr (close (e_tr e)) (set_forced None e)
  | None =>
      let '(half, t) := closeWrite (e_tr e) in
      let e := set_tr t e in
      if negb half then set_tr (close (e_tr e)) (set_forced None e) else e
  end.

(** ** A step of one goroutine, but for the lock *)

Definition quiet (x : pc * endpoint T) : option (pc * endpoint T * out) := Some (x.1, x.2, Quiet).

Definition advance (now : Z) (p : pc) (e : endpoint T) : option (pc * endpoint T * out) :=
  match p with
  | Holds j => enter now j e
  | Flushes fs buf => flush_next now fs buf e
  | Writes j buf => write_record now j (fun _ => Leaves j None) buf e
  | Aborts k err => quiet (abort_terminate k err e)
  | Cuts k => quiet (k, set_tr (close (e_tr e)) e)
  | Ends err fr => quiet (close_terminate err fr e)
  | Expires fr => quiet (close_expire now fr e)
  | Shuts werr => quiet (Done, close_shut werr e)
  | Wants _ _ | Waits _ _ | Leaves _ _ | Done => None
  end.

(** After [Unlock]: [writeLoop] aborts when it could not write, and
    [closeGracefully] shuts the transport down. *)
Definition released (j : job) (err : option error) : pc :=
  match j, err with
  | JParams, Some err | JFlush, Some err => Aborts Done (ErrWriteTransport err)
  | JClose _, err => Shuts err
  | _, _ => Done
  end.

(** The end of [readLoop]: its last [abort], and the deferred [close]. *)
Definition read_quit (err : error) : pc := Aborts (Cuts Done) err.

(** What [readLoop] does with the error of a record. *)
Definition read_error (err : error) : pc :=
  match err with
  | ErrWire we =>
      let reason := ztake (Z.min (zlen (err_Reason we)) maxReasonLength) (err_Reason we) in
      Ends (ErrTransport false (err_Code we) 0 reason) (Some (ConnectionClose false (err_Code we) 0 reason))
  | err => read_quit err
  end.
End steps.

(** * Worlds *)

(** A goroutine that is done is gone. *)
Definition put (t : nat) (p : pc) (m : gmap nat pc) : gmap nat pc :=
  match p with Done => delete t m | _ => <[t := p]> m end.

Record world (T : Type) := mkWorld {
  w_ep : endpoint T;
  w_lock : writeLock;
  w_pcs : gmap nat pc;
  w_given : list frame;
  w_wire : list bytes;
  w_refused : bool;
}.
Arguments mkWorld {T}.
Arguments w_ep {T}.
Arguments w_lock {T}.
Arguments w_pcs {T}.
Arguments w_given {T}.
Arguments w_wire {T}.
Arguments w_refused {T}.

Section worlds.
Context {V : QuicVarint} {GA : GoAppend} {T : Type} {RT : RecordTransport T}.
Implicit Types (w : world T).

Abbreviation w_conn w := (e_conn (w_ep w)).

Definition set_ep (e : endpoint T) (w : world T) : world T :=
  mkWorld e (w_lock w) (w_pcs w) (w_given w) (w_wire w) (w_refused w).
Definition set_lock (l : writeLock) (w : world T) : world T :=
  mkWorld (w_ep w) l (w_pcs w) (w_given w) (w_wire w) (w_refused w).

Definition set_pc (t : nat) (p : pc) (w : world T) : world T :=
  mkWorld (w_ep w) (w_lock w) (put t p (w_pcs w)) (w_given w) (w_wire w) (w_refused w).

Definition note (o : out) (w : world T) : world T :=
  mkWorld (w_ep w) (w_lock w) (w_pcs w) (w_given w ++ frames_given o) (w_wire w ++ records_written o)
    (w_refused w || is_refusal o).

(** [newConn]: the write lock is taken on behalf of [writeLoop], which starts
    with [sendParameters]. *)
Definition new_world (tr : T) (cfg : Config) (isServer : bool) (now : Z) : world T :=
  mkWorld (new_endpoint tr cfg isServer now) (Lock zeroLock).2 {[ 0%nat := Holds JParams ]} [] [] false.

(** The calls that can begin at any time: those of the application on a stream
    that it holds, a datagram within the limits, [writeLoop] when it is woken,
    and the ways to end the connection, with an error code below 2^62: with a
    larger one [CloseWithError] panics ([Findings.close_code_panics]). *)
Definition can_begin (p : pc) (c : Conn) : Prop :=
  match p with
  | Wants (JChunk q data) prio => holds_send c q /\ zlen data < 2 ^ 63 /\ prio = stream_priority q c
  | Wants (JFin q) prio => holds_send c q /\ prio = stream_priority q c
  | Wants JFlush prio => prio = control_priority
  | Wants (JDatagram data) prio =>
      prio = control_priority /\ zlen data < 2 ^ 60 /\ datagramLimit c <> 0 /\
      exists n, Datagram_Len data = Some n /\ n <= datagramLimit c
  | Ends _ fr =>
      match fr with
      | None => True
      | Some (ConnectionClose app code ft reason) => is_varint code /\ ft = 0 /\ zlen reason <= maxReasonLength
      | _ => False
      end
  | Aborts Done _ => True
  | _ => False
  end.

(** The connection stays within the numbers of the protocol while the record is
    handled. *)
Definition in_range_record (now : Z) (rec : bytes) (c : Conn) : Prop :=
  in_range_along (OpReceived now (zlen rec) :: (OpFrame now <$> (split_record (length rec) rec).1)) c.

(** [wire.Error] is internal to the module: a transport returns one only when a
    record is too large. *)
Definition transport_error (err : error) : Prop :=
  match err with ErrWire we => err_Code we = FrameEncodingError | _ => True end.

(** What a step is: a goroutine goes on from where it is, a critical section of
    the application or of a timer, the reading of a record, or something else. *)
Inductive label := Internal | Advances (p : pc) | Runs (o : op) | Reads (rec : bytes).

(** One step of one goroutine. The numbers of the protocol have not run out. What [readLoop] does after an error,
    and each flush of [writeLoop], is a goroutine of its own here: every
    interleaving of the code is one of these. *)
Inductive wstep (w : world T) : label -> world T -> Prop :=
| w_section o :
    in_range (w_conn w) -> silent o = true -> valid o (w_conn w) ->
    wstep w (Runs o) (set_ep (set_conn (exec o (w_conn w)) (w_ep w)) w)
| w_begin t p :
    w_pcs w !! t = None -> can_begin p (w_conn w) -> wstep w Internal (set_pc t p w)
| w_acquire t j prio r l :
    w_pcs w !! t = Some (Wants j prio) -> acquire prio (w_lock w) = (r, l) ->
    wstep w Internal (set_pc t (match r with None => Holds j | Some ready => Waits j ready end) (set_lock l w))
| w_advance t now p p' e o :
    in_range (w_conn w) -> w_pcs w !! t = Some p -> advance now p (w_ep w) = Some (p', e, o) ->
    wstep w (Advances p) (note o (set_pc t p' (set_ep e w)))
| w_unlock t j err l :
    w_pcs w !! t = Some (Leaves j err) -> Unlock (w_lock w) = (None, l) ->
    wstep w Internal (set_pc t (released j err) (set_lock l w))
| w_handoff t j err l ready t' j' :
    w_pcs w !! t = Some (Leaves j err) -> Unlock (w_lock w) = (Some ready, l) -> w_pcs w !! t' = Some (Waits j' ready) ->
    wstep w Internal (set_pc t' (Holds j') (set_pc t (released j err) (set_lock l w)))
| w_read now rec tr err c t :
    readRecord (e_tr (w_ep w)) = (inl rec, tr) -> zlen rec < 2 ^ 62 ->
    handleRecord now rec (record_received now (zlen rec) (w_conn w)) = (err, c) ->
    in_range_record now rec (w_conn w) -> w_pcs w !! t = None ->
    wstep w (Reads rec) (set_pc t (match err with Some err => read_error err | None => Done end)
      (set_ep (set_conn c (set_tr tr (w_ep w))) w))
| w_read_error err tr t :
    readRecord (e_tr (w_ep w)) = (inr err, tr) -> transport_error err -> w_pcs w !! t = None ->
    wstep w Internal (set_pc t (match err with ErrWire _ => read_error err | _ => read_quit (ErrTransportClosed err) end)
      (set_ep (set_tr tr (w_ep w)) w))
| w_forced now e :
    force_close now (w_ep w) = Some e -> wstep w Internal (set_ep e w).
End worlds.

(** * A goroutine that runs alone *)

(** The steps here are those of [Endpoint]: a call that nothing interrupts does
    what its definition there says. *)
Section alone.
Context {V : QuicVarint} {GA : GoAppend} {T : Type} {RT : RecordTransport T} (now : Z).
Implicit Types (e : endpoint T).

Definition alone (x y : pc * endpoint T) : Prop := exists o, advance now x.1 x.2 = Some (y.1, y.2, o).

Lemma alone_one p e p' e' o : advance now p e = Some (p', e', o) -> rtc alone (p, e) (p', e').
Proof using Type. intros H. apply rtc_once. by exists o. Qed.

Lemma alone_abort k err e : rtc alone (Aborts k err, e) (k, abort err e).
Proof using Type.
  unfold abort. destruct (terminate err (e_conn e)) as [ended c] eqn:E.
  assert (H : advance now (Aborts k err) e = Some (if ended then Cuts k else k, set_conn c e, Quiet)).
  { simpl. unfold quiet, abort_terminate. by rewrite E. }
  apply alone_one in H. destruct ended; [|done]. etrans; [exact H|]. by eapply alone_one.
Qed.

(** The job writes its record, and goes on with what follows it. *)
Lemma alone_frame j f e r e' p e0 :
  writeFramesLocked now [f] e = Some (r, e') -> advance now p e0 = to_write j f e ->
  rtc alone (p, e0) (match r with Some err => failed j err | None => Leaves j None end, e').
Proof using Type.
  unfold writeFramesLocked, to_write. destruct (append_frames [f] (e_wbuf e)) as [buf|]; [|done]. simpl. intros H E. apply alone_one in E.
  etrans; [exact E|]. destruct r; eapply alone_one; simpl; unfold write_record; by rewrite H.
Qed.

Lemma alone_chunk p data e n err e' :
  writeChunk now p data e = Some (n, err, e') -> rtc alone (Holds (JChunk p data), e) (Leaves (JChunk p data) None, e').
Proof using Type.
  unfold writeChunk. destruct (reserve p (zlen data) (e_conn e)) as [[[off k]|x] c] eqn:Er.
  2:{ intros [= <- <- <-]. eapply alone_one. simpl. unfold enter_chunk. by rewrite Er. }
  destruct (k =? 0) eqn:Ek; [intros [= <- <- <-]; eapply alone_one; simpl; unfold enter_chunk; by rewrite Er, Ek|].
  destruct (writeFramesLocked _ _ _) as [[r e1]|] eqn:Ew; [|done]. simpl. intros H.
  pose proof (alone_frame (JChunk p data) _ _ _ _ (Holds (JChunk p data)) e Ew ltac:(simpl; unfold enter_chunk; by rewrite Er, Ek)) as G.
  destruct r; injection H as <- <- <-; [|exact G]. etrans; [exact G|apply alone_abort].
Qed.

Lemma alone_closeSend p e err e' :
  closeSend now p e = Some (err, e') -> rtc alone (Holds (JFin p), e) (Leaves (JFin p) None, e').
Proof using Type.
  unfold closeSend. destruct (finish p (e_conn e)) as [[[k|]|x] c] eqn:Er.
  2,3: intros [= <- <-]; eapply alone_one; simpl; unfold enter_fin; by rewrite Er.
  destruct (writeFramesLocked _ _ _) as [[r e1]|] eqn:Ew; [|done]. simpl. intros H.
  pose proof (alone_frame (JFin p) _ _ _ _ (Holds (JFin p)) e Ew ltac:(simpl; unfold enter_fin; by rewrite Er)) as G.
  destruct r; injection H as <- <-; [|exact G]. etrans; [exact G|apply alone_abort].
Qed.

(** Past the checks of the limit. *)
Lemma alone_datagram data e r e' n :
  Datagram_Len data = Some n -> datagramLimit (e_conn e) <> 0 -> n <= datagramLimit (e_conn e) ->
  SendDatagram now data e = Some (r, e') -> rtc alone (Holds (JDatagram data), e) (Leaves (JDatagram data) None, e').
Proof using Type.
  intros Hn H0 Hl. unfold SendDatagram. rewrite (proj2 (Z.eqb_neq _ _) H0), Hn. simpl. rewrite (proj2 (Z.ltb_ge _ _) Hl).
  destruct (cause e) eqn:Ec; [intros [= <- <-]; eapply alone_one; simpl; unfold enter_datagram; by rewrite Ec|].
  destruct (writeFramesLocked _ _ _) as [[x e1]|] eqn:Ew; [|done]. simpl. intros H.
  pose proof (alone_frame (JDatagram data) _ _ _ _ (Holds (JDatagram data)) e Ew ltac:(simpl; unfold enter_datagram; by rewrite Ec)) as G.
  destruct x; injection H as <- <-; [|exact G]. etrans; [exact G|apply alone_abort].
Qed.

Lemma alone_flush_loop fs buf e r e' :
  flush_loop now fs buf e = Some (r, e') -> rtc alone (Flushes fs buf, e) (Leaves JFlush r, e').
Proof using Type.
  revert buf e. induction fs as [|f fs IH]; intros buf e; simpl.
  - destruct (zlen buf =? recordHeadroom) eqn:E; [intros [= <- <-]; eapply alone_one; simpl; by rewrite E|]. intros H.
    etrans; [eapply alone_one; simpl; by rewrite E|]. destruct r; eapply alone_one; simpl; unfold write_record; by rewrite H.
  - destruct (Append f buf) as [b|] eqn:Ea; [|done]. simpl. destruct (full <? zlen b) eqn:El.
    + destruct (writeRecordLocked now b e) as [[[x|] e1]|] eqn:Ew; [..|done]; simpl.
      * intros [= <- <-]. eapply alone_one. simpl. rewrite Ea. simpl. rewrite El. unfold write_record. by rewrite Ew.
      * intros H. etrans; [|by apply IH]. eapply alone_one. simpl. rewrite Ea. simpl. rewrite El. unfold write_record. by rewrite Ew.
    + intros H. etrans; [|by apply IH]. eapply alone_one. simpl. rewrite Ea. simpl. by rewrite El.
Qed.

Lemma alone_flush e r e' : flushControl now e = Some (r, e') -> rtc alone (Holds JFlush, e) (Leaves JFlush r, e').
Proof using Type.
  unfold flushControl. destruct (takeControl now (e_conn e)) as [fs c] eqn:E. intros H.
  etrans; [|by apply alone_flush_loop]. eapply alone_one. simpl. unfold enter_flush. by rewrite E.
Qed.

Lemma alone_params e r e' : sendParameters now e = Some (r, e') -> rtc alone (Holds JParams, e) (Leaves JParams r, e').
Proof using Type. intros H. pose proof (alone_frame JParams _ e r e' (Holds JParams) e H eq_refl) as G. by destruct r. Qed.

(** [closeGracefully] takes the lock in the middle. *)
Lemma alone_close err f e e' :
  closeGracefully now err (Some f) e = Some e' ->
  rtc alone (Ends err (Some f), e) (Done, e') \/
  exists e1 werr e2, rtc alone (Ends err (Some f), e) (Wants (JClose f) control_priority, e1) /\
    rtc alone (Holds (JClose f), e1) (Leaves (JClose f) werr, e2) /\ rtc alone (released (JClose f) werr, e2) (Done, e').
Proof using Type.
  unfold closeGracefully. destruct (terminate err (e_conn e)) as [ended c] eqn:Et.
  assert (H0 : advance now (Ends err (Some f)) e = Some (if ended then Expires (Some f) else Done, set_conn c e, Quiet)).
  { simpl. unfold quiet, close_terminate. by rewrite Et. }
  apply alone_one in H0. destruct ended; cbn [negb]; [|intros [= <-]; by left]. intros H. right. set (e1 := set_forced _ _) in *.
  destruct (writeFramesLocked now [f] e1) as [[werr e2]|] eqn:Ew; [|done]. simpl in H. exists e1, werr, e2. split_and!.
  - etrans; [exact H0|]. by eapply alone_one.
  - pose proof (alone_frame (JClose f) f e1 werr e2 (Holds (JClose f)) e1 Ew eq_refl) as G. by destruct werr.
  - eapply alone_one. simpl. unfold quiet, close_shut. simpl.
    destruct werr; [by injection H as <-|]. by destruct (closeWrite (e_tr e2)) as [[] t]; injection H as <-.
Qed.
End alone.
