(* ===== verification/Serial.v ===== *)
(** One writer at a time.

    In every interleaving of the goroutines, at most one of them is between its
    [LockPriority] and its [Unlock], a goroutine that waits is in the queue of the
    lock, and one that leaves can hand the lock on. *)

From stdpp Require Import relations.
From S2P Require Import Prelude Varint Params Frame Heap WriteLock Config State Core Stream Conn System Facts Ids Table Flow Life Control Wake Transport Endpoint Wire LifeTheorems History FrameTheorems EndpointTheorems Refine Peers Goroutines.

(** * Mutual exclusion *)

Lemma put_lookup t p m t' q :
  put t p m !! t' = Some q <-> (t' = t /\ q = p /\ p <> Done) \/ (t' <> t /\ m !! t' = Some q).
Proof.
  destruct (decide (t' = t)) as [->|Hn].
  - assert (put t p m !! t = match p with Done => None | _ => Some p end) as ->.
    { destruct p; simpl; first [apply lookup_delete_eq|apply lookup_insert_eq]. }
    destruct p; intuition congruence.
  - assert (put t p m !! t' = m !! t') as ->.
    { destruct p; simpl; first [by apply lookup_delete_ne|by apply lookup_insert_ne]. }
    intuition congruence.
Qed.

#[local] Arguments put : simpl never.

(** The lock and the goroutines agree. *)
Record excl (l : writeLock) (m : gmap nat pc) : Prop := {
  ex_lock : lock_inv l;
  ex_one t1 p1 t2 p2 : m !! t1 = Some p1 -> m !! t2 = Some p2 -> holding p1 = true -> holding p2 = true -> t1 = t2;
  ex_held : held l = true <-> exists t p, m !! t = Some p /\ holding p = true;
  ex_queued ready : ready ∈ w_ready <$> waiters l <-> exists t j, m !! t = Some (Waits j ready);
  ex_waits t1 j1 t2 j2 ready : m !! t1 = Some (Waits j1 ready) -> m !! t2 = Some (Waits j2 ready) -> t1 = t2;
}.

Definition waiting (p : pc) : bool := match p with Waits _ _ => true | _ => false end.

Definition holds_at (m : gmap nat pc) (t : nat) : bool := match m !! t with Some p => holding p | None => false end.

(** A goroutine moves on and keeps the lock, or keeps out of it. *)
Lemma excl_put l m t p :
  excl l m -> (forall q, m !! t = Some q -> waiting q = false) -> waiting p = false -> holding p = holds_at m t -> excl l (put t p m).
Proof.
  intros [E1 E2 E3 E4 E5] Hq Hw Hh. unfold holds_at in Hh.
  assert (Hwait : forall t' j ready, put t p m !! t' = Some (Waits j ready) <-> m !! t' = Some (Waits j ready)).
  { intros t' j ready. rewrite put_lookup. split.
    - intros [(_ & <- & _)|[_ H]]; done.
    - intros H. right. split; [|done]. intros ->. by apply Hq in H. }
  assert (Hhold : forall t', (exists q, put t p m !! t' = Some q /\ holding q = true) <-> exists q, m !! t' = Some q /\ holding q = true).
  { intros t'. setoid_rewrite put_lookup. split.
    - intros (q & [(-> & -> & _)|[_ H]] & Hh'); [|by exists q]. rewrite Hh' in Hh. destruct (m !! t) as [q|]; [by exists q|done].
    - intros (q & H & Hh'). destruct (decide (t' = t)) as [->|]; [|exists q; split; [by right|done]].
      rewrite H, Hh' in Hh. exists p. split; [left; split_and!; try done; by intros ->|done]. }
  split; [done| | | |].
  - intros t1 p1 t2 p2 L1 L2 H1 H2. destruct (proj1 (Hhold t1)) as (q1 & ? & ?); [by exists p1|].
    destruct (proj1 (Hhold t2)) as (q2 & ? & ?); [by exists p2|]. by eapply E2.
  - rewrite E3. split; intros (t' & H); exists t'; by apply Hhold.
  - intros ready. rewrite E4. split; intros (t' & j & H); exists t', j; by apply Hwait.
  - intros t1 j1 t2 j2 ready H1%Hwait H2%Hwait. by eapply E5.
Qed.

(** Taking the lock, or getting in its queue. *)
Lemma excl_acquire l m t j prio r l' :
  excl l m -> m !! t = Some (Wants j prio) -> acquire prio l = (r, l') ->
  excl l' (put t (match r with None => Holds j | Some ready => Waits j ready end) m).
Proof.
  intros [E1 E2 E3 E4 E5] Ht E. pose proof (acquire_inv _ _ _ _ E E1) as E1'. destruct (held l) eqn:Hl.
  - destruct (acquire_busy prio l Hl) as (x & m' & Ea & _ & Hr & Hw & Hl' & _). rewrite E in Ea. injection Ea as -> ->.
    assert (Hfresh : forall t' j', m !! t' <> Some (Waits j' (chans l))).
    { intros t' j' H. assert (Hin : chans l ∈ w_ready <$> waiters l) by (apply E4; by exists t', j').
      apply list_elem_of_fmap in Hin as (y & Ey & Hy). apply (inv_fresh _ E1) in Hy. lia. }
    split; [done| | | |].
    + intros t1 p1 t2 p2 [(-> & -> & _)|[_ L1]]%put_lookup [(-> & -> & _)|[_ L2]]%put_lookup H1 H2; try done. by eapply E2.
    + rewrite Hl'. split; [intros _|done]. destruct (proj1 E3 eq_refl) as (t' & p & Hp & Hh). exists t', p. split; [|done].
      apply put_lookup. right. split; [|done]. intros ->. rewrite Ht in Hp. by injection Hp as <-.
    + intros ready. rewrite Hw, (fmap_Permutation _ _ _ (Push_Permutation Less _ _)). simpl. rewrite elem_of_cons, E4, Hr. setoid_rewrite put_lookup. split.
      * intros [->|(t' & j' & H)]; [exists t, j; by left|]. exists t', j'. right. split; [|done]. intros ->. congruence.
      * intros (t' & j' & [(_ & [= _ ->] & _)|[_ H]]); [by left|right; by exists t', j'].
    + intros t1 j1 t2 j2 ready [(-> & [= _ ->] & _)|[_ L1]]%put_lookup [(-> & [= ->] & _)|[_ L2]]%put_lookup; try done.
      * by apply Hfresh in L2.
      * subst. by apply Hfresh in L1.
      * by eapply E5.
  - rewrite acquire_free in E by done. injection E as <- <-.
    assert (Hnone : forall t' p, m !! t' = Some p -> holding p = false).
    { intros t' p Hp. destruct (holding p) eqn:Hh; [|done]. symmetry. apply E3. by exists t', p. }
    split; [done| | | |]; simpl.
    + intros t1 p1 t2 p2 [(-> & -> & _)|[_ L1]]%put_lookup [(-> & -> & _)|[_ L2]]%put_lookup H1 H2; try done;
        [apply Hnone in L2|apply Hnone in L1|apply Hnone in L1]; congruence.
    + split; [intros _|done]. exists t, (Holds j). split; [|done]. apply put_lookup. by left.
    + intros ready. rewrite E4. setoid_rewrite put_lookup. split.
      * intros (t' & j' & H). exists t', j'. right. split; [|done]. intros ->. congruence.
      * intros (t' & j' & [(_ & ? & _)|[_ H]]); [done|by exists t', j'].
    + intros t1 j1 t2 j2 ready [(_ & ? & _)|[_ L1]]%put_lookup [(_ & ? & _)|[_ L2]]%put_lookup; try done. by eapply E5.
Qed.

(** What follows [Unlock] is out of the lock. *)
Lemma released_out j err : holding (released j err) = false /\ waiting (released j err) = false.
Proof. by destruct j, err. Qed.

Lemma Unlock_free_inv l l' : lock_inv l -> Unlock l = (None, l') -> waiters l = [] /\ l' = mkLock false (arrivals l) [] (chans l).
Proof.
  intros H E. destruct (decide (waiters l = [])) as [Hw|Hw].
  - rewrite Unlock_free in E by done. by injection E as <-.
  - destruct (Unlock_hand l H Hw) as (w & ws & E' & _). congruence.
Qed.

Lemma Unlock_hand_inv l ready l' :
  lock_inv l -> Unlock l = (Some ready, l') ->
  held l = true /\ held l' = true /\ ~ (ready ∈ (w_ready <$> waiters l')) /\ (w_ready <$> waiters l) ≡ₚ (ready :: (w_ready <$> waiters l')).
Proof.
  intros H E. destruct (decide (waiters l = [])) as [Hw|Hw]; [by rewrite Unlock_free in E|].
  destruct (Unlock_hand l H Hw) as (w & ws & E' & Hp & _). rewrite E in E'. injection E' as -> ->. cbn [held waiters].
  assert (Hh : held l = true) by (destruct (held l) eqn:Hh; [done|by apply (inv_free _ H) in Hh]).
  pose proof (inv_nodup _ H) as Hnd. rewrite (fmap_Permutation _ _ _ Hp) in Hnd. apply NoDup_cons_1_1 in Hnd.
  split_and!; try done. by rewrite (fmap_Permutation _ _ _ Hp).
Qed.

(** [Unlock] with no one waiting. *)
Lemma excl_unlock l m t j err l' :
  excl l m -> m !! t = Some (Leaves j err) -> Unlock l = (None, l') -> excl l' (put t (released j err) m).
Proof.
  intros [E1 E2 E3 E4 E5] Ht E. destruct (Unlock_free_inv _ _ E1 E) as [Hw ->]. pose proof (Unlock_inv _ _ _ E E1) as E1'.
  destruct (released_out j err) as [Hh Hwt]. rewrite Hw in E4.
  assert (Hnone : forall t' p, put t (released j err) m !! t' = Some p -> holding p = false).
  { intros t' p [(-> & -> & _)|[Hn Hp]]%put_lookup; [done|]. destruct (holding p) eqn:Hhp; [|done]. by destruct Hn; eapply E2. }
  assert (Hwait : forall t' j' ready, put t (released j err) m !! t' <> Some (Waits j' ready)).
  { intros t' j' ready [(_ & Hq & _)|[_ H]]%put_lookup; [by rewrite <- Hq in Hwt|].
    apply (not_elem_of_nil ready). apply E4. by exists t', j'. }
  split; cbn [held waiters]; [done| | | |].
  - intros t1 p1 t2 p2 L1 _ H1. apply Hnone in L1. congruence.
  - split; [done|]. intros (t' & p & Hp & H). apply Hnone in Hp. congruence.
  - intros ready. split; [by intros ?%not_elem_of_nil|]. intros (t' & j' & H). by apply Hwait in H.
  - intros t1 j1 t2 j2 ready L1. by apply Hwait in L1.
Qed.

(** [Unlock] gives the lock to the goroutine that waits on the channel it
    closes. *)
Lemma excl_handoff l m t j err l' ready t' j' :
  excl l m -> m !! t = Some (Leaves j err) -> Unlock l = (Some ready, l') -> m !! t' = Some (Waits j' ready) ->
  excl l' (put t' (Holds j') (put t (released j err) m)).
Proof.
  intros [E1 E2 E3 E4 E5] Ht E Ht'. destruct (Unlock_hand_inv _ _ _ E1 E) as (Hl & Hl' & Hni & Hp).
  pose proof (Unlock_inv _ _ _ E E1) as E1'. destruct (released_out j err) as [Hh Hwt].
  set (m' := put t' _ _).
  assert (Hwait : forall u k r, m' !! u = Some (Waits k r) <-> m !! u = Some (Waits k r) /\ u <> t').
  { intros u k r. unfold m'. rewrite !put_lookup. split.
    - intros [(_ & ? & _)|[Hu [(_ & Hq & _)|[_ H]]]]; [done|by rewrite <- Hq in Hwt|done].
    - intros [H Hu]. right. split; [done|]. right. split; [|done]. intros ->. congruence. }
  assert (Hhold : forall u p, m' !! u = Some p -> holding p = true -> u = t').
  { intros u p H Hp'. apply put_lookup in H as [(-> & _)|[Hu H]]; [done|].
    apply put_lookup in H as [(-> & -> & _)|[Hn H]]; [congruence|]. by destruct Hn; eapply E2. }
  split; [done| | | |].
  - intros t1 p1 t2 p2 L1 L2 H1 H2. rewrite (Hhold _ _ L1 H1). by rewrite (Hhold _ _ L2 H2).
  - rewrite Hl'. split; [intros _|done]. exists t', (Holds j'). split; [|done]. apply put_lookup. by left.
  - intros r. transitivity (r ∈ w_ready <$> waiters l /\ r <> ready).
    + rewrite Hp, elem_of_cons. split; [|tauto]. intros H. split; [by right|]. by intros ->.
    + rewrite E4. split.
      * intros [(u & k & H) Hr]. exists u, k. apply Hwait. split; [done|]. intros ->. congruence.
      * intros (u & k & [H Hu]%Hwait). split; [by exists u, k|]. intros ->. by destruct Hu; eapply E5.
  - intros t1 j1 t2 j2 r [L1 _]%Hwait [L2 _]%Hwait. by eapply E5.
Qed.

(** * Steps *)

(** What follows a call of [abort] or [close]. *)
Fixpoint ending (k : pc) : bool :=
  match k with
  | Done | Leaves _ None => true
  | Cuts k => ending k
  | _ => false
  end.

Definition calm (p : pc) : bool :=
  match p with
  | Aborts k _ | Cuts k => ending k
  | _ => true
  end.

Lemma ending_calm k : ending k = true -> calm k = true /\ waiting k = false.
Proof. by destruct k. Qed.

Section worlds.
Context {V : QuicVarint} {GA : GoAppend} {T : Type} {RT : RecordTransport T}.
Implicit Types (w : world T).

Abbreviation w_conn w := (e_conn (w_ep w)).

Lemma to_write_holds j f (e : endpoint T) p e' o : to_write j f e = Some (p, e', o) -> exists buf, p = Writes j buf.
Proof using Type. unfold to_write. destruct (append_frames _ _) as [buf|]; [|done]. intros [= <- _ _]. by exists buf. Qed.

Lemma enter_holds now j (e : endpoint T) p e' o :
  enter now j e = Some (p, e', o) -> holding p = true /\ calm p = true /\ waiting p = false.
Proof using Type.
  assert (Ht : forall j f (e0 : endpoint T), to_write j f e0 = Some (p, e', o) -> holding p = true /\ calm p = true /\ waiting p = false).
  { intros j0 f e0 (buf & ->)%to_write_holds. done. }
  destruct j; simpl.
  - apply Ht.
  - unfold enter_flush. destruct (takeControl _ _). by intros [= <- _ _].
  - unfold enter_chunk. destruct (reserve _ _ _) as [[[? n]|] ?]; [|by intros [= <- _ _]]. destruct (n =? 0); [by intros [= <- _ _]|apply Ht].
  - unfold enter_fin. destruct (finish _ _) as [[[]|] ?]; [apply Ht|by intros [= <- _ _]..].
  - unfold enter_datagram. destruct (cause e); [by intros [= <- _ _]|apply Ht].
  - apply Ht.
Qed.

Lemma failed_holds j err : holding (failed j err) = true /\ calm (failed j err) = true /\ waiting (failed j err) = false.
Proof using Type. by destruct j. Qed.

Lemma write_record_holds now j next buf (e : endpoint T) p e' o :
  write_record now j next buf e = Some (p, e', o) -> (forall e, holding (next e) = true /\ calm (next e) = true /\ waiting (next e) = false) ->
  holding p = true /\ calm p = true /\ waiting p = false.
Proof using Type.
  unfold write_record. destruct (writeRecordLocked _ _ _) as [[[] ?]|]; [..|done]; simpl; intros [= <- _ _] Hn; [apply failed_holds|apply Hn].
Qed.

(** A step between [LockPriority] and [Unlock] stays there, and one outside
    stays outside. *)
Lemma advance_holds now p (e : endpoint T) p' e' o :
  advance now p e = Some (p', e', o) -> calm p = true ->
  holding p' = holding p /\ calm p' = true /\ waiting p' = false /\ waiting p = false.
Proof using Type.
  intros E Hc. destruct p as [| |j|fs buf|j buf| |k err|k|err fr|fr|werr|]; try done; simpl in E.
  - apply enter_holds in E. intuition congruence.
  - unfold flush_next in E. destruct fs as [|f fs].
    + injection E as <- _ _. by destruct (_ =? _).
    + destruct (Append f buf) as [b|]; [|done]. simpl in E. destruct (_ <? _); [|by injection E as <- _ _].
      apply write_record_holds in E; [intuition congruence|done].
  - apply write_record_holds in E; [intuition congruence|done].
  - destruct (ending_calm k Hc) as [Hk Hw]. unfold abort_terminate in E. destruct (terminate _ _) as [[] c]; by injection E as <- _ _.
  - destruct (ending_calm k Hc) as [Hk Hw]. by injection E as <- _ _.
  - unfold close_terminate in E. destruct (terminate _ _) as [[] c]; by injection E as <- _ _.
  - injection E as <- _ _. by destruct fr.
  - by injection E as <- _ _.
Qed.

Record serial w : Prop := {
  se_excl : excl (w_lock w) (w_pcs w);
  se_calm t p : w_pcs w !! t = Some p -> calm p = true;
}.

Lemma new_world_serial tr cfg isServer now : serial (new_world tr cfg isServer now).
Proof using Type.
  split.
  2:{ intros t p. simpl. rewrite lookup_singleton_Some. by intros [_ <-]. }
  simpl. split; simpl.
  - exact (acquire_inv control_priority zeroLock None _ eq_refl zeroLock_inv).
  - intros t1 p1 t2 p2. rewrite !lookup_singleton_Some. by intros [<- _] [<- _].
  - split; [intros _|done]. exists 0%nat, (Holds JParams). split; [apply lookup_singleton_eq|done].
  - intros ready. split; [by intros ?%not_elem_of_nil|]. intros (t & j & [_ [=]]%lookup_singleton_Some).
  - intros t1 j1 t2 j2 ready [_ [=]]%lookup_singleton_Some.
Qed.

Lemma can_begin_out p c : can_begin p c -> holding p = false /\ calm p = true /\ waiting p = false.
Proof using Type. destruct p as [| | | | | |[] ?| | | | |]; done. Qed.

Lemma read_error_out err : holding (read_error err) = false /\ calm (read_error err) = true /\ waiting (read_error err) = false.
Proof using Type. by destruct err. Qed.

Lemma put_calm t p (m : gmap nat pc) :
  (forall t p, m !! t = Some p -> calm p = true) -> calm p = true -> forall t' q, put t p m !! t' = Some q -> calm q = true.
Proof using Type. intros H Hp t' q [(_ & -> & _)|[_ Hq]]%put_lookup; [done|by eapply H]. Qed.

(** A goroutine begins outside the lock. *)
Lemma serial_begin w e t p :
  serial w -> w_pcs w !! t = None -> holding p = false /\ calm p = true /\ waiting p = false -> serial (set_pc t p (set_ep e w)).
Proof using Type.
  intros [Hx Hc] Ht (Hh & Hp & Hw). split; [|by apply put_calm]. apply excl_put; [done|simpl; congruence|done|unfold holds_at; simpl; by rewrite Ht].
Qed.

Lemma serial_step w r w' : wstep w r w' -> serial w -> serial w'.
Proof using Type.
  intros Hs S. pose proof S as [Hx Hc]. destruct Hs.
  - done.
  - exact (serial_begin w (w_ep w) t p S H (can_begin_out _ _ H0)).
  - split; [by eapply excl_acquire|]. apply put_calm; [done|by destruct r].
  - pose proof (Hc _ _ H0) as Hcp. destruct (advance_holds _ _ _ _ _ _ H1 Hcp) as (Hh & Hc' & Hw' & Hw).
    split; [|by apply put_calm]. apply excl_put; [done|intros q; simpl; congruence|done|]. unfold holds_at. simpl. by rewrite H0.
  - split; [by eapply excl_unlock|]. apply put_calm; [done|by destruct j, err].
  - split; [by eapply excl_handoff|]. apply put_calm; [|done]. apply put_calm; [done|by destruct j, err].
  - apply serial_begin; [done..|]. destruct err; [apply read_error_out|done].
  - apply serial_begin; [done..|]. destruct err; try done; apply read_error_out.
  - done.
Qed.

(** In every world that can come about: one goroutine at most is between its
    [LockPriority] and its [Unlock], and the queue of the lock holds exactly the
    goroutines that wait. *)
Definition wsteps w w' : Prop := rtc (fun x y => exists r, wstep x r y) w w'.

Lemma holder_unique w t1 p1 t2 p2 :
  serial w -> w_pcs w !! t1 = Some p1 -> w_pcs w !! t2 = Some p2 -> holding p1 = true -> holding p2 = true -> t1 = t2 /\ p1 = p2.
Proof using Type. intros [Hx _] L1 L2 H1 H2. assert (t1 = t2) as -> by (by eapply ex_one). split; [done|congruence]. Qed.

(** A goroutine that leaves can always do so: the lock it releases is free, or
    someone waits on the channel that [Unlock] closes, and has it then. *)
Lemma leaves_progress w t j err :
  serial w -> w_pcs w !! t = Some (Leaves j err) ->
  exists w', wstep w Internal w' /\ forall q, w_pcs w' !! t = Some q -> holding q = false.
Proof using Type.
  intros [Hx _] Ht. assert (Hq : forall q, put t (released j err) (w_pcs w) !! t = Some q -> holding q = false).
  { intros q [(_ & -> & _)|[? _]]%put_lookup; [apply released_out|done]. }
  destruct (Unlock (w_lock w)) as [[ready|] l] eqn:E; [|eexists; split; [by eapply w_unlock|done]].
  destruct (Unlock_hand_inv _ _ _ (ex_lock _ _ Hx) E) as (_ & _ & _ & Hp).
  destruct (proj1 (ex_queued _ _ Hx ready)) as (t' & j' & Ht'); [rewrite Hp; left|]. eexists. split; [by eapply w_handoff|].
  intros q H. simpl in H. apply put_lookup in H as [(-> & _)|[_ H]]; [congruence|by apply Hq].
Qed.

(** Whoever waits, waits for a goroutine that has the lock. *)
Lemma waits_for w t j ready :
  serial w -> w_pcs w !! t = Some (Waits j ready) -> exists t' p, w_pcs w !! t' = Some p /\ holding p = true.
Proof using Type.
  intros [Hx _] Ht. apply (ex_held _ _ Hx). destruct (held (w_lock w)) eqn:E; [done|]. apply (inv_free _ (ex_lock _ _ Hx)) in E.
  assert (H : ready ∈ w_ready <$> waiters (w_lock w)) by (apply (ex_queued _ _ Hx); by exists t, j). rewrite E in H. by apply not_elem_of_nil in H.
Qed.

(** How many steps a goroutine takes at most before it leaves the lock or waits
    for it. *)
Fixpoint steps_left (p : pc) : nat :=
  match p with
  | Flushes fs _ => length fs + 6
  | Writes _ _ => 5
  | Ends _ _ => 4
  | Expires _ => 3
  | Aborts k _ => 2 + steps_left k
  | Cuts k => 1 + steps_left k
  | Leaves _ _ | Shuts _ => 1
  | Wants _ _ | Waits _ _ | Holds _ | Done => 0
  end.

Lemma advance_shorter now p (e : endpoint T) p' e' o :
  advance now p e = Some (p', e', o) -> (forall j, p <> Holds j) -> (steps_left p' < steps_left p)%nat.
Proof using Type.
  assert (Hw : forall j next buf, write_record now j next buf e = Some (p', e', o) -> (exists err, p' = failed j err) \/ exists e1, p' = next e1).
  { intros j next buf. unfold write_record. destruct (writeRecordLocked _ _ _) as [[[] ?]|]; [..|done]; simpl; intros [= <- _ _]; eauto. }
  intros E Hn. destruct p as [| |j|fs buf|j buf| |k err|k|err fr|fr|werr|]; try done; simpl in E.
  - by destruct (Hn j).
  - unfold flush_next in E. destruct fs as [|f fs].
    + injection E as <- _ _. destruct (_ =? _); simpl; lia.
    + destruct (Append f buf) as [b|]; [|done]. simpl in E. destruct (_ <? _); [|injection E as <- _ _; simpl; lia].
      apply Hw in E as [[x ->]|[x ->]]; simpl; lia.
  - apply Hw in E as [[x ->]|[x ->]]; destruct j; simpl; lia.
  - unfold abort_terminate in E. destruct (terminate _ _) as [[] c]; injection E as <- _ _; simpl; lia.
  - injection E as <- _ _. simpl. lia.
  - unfold close_terminate in E. destruct (terminate _ _) as [[] c]; injection E as <- _ _; simpl; lia.
  - injection E as <- _ _. destruct fr; simpl; lia.
  - injection E as <- _ _. simpl. lia.
Qed.
End worlds.
