(* ===== verification/Order.v ===== *)
(** The frames reach the transport in the order in which they are given out.

    The goroutine that holds the write lock takes its frames from the connection,
    and has them on the transport before it leaves; so, as long as the transport
    takes the records, they hold exactly the frames that critical sections have
    given out, in that order, but for those that the goroutine with the lock
    still has. The transport parameters are the first of them, and nothing
    follows a CONNECTION_CLOSE. *)

From stdpp Require Import relations.
From S2P Require Import Prelude Varint Params Frame Heap WriteLock Config State Core Stream Conn System Facts Ids Table Flow Life Control Wake Transport Endpoint Wire LifeTheorems History FrameTheorems EndpointTheorems Grow Refine Sender Api Peers Ahead Settle Goroutines Serial.

(** * What a connection knows of its peer *)

(** It changes once, with the transport parameters. *)
Definition peerv (c : Conn) := (c_ready c, c_peer c).

Lemma peerv_complete p c : peerv (completeLocked p c) = peerv c.
Proof. rewrite completeLocked_eq. cbv zeta. by destruct (completing _). Qed.

Lemma peerv_cancel p e c : peerv (stream_cancel p e c) = peerv c.
Proof. by rewrite stream_cancel_eq. Qed.

Lemma peerv_received n c c' : receivedLocked n c = inl c' -> peerv c' = peerv c.
Proof. unfold receivedLocked. case_match; [done|]. by intros [= <-]. Qed.

Lemma peerv_resetSend p code e c : peerv (resetSendLocked p code e c) = peerv c.
Proof. unfold resetSendLocked. destruct (sendDone _); [done|]. rewrite peerv_complete. etrans; [apply (peerv_cancel p)|done]. Qed.

Lemma peerv_open_loop n d i c : peerv (open_loop n d i c) = peerv c.
Proof. revert c. induction n as [|n IH]; intros c; [done|]. simpl. case_match; [|done]. rewrite IH. by destruct d. Qed.

Lemma peerv_with_stream id recv k c :
  (forall p c1, peerv (k p c1).2 = peerv c1) -> peerv (with_stream id recv k c).2 = peerv c.
Proof.
  intros Hk. unfold with_stream.
  assert (E : peerv (streamLocked id recv c).2 = peerv c).
  { unfold streamLocked. repeat case_match; try done. apply peerv_open_loop. }
  destruct (streamLocked id recv c) as [[[p|]|e] c1]; simpl in *; [by rewrite Hk|done..].
Qed.

Lemma peerv_frame {GA : GoAppend} now f c :
  peerv (handleFrameLocked now f c).2 = peerv c \/ c_ready c = false /\ c_ready (handleFrameLocked now f c).2 = true.
Proof.
  destruct (c_ready c) eqn:Hr.
  2:{ unfold handleFrameLocked. rewrite Hr. destruct f; cbn [negb snd]; try (by left). right. by rewrite handleParametersLocked_eq. }
  left. unfold handleFrameLocked. rewrite Hr. destruct f; cbn [negb snd]; try done.
  - apply peerv_with_stream. intros p c1. unfold reset_frame. repeat case_match; try done. simpl. rewrite peerv_complete.
    match goal with H : receivedLocked _ _ = inl _ |- _ => exact (peerv_received _ _ _ H) end.
  - apply peerv_with_stream. intros p c1. apply peerv_resetSend.
  - apply peerv_with_stream. intros p c1. unfold stream_frame. repeat case_match; try done; simpl; rewrite peerv_complete;
    match goal with H : receivedLocked _ _ = inl _ |- _ => exact (peerv_received _ _ _ H) end.
  - unfold handleMaxData. by destruct (_ <? _).
  - apply peerv_with_stream. intros p c1. by destruct (_ <? _).
  - unfold handleMaxStreams. by destruct Uni, (_ <? _).
  - by destruct Application.
  - unfold handleDatagramLocked. by repeat destruct (_ <? _).
  - unfold handlePingLocked. by repeat case_match.
Qed.

Lemma peerv_exec {GA : GoAppend} o c : ids_inv c -> flow_inv c -> in_range c -> valid o c -> 
  peerv (exec o c) = peerv c \/ c_ready c = false /\ c_ready (exec o c) = true \/ c_closeErr (exec o c) <> None.
Proof.
  intros Hi Hf Hr Hv. destruct (silent o) eqn:Hs.
  - left. destruct (ahead_silent none o c Hi Hf Hr Hs Hv) as [new A]. pose proof (ah_fixed _ _ _ _ A) as E. fixed_eqs E. unfold peerv. congruence.
  - destruct o; try done; simpl.
    + destruct (peerv_frame now f c); auto.
    + left. unfold reserve. by case_match.
    + left. unfold finish. repeat case_match; try done. simpl. rewrite peerv_complete. exact (peerv_cancel p _ _).
    + left. destruct (c_closeErr c) eqn:Hc; [unfold takeControl; by rewrite Hc|]. by rewrite takeControl_eq.
    + right; right. destruct (c_closeErr c) eqn:Hc; [unfold terminate; rewrite Hc; simpl; congruence|].
      destruct (terminate_open e c Hc) as (c' & -> & E). simpl. congruence.
Qed.

Lemma unready_limit {GA : GoAppend} cfg isServer c :
  config_ok cfg -> reach cfg isServer c -> c_closeErr c = None -> c_ready c = false -> datagramLimit c = 0.
Proof.
  intros Hcfg. induction 1 as [now|o c Hc IH Hr Hv]; [done|]. intros Ho Hn.
  assert (Hoc : c_closeErr c = None) by (destruct (c_closeErr c) eqn:E; [|done]; pose proof (exec_closed_err o c _ Hv E); congruence).
  destruct (peerv_exec o c (reach_ids _ _ _ Hcfg Hc) (reach_flow _ _ _ Hcfg Hc) Hr Hv) as [E|[[_ E]|E]]; [|congruence|done].
  unfold peerv in E. injection E as E1 E2. unfold datagramLimit. rewrite E2. apply IH; congruence.
Qed.

(** * A later state of a connection *)

Section onward.
Context {GA : GoAppend}.

(** What a goroutine relies on while others run. *)
Record onward (c c' : Conn) : Prop := {
  lt_held : grown held any_stream c c';
  lt_closed : c_closeErr c <> None -> c_closeErr c' <> None;
  lt_limit : c_closeErr c' = None -> datagramLimit c <> 0 -> datagramLimit c' = datagramLimit c;
}.

#[global] Instance onward_preorder : PreOrder onward.
Proof.
  split; [by intros c|]. intros c1 c2 c3 [A1 A2 A3] [B1 B2 B3]. split; [by etrans|auto|].
  intros Ho Hn. assert (Ho2 : c_closeErr c2 = None) by (destruct (c_closeErr c2) eqn:E; [|done]; exfalso; by apply B2).
  rewrite B3; [by apply A3|done|by rewrite A3].
Qed.

Lemma onward_exec cfg isServer o c : config_ok cfg -> reach cfg isServer c -> in_range c -> valid o c -> onward c (exec o c).
Proof.
  intros Hcfg Hc Hr Hv. split.
  - apply held_exec.
  - intros Hn. destruct (c_closeErr c) as [e|] eqn:E; [|done]. by rewrite (exec_closed_err o c e Hv E).
  - intros Ho Hn.
    assert (Hoc : c_closeErr c = None) by (destruct (c_closeErr c) eqn:E; [|done]; pose proof (exec_closed_err o c _ Hv E); congruence).
    destruct (peerv_exec o c (reach_ids _ _ _ Hcfg Hc) (reach_flow _ _ _ Hcfg Hc) Hr Hv) as [E|[[E _]|E]]; [|exfalso|done].
    + unfold peerv in E. injection E as _ E. unfold datagramLimit. by rewrite E.
    + by apply Hn, (unready_limit cfg isServer).
Qed.

Lemma onward_runs cfg isServer os c c' :
  config_ok cfg -> runs os c c' -> in_range_along os c -> reach cfg isServer c -> reach cfg isServer c' /\ onward c c'.
Proof.
  intros Hcfg. induction 1 as [|o os c c' Hv Hr IH]; [done|]. intros [H1 H2] H.
  destruct (IH H2) as [R L]; [by constructor|]. split; [done|]. etrans; [by eapply onward_exec|exact L].
Qed.
End onward.

(** * What goroutines have in hand *)

(** The frames that fit any peer's records. *)
Definition sendable (f : frame) : Prop := frame_ok f /\ frame_bound f <= DefaultMaxRecordSize.

(** How large a record of a job can be: only a datagram can need more than every
    peer accepts. *)
Definition job_bound (j : job) : Z :=
  match j with JDatagram data => frame_bound (Datagram data) | _ => DefaultMaxRecordSize end.

Definition is_close (f : frame) : bool := match f with ConnectionClose _ _ _ _ => true | _ => false end.

Definition job_ok {V : QuicVarint} (c : Conn) (j : job) : Prop :=
  match j with
  | JParams | JFlush => True
  | JChunk p data => holds_send c p /\ zlen data < 2 ^ 63
  | JFin p => holds_send c p
  | JDatagram data =>
      zlen data < 2 ^ 60 /\
      (c_closeErr c = None -> datagramLimit c <> 0 /\ exists n, Datagram_Len data = Some n /\ n <= datagramLimit c)
  | JClose f => is_close f = true /\ sendable f /\ c_closeErr c <> None
  end.

Definition pc_ok {V : QuicVarint} (c : Conn) (p : pc) : Prop :=
  match p with
  | Wants j _ | Waits j _ | Holds j => job_ok c j
  | Ends _ (Some f) => is_close f = true /\ sendable f
  | Expires (Some f) => is_close f = true /\ sendable f /\ c_closeErr c <> None
  | _ => True
  end.

Section order.
Context {V : QuicVarint} {VL : QuicVarintLaws V} {GA : GoAppend} {T : Type} {RT : RecordTransport T} {RTL : RecordTransportLaws T RT}.
Context (cfg : Config) (isServer : bool) (Hcfg : config_ok cfg).
Implicit Types (e : endpoint T) (w : world T).

Lemma job_onward c c' j : onward c c' -> job_ok c j -> job_ok c' j.
Proof using Type.
  intros [H1 H2 H3]. destruct j; simpl; try done.
  - intros [Hh Hd]. split; [|done]. by apply (handle_kept (ESendStream p) c).
  - by apply (handle_kept (ESendStream p) c).
  - intros [Hd Hn]. split; [done|]. intros Ho.
    assert (Hoc : c_closeErr c = None) by (destruct (c_closeErr c) eqn:E; [|done]; exfalso; by apply H2).
    destruct (Hn Hoc) as (Hz & n & En & Hl). rewrite (H3 Ho Hz). eauto.
  - intros (? & ? & ?). auto.
Qed.

Lemma pc_onward c c' p : onward c c' -> pc_ok c p -> pc_ok c' p.
Proof using Type.
  intros H. destruct p as [j ?|j ?|j| | | | | |? []|[]| |]; simpl; try done; try by apply job_onward. intros (? & ? & ?). split_and!; try done. by apply H.
Qed.

(** The frames that a goroutine has been given and has not written. *)
Inductive has : pc -> list frame -> Prop :=
| has_flushes fs h b gs :
    zlen h = recordHeadroom -> carried gs b -> zlen (h ++ b) <= full -> Forall control_frame fs -> has (Flushes fs (h ++ b)) (gs ++ fs)
| has_writes j h b gs :
    zlen h = recordHeadroom -> carried gs b -> zlen (h ++ b) < 2 ^ 62 -> zlen b <= job_bound j -> has (Writes j (h ++ b)) gs
| has_none p : match p with Flushes _ _ | Writes _ _ => False | _ => True end -> has p [].

(** What a step of a goroutine, which has the frames [fs], does to the endpoint
    [e], whose transport carries the records [rs]. *)
Record outcome e (rs : list bytes) (fs : list frame) (p : pc) e' (o : out) : Prop := {
  oc_reach : reach cfg isServer (e_conn e');
  oc_onward : onward (e_conn e) (e_conn e');
  oc_wbuf : wbuf_ok e';
  oc_carries : is_refusal o = false -> carries (e_tr e) rs -> carries (e_tr e') (rs ++ records_written o);
  oc_pc : pc_ok (e_conn e') p;
  oc_frames : exists gs fs', frames_in (records_written o) gs /\ has p fs' /\
    (is_refusal o = false -> gs ++ (frame_received <$> fs') = frame_received <$> (fs ++ frames_given o));
}.

Lemma endpoint_eta e : mkEndpoint (e_conn e) (e_tr e) (e_wbuf e) (e_forced e) = e.
Proof using Type. by destruct e. Qed.

Lemma set_conn_self e : set_conn (e_conn e) e = e.
Proof using Type. by destruct e. Qed.

Section outcome.
Context (now : Z) (e : endpoint T) (rs : list bytes).
Hypothesis (Hreach : reach cfg isServer (e_conn e)) (Hrange : in_range (e_conn e)).
Hypothesis (Hwbuf : wbuf_ok e).

(** The connection after a critical section. *)
Definition reached (c : Conn) : Prop := reach cfg isServer c /\ onward (e_conn e) c.

Lemma reached_refl : reached (e_conn e).
Proof using Hreach. done. Qed.

Lemma reached_exec o c : valid o (e_conn e) -> exec o (e_conn e) = c -> reached c.
Proof using Hcfg Hreach Hrange. intros Hv <-. split; [by constructor|by eapply onward_exec]. Qed.

(** A step that writes nothing. *)
Lemma outcome_quiet c fs p tr forced o :
  reached c -> pc_ok c p -> records_written o = [] -> has p (fs ++ frames_given o) -> (carries (e_tr e) rs -> carries tr rs) ->
  outcome e rs fs p (mkEndpoint c tr (e_wbuf e) forced) o.
Proof using Hwbuf.
  intros [R L] Hp Hq Hh Hc. split; simpl; try done; rewrite Hq.
  - intros _ Hrs. rewrite app_nil_r. by apply Hc.
  - exists [], (fs ++ frames_given o). split_and!; [by exists []|done|done].
Qed.

(** The goroutine has put one frame in the buffer. *)
Lemma to_write_ok j f c :
  reached c -> frame_ok f -> frame_bound f <= job_bound j < 2 ^ 61 -> exists p e' o, to_write j f (set_conn c e) = Some (p, e', o) /\ outcome e rs [] p e' o.
Proof using VL Hwbuf.
  intros Hc Hf Hb. unfold to_write. simpl. destruct (Append_carried f (e_wbuf e) Hf) as (b & -> & Hcb & Hl). simpl.
  do 3 eexists. split; [done|]. apply outcome_quiet; try done. constructor; try done; [|lia].
  rewrite length_app. unfold wbuf_ok, recordHeadroom in *. lia.
Qed.

(** It has nothing to write. *)
Lemma leaves_ok j c : reached c -> outcome e rs [] (Leaves j None) (set_conn c e) Quiet.
Proof using Hwbuf. intros Hc. apply outcome_quiet; try done. by constructor. Qed.

Lemma enter_chunk_ok p data :
  job_ok (e_conn e) (JChunk p data) -> exists p' e' o, enter_chunk p data e = Some (p', e', o) /\ outcome e rs [] p' e' o.
Proof using VL Hcfg Hreach Hrange Hwbuf.
  intros [Hh Hd]. pose proof (reach_flow _ _ _ Hcfg Hreach) as Hf. assert (Hp : ptr (e_conn e) p) by apply Hh.
  unfold enter_chunk. destruct (reserve p (zlen data) (e_conn e)) as [r c] eqn:E.
  assert (Hc : reached c) by (apply (reached_exec (OpReserve p (zlen data))); [split; [done|lia]|simpl; by rewrite E]).
  destruct r as [[off n]|x]; [|do 3 eexists; split; [done|by apply leaves_ok]].
  destruct (Z.eqb_spec n 0) as [->|Hne]; [do 3 eexists; split; [done|by apply leaves_ok]|].
  destruct (reserve_spec p (zlen data) off n (e_conn e) c Hf Hp ltac:(lia) E) as (-> & Hn & Ho & Hm & _).
  assert (Hlen : zlen (ztake n data) = n) by (rewrite length_take; lia).
  pose proof (id_varint _ p (reach_ids _ _ _ Hcfg Hreach) Hp) as Hid. pose proof (so_send _ _ (fl_stream _ Hf p Hp)). pose proof (so_sendMax _ _ (fl_stream _ Hf p Hp)).
  unfold maxStreamData, DefaultMaxRecordSize, StreamOverhead in Hn. apply to_write_ok; [done|..].
  - simpl. unfold is_varint in *. rewrite Hlen. lia.
  - unfold frame_bound, job_bound, DefaultMaxRecordSize. rewrite Hlen. unfold StreamOverhead. lia.
Qed.

Lemma enter_fin_ok p :
  job_ok (e_conn e) (JFin p) -> exists p' e' o, enter_fin p e = Some (p', e', o) /\ outcome e rs [] p' e' o.
Proof using VL Hcfg Hreach Hrange Hwbuf.
  intros Hh. pose proof (reach_flow _ _ _ Hcfg Hreach) as Hf. assert (Hp : ptr (e_conn e) p) by apply Hh.
  unfold enter_fin. destruct (finish p (e_conn e)) as [r c] eqn:E.
  assert (Hc : reached c) by (apply (reached_exec (OpFinish p)); [done|simpl; by rewrite E]).
  destruct r as [[off|]|x]; [|do 3 eexists; split; [done|by apply leaves_ok]..].
  destruct (finish_result p off _ c Hf Hp E) as [Eo _].
  pose proof (moved_offset _ _ _ (moved_finish p p _ Hf Hp)) as Em. rewrite E in Em. simpl in Em. rewrite Em in Eo.
  pose proof (id_varint _ p (reach_ids _ _ _ Hcfg Hreach) Hp) as Hid. pose proof (so_send _ _ (fl_stream _ Hf p Hp)). pose proof (so_sendMax _ _ (fl_stream _ Hf p Hp)).
  apply to_write_ok; [done|..]; simpl; [unfold is_varint in *; simpl; lia|]. unfold StreamOverhead, DefaultMaxRecordSize. simpl. lia.
Qed.

Lemma enter_flush_ok : exists p' e' o, enter_flush now e = Some (p', e', o) /\ outcome e rs [] p' e' o.
Proof using VL Hcfg Hreach Hrange Hwbuf.
  pose proof (takeControl_frames now _ (reach_ids _ _ _ Hcfg Hreach) (reach_flow _ _ _ Hcfg Hreach) (reach_ctrl _ _ _ Hcfg Hreach) Hrange) as Hfr.
  unfold enter_flush. destruct (takeControl now (e_conn e)) as [fs c] eqn:E. do 3 eexists. split; [done|].
  assert (Hc : reached c) by (apply (reached_exec (OpTakeControl now)); [done|simpl; by rewrite E]).
  apply outcome_quiet; try done. simpl. rewrite <- (app_nil_r (e_wbuf e)). apply (has_flushes fs (e_wbuf e) [] []); try done; [constructor|].
  rewrite app_nil_r, Hwbuf. done.
Qed.

Lemma enter_datagram_ok data :
  job_ok (e_conn e) (JDatagram data) -> exists p' e' o, enter_datagram data e = Some (p', e', o) /\ outcome e rs [] p' e' o.
Proof using VL Hreach Hwbuf.
  intros [Hd _]. unfold enter_datagram. pose proof (leaves_ok (JDatagram data) _ reached_refl) as Hl.
  pose proof (to_write_ok (JDatagram data) (Datagram data) _ reached_refl) as Hw. rewrite set_conn_self in Hl, Hw.
  destruct (cause e); [by do 3 eexists|].
  pose proof (varint_size_range (zlen data)). apply Hw; [unfold frame_ok, is_varint; lia|unfold job_bound, frame_bound; lia].
Qed.

Lemma enter_ok j : job_ok (e_conn e) j -> exists p' e' o, enter now j e = Some (p', e', o) /\ outcome e rs [] p' e' o.
Proof using VL Hcfg Hreach Hrange Hwbuf.
  pose proof (fun j f => to_write_ok j f _ reached_refl) as Hw. rewrite set_conn_self in Hw.
  destruct j as [| |p data|p|data|f]; simpl; intros Hj.
  - pose proof (id_cfg _ (reach_ids _ _ _ Hcfg Hreach)) as Hok. apply Hw; [by apply localParameters_sendable|done].
  - apply enter_flush_ok.
  - by apply enter_chunk_ok.
  - by apply enter_fin_ok.
  - by apply enter_datagram_ok.
  - destruct Hj as (_ & [H1 H2] & _). by apply Hw.
Qed.

(** ** Records *)

Lemma write_record_ok j next h b gs fs :
  zlen h = recordHeadroom -> carried gs b -> zlen (h ++ b) < 2 ^ 62 ->
  (forall e', wbuf_ok e' -> pc_ok (e_conn e') (next e') /\ has (next e') fs) ->
  exists p' e' o, write_record now j next (h ++ b) e = Some (p', e', o) /\ outcome e rs (gs ++ fs) p' e' o.
Proof using VL Hcfg Hreach Hrange Hwbuf.
  intros Hh Hb Hl Hn. unfold write_record, writeRecordLocked. cbn [e_tr set_wbuf].
  assert (Hbuf : recordHeadroom <= zlen (h ++ b) < 2 ^ 62) by (rewrite length_app in *; lia).
  destruct (write_total (h ++ b) (e_tr e) Hbuf) as [[r t] Hw]. rewrite Hw. simpl.
  assert (Hwb : wbuf_ok (set_wbuf (ztake recordHeadroom (h ++ b)) e)).
  { unfold wbuf_ok, recordHeadroom in *. simpl. rewrite length_take. lia. }
  destruct r as [n|x]; simpl; do 3 eexists; (split; [done|]).
  - destruct (Hn (set_conn (record_sent now n (e_conn e)) (set_tr t (set_wbuf (ztake recordHeadroom (h ++ b)) e))) Hwb) as [Hp Hf].
    destruct (reached_exec (OpSent now n) _ I eq_refl) as [R L]. split; try done.
    + intros _ Hc. by eapply write_carries.
    + exists (frame_received <$> gs), fs. split_and!; [|done|intros _; by rewrite app_nil_r, fmap_app].
      exists [frame_received <$> gs]. simpl. rewrite frames_of_app by done. split; [repeat constructor; by apply carried_frames|by rewrite app_nil_r].
  - split; simpl; try done; [by destruct j|]. exists [], []. split_and!; [by exists []|constructor; by destruct j|done].
Qed.

Lemma flush_next_ok fs buf gs :
  has (Flushes fs buf) gs -> exists p' e' o, flush_next now fs buf e = Some (p', e', o) /\ outcome e rs gs p' e' o.
Proof using VL Hcfg Hreach Hrange Hwbuf.
  intros H. inversion H as [fs' h b hs Hh Hb Hf Hall E1 E2|j' h b gs' Hh Hb Hf Hj E1 E2|p' Hp E1 E2]; [|done]. subst. clear H.
  assert (Hq : forall p fs, has p fs -> pc_ok (e_conn e) p -> outcome e rs fs p e Quiet).
  { intros p fs0 H1 H2. pose proof (outcome_quiet (e_conn e) fs0 p (e_tr e) (e_forced e) Quiet reached_refl H2 eq_refl) as H.
    rewrite app_nil_r, endpoint_eta in H. by apply H. }
  destruct Hall as [|f fs [Hok Hsz] Hall]; simpl.
  - rewrite app_nil_r. do 3 eexists. split; [done|]. apply Hq; [|by destruct (_ =? _)]. rewrite length_app.
    destruct (Z.eqb_spec (Z.of_nat (length h + length b)) recordHeadroom) as [E|E].
    + destruct Hb as [|f fs e0 b Hf0 He Hb]; [by constructor|]. pose proof (Append_nonempty f e0 Hf0 He). rewrite length_app in E. lia.
    + rewrite length_app in Hf. unfold full, recordHeadroom, DefaultMaxRecordSize, maxControlFrameSize in *.
      constructor; try done; unfold job_bound, DefaultMaxRecordSize; rewrite ?length_app; lia.
  - destruct (Append_carried f (h ++ b) Hok) as (b1 & -> & Hb1 & Hl). simpl. rewrite <- app_assoc.
    assert (Hbb : carried (hs ++ [f]) (b ++ b1)) by (by apply carried_app).
    assert (E : hs ++ f :: fs = (hs ++ [f]) ++ fs) by (by rewrite <- app_assoc). rewrite E.
    destruct (Z.ltb_spec full (zlen (h ++ b ++ b1))) as [Hlt|Hle].
    + apply write_record_ok; try done.
      * rewrite !length_app in *. unfold full, recordHeadroom, DefaultMaxRecordSize, maxControlFrameSize in *. lia.
      * intros e' W. split; [done|]. rewrite <- (app_nil_r (e_wbuf e')). apply (has_flushes fs (e_wbuf e') [] []); try done; [constructor|]. rewrite app_nil_r, W. done.
    + do 3 eexists. split; [done|]. apply Hq; [|done]. by constructor.
Qed.

(** ** Ending the connection *)

Lemma reached_terminate err : reached (terminate err (e_conn e)).2.
Proof using Hcfg Hreach Hrange. by apply (reached_exec (OpTerminate err)). Qed.

Lemma ending_ok k c : ending k = true -> pc_ok c k /\ has k [].
Proof using Type. by destruct k; try done; intros _; (split; [done|constructor]). Qed.

Lemma abort_terminate_ok k err :
  ending k = true -> exists p' e' o, quiet (abort_terminate k err e) = Some (p', e', o) /\ outcome e rs [] p' e' o.
Proof using Hcfg Hreach Hrange Hwbuf.
  intros Hk. pose proof (reached_terminate err) as Hr. unfold quiet, abort_terminate. destruct (terminate err (e_conn e)) as [ended c]. simpl in *.
  do 3 eexists. split; [done|]. destruct (ending_ok k c Hk) as [H1 H2]. apply outcome_quiet; try done; destruct ended; try done. by constructor.
Qed.

Lemma close_terminate_ok err fr :
  pc_ok (e_conn e) (Ends err fr) -> exists p' e' o, quiet (close_terminate err fr e) = Some (p', e', o) /\ outcome e rs [] p' e' o.
Proof using Hcfg Hreach Hrange Hwbuf.
  intros Hp. pose proof (reached_terminate err) as Hr. unfold quiet, close_terminate.
  assert (Hcl : (terminate err (e_conn e)).1 = true -> c_closeErr (terminate err (e_conn e)).2 <> None).
  { destruct (c_closeErr (e_conn e)) eqn:Hc; [unfold terminate; by rewrite Hc|]. intros _.
    destruct (terminate_open err (e_conn e) Hc) as (c' & -> & E). simpl. congruence. }
  destruct (terminate err (e_conn e)) as [ended c]. simpl in *. do 3 eexists. split; [done|].
  apply outcome_quiet; try done; destruct ended; try done; [|by constructor..].
  destruct fr; [|done]. destruct Hp. simpl. auto.
Qed.

Lemma advance_ok p fs :
  match p with Wants _ _ | Waits _ _ | Leaves _ _ | Done => False | _ => True end ->
  pc_ok (e_conn e) p -> calm p = true -> has p fs ->
  exists p' e' o, advance now p e = Some (p', e', o) /\ outcome e rs fs p' e' o.
Proof using VL Hcfg Hreach Hrange Hwbuf.
  intros Hm Hp Hc Hh.
  assert (Hnil : match p with Flushes _ _ | Writes _ _ => False | _ => True end -> fs = []) by (by inversion Hh; subst).
  assert (Hshut : forall d, (carries (e_tr e) rs -> carries (expire d (e_tr e)) rs) /\
    (carries (e_tr e) rs -> carries (closeWrite (e_tr e)).2 rs) /\ (carries (e_tr e) rs -> carries (close (e_tr e)) rs)).
  { intros d. split_and!; intros H; by apply (shut_carries _ _ d) in H as (? & ? & ?). }
  destruct p as [| |j|fs0 buf|j buf| |k err|k|err fr|fr|werr|]; try done; simpl; try (rewrite (Hnil I) in *; clear Hnil).
  - by apply enter_ok.
  - by apply flush_next_ok.
  - inversion Hh as [|j' h b gs' Hz Hb Hf Hj E1 E2|p' Hp' E1 E2]; [|done]. subst.
    rewrite <- (app_nil_r fs). apply write_record_ok; try done. intros e' _. split; [done|by constructor].
  - by apply abort_terminate_ok.
  - do 3 eexists. split; [done|]. destruct (ending_ok k (e_conn e) Hc) as [H1 H2]. apply outcome_quiet; try done. by apply (Hshut 0).
  - by apply close_terminate_ok.
  - do 3 eexists. split; [done|]. apply outcome_quiet; try done; [..|by apply Hshut]; destruct fr; try done; by constructor.
  - do 3 eexists. split; [done|]. unfold close_shut. destruct werr.
    + apply outcome_quiet; try done; [by constructor|by apply (Hshut 0)].
    + destruct (Hshut 0) as (_ & H2 & _). destruct (closeWrite (e_tr e)) as [half t]. simpl in *.
      destruct half; apply outcome_quiet; try done; try by constructor.
      intros H. apply H2 in H. by apply (shut_carries _ _ 0) in H as (_ & _ & ?).
Qed.
End outcome.

(** * The invariant *)

#[local] Arguments put : simpl never.

Abbreviation w_conn w := (e_conn (w_ep w)).

(** The frames [fs] are with the goroutine that has the lock. *)
Definition in_hand w (fs : list frame) : Prop :=
  (forall t p, w_pcs w !! t = Some p -> holding p = true -> has p fs) /\ (WriteLock.held (w_lock w) = false -> fs = []).

Record wired w : Prop := {
  wi_serial : serial w;
  wi_reach : reach cfg isServer (w_conn w);
  wi_wbuf : wbuf_ok (w_ep w);
  wi_pc t p : w_pcs w !! t = Some p -> pc_ok (w_conn w) p;
  wi_carries : w_refused w = false -> carries (e_tr (w_ep w)) (w_wire w);
  wi_frames : exists gs fs, frames_in (w_wire w) gs /\ in_hand w fs /\
    (w_refused w = false -> gs ++ (frame_received <$> fs) = frame_received <$> w_given w);
}.

(** A goroutine outside the lock shows nothing. *)
Lemma advance_outside now p e p' e' o : advance now p e = Some (p', e', o) -> holding p = false -> o = Quiet.
Proof using Type. destruct p; try done; simpl; unfold quiet; by intros [= _ _ <-]. Qed.

Lemma wired_pcs w c t p :
  wired w -> onward (w_conn w) c -> pc_ok c p -> forall t' q, put t p (w_pcs w) !! t' = Some q -> pc_ok c q.
Proof using Type. intros W L Hp t' q [(_ & -> & _)|[_ Hq]]%put_lookup; [done|]. eapply pc_onward; [exact L|by eapply wi_pc]. Qed.

(** What the goroutine [p] has, and what its step does. *)
Lemma advance_outcome w t now p p' e o fs :
  wired w -> in_range (w_conn w) -> w_pcs w !! t = Some p -> advance now p (w_ep w) = Some (p', e, o) -> in_hand w fs ->
  outcome (w_ep w) (w_wire w) (if holding p then fs else []) p' e o.
Proof using VL Hcfg.
  intros [Hs R B P C _] Hr Ht E [Hh _]. pose proof (se_calm _ Hs _ _ Ht) as Hc.
  assert (Hm : match p with Wants _ _ | Waits _ _ | Leaves _ _ | Done => False | _ => True end) by (by destruct p).
  assert (Hp : has p (if holding p then fs else [])).
  { destruct (holding p) eqn:Hhp; [by eapply Hh|]. apply has_none. by destruct p. }
  destruct (advance_ok now (w_ep w) (w_wire w) R Hr B p _ Hm (P _ _ Ht) Hc Hp) as (p1 & e1 & o1 & E1 & H).
  rewrite E in E1. by injection E1 as <- <- <-.
Qed.

Lemma wired_advance w t now p p' e o :
  wired w -> in_range (w_conn w) -> w_pcs w !! t = Some p -> advance now p (w_ep w) = Some (p', e, o) ->
  wired (note o (set_pc t p' (set_ep e w))).
Proof using VL Hcfg.
  intros W Hr Ht E. pose proof W as [Hs R B P C (gs & fs & Hg & [Hh Hf] & Ho)]. pose proof (se_calm _ Hs _ _ Ht) as Hc.
  assert (S' : serial (note o (set_pc t p' (set_ep e w)))) by (eapply serial_step; [|exact Hs]; by eapply w_advance).
  destruct (advance_outcome w t now p p' e o fs W Hr Ht E (conj Hh Hf)) as [R' L B' C' P' (gs' & fs' & F1 & F2 & F3)].
  destruct (advance_holds _ _ _ _ _ _ E Hc) as (Hhp & _). split; simpl; try done.
  - by eapply wired_pcs.
  - intros [Hw Hn]%orb_false_iff. apply C'; auto.
  - exists (gs ++ gs'), (if holding p then fs' else fs). split_and!; [by apply frames_in_app| |].
    + split; simpl.
      * intros t1 q [(-> & -> & _)|[Hne Hq]]%put_lookup Hhq; [by rewrite <- Hhp, Hhq|].
        destruct (holding p) eqn:Hhp'; [|by eapply Hh]. exfalso. apply Hne. by destruct (holder_unique w t1 q t p Hs Hq Ht Hhq Hhp').
      * intros Hl. destruct (holding p) eqn:Hhp'; [|by apply Hf]. exfalso.
        assert (WriteLock.held (w_lock w) = true); [|congruence]. apply (ex_held _ _ (se_excl _ Hs)). by exists t, p.
    + intros [Hw Hn]%orb_false_iff. specialize (Ho Hw). specialize (F3 Hn). rewrite fmap_app, <- Ho.
      destruct (holding p) eqn:Hhp'.
      * by rewrite <- !app_assoc, F3, fmap_app.
      * apply advance_outside in E as ->; [|done]. simpl in *. rewrite app_nil_r. f_equal. destruct F1 as (hs & H1 & <-). inversion H1. by rewrite app_nil_r.
Qed.

(** A step that moves the connection and the transport, and starts a goroutine
    outside the lock. *)
Lemma wired_begin w e t p :
  wired w -> reach cfg isServer (e_conn e) -> onward (w_conn w) (e_conn e) -> wbuf_ok e ->
  (forall rs, carries (e_tr (w_ep w)) rs -> carries (e_tr e) rs) ->
  w_pcs w !! t = None -> holding p = false /\ calm p = true /\ waiting p = false -> pc_ok (e_conn e) p ->
  wired (set_pc t p (set_ep e w)).
Proof using Type.
  intros W R L B Hc Ht Hp Hok. pose proof W as [Hs _ _ P C (gs & fs & Hg & [Hh Hf] & Ho)]. split; simpl; try done.
  - by apply serial_begin.
  - by eapply wired_pcs.
  - intros Hw. by apply Hc, C.
  - exists gs, fs. split_and!; try done. split; [|done]. simpl.
    intros t1 q [(_ & -> & _)|[_ Hq]]%put_lookup Hhq; [|by eapply Hh]. destruct Hp. congruence.
Qed.

(** A step that starts no goroutine. *)
Lemma wired_ep w e :
  wired w -> reach cfg isServer (e_conn e) -> onward (w_conn w) (e_conn e) -> wbuf_ok e ->
  (forall rs, carries (e_tr (w_ep w)) rs -> carries (e_tr e) rs) -> wired (set_ep e w).
Proof using Type.
  intros W R L B Hc. pose proof W as [Hs _ _ P C (gs & fs & Hg & [Hh Hf] & Ho)]. split; simpl; try done.
  - by destruct Hs.
  - intros t p Hp. eapply pc_onward; [exact L|by eapply P].
  - intros Hw. by apply Hc, C.
  - by exists gs, fs.
Qed.

(** The lock changes hands. *)
Lemma wired_lock w l m :
  wired w -> serial (mkWorld (w_ep w) l m (w_given w) (w_wire w) (w_refused w)) ->
  (forall t p, m !! t = Some p -> pc_ok (w_conn w) p) ->
  (WriteLock.held (w_lock w) = true -> exists t j err, w_pcs w !! t = Some (Leaves j err)) \/ WriteLock.held (w_lock w) = false ->
  (forall t p, m !! t = Some p -> holding p = true -> exists j, p = Holds j) ->
  wired (mkWorld (w_ep w) l m (w_given w) (w_wire w) (w_refused w)).
Proof using Type.
  intros [Hs R B P C (gs & fs & Hg & [Hh Hf] & Ho)] S' P' Hfree Hm. split; simpl; try done.
  assert (fs = []) as ->.
  { destruct (WriteLock.held (w_lock w)); [|by apply Hf]. destruct Hfree as [H|]; [|done].
    destruct (H eq_refl) as (t & j & err & Ht). specialize (Hh _ _ Ht eq_refl). by inversion Hh. }
  exists gs, []. split_and!; try done. split; [|done]. intros t p Hp Hhp. destruct (Hm t p Hp Hhp) as [j ->]. by constructor.
Qed.

Lemma wired_acquire w t j prio r l :
  wired w -> w_pcs w !! t = Some (Wants j prio) -> acquire prio (w_lock w) = (r, l) ->
  wired (set_pc t (match r with None => Holds j | Some ready => Waits j ready end) (set_lock l w)).
Proof using Type.
  intros W Ht E. pose proof W as [Hs R B P C (gs & fs & Hg & [Hh Hf] & Ho)].
  assert (S' : serial (set_pc t (match r with None => Holds j | Some ready => Waits j ready end) (set_lock l w))) by (eapply serial_step; [by eapply w_acquire|done]).
  assert (P' : forall t' q, put t (match r with None => Holds j | Some ready => Waits j ready end) (w_pcs w) !! t' = Some q -> pc_ok (w_conn w) q).
  { eapply wired_pcs; [done..|]. specialize (P _ _ Ht). by destruct r. }
  destruct (WriteLock.held (w_lock w)) eqn:Hl.
  - destruct (acquire_busy prio _ Hl) as (x & m' & Ea & _ & _ & _ & Hl' & _). rewrite E in Ea. injection Ea as -> ->.
    split; try done. exists gs, fs. split_and!; try done. split; simpl; [|congruence].
    intros t1 q [(_ & -> & _)|[_ Hq]]%put_lookup Hhq; [done|by eapply Hh].
  - rewrite acquire_free in E by done. injection E as <- <-. apply (wired_lock w _ _ W S' P'); [by right|].
    intros t1 q [(_ & -> & _)|[_ Hq]]%put_lookup Hhq; [by exists j|]. assert (WriteLock.held (w_lock w) = true); [|congruence].
    apply (ex_held _ _ (se_excl _ Hs)). by exists t1, q.
Qed.

(** Leaving: no one holds the lock, or the goroutine that gets it does. *)
Lemma leaves_alone w t j err t' q :
  serial w -> w_pcs w !! t = Some (Leaves j err) -> put t (released j err) (w_pcs w) !! t' = Some q -> holding q = false.
Proof using Type.
  intros Hs Ht [(_ & -> & _)|[Hne Hq]]%put_lookup; [apply released_out|]. destruct (holding q) eqn:Hh; [|done].
  by destruct Hne; destruct (holder_unique w t' q t (Leaves j err) Hs Hq Ht Hh eq_refl).
Qed.

Lemma released_ok c j err : pc_ok c (released j err).
Proof using Type. by destruct j, err. Qed.

Lemma wired_unlock w t j err l :
  wired w -> w_pcs w !! t = Some (Leaves j err) -> Unlock (w_lock w) = (None, l) -> wired (set_pc t (released j err) (set_lock l w)).
Proof using Type.
  intros W Ht E. pose proof (wi_serial _ W) as Hs. apply (wired_lock w l (put t (released j err) (w_pcs w)) W).
  - by apply (serial_step w Internal (set_pc t (released j err) (set_lock l w))); [eapply w_unlock|].
  - eapply wired_pcs; [done..|apply released_ok].
  - left. intros _. by exists t, j, err.
  - intros t1 q Hq Hhq. simpl in Hq. rewrite (leaves_alone w t j err t1 q) in Hhq; done.
Qed.

Lemma wired_handoff w t j err l ready t' j' :
  wired w -> w_pcs w !! t = Some (Leaves j err) -> Unlock (w_lock w) = (Some ready, l) -> w_pcs w !! t' = Some (Waits j' ready) ->
  wired (set_pc t' (Holds j') (set_pc t (released j err) (set_lock l w))).
Proof using Type.
  intros W Ht E Ht'. pose proof (wi_serial _ W) as Hs. apply (wired_lock w l (put t' (Holds j') (put t (released j err) (w_pcs w))) W).
  - by apply (serial_step w Internal (set_pc t' (Holds j') (set_pc t (released j err) (set_lock l w)))); [eapply w_handoff|].
  - intros t1 q [(_ & -> & _)|[_ Hq]]%put_lookup; [exact (wi_pc _ W _ _ Ht')|].
    eapply (wired_pcs w (w_conn w)); [done..|apply released_ok|exact Hq].
  - left. intros _. by exists t, j, err.
  - intros t1 q [(_ & -> & _)|[_ Hq]]%put_lookup Hhq; [by exists j'|]. simpl in Hq. rewrite (leaves_alone w t j err t1 q) in Hhq; done.
Qed.

(** ** Reading *)

(** The frames of a record are handled up to the first that fails. *)
Lemma record_runs now fuel n rec c :
  zlen rec < 2 ^ 62 -> (length rec < fuel)%nat -> (length rec <= n)%nat ->
  exists fs, fs `prefix_of` (split_record n rec).1 /\ runs (OpFrame now <$> fs) c (record_loop fuel now rec c).2.
Proof using VL.
  revert n rec c. induction fuel as [|fuel IH]; intros n rec c Hl Hf Hn; [lia|].
  assert (Hnil : exists fs, fs `prefix_of` (split_record n rec).1 /\ runs (OpFrame now <$> fs) c c) by (exists []; split; [apply prefix_nil|constructor]).
  simpl. destruct (_ && _) eqn:Eb; [|done]. apply andb_true_iff in Eb as [Eb Hc%bool_decide_eq_true].
  destruct rec as [|x rec]; [done|]. destruct n as [|n]; [simpl in Hn; lia|]. simpl split_record in Hnil |- *.
  destruct (Parse (x :: rec)) as [|f rest|err] eqn:Ep; [done| |done].
  destruct (Parse_inv _ _ _ Ep) as (Hpf & d & Hrec & Hd & Hfd).
  assert (Hrest : (length rest < length (x :: rec))%nat) by (rewrite Hrec, length_app; lia).
  assert (Hv : valid (OpFrame now f) c) by (split_and!; try done; unfold is_varint; lia).
  rewrite (surjective_pairing (split_record n rest)). cbn [fst].
  destruct (handleFrameLocked now f c) as [[e|] c1] eqn:Eh; simpl.
  - exists [f]. split; [apply prefix_cons, prefix_nil|]. simpl. replace c1 with (exec (OpFrame now f) c) by (simpl; by rewrite Eh). by apply runs_one.
  - destruct (IH n rest c1) as (fs & Hp & Hr); [lia..|]. exists (f :: fs). split; [by apply prefix_cons|]. simpl. constructor; [done|]. simpl. by rewrite Eh.
Qed.

Lemma in_range_prefix os os' c : os `prefix_of` os' -> in_range_along os' c -> in_range_along os c.
Proof using Type. intros [k ->]. revert c. induction os as [|o os IH]; intros c; [done|]. intros [H1 H2]. split; [done|by apply IH]. Qed.

Lemma record_reached now rec c err c' :
  zlen rec < 2 ^ 62 -> reach cfg isServer c -> in_range_record now rec c ->
  handleRecord now rec (record_received now (zlen rec) c) = (err, c') -> reach cfg isServer c' /\ onward c c'.
Proof using VL Hcfg.
  intros Hl R [H1 H2] E. destruct (record_runs now (S (length rec)) (length rec) rec (record_received now (zlen rec) c) Hl ltac:(lia) ltac:(lia))
    as (fs & Hp & Hr). unfold handleRecord in E. rewrite E in Hr. cbn [snd] in Hr.
  eapply (onward_runs cfg isServer (OpReceived now (zlen rec) :: (OpFrame now <$> fs))); [done|by constructor| |done].
  split; [done|]. eapply in_range_prefix; [|exact H2]. destruct Hp as [k ->]. rewrite fmap_app. by exists (OpFrame now <$> k).
Qed.

Lemma close_sendable app code reason : is_varint code -> zlen reason <= maxReasonLength -> sendable (ConnectionClose app code 0 reason).
Proof using Type.
  apply close_frame_ok.
Qed.

Lemma read_error_ok err c : error_ok (Some err) -> pc_ok c (read_error err).
Proof using Type.
  intros H. destruct err; try done. simpl. split; [done|].
  apply close_sendable; [exact H|]. by apply reason_bound.
Qed.

Lemma can_begin_ok p c : can_begin p c -> pc_ok c p.
Proof using Type.
  destruct p as [j prio| | | | | | | |err fr| | |]; try done.
  - destruct j; simpl; try done; try tauto.
  - destruct fr as [f|]; [|done]. destruct f; try done. simpl. intros (H1 & -> & H3). split; [done|]. by apply close_sendable.
Qed.

Lemma wired_step w r w' : wstep w r w' -> wired w -> wired w'.
Proof using VL Hcfg.
  intros Hs W. pose proof (wi_reach _ W) as R. pose proof (wi_wbuf _ W) as B.
  destruct Hs as [o Hr Ho Hv|t p Ht Hb|t j prio r l Ht E|t now p p' e o Hr Ht E|t j err l Ht E|t j err l ready t' j' Ht E Ht'|
    now rec tr err c t Erd Hl Eh Hr Ht|err tr t Erd Her Ht|now e E].
  - apply wired_ep; try done; [by constructor|by eapply onward_exec].
  - pose proof (can_begin_ok _ _ Hb) as Hp. apply (wired_begin w (w_ep w)); try done. by eapply can_begin_out.
  - by eapply wired_acquire.
  - by eapply wired_advance.
  - by apply wired_unlock.
  - by eapply wired_handoff.
  - destruct (record_reached now rec _ err c Hl R Hr Eh) as [R' L]. apply wired_begin; try done.
    + intros rs Hc. by eapply read_carries.
    + destruct err; [apply read_error_out|done].
    + destruct err as [err|]; [|done]. apply read_error_ok. pose proof (record_error now (S (length rec)) rec (record_received now (zlen rec) (w_conn w))) as H.
      unfold handleRecord in Eh. by rewrite Eh in H.
  - apply wired_begin; try done.
    + intros rs Hc. by eapply read_carries.
    + destruct err; try done; apply read_error_out.
    + destruct err; try done. apply read_error_ok. simpl. by rewrite Her.
  - unfold force_close in E. destruct (e_forced (w_ep w)) as [d|]; [|done]. destruct (_ <=? _); [|done]. injection E as <-.
    apply wired_ep; try done. intros rs Hc. by apply (shut_carries _ _ 0) in Hc as (_ & _ & ?).
Qed.

Lemma new_world_wired tr now : carries tr [] -> wired (new_world tr cfg isServer now).
Proof using Type.
  intros Hc. split.
  - apply new_world_serial.
  - apply reach_init.
  - done.
  - intros t p. simpl. rewrite lookup_singleton_Some. by intros [_ <-].
  - done.
  - exists [], []. split_and!; [by exists []| |done]. split; [|done]. intros t p. simpl. rewrite lookup_singleton_Some.
    intros [_ <-] _. by constructor.
Qed.

(** * The first and the last frame *)

(** The job of a goroutine that has not entered its critical section. *)
Definition before (p : pc) : option job :=
  match p with Wants j _ | Waits j _ | Holds j => Some j | _ => None end.

(** The goroutine is going to give out a CONNECTION_CLOSE. *)
Definition closer (p : pc) : bool :=
  match p with
  | Expires (Some _) => true
  | _ => match before p with Some (JClose _) => true | _ => false end
  end.

Record proper w : Prop := {
  pr_first :
    (w_given w = [] /\ exists t, w_pcs w !! t = Some (Holds JParams)) \/
    exists gs, w_given w = TransportParameters (localParameters cfg) :: gs;
  pr_params t p : w_pcs w !! t = Some p -> before p = Some JParams -> p = Holds JParams /\ w_given w = [];
  pr_one t1 p1 t2 p2 :
    w_pcs w !! t1 = Some p1 -> w_pcs w !! t2 = Some p2 -> closer p1 = true -> closer p2 = true -> t1 = t2;
  pr_last : exists gs, Forall (fun f => is_close f = false) gs /\
    (w_given w = gs \/
     exists f, w_given w = gs ++ [f] /\ is_close f = true /\ c_closeErr (w_conn w) <> None /\
       forall t p, w_pcs w !! t = Some p -> closer p = false);
}.

(** A step that gives nothing out and makes no one a closer. *)
Lemma proper_keep w w' :
  proper w -> w_given w' = w_given w -> onward (w_conn w) (w_conn w') ->
  (forall t, w_pcs w !! t = Some (Holds JParams) -> w_pcs w' !! t = Some (Holds JParams)) ->
  (forall t q, w_pcs w' !! t = Some q -> before q = Some JParams -> w_pcs w !! t = Some q) ->
  (forall t q, w_pcs w' !! t = Some q -> closer q = true -> exists q', w_pcs w !! t = Some q' /\ closer q' = true) ->
  proper w'.
Proof using Type.
  intros [P1 P2 P3 (gs & Hgs & P4)] Hg L H1 H2 H3. split; rewrite ?Hg.
  - destruct P1 as [[E (t & Ht)]|P1]; [left; split; [done|]; exists t; auto|by right].
  - intros t p Hp Hb. apply (P2 t); auto.
  - intros t1 p1 t2 p2 L1 L2 C1 C2. destruct (H3 _ _ L1 C1) as (q1 & ? & ?), (H3 _ _ L2 C2) as (q2 & ? & ?). by eapply P3.
  - exists gs. split; [done|]. destruct P4 as [->|(f & -> & Hf & Hc & Hn)]; [by left|right]. exists f. split_and!; try done; [by apply L|].
    intros t p Hp. destruct (closer p) eqn:E; [|done]. destruct (H3 _ _ Hp E) as (q & Hq & Hcq). by rewrite (Hn _ _ Hq) in Hcq.
Qed.

(** The same for a step of the goroutine [t], from [p] to [p']. *)
Lemma proper_put w w' t p' :
  proper w -> w_given w' = w_given w -> onward (w_conn w) (w_conn w') -> w_pcs w' = put t p' (w_pcs w) ->
  w_pcs w !! t <> Some (Holds JParams) -> before p' <> Some JParams ->
  (closer p' = true -> exists p, w_pcs w !! t = Some p /\ closer p = true) -> proper w'.
Proof using Type.
  intros P Hg L E Ht Hb Hc. apply (proper_keep w); [done..| | |]; rewrite E.
  - intros u Hu. apply put_lookup. right. split; [|done]. intros ->. congruence.
  - intros u q [(-> & -> & _)|[_ Hq]]%put_lookup Hj; [congruence|done].
  - intros u q [(-> & -> & _)|[_ Hq]]%put_lookup Hj; [auto|by exists q].
Qed.

(** The frames that a critical section gives out. *)
Lemma control_not_close now c : ctrl_inv c -> Forall (fun f => is_close f = false) (takeControl now c).1.
Proof using Type.
  intros H. destruct (c_closeErr c) eqn:Ec; [by unfold takeControl; rewrite Ec|]. rewrite takeControl_eq by done. cbn [fst]. apply Forall_app_2.
  - eapply list.Forall_impl; [apply (ct_queue _ H)|]. by intros [].
  - repeat apply Forall_app_2; by apply Forall_when.
Qed.

Lemma to_write_gives j f e p e' o :
  to_write j f e = Some (p, e', o) -> e' = e /\ frames_given o = [f] /\ before p = None /\ closer p = false.
Proof using Type. unfold to_write. destruct (append_frames _ _); [|done]. simpl. by intros [= <- <- <-]. Qed.

Lemma enter_gives now j e p e' o :
  reach cfg isServer (e_conn e) -> enter now j e = Some (p, e', o) -> before p = None /\ closer p = false /\
  match j with
  | JParams => frames_given o = [TransportParameters (localParameters (c_config (e_conn e)))]
  | JClose f => frames_given o = [f]
  | _ => Forall (fun f => is_close f = false) (frames_given o) /\ (c_closeErr (e_conn e) <> None -> frames_given o = [])
  end.
Proof using Hcfg.
  intros R E.
  assert (Hclosed : forall x, c_closeErr (e_conn e) = Some x -> refuses x (e_conn e)) by (intros x; apply closed_refuses).
  destruct j as [| |q data|q|data|f]; simpl in E.
  - by apply to_write_gives in E as (_ & -> & -> & ->).
  - unfold enter_flush in E. pose proof (control_not_close now _ (reach_ctrl _ _ _ Hcfg R)) as Hn.
    assert (Hc : c_closeErr (e_conn e) <> None -> (takeControl now (e_conn e)).1 = []) by (unfold takeControl; by destruct (c_closeErr _)).
    destruct (takeControl now (e_conn e)) as [fs c]. by injection E as <- _ <-.
  - unfold enter_chunk in E. assert (Hc : c_closeErr (e_conn e) <> None -> exists x, (reserve q (zlen data) (e_conn e)).1 = inr x).
    { destruct (c_closeErr _) as [x|]; [|done]. intros _. destruct (Hclosed x eq_refl) as (_ & H & _). destruct (H q 0 (zlen data)) as (_ & -> & _). by exists x. }
    destruct (reserve q (zlen data) (e_conn e)) as [[[off n]|x] c]; [|by injection E as <- _ <-].
    destruct (n =? 0); [by injection E as <- _ <-|]. apply to_write_gives in E as (_ & -> & -> & ->). split_and!; [done..|by repeat constructor|].
    intros Hn. by destruct (Hc Hn).
  - unfold enter_fin in E. assert (Hc : c_closeErr (e_conn e) <> None -> exists x, (finish q (e_conn e)).1 = inr x).
    { destruct (c_closeErr _) as [x|]; [|done]. intros _. destruct (Hclosed x eq_refl) as (_ & H & _). destruct (H q 0 0) as (_ & _ & ->). by exists x. }
    destruct (finish q (e_conn e)) as [[[off|]|x] c]; [|by injection E as <- _ <-..].
    apply to_write_gives in E as (_ & -> & -> & ->). split_and!; [done..|by repeat constructor|]. intros Hn. by destruct (Hc Hn).
  - unfold enter_datagram, cause in E. rewrite (lf_cause _ (reach_life _ _ _ Hcfg R)) in E. destruct (c_closeErr (e_conn e)); [by injection E as <- _ <-|].
    apply to_write_gives in E as (_ & -> & -> & ->). split_and!; [done..|by repeat constructor|done].
  - by apply to_write_gives in E as (_ & -> & -> & ->).
Qed.

(** The other steps give nothing out, and only [closeGracefully] makes a
    closer. *)
Lemma ending_before k : ending k = true -> before k = None /\ closer k = false.
Proof using Type. by destruct k. Qed.

Lemma write_record_gives now j next buf e p e' o :
  write_record now j next buf e = Some (p, e', o) -> (forall e, before (next e) = None /\ closer (next e) = false) ->
  frames_given o = [] /\ before p = None /\ closer p = false.
Proof using Type.
  unfold write_record. destruct (writeRecordLocked _ _ _) as [[[] ?]|]; [..|done]; simpl; intros [= <- _ <-] Hn; split; try done. by destruct j.
Qed.

Lemma advance_gives now p e p' e' o :
  advance now p e = Some (p', e', o) -> calm p = true ->
  match p with
  | Holds _ => True
  | Ends _ _ => frames_given o = [] /\ before p' = None /\ (closer p' = true -> c_closeErr (e_conn e) = None)
  | _ => frames_given o = [] /\ before p' <> Some JParams /\ (closer p' = true -> closer p = true)
  end.
Proof using Type.
  intros E Hc. destruct p as [| |j|fs buf|j buf| |k err|k|err fr|fr|werr|]; try done; simpl in E.
  - unfold flush_next in E. destruct fs as [|f fs].
    + injection E as <- _ <-. by destruct (_ =? _).
    + destruct (Append f buf) as [b|]; [|done]. simpl in E. destruct (_ <? _); [|by injection E as <- _ <-].
      apply write_record_gives in E as (-> & -> & ->); done.
  - apply write_record_gives in E as (-> & -> & ->); done.
  - destruct (ending_before k Hc) as [H1 H2]. unfold abort_terminate in E. destruct (terminate _ _) as [[] c]; injection E as <- _ <-; simpl; [done|].
    split_and!; congruence.
  - destruct (ending_before k Hc) as [H1 H2]. injection E as <- _ <-. split_and!; try done; congruence.
  - unfold close_terminate in E.
    assert (Ho : (terminate err (e_conn e)).1 = true -> c_closeErr (e_conn e) = None).
    { destruct (c_closeErr (e_conn e)) as [x|] eqn:Ec; [|done]. destruct (closed_refuses x _ Ec) as (_ & _ & _ & _ & ->). done. }
    destruct (terminate err (e_conn e)) as [[] c]; injection E as <- _ <-; try done. simpl in Ho. split_and!; auto.
  - injection E as <- _ <-. by destruct fr.
  - by injection E as <- _ <-.
Qed.

(** Closers have ended the connection. *)
Lemma closer_closed w t p : wired w -> w_pcs w !! t = Some p -> closer p = true -> c_closeErr (w_conn w) <> None.
Proof using Type.
  intros W Ht Hc. pose proof (wi_pc _ W _ _ Ht) as Hp.
  destruct p as [[]|[]|[]| | | | | | |[]| |]; try done; simpl in Hp; tauto.
Qed.

(** A goroutine enters its critical section. *)
Lemma proper_enter w t now j p e o :
  wired w -> proper w -> w_pcs w !! t = Some (Holds j) -> onward (w_conn w) (e_conn e) -> enter now j (w_ep w) = Some (p, e, o) ->
  proper (note o (set_pc t p (set_ep e w))).
Proof using Hcfg.
  intros W P Ht L E. pose proof (wi_serial _ W) as Hs. pose proof (wi_reach _ W) as R. pose proof P as [P1 P2 P3 (gs & Hgs & P4)].
  destruct (enter_gives now j (w_ep w) p e o R E) as (Hb & Hc & Hg).
  assert (Hother : forall t' q, put t p (w_pcs w) !! t' = Some q -> before q <> None \/ closer q = true -> t' <> t /\ w_pcs w !! t' = Some q).
  { intros t' q [(_ & -> & _)|H]%put_lookup Hq; [|done]. destruct Hq; congruence. }
  assert (Hbeg : j = JParams \/ exists gs, w_given w = TransportParameters (localParameters cfg) :: gs).
  { destruct P1 as [[_ (t' & Ht')]|H]; [left|by right]. by destruct (holder_unique w t _ t' _ Hs Ht Ht' eq_refl eq_refl) as [_ [= ->]]. }
  split; simpl.
  - right. destruct Hbeg as [->|(hs & ->)]; [|by eexists]. destruct (P2 _ _ Ht eq_refl) as [_ ->]. rewrite Hg. simpl.
    exists []. by rewrite (reach_config cfg isServer _ Hcfg R).
  - intros t' q Hq Hj. destruct (Hother t' q Hq) as [Hne Hq']; [left; congruence|]. destruct (P2 _ _ Hq' Hj) as [-> _]. exfalso.
    by destruct Hne; destruct (holder_unique w t' _ t _ Hs Hq' Ht eq_refl eq_refl).
  - intros t1 p1 t2 p2 L1 L2 C1 C2. destruct (Hother _ _ L1) as [_ ?], (Hother _ _ L2) as [_ ?]; auto. by eapply P3.
  - assert (Hno : Forall (fun f => is_close f = false) (frames_given o) ->
      (c_closeErr (w_conn w) <> None -> frames_given o = [] \/ w_given w = []) ->
      exists gs, Forall (fun f => is_close f = false) gs /\ (w_given w ++ frames_given o = gs \/
        exists f, w_given w ++ frames_given o = gs ++ [f] /\ is_close f = true /\ c_closeErr (e_conn e) <> None /\
          forall t' q, put t p (w_pcs w) !! t' = Some q -> closer q = false)).
    { intros Hn Hcl. destruct P4 as [E4|(f & E4 & Hf & Ho & Hnc)].
      - exists (gs ++ frames_given o). split; [by apply Forall_app_2|left; by rewrite E4].
      - exists gs. split; [done|right]. exists f. rewrite E4. destruct (Hcl Ho) as [->|E0]; [|rewrite E4 in E0; by destruct gs].
        rewrite app_nil_r. split_and!; try done; [by apply L|]. intros t' q Hq. destruct (closer q) eqn:Eq; [|done].
        destruct (Hother t' q Hq) as [_ Hq']; [by right|]. by rewrite (Hnc _ _ Hq') in Eq. }
    destruct j; try (apply Hno; [apply Hg|intros Ho; left; by apply Hg]).
    + apply Hno; [rewrite Hg; by repeat constructor|]. intros _. right. by apply (P2 _ _ Ht).
    + rewrite Hg. pose proof (wi_pc _ W _ _ Ht) as (Hf & _ & Ho). exists (w_given w). destruct P4 as [->|(f' & _ & _ & _ & Hnc)].
      * split; [done|right]. exists f. split_and!; try done; [by apply L|]. intros t' q Hq. destruct (closer q) eqn:Eq; [|done]. exfalso.
        destruct (Hother t' q Hq) as [Hne Hq']; [by right|]. apply Hne. by eapply P3.
      * by specialize (Hnc _ _ Ht).
Qed.

(** [closeGracefully] ends the connection: no one is to close it, or has. *)
Lemma proper_ends w t p e :
  wired w -> proper w -> before p = None -> c_closeErr (w_conn w) = None -> w_pcs w !! t <> Some (Holds JParams) ->
  proper (note Quiet (set_pc t p (set_ep e w))).
Proof using Type.
  intros W [P1 P2 P3 (gs & Hgs & P4)] Hb Ho Ht.
  assert (Hn : forall t' q, put t p (w_pcs w) !! t' = Some q -> closer q = true -> t' = t).
  { intros t' q [(-> & _)|[_ Hq]]%put_lookup Hc; [done|]. by destruct (closer_closed w t' q W Hq Hc). }
  split; simpl; rewrite ?app_nil_r.
  - destruct P1 as [[E (t' & Ht')]|P1]; [left|by right]. split; [done|]. exists t'. apply put_lookup. right. split; [|done]. intros ->. congruence.
  - intros t' q [(_ & -> & _)|[_ Hq]]%put_lookup Hj; [congruence|by eapply P2].
  - intros t1 p1 t2 p2 L1 L2 C1 C2. rewrite (Hn _ _ L1 C1). by rewrite (Hn _ _ L2 C2).
  - exists gs. split; [done|]. destruct P4 as [?|(f & _ & _ & Hc & _)]; [by left|done].
Qed.

Lemma proper_advance w t now p p' e o :
  wired w -> proper w -> in_range (w_conn w) -> w_pcs w !! t = Some p -> advance now p (w_ep w) = Some (p', e, o) ->
  onward (w_conn w) (e_conn e) -> proper (note o (set_pc t p' (set_ep e w))).
Proof using Hcfg.
  intros W P Hr Ht E L. pose proof (se_calm _ (wi_serial _ W) _ _ Ht) as Hc. pose proof (advance_gives now p (w_ep w) p' e o E Hc) as Hg.
  assert (Hsame : w_pcs w !! t <> Some (Holds JParams) -> frames_given o = [] -> before p' <> Some JParams ->
    (closer p' = true -> closer p = true) -> proper (note o (set_pc t p' (set_ep e w)))).
  { intros Hn Hf Hb Hcl. apply (proper_put w _ t p'); try done; [simpl; by rewrite Hf, app_nil_r|]. intros H. exists p. auto. }
  destruct p as [| |j|fs buf|j buf| |k err|k|err fr|fr|werr|]; try done; try (destruct Hg as (H1 & H2 & H3); apply Hsame; congruence || done).
  - by eapply proper_enter.
  - destruct Hg as (H1 & H2 & H3). destruct (closer p') eqn:Ep; [|apply Hsame; congruence].
    apply advance_outside in E as ->; [|done]. apply proper_ends; auto. congruence.
Qed.

Lemma proper_step w r w' : wstep w r w' -> wired w -> proper w -> proper w'.
Proof using VL Hcfg.
  intros Hs W P. pose proof (wi_reach _ W) as R.
  assert (Hfresh : forall t, w_pcs w !! t = None -> w_pcs w !! t <> Some (Holds JParams)) by (intros; congruence).
  destruct Hs as [o Hr Ho Hv|t p Ht Hb|t j prio r l Ht E|t now p p' e o Hr Ht E|t j err l Ht E|t j err l ready t' j' Ht E Ht'|
    now rec tr err c t Erd Hl Eh Hr Ht|err tr t Erd Her Ht|now e E].
  - apply (proper_keep w); try done; [by eapply onward_exec|]. eauto.
  - apply (proper_put w _ t p); auto; try done; destruct p as [[]| | | | | | | | | | |]; done.
  - assert (Hj : j <> JParams) by (intros ->; by destruct (pr_params _ P _ _ Ht eq_refl)).
    apply (proper_put w _ t (match r with None => Holds j | Some ready => Waits j ready end)); try done; [congruence|destruct r; simpl; congruence|].
    intros Hc. exists (Wants j prio). split; [done|]. by destruct r.
  - eapply proper_advance; try done. destruct (wi_frames _ W) as (gs & fs & _ & Hf & _). by eapply oc_onward, advance_outcome.
  - apply (proper_put w _ t (released j err)); try done; [congruence|by destruct j, err|by destruct j, err].
  - assert (Hj : j' <> JParams) by (intros ->; by destruct (pr_params _ P _ _ Ht' eq_refl)).
    apply (proper_put (set_pc t (released j err) (set_lock l w)) _ t' (Holds j')); try done; simpl.
    + apply (proper_put w _ t (released j err)); try done; [congruence|by destruct j, err|by destruct j, err].
    + intros [(_ & Hq & _)|[_ Hq]]%put_lookup; [by destruct j, err|congruence].
    + congruence.
    + intros Hc. exists (Waits j' ready). split; [|done]. apply put_lookup. right. split; [|done]. intros ->. congruence.
  - apply (proper_put w _ t (match err with Some err => read_error err | None => Done end)); auto; try done.
    + by destruct (record_reached now rec _ err c Hl R Hr Eh).
    + destruct err as [[]|]; done.
    + destruct err as [[]|]; done.
  - apply (proper_put w _ t (match err with ErrWire _ => read_error err | _ => read_quit (ErrTransportClosed err) end)); auto; try done; by destruct err.
  - unfold force_close in E. destruct (e_forced (w_ep w)) as [d|]; [|done]. destruct (_ <=? _); [|done]. injection E as <-.
    apply (proper_keep w); try done. eauto.
Qed.

Lemma new_world_proper tr now : proper (new_world tr cfg isServer now).
Proof using Type.
  split; simpl.
  - left. split; [done|]. exists 0%nat. apply lookup_singleton_eq.
  - intros t p. rewrite lookup_singleton_Some. by intros [_ <-].
  - intros t1 p1 t2 p2. rewrite !lookup_singleton_Some. by intros [<- _] [<- _].
  - exists []. split; [constructor|by left].
Qed.

Lemma wsteps_proper w w' : wsteps w w' -> wired w -> proper w -> wired w' /\ proper w'.
Proof using VL Hcfg.
  induction 1 as [|x y z [r H] _ IH]; [done|]. intros W P. apply IH; [by eapply wired_step|by eapply proper_step].
Qed.

(** * Properties *)

Section runs.
Context (tr : T) (now0 : Z) (Htr : carries tr []).

(** The worlds that can come about. *)
Definition world_of w : Prop := wsteps (new_world tr cfg isServer now0) w.

Lemma world_wired w : world_of w -> wired w /\ proper w.
Proof using VL Hcfg Htr. intros H. eapply wsteps_proper; [exact H|by apply new_world_wired|apply new_world_proper]. Qed.

(** Whether a goroutine has the lock. *)
Definition busy w : Prop := exists t p, w_pcs w !! t = Some p /\ holding p = true.

(** C7: the records hold the frames in the order in which they were given out.
    In every interleaving of the goroutines of an endpoint, of those of the
    application and of the timers, at most one goroutine is between its
    [LockPriority] and its [Unlock]; and as long as the transport takes the
    records, it carries exactly the frames that the critical sections on
    [Conn.mu] have given out, in the order of those sections, but for those that
    the goroutine in the lock has still to write: nothing is lost, repeated,
    reordered or interleaved, as the comment on [writeMu] promises. *)
Theorem records_in_order w :
  world_of w ->
  (forall t1 p1 t2 p2, w_pcs w !! t1 = Some p1 -> w_pcs w !! t2 = Some p2 ->
    holding p1 = true -> holding p2 = true -> t1 = t2) /\
  (w_refused w = false -> carries (e_tr (w_ep w)) (w_wire w) /\ exists gs fs,
    frames_in (w_wire w) gs /\ gs ++ (frame_received <$> fs) = frame_received <$> w_given w /\
    (~ busy w -> fs = [])).
Proof using VL Hcfg Htr.
  intros H. destruct (world_wired w H) as [[Hs _ _ _ C (gs & fs & Hg & [_ Hf] & Ho)] _]. split.
  - intros t1 p1 t2 p2 L1 L2 H1 H2. by destruct (holder_unique w t1 p1 t2 p2 Hs L1 L2 H1 H2).
  - intros Hr. split; [by apply C|]. exists gs, fs. split_and!; try done; [by apply Ho|]. intros Hb. apply Hf.
    destruct (WriteLock.held (w_lock w)) eqn:E; [|done]. exfalso. by apply Hb, (ex_held _ _ (se_excl _ Hs)).
Qed.

(** C8: the first frame and the last one. In every interleaving, as long as the
    transport has refused no record, the first frame that the peer gets is the transport parameters of the configuration, and a
    CONNECTION_CLOSE frame is the last one: no goroutine, whatever it was about
    to write when the connection was closed, writes another frame after it. *)
Theorem first_and_last_frame w :
  world_of w -> w_refused w = false ->
  exists gs, carries (e_tr (w_ep w)) (w_wire w) /\ frames_in (w_wire w) gs /\
    (forall f, gs !! 0%nat = Some f -> f = TransportParameters (params_received (localParameters cfg))) /\
    (forall i f, gs !! i = Some f -> is_close f = true -> S i = length gs).
Proof using VL Hcfg Htr.
  intros H Hr. destruct (world_wired w H) as [[Hs _ _ _ C (gs & fs & Hg & _ & Ho)] [P1 _ _ (hs & Hhs & P4)]].
  specialize (Ho Hr). exists gs. split_and!; [by apply C|done|..].
  - intros f Hf. apply (lookup_app_l_Some _ (frame_received <$> fs)) in Hf. rewrite Ho in Hf.
    destruct P1 as [[E _]|(ks & E)]; rewrite E in Hf; simpl in Hf; [done|congruence].
  - intros i f Hi Hf. pose proof (lookup_lt_Some _ _ _ Hi) as Hlt. apply (lookup_app_l_Some _ (frame_received <$> fs)) in Hi. rewrite Ho in Hi.
    apply list_lookup_fmap_Some in Hi as (f0 & -> & Hi).
    assert (Hc : is_close f0 = true) by (by destruct f0 as [| | | | | | |[]| | |]).
    assert (Hlen : length (gs ++ (frame_received <$> fs)) = length (w_given w)) by (by rewrite Ho, length_fmap). rewrite length_app in Hlen.
    rewrite list.Forall_lookup in Hhs. destruct P4 as [E|(f1 & E & _)]; rewrite E in Hi, Hlen.
    + apply Hhs in Hi. congruence.
    + rewrite length_app in Hlen. simpl in Hlen. apply lookup_snoc_Some in Hi as [[_ Hi]|[-> _]]; [apply Hhs in Hi; congruence|lia].
Qed.

(** C9: no goroutine is stuck, and none panics, when the application closes and
    cancels with error codes below 2^62 only (larger ones, which the types allow,
    do panic: [CloseWithError] at once, [CancelRead] and [CancelWrite] in the
    write loop), and the numbers of the protocol have not run out. In every
    interleaving of such calls, whatever goroutine has the
    lock can take a step, gets by a bounded number of its own steps to the point
    where it releases the lock, and can release it, whatever was written or
    refused in between and whoever has closed the connection. A goroutine that
    waits for the lock waits for such a goroutine; those outside the lock can
    take a step too. *)
Theorem goroutines_progress w t p :
  world_of w -> in_range (w_conn w) -> w_pcs w !! t = Some p ->
  match p with
  | Wants _ _ => exists w', wstep w Internal w'
  | Waits _ _ => busy w
  | Leaves _ _ => exists w', wstep w Internal w' /\ forall q, w_pcs w' !! t = Some q -> holding q = false
  | Done => True
  | _ => forall now, exists p' e o, advance now p (w_ep w) = Some (p', e, o) /\ holding p' = holding p /\
      ((steps_left p' < steps_left p)%nat \/ exists j, p = Holds j)
  end.
Proof using VL Hcfg Htr.
  intros H Hr Ht. destruct (world_wired w H) as [W _]. pose proof (wi_serial _ W) as Hs. pose proof (se_calm _ Hs _ _ Ht) as Hc.
  assert (Hmove : match p with Wants _ _ | Waits _ _ | Leaves _ _ | Done => False | _ => True end ->
    forall now, exists p' e o, advance now p (w_ep w) = Some (p', e, o) /\ holding p' = holding p /\
      ((steps_left p' < steps_left p)%nat \/ exists j, p = Holds j)).
  { intros Hm now. destruct (wi_frames _ W) as (gs & fs & _ & [Hh _] & _).
    assert (Hp : has p (if holding p then fs else [])) by (destruct (holding p) eqn:Hhp; [by eapply Hh|apply has_none; by destruct p]).
    destruct (advance_ok now (w_ep w) (w_wire w) (wi_reach _ W) Hr (wi_wbuf _ W) p _ Hm (wi_pc _ W _ _ Ht) Hc Hp) as (p' & e & o & E & _).
    exists p', e, o. destruct (advance_holds _ _ _ _ _ _ E Hc) as (Hhp & _). split_and!; try done.
    destruct p; try (left; by eapply advance_shorter). right. by eexists. }
  destruct p; try (by apply Hmove); try done.
  - destruct (acquire prio (w_lock w)) as [r l] eqn:E. eexists. by eapply w_acquire.
  - by eapply waits_for.
  - by eapply leaves_progress.
Qed.
End runs.
End order.
