(* ===== verification/Sizes.v ===== *)
(** The sizes of the records that an endpoint writes.

    All records but those of datagrams fit what every peer accepts; a datagram is
    checked against the peer's limits before its call waits for the write lock. So
    a bound on those limits bounds every record, in every interleaving of the
    goroutines. *)

From stdpp Require Import relations.
From S2P Require Import Prelude Varint Params Frame Heap WriteLock Config State Core Stream Conn System Facts Ids Table Flow Life Control Wake Transport Endpoint Wire LifeTheorems History FrameTheorems EndpointTheorems Grow Refine Sender Api Peers Ahead Settle Goroutines Serial Order.

Section sizes.
Context {V : QuicVarint} {VL : QuicVarintLaws V} {GA : GoAppend} {T : Type} {RT : RecordTransport T} {RTL : RecordTransportLaws T RT}.
Context (L : Z) (HL : DefaultMaxRecordSize <= L).
Implicit Types (e : endpoint T) (w : world T).

#[local] Arguments put : simpl never.

(** What a goroutine is to write fits. *)
Definition pc_fits (p : pc) : Prop :=
  match p with
  | Wants j _ | Waits j _ | Holds j | Writes j _ => job_bound j <= L
  | _ => True
  end.

Definition fits (rs : list bytes) : Prop := Forall (fun r => zlen r <= L) rs.

(** Critical sections write nothing. *)
Lemma enter_unwritten now j e p e' o : enter now j e = Some (p, e', o) -> records_written o = [] /\ is_refusal o = false.
Proof using Type.
  assert (Hw : forall j f e, to_write j f e = Some (p, e', o) -> records_written o = [] /\ is_refusal o = false).
  { intros j0 f e0. unfold to_write. destruct (append_frames _ _); [|done]. simpl. by intros [= _ _ <-]. }
  destruct j as [| |q data|q|data|f]; simpl; try by apply Hw.
  - unfold enter_flush. destruct (takeControl _ _). by intros [= _ _ <-].
  - unfold enter_chunk. destruct (reserve _ _ _) as [[[? n]|] ?]; [|by intros [= _ _ <-]]. destruct (n =? 0); [by intros [= _ _ <-]|apply Hw].
  - unfold enter_fin. destruct (finish _ _) as [[[]|] ?]; [apply Hw|by intros [= _ _ <-]..].
  - unfold enter_datagram. destruct (cause e); [by intros [= _ _ <-]|apply Hw].
Qed.

Lemma enter_fits now j e p e' o : enter now j e = Some (p, e', o) -> job_bound j <= L -> pc_fits p.
Proof using Type.
  intros E Hj. assert (Hw : forall f e, to_write j f e = Some (p, e', o) -> pc_fits p).
  { intros f e0. unfold to_write. destruct (append_frames _ _); [|done]. simpl. by intros [= <- _ _]. }
  destruct j as [| |q data|q|data|f]; simpl in E; try by eapply Hw.
  - unfold enter_flush in E. destruct (takeControl _ _). by injection E as <- _ _.
  - unfold enter_chunk in E. destruct (reserve _ _ _) as [[[? n]|] ?]; [|by injection E as <- _ _].
    destruct (n =? 0); [by injection E as <- _ _|by eapply Hw].
  - unfold enter_fin in E. destruct (finish _ _) as [[[]|] ?]; [by eapply Hw|by injection E as <- _ _..].
  - unfold enter_datagram in E. destruct (cause e); [by injection E as <- _ _|by eapply Hw].
Qed.

Lemma write_record_fits now j next buf e p e' o :
  write_record now j next buf e = Some (p, e', o) -> zlen (frames_of buf) <= L -> (forall e, pc_fits (next e)) ->
  pc_fits p /\ fits (records_written o).
Proof using Type.
  unfold write_record. destruct (writeRecordLocked _ _ _) as [[[x|] e1]|]; [..|done]; simpl; intros [= <- _ <-] Hl Hn.
  - split; [by destruct j|constructor].
  - split; [done|]. by apply Forall_singleton.
Qed.

Lemma advance_fits now p e p' e' o fs :
  advance now p e = Some (p', e', o) -> calm p = true -> (holding p = true -> has p fs) -> pc_fits p ->
  pc_fits p' /\ fits (records_written o).
Proof using VL HL.
  intros E Hc Hh Hf. assert (Hend : forall k, ending k = true -> pc_fits k) by (by intros []).
  destruct p as [| |j|gs buf|j buf| |k err|k|err fr|fr|werr|]; try done; simpl in E.
  - destruct (enter_unwritten now j e p' e' o E) as [-> _]. split; [by eapply enter_fits|constructor].
  - specialize (Hh eq_refl). inversion Hh as [gs' h b hs Hz Hb Hl Hall E1 E2| |]; [|done]. subst. unfold flush_next in E.
    destruct Hall as [|f gs [Hok Hsz] Hall]; [injection E as <- _ <-; split; [by destruct (_ =? _)|constructor]|].
    destruct (Append_carried f (h ++ b) Hok) as (b1 & Ea & _ & Hl1). rewrite Ea in E. simpl in E.
    destruct (_ <? _); [|injection E as <- _ <-; split; [done|constructor]].
    eapply write_record_fits; [exact E| |done]. rewrite <- app_assoc, frames_of_app by done.
    rewrite !length_app in *. unfold full, recordHeadroom, DefaultMaxRecordSize, maxControlFrameSize in *. lia.
  - specialize (Hh eq_refl). inversion Hh as [|j' h b gs' Hz Hb Hl Hj E1 E2|]; [|done]. subst.
    eapply write_record_fits; [exact E| |done]. rewrite frames_of_app by done. simpl in Hf. lia.
  - unfold abort_terminate in E. destruct (terminate _ _) as [[] c]; injection E as <- _ <-; (split; [auto|constructor]).
  - injection E as <- _ <-. split; [auto|constructor].
  - unfold close_terminate in E. destruct (terminate _ _) as [[] c]; injection E as <- _ <-; (split; [done|constructor]).
  - injection E as <- _ <-. split; [by destruct fr|constructor].
  - injection E as <- _ <-. split; [done|constructor].
Qed.

(** * In every interleaving *)

Record sized w : Prop := {
  sz_pc t p : w_pcs w !! t = Some p -> pc_fits p;
  sz_wire : fits (w_wire w);
}.

Lemma sized_put w w' t p :
  sized w -> w_pcs w' = put t p (w_pcs w) -> w_wire w' = w_wire w -> pc_fits p -> sized w'.
Proof using Type.
  intros [S1 S2] Ep Ew Hp. split; [|by rewrite Ew]. intros t' q. rewrite Ep. intros [(_ & -> & _)|[_ Hq]]%put_lookup; [done|by eapply S1].
Qed.

Lemma datagram_bound data n : Datagram_Len data = Some n -> zlen data < 2 ^ 60 -> job_bound (JDatagram data) = n.
Proof using VL. unfold Datagram_Len. intros E Hd. rewrite len_size in E by (unfold is_varint; lia). by injection E as <-. Qed.

Lemma can_begin_fits p c : can_begin p c -> datagramLimit c <= L -> pc_fits p.
Proof using VL HL.
  intros Hb Hl. destruct p as [j prio| | | | | | | | | | |]; try done. destruct j; try done.
  destruct Hb as (_ & Hd & _ & n & En & Hn). unfold pc_fits. rewrite (datagram_bound _ _ En Hd). lia.
Qed.

Lemma sized_step cfg isServer w l w' :
  wstep w l w' -> wired cfg isServer w -> datagramLimit (e_conn (w_ep w)) <= L -> sized w -> sized w'.
Proof using VL HL.
  intros Hs W Hd S. pose proof S as [S1 S2].
  destruct Hs as [o Hr Ho Hv|t p Ht Hb|t j prio r l Ht E|t now p p' e o Hr Ht E|t j err l Ht E|t j err l ready t' j' Ht E Ht'|
    now rec tr err c t Erd Hl Eh Hr Ht|err tr t Erd Her Ht|now e E]; try done.
  - apply (sized_put w _ t p); try done. by eapply can_begin_fits.
  - apply (sized_put w _ t (match r with None => Holds j | Some ready => Waits j ready end)); try done.
    specialize (S1 _ _ Ht). by destruct r.
  - destruct (wi_frames _ _ _ W) as (gs & fs & _ & [Hh _] & _).
    destruct (advance_fits now p (w_ep w) p' e o fs E (se_calm _ (wi_serial _ _ _ W) _ _ Ht) (Hh _ _ Ht) (S1 _ _ Ht)) as [H1 H2].
    split; simpl; [|by apply Forall_app_2]. intros t' q [(_ & -> & _)|[_ Hq]]%put_lookup; [done|by eapply S1].
  - apply (sized_put w _ t (released j err)); try done. by destruct j, err.
  - apply (sized_put (set_pc t (released j err) (set_lock l w)) _ t' (Holds j')); try done; [|by apply (S1 _ _ Ht')].
    apply (sized_put w _ t (released j err)); try done. by destruct j, err.
  - apply (sized_put w _ t (match err with Some err => read_error err | None => Done end)); try done. by destruct err as [[]|].
  - apply (sized_put w _ t (match err with ErrWire _ => read_error err | _ => read_quit (ErrTransportClosed err) end)); try done. by destruct err.
Qed.

Lemma sized_new tr cfg isServer now : sized (new_world tr cfg isServer now).
Proof using HL.
  split; [|constructor]. intros t p. simpl. rewrite lookup_singleton_Some. by intros [_ <-].
Qed.
End sizes.
