(* ===== verification/Concurrent.v ===== *)
(** Two endpoints whose goroutines run concurrently.

    [Peers] has the frames of a writer join those on their way in the step that
    takes them from the connection, and [Interop], [Credit] and [Settle] are about
    that system. Here the goroutines of both endpoints interleave as in
    [Goroutines], on transports that deliver the records of one to the other. The
    theorem is that the pair simulates them, so that what is proved of the pair
    holds of the goroutines: an endpoint never rejects a record of the other. *)

From stdpp Require Import relations.
From S2P Require Import Prelude Varint Params Frame Heap WriteLock Config State Core Stream Conn System Facts Ids Table Flow Life Control Wake Transport Endpoint Wire LifeTheorems History FrameTheorems EndpointTheorems Grow Refine Sender Api Peers Ahead Compat Interop Settle Goroutines Serial Order Sizes.

(** * Frames of records *)

Section frames.
Context {V : QuicVarint} {VL : QuicVarintLaws V}.

Lemma frames_in_split rs rs' fs :
  frames_in (rs ++ rs') fs -> exists gs gs', fs = gs ++ gs' /\ frames_in rs gs /\ frames_in rs' gs'.
Proof using Type.
  intros (gs & H & <-). apply Forall2_app_inv_l in H as (g1 & g2 & H1 & H2 & ->). exists (mjoin g1), (mjoin g2).
  rewrite join_app. split_and!; [done|by exists g1|by exists g2].
Qed.

Lemma frames_in_single b g : frames_in [b] g -> record_frames b = Some g.
Proof using Type. intros (gs & H & <-). inversion H as [|? g' ? gs' Hb Hn]; subst. inversion Hn; subst. simpl. by rewrite app_nil_r. Qed.

(** [handleRecord] parses the same frames. *)
Lemma parse_all_split fuel b g : parse_all fuel b = Some g -> split_record fuel b = (g, None).
Proof using Type.
  revert b g. induction fuel as [|fuel IH]; intros b g; destruct b as [|x b]; simpl; try by intros [= <-].
  destruct (Parse (x :: b)) as [|f rest|e]; [by intros [= <-]| |done].
  destruct (parse_all fuel rest) as [gs|] eqn:E; [|done]. simpl. intros [= <-]. by rewrite (IH _ _ E).
Qed.
End frames.

(** * One endpoint *)

Section side.
Context {V : QuicVarint} {VL : QuicVarintLaws V} {GA : GoAppend} {T : Type} {RT : RecordTransport T} {RTL : RecordTransportLaws T RT}.
Context (cfg : Config) (isServer : bool) (Hcfg : config_ok cfg).
Implicit Types (w : world T).

Abbreviation w_conn w := (e_conn (w_ep w)).
Abbreviation hello := (TransportParameters (params_received (localParameters cfg))).

(** The frames that a peer has still to get when it has read [n] records: those
    given out and not read, and the transport parameters when nothing was given
    out yet. *)
Definition outbound w (n : nat) (q : list frame) : Prop :=
  (n <= length (w_wire w))%nat /\ exists pre, frames_in (take n (w_wire w)) pre /\
    (w_given w = [] /\ q = [hello] \/ w_given w <> [] /\ pre ++ q = frame_received <$> w_given w).

Lemma outbound_new tr now : outbound (new_world tr cfg isServer now) 0 [hello].
Proof using Type. split; [done|]. exists []. split; [by exists []|by left]. Qed.

(** More is given out and written. *)
Lemma outbound_grow w w' n q fs :
  outbound w n q -> w_wire w `prefix_of` w_wire w' -> w_given w' = w_given w ++ fs ->
  fs = [] \/ w_given w <> [] /\ frame_received <$> fs = fs -> outbound w' n (q ++ fs).
Proof using Type.
  intros [Hn (pre & Hp & Hq)] [k Ew] Eg Hfs. split; [rewrite Ew, length_app; lia|]. exists pre. rewrite Ew, take_app_le by done. split; [done|].
  destruct Hfs as [->|[Hne Hfs]]; [rewrite app_nil_r in *; by rewrite Eg|]. right. destruct Hq as [[? _]|[_ Hq]]; [done|].
  rewrite Eg. split; [by destruct (w_given w)|]. by rewrite fmap_app, app_assoc, Hq, Hfs.
Qed.

(** The transport parameters are given out. *)
Lemma outbound_hello w w' n q :
  outbound w n q -> w_wire w' = w_wire w -> w_given w = [] -> w_given w' = [TransportParameters (localParameters cfg)] ->
  w_refused w = false -> wired cfg isServer w -> outbound w' n q.
Proof using Type.
  intros [Hn (pre & Hp & Hq)] Ew Eg Eg' Hr W. destruct Hq as [[_ ->]|[? _]]; [|done]. rewrite <- Ew in Hn, Hp. split; [done|]. exists pre. split; [done|].
  right. rewrite Eg'. split; [done|]. destruct (wi_frames _ _ _ W) as (gs & fs & Hg & _ & Ho). specialize (Ho Hr).
  rewrite Eg in Ho. rewrite <- Ew, <- (take_drop n (w_wire w')) in Hg. apply frames_in_split in Hg as (g1 & g2 & -> & H1 & _).
  rewrite (frames_in_unique _ _ _ Hp H1). destruct g1; [done|by simpl in Ho].
Qed.

(** ** What a step does *)

Lemma wstep_onward w r w' : wstep w r w' -> wired cfg isServer w -> onward (w_conn w) (w_conn w').
Proof using VL Hcfg.
  intros Hs W. pose proof (wi_reach _ _ _ W) as R.
  destruct Hs as [o Hr Ho Hv|t p Ht Hb|t j prio r l Ht E|t now p p' e o Hr Ht E|t j err l Ht E|t j err l ready t' j' Ht E Ht'|
    now rec tr err c t Erd Hl Eh Hr Ht|err tr t Erd Her Ht|now e E]; try done.
  - by eapply onward_exec.
  - destruct (wi_frames _ _ _ W) as (gs & fs & _ & Hf & _). by eapply oc_onward, (advance_outcome cfg isServer).
  - by destruct (record_reached cfg isServer Hcfg now rec _ err c Hl R Hr Eh).
  - unfold force_close in E. destruct (e_forced (w_ep w)) as [d|]; [|done]. destruct (_ <=? _); [|done]. by injection E as <-.
Qed.

Lemma onward_open c c' : onward c c' -> c_closeErr c' = None -> c_closeErr c = None.
Proof using Type. intros [_ H _] Ho. destruct (c_closeErr c) eqn:E; [|done]. exfalso. by apply H. Qed.

(** A critical section of a writer is a step of the pair, or changes nothing. *)
Lemma enter_acts now j (e : endpoint T) p e' o :
  reach cfg isServer (e_conn e) -> job_ok (e_conn e) j -> c_closeErr (e_conn e) = None -> j <> JParams ->
  enter now j e = Some (p, e', o) ->
  (e_conn e' = e_conn e /\ frames_given o = [] \/ acts (e_conn e) (frames_given o) (e_conn e')) /\
  frame_received <$> frames_given o = frames_given o.
Proof using VL Hcfg.
  intros R Hj Ho Hn E. pose proof (reach_flow _ _ _ Hcfg R) as Hf. destruct j as [| |q data|q|data|f]; simpl in E; try done.
  - unfold enter_flush in E. pose proof (acts_flush (e_conn e) now) as Ha.
    pose proof (takeControl_received cfg isServer e Hcfg R now) as Hr.
    destruct (takeControl now (e_conn e)) as [fs c]. injection E as _ <- <-. split; [by right|]. simpl in *.
    clear -Hr. induction Hr as [|f fs Hf _ IH]; [done|]. by apply (f_equal2 cons).
  - destruct Hj as [Hh Hd]. assert (Hp : ptr (e_conn e) q) by apply Hh. unfold enter_chunk in E.
    destruct (reserve q (zlen data) (e_conn e)) as [[[off k]|x] c] eqn:Er.
    + destruct (reserve_spec q (zlen data) off k _ c Hf Hp ltac:(lia) Er) as (_ & Hk & _).
      assert (Hl : zlen (ztake k data) = k) by (rewrite length_take; lia).
      pose proof (acts_chunk (e_conn e) q (zlen data) off k (ztake k data) c Hh ltac:(lia) Er Hl) as Ha.
      destruct (k =? 0); [injection E as _ <- <-; split; [by right|done]|]. apply to_write_gives in E as (-> & -> & _). split; [by right|done].
    + injection E as _ <- <-. split; [left|done]. unfold reserve in Er. destruct (sendErrLocked q (e_conn e)); [|done]. by injection Er as _ <-.
  - unfold enter_fin in E. destruct (finish q (e_conn e)) as [[[off|]|x] c] eqn:Er.
    + pose proof (acts_fin (e_conn e) q off c Hj Er) as Ha. apply to_write_gives in E as (-> & -> & _). split; [by right|done].
    + injection E as _ <- <-. split; [left|done]. unfold finish in Er. rewrite Ho in Er. destruct (_ || _); [|done]. by injection Er as <-.
    + unfold finish in Er. rewrite Ho in Er. by destruct (_ || _).
  - unfold enter_datagram, cause in E. rewrite (lf_cause _ (reach_life _ _ _ Hcfg R)), Ho in E. apply to_write_gives in E as (-> & -> & _).
    split; [right|done]. destruct Hj as [Hd Hl]. destruct (Hl Ho) as (_ & n & En & Hle). by eapply acts_datagram.
  - by destruct Hj as (_ & _ & ?).
Qed.

Lemma terminate_shut err c : c_closeErr (terminate err c).2 <> None.
Proof using Type.
  destruct (c_closeErr c) as [x|] eqn:E; [destruct (closed_refuses x c E) as (_ & _ & _ & _ & ->); simpl; congruence|].
  destruct (terminate_open err c E) as (c' & -> & E'). simpl. congruence.
Qed.

(** The other steps of a goroutine count what was sent, at most, while the
    connection stays open. *)
Lemma advance_silent now p (e : endpoint T) p' e' o :
  advance now p e = Some (p', e', o) -> (forall j, p <> Holds j) -> c_closeErr (e_conn e') = None ->
  e_conn e' = e_conn e \/ exists n, e_conn e' = exec (OpSent now n) (e_conn e).
Proof using Type.
  assert (Hw : forall j next buf, write_record now j next buf e = Some (p', e', o) -> e_conn e' = e_conn e \/ exists n, e_conn e' = exec (OpSent now n) (e_conn e)).
  { intros j next buf. unfold write_record, writeRecordLocked. destruct (writeRecord _ _) as [[[n|x] t]|]; simpl; [..|done]; intros [= _ <- _]; [right; by exists n|by left]. }
  intros E Hn Ho. destruct p as [| |j|fs buf|j buf| |k err|k|err fr|fr|werr|]; try done; simpl in E.
  - by destruct (Hn j).
  - unfold flush_next in E. destruct fs as [|f fs]; [injection E as _ <- _; by left|].
    destruct (Append f buf) as [b|]; [|done]. simpl in E. destruct (_ <? _); [by eapply Hw|injection E as _ <- _; by left].
  - by eapply Hw.
  - exfalso. apply (terminate_shut err (e_conn e)). unfold abort_terminate in E. destruct (terminate _ _) as [ended c]. by injection E as _ <- _.
  - injection E as _ <- _. by left.
  - exfalso. apply (terminate_shut err (e_conn e)). unfold close_terminate in E. destruct (terminate _ _) as [ended c]. by injection E as _ <- _.
  - injection E as _ <- _. by left.
  - injection E as _ <- _. left. unfold close_shut. destruct werr; [done|]. by destruct (closeWrite _) as [[] t].
Qed.

(** A step that reads nothing: the connection is as before, or takes a step
    of the pair, whose frames join those that the peer has still to get. *)
Definition goes w w' (q q' : list frame) : Prop :=
  w_conn w' = w_conn w /\ q' = q \/ in_range (w_conn w) /\ exists fs, q' = q ++ fs /\ acts (w_conn w) fs (w_conn w').

Lemma goes_enter w t now j p e o n q :
  wired cfg isServer w -> proper cfg w -> in_range (w_conn w) -> w_pcs w !! t = Some (Holds j) ->
  enter now j (w_ep w) = Some (p, e, o) -> c_closeErr (w_conn w) = None -> w_refused w = false -> outbound w n q ->
  exists q', outbound (note o (set_pc t p (set_ep e w))) n q' /\ goes w (note o (set_pc t p (set_ep e w))) q q'.
Proof using VL Hcfg.
  intros W P Hr Ht E Ho Hrf Hq. pose proof (wi_reach _ _ _ W) as R. pose proof (wi_pc _ _ _ W _ _ Ht) as Hj.
  destruct (enter_unwritten now j (w_ep w) p e o E) as [Hwr _].
  assert (Hjp : j = JParams \/ j <> JParams) by (destruct j; auto). destruct Hjp as [->|Hn].
  - destruct (pr_params _ _ P _ _ Ht eq_refl) as [_ Eg]. simpl in E. apply to_write_gives in E as (-> & Eo & _). exists q. split; [|by left].
    eapply outbound_hello; try done; simpl; [by rewrite Hwr, app_nil_r|]. by rewrite Eg, Eo, (reach_config cfg isServer _ Hcfg R).
  - destruct (enter_acts now j (w_ep w) p e o R Hj Ho Hn E) as [Ha Hf]. exists (q ++ frames_given o). split.
    + apply (outbound_grow w); try done; [simpl; rewrite Hwr, app_nil_r; done|]. right. split; [|done].
      destruct (pr_first _ _ P) as [[_ (t' & Ht')]|(gs & ->)]; [|done].
      destruct (holder_unique w t _ t' _ (wi_serial _ _ _ W) Ht Ht' eq_refl eq_refl) as [_ [= ->]]. done.
    + destruct Ha as [[Ec ->]|Ha]; [left; by rewrite app_nil_r|right]. split; [done|]. by exists (frames_given o).
Qed.

Lemma goes_same w w' n q :
  outbound w n q -> w_conn w' = w_conn w -> w_given w' = w_given w -> w_wire w' = w_wire w -> exists q', outbound w' n q' /\ goes w w' q q'.
Proof using Type.
  intros Hq Ec Eg Ew. exists q. split; [|by left]. rewrite <- (app_nil_r q). apply (outbound_grow w); try done; [by rewrite Ew|by rewrite Eg, app_nil_r|by left].
Qed.

Lemma goes_silent w w' n q o :
  outbound w n q -> in_range (w_conn w) -> silent o = true -> valid o (w_conn w) -> w_conn w' = exec o (w_conn w) ->
  w_given w' = w_given w -> w_wire w `prefix_of` w_wire w' -> exists q', outbound w' n q' /\ goes w w' q q'.
Proof using Type.
  intros Hq Hr Ho Hv Ec Eg Ew. exists (q ++ []). split; [apply (outbound_grow w); try done; [by rewrite Eg, app_nil_r|by left]|].
  right. split; [done|]. exists []. split; [done|]. rewrite Ec. by constructor.
Qed.

Lemma step_goes w l w' n q :
  wstep w l w' -> (forall rec, l <> Reads rec) -> wired cfg isServer w -> proper cfg w -> c_closeErr (w_conn w') = None -> w_refused w' = false -> outbound w n q ->
  exists q', outbound w' n q' /\ goes w w' q q'.
Proof using VL Hcfg.
  intros Hs Hl W P Ho Hrf Hq. pose proof (onward_open _ _ (wstep_onward _ _ _ Hs W) Ho) as Ho0.
  destruct Hs as [o Hr Hsi Hv|t p Ht Hb|t j prio r l Ht E|t now p p' e o Hr Ht E|t j err l Ht E|t j err l ready t' j' Ht E Ht'|
    now rec ? ? ? ? ? ? ? ? ?|err tr t Erd Her Ht|now e E]; try by apply (goes_same w).
  - by eapply goes_silent.
  - simpl in Hrf. apply orb_false_iff in Hrf as [Hrf Hn].
    assert (Hp : (exists j, p = Holds j) \/ forall j, p <> Holds j) by (destruct p; eauto). destruct Hp as [[j ->]|Hp]; [by eapply goes_enter|].
    assert (Hg : frames_given o = []).
    { pose proof (advance_gives now p (w_ep w) p' e o E (se_calm _ (wi_serial _ _ _ W) _ _ Ht)) as H. destruct p; try apply H. by destruct (Hp j). }
    destruct (advance_silent now p (w_ep w) p' e o E Hp Ho) as [Ec|[k Ec]].
    + exists q. split; [|by left]. rewrite <- (app_nil_r q). apply (outbound_grow w); try done; [by exists (records_written o)|simpl; by rewrite Hg|by left].
    + eapply (goes_silent w _ n q (OpSent now k)); try done; simpl; [by rewrite Hg, app_nil_r|by exists (records_written o)].
  - by destruct (Hl rec).
  - unfold force_close in E. destruct (e_forced (w_ep w)) as [d|]; [|done]. destruct (_ <=? _); [|done]. injection E as <-. by apply (goes_same w).
Qed.

(** ** Simulation *)

(** The frames that a step reads. *)
Definition read_frames (l : label) (g : list frame) : Prop :=
  match l with Reads rec => record_frames rec = Some g | _ => g = [] end.

(** [P] holds of the pairs that can come about, with this endpoint first. *)
Section simulation.
Context (cfg' : Config) (isServer' : bool) (Hcfg' : config_ok cfg') (P : pair -> Prop).
Hypothesis (Pstep : forall x y, P x -> left_step x y -> P y).
Hypothesis (Pcoupled : forall x, P x -> coupled cfg isServer cfg' isServer' x).

Lemma sim_frame now f a q b r :
  P (mkPair a q b (f :: r)) -> in_range a -> exists a', handleFrameLocked now f a = (None, a') /\ P (mkPair a' q b r).
Proof using Hcfg Hcfg' Pstep Pcoupled.
  intros H Hr. destruct (Pcoupled _ H) as [C1 C2 C3 C4 C5]. simpl in *.
  destruct (handles_next now a q b f r (reach_live _ _ _ Hcfg C1 C3) (reach_live _ _ _ Hcfg' C2 C4) Hr C5) as (a' & E & _).
  exists a'. split; [done|]. eapply Pstep; [exact H|]. by eapply left_handles.
Qed.

Lemma sim_frames now g a q b r :
  P (mkPair a q b (g ++ r)) -> in_range_along (OpFrame now <$> g) a -> exists a', handle_frames now g a = (None, a') /\ P (mkPair a' q b r).
Proof using Hcfg Hcfg' Pstep Pcoupled.
  revert a. induction g as [|f g IH]; intros a H Hr; [by exists a|]. destruct Hr as [H1 H2].
  destruct (sim_frame now f a q b (g ++ r) H H1) as (a1 & E & H'). simpl in H2. rewrite E in H2. simpl. rewrite E. by apply IH.
Qed.

(** A record of the peer is accepted, and its frames are those that were on
    their way. *)
Lemma sim_record now rec g a q b r :
  P (mkPair a q b (g ++ r)) -> record_frames rec = Some g -> in_range_record now rec a ->
  exists a', handleRecord now rec (record_received now (zlen rec) a) = (None, a') /\ P (mkPair a' q b r).
Proof using VL Hcfg Hcfg' Pstep Pcoupled.
  intros H Hg [Hr1 Hr2]. unfold record_frames in Hg. apply parse_all_split in Hg. rewrite Hg in Hr2. simpl in Hr2.
  assert (H0 : P (mkPair (record_received now (zlen rec) a) q b (g ++ r))).
  { eapply Pstep; [exact H|]. rewrite <- (app_nil_r q) at 2. apply left_acts; [done|]. by apply (acts_silent a (OpReceived now (zlen rec))). }
  destruct (sim_frames now g _ q b r H0 Hr2) as (a' & E & H'). exists a'. split; [|done].
  unfold handleRecord. destruct (Pcoupled _ H) as [_ _ Ho _ _]. simpl in Ho.
  rewrite (record_loop_split now (S (length rec)) rec (record_received now (zlen rec) a) Ho ltac:(lia) (length rec) ltac:(lia)). by rewrite Hg, E.
Qed.

(** The endpoint takes a step; [g] are the frames of the record that it reads. *)
Lemma sim_step w l w' n q b g rest :
  wstep w l w' -> wired cfg isServer w -> proper cfg w -> c_closeErr (w_conn w') = None -> w_refused w' = false -> outbound w n q ->
  read_frames l g ->
  P (mkPair (w_conn w) q b (g ++ rest)) -> exists q', outbound w' n q' /\ P (mkPair (w_conn w') q' b rest).
Proof using VL Hcfg Hcfg' Pstep Pcoupled.
  intros Hs W Pr Ho Hrf Hq Hg H. assert (El : (exists rec, l = Reads rec) \/ forall rec, l <> Reads rec) by (destruct l; eauto).
  destruct El as [[rec ->]|El].
  - inversion Hs as [| | | | | |now rec0 tr err c t Erd Hl Eh Hr Ht| |]; subst. destruct (sim_record now rec g _ q b rest H Hg Hr) as (a' & E & H').
    rewrite Eh in E. injection E as -> ->. exists q. split; [|done].
    rewrite <- (app_nil_r q). apply (outbound_grow w); try done; [simpl; by rewrite app_nil_r|by left].
  - assert (g = []) as -> by (destruct l as [| | |rec]; [done..|by destruct (El rec)]). destruct (step_goes w l w' n q Hs El W Pr Ho Hrf Hq) as (q' & Hq' & [[-> ->]|(Hr & fs & -> & Ha)]); [by exists q|].
    exists (q ++ fs). split; [done|]. eapply Pstep; [exact H|]. by apply left_acts.
Qed.
End simulation.

(** The next record of an endpoint, and the frames that are on their way. *)
Lemma outbound_next w n q rec :
  wired cfg isServer w -> w_refused w = false -> outbound w n q -> w_wire w !! n = Some rec ->
  exists g q', record_frames rec = Some g /\ q = g ++ q' /\ outbound w (S n) q'.
Proof using Type.
  intros W Hr [Hn (pre & Hp & Hq)] Hrec. destruct (wi_frames _ _ _ W) as (gs & fs & Hg & _ & Ho). specialize (Ho Hr).
  rewrite <- (take_drop (S n) (w_wire w)) in Hg. apply frames_in_split in Hg as (g1 & g2 & -> & H1 & _). assert (H1' := H1).
  rewrite (take_S_r _ _ _ Hrec) in H1'. apply frames_in_split in H1' as (g0 & g & -> & H0 & Hs). rewrite (frames_in_unique _ _ _ H0 Hp) in *.
  apply frames_in_single in Hs. apply lookup_lt_Some in Hrec. destruct Hq as [[Eg ->]|[Hne Hq]].
  - rewrite Eg in Ho. destruct pre; [|done]. destruct g; [|done]. exists [], [hello]. split_and!; try done. split; [lia|]. exists []. split; [done|by left].
  - exists g, (g2 ++ (frame_received <$> fs)). split_and!; [done| |].
    + rewrite <- Ho, <- !app_assoc in Hq. by apply app_inv_head in Hq.
    + split; [lia|]. exists (pre ++ g). split; [done|]. right. split; [done|]. by rewrite app_assoc.
Qed.
End side.

(** * Two endpoints *)

(** A client and a server, and how many records of the other each has read. *)
Record net (TA TB : Type) := mkNet { net_a : world TA; read_a : nat; net_b : world TB; read_b : nat }.
Arguments mkNet {TA TB}.
Arguments net_a {TA TB}.
Arguments read_a {TA TB}.
Arguments net_b {TA TB}.
Arguments read_b {TA TB}.

Section net.
Context {V : QuicVarint} {VL : QuicVarintLaws V} {GA : GoAppend}.
Context {TA : Type} {RTA : RecordTransport TA} {RTLA : RecordTransportLaws TA RTA}.
Context {TB : Type} {RTB : RecordTransport TB} {RTLB : RecordTransportLaws TB RTB}.
Implicit Types (x : net TA TB).

Abbreviation conn_a x := (e_conn (w_ep (net_a x))).
Abbreviation conn_b x := (e_conn (w_ep (net_b x))).

(** What is read is the next record that the other has written. *)
Definition reads_next (l : label) (wire : list bytes) (i i' : nat) : Prop :=
  match l with Reads rec => wire !! i = Some rec /\ i' = S i | _ => i' = i end.

(** A goroutine of one of them takes a step, of the client when the label says
    [true]. *)
Inductive nstep : net TA TB -> bool * label -> net TA TB -> Prop :=
| n_left a l a' i i' b j :
    wstep a l a' -> reads_next l (w_wire b) i i' -> nstep (mkNet a i b j) (true, l) (mkNet a' i' b j)
| n_right a i b l b' j j' :
    wstep b l b' -> reads_next l (w_wire a) j j' -> nstep (mkNet a i b j) (false, l) (mkNet a i b' j').

Definition nsteps : net TA TB -> net TA TB -> Prop := rtc (fun x y => exists l, nstep x l y).

(** Both connections are open, and no transport has refused a record. *)
Definition healthy x : Prop :=
  c_closeErr (conn_a x) = None /\ c_closeErr (conn_b x) = None /\ w_refused (net_a x) = false /\ w_refused (net_b x) = false.

Context (cfgA cfgB : Config) (HA : config_ok cfgA) (HB : config_ok cfgB).
Context (trA : TA) (trB : TB) (nowA nowB : Z) (HtrA : carries trA []) (HtrB : carries trB []).

Definition new_net : net TA TB := mkNet (new_world trA cfgA false nowA) 0 (new_world trB cfgB true nowB) 0.

(** The pair that stands for the two endpoints. *)
Definition stands_for (y : pair) x : Prop :=
  left y = conn_a x /\ right y = conn_b x /\ outbound cfgA (net_a x) (read_b x) (ltr y) /\ outbound cfgB (net_b x) (read_a x) (rtl y).

Record joined x : Prop := {
  jo_wired_a : wired cfgA false (net_a x);
  jo_proper_a : proper cfgA (net_a x);
  jo_wired_b : wired cfgB true (net_b x);
  jo_proper_b : proper cfgB (net_b x);
  jo_pair : healthy x -> exists y, paired cfgA cfgB y /\ stands_for y x;
  jo_sized : healthy x -> sized (cfg_MaxRecordSize cfgB) (net_a x) /\ sized (cfg_MaxRecordSize cfgA) (net_b x);
}.

(** An endpoint sends no datagram that is larger than the records of the other. *)
Lemma coupled_datagram cfg isServer cfg' isServer' y :
  config_ok cfg' -> coupled cfg isServer cfg' isServer' y -> datagramLimit (left y) <= cfg_MaxRecordSize cfg'.
Proof using Type.
  intros Hc [_ C2 _ _ [_ _ [_ _ _ _ _ A6 _] _ _ _]]. rewrite (reach_config _ _ _ Hc C2) in A6.
  pose proof (ok_datagram _ Hc). unfold datagramLimit. lia.
Qed.

Lemma joined_datagrams x :
  joined x -> healthy x -> datagramLimit (conn_a x) <= cfg_MaxRecordSize cfgB /\ datagramLimit (conn_b x) <= cfg_MaxRecordSize cfgA.
Proof using VL HA HB.
  intros J Hh. destruct (jo_pair _ J Hh) as (y & Yp & Yl & Yr & _). pose proof (paired_coupled cfgA cfgB y HA HB Yp) as C.
  pose proof (coupled_datagram _ _ _ _ y HB C) as H1. apply coupled_swap in C. pose proof (coupled_datagram _ _ _ _ (swap_pair y) HA C) as H2.
  rewrite <- Yl, <- Yr. by destruct y.
Qed.

Lemma refused_back {T} {RT : RecordTransport T} (w : world T) r w' : wstep w r w' -> w_refused w' = false -> w_refused w = false.
Proof using Type. intros []; simpl; try done. by intros [? _]%orb_false_iff. Qed.

Lemma paired_left y z : paired cfgA cfgB y -> left_step y z -> paired cfgA cfgB z.
Proof using Type. intros H Hs. eapply paired_step; [exact H|by apply step_left]. Qed.

Lemma paired_right y z : paired cfgA cfgB (swap_pair y) -> left_step y z -> paired cfgA cfgB (swap_pair z).
Proof using Type. intros H Hs. eapply paired_step; [exact H|]. apply step_right. by rewrite !swap_swap. Qed.

Lemma coupled_right y : paired cfgA cfgB (swap_pair y) -> coupled cfgB true cfgA false y.
Proof using VL HA HB. intros H. rewrite <- (swap_swap y). by apply coupled_swap, paired_coupled. Qed.

Lemma joined_new : joined new_net.
Proof using HA HB HtrA HtrB.
  split; [by apply new_world_wired|apply new_world_proper|by apply new_world_wired|apply new_world_proper| |];
    [|intros _; split; apply sized_new; [apply HB|apply HA]]. intros _.
  eexists. split; [apply (paired_init cfgA cfgB nowA nowB)|]. split_and!; try done; apply outbound_new.
Qed.

(** The step of one side, with the record that it reads and how many it has read
    then. *)
Lemma joined_left a i b j r a' i' :
  joined (mkNet a i b j) -> wstep a r a' ->
  (healthy (mkNet a i b j) -> forall y, stands_for y (mkNet a i b j) -> exists g rest, rtl y = g ++ rest /\
    read_frames r g /\ outbound cfgB b i' rest) ->
  joined (mkNet a' i' b j).
Proof using VL HA HB.
  intros J Hs Hr. pose proof J as [W1 P1 W2 P2 Hy Hz]. simpl in *. pose proof (wired_step cfgA false HA a r a' Hs W1) as W1'.
  assert (Hh : healthy (mkNet a' i' b j) -> healthy (mkNet a i b j)).
  { intros (O1 & O2 & R1 & R2). split_and!; simpl; try done; [|by eapply refused_back]. eapply onward_open; [|exact O1]. by eapply (wstep_onward cfgA false HA). }
  split; simpl; try done; [by eapply (proper_step cfgA false)| |].
  2:{ intros H%Hh. destruct (Hz H) as [Z1 Z2]. split; [|done].
      eapply (sized_step _ (proj1 (ok_record _ HB)) cfgA false); [exact Hs|done|by apply (proj1 (joined_datagrams _ J H))|done]. }
  intros H. specialize (Hh H). destruct H as (O1 & O2 & R1 & R2). simpl in *.
  destruct (Hy Hh) as (y & Yp & Ys). destruct (Hr Hh y Ys) as (g & rest & Eg & Hg & Hob). destruct Ys as (Yl & Yr & Yo & _). simpl in *.
  destruct y as [c1 q c2 rr]. simpl in *. subst c1 c2 rr.
  destruct (sim_step cfgA false HA cfgB true HB (paired cfgA cfgB) paired_left (fun y => paired_coupled cfgA cfgB y HA HB)
    a r a' j q _ g rest Hs W1 P1 O1 R1 Yo Hg Yp) as (q' & Hq' & Yp'). eexists. split; [exact Yp'|]. done.
Qed.

Lemma joined_right a i b j r b' j' :
  joined (mkNet a i b j) -> wstep b r b' ->
  (healthy (mkNet a i b j) -> forall y, stands_for y (mkNet a i b j) -> exists g rest, ltr y = g ++ rest /\
    read_frames r g /\ outbound cfgA a j' rest) ->
  joined (mkNet a i b' j').
Proof using VL HA HB.
  intros J Hs Hr. pose proof J as [W1 P1 W2 P2 Hy Hz]. simpl in *. pose proof (wired_step cfgB true HB b r b' Hs W2) as W2'.
  assert (Hh : healthy (mkNet a i b' j') -> healthy (mkNet a i b j)).
  { intros (O1 & O2 & R1 & R2). split_and!; simpl; try done; [|by eapply refused_back]. eapply onward_open; [|exact O2]. by eapply (wstep_onward cfgB true HB). }
  split; simpl; try done; [by eapply (proper_step cfgB true)| |].
  2:{ intros H%Hh. destruct (Hz H) as [Z1 Z2]. split; [done|].
      eapply (sized_step _ (proj1 (ok_record _ HA)) cfgB true); [exact Hs|done|by apply (proj2 (joined_datagrams _ J H))|done]. }
  intros H. specialize (Hh H). destruct H as (O1 & O2 & R1 & R2). simpl in *.
  destruct (Hy Hh) as (y & Yp & Ys). destruct (Hr Hh y Ys) as (g & rest & Eg & Hg & Hob). destruct Ys as (Yl & Yr & _ & Yo). simpl in *.
  destruct y as [c1 qq c2 q]. simpl in *. subst c1 c2 qq.
  destruct (sim_step cfgB true HB cfgA false HA (fun y => paired cfgA cfgB (swap_pair y)) paired_right coupled_right
    b r b' i q _ g rest Hs W2 P2 O2 R2 Yo Hg Yp) as (q' & Hq' & Yp'). eexists. split; [exact Yp'|]. done.
Qed.

Lemma joined_step x l x' : nstep x l x' -> joined x -> joined x'.
Proof using VL HA HB.
  intros Hs J. destruct Hs as [a l a' i i' b j Hs Hn|a i b l b' j j' Hs Hn].
  - eapply joined_left; [exact J|exact Hs|]. intros (_ & _ & _ & R2) y (_ & _ & _ & Yo).
    destruct l as [| | |rec]; [simpl in Hn; subst i'; by exists [], (rtl y)..|]. destruct Hn as [Hrec ->]. simpl in *.
    destruct (outbound_next cfgB true b i (rtl y) rec (jo_wired_b _ J) R2 Yo Hrec) as (g & q' & Hg & -> & Hq). by exists g, q'.
  - eapply joined_right; [exact J|exact Hs|]. intros (_ & _ & R1 & _) y (_ & _ & Yo & _).
    destruct l as [| | |rec]; [simpl in Hn; subst j'; by exists [], (ltr y)..|]. destruct Hn as [Hrec ->]. simpl in *.
    destruct (outbound_next cfgA false a j (ltr y) rec (jo_wired_a _ J) R1 Yo Hrec) as (g & q' & Hg & -> & Hq). by exists g, q'.
Qed.

Lemma joined_steps x : nsteps new_net x -> joined x.
Proof using VL HA HB HtrA HtrB.
  intros H. assert (G : forall x y, nsteps x y -> joined x -> joined y) by (induction 1 as [|? ? ? [? ?]]; eauto using joined_step).
  eapply G; [exact H|apply joined_new].
Qed.

(** C3: the goroutines refine the pair. However the goroutines of two endpoints
    interleave, on transports that deliver what the other has written, as long
    as both connections are open and no record was refused the two connections
    are those of a pair that can come about, where the frames on their way in
    each direction are exactly those that were given out and are not in the
    records that were read. So everything that is proved of the pair holds of
    the goroutines. *)
Theorem goroutines_refine_pair x :
  nsteps new_net x -> healthy x -> exists y, paired cfgA cfgB y /\ stands_for y x.
Proof using VL HA HB HtrA HtrB. intros H. by apply jo_pair, joined_steps. Qed.

(** The endpoint reads the record, on a transport with the limit of its
    configuration, and handles it without an error. *)
Definition accepts {T} {RT : RecordTransport T} {RTL : RecordTransportLaws T RT} (cfg : Config) (now : Z) (rec : bytes) (w : world T) : Prop :=
  zlen rec <= cfg_MaxRecordSize cfg /\
  (forall rest, delivers (e_tr (w_ep w)) (rec :: rest) -> max_record (e_tr (w_ep w)) = cfg_MaxRecordSize cfg ->
    (readRecord (e_tr (w_ep w))).1 = inl rec) /\
  (in_range_record now rec (e_conn (w_ep w)) ->
    (handleRecord now rec (record_received now (zlen rec) (e_conn (w_ep w)))).1 = None).

Lemma accepts_intro {T} {RT : RecordTransport T} {RTL : RecordTransportLaws T RT} cfg L now rec i (w : world T) rs :
  config_ok cfg -> L = cfg_MaxRecordSize cfg -> fits L rs -> rs !! i = Some rec ->
  (in_range_record now rec (e_conn (w_ep w)) ->
    (handleRecord now rec (record_received now (zlen rec) (e_conn (w_ep w)))).1 = None) -> accepts cfg now rec w.
Proof using Type.
  intros Hc -> Hf Hi Hh. unfold fits in Hf. rewrite list.Forall_lookup in Hf. specialize (Hf _ _ Hi). split_and!; try done.
  intros rest Hd Hm. pose proof (ok_record _ Hc). destruct (read_delivers _ _ _ Hd ltac:(lia)) as (t' & _ & _ & ->). simpl. rewrite Hm. by destruct (Z.ltb_spec (cfg_MaxRecordSize cfg) (zlen rec)); [lia|].
Qed.

(** C2: an endpoint never rejects a record of another endpoint of this package.
    However their goroutines interleave, as long as both connections are open and
    neither transport has refused a record: the next record that one reads of
    those that the other has written is not larger than its transport accepts, so
    that [readRecord] returns it, and is handled without an error, all its
    frames. *)
Theorem records_never_rejected x now rec :
  nsteps new_net x -> healthy x ->
  (w_wire (net_b x) !! read_a x = Some rec -> accepts cfgA now rec (net_a x)) /\
  (w_wire (net_a x) !! read_b x = Some rec -> accepts cfgB now rec (net_b x)).
Proof using VL HA HB HtrA HtrB.
  intros H Hh. pose proof (joined_steps x H) as J. destruct (jo_sized _ J Hh) as [[_ Z1] [_ Z2]]. destruct (jo_pair _ J Hh) as (y & Yp & Yl & Yr & Y1 & Y2). destruct Hh as (_ & _ & R1 & R2).
  destruct y as [a q b r]. simpl in *. subst a b.
  split; intros Hrec; (eapply accepts_intro; [done|reflexivity|by eauto|exact Hrec|]); intros Hr.
  - destruct (outbound_next cfgB true (net_b x) (read_a x) r rec (jo_wired_b _ J) R2 Y2 Hrec) as (g & r' & Hg & -> & _).
    by destruct (sim_record cfgA false HA cfgB true HB (paired cfgA cfgB) paired_left (fun y => paired_coupled cfgA cfgB y HA HB)
      now rec g _ q _ r' Yp Hg Hr) as (c' & -> & _).
  - destruct (outbound_next cfgA false (net_a x) (read_b x) q rec (jo_wired_a _ J) R1 Y1 Hrec) as (g & q' & Hg & -> & _).
    by destruct (sim_record cfgB true HB cfgA false HA (fun y => paired cfgA cfgB (swap_pair y)) paired_right coupled_right
      now rec g _ r _ q' Yp Hg Hr) as (c' & -> & _).
Qed.
End net.
