(* ===== verification/Transfer.v ===== *)
(** Data from one application to the other, through the goroutines.

    Two endpoints run concurrently as in [Concurrent]. The applications write to
    a stream on one side, and read from it on the other: what the critical sections
    of [writeChunk] take of the buffers of [Write], and what those of [Read]
    return. In every interleaving, the second is a prefix of the first, and equal
    to it at the end of the stream. *)

From stdpp Require Import relations.
From S2P Require Import Prelude Varint Params Frame Heap WriteLock Config State Core Stream Conn System Facts Ids Table Flow Life Control Wake Transport Endpoint Wire LifeTheorems History FrameTheorems EndpointTheorems Grow Refine Sender Receiver Api Peers Ahead Settle Goroutines Serial Order Concurrent.

(** * What a step does with the data of a stream *)

(** What [writeChunk] takes of the buffer that it was given, for the stream
    [id]: as much as [reserve] has reserved. *)
Definition taken (id : Z) (l : label) (c : Conn) : bytes :=
  match l with
  | Advances (Holds (JChunk q data)) =>
      if s_id (deref c q) =? id
      then match (reserve q (zlen data) c).1 with inl (_, n) => ztake n data | inr _ => [] end
      else []
  | _ => []
  end.

(** What the application reads from the stream [p]. *)
Definition got {GA : GoAppend} (p : nat) (l : label) (c : Conn) : bytes :=
  match l with Runs o => returned p o c | _ => [] end.

Definition takes_chunk (l : label) : bool :=
  match l with Advances (Holds (JChunk _ _)) => true | _ => false end.

Section endpoint.
Context {V : QuicVarint} {VL : QuicVarintLaws V} {GA : GoAppend} {T : Type} {RT : RecordTransport T} {RTL : RecordTransportLaws T RT}.
Context (cfg : Config) (isServer : bool) (Hcfg : config_ok cfg).
Implicit Types (w : world T) (e : endpoint T).

Abbreviation w_conn w := (e_conn (w_ep w)).

(** ** Operations of the connection *)

(** A goroutine that goes on runs at most one operation of the connection. *)
Definition own_op (p : pc) (k : op) : Prop :=
  match k with
  | OpReserve q n => exists data, p = Holds (JChunk q data)
  | OpFinish _ | OpTakeControl _ | OpTerminate _ | OpSent _ _ => True
  | _ => False
  end.

Lemma advance_op now p e p' e' o :
  pc_ok (e_conn e) p -> advance now p e = Some (p', e', o) ->
  e_conn e' = e_conn e \/ exists k, valid k (e_conn e) /\ e_conn e' = exec k (e_conn e) /\ own_op p k.
Proof using Type.
  assert (Hw : forall j next buf, write_record now j next buf e = Some (p', e', o) ->
    e_conn e' = e_conn e \/ exists k, valid k (e_conn e) /\ e_conn e' = exec k (e_conn e) /\ own_op p k).
  { intros j next buf. unfold write_record, writeRecordLocked. destruct (writeRecord _ _) as [[[n|x] t]|]; simpl; [..|done]; intros [= _ <- _];
    [right; by exists (OpSent now n)|by left]. }
  intros Hp E. destruct p as [| |j|fs buf|j buf| |k err|k|err fr|fr|werr|]; try done; simpl in E.
  - destruct j as [| |q data|q|data|f]; simpl in E, Hp.
    + apply to_write_gives in E as (-> & _). by left.
    + right. exists (OpTakeControl now). unfold enter_flush in E. simpl. destruct (takeControl _ _). by injection E as _ <- _.
    + right. exists (OpReserve q (zlen data)). destruct Hp as [Hh Hd]. split; [split; [done|lia]|]. split; [|by exists data].
      unfold enter_chunk in E. simpl. destruct (reserve _ _ _) as [[[? n]|] ?]; [|by injection E as _ <- _].
      destruct (n =? 0); [by injection E as _ <- _|]. by apply to_write_gives in E as (-> & _).
    + right. exists (OpFinish q). split; [done|]. split; [|done]. unfold enter_fin in E. simpl.
      destruct (finish _ _) as [[[]|] ?]; [|by injection E as _ <- _..]. by apply to_write_gives in E as (-> & _).
    + left. unfold enter_datagram in E. destruct (cause e); [by injection E as _ <- _|]. by apply to_write_gives in E as (-> & _).
    + apply to_write_gives in E as (-> & _). by left.
  - unfold flush_next in E. destruct fs as [|f fs]; [injection E as _ <- _; by left|].
    destruct (Append f buf) as [b|]; [|done]. simpl in E. destruct (_ <? _); [by eapply Hw|injection E as _ <- _; by left].
  - by eapply Hw.
  - right. exists (OpTerminate err). unfold abort_terminate in E. simpl. destruct (terminate _ _). by injection E as _ <- _.
  - injection E as _ <- _. by left.
  - right. exists (OpTerminate err). unfold close_terminate in E. simpl. destruct (terminate _ _). by injection E as _ <- _.
  - injection E as _ <- _. by left.
  - injection E as _ <- _. left. unfold close_shut. destruct werr; [done|]. by destruct (closeWrite _) as [[] t].
Qed.

(** So does any step that reads no record. *)
Lemma step_op w l w' :
  wstep w l w' -> wired cfg isServer w -> (forall rec, l <> Reads rec) ->
  w_conn w' = w_conn w /\ (forall p, got p l (w_conn w) = []) \/
  exists k, in_range (w_conn w) /\ valid k (w_conn w) /\ w_conn w' = exec k (w_conn w) /\ op_frames k = [] /\
    (forall p, returned p k (w_conn w) = got p l (w_conn w)) /\ (reserves k = true -> takes_chunk l = true).
Proof using Type.
  intros Hs W Hl. destruct Hs as [o Hr Ho Hv|t p Ht Hb|t j prio r l Ht E|t now p p' e o Hr Ht E|t j err l Ht E|t j err l ready t' j' Ht E Ht'|
    now rec tr err c t Erd Hlen Eh Hr Ht|err tr t Erd Her Ht|now e E]; try by left.
  - right. exists o. split_and!; try done; by destruct o.
  - destruct (advance_op now p (w_ep w) p' e o (wi_pc _ _ _ W _ _ Ht) E) as [Ec|(k & Hv & Ec & Hk)]; [by left|].
    right. exists k. split_and!; try done; destruct k; try done. intros _. by destruct Hk as [data ->].
  - by destruct (Hl rec).
  - left. unfold force_close in E. destruct (e_forced (w_ep w)) as [d|]; [|done]. destruct (_ <=? _); [|done]. by injection E as <-.
Qed.

(** Reading a record handles a prefix of its frames. *)
Lemma read_ops w rec w' :
  wstep w (Reads rec) w' -> exists now fs, fs `prefix_of` (split_record (length rec) rec).1 /\
    let os := OpReceived now (zlen rec) :: (OpFrame now <$> fs) in
    runs os (w_conn w) (w_conn w') /\ in_range_along os (w_conn w).
Proof using VL.
  intros Hs. inversion Hs as [| | | | | |now rec0 tr err c t Erd Hl Eh [H1 H2] Ht| |]; subst.
  destruct (record_runs now (S (length rec)) (length rec) rec (record_received now (zlen rec) (w_conn w)) Hl ltac:(lia) ltac:(lia))
    as (fs & Hp & Hr). unfold handleRecord in Eh. rewrite Eh in Hr. exists now, fs. split; [done|]. split; [by constructor|].
  split; [done|]. eapply in_range_prefix; [|exact H2]. destruct Hp as [k ->]. rewrite fmap_app. by exists (OpFrame now <$> k).
Qed.

(** ** The receiver *)

Lemma played_runs p os c c' heard rcv rd :
  runs os c c' -> in_range_along os c -> (forall o c, o ∈ os -> returned p o c = []) -> played cfg isServer p heard rcv rd c ->
  exists rcv', played cfg isServer p (heard ++ mjoin (op_frames <$> os)) rcv' rd c'.
Proof using Type.
  intros Hr. revert heard rcv. induction Hr as [c|o os c c' Hv Hr IH]; intros heard rcv Hi Hn Hp; [exists rcv; by rewrite app_nil_r|].
  destruct Hi as [H1 H2]. apply (played_step cfg isServer p o) in Hp; [|done..].
  rewrite (Hn o c), app_nil_r in Hp by (by left). simpl. rewrite app_assoc. eapply IH; [done| |exact Hp]. intros. apply Hn. by right.
Qed.

(** A step of the receiver: what it reads is added to what was read, and only a record
    adds to the frames handled. *)
Lemma played_wstep p w l w' heard rcv rd :
  wstep w l w' -> wired cfg isServer w -> played cfg isServer p heard rcv rd (w_conn w) ->
  exists new rcv', played cfg isServer p (heard ++ new) rcv' (rd ++ got p l (w_conn w)) (w_conn w') /\
    forall f, f ∈ new -> exists rec, l = Reads rec /\ f ∈ (split_record (length rec) rec).1.
Proof using VL.
  intros Hs W Hp. assert (El : (exists rec, l = Reads rec) \/ forall rec, l <> Reads rec) by (destruct l; eauto).
  destruct El as [[rec ->]|El].
  - destruct (read_ops w rec w' Hs) as (now & fs & Hfs & Hr & Hi). exists fs.
    assert (Ej : forall fs : list frame, mjoin (op_frames <$> (OpFrame now <$> fs)) = fs) by (intros gs; induction gs as [|g gs IH]; [done|]; csimpl; by rewrite IH).
    destruct (played_runs p _ _ _ heard rcv rd Hr Hi) as [rcv' Hp']; [|done|].
    + intros o c Ho. apply elem_of_cons in Ho as [->|Ho]; [done|]. by apply list_elem_of_fmap in Ho as (f & -> & _).
    + csimpl in Hp'. rewrite Ej in Hp'. exists rcv'. simpl. rewrite app_nil_r. split; [done|]. intros f Hf. exists rec. split; [done|].
      destruct Hfs as [k ->]. apply elem_of_app. by left.
  - exists []. destruct (step_op w l w' Hs W El) as [[-> Hg]|(k & Hr & Hv & -> & Hf & Hg & _)].
    + exists rcv. rewrite Hg, !app_nil_r. split; [done|]. by intros f ?%not_elem_of_nil.
    + exists (rcv ++ delivered p k (w_conn w)). rewrite <- Hg, <- Hf. split; [by constructor|]. rewrite Hf. by intros f ?%not_elem_of_nil.
Qed.

(** ** The sender *)

(** What has been given out, when the writers of the stream [id] have had [W] taken. *)
Record sends (id : Z) (W : bytes) (w : world T) : Prop := {
  sn_pieces : Forall (piece id W) (w_given w);
  sn_fin : has_fin id (w_given w) -> ended_id id (w_conn w);
  sn_off p : ptr (w_conn w) p -> s_id (deref (w_conn w) p) = id -> s_sendOffset (deref (w_conn w) p) = zlen W;
  sn_none : (forall p, ptr (w_conn w) p -> s_id (deref (w_conn w) p) <> id) -> W = [];
}.

(** Steps of other goroutines than [writeChunk]'s give out no data. *)
Lemma advance_no_data now p e p' e' o :
  reach cfg isServer (e_conn e) -> calm p = true -> pc_ok (e_conn e) p -> takes_chunk (Advances p) = false ->
  advance now p e = Some (p', e', o) -> Forall (fun f => not_stream f \/ fin_of e e' f) (frames_given o).
Proof using Hcfg.
  intros R Hc Hp Hn E. pose proof (reach_flow _ _ _ Hcfg R) as Hf.
  destruct p as [| |j|fs buf|j buf| |k err|k|err fr|fr|werr|]; try done;
    try (pose proof (advance_gives now _ e p' e' o E Hc) as (-> & _); constructor).
  destruct j as [| |q data|q|data|f]; simpl in E; try done.
  - apply to_write_gives in E as (_ & -> & _). repeat constructor.
  - unfold enter_flush in E. pose proof (takeControl_not_stream now (e_conn e) (reach_ctrl _ _ _ Hcfg R)) as Ht.
    destruct (takeControl _ _) as [fs c]. injection E as _ _ <-. eapply list.Forall_impl; [exact Ht|by left].
  - unfold enter_fin in E. assert (Hq : ptr (e_conn e) q) by apply Hp. destruct (finish q (e_conn e)) as [[[off|]|x] c] eqn:Er; [|by injection E as _ _ <-..].
    apply to_write_gives in E as (-> & -> & _). apply Forall_singleton. right. exists q. destruct (finish_result q off _ c Hf Hq Er) as [-> He].
    pose proof (moved_offset _ _ _ (moved_finish q q _ Hf Hq)) as Em. rewrite Er in Em. simpl in Em. rewrite Em. done.
  - unfold enter_datagram in E. destruct (cause e); [injection E as _ _ <-; constructor|]. apply to_write_gives in E as (_ & -> & _). repeat constructor.
  - apply to_write_gives in E as (_ & -> & _). destruct Hp as [Hcl _]. apply Forall_singleton. left. by destruct f.
Qed.

Lemma sends_unsent id W w w' fs :
  ids_inv (w_conn w') -> unsent (w_conn w) (w_conn w') -> w_given w' = w_given w ++ fs ->
  Forall (fun f => not_stream f \/ fin_of (w_ep w) (w_ep w') f) fs -> sends id W w -> sends id W w'.
Proof using Type.
  intros Hi Hu Eg Hall [I1 I2 I3 I4]. destruct (account_unsent id W _ _ Hi Hu I3 I4) as (A1 & A2 & A3).
  destruct (pieces_no_data id W (w_ep w) (w_ep w') _ _ Hu Hall I3 A3 I1 I2) as [P1 P2]. split; try done; by rewrite Eg.
Qed.

(** A goroutine of [writeChunk] in its critical section. *)
Lemma sends_chunk id W w t q data p e o :
  wired cfg isServer w -> w_pcs w !! t = Some (Holds (JChunk q data)) -> enter_chunk q data (w_ep w) = Some (p, e, o) ->
  sends id W w -> sends id (W ++ taken id (Advances (Holds (JChunk q data))) (w_conn w)) (note o (set_pc t p (set_ep e w))).
Proof using Hcfg.
  intros Wd Ht E [I1 I2 I3 I4]. pose proof (wi_reach _ _ _ Wd) as R. pose proof (reach_ids _ _ _ Hcfg R) as Hi.
  destruct (wi_pc _ _ _ Wd _ _ Ht) as [Hh Hd]. assert (Hq : ptr (w_conn w) q) by apply Hh.
  unfold enter_chunk in E. simpl taken. destruct (reserve_heap q (zlen data) (w_conn w)) as [x Eh].
  destruct (reserve q (zlen data) (w_conn w)) as [[[off k]|y] c] eqn:Er; cbn [fst snd] in *.
  2:{ injection E as _ <- <-. assert (c = w_conn w) as -> by (unfold reserve in Er; destruct (sendErrLocked _ _); by injection Er).
      assert (W ++ (if s_id (deref (w_conn w) q) =? id then [] else []) = W) as -> by (destruct (_ =? _); by rewrite app_nil_r).
      split; simpl; rewrite ?app_nil_r; done. }
  destruct (reserve_spec q (zlen data) off k _ c (reach_flow _ _ _ Hcfg R) Hq ltac:(lia) Er) as (Eo & Hk & Es & _).
  assert (Hlen : zlen (ztake k data) = k) by (rewrite length_take; lia).
  destruct (account_chunk id W (ztake k data) q x _ _ Hi Hq Eh) as (A1 & A2 & A3); [lia|done|done|].
  destruct (Z.eqb_spec k 0) as [->|Hne].
  - injection E as _ <- <-. change (ztake 0 data) with (@nil byte) in *.
    assert (EW : W ++ (if s_id (deref (w_conn w) q) =? id then [] else []) = W) by (destruct (_ =? _); by rewrite app_nil_r).
    rewrite EW in *. split; simpl; rewrite ?app_nil_r; auto.
  - apply to_write_gives in E as (-> & Eg & _). split; simpl; try done; rewrite Eg; [by eapply pieces_chunk|].
    by intros ?%has_fin_data%I2%A3.
Qed.

(** Every step keeps the account. *)
Lemma sends_wstep id W w l w' :
  wstep w l w' -> wired cfg isServer w -> sends id W w -> sends id (W ++ taken id l (w_conn w)) w'.
Proof using VL Hcfg.
  intros Hs Wd I. destruct (takes_chunk l) eqn:El.
  - destruct Hs as [| | |t now p p' e o Hr Ht E| | | | |]; try done. destruct p as [| |[]| | | | | | | | |]; try done. by eapply sends_chunk.
  - assert (taken id l (w_conn w) = []) as -> by (by destruct l as [|[| |[]| | | | | | | | |]| |]). rewrite app_nil_r.
    pose proof (wired_step cfg isServer Hcfg w l w' Hs Wd) as Wd'. pose proof (reach_ids _ _ _ Hcfg (wi_reach _ _ _ Wd')) as Hi.
    assert (Hu : unsent (w_conn w) (w_conn w')).
    { assert (Er : (exists rec, l = Reads rec) \/ forall rec, l <> Reads rec) by (destruct l; eauto). destruct Er as [[rec ->]|Er].
      - inversion Hs as [| | | | | |now rec0 tr err c t Erd Hl Eh Hr Ht| |]; subst. simpl. unfold handleRecord in Eh.
        pose proof (unsent_record now (S (length rec)) rec (record_received now (zlen rec) (w_conn w))) as H. rewrite Eh in H.
        etrans; [|exact H]. by apply grown_heap; [apply _|].
      - destruct (step_op w l w' Hs Wd Er) as [[-> _]|(k & _ & _ & -> & _ & _ & Hk)]; [done|]. apply unsent_exec.
        destruct (reserves k); [|done]. by rewrite Hk in El. }
    assert (Hg : exists fs, w_given w' = w_given w ++ fs /\ Forall (fun f => not_stream f \/ fin_of (w_ep w) (w_ep w') f) fs).
    { destruct Hs as [| | |t now p p' e o Hr Ht E| | | | |]; try by (exists []; rewrite app_nil_r).
      exists (frames_given o). split; [done|]. eapply advance_no_data; try done; [apply Wd|by apply (se_calm _ (wi_serial _ _ _ Wd) t)|by apply (wi_pc _ _ _ Wd t)]. }
    destruct Hg as (fs & Eg & Hall). by eapply sends_unsent.
Qed.

Lemma sends_new id tr now : sends id [] (new_world tr cfg isServer now).
Proof using Type. split; simpl; try done; try lia. intros (off & d & Hin). by apply not_elem_of_nil in Hin. Qed.

End endpoint.

(** * A sender and a receiver *)

Section link.
Context {V : QuicVarint} {VL : QuicVarintLaws V} {GA : GoAppend}.
Context {TS : Type} {RTS : RecordTransport TS} {RTLS : RecordTransportLaws TS RTS}.
Context {TR : Type} {RTR : RecordTransport TR} {RTLR : RecordTransportLaws TR RTR}.
Context (cfgS cfgR : Config) (serverS serverR : bool) (HS : config_ok cfgS) (HR : config_ok cfgR) (id : Z) (p : nat).
Implicit Types (s : world TS) (r : world TR).

(** The receiver has handled frames that the sender has given out. *)
Record linked (W rd : bytes) s r : Prop := {
  lk_sends : sends id W s;
  lk_plays : exists heard rcv, played cfgR serverR p heard rcv rd (e_conn (w_ep r)) /\
    (w_refused s = false -> forall off d fin, Stream id off d fin ∈ heard -> Stream id off d fin ∈ w_given s);
}.

Lemma linked_new trS trR nowS nowR : linked [] [] (new_world trS cfgS serverS nowS) (new_world trR cfgR serverR nowR).
Proof using Type.
  split; [apply sends_new|]. exists [], []. split; [constructor|]. by intros _ off d fin ?%not_elem_of_nil.
Qed.

Lemma wstep_given {T} {RT : RecordTransport T} (w : world T) l w' : wstep w l w' -> w_given w `prefix_of` w_given w'.
Proof using Type. intros []; simpl; try done. by eexists. Qed.

Lemma linked_send W rd s l s' r :
  wstep s l s' -> wired cfgS serverS s -> linked W rd s r -> linked (W ++ taken id l (e_conn (w_ep s))) rd s' r.
Proof using VL HS.
  intros Hs Ws [I (heard & rcv & Hp & Hh)]. split; [by eapply (sends_wstep cfgS serverS)|]. exists heard, rcv. split; [done|].
  intros Hr off d fin Hin. destruct (wstep_given s l s' Hs) as [k ->]. apply elem_of_app. left. apply Hh; [by eapply refused_back|done].
Qed.

(** The frames of a record were given out. *)
Lemma record_given s i rec off d fin :
  wired cfgS serverS s -> w_refused s = false -> w_wire s !! i = Some rec ->
  Stream id off d fin ∈ (split_record (length rec) rec).1 -> Stream id off d fin ∈ w_given s.
Proof using Type.
  intros Ws Hr Hrec Hin. destruct (wi_frames _ _ _ Ws) as (gs & fs & Hg & _ & Ho). specialize (Ho Hr).
  rewrite <- (take_drop_middle _ _ _ Hrec) in Hg. apply frames_in_split in Hg as (g1 & g2 & -> & _ & Hg).
  apply (frames_in_split [rec]) in Hg as (g & g3 & -> & Hg%frames_in_single & _). unfold record_frames in Hg. apply parse_all_split in Hg.
  rewrite Hg in Hin. assert (H : Stream id off d fin ∈ frame_received <$> w_given s).
  { rewrite <- Ho. apply elem_of_app. left. apply elem_of_app. right. apply elem_of_app. by left. }
  apply list_elem_of_fmap in H as (f & E & Hf). destruct f as [| | | | | | |[]| | |]; try done. simpl in E. by rewrite E.
Qed.

Lemma linked_recv W rd s r l r' i i' :
  wstep r l r' -> reads_next l (w_wire s) i i' -> wired cfgS serverS s -> wired cfgR serverR r -> linked W rd s r ->
  linked W (rd ++ got p l (e_conn (w_ep r))) s r'.
Proof using VL.
  intros Hs Hn Ws Wr [I (heard & rcv & Hp & Hh)]. split; [done|].
  destruct (played_wstep cfgR serverR p r l r' heard rcv rd Hs Wr Hp) as (new & rcv' & Hp' & Hnew). exists (heard ++ new), rcv'. split; [done|].
  intros Hr off d fin [Hin|Hin]%elem_of_app; [by apply Hh|]. destruct (Hnew _ Hin) as (rec & -> & Hrec). destruct Hn as [Hi _].
  by eapply record_given.
Qed.

(** So what was read is what was written. *)
Lemma linked_delivers W rd s r :
  linked W rd s r -> w_refused s = false -> ptr (e_conn (w_ep r)) p -> s_id (deref (e_conn (w_ep r)) p) = id ->
  rd `prefix_of` W /\
  forall n c', c_closeErr (e_conn (w_ep r)) = None -> tryRead p n (e_conn (w_ep r)) = (TryDone [] (Some ErrEOF), c') ->
    rd = W /\ ended_id id (e_conn (w_ep s)).
Proof using HR.
  intros [[I1 I2 _ _] (heard & rcv & Hl & Hin)] Hr Hp Hid.
  destruct (receiver_delivers cfgR serverR p id W _ heard rcv rd _ HR I1 Hl Hp Hid (Hin Hr)) as [H1 H2].
  split; [done|]. intros n c' Hopen E. destruct (H2 n c' Hopen E). auto.
Qed.
End link.

(** * Two endpoints *)

Section transfer.
Context {V : QuicVarint} {VL : QuicVarintLaws V} {GA : GoAppend}.
Context {TA : Type} {RTA : RecordTransport TA} {RTLA : RecordTransportLaws TA RTA}.
Context {TB : Type} {RTB : RecordTransport TB} {RTLB : RecordTransportLaws TB RTB}.
Context (cfgA cfgB : Config) (HA : config_ok cfgA) (HB : config_ok cfgB).
Context (trA : TA) (trB : TB) (nowA nowB : Z) (HtrA : carries trA []) (HtrB : carries trB []).
Implicit Types (x : net TA TB).

(** The connection of the client, or that of the server. *)
Definition conn_at (client : bool) x : Conn := if client then e_conn (w_ep (net_a x)) else e_conn (w_ep (net_b x)).

Definition refused_at (client : bool) x : bool := if client then w_refused (net_a x) else w_refused (net_b x).

(** A run of the two endpoints: [W] is what was written to the stream [id], by
    the client when [up] says so, and [rd] what the application of the other
    endpoint has read from its stream [p]. *)
Inductive transfer (up : bool) (id : Z) (p : nat) : bytes -> bytes -> net TA TB -> Prop :=
| transfer_new : transfer up id p [] [] (new_net cfgA cfgB trA trB nowA nowB)
| transfer_step W rd x side l x' :
    transfer up id p W rd x -> nstep x (side, l) x' ->
    transfer up id p (W ++ (if eqb side up then taken id l (conn_at side x) else []))
      (rd ++ (if eqb side up then [] else got p l (conn_at side x))) x'.

Lemma transfer_joined up id p W rd x : transfer up id p W rd x -> joined cfgA cfgB x.
Proof using VL HA HB HtrA HtrB. induction 1; [by apply joined_new|by eapply joined_step]. Qed.

Lemma transfer_up id p W rd x : transfer true id p W rd x -> linked cfgB true id p W rd (net_a x) (net_b x).
Proof using VL HA HB HtrA HtrB.
  induction 1 as [|W rd x side l x' Hx IH Hs]; [apply linked_new|]. destruct (transfer_joined _ _ _ _ _ _ Hx) as [W1 _ W2 _ _].
  inversion Hs as [a l0 a' i i' b j Hst Hn|a i b l0 b' j j' Hst Hn]; subst; simpl in *; rewrite app_nil_r.
  - by eapply (linked_send cfgA cfgB false).
  - by eapply (linked_recv cfgA cfgB false).
Qed.

Lemma transfer_down id p W rd x : transfer false id p W rd x -> linked cfgA false id p W rd (net_b x) (net_a x).
Proof using VL HA HB HtrA HtrB.
  induction 1 as [|W rd x side l x' Hx IH Hs]; [apply linked_new|]. destruct (transfer_joined _ _ _ _ _ _ Hx) as [W1 _ W2 _ _].
  inversion Hs as [a l0 a' i i' b j Hst Hn|a i b l0 b' j j' Hst Hn]; subst; simpl in *; rewrite app_nil_r.
  - by eapply (linked_recv cfgB cfgA true).
  - by eapply (linked_send cfgB cfgA true).
Qed.

(** C1: a stream delivers what was written to it. However the goroutines of two
    endpoints interleave, in both directions: what the application of one has read from a
    stream is a prefix of what the writers on the other have written to it, as
    long as no record of the sender was refused; and when it is told the end of
    the stream, it has read all that was written, and the sender has ended the
    stream. *)
Theorem streams_deliver up id p W rd x :
  transfer up id p W rd x -> refused_at up x = false ->
  ptr (conn_at (negb up) x) p -> s_id (deref (conn_at (negb up) x) p) = id ->
  rd `prefix_of` W /\
  forall n c', c_closeErr (conn_at (negb up) x) = None -> tryRead p n (conn_at (negb up) x) = (TryDone [] (Some ErrEOF), c') ->
    rd = W /\ ended_id id (conn_at up x).
Proof using VL HA HB HtrA HtrB.
  intros Hx Hr Hp Hid. destruct up.
  - exact (linked_delivers cfgB true HB id p W rd _ _ (transfer_up id p W rd x Hx) Hr Hp Hid).
  - exact (linked_delivers cfgA false HA id p W rd _ _ (transfer_down id p W rd x Hx) Hr Hp Hid).
Qed.
End transfer.
