(* ===== verification/Schedule.v ===== *)
(** Schedules of goroutines, which run.

    A schedule says which goroutine runs next, or which call the application makes. [wturn]
    and [nturn] execute one turn of it, on an endpoint and on two; each turn is a
    step of [Goroutines] or [Concurrent], so that a schedule shows that a world
    comes about. *)

From stdpp Require Import relations.
From S2P Require Import Prelude Varint Params Frame Heap WriteLock Config State Core Stream Conn System Transport Endpoint Wire Scenario FrameTheorems Refine Peers Goroutines Serial Concurrent Transfer.

(** * Calls *)

Inductive call :=
| CWrite (q : nat) (data : bytes)
| CFin (q : nat)
| CFlush
| CDatagram (data : bytes)
| CClose (code : Z) (reason : bytes).

Section schedule.
Context {V : QuicVarint} {GA : GoAppend} {T : Type} {RT : RecordTransport T}.
Implicit Types (w : world T).

Abbreviation w_conn w := (e_conn (w_ep w)).

(** Where the goroutine of the call begins. *)
Definition call_pc (k : call) (c : Conn) : option pc :=
  match k with
  | CWrite q data => if validb (OpReserve q (zlen data)) c then Some (Wants (JChunk q data) (stream_priority q c)) else None
  | CFin q => if validb (OpFinish q) c then Some (Wants (JFin q) (stream_priority q c)) else None
  | CFlush => Some (Wants JFlush control_priority)
  | CDatagram data =>
      match Datagram_Len data with
      | Some n =>
          if (zlen data <? 2 ^ 60) && negb (datagramLimit c =? 0) && (n <=? datagramLimit c)
          then Some (Wants (JDatagram data) control_priority) else None
      | None => None
      end
  | CClose code reason =>
      if is_varintb code && (zlen reason <=? maxReasonLength)
      then Some (Ends (ErrApplication false code reason) (Some (ConnectionClose true code 0 reason))) else None
  end.

Lemma call_can_begin k c p : call_pc k c = Some p -> can_begin p c.
Proof using Type.
  destruct k; simpl.
  - destruct (_ && _) eqn:E; [|done]. intros [= <-]. apply (validb_ok (OpReserve q (zlen data))) in E as [H1 H2]. split_and!; [done|lia|done].
  - destruct (_ && _) eqn:E; [|done]. intros [= <-]. by apply (validb_ok (OpFinish q)) in E.
  - by intros [= <-].
  - destruct (Datagram_Len data) as [n|] eqn:E; [|done]. destruct (_ && _) eqn:Eb; [|done]. intros [= <-]. simpl.
    split_and!; [done|lia|lia|]. exists n. split; [done|lia].
  - destruct (_ && _) eqn:E; [|done]. intros [= <-]. apply andb_true_iff in E as [E1%is_varintb_ok E2]. simpl. split_and!; [done|done|lia].
Qed.

Fixpoint in_range_alongb (os : list op) (c : Conn) : bool :=
  match os with
  | [] => true
  | o :: os => in_rangeb c && in_range_alongb os (exec o c)
  end.

Lemma in_range_alongb_ok os c : in_range_alongb os c = true -> in_range_along os c.
Proof using Type. revert c. induction os as [|o os IH]; intros c; [done|]. simpl. intros [H1%in_rangeb_ok H2%IH]%andb_true_iff. done. Qed.

Definition in_range_recordb (now : Z) (rec : bytes) (c : Conn) : bool :=
  in_range_alongb (OpReceived now (zlen rec) :: (OpFrame now <$> (split_record (length rec) rec).1)) c.

(** * Turns *)

Inductive turn :=
| Section (o : op)             (* a critical section *)
| Call (t : nat) (k : call)    (* the goroutine [t] makes the call *)
| Run (t : nat) (now : Z)      (* the goroutine [t] runs up to its next point *)
| Hand (t t' : nat)            (* [t] releases the lock, and [t'] gets it *)
| ReadNext (t : nat) (now : Z) (* [readLoop] reads a record *).

(** The world after the turn, with the label of the step. *)
Definition wturn (s : turn) w : option (label * world T) :=
  match s with
  | Section o =>
      if in_rangeb (w_conn w) && silent o && validb o (w_conn w)
      then Some (Runs o, set_ep (set_conn (exec o (w_conn w)) (w_ep w)) w) else None
  | Call t k =>
      match w_pcs w !! t, call_pc k (w_conn w) with
      | None, Some p => Some (Internal, set_pc t p w)
      | _, _ => None
      end
  | Run t now =>
      match w_pcs w !! t with
      | Some (Wants j prio) =>
          let '(r, l) := acquire prio (w_lock w) in
          Some (Internal, set_pc t (match r with None => Holds j | Some ready => Waits j ready end) (set_lock l w))
      | Some (Leaves j err) =>
          match Unlock (w_lock w) with
          | (None, l) => Some (Internal, set_pc t (released j err) (set_lock l w))
          | _ => None
          end
      | Some p =>
          if in_rangeb (w_conn w) then
            '(p', e, o) ← advance now p (w_ep w); Some (Advances p, note o (set_pc t p' (set_ep e w)))
          else None
      | None => None
      end
  | Hand t t' =>
      match w_pcs w !! t, Unlock (w_lock w), w_pcs w !! t' with
      | Some (Leaves j err), (Some ready, l), Some (Waits j' ready') =>
          if bool_decide (ready' = ready)
          then Some (Internal, set_pc t' (Holds j') (set_pc t (released j err) (set_lock l w))) else None
      | _, _, _ => None
      end
  | ReadNext t now =>
      match readRecord (e_tr (w_ep w)), w_pcs w !! t with
      | (inl rec, tr), None =>
          if (zlen rec <? 2 ^ 62) && in_range_recordb now rec (w_conn w) then
            let '(err, c) := handleRecord now rec (record_received now (zlen rec) (w_conn w)) in
            Some (Reads rec, set_pc t (match err with Some err => read_error err | None => Done end)
              (set_ep (set_conn c (set_tr tr (w_ep w))) w))
          else None
      | _, _ => None
      end
  end.

Lemma wturn_step s w r w' : wturn s w = Some (r, w') -> wstep w r w'.
Proof using Type.
  destruct s as [o|t k|t now|t t'|t now]; simpl; intros H.
  - destruct (_ && _) eqn:E; [|done]. apply andb_true_iff in E as [[E1%in_rangeb_ok E2]%andb_true_iff E3%validb_ok]. injection H as <- <-. by constructor.
  - destruct (w_pcs w !! t) eqn:Et; [done|]. destruct (call_pc k (w_conn w)) as [p|] eqn:E; [|done]. injection H as <- <-.
    constructor; [done|by eapply call_can_begin].
  - destruct (w_pcs w !! t) as [p|] eqn:Et; [|done].
    assert (Hadv : (if in_rangeb (w_conn w) then '(p', e, o) ← advance now p (w_ep w); Some (Advances p, note o (set_pc t p' (set_ep e w))) else None) = Some (r, w') ->
      wstep w r w').
    { destruct (in_rangeb _) eqn:E; [|done]. apply in_rangeb_ok in E. destruct (advance now p (w_ep w)) as [[[p' e] o]|] eqn:Ea; [|done].
      simpl. intros [= <- <-]. by eapply w_advance. }
    destruct p; try (by apply Hadv); clear Hadv.
    + destruct (acquire prio (w_lock w)) as [x l] eqn:E. injection H as <- <-. by eapply w_acquire.
    + destruct (Unlock (w_lock w)) as [[ready|] l] eqn:E; [done|]. injection H as <- <-. by eapply w_unlock.
  - destruct (w_pcs w !! t) as [p|] eqn:Et; [|done]. destruct p; try done. destruct (Unlock (w_lock w)) as [[ready|] l] eqn:E; [|done].
    destruct (w_pcs w !! t') as [q|] eqn:Et'; [|done]. destruct q; try done. destruct (bool_decide _) eqn:Eb; [|done].
    apply bool_decide_eq_true in Eb as ->. injection H as <- <-. by eapply w_handoff.
  - destruct (readRecord (e_tr (w_ep w))) as [[rec|err] tr] eqn:Er; [|done]. destruct (w_pcs w !! t) eqn:Et; [done|]. destruct (_ && _) eqn:E; [|done].
    apply andb_true_iff in E as [E1 E2%in_range_alongb_ok]. destruct (handleRecord _ _ _) as [err c] eqn:Eh. injection H as <- <-.
    eapply w_read; try done. lia.
Qed.

Fixpoint wturns (ss : list turn) w : option (world T) :=
  match ss with
  | [] => Some w
  | s :: ss => '(_, w) ← wturn s w; wturns ss w
  end.

Lemma wturns_steps ss w w' : wturns ss w = Some w' -> wsteps w w'.
Proof using Type.
  revert w. induction ss as [|s ss IH]; intros w; simpl; [intros [= <-]; apply rtc_refl|].
  destruct (wturn s w) as [[r w1]|] eqn:E; [|done]. simpl. intros H. eapply rtc_l; [exists r; by eapply wturn_step|by apply IH].
Qed.
End schedule.

(** * Turns of two endpoints *)

Section net.
Context {V : QuicVarint} {GA : GoAppend}.
Context {TA : Type} {RTA : RecordTransport TA} {TB : Type} {RTB : RecordTransport TB}.
Implicit Types (x : net TA TB).

(** How many records were read then: what is read is what the other has written. *)
Definition next_read (l : label) (wire : list bytes) (i : nat) : option nat :=
  match l with
  | Reads rec => if bool_decide (wire !! i = Some rec) then Some (S i) else None
  | _ => Some i
  end.

Lemma next_read_ok l wire i i' : next_read l wire i = Some i' -> reads_next l wire i i'.
Proof using Type.
  destruct l; simpl; [congruence..|]. destruct (bool_decide _) eqn:E; [|done]. apply bool_decide_eq_true in E. by intros [= <-].
Qed.

(** [true] is the client. *)
Definition nturn (s : bool * turn) x : option (label * net TA TB) :=
  let '(mkNet a i b j) := x in
  if s.1 then
    '(l, a') ← wturn s.2 a; i' ← next_read l (w_wire b) i; Some (l, mkNet a' i' b j)
  else
    '(l, b') ← wturn s.2 b; j' ← next_read l (w_wire a) j; Some (l, mkNet a i b' j').

Lemma nturn_step s x l x' : nturn s x = Some (l, x') -> nstep x (s.1, l) x'.
Proof using Type.
  destruct x as [a i b j]. unfold nturn. destruct s as [[] s]; cbn [fst snd].
  - destruct (wturn s a) as [[r a']|] eqn:E; simpl; [|done]. destruct (next_read r _ i) as [i'|] eqn:En; [|done].
    intros [= <- <-]. constructor; [by eapply wturn_step|by apply next_read_ok].
  - destruct (wturn s b) as [[r b']|] eqn:E; simpl; [|done]. destruct (next_read r _ j) as [j'|] eqn:En; [|done].
    intros [= <- <-]. constructor; [by eapply wturn_step|by apply next_read_ok].
Qed.

Fixpoint nturns (ss : list (bool * turn)) x : option (net TA TB) :=
  match ss with
  | [] => Some x
  | s :: ss => '(_, x) ← nturn s x; nturns ss x
  end.

Lemma nturns_steps ss x x' : nturns ss x = Some x' -> nsteps x x'.
Proof using Type.
  revert x. induction ss as [|s ss IH]; intros x; simpl; [intros [= <-]; apply rtc_refl|].
  destruct (nturn s x) as [[l x1]|] eqn:E; [|done]. simpl. intros H. eapply rtc_l; [eexists; by eapply nturn_step|by apply IH].
Qed.

(** The same, with what is written to the stream [id] on one side and read from
    the stream [p] on the other. *)
Fixpoint transfers (up : bool) (id : Z) (p : nat) (ss : list (bool * turn)) (W rd : bytes) x : option (bytes * bytes * net TA TB) :=
  match ss with
  | [] => Some (W, rd, x)
  | s :: ss =>
      '(l, x') ← nturn s x;
      transfers up id p ss (W ++ (if eqb s.1 up then taken id l (conn_at s.1 x) else []))
        (rd ++ (if eqb s.1 up then [] else got p l (conn_at s.1 x))) x'
  end.

Lemma transfers_ok cfgA cfgB trA trB nowA nowB up id p ss W rd x W' rd' x' :
  transfer cfgA cfgB trA trB nowA nowB up id p W rd x -> transfers up id p ss W rd x = Some (W', rd', x') ->
  transfer cfgA cfgB trA trB nowA nowB up id p W' rd' x'.
Proof using Type.
  revert W rd x. induction ss as [|s ss IH]; intros W rd x Hx; cbn [transfers]; [by intros [= <- <- <-]|].
  destruct (nturn s x) as [[l x1]|] eqn:E; [|done]. simpl. apply IH. eapply transfer_step; [exact Hx|by apply nturn_step].
Qed.
End net.
