(* ===== verification/Meeting.v ===== *)
(** A client and a server meet: concrete schedules of their goroutines, and the
    theorems about all schedules at the worlds that these reach. *)

From stdpp Require Import relations.
From S2P Require Import Prelude Varint Params Frame Heap WriteLock Config State Core Stream Conn System Transport Endpoint Wire Scenario FrameTheorems EndpointTheorems Refine Sender Api Peers Interop Goroutines Serial Order Concurrent Transfer Schedule.

#[local] Existing Instance RFC9000.varint.
#[local] Existing Instance RFC9000.laws.
#[local] Existing Instance Doubling.doubling.

(** * Transports *)

Definition record_with (fs : list frame) : bytes := default [] (append_frames fs []).

Definition hello_record : bytes := record_with [TransportParameters (localParameters DefaultConfig)].

(** A byte stream on which these records arrive. *)
Definition wire_to (rs : list bytes) : streamTransport :=
  newStreamTransport (mkNetConn (mjoin (on_wire <$> rs)) ErrEOF [] None true None 0 false false) DefaultMaxRecordSize.

Lemma wire_to_carries rs : carries (wire_to rs) [].
Proof. done. Qed.

Lemma default_ok : config_ok DefaultConfig.
Proof. by apply (normalized_ok None). Qed.

(** * A connection that closes at once *)

(** While [writeLoop] holds the lock for the transport parameters, the
    application closes the connection and [writeLoop]'s next flush gets in the
    queue behind it. *)
Definition at_once : world streamTransport := new_world (wire_to []) DefaultConfig false 0.

Definition closing_turns : list Schedule.turn :=
  [Run 0 1; Call 1 (CClose 7 (str "bye")); Run 1 2; Run 1 2; Run 1 2; Call 2 CFlush; Run 2 2; Run 0 3; Hand 0 1;
   Run 1 4; Run 1 4; Hand 1 2; Run 2 5; Run 2 5].

Definition closed_world : world streamTransport := default at_once (wturns closing_turns at_once).

Lemma closed_world_of : world_of DefaultConfig false (wire_to []) 0 closed_world.
Proof. apply (wturns_steps closing_turns). vm_compute. reflexivity. Qed.

Lemma records_in_order_witness :
  world_of DefaultConfig false (wire_to []) 0 closed_world /\
  w_wire closed_world = [hello_record; record_with [ConnectionClose true 7 0 (str "bye")]] /\
  exists gs fs, frames_in (w_wire closed_world) gs /\ gs ++ (frame_received <$> fs) = frame_received <$> w_given closed_world.
Proof.
  split; [exact closed_world_of|]. split; [vm_compute; reflexivity|].
  destruct (proj2 (records_in_order DefaultConfig false default_ok (wire_to []) 0 (wire_to_carries []) closed_world closed_world_of))
    as [_ (gs & fs & H1 & H2 & _)]; [vm_compute; reflexivity|]. exact (ex_intro _ gs (ex_intro _ fs (conj H1 H2))).
Defined.

Lemma first_and_last_frame_witness :
  world_of DefaultConfig false (wire_to []) 0 closed_world /\ w_refused closed_world = false /\
  exists gs, frames_in (w_wire closed_world) gs /\ forall i f, gs !! i = Some f -> is_close f = true -> S i = length gs.
Proof.
  split; [exact closed_world_of|]. assert (Hr : w_refused closed_world = false) by (vm_compute; reflexivity). split; [exact Hr|].
  destruct (first_and_last_frame DefaultConfig false default_ok (wire_to []) 0 (wire_to_carries []) closed_world closed_world_of Hr)
    as (gs & _ & H1 & _ & H2). exact (ex_intro _ gs (conj H1 H2)).
Defined.

(** The same before the transport parameters are written: the goroutine 1 has
    closed the connection and waits for the lock. *)
Definition closing_world : world streamTransport := default at_once (wturns (take 5 closing_turns) at_once).

Lemma closing_world_of : world_of DefaultConfig false (wire_to []) 0 closing_world.
Proof. apply (wturns_steps (take 5 closing_turns)). vm_compute. reflexivity. Qed.

Lemma goroutines_progress_witness :
  in_range (e_conn (w_ep closing_world)) /\
  w_pcs closing_world !! 1%nat = Some (Waits (JClose (ConnectionClose true 7 0 (str "bye"))) 0) /\ busy closing_world.
Proof.
  assert (Hr : in_range (e_conn (w_ep closing_world))) by (apply in_rangeb_ok; vm_compute; reflexivity). split; [exact Hr|].
  assert (Ht : w_pcs closing_world !! 1%nat = Some (Waits (JClose (ConnectionClose true 7 0 (str "bye"))) 0)) by (vm_compute; reflexivity).
  split; [exact Ht|].
  exact (goroutines_progress DefaultConfig false default_ok (wire_to []) 0 (wire_to_carries []) closing_world 1 _ closing_world_of Hr Ht).
Defined.

(** * A client that writes *)

(** Two goroutines of the client, one that writes and one that ends the stream,
    contend for the lock; the server reads the first record of the stream while
    the second is not on the transport yet. *)
Definition data_record : bytes := record_with [Stream 0 0 (str "hello") false].
Definition fin_record : bytes := record_with [Stream 0 5 [] true].

Definition meeting : net streamTransport streamTransport :=
  new_net DefaultConfig DefaultConfig (wire_to [hello_record]) (wire_to [hello_record; data_record; fin_record]) 0 0.

Definition greeting_turns : list (bool * Schedule.turn) :=
  [(true, Run 0 1); (false, Run 0 1); (true, Run 0 1); (true, Run 0 1); (false, Run 0 1);
   (true, ReadNext 9 2); (false, ReadNext 9 2); (false, Run 0 3)].

Definition writing_turns : list (bool * Schedule.turn) :=
  [(true, Section (OpOpen dirBidi)); (true, Call 1 (CWrite 0 (str "hello"))); (true, Call 2 (CFin 0));
   (true, Run 1 4); (true, Run 2 4); (true, Run 1 4); (true, Section (OpRequestPing 4)); (true, Run 1 5); (true, Hand 1 2);
   (true, Run 2 5); (false, ReadNext 9 6); (true, Run 2 7)].

Definition met : net streamTransport streamTransport := default meeting (nturns (greeting_turns ++ writing_turns) meeting).

Lemma met_steps : nsteps meeting met.
Proof. apply (nturns_steps (greeting_turns ++ writing_turns)). vm_compute. reflexivity. Qed.

Lemma met_healthy : healthy met.
Proof. split_and!; vm_compute; reflexivity. Qed.

Lemma goroutines_refine_pair_witness :
  healthy met /\ read_b met = 2%nat /\ w_wire (net_a met) = [hello_record; data_record; fin_record] /\
  exists y, paired DefaultConfig DefaultConfig y /\ stands_for DefaultConfig DefaultConfig y met.
Proof.
  split; [exact met_healthy|]. split; [vm_compute; reflexivity|]. split; [vm_compute; reflexivity|].
  exact (goroutines_refine_pair DefaultConfig DefaultConfig default_ok default_ok (wire_to [hello_record])
    (wire_to [hello_record; data_record; fin_record]) 0 0 (wire_to_carries _) (wire_to_carries _) met met_steps met_healthy).
Defined.

Lemma records_never_rejected_witness :
  w_wire (net_a met) !! 2%nat = Some fin_record /\ zlen fin_record <= cfg_MaxRecordSize DefaultConfig /\
  (handleRecord 8 fin_record (record_received 8 (zlen fin_record) (e_conn (w_ep (net_b met))))).1 = None.
Proof.
  assert (Hrec : w_wire (net_a met) !! 2%nat = Some fin_record) by (vm_compute; reflexivity). split; [exact Hrec|].
  destruct (proj2 (records_never_rejected DefaultConfig DefaultConfig default_ok default_ok (wire_to [hello_record])
    (wire_to [hello_record; data_record; fin_record]) 0 0 (wire_to_carries _) (wire_to_carries _) met 8 fin_record met_steps met_healthy) Hrec)
    as (H1 & _ & H2). split; [exact H1|]. apply H2.
  apply (in_range_alongb_ok _ (e_conn (w_ep (net_b met)))). vm_compute. reflexivity.
Defined.

(** The server reads the stream to its end, while the client sends a ping. *)
Definition reading_turns : list (bool * Schedule.turn) :=
  [(false, Section (OpAccept dirBidi)); (false, Section (OpRead 0 3)); (true, Run 2 8); (false, ReadNext 9 8); (true, Call 3 CFlush);
   (true, Run 3 9); (false, Section (OpRead 0 10)); (true, Run 3 9)].

Definition read_all : net streamTransport streamTransport :=
  default meeting (nturns (greeting_turns ++ writing_turns ++ reading_turns) meeting).

Lemma read_all_transfer :
  transfer DefaultConfig DefaultConfig (wire_to [hello_record]) (wire_to [hello_record; data_record; fin_record]) 0 0
    true 0 0 (str "hello") (str "hello") read_all.
Proof.
  eapply (transfers_ok _ _ _ _ _ _ true 0 0 (greeting_turns ++ writing_turns ++ reading_turns)); [apply transfer_new|].
  vm_compute. reflexivity.
Qed.

Lemma streams_deliver_witness :
  tryRead 0 1 (conn_at false read_all) = (TryDone [] (Some ErrEOF), conn_at false read_all) /\
  str "hello" `prefix_of` str "hello" /\ ended_id 0 (conn_at true read_all).
Proof.
  assert (E : tryRead 0 1 (conn_at false read_all) = (TryDone [] (Some ErrEOF), conn_at false read_all)) by (vm_compute; reflexivity).
  split; [exact E|].
  destruct (streams_deliver DefaultConfig DefaultConfig default_ok default_ok (wire_to [hello_record])
    (wire_to [hello_record; data_record; fin_record]) 0 0 (wire_to_carries _) (wire_to_carries _) true 0 0 _ _ read_all read_all_transfer)
    as [H1 H2]; [vm_compute; reflexivity|vm_compute; lia|vm_compute; reflexivity|].
  split; [exact H1|]. apply (H2 1%nat (conn_at false read_all)); [vm_compute; reflexivity|exact E].
Defined.
