(* ===== verification/Witnesses.v ===== *)
(** The theorems about connections and endpoints at concrete states, with their
    hypotheses checked by computation. *)

From stdpp Require Import relations.
From S2P Require Import Prelude Varint Params Frame WriteLock Config State Core Stream Conn Transport Endpoint System Facts Ids Table Flow Life Control Wake Wire Scenario ConnTheorems LifeTheorems History FrameTheorems EndpointTheorems Refine Calls Grow Sender Receiver Delivery Api Contracts Peers Ahead Compat Interop Credit Settle Closing Release Grammar.

#[local] Existing Instance RFC9000.varint.
#[local] Existing Instance RFC9000.laws.
#[local] Existing Instance Doubling.doubling.

(** * A connection in use *)

Lemma demo_config : config_ok DefaultConfig.
Proof. by apply (normalized_ok None). Qed.

Definition demo : Conn := default demo_start (run demo_ops demo_start).

Lemma demo_reach : reach DefaultConfig false demo.
Proof. apply (run_reach _ _ demo_ops demo_start); [constructor|vm_compute; reflexivity]. Qed.

Lemma demo_range : in_range demo.
Proof. apply in_rangeb_ok. vm_compute. reflexivity. Qed.

Lemma demo_ptr p : (p < 4)%nat -> ptr demo p.
Proof. intros H. assert (E : length (c_heap demo) = 4%nat) by (vm_compute; reflexivity). lia. Qed.

(** The state after more operations. *)
Definition then_run (c : Conn) (ops : list op) : Conn := default c (run ops c).

Lemma then_steps c ops : bool_decide (is_Some (run ops c)) = true -> steps c (then_run c ops).
Proof. intros H%bool_decide_eq_true. destruct H as [c' E]. unfold then_run. rewrite E. by eapply run_steps. Qed.

Lemma stream_table_exact_witness :
  c_closeErr demo = None /\ c_streams demo !! 1 = Some 2%nat.
Proof.
  assert (Ho : c_closeErr demo = None) by (vm_compute; reflexivity). split; [exact Ho|].
  apply (proj1 (proj2 (proj2 (stream_table_exact DefaultConfig false demo demo_config demo_reach))) Ho).
  split; [apply demo_ptr; lia|]. split; vm_compute; reflexivity.
Defined.

Lemma incoming_streams_bounded_witness :
  opened demo dirBidi = 1 /\ opened demo dirBidi - finished demo dirBidi <= 100.
Proof.
  split; [vm_compute; reflexivity|].
  exact (proj1 (incoming_streams_bounded DefaultConfig false demo demo_config demo_reach dirBidi)).
Defined.

Lemma stream_receive_window_witness :
  ptr demo 2 /\ unread (deref demo 2) = str "lo" /\
  s_readOffset (deref demo 2) + zlen (unread (deref demo 2)) = s_recvOffset (deref demo 2).
Proof.
  assert (Hp : ptr demo 2) by (apply demo_ptr; lia). split; [exact Hp|]. split; [vm_compute; reflexivity|].
  apply (stream_receive_window DefaultConfig false demo demo_config demo_reach 2 Hp). vm_compute. reflexivity.
Defined.

Lemma connection_receive_window_witness :
  c_received demo = 7 /\ c_received demo - c_consumed demo = sumZ (fun s => zlen (unread s)) (c_heap demo).
Proof.
  split; [vm_compute; reflexivity|].
  exact (proj1 (proj2 (connection_receive_window DefaultConfig false demo demo_config demo_reach))).
Defined.

(** The peer's stream after the rest of its data was read. *)
Definition drained : Conn := then_run demo [OpRead 2 10].

Lemma drained_reach : reach DefaultConfig false drained.
Proof.
  apply (run_reach _ _ [OpRead 2 10] demo); [exact demo_reach|vm_compute; reflexivity].
Qed.

Lemma peer_credit_restored_witness :
  unread (deref drained 2) = [] /\ s_recvOffset (deref drained 2) + 262144 <= s_recvMax (deref drained 2).
Proof.
  assert (Hu : unread (deref drained 2) = []) by (vm_compute; reflexivity). split; [exact Hu|].
  apply (proj1 (peer_credit_restored DefaultConfig false drained demo_config drained_reach) 2%nat);
    try exact Hu; try (vm_compute; reflexivity).
  assert (E : length (c_heap drained) = 4%nat) by (vm_compute; reflexivity). lia.
Defined.

Lemma send_within_limits_witness : ptr demo 0 /\ 0 <= s_sendOffset (deref demo 0) <= s_sendMax (deref demo 0).
Proof.
  assert (Hp : ptr demo 0) by (apply demo_ptr; lia). split; [exact Hp|].
  exact (proj1 (send_within_limits DefaultConfig false demo demo_config demo_reach) 0%nat Hp).
Defined.

(** * Blocked calls *)

Lemma drained_range : in_range drained.
Proof. apply in_rangeb_ok. vm_compute. reflexivity. Qed.

Lemma holds_recv_check c p : holdsb c p && s_canRecv (deref c p) = true -> holds_recv c p.
Proof. intros [H1 H2]%andb_true_iff. split; [by apply holdsb_ok|done]. Qed.

Lemma holds_send_check c p : holdsb c p && s_canSend (deref c p) = true -> holds_send c p.
Proof. intros [H1 H2]%andb_true_iff. split; [by apply holdsb_ok|done]. Qed.

(** A reader of the drained stream waits; then the peer opens another stream. *)
Definition reader : Conn := (tryRead 2 10 drained).2.
Definition other_ops : list op := [OpFrame 9 (Stream 5 0 (str "x") false); OpAccept dirBidi].

Lemma read_no_lost_wakeup_witness :
  tryRead 2 10 drained = (TryWait 0 0, reader) /\
  (tryRead 2 10 (then_run reader other_ops)).1 = TryWait 0 0.
Proof.
  assert (E : tryRead 2 10 drained = (TryWait 0 0, reader)) by (vm_compute; reflexivity). split; [exact E|].
  refine (proj1 (read_no_lost_wakeup DefaultConfig false drained demo_config drained_reach drained_range
    2 10 0 0 reader (then_run reader other_ops) _ _ _) E).
  - apply holds_recv_check. vm_compute. reflexivity.
  - apply then_steps. vm_compute. reflexivity.
  - apply (bool_decide_eq_false (0%nat ∈ c_closed (then_run reader other_ops))). vm_compute. reflexivity.
Defined.

(** The stream 0 without credit: a kilobyte was sent. *)
Definition spent : Conn := then_run demo [OpReserve 0 700].

Lemma spent_reach : reach DefaultConfig false spent.
Proof. apply (run_reach _ _ [OpReserve 0 700] demo); [exact demo_reach|vm_compute; reflexivity]. Qed.

Lemma spent_range : in_range spent.
Proof. apply in_rangeb_ok. vm_compute. reflexivity. Qed.

Definition writer : Conn := (trySend 10 0 spent).2.

Lemma write_no_lost_wakeup_witness :
  trySend 10 0 spent = (SendWait 0 1 0, writer) /\
  (trySend 20 0 (then_run writer other_ops)).1 = SendWait 0 1 0.
Proof.
  assert (E : trySend 10 0 spent = (SendWait 0 1 0, writer)) by (vm_compute; reflexivity). split; [exact E|].
  refine (write_no_lost_wakeup DefaultConfig false spent demo_config spent_reach spent_range
    10 20 0 0 1 0 writer (then_run writer other_ops) _ E _ _ _).
  - apply holds_send_check. vm_compute. reflexivity.
  - apply then_steps. vm_compute. reflexivity.
  - apply (bool_decide_eq_false (0%nat ∈ c_closed (then_run writer other_ops))). vm_compute. reflexivity.
  - apply (bool_decide_eq_false (1%nat ∈ c_closed (then_run writer other_ops))). vm_compute. reflexivity.
Defined.

Definition acceptor : Conn := (tryAccept dirUni drained).2.

Lemma open_accept_no_lost_wakeup_witness :
  tryAccept dirUni drained = (OpenWait 0, acceptor) /\
  (tryAccept dirUni (then_run acceptor other_ops)).1 = OpenWait 0.
Proof.
  assert (E : tryAccept dirUni drained = (OpenWait 0, acceptor)) by (vm_compute; reflexivity). split; [exact E|].
  refine (proj2 (open_accept_no_lost_wakeup DefaultConfig false drained demo_config drained_reach drained_range
    dirUni 0 acceptor (then_run acceptor other_ops) _ _) E).
  - apply then_steps. vm_compute. reflexivity.
  - apply (bool_decide_eq_false (0%nat ∈ c_closed (then_run acceptor other_ops))). vm_compute. reflexivity.
Defined.

Definition closing_ops : list op := other_ops ++ [OpTerminate ErrIdleTimeout].

Lemma close_unblocks_witness :
  c_closeErr (then_run reader closing_ops) = Some ErrIdleTimeout /\
  0%nat ∈ c_closed (then_run reader closing_ops) /\
  tryRead 2 10 (then_run reader closing_ops) = (TryDone [] (Some ErrIdleTimeout), then_run reader closing_ops).
Proof.
  assert (Hc : c_closeErr (then_run reader closing_ops) = Some ErrIdleTimeout) by (vm_compute; reflexivity).
  split; [exact Hc|].
  refine (proj1 (close_unblocks DefaultConfig false drained demo_config drained_reach drained_range
    reader (then_run reader closing_ops) ErrIdleTimeout _ Hc) 2%nat 10%nat 0%nat 0 _ _).
  - apply then_steps. vm_compute. reflexivity.
  - apply holds_recv_check. vm_compute. reflexivity.
  - vm_compute. reflexivity.
Defined.

(** * The life of streams and of the connection *)

Lemma no_panic_witness : reach DefaultConfig false demo /\ c_panicked demo = false.
Proof. split; [exact demo_reach|]. exact (proj1 (no_panic DefaultConfig false demo demo_config demo_reach)). Defined.

(** The unidirectional stream of the peer was read to its end. *)
Lemma stream_done_exact_witness :
  ptr demo 3 /\ (s_done (deref demo 3) = true <->
    s_accepted (deref demo 3) = true /\ recvDone (deref demo 3) = true /\ sendDone (deref demo 3) = true).
Proof.
  assert (Hp : ptr demo 3) by (apply demo_ptr; lia). split; [exact Hp|].
  exact (proj1 (stream_done_exact DefaultConfig false demo demo_config demo_reach 3 Hp)).
Defined.

Lemma terminate_ends_witness :
  c_closeErr demo = None /\
  exists c', terminate ErrIdleTimeout demo = (true, c') /\ c_closeErr c' = Some ErrIdleTimeout.
Proof.
  assert (Hc : c_closeErr demo = None) by (vm_compute; reflexivity). split; [exact Hc|].
  destruct (terminate_ends DefaultConfig false demo demo_config demo_reach ErrIdleTimeout Hc) as (c' & E & Hc' & _).
  exists c'. split; [exact E|exact Hc'].
Defined.

(** * The data of a stream *)

Fixpoint log_of (p : nat) (ops : list op) (c : Conn) (rcv rd : bytes) (chs : list (Z * Z))
    : bytes * bytes * list (Z * Z) :=
  match ops with
  | [] => (rcv, rd, chs)
  | o :: ops => log_of p ops (exec o c) (rcv ++ delivered p o c) (rd ++ returned p o c) (chs ++ chunk p o c)
  end.

Lemma log_of_logged cfg isServer p ops c c' rcv rd chs :
  logged cfg isServer p rcv rd chs c -> run ops c = Some c' ->
  let '(rcv', rd', chs') := log_of p ops c rcv rd chs in logged cfg isServer p rcv' rd' chs' c'.
Proof.
  revert c rcv rd chs. induction ops as [|o ops IH]; intros c rcv rd chs Hl E; simpl in *; [by simplify_eq|].
  destruct (_ && _) eqn:Ev; [|done]. apply andb_true_iff in Ev as [Hi%in_rangeb_ok Hv%validb_ok].
  apply IH; [by constructor|done].
Qed.

Lemma demo_log p :
  let '(rcv, rd, chs) := log_of p demo_ops demo_start [] [] [] in logged DefaultConfig false p rcv rd chs demo.
Proof. apply log_of_logged; [constructor|vm_compute; reflexivity]. Qed.

Lemma stream_data_in_order_witness :
  logged DefaultConfig false 2 (str "hello") (str "hel") [] demo /\
  str "hello" = str "hel" ++ unread (deref demo 2).
Proof.
  assert (Hl : logged DefaultConfig false 2 (str "hello") (str "hel") [] demo) by exact (demo_log 2).
  split; [exact Hl|].
  apply (stream_data_in_order DefaultConfig false 2 _ _ _ demo demo_config Hl). vm_compute. reflexivity.
Defined.

Lemma stream_sends_in_order_witness :
  logged DefaultConfig false 0 [] [] [(0, 700)] demo /\ tiles 0 [(0, 700)] (s_sendOffset (deref demo 0)).
Proof.
  assert (Hl : logged DefaultConfig false 0 [] [] [(0, 700)] demo) by exact (demo_log 0).
  split; [exact Hl|]. exact (stream_sends_in_order DefaultConfig false 0 _ _ _ demo demo_config Hl).
Defined.

Lemma demo_send p : (p = 0 \/ p = 1)%nat -> holds_send demo p.
Proof. intros [-> | ->]; apply holds_send_check; vm_compute; reflexivity. Qed.

Lemma final_size_is_final_witness :
  finish 0 demo = (inl (Some 700), (finish 0 demo).2) /\ 700 = s_sendOffset (deref demo 0).
Proof.
  assert (E : finish 0 demo = (inl (Some 700), (finish 0 demo).2)) by (vm_compute; reflexivity). split; [exact E|].
  refine (proj1 (final_size_is_final DefaultConfig false demo demo_config demo_reach demo_range
    0 700 0 _ (demo_send 0 (or_introl eq_refl)) _ _ (or_introl E))).
  - vm_compute. reflexivity.
  - unfold is_varint. lia.
Defined.

(** * Frames *)

Lemma demo_open : c_closeErr demo = None.
Proof. vm_compute. reflexivity. Qed.

Lemma demo_ready : c_ready demo = true.
Proof. vm_compute. reflexivity. Qed.

Lemma streamLocked_classified_witness :
  let x := streamLocked 9 true demo in
  x.1 = inl (Some 5%nat) /\ ptr x.2 5 /\ s_id (deref x.2 5) = 9.
Proof.
  cbv zeta. assert (E : streamLocked 9 true demo = (inl (Some 5%nat), (streamLocked 9 true demo).2))
    by (vm_compute; reflexivity).
  split; [vm_compute; reflexivity|].
  pose proof (streamLocked_classified DefaultConfig false demo demo_config demo_reach demo_range demo_open demo_ready
    9 true _ _ ltac:(unfold is_varint; lia) E) as H. cbv zeta in H.
  destruct H as (_ & _ & _ & H). destruct (proj1 (H 5%nat) eq_refl) as (H1 & H2 & _). split; [exact H1|exact H2].
Defined.

Lemma stream_frame_exact_witness :
  handleStreamLocked 1 5 (str "!") false demo = (None, (handleStreamLocked 1 5 (str "!") false demo).2) /\
  unread (deref (handleStreamLocked 1 5 (str "!") false demo).2 2) = str "lo!".
Proof.
  assert (E1 : streamLocked 1 true demo = (inl (Some 2%nat), (streamLocked 1 true demo).2)) by (vm_compute; reflexivity).
  assert (E2 : handleStreamLocked 1 5 (str "!") false demo = (None, (handleStreamLocked 1 5 (str "!") false demo).2))
    by (vm_compute; reflexivity).
  split; [exact E2|].
  destruct (stream_frame_exact DefaultConfig false demo demo_config demo_reach demo_range demo_open demo_ready
    1 5 (str "!") false 2 _ _ _ ltac:(vm_compute; split; congruence) E1 E2)
    as [(e & He & _)|[(_ & _ & _ & Hd & _)|(_ & _ & _ & _ & _ & _ & _ & _ & Hu & _)]];
    [discriminate He|discriminate Hd|].
  rewrite Hu. vm_compute. reflexivity.
Defined.

Lemma reset_frame_exact_witness :
  handleResetStreamLocked 1 7 100 demo = (None, (handleResetStreamLocked 1 7 100 demo).2) /\
  c_consumed (handleResetStreamLocked 1 7 100 demo).2 = 102.
Proof.
  assert (E1 : streamLocked 1 true demo = (inl (Some 2%nat), (streamLocked 1 true demo).2)) by (vm_compute; reflexivity).
  assert (E2 : handleResetStreamLocked 1 7 100 demo = (None, (handleResetStreamLocked 1 7 100 demo).2))
    by (vm_compute; reflexivity).
  split; [exact E2|].
  destruct (reset_frame_exact DefaultConfig false demo demo_config demo_reach demo_range demo_open demo_ready
    1 7 100 2 _ _ _ ltac:(unfold is_varint; lia) E1 E2)
    as [(e & He & _)|[(_ & _ & Hd & _)|(_ & _ & _ & _ & _ & _ & _ & _ & _ & _ & Hc & _)]];
    [discriminate He|vm_compute in Hd; discriminate Hd|].
  rewrite Hc. vm_compute. reflexivity.
Defined.

Definition two_frames : bytes := default [] (append_frames [Ping false 3; MaxData 5000] []).

Lemma handleRecord_exact_witness :
  c_closeErr demo = None /\
  handleRecord 9 two_frames demo = handle_frames 9 [Ping false 3; MaxData 5000] demo.
Proof.
  split; [exact demo_open|]. rewrite (proj2 (handleRecord_exact 9 two_frames demo demo_open)). vm_compute. reflexivity.
Defined.

(** * Endpoints *)

(** The connection on a message transport that has nothing to read, and on one
    where the peer sent two records. *)
Definition an_endpoint (c : Conn) (input : list bytes) : endpoint (messageTransport Queue.conn) :=
  mkEndpoint c (mkMessageTransport (Queue.mkConn input [] false) DefaultMaxRecordSize) (replicate 8 (z2b 0)) None.

Lemma an_endpoint_carries c input : carries (e_tr (an_endpoint c input)) [].
Proof. cbv. reflexivity. Qed.

Lemma an_endpoint_wbuf c input : wbuf_ok (an_endpoint c input).
Proof. reflexivity. Qed.

(** The connection has frames to send: a response to a ping, and a reset. *)
Definition busy : Conn := then_run demo [OpFrame 9 (Ping false 3); OpCancelWrite 0 5].

Lemma busy_reach : reach DefaultConfig false busy.
Proof.
  apply (run_reach _ _ [OpFrame 9 (Ping false 3); OpCancelWrite 0 5] demo); [exact demo_reach|vm_compute; reflexivity].
Qed.

Lemma busy_range : in_range busy.
Proof. apply in_rangeb_ok. vm_compute. reflexivity. Qed.

Lemma flushControl_delivers_witness :
  (takeControl 10 busy).1 = [ResetStream 0 5 700; MaxStreams true 101; Ping true 3] /\
  exists r e', flushControl 10 (an_endpoint busy []) = Some (r, e') /\ wbuf_ok e'.
Proof.
  split; [vm_compute; reflexivity|].
  destruct (flushControl_delivers DefaultConfig false (an_endpoint busy []) [] demo_config busy_reach busy_range
    (an_endpoint_wbuf _ _) (an_endpoint_carries _ _) 10) as (r & e' & H1 & H2 & _).
  exists r, e'. split; [exact H1|exact H2].
Defined.

Lemma writeChunk_exact_witness :
  holds_send demo 0 /\
  exists n err e', writeChunk 10 0 (str "data") (an_endpoint demo []) = Some (n, err, e') /\ wbuf_ok e'.
Proof.
  assert (Hh : holds_send demo 0) by exact (demo_send 0 (or_introl eq_refl)). split; [exact Hh|].
  destruct (writeChunk_exact DefaultConfig false (an_endpoint demo []) [] demo_config demo_reach demo_range
    (an_endpoint_wbuf _ _) (an_endpoint_carries _ _) 10 0 (str "data") Hh ltac:(vm_compute; congruence)) as (n & err & e' & H1 & H2 & _).
  exists n, err, e'. split; [exact H1|exact H2].
Defined.

Lemma closeSend_exact_witness :
  holds_send demo 0 /\
  exists err e', closeSend 10 0 (an_endpoint demo []) = Some (err, e') /\ wbuf_ok e'.
Proof.
  assert (Hh : holds_send demo 0) by exact (demo_send 0 (or_introl eq_refl)). split; [exact Hh|].
  destruct (closeSend_exact DefaultConfig false (an_endpoint demo []) [] demo_config demo_reach demo_range
    (an_endpoint_wbuf _ _) (an_endpoint_carries _ _) 10 0 Hh) as (err & e' & H1 & H2 & _).
  exists err, e'. split; [exact H1|exact H2].
Defined.

Lemma CloseWithError_exact_witness :
  c_closeErr demo = None /\
  exists e' reason, CloseWithError 10 7 (str "bye") (an_endpoint demo []) = Some e' /\ reason = str "bye".
Proof.
  split; [exact demo_open|].
  destruct (CloseWithError_exact (an_endpoint demo []) [] (an_endpoint_wbuf _ _) (an_endpoint_carries _ _) 10 7 (str "bye")
    ltac:(unfold is_varint; lia) demo_open) as (e' & reason & H1 & _ & H2 & _).
  exists e', reason. split; [exact H1|]. apply H2. vm_compute. congruence.
Defined.

(** A record with data out of order. *)
Definition bad_record : bytes := default [] (append_frames [Stream 1 6 (str "x") false] []).

Definition bad_endpoint : endpoint (messageTransport Queue.conn) := an_endpoint demo [bad_record].

Lemma bad_result_eq :
  exists w c, handleRecord 10 bad_record (record_received 10 (zlen bad_record) (e_conn bad_endpoint)) = (Some (ErrWire w), c) /\
    err_Code w = ProtocolViolation.
Proof. do 2 eexists. split; vm_compute; reflexivity. Qed.

Lemma bad_delivers : delivers (e_tr bad_endpoint) [bad_record].
Proof. exists []. reflexivity. Qed.

Lemma bad_size : (max_record (e_tr bad_endpoint) <? zlen bad_record) = false /\ zlen bad_record < 2 ^ 62.
Proof. vm_compute. by split. Qed.

Lemma read_step_exact_witness :
  exists e', read_step 10 bad_endpoint = Some (true, e') /\
    exists reason, c_closeErr (e_conn e') = Some (ErrTransport false ProtocolViolation 0 reason).
Proof.
  destruct bad_result_eq as (w & c & E & Ew). destruct bad_size as [Hs Hl].
  destruct (read_step_exact bad_endpoint [] (an_endpoint_wbuf _ _) (an_endpoint_carries _ _) 10 bad_record []
    bad_delivers Hl demo_open) as (go & e' & H1 & H2).
  rewrite Hs in H2. rewrite E in H2.
  destruct H2 as (Hgo & reason & H2 & _). rewrite Hgo in H1. exists e'. split; [exact H1|]. exists reason.
  rewrite <- Ew. exact H2.
Defined.

Lemma close_reaches_peer_witness :
  c_closeErr demo = None /\
  exists a', CloseWithError 10 7 (str "bye") (an_endpoint demo []) = Some a' /\
    ends_both (TB := messageTransport Queue.conn) [] (ErrApplication false 7 (str "bye")) (ErrApplication true 7 (str "bye")) a'.
Proof.
  split; [exact demo_open|].
  destruct (close_reaches_peer (TB := messageTransport Queue.conn) (an_endpoint demo []) [] (an_endpoint_wbuf _ _) (an_endpoint_carries _ _)
    10 7 (str "bye") ltac:(lia) demo_open) as (a' & reason & H1 & _ & H2 & H3).
  exists a'. split; [exact H1|]. rewrite <- H2; [exact H3|vm_compute; congruence].
Defined.

(** The record that [CloseWithError] writes, on its way to a peer. *)
Definition bye_record : bytes := default [] (append_frames [ConnectionClose true 7 0 (str "bye")] []).

Example bye_arrives : ends_with 10 (ErrApplication true 7 (str "bye")) (an_endpoint demo [bye_record]).
Proof.
  apply (close_arrives 10 (an_endpoint demo [bye_record]) bye_record [] true 7 0 (str "bye")).
  - split; [by exists []|vm_compute; congruence|exact demo_open|vm_compute; reflexivity|apply an_endpoint_wbuf|eexists; apply an_endpoint_carries].
  - split; [vm_compute; split; congruence|vm_compute; reflexivity].
Qed.

Lemma violation_reported_witness :
  exists a' reason, read_step 10 bad_endpoint = Some (true, a') /\
    ends_both (TB := messageTransport Queue.conn) [] (ErrTransport false ProtocolViolation 0 reason) (ErrTransport true ProtocolViolation 0 reason) a'.
Proof.
  destruct bad_result_eq as (w & c & E & Ew). destruct bad_size as [Hs Hl]. rewrite <- Ew.
  apply (violation_reported (TB := messageTransport Queue.conn) bad_endpoint [] (an_endpoint_wbuf _ _) (an_endpoint_carries _ _) 10 bad_record []
    w bad_delivers); [apply Z.ltb_ge; exact Hs|exact Hl|exact demo_open|rewrite E; reflexivity].
Defined.

Lemma SendDatagram_exact_witness :
  zlen (str "ping") < 2 ^ 60 /\
  exists r e', SendDatagram 10 (str "ping") (an_endpoint demo []) = Some (r, e') /\ wbuf_ok e'.
Proof.
  split; [vm_compute; reflexivity|].
  destruct (SendDatagram_exact DefaultConfig false (an_endpoint demo []) [] demo_config demo_reach
    (an_endpoint_wbuf _ _) (an_endpoint_carries _ _) 10 (str "ping") ltac:(vm_compute; reflexivity)) as (r & e' & H1 & H2 & _).
  exists r, e'. split; [exact H1|exact H2].
Defined.

Lemma idle_timeout_exact_witness :
  c_idleTimeout demo = 10 * Second /\
  exists r, idle_step (5 * Second) (an_endpoint demo []) = Some r /\
    match r with inl (Some d) => 5 * Second + d = 10 * Second | _ => False end.
Proof.
  split; [vm_compute; reflexivity|].
  destruct (idle_timeout_exact (an_endpoint demo []) [] (an_endpoint_carries _ _) (5 * Second) demo_open) as (r & H1 & H2).
  - vm_compute. split; congruence.
  - vm_compute. split; congruence.
  - exists r. split; [exact H1|]. destruct r as [[d|]|e'].
    + destruct H2 as (_ & _ & H2). exact H2.
    + vm_compute in H2. apply H2. reflexivity.
    + destruct H2 as (_ & H2 & _). vm_compute in H2. apply H2. reflexivity.
Defined.

Lemma an_estep c o : valid o c -> estep (an_endpoint c []) (an_endpoint (exec o c) []).
Proof. intros H. by apply (es_locked _ _ o). Qed.

Lemma endpoint_refines_witness :
  estep (an_endpoint demo []) (an_endpoint (exec (OpOpen dirBidi) demo) []) /\
  exists os, runs os (e_conn (an_endpoint demo [])) (e_conn (an_endpoint (exec (OpOpen dirBidi) demo) [])).
Proof.
  assert (H : estep (an_endpoint demo []) (an_endpoint (exec (OpOpen dirBidi) demo) [])).
  { apply an_estep. exact I. }
  split; [exact H|]. destruct (endpoint_refines _ _ H) as (os & Hr & _). exists os. exact Hr.
Defined.

(** * Calls *)

(** A reader that waits, and another that returns. *)
Lemma read_contract_witness :
  rtc (read_call 2 10) (ReadTry, drained) (ReadWait (Some 0%nat) 0, reader) /\ s_readSignal (deref reader 2) = Some 0%nat /\
  rtc (read_call 2 10) (ReadTry, demo) (ReadDone (str "lo") None, (read_try 2 10 demo).2) /\ (length (str "lo") <= 10)%nat.
Proof.
  assert (H1 : rtc (read_call 2 10) (ReadTry, drained) (ReadWait (Some 0%nat) 0, reader)).
  { apply rtc_once. assert (E : read_try 2 10 drained = (ReadWait (Some 0%nat) 0, reader)) by (vm_compute; reflexivity).
    rewrite <- E. constructor. exact drained_range. }
  assert (H2 : rtc (read_call 2 10) (ReadTry, demo) (ReadDone (str "lo") None, (read_try 2 10 demo).2)).
  { apply rtc_once. assert (E : read_try 2 10 demo = (ReadDone (str "lo") None, (read_try 2 10 demo).2))
      by (vm_compute; reflexivity). rewrite <- E. constructor. exact demo_range. }
  split; [exact H1|]. split; [|split; [exact H2|]].
  - destruct (read_contract DefaultConfig false 2 10 drained _ _ demo_config drained_reach ltac:(apply holds_recv_check; vm_compute; reflexivity) H1) as (k & E & [Hk|[Hk _]]).
    + injection E as <-. exfalso. revert Hk. apply (bool_decide_eq_false (0%nat ∈ c_closed reader)). vm_compute. reflexivity.
    + injection E as <-. exact Hk.
  - apply (read_contract DefaultConfig false 2 10 demo _ _ demo_config demo_reach ltac:(apply holds_recv_check; vm_compute; reflexivity) H2).
Defined.







(** * The exported types *)

(** The application opens a stream, and reads from it later. *)
Definition demo_stream : Conn := (OpenStream demo).2.

Lemma methods_valid_witness :
  got demo (EStream 4) demo_stream /\ valid (OpRead 4 16) (then_run demo_stream other_ops).
Proof.
  assert (Hg : got demo (EStream 4) demo_stream) by (apply got_open; vm_compute; reflexivity). split; [exact Hg|].
  refine (methods_valid DefaultConfig false demo (EStream 4) demo_stream _ (Read 16) _ demo_config demo_reach Hg _ _ _ (runs_read 4 16)).
  - apply then_steps. vm_compute. reflexivity.
  - reflexivity.
  - exact I.
Defined.

(** * From one application to the other *)

(** A client opens a unidirectional stream, writes to it and ends it. *)
Definition sender_with (ops : list op) : endpoint (messageTransport Queue.conn) := an_endpoint (then_run demo_start ops) [].
Definition sender_start := sender_with [].
Definition sender_ready := sender_with [OpFrame 1 (TransportParameters demo_params)].
Definition sender_opened := sender_with [OpFrame 1 (TransportParameters demo_params); OpOpen dirUni].
Definition sender_wrote : endpoint (messageTransport Queue.conn) :=
  default sender_opened (snd <$> writeChunk 3 0 (str "hello") sender_opened).
Definition sender_ended : endpoint (messageTransport Queue.conn) :=
  default sender_wrote (snd <$> closeSend 4 0 sender_wrote).

Lemma puts_op id o (e e' : endpoint (messageTransport Queue.conn)) :
  reserves o = false -> validb o (e_conn e) = true -> e' = set_conn (exec o (e_conn e)) e -> puts id [] e e'.
Proof. intros Ho Hv ->. apply puts_locked; [done|by apply validb_ok]. Qed.

Lemma sender_written : written DefaultConfig false 2 (str "hello") sender_ended.
Proof.
  assert (R0 : reach DefaultConfig false demo_start) by constructor.
  assert (R1 : reach DefaultConfig false (e_conn sender_ready)).
  { apply (run_reach _ _ [OpFrame 1 (TransportParameters demo_params)] _ _ R0). vm_compute. reflexivity. }
  assert (R2 : reach DefaultConfig false (e_conn sender_opened)).
  { apply (run_reach _ _ [OpOpen dirUni] _ _ R1). vm_compute. reflexivity. }
  assert (R3 : reach DefaultConfig false (e_conn sender_wrote)).
  { apply (run_reach _ _ [OpReserve 0 5; OpSent 3 8] _ _ R2). vm_compute. reflexivity. }
  assert (R4 : reach DefaultConfig false (e_conn sender_ended)).
  { apply (run_reach _ _ [OpFinish 0; OpSent 4 4] _ _ R3). vm_compute. reflexivity. }
  pose proof in_rangeb_ok as Hr.
  apply (written_step _ _ _ (str "hello") [] sender_wrote); [|apply Hr; vm_compute; reflexivity| |exact R4|vm_compute; reflexivity].
  2:{ apply puts_other, (os_closeSend _ _ 4 0 None); [apply holds_send_check|]; vm_compute; reflexivity. }
  apply (written_step _ _ _ [] (str "hello") sender_opened); [|apply Hr; vm_compute; reflexivity| |exact R3|vm_compute; reflexivity].
  2:{ apply (puts_chunk 2 3 0 (str "hello") 5 None sender_opened sender_wrote); [apply holds_send_check| |]; vm_compute; reflexivity. }
  apply (written_step _ _ _ [] [] sender_ready); [|apply Hr; vm_compute; reflexivity| |exact R2|vm_compute; reflexivity].
  2:{ apply (puts_op _ (OpOpen dirUni)); vm_compute; reflexivity. }
  apply (written_step _ _ _ [] [] sender_start); [|apply Hr; vm_compute; reflexivity| |exact R1|vm_compute; reflexivity].
  2:{ apply (puts_op _ (OpFrame 1 (TransportParameters demo_params))); vm_compute; reflexivity. }
  apply (written_init _ _ _ (e_tr sender_start) 0). vm_compute. reflexivity.
Qed.

(** A server handles the two STREAM frames, and its application reads. *)
Definition receiver_ops : list op :=
  [ OpFrame 1 (TransportParameters demo_params); OpFrame 5 (Stream 2 0 (str "hello") false);
    OpFrame 6 (Stream 2 5 [] true); OpAccept dirUni; OpRead 0 10 ].
Definition receiver_start : Conn := newConn DefaultConfig true 0.
Definition receiver : Conn := then_run receiver_start receiver_ops.

Lemma played_run cfg isServer p ops c c' heard rcv rd :
  played cfg isServer p heard rcv rd c -> run ops c = Some c' ->
  let '(rcv', rd', _) := log_of p ops c rcv rd [] in
  played cfg isServer p (heard ++ mjoin (op_frames <$> ops)) rcv' rd' c'.
Proof.
  generalize (@nil (Z * Z)).
  revert c heard rcv rd. induction ops as [|o ops IH]; intros c heard rcv rd chs Hl E; simpl in *.
  { simplify_eq. by rewrite app_nil_r. }
  destruct (_ && _) eqn:Ev; [|done]. apply andb_true_iff in Ev as [Hi%in_rangeb_ok Hv%validb_ok].
  specialize (IH (exec o c) (heard ++ op_frames o) (rcv ++ delivered p o c) (rd ++ returned p o c) (chs ++ chunk p o c)
    ltac:(by constructor) E). by rewrite <- app_assoc in IH.
Qed.

Definition heard_frames : list frame :=
  [TransportParameters demo_params; Stream 2 0 (str "hello") false; Stream 2 5 [] true].

Lemma receiver_played : played DefaultConfig true 0 heard_frames (str "hello") (str "hello") receiver.
Proof.
  assert (E1 : run receiver_ops receiver_start = Some receiver) by (vm_compute; reflexivity).
  assert (E2 : log_of 0 receiver_ops receiver_start [] [] [] = (str "hello", str "hello", [])) by (vm_compute; reflexivity).
  pose proof (played_run DefaultConfig true 0 receiver_ops receiver_start receiver [] [] [] (played_init _ _ _ 0) E1) as H. rewrite E2 in H. exact H.
Qed.

Lemma stream_delivery_witness :
  tryRead 0 10 receiver = (TryDone [] (Some ErrEOF), receiver) /\
  played DefaultConfig true 0 heard_frames (str "hello") (str "hello") receiver /\ ended_id 2 (e_conn sender_ended).
Proof.
  assert (E : tryRead 0 10 receiver = (TryDone [] (Some ErrEOF), receiver)) by (vm_compute; reflexivity).
  split; [exact E|].
  destruct (stream_delivery DefaultConfig false 2 (str "hello") sender_ended demo_config sender_written) as (rs & fs & Hc & Hf & H).
  assert (Hfs : fs = [Stream 2 0 (str "hello") false; Stream 2 5 [] true]).
  { cbv in Hc. subst rs. destruct Hf as (gs & Hg & <-).
    inversion Hg as [|b1 g1 bs1 gs1 H1 Hg1]; subst. inversion Hg1 as [|b2 g2 bs2 gs2 H2 Hg2]; subst.
    inversion Hg2; subst. vm_compute in H1, H2. injection H1 as <-. injection H2 as <-. vm_compute. reflexivity. }
  destruct (H DefaultConfig true 0%nat heard_frames (str "hello") (str "hello") receiver demo_config receiver_played) as [H1 H2].
  - vm_compute. lia.
  - vm_compute. reflexivity.
  - intros off d fin Hin. rewrite Hfs. unfold heard_frames in Hin. apply elem_of_cons in Hin. destruct Hin as [|Hin]; [discriminate|exact Hin].
  - split; [exact receiver_played|]. apply (H2 10%nat receiver); [vm_compute; reflexivity|exact E].
Defined.

(** * Two connections *)

Definition meet : pair :=
  let a := newConn DefaultConfig false 0 in let b := newConn DefaultConfig true 0 in
  mkPair a [TransportParameters (declared a)] b [TransportParameters (declared b)].

(** The client opens a stream, sends on it and ends it; the server reads and
    resets its own direction; both ping. *)
Definition talk : list (bool * turn) :=
  [ (true, Handle 1); (false, Handle 1);
    (true, Do (OpOpen dirBidi)); (true, Chunk 0 5 (str "hello")); (true, Fin 0); (true, Do (OpRequestPing 2)); (true, Flush 3);
    (false, Handle 4); (false, Do (OpAccept dirBidi)); (false, Do (OpRead 0 5)); (false, Handle 4); (false, Do (OpCancelWrite 0 7));
    (false, Handle 5); (false, Flush 6) ].

Definition talked : pair := default meet (turns talk meet).

Lemma talked_paired : paired DefaultConfig DefaultConfig talked.
Proof. apply (turns_paired _ _ talk meet); [constructor|vm_compute; reflexivity]. Qed.

(** The reset, credit for one more stream and the answer to the ping are on
    their way to the client. *)
Lemma peers_never_reject_witness :
  rtl talked = [ResetStream 0 7 0; MaxStreams false 101; Ping true 0] /\ (handleFrameLocked 9 (ResetStream 0 7 0) (left talked)).1 = None.
Proof.
  assert (E : rtl talked = [ResetStream 0 7 0; MaxStreams false 101; Ping true 0]) by (vm_compute; reflexivity). split; [exact E|].
  apply (proj1 (peers_never_reject DefaultConfig DefaultConfig 9 talked demo_config demo_config talked_paired
    ltac:(apply in_rangeb_ok; vm_compute; reflexivity) ltac:(apply in_rangeb_ok; vm_compute; reflexivity)) _ _ E).
Defined.

Lemma peers_in_step_witness :
  ltr talked = [] /\ c_control (left talked) = [] /\ send_state (left talked) 0 = (5, true) /\ recv_state (right talked) 0 = (5, true).
Proof.
  assert (E1 : ltr talked = []) by (vm_compute; reflexivity). assert (E2 : c_control (left talked) = []) by (vm_compute; reflexivity).
  assert (E3 : send_state (left talked) 0 = (5, true)) by (vm_compute; reflexivity). split; [exact E1|]. split; [exact E2|]. split; [exact E3|].
  destruct (peers_in_step DefaultConfig DefaultConfig talked demo_config demo_config talked_paired) as [(_ & _ & _ & _ & H) _].
  rewrite (H E1 E2 0). exact E3.
Defined.

Definition roomb (a b : Conn) : bool :=
  (c_sent a + InitialConnectionReceiveWindow (c_config b) + InitialStreamReceiveWindow (c_config b) <=? varint_max) &&
  (MaxIncomingStreams (c_config b) + o_next (c_outBidi a) <=? 2 ^ 60) &&
  (MaxIncomingUniStreams (c_config b) + o_next (c_outUni a) <=? 2 ^ 60) && (c_nextPing b + 1 <=? varint_max).

Lemma roomb_ok a b : roomb a b = true -> room a b.
Proof.
  unfold roomb. intros H. split; [lia|intros []; simpl; lia|]. destruct (c_pingPending b); simpl; lia.
Qed.

Lemma roomy_ok x : roomb (left x) (right x) = true -> roomb (right x) (left x) = true -> roomy x.
Proof. intros. by split; apply roomb_ok. Qed.

(** The client has the reset, the credit and the answer to its ping to handle. *)
Lemma peers_settle_witness : work talked = 9%nat /\ exists y, rtc serves talked y /\ settled y.
Proof.
  assert (E1 : roomb (left talked) (right talked) = true) by (vm_compute; reflexivity).
  assert (E2 : roomb (right talked) (left talked) = true) by (vm_compute; reflexivity).
  split; [vm_compute; reflexivity|].
  exact (proj1 (proj2 (proj2 (peers_settle DefaultConfig DefaultConfig talked demo_config demo_config talked_paired (roomy_ok talked E1 E2))))).
Defined.

(** Windows of four bytes: the client has filled them, and the server has not
    read. *)
Definition narrow_config : Config := normalized (Some (mkConfig 0 0 4 4 0 0 0 0 false 0)).

Lemma narrow_ok : config_ok narrow_config.
Proof. apply (normalized_ok (Some _)). unfold config_typed, is_i64, is_u64. simpl. lia. Qed.

Definition narrow : pair :=
  let a := newConn narrow_config false 0 in let b := newConn narrow_config true 0 in
  mkPair a [TransportParameters (declared a)] b [TransportParameters (declared b)].

Definition filled : pair :=
  default narrow (turns [(true, Handle 1); (false, Handle 1); (true, Do (OpOpen dirBidi)); (true, Chunk 0 9 (str "full")); (false, Handle 2)] narrow).

Lemma filled_paired : paired narrow_config narrow_config filled.
Proof.
  apply (turns_paired _ _ [(true, Handle 1); (false, Handle 1); (true, Do (OpOpen dirBidi)); (true, Chunk 0 9 (str "full")); (false, Handle 2)] narrow);
    [constructor|vm_compute; reflexivity].
Qed.

Lemma no_credit_deadlock_witness :
  c_sent (left filled) = c_sendMax (left filled) /\ exists p, ptr (right filled) p /\ unread (deref (right filled) p) <> [].
Proof.
  assert (E : c_sent (left filled) = c_sendMax (left filled)) by (vm_compute; reflexivity). split; [exact E|].
  assert (S : settled filled) by (split; vm_compute; reflexivity).
  assert (W1 : 2 <= InitialConnectionReceiveWindow narrow_config) by (vm_compute; congruence).
  assert (W2 : 2 <= InitialStreamReceiveWindow narrow_config) by (vm_compute; congruence).
  exact (wp_connection _ _ (proj1 (no_credit_deadlock narrow_config narrow_config filled narrow_ok narrow_ok filled_paired S W1 W2 W1 W2)) E).
Defined.

(** A record of three bytes of padding and a RESET_STREAM frame whose size is
    encoded in more bytes than it needs. *)
Definition padded_reset : bytes := z2b <$> [0; 0; 0; 4; 8; 7; 0x40; 5; 1].

Lemma Parse_grammar_witness :
  Parse padded_reset = ParsedFrame (ResetStream 8 7 5) [z2b 1] /\
  exists pad e, padded_reset = pad ++ e ++ [z2b 1] /\ padding pad /\ frame_on_wire (ResetStream 8 7 5) e [z2b 1].
Proof.
  assert (E : Parse padded_reset = ParsedFrame (ResetStream 8 7 5) [z2b 1]) by (vm_compute; reflexivity). split; [exact E|].
  exact (proj1 (proj1 (Parse_grammar padded_reset) _ _) E).
Defined.

(** * The start and the end of an endpoint *)

(** A new endpoint whose peer has sent its parameters, then with the record read,
    and closed after that. *)
Definition hello_record : bytes := default [] (append_frames [TransportParameters demo_params] []).
Definition hello_transport : messageTransport Queue.conn := mkMessageTransport (Queue.mkConn [hello_record] [] false) DefaultMaxRecordSize.
Definition hello_endpoint : endpoint (messageTransport Queue.conn) := new_endpoint hello_transport DefaultConfig false 0.
Definition ready_endpoint : endpoint (messageTransport Queue.conn) :=
  match read_step 1 hello_endpoint with Some (_, e) => e | None => hello_endpoint end.
Definition ended_endpoint : endpoint (messageTransport Queue.conn) := default ready_endpoint (CloseWithError 2 7 (str "bye") ready_endpoint).

Lemma hello_fresh : is_closed hello_transport = false.
Proof. vm_compute. reflexivity. Qed.

Lemma ready_started : started hello_transport DefaultConfig false ready_endpoint.
Proof.
  apply (started_step _ _ _ hello_endpoint); [constructor|]. apply ls_other, (os_read _ _ 1 true); [|vm_compute; reflexivity].
  intros rec t E. vm_compute in E. injection E as <- _. vm_compute. reflexivity.
Qed.

Lemma ended_started : started hello_transport DefaultConfig false ended_endpoint.
Proof. apply (started_step _ _ _ ready_endpoint); [exact ready_started|]. apply ls_other, (os_close _ _ 2 7 (str "bye")). vm_compute. reflexivity. Qed.

Definition hello_ops : list op := [OpReceived 1 (zlen hello_record); OpFrame 1 (TransportParameters demo_params)].

Lemma ready_reach : reach DefaultConfig false (e_conn ready_endpoint).
Proof. apply (run_reach _ _ hello_ops demo_start); [constructor|vm_compute; reflexivity]. Qed.

Lemma transport_released_witness :
  c_closeErr (e_conn ended_endpoint) <> None /\ is_closed (e_tr ready_endpoint) = false /\ is_closed (e_tr ended_endpoint) = true.
Proof.
  assert (Hc : c_closeErr (e_conn ended_endpoint) <> None) by (vm_compute; discriminate). split; [exact Hc|]. split.
  - apply (transport_released hello_transport DefaultConfig false ready_endpoint hello_fresh ready_started). vm_compute. reflexivity.
  - destruct (proj1 (proj2 (transport_released hello_transport DefaultConfig false ended_endpoint hello_fresh ended_started)) Hc) as [H|(t & H & _)];
      [exact H|]. vm_compute in H. discriminate H.
Defined.

Lemma start_contract_witness :
  start None ready_endpoint (inl ready_endpoint) ready_endpoint /\
  c_ready (e_conn ready_endpoint) = true /\ is_closed (e_tr ready_endpoint) = false.
Proof.
  assert (H : start None ready_endpoint (inl ready_endpoint) ready_endpoint) by (apply start_handshake; vm_compute; reflexivity).
  split; [exact H|].
  destruct (proj2 (start_contract hello_transport DefaultConfig false None ready_endpoint hello_fresh demo_config ready_started ready_reach) _ _ H)
    as (_ & _ & H1 & _ & H2). split; [exact H1|exact H2].
Defined.
