(* ===== verification/Findings.v ===== *)
(** Where the code does not do what it, its comments or its documentation say:
    concrete runs that show it. *)

From S2P Require Import Prelude Varint Params Frame WriteLock Config State Core Stream Conn Transport Endpoint System Facts Ids Table Flow Life Control Wake Wire EndpointTheorems Scenario.
#[local] Existing Instance RFC9000.varint.
#[local] Existing Instance RFC9000.laws.
#[local] Existing Instance Doubling.doubling.

(** The state after a run of valid operations; the initial state when one of
    them is not valid. *)
Definition after (cfg : Config) (ops : list op) : Conn :=
  let c := newConn cfg false 0 in default c (run ops c).

Definition ran (cfg : Config) (ops : list op) : bool :=
  bool_decide (is_Some (run ops (newConn cfg false 0))).

Lemma ran_reach cfg ops : ran cfg ops = true -> reach cfg false (after cfg ops).
Proof.
  unfold ran, after. intros H%bool_decide_eq_true. destruct H as [c' E]. rewrite E.
  eapply run_reach; [constructor|exact E].
Qed.

(** * A window of one byte *)

Definition one_byte : Config := normalized (Some (set_InitialStreamReceiveWindow 1 zeroConfig)).

Definition one_byte_ops : list op :=
  [ OpFrame 1 (TransportParameters demo_params);
    OpFrame 2 (Stream 1 0 (str "x") false);
    OpAccept dirBidi;
    OpRead 0 1;
    OpTakeControl 3 ].

(** With a stream window of one byte, which the configuration allows, the peer
    sends one byte, the application reads it, and the peer is never given any
    more credit: half of the window is 0, and no limit is below that. The
    stream is open, everything was read, and the limit is what was received. *)
Theorem window_of_one_stalls :
  ran one_byte one_byte_ops = true /\
  let c := after one_byte one_byte_ops in
  let s := deref c 0 in
  s_finRecv s = false /\ s_recvErr s = None /\ unread s = [] /\ s_readOffset s = 1 /\
  s_recvOffset s = 1 /\ s_recvMax s = 1 /\ c_control c = [] /\ c_controlWake c = false.
Proof. vm_compute. repeat split. Qed.

(** * A peek of a whole window *)

Definition small_window : Config := normalized (Some (set_InitialStreamReceiveWindow 4 zeroConfig)).

Definition peek_ops : list op :=
  [ OpFrame 1 (TransportParameters demo_params);
    OpFrame 2 (Stream 1 0 (str "a") false);
    OpAccept dirBidi;
    OpRead 0 1;
    OpFrame 3 (Stream 1 1 (str "bcd") false) ].

(** A [Peek] of four bytes passes the check against the window of four, but
    after one byte was read it can only be satisfied by data that the peer is
    not allowed to send: the peer has used all of its credit, three bytes are
    buffered, and the call waits. *)
Theorem peek_of_a_window_blocks :
  ran small_window peek_ops = true /\
  let c := after small_window peek_ops in
  let s := deref c 0 in
  peek_check 4 c = None /\ (tryPeek 0 4 c).1 = TryWait 0 0 /\
  unread s = str "bcd" /\ s_recvOffset s = s_recvMax s /\ (takeControl 4 c).1 = [].
Proof. vm_compute. repeat split. Qed.

(** * The limit on streams *)

Definition many_streams : Config := normalized (Some (set_MaxIncomingUniStreams (2 ^ 60) zeroConfig)).

Definition many_ops : list op :=
  [ OpFrame 1 (TransportParameters demo_params);
    OpFrame 2 (Stream 3 0 (str "x") true);
    OpAccept dirUni;
    OpRead 0 1 ].

(** With the largest stream limit that the configuration allows, the first
    stream that completes makes the connection send a MAX_STREAMS frame above
    2^60, which the protocol forbids, and which this package's own parser
    rejects. *)
Theorem stream_limit_exceeds_protocol :
  ran many_streams many_ops = true /\
  let c := after many_streams many_ops in
  (takeControl 3 c).1 = [MaxStreams true (2 ^ 60 + 1)] /\
  exists b, Append (MaxStreams true (2 ^ 60 + 1)) [] = Some b /\
    exists e, Parse b = ParsedError e /\ err_Code e = FrameEncodingError.
Proof.
  split; [vm_compute; reflexivity|]. split; [vm_compute; reflexivity|].
  eexists. split; [vm_compute; reflexivity|]. eexists. split; vm_compute; reflexivity.
Qed.

(** * Datagrams *)

Definition with_datagrams (n : Z) : Parameters :=
  mkParameters 10000 4096 1024 1024 1024 10 10 n DefaultMaxRecordSize.

Definition datagram_endpoint (n : Z) : endpoint (messageTransport Queue.conn) :=
  let e := DialMessages (Queue.mkConn [] [] false) None false 0 in
  set_conn (handleParametersLocked (with_datagrams n) (e_conn e)) e.

Definition datagram_error (n : Z) (len : nat) : option (option error) :=
  r ← SendDatagram 1 (replicate len (z2b 0)) (datagram_endpoint n); Some r.1.

(** When the peer accepts DATAGRAM frames of one byte, the size that the error
    reports is -1. *)
Theorem datagram_limit_underflows : datagram_error 1 0 = Some (Some (ErrDatagramTooLarge (-1))).
Proof. vm_compute. reflexivity. Qed.

(** With a limit of 64 bytes, the error reports that 61 bytes fit; 62 do. *)
Theorem datagram_limit_not_tight :
  datagram_error 64 63 = Some (Some (ErrDatagramTooLarge 61)) /\ datagram_error 64 62 = Some None.
Proof. vm_compute. by split. Qed.

Definition datagram_config : Config := normalized (Some (mkConfig 0 0 0 0 0 0 0 0 true 0)).

Definition datagram_ops : list op :=
  OpFrame 1 (TransportParameters demo_params) ::
  ((fun i => OpFrame 2 (Datagram [z2b (Z.of_nat i)])) <$> seq 0 101).

(** Datagrams are not delivered reliably: the hundred and first that arrives
    before the application receives one is dropped. *)
Theorem datagrams_are_dropped :
  ran datagram_config datagram_ops = true /\
  let c := after datagram_config datagram_ops in
  length (c_datagrams c) = 100%nat /\ [z2b 100] ∉ c_datagrams c.
Proof.
  split; [vm_compute; reflexivity|]. split; [vm_compute; reflexivity|].
  apply (bool_decide_eq_false ([z2b 100] ∈ c_datagrams (after datagram_config datagram_ops))). vm_compute. reflexivity.
Qed.

(** * Error codes *)

(** An application error code of 2^62 or more, which the type of the argument
    allows, makes [CloseWithError] panic once the connection has already been
    marked as closed: no CONNECTION_CLOSE frame is sent. *)
Theorem close_code_panics {V : QuicVarint} {VL : QuicVarintLaws V} {T} {RT : RecordTransport T} now code msg (e : endpoint T) :
  2 ^ 62 <= code -> c_closeErr (e_conn e) = None -> CloseWithError now code msg e = None.
Proof. apply CloseWithError_panics. Qed.

Definition cancel_ops : list op :=
  [ OpFrame 1 (TransportParameters demo_params); OpFrame 2 (Stream 1 0 (str "x") false); OpAccept dirBidi ].

Definition cancelled (cancel : nat -> Z -> Conn -> Conn) (code : Z) : endpoint (messageTransport Queue.conn) :=
  set_conn (cancel 0%nat code (after DefaultConfig cancel_ops)) (DialMessages (Queue.mkConn [] [] false) None false 0).

(** The same of [CancelRead] and [CancelWrite], whose codes go into STOP_SENDING
    and RESET_STREAM frames: the call returns, and the next flush of the control
    queue panics in the goroutine of [writeLoop]. The largest code that QUIC can
    express is sent. *)
Theorem cancel_code_panics :
  ran DefaultConfig cancel_ops = true /\
  flushControl 3 (cancelled cancelRead (2 ^ 62)) = None /\ flushControl 3 (cancelled cancelWrite (2 ^ 62)) = None /\
  is_Some (flushControl 3 (cancelled cancelRead (2 ^ 62 - 1))) /\ is_Some (flushControl 3 (cancelled cancelWrite (2 ^ 62 - 1))).
Proof. vm_compute. split_and!; try reflexivity; by eexists. Qed.

(** * The idle timeout *)

(** An idle timeout below a millisecond is kept, and closes this end, but it
    is declared to the peer as 0, which stands for none. *)
Theorem short_idle_timeout_undeclared :
  let cfg := normalized (Some (set_cfg_MaxIdleTimeout 999999 zeroConfig)) in
  cfg_MaxIdleTimeout cfg = 999999 /\ MaxIdleTimeout (localParameters cfg) = 0.
Proof. vm_compute. by split. Qed.

(** * Parsing *)

(** A record that ends inside a frame type is reported as a frame type that is
    not allowed, type 0, rather than as truncated. *)
Theorem truncated_type_message :
  exists e, Parse [z2b 0x40] = ParsedError e /\ err_Reason e = str "frame type 0x0 is not allowed".
Proof. eexists. split; vm_compute; reflexivity. Qed.
